(* ===== verification/_CoqProject ===== *)
-Q . S2P
Prelude.v
Ranges.v
Bitfield.v
Cap.v
CapEntry.v
CapRing.v
CapSteps.v
CapOps.v
Revoke.v
RevokeTree.v
Heap.v
UserHeap.v
KernelMemory.v
CapMap.v
Creation.v
Frame.v
PageTable.v
PageMap.v
PageWalk.v
CapSlots.v
PageMapping.v
PageMapInit.v
KernelSpace.v
LinkedList.v
Threads.v
Scheduling.v
Portal.v
SignalListener.v
ThreadProps.v
Processors.v
Interrupts.v
Traces.v
Broadcasts.v
TidexMutex.v
TaskletQueue.v
Places.v
Monitors.v
System.v
Futex.v
MemMapper.v
Elf.v
BootMemory.v
UserThreads.v
Topology.v
HWThreads.v
Loader.v
InitLoader.v
PciRing.v
