(* ===== verification/Prelude.v ===== *)
(** * MyThOS: a verification library

    MyThOS is a micro-kernel in C++.  User programs hold capabilities to kernel
    objects and invoke them through portals; hardware threads process requests to
    kernel objects as tasks.  This library models the kernel (src/kernel), its start
    and the core of the user-space runtime as executable functions and step
    relations and proves their parts correct.  Paths
    are relative to src/kernel; the comment before each definition names the lines
    it translates.

    ** The parts of the kernel and their files

    - Words and containers.  Ranges.v: util/alignment, [Range], [VectorMax],
      [RangeSet].  Bitfield.v: util/bitfield.  LinkedList.v: util/linked-list.
      Heap.v: util/first-fit-heap-intrusive.
    - Capabilities.  Cap.v: the capability word of objects/common/objects/Cap.hh
      and kernel addresses.  CapEntry.v: objects/capability-spinning, the entries
      that hold capabilities, linked to the resource list.  CapOps.v:
      objects/capability-utils, inheritance and references.  Revoke.v:
      RevokeOperation.  CapRing.v and CapSteps.v give the abstract view of the
      resource list; RevokeTree.v proves revocation with it.
    - Memory objects.  KernelMemory.v: objects/kernel-memory, on the heap.
      Creation.v: the invocation of kernel memory that creates objects.
      CapMap.v: objects/capmap, the tree that translates capability pointers to
      entries.  Frame.v: frames and device memory, PageTable.v and PageMap.v: page
      tables and page maps, all of objects/memory-amd64.  PageWalk.v, CapSlots.v,
      PageMapping.v and PageMapInit.v prove them.
    - Threads.  Threads.v: objects/execution-context and
      objects/scheduling-context.  Scheduling.v and ThreadProps.v prove them.
      Portal.v: objects/portal.  SignalListener.v: objects/signal-listener.
      Processors.v: objects/processor-allocator.  Interrupts.v:
      objects/interrupt-control.
      System.v: one state with all these objects, connected.
    - Concurrency.  Traces.v: executions and sequential contracts.  TidexMutex.v:
      util/tidex-mutex.  TaskletQueue.v: the queue of
      async/monitor-common/async/TaskletQueue.hh.  Places.v: the task queues of a
      hardware thread, Place.hh and Place.cc.  Monitors.v: DeletionMonitor,
      NestedMonitorDelegating and MutexDelegating.  Broadcasts.v:
      PML4InvalidationBroadcast and DeleteBroadcast, which ask all hardware threads
      before memory is freed.
    - Start of the kernel.  KernelSpace.v: boot/kernelspace-amd64, the page tables of the
      kernel.  BootMemory.v: boot/kmem-common and the three memory maps, which fill
      the kernel memory.  Topology.v: the firmware tables of util/sys-structures that
      name the hardware threads.  HWThreads.v: boot/apboot-common, descriptors and
      core-local memory, which give each hardware thread its state.  Elf.v,
      MemMapper.v, Loader.v and InitLoader.v: boot/init-loader-amd64, which creates
      the first program with the objects above.
    - User-space runtime.  UserHeap.v: runtime/memory, on the heap of Heap.v.
      Futex.v: runtime/cxx/runtime/futex.cc.  UserThreads.v: runtime/async with the
      futures and locks of portals, SimpleCapAlloc, and the end of threads in
      cxxsupport.cc.
    - Host.  PciRing.v: mythos/pci-mpsc-queue and the debug log, which a card sends
      to its host.

    ** How code corresponds to definitions

    A [w]-bit unsigned integer is a [Z] with [wrap w] where the code wraps.  A
    C++ method is a definition of its name (with a prefix where two classes share
    a name); [optional] is [OK] or [THROW].  Synchronous kernel code is a
    computation [kernel S A] from a state to an [outcome]: [Done], [AssertFail] for
    a failed ASSERT or PANIC or for behaviour that C++ leaves undefined, or
    [SpinsForever] for a lock that is never released.  Components do not fix the
    state: the classes [HasEntries], [HasPageTables], [HasThreads], [HasPortals],
    [HasListeners] and their like say which store a state holds.  Virtual functions
    of other objects are classes as well ([KernelObjects], [RefSubjects],
    [Invocations], [KEventSources], [SignalSinks], [Portals], [PortalUsers],
    [Invocables]); clients are proved against the class and its laws, and System.v
    discharges them with the modelled objects.  [Fifo] is the contract of the
    linked list for its clients.

    CapEntry.v to SignalListener.v and the files of the start follow one hardware
    thread without interference; messages to other hardware threads, to monitors and to the user are recorded
    as events in order.  The interleavings of hardware threads are the subject of
    ThreadProps.v (Module [Waiting]), TidexMutex.v, TaskletQueue.v, Places.v,
    Monitors.v, Broadcasts.v, Futex.v, PciRing.v and UserThreads.v (Module
    [Cleaner]), where every access to an atomic variable is a step of a relation
    and any number of threads take steps in any order.  Places.v and Monitors.v use
    the queue by the contract that TaskletQueue.v proves.

    ** What is proved

    - Resource list: inserting, moving and removing entries implement the
      operations on a cyclic list; references are inserted behind their parent;
      revocation and deletion terminate and remove exactly the descendants; refused
      moves release their locks.
    - Memory: the heap partitions its memory into free ranges and blocks; lists of
      blocks are allocated completely or not at all, and the creation of an object
      is a transaction; the lookup of capability
      pointers is the walk along their bits; frames never grow or gain rights.
      Mapping a frame changes the translation of the processor exactly as
      requested, and every present page keeps its reference.
    - Threads: the scheduler runs the first context that is not blocked, with its
      own registers; a thread is queued exactly when its last reason to be blocked
      goes away; registers survive the round trip through invocations; no wakeup of
      a waiting thread is lost.  Portals return the context of the call with the
      answer; listeners implement their contract of signals; processors are handed
      out once.
    - Concurrency: the mutex is exclusive, in order and makes progress; the tasklet
      queue is linearizable; a hardware thread does not leave a task behind; the
      monitors serve requests one by one in order; the broadcasts answer only when no
      hardware thread uses the deleted table or object any more; the message ring is
      a queue.
    - Start: the kernel's address space has exactly the documented mappings and its
      code is never writable; the kernel memory gets exactly the usable memory; the
      enabled processors are found in order, and each finds its own state; the
      image of the first program is loaded as its headers ask for, by mappings that
      translate exactly the requested pages.
    - User programs: heap blocks do not overlap, futexes wake the first waiters in
      order and touch no element of a thread that has left, an invocation returns
      its own answer, locks on portals exclude each other, capability pointers are
      handed out once, and no wakeup is lost between the end of a thread and the
      thread that waits for it.
    - Defects of the code, as theorems about the faithful definitions: cleared
      flags on unlink, small pages that munmap ignores, ranges that overrun,
      busy portals that change their target, replies without owner, schedulers
      set on loaded threads or forgetting the selected one, processors handed out
      twice, deletions scheduled twice, the delegating mutex that stops in
      builds with assertions, the invalidation broadcast that is never initialised,
      bad memory taken for usable, the search for the MP table behind its area,
      sizes that wrap in malloc, requeued futex waiters that stay queued, and chained
      continuations that are dropped.

    ** Bounds and fuel

    Loops that are not structural take fuel, and their theorems say how much is
    enough: more than the number of descendants for the loops of revocation, the
    number of queued threads plus two for the scheduler, the length of the list for
    searches in linked lists.  The lookup of capability pointers consumes at
    least two of at most 32 bits per map, so 17 maps are enough.  Page walks recurse
    on the level of the table.  The loops over firmware tables take one unit per
    entry, and the length of the table is enough because an entry of length 0 ends
    them; those over futex queues take the length of the queue; waiting for an answer
    takes one unit per system call.  Fuel that runs out is [SpinsForever] or [None],
    never a result.

    ** Not modelled

    - Memory orders weaker than sequential consistency, and interference between
      hardware threads inside the operations on the resource list.
    - Processor and device drivers, and the assembler of the start: inline assembler
      and memory-mapped registers (cpu, objects/rapl-driver-intel,
      objects/cpudriver-knc, the entry code of boot).  What kernel objects use of
      them is part of the state of Threads.v and HWThreads.v.
    - The monitors of other configurations (async/monitor-homed,
      async/simple-monitor-home and others).
    - The wrappers of the user-space runtime that only fill invocation buffers, its
      stubs of POSIX functions, the content of invocation buffers in UserThreads.v,
      applications, host programs, tests, logging and output. *)

From stdpp Require Import base tactics numbers list gmap sorting.
From Stdlib Require Import ZArith Lia.

Local Open Scope Z_scope.

(** ** Machine words

    A [w]-bit unsigned integer is a [Z]; [wrap w] is the conversion to the
    type, the C++ semantics of unsigned overflow. *)

Definition wrap (w x : Z) : Z := x mod 2 ^ w.

Definition fits (w x : Z) : Prop := 0 ≤ x < 2 ^ w.

Declare Scope mythos_scope.
Delimit Scope mythos_scope with mythos.
Open Scope mythos_scope.

Notation "'u8' x" := (wrap 8 x) (at level 9, x at level 9) : mythos_scope.
Notation "'u16' x" := (wrap 16 x) (at level 9, x at level 9) : mythos_scope.
Notation "'u32' x" := (wrap 32 x) (at level 9, x at level 9) : mythos_scope.
Notation "'u64' x" := (wrap 64 x) (at level 9, x at level 9) : mythos_scope.

(** ** Error values and [optional] *)

(** [mythos::Error], mythos/error/mythos/Error.hh:32-60 *)
Inductive Error :=
  | SUCCESS | UNSET | INHIBIT | GENERIC_ERROR | INVALID_CAPABILITY
  | INVALID_ARGUMENT | NON_CANONICAL_ADDRESS | UNALIGNED
  | INSUFFICIENT_RESOURCES | LOST_RACE | RETRY | NO_MESSAGE | TYPE_MISMATCH
  | NOT_IMPLEMENTED | CAP_NONEMPTY | NOT_KERNELMEM | CYCLIC_DEPENDENCY
  | PORTAL_NOT_OPEN | PORTAL_NOT_INVOKED | PORTAL_NO_BUFFER
  | PORTAL_NO_ENDPOINT | NO_LOOKUP | INVALID_REQUEST | REQUEST_DENIED
  | PAGEMAP_MISSING | PAGEMAP_NOCONF.

#[global] Instance Error_eq_dec : EqDecision Error.
Proof. solve_decision. Defined.

(** [Error]'s numeric value, mythos/error/mythos/Error.hh:32-60 *)
Definition Error_code (e : Error) : Z :=
  match e with
  | SUCCESS => 0 | UNSET => 1 | INHIBIT => 2 | GENERIC_ERROR => 3
  | INVALID_CAPABILITY => 4 | INVALID_ARGUMENT => 5
  | NON_CANONICAL_ADDRESS => 6 | UNALIGNED => 7
  | INSUFFICIENT_RESOURCES => 8 | LOST_RACE => 9 | RETRY => 10
  | NO_MESSAGE => 11 | TYPE_MISMATCH => 12 | NOT_IMPLEMENTED => 13
  | CAP_NONEMPTY => 14 | NOT_KERNELMEM => 15 | CYCLIC_DEPENDENCY => 16
  | PORTAL_NOT_OPEN => 17 | PORTAL_NOT_INVOKED => 18
  | PORTAL_NO_BUFFER => 19 | PORTAL_NO_ENDPOINT => 20 | NO_LOOKUP => 21
  | INVALID_REQUEST => 22 | REQUEST_DENIED => 23 | PAGEMAP_MISSING => 24
  | PAGEMAP_NOCONF => 25
  end.

(** [optional<T>]: either a value with state [SUCCESS] or another state
    without a usable value, util/optional/util/optional.hh:77-102 *)
Inductive optional (A : Type) :=
  | OK (a : A)
  | THROW (e : Error).
Arguments OK {A} a.
Arguments THROW {A} e.

(** [OptionalBase::state], util/optional/util/optional.hh:39-47 *)
Definition state {A} (o : optional A) : Error :=
  match o with OK _ => SUCCESS | THROW e => e end.

Definition isOK {A} (o : optional A) : bool :=
  match o with OK _ => true | THROW _ => false end.

#[global] Instance optional_ret : MRet optional := @OK.
#[global] Instance optional_bind : MBind optional := λ A B f m,
  match m with OK a => f a | THROW e => THROW e end.

Lemma bind_OK {A B} (m : optional A) (f : A → optional B) b :
  m ≫= f = OK b ↔ ∃ a, m = OK a ∧ f a = OK b.
Proof.
  split.
  - destruct m as [a|e]; intros H; [eauto | discriminate].
  - by intros (a & -> & ?).
Qed.

(** ** Outcomes of kernel code

    Synchronous kernel code either finishes with a result and a state, hits a
    failed [ASSERT]/[PANIC] (the debug build stops the hardware thread), or
    spins on a lock bit that nobody is going to release: in an execution
    without interference the spin never ends. *)

Inductive outcome (S A : Type) :=
  | Done (a : A) (s : S)
  | AssertFail
  | SpinsForever.
Arguments Done {S A} a s.
Arguments AssertFail {S A}.
Arguments SpinsForever {S A}.

Definition kernel (S A : Type) : Type := S → outcome S A.

Definition kret {S A} (a : A) : kernel S A := λ s, Done a s.

Definition kbind {S A B} (m : kernel S A) (f : A → kernel S B) : kernel S B :=
  λ s, match m s with
       | Done a s' => f a s'
       | AssertFail => AssertFail
       | SpinsForever => SpinsForever
       end.

Definition kget {S} : kernel S S := λ s, Done s s.
Definition kput {S} (s : S) : kernel S unit := λ _, Done tt s.
Definition kmodify {S} (f : S → S) : kernel S unit := λ s, Done tt (f s).

(** [ASSERT], util/assert/util/assert.hh:41-45 *)
Definition kassert {S} (b : bool) : kernel S unit :=
  λ s, if b then Done tt s else AssertFail.

Notation "x <-- m ;; k" := (kbind m (λ x, k))
  (at level 100, m at next level, right associativity) : mythos_scope.
Notation "m ;;; k" := (kbind m (λ _, k))
  (at level 100, right associativity) : mythos_scope.

Lemma kbind_Done {S A B} (m : kernel S A) (f : A → kernel S B) s b s' :
  kbind m f s = Done b s' ↔ ∃ a s1, m s = Done a s1 ∧ f a s1 = Done b s'.
Proof.
  unfold kbind. split.
  - destruct (m s) as [a s1| |]; intros H; [eauto | discriminate..].
  - by intros (a & s1 & -> & ?).
Qed.

Lemma kbind_run {S A B} (m : kernel S A) (f : A → kernel S B) s a s' :
  m s = Done a s' → kbind m f s = f a s'.
Proof. unfold kbind. by intros ->. Qed.

Lemma kassert_bind {S A} b (k : kernel S A) s : b = true → (kassert b;;; k) s = k s.
Proof. by intros ->. Qed.

Lemma kassert_run {S} b (s : S) : b = true → kassert b s = Done tt s.
Proof. by intros ->. Qed.

Lemma kassert_Done {S} b (s s' : S) u : kassert b s = Done u s' ↔ b = true ∧ s' = s.
Proof. unfold kassert. destruct u, b; naive_solver. Qed.

(** ** Automation *)

Create HintDb mythos discriminated.
Create Rewrite HintDb words.

(** A computation that leaves an observation of the state as it is. *)
Definition keeps {S A X} (obs : S → X) (m : kernel S A) : Prop :=
  ∀ s a s', m s = Done a s' → obs s' = obs s.

Create HintDb keeps discriminated.

Lemma keeps_ret {S A X} (obs : S → X) (a : A) : keeps obs (kret a).
Proof. by intros s b s' [= _ <-]. Qed.

Lemma keeps_bind {S A B X} (obs : S → X) (m : kernel S A) (f : A → kernel S B) :
  keeps obs m → (∀ a, keeps obs (f a)) → keeps obs (kbind m f).
Proof.
  intros Hm Hf s b s' (a & s1 & E & E')%kbind_Done. rewrite (Hf a _ _ _ E'). by eapply Hm.
Qed.

Lemma keeps_assert {S X} (obs : S → X) b : keeps obs (kassert b).
Proof. intros s u s' [_ ->]%kassert_Done. done. Qed.

Lemma keeps_get {S X} (obs : S → X) : keeps obs kget.
Proof. by intros s a s' [= _ <-]. Qed.

Lemma keeps_assertfail {S A X} (obs : S → X) : keeps obs (λ _ : S, @AssertFail S A).
Proof. by intros s a s'. Qed.

Lemma keeps_spins {S A X} (obs : S → X) : keeps obs (λ _ : S, @SpinsForever S A).
Proof. by intros s a s'. Qed.

#[export] Hint Resolve keeps_ret keeps_bind keeps_assert keeps_get keeps_assertfail keeps_spins : keeps.

(** Decomposes a computation that keeps an observation. *)
Ltac keeps :=
  repeat first
    [ progress intros | solve [eauto 2 with keeps] | apply keeps_bind
    | match goal with |- keeps _ (match ?x with _ => _ end) => destruct x end
    | match goal with |- keeps _ (let '(_, _) := ?x in _) => destruct x end
    | match goal with |- keeps _ (if ?x then _ else _) => destruct x end ].

(** Case analysis on the first stuck boolean comparison of integers. *)
Ltac zcase :=
  match goal with
  | |- context [Z.eqb ?a ?b] => destruct (Z.eqb_spec a b)
  | |- context [Z.ltb ?a ?b] => destruct (Z.ltb_spec a b)
  | |- context [Z.leb ?a ?b] => destruct (Z.leb_spec a b)
  | H : context [Z.eqb ?a ?b] |- _ => destruct (Z.eqb_spec a b)
  | H : context [Z.ltb ?a ?b] |- _ => destruct (Z.ltb_spec a b)
  | H : context [Z.leb ?a ?b] |- _ => destruct (Z.leb_spec a b)
  end.

Ltac zcases := repeat (zcase; simpl in *; try lia).

(** Turn boolean hypotheses built from [&&], [||] and comparisons into
    propositions. *)
Ltac bool_hyps :=
  repeat match goal with
  | H : _ && _ = true |- _ => apply andb_prop in H; destruct H
  | H : negb _ = true |- _ => apply negb_true_iff in H
  | H : negb _ = false |- _ => apply negb_false_iff in H
  | H : _ || _ = false |- _ => apply orb_false_iff in H; destruct H
  | H : Z.eqb _ _ = true |- _ => apply Z.eqb_eq in H
  | H : Z.eqb _ _ = false |- _ => apply Z.eqb_neq in H
  | H : Z.ltb _ _ = true |- _ => apply Z.ltb_lt in H
  | H : Z.ltb _ _ = false |- _ => apply Z.ltb_ge in H
  | H : Z.leb _ _ = true |- _ => apply Z.leb_le in H
  | H : Z.leb _ _ = false |- _ => apply Z.leb_gt in H
  end.

(** ** Words *)

Lemma wrap_fits w x : 0 ≤ w → fits w (wrap w x).
Proof. intros Hw. apply Z.mod_pos_bound. by apply Z.pow_pos_nonneg. Qed.

Lemma wrap_small w x : fits w x → wrap w x = x.
Proof. apply Z.mod_small. Qed.

Lemma wrap_wrap w x : wrap w (wrap w x) = wrap w x.
Proof. apply Zmod_mod. Qed.

#[export] Hint Resolve wrap_fits : mythos.
#[export] Hint Rewrite wrap_wrap : words.

Lemma wrap_testbit w x i :
  0 ≤ w → 0 ≤ i → Z.testbit (wrap w x) i = (i <? w) && Z.testbit x i.
Proof.
  intros Hw Hi. unfold wrap. destruct (Z.ltb_spec i w).
  - by rewrite Z.mod_pow2_bits_low.
  - by rewrite Z.mod_pow2_bits_high by lia.
Qed.

Lemma fits_testbit w x i : 0 ≤ w → fits w x → w ≤ i → Z.testbit x i = false.
Proof.
  intros Hw Hx Hi. rewrite <- (wrap_small w x Hx).
  rewrite wrap_testbit by lia. by rewrite (proj2 (Z.ltb_ge _ _)).
Qed.

Lemma fits_bits w x :
  0 ≤ w → 0 ≤ x → (∀ i, w ≤ i → Z.testbit x i = false) → fits w x.
Proof.
  intros Hw Hx Hb. split; [done|].
  replace x with (wrap w x); [by apply wrap_fits|].
  apply Z.bits_inj'. intros i Hi. rewrite wrap_testbit by lia.
  destruct (Z.ltb_spec i w); [done|]. symmetry. by apply Hb.
Qed.

Lemma fits_lor w x y : 0 ≤ w → fits w x → fits w y → fits w (Z.lor x y).
Proof.
  intros Hw Hx Hy. apply fits_bits; [done| |].
  - apply Z.lor_nonneg. destruct Hx, Hy. done.
  - intros i Hi. rewrite Z.lor_spec, (fits_testbit w x), (fits_testbit w y); done.
Qed.

Lemma fits_land_l w x y : 0 ≤ w → fits w x → fits w (Z.land x y).
Proof.
  intros Hw Hx. apply fits_bits; [done| |].
  - apply Z.land_nonneg. destruct Hx; auto.
  - intros i Hi. by rewrite Z.land_spec, (fits_testbit w x).
Qed.

#[export] Hint Resolve fits_lor fits_land_l : mythos.

(** Bit-by-bit equality of integers: introduces the bit index and pushes
    [Z.testbit] through the word operations. *)
Ltac bits :=
  apply Z.bits_inj'; intros ?i ?Hi;
  repeat first
    [ rewrite Z.lor_spec | rewrite Z.land_spec | rewrite Z.ldiff_spec
    | rewrite Z.lxor_spec | rewrite Z.lnot_spec by lia
    | rewrite Z.shiftl_spec by lia | rewrite Z.shiftr_spec by lia
    | rewrite wrap_testbit by lia ].

(** ** Lists without an element *)

Lemma filter_absent (x : Z) (l : list Z) : x ∉ l → filter (.≠ x) l = l.
Proof.
  induction l as [|y l IH]; [done|]. intros [Hy Hl]%not_elem_of_cons.
  rewrite filter_cons_True by done. f_equal. by apply IH.
Qed.

Lemma filter_one (h : Z) (l : list Z) : NoDup l → h ∈ l → length l = S (length (filter (.≠ h) l)).
Proof.
  intros Hn. induction Hn as [|x l Hx Hn IH]; [by intros ?%not_elem_of_nil|].
  rewrite filter_cons, elem_of_cons. intros [->|Hi].
  - rewrite decide_False by naive_solver. by rewrite filter_absent.
  - rewrite decide_True by (intros ->; done). cbn. by rewrite IH.
Qed.

(** Closes a decidable closed goal by evaluation. *)
Ltac computes := apply (bool_decide_unpack _); vm_compute; exact I.
