(* ===== verification/Ranges.v ===== *)
(** * Alignment, address ranges and sets of ranges

    Models util/alignment/util/align.hh and the containers of
    util/datatypes/util/ ([Range], [VectorMax], [RangeSet],
    [BacktrackBuffer]).  Addresses are 64-bit words. *)

From stdpp Require Import base tactics numbers list.
From Stdlib Require Import ZArith Lia.
From S2P Require Import Prelude.

Local Open Scope Z_scope.

(** ** Alignment *)

Module Align.

(** [is_aligned], util/alignment/util/align.hh:34-35 *)
Definition is_aligned (v a : Z) : bool := Z.eqb (v mod a) 0.

(** [round_down], util/alignment/util/align.hh:37-38 *)
Definition round_down (v a : Z) : Z := u64 ((v / a) * a).

(** [round_up], util/alignment/util/align.hh:40-41 *)
Definition round_up (v a : Z) : Z := u64 ((u64 (v + a - 1) / a) * a).

(** [alignWord], [alignLine], [align4K]..., util/alignment/util/align.hh:69-76 *)
Definition alignWord : Z := 8.
Definition alignLine : Z := 64.
Definition align4K : Z := 2 ^ 12.
Definition align2M : Z := 2 ^ 21.

Lemma is_aligned_spec v a : is_aligned v a = true ↔ v mod a = 0.
Proof. apply Z.eqb_eq. Qed.

Lemma is_aligned_mult k a : 0 < a → is_aligned (k * a) a = true.
Proof. intros. apply is_aligned_spec. by apply Z.mod_mul; lia. Qed.

Lemma is_aligned_add x y a :
  0 < a → is_aligned x a = true → is_aligned y a = true → is_aligned (x + y) a = true.
Proof.
  rewrite !is_aligned_spec. intros Ha Hx Hy.
  by rewrite Zplus_mod, Hx, Hy.
Qed.

Lemma is_aligned_sub x y a :
  0 < a → is_aligned x a = true → is_aligned y a = true → is_aligned (x - y) a = true.
Proof.
  rewrite !is_aligned_spec. intros Ha Hx Hy.
  by rewrite Zminus_mod, Hx, Hy.
Qed.

Lemma round_down_bounds v a :
  0 < a → fits 64 v →
  is_aligned (round_down v a) a = true ∧ round_down v a ≤ v < round_down v a + a.
Proof.
  intros Ha [Hv1 Hv2]. unfold round_down.
  assert (0 ≤ v / a * a ≤ v).
  { split; [apply Z.mul_nonneg_nonneg; [by apply Z.div_pos|lia]|].
    pose proof (Z.mul_div_le v a Ha). lia. }
  rewrite wrap_small by (split; lia).
  split; [by apply is_aligned_mult|].
  pose proof (Z.mul_succ_div_gt v a Ha). lia.
Qed.

Lemma round_up_bounds v a :
  0 < a → fits 64 v → v + a - 1 < 2 ^ 64 →
  is_aligned (round_up v a) a = true ∧ v ≤ round_up v a < v + a ∧ fits 64 (round_up v a).
Proof.
  intros Ha [Hv1 Hv2] Hov. unfold round_up.
  rewrite (wrap_small 64 (v + a - 1)) by (split; lia).
  pose proof (Z.mul_div_le (v + a - 1) a Ha).
  pose proof (Z.mul_succ_div_gt (v + a - 1) a Ha).
  assert (0 ≤ (v + a - 1) / a) by (apply Z.div_pos; lia).
  rewrite wrap_small by (split; lia).
  split; [by apply is_aligned_mult|]. unfold fits. lia.
Qed.

Lemma round_up_aligned v a :
  0 < a → fits 64 v → v + a - 1 < 2 ^ 64 → is_aligned v a = true → round_up v a = v.
Proof.
  intros Ha Hv Hov Hal.
  destruct (round_up_bounds v a Ha Hv Hov) as (Hr & Hb & _).
  apply is_aligned_spec in Hal, Hr.
  apply Z.mod_divide in Hal, Hr; [|lia..].
  destruct Hal as [p ->], Hr as [q Hq]. rewrite Hq in Hb |- *.
  assert (q = p) as -> by nia. done.
Qed.

Lemma round_up_least v a x :
  0 < a → fits 64 v → v + a - 1 < 2 ^ 64 → is_aligned x a = true → v ≤ x → round_up v a ≤ x.
Proof.
  intros Ha Hv Hov Hx Hle. destruct (round_up_bounds v a Ha Hv Hov) as (Hr & Hb & _).
  apply is_aligned_spec in Hx, Hr. apply Z.mod_divide in Hx, Hr; [|lia..].
  destruct Hx as [p ->], Hr as [q Hq]. rewrite Hq in Hb |- *.
  assert (q < p + 1) by (apply (Z.mul_lt_mono_pos_r a); lia).
  apply Z.mul_le_mono_nonneg_r; lia.
Qed.

Lemma is_aligned_trans x a b :
  0 < a → 0 < b → is_aligned b a = true → is_aligned x b = true → is_aligned x a = true.
Proof.
  rewrite !is_aligned_spec. intros Ha Hb Hab Hx. apply Z.mod_divide in Hab, Hx; [|lia..].
  apply Z.mod_divide; [lia|]. by transitivity b.
Qed.

End Align.

(** ** Intervals *)

Module Intervals.

(** [Range<uintptr_t>], util/datatypes/util/Range.hh:33-52 and 80-83 *)
Record Range := mkRange { getStart : Z; getEnd : Z }.

#[global] Instance Range_eq_dec : EqDecision Range.
Proof. solve_decision. Defined.

(** [Range::bySize], util/datatypes/util/Range.hh:41-43 *)
Definition bySize (s sz : Z) : Range := mkRange s (u64 (s + sz)).

(** [Range::getSize], util/datatypes/util/Range.hh:47 *)
Definition getSize (r : Range) : Z := u64 (getEnd r - getStart r).

(** [Range::isEmpty], util/datatypes/util/Range.hh:52 *)
Definition isEmpty (r : Range) : bool := Z.eqb (getSize r) 0.

(** [Range::cut], util/datatypes/util/Range.hh:54-58 *)
Definition cut (l rhs : Range) : Range :=
  let s := if getStart rhs <? getStart l then getStart l else getStart rhs in
  let e := if getEnd l <? getEnd rhs then getEnd l else getEnd rhs in
  mkRange s (if s <? e then e else s).

(** [Range::contains(T)], util/datatypes/util/Range.hh:60-62 *)
Definition containsPoint (r : Range) (p : Z) : bool :=
  (getStart r <=? p) && (p <? getEnd r).

(** [Range::contains(Range)], util/datatypes/util/Range.hh:64-67 *)
Definition contains (r other : Range) : bool :=
  (getStart r <=? getStart other) && (getEnd other <=? getEnd r).

(** [Range::overlaps], util/datatypes/util/Range.hh:69-72 *)
Definition overlaps (l rhs : Range) : bool :=
  ((getStart l <=? getStart rhs) && (getStart rhs <? getEnd l)) ||
  ((getStart rhs <=? getStart l) && (getStart l <? getEnd rhs)).

(** [Range::operator==], util/datatypes/util/Range.hh:74-78 *)
Definition range_eqb (l rhs : Range) : bool :=
  (getStart l =? getStart rhs) && (getEnd l =? getEnd rhs).

Lemma containsPoint_spec r p : containsPoint r p = true ↔ getStart r ≤ p < getEnd r.
Proof. unfold containsPoint. rewrite andb_true_iff, Z.leb_le, Z.ltb_lt. lia. Qed.

Lemma contains_spec r o :
  contains r o = true ↔ getStart r ≤ getStart o ∧ getEnd o ≤ getEnd r.
Proof. unfold contains. by rewrite andb_true_iff, !Z.leb_le. Qed.

Lemma range_eqb_spec l r : range_eqb l r = true ↔ l = r.
Proof.
  unfold range_eqb. rewrite andb_true_iff, !Z.eqb_eq.
  destruct l, r; simpl. naive_solver.
Qed.

Lemma contains_refl r : contains r r = true.
Proof. apply contains_spec. lia. Qed.

Lemma contains_trans a b c :
  contains a b = true → contains b c = true → contains a c = true.
Proof. rewrite !contains_spec. lia. Qed.

Lemma contains_antisym a b :
  contains a b = true → contains b a = true → a = b.
Proof. rewrite !contains_spec. destruct a, b; simpl. intros. f_equal; lia. Qed.

(** Two ranges that contain each other are the same interval, and
    containment of a non-empty range is inclusion of its points. *)
Lemma contains_points r o :
  getStart o < getEnd o →
  contains r o = true ↔
  (∀ p, containsPoint o p = true → containsPoint r p = true).
Proof.
  intros Ho. rewrite contains_spec. setoid_rewrite containsPoint_spec. split.
  - lia.
  - intros H. pose proof (H (getStart o)). pose proof (H (getEnd o - 1)). lia.
Qed.

End Intervals.

(** ** Sets of ranges

    [VectorMax<Range,M>] is a vector of static capacity [M]; [push_back] on a
    full vector writes past the array, modelled as [None]. *)

Module RangeSet.
Import Intervals.

(** [VectorMax::push_back], util/datatypes/util/VectorMax.hh:54 *)
Definition push_back (M : nat) (e : Range) (v : list Range) : option (list Range) :=
  if decide (length v < M)%nat then Some (v ++ [e]) else None.

(** [VectorMax::back] and [VectorMax::pop_back], util/datatypes/util/VectorMax.hh:55-57 *)
Definition pop_back (v : list Range) : list Range := take (pred (length v)) v.

(** [RangeSet::add], util/datatypes/util/RangeSet.hh:40-44 *)
Definition add (M : nat) (r : Range) (v : list Range) : option (list Range) :=
  push_back M r v.

(** The loop of [RangeSet::substract], util/datatypes/util/RangeSet.hh:49-75 *)
Fixpoint substract_loop (fuel : nat) (M : nat) (rhs : Range) (i : nat)
    (v : list Range) : option (list Range) :=
  match fuel with
  | O => None
  | S fuel =>
    match v !! i with
    | None => Some v
    | Some lhs =>
      if getStart rhs <=? getStart lhs then
        if getEnd lhs <=? getEnd rhs then
          (* lhs = get(size()-1); pop_back(); i-- *)
          let lst := default lhs (last v) in
          substract_loop fuel M rhs i (pop_back (<[i := lst]> v))
        else if getStart lhs <? getEnd rhs then
          substract_loop fuel M rhs (S i) (<[i := mkRange (getEnd rhs) (getEnd lhs)]> v)
        else substract_loop fuel M rhs (S i) v
      else if getStart rhs <? getEnd lhs then
        if getEnd lhs <=? getEnd rhs then
          substract_loop fuel M rhs (S i) (<[i := mkRange (getStart lhs) (getStart rhs)]> v)
        else
          match push_back M (mkRange (getEnd rhs) (getEnd lhs)) v with
          | None => None
          | Some v' =>
            substract_loop fuel M rhs (S i)
              (<[i := mkRange (getStart lhs) (getStart rhs)]> v')
          end
      else substract_loop fuel M rhs (S i) v
    end
  end.

(** [RangeSet::substract], util/datatypes/util/RangeSet.hh:46-76 *)
Definition substract (M : nat) (rhs : Range) (v : list Range) : option (list Range) :=
  if isEmpty rhs then Some v
  else substract_loop (S (2 * length v)) M rhs 0 v.

(** The set of points a vector of ranges stands for. *)
Definition covers (v : list Range) (p : Z) : Prop :=
  Exists (λ r, containsPoint r p = true) v.

(** A range that [rhs] cuts into two pieces. *)
Definition holed (rhs r : Range) : bool :=
  (getStart r <? getStart rhs) && (getEnd rhs <? getEnd r).

Definition holes (rhs : Range) (v : list Range) : nat :=
  length (filter (λ r, holed rhs r = true) v).

(** No point of [rhs] is in [r]. *)
Definition avoids (rhs r : Range) : Prop :=
  ∀ p, containsPoint rhs p = true → containsPoint r p = false.

Lemma avoids_arith rhs r :
  getEnd r ≤ getStart rhs ∨ getEnd rhs ≤ getStart r ∨ getEnd r ≤ getStart r →
  avoids rhs r.
Proof.
  intros H p. rewrite containsPoint_spec. unfold containsPoint.
  rewrite andb_false_iff, Z.leb_gt, Z.ltb_ge. lia.
Qed.

Lemma covers_app v1 v2 p : covers (v1 ++ v2) p ↔ covers v1 p ∨ covers v2 p.
Proof. apply Exists_app. Qed.

Lemma covers_cons r v p : covers (r :: v) p ↔ containsPoint r p = true ∨ covers v p.
Proof. apply Exists_cons. Qed.

Lemma covers_nil p : covers [] p ↔ False.
Proof. apply Exists_nil. Qed.

Lemma holes_cons rhs r v :
  holes rhs (r :: v) = ((if holed rhs r then 1 else 0) + holes rhs v)%nat.
Proof.
  unfold holes. rewrite filter_cons.
  destruct (holed rhs r); case_decide; simpl; congruence.
Qed.

Lemma holes_app rhs v1 v2 : holes rhs (v1 ++ v2) = (holes rhs v1 + holes rhs v2)%nat.
Proof. unfold holes. by rewrite filter_app, length_app. Qed.

Lemma pop_back_moved (a b : list Range) lhs :
  pop_back (<[length a := default lhs (last (a ++ lhs :: b))]> (a ++ lhs :: b)) =
  match last b with
  | None => a
  | Some z => a ++ z :: take (pred (length b)) b
  end.
Proof.
  unfold pop_back. rewrite length_insert, insert_app_r_alt, Nat.sub_diag by lia. simpl.
  rewrite last_app_cons. destruct b as [|z b'] using rev_ind; simpl.
  - rewrite length_app. simpl.
    replace (pred (length a + 1)) with (length a) by lia. by rewrite take_app_length.
  - clear IHb'. rewrite last_cons, last_snoc. simpl.
    rewrite !length_app. simpl. rewrite length_app. simpl.
    replace (pred (length a + S (length b' + 1))) with (length a + S (length b'))%nat by lia.
    replace (pred (length b' + 1)) with (length b') by lia.
    rewrite take_app_add. simpl. by rewrite !take_app_length.
Qed.

Lemma take_pred_last {A} (b : list A) z :
  last b = Some z → b = take (pred (length b)) b ++ [z].
Proof.
  intros Hz. destruct b as [|y b'] using rev_ind; [done|]. clear IHb'.
  rewrite last_snoc in Hz. simplify_eq. rewrite length_app. simpl.
  replace (pred (length b' + 1)) with (length b') by lia. by rewrite take_app_length.
Qed.

(** What the loop has to establish from a vector [v] with [n] ranges still to
    be split. *)
Definition substracted (rhs : Range) (v : list Range) (n : nat) (v' : list Range) : Prop :=
  Forall (avoids rhs) v' ∧
  (∀ p, containsPoint rhs p = false → covers v' p ↔ covers v p) ∧
  (length v' ≤ length v + n)%nat.

Lemma substracted_step rhs v1 n1 v0 n0 v' :
  substracted rhs v1 n1 v' →
  (∀ p, containsPoint rhs p = false → covers v1 p ↔ covers v0 p) →
  (length v1 + n1 ≤ length v0 + n0)%nat →
  substracted rhs v0 n0 v'.
Proof.
  intros (H1 & H2 & H3) Hc Hl. split_and!; [done| |lia].
  intros p Hp. rewrite H2 by done. by apply Hc.
Qed.

Ltac holed_arith := unfold holed; simpl; rewrite ?andb_true_iff, ?andb_false_iff, ?Z.ltb_lt, ?Z.ltb_ge; lia.

Ltac cover_arith :=
  intros ?p Hp; apply not_true_iff_false in Hp; rewrite containsPoint_spec in Hp;
  repeat first [rewrite covers_app | rewrite covers_cons | rewrite covers_nil
               | rewrite containsPoint_spec];
  simpl; intuition (auto; lia).

(** The loop's contract at position [length a] of the vector [a ++ t]. *)
Definition loop_ok (M : nat) (rhs : Range) (fuel : nat) (a t : list Range) : Prop :=
  (length t + holes rhs t < fuel)%nat →
  (length (a ++ t) + holes rhs t ≤ M)%nat →
  Forall (avoids rhs) a →
  ∃ v', substract_loop fuel M rhs (length a) (a ++ t) = Some v' ∧
        substracted rhs (a ++ t) (holes rhs t) v'.

Section loop.
Context (M : nat) (rhs : Range) (Hne : getStart rhs < getEnd rhs).
Context (fuel : nat) (IH : ∀ a t, loop_ok M rhs fuel a t).
Context (a b : list Range) (lhs : Range) (Ha : Forall (avoids rhs) a).
Context (Hf : (length (lhs :: b) + holes rhs (lhs :: b) < S fuel)%nat).
Context (HM : (length (a ++ lhs :: b) + holes rhs (lhs :: b) ≤ M)%nat).

Ltac lens := rewrite ?length_app, ?holes_app, ?holes_cons in *; simpl in *;
  rewrite ?length_app, ?holes_app, ?holes_cons in *; simpl in *;
  try change (holes rhs []) with 0%nat in *.

(** The current element was replaced by [x] and [e] was appended. *)
Lemma loop_advance x e :
  avoids rhs x → holes rhs e = 0%nat →
  (length e ≤ holes rhs [lhs])%nat →
  (∀ p, containsPoint rhs p = false →
    covers (x :: e) p ↔ containsPoint lhs p = true) →
  ∃ v', substract_loop fuel M rhs (S (length a)) (a ++ x :: b ++ e) = Some v' ∧
        substracted rhs (a ++ lhs :: b) (holes rhs (lhs :: b)) v'.
Proof using Ha HM Hf IH.
  intros Hx He Hl Hc.
  destruct (IH (a ++ [x]) (b ++ e)) as (v' & Hv & Hs).
  { lens. lia. }
  { lens. lia. }
  { by apply Forall_app_2, Forall_singleton. }
  rewrite length_app, Nat.add_comm, <- app_assoc in Hv.
  exists v'. split; [done|]. eapply substracted_step; [exact Hs| |].
  - intros p Hp. specialize (Hc p Hp). rewrite covers_cons in Hc.
    repeat first [rewrite covers_app | rewrite covers_cons | rewrite covers_nil].
    intuition.
  - lens. lia.
Qed.

(** The current element lies within [rhs] and is removed. *)
Lemma loop_remove :
  getStart rhs ≤ getStart lhs → getEnd lhs ≤ getEnd rhs →
  ∃ v', substract_loop fuel M rhs (length a)
          (pop_back (<[length a := default lhs (last (a ++ lhs :: b))]> (a ++ lhs :: b)))
        = Some v' ∧ substracted rhs (a ++ lhs :: b) (holes rhs (lhs :: b)) v'.
Proof using Ha HM Hf IH.
  intros H1 H2. rewrite pop_back_moved.
  assert (holed rhs lhs = false) as Hh by holed_arith.
  destruct (last b) as [z|] eqn:Hz.
  - apply take_pred_last in Hz as Hb. set (b' := take _ b) in *. clearbody b'. subst b.
    destruct (IH a (z :: b')) as (v' & He & Hs); [lens; lia|lens; lia|done|].
    exists v'. split; [done|]. eapply substracted_step; [exact Hs|cover_arith|lens; lia].
  - apply last_None in Hz as ->.
    destruct (IH a []) as (v' & He & Hs); [lens; lia|lens; lia|done|].
    rewrite app_nil_r in He, Hs. exists v'. split; [done|].
    eapply substracted_step; [exact Hs|cover_arith|lens; lia].
Qed.

Lemma loop_cons :
  ∃ v', substract_loop (S fuel) M rhs (length a) (a ++ lhs :: b) = Some v' ∧
        substracted rhs (a ++ lhs :: b) (holes rhs (lhs :: b)) v'.
Proof using Ha HM Hf IH Hne.
  simpl. rewrite list_lookup_middle by done.
  destruct (Z.leb_spec (getStart rhs) (getStart lhs)) as [H1|H1];
    [destruct (Z.leb_spec (getEnd lhs) (getEnd rhs)) as [H2|H2]; [by apply loop_remove|];
     destruct (Z.ltb_spec (getStart lhs) (getEnd rhs)) as [H3|H3]
    |destruct (Z.ltb_spec (getStart rhs) (getEnd lhs)) as [H2|H2];
     [destruct (Z.leb_spec (getEnd lhs) (getEnd rhs)) as [H3|H3]|]].
  4: { assert (holed rhs lhs = true) as Hh by holed_arith.
       assert (holed rhs (mkRange (getEnd rhs) (getEnd lhs)) = false) as Hh' by holed_arith.
       unfold push_back. rewrite decide_True by (lens; rewrite Hh in HM; lia).
       rewrite <- app_assoc, insert_app_r_alt, Nat.sub_diag by lia. simpl.
       apply loop_advance; [apply avoids_arith; simpl; lia| | |cover_arith].
       - lens. by rewrite Hh'.
       - lens. by rewrite Hh. }
  all: rewrite ?insert_app_r_alt, ?Nat.sub_diag by lia; simpl;
    match goal with
    | |- context [substract_loop _ _ _ _ (_ ++ ?x :: b)] =>
      let H := fresh in pose proof (loop_advance x []) as H; rewrite app_nil_r in H;
      apply H; [apply avoids_arith; simpl; lia|done|simpl; lia|cover_arith]
    end.
Qed.

End loop.

Lemma substract_loop_spec M rhs :
  getStart rhs < getEnd rhs → ∀ fuel a t, loop_ok M rhs fuel a t.
Proof.
  intros Hne fuel. induction fuel as [|fuel IH]; intros a t Hf HM Ha; [lia|].
  destruct t as [|lhs b]; [|by apply loop_cons].
  simpl. rewrite app_nil_r, lookup_ge_None_2 by lia. eexists; split; [done|].
  split_and!; [done|done|]. simpl. lia.
Qed.

(** [RangeSet::substract] computes set difference: on a vector with room for
    the ranges that get split, the loop ends and the result covers exactly
    the points of the old vector that are not in [rhs]. *)
Theorem substract_correct (M : nat) (rhs : Range) (v : list Range) :
  fits 64 (getStart rhs) → fits 64 (getEnd rhs) → getStart rhs < getEnd rhs →
  (length v + holes rhs v ≤ M)%nat →
  ∃ v', substract M rhs v = Some v' ∧
        (∀ p, covers v' p ↔ covers v p ∧ containsPoint rhs p = false) ∧
        (length v' ≤ length v + holes rhs v)%nat.
Proof.
  intros [Hs1 Hs2] [He1 He2] Hne HM. unfold substract, isEmpty, getSize.
  rewrite wrap_small by (unfold fits; lia).
  rewrite (proj2 (Z.eqb_neq _ _)) by lia.
  assert (holes rhs v ≤ length v)%nat by apply length_filter.
  destruct (substract_loop_spec M rhs Hne (S (2 * length v)) [] v)
    as (v' & Hv & Hav & Hc & Hl); [lia|done|by apply Forall_nil|].
  exists v'. split_and!; [done| |done]. intros p.
  destruct (containsPoint rhs p) eqn:Hp.
  - split; [|by intros [? ?]]. intros Hcov. exfalso.
    apply Exists_exists in Hcov as (r & Hr & Hpr).
    rewrite Forall_forall in Hav. by rewrite (Hav r Hr p Hp) in Hpr.
  - rewrite Hc by done. naive_solver.
Qed.

Lemma substract_correct_witness :
  ∃ v', substract 4 (mkRange 10 20) [mkRange 0 30; mkRange 12 15; mkRange 18 25] = Some v' ∧
        (∀ p, covers v' p ↔
          covers [mkRange 0 30; mkRange 12 15; mkRange 18 25] p ∧
          containsPoint (mkRange 10 20) p = false) ∧
        (length v' ≤ 4)%nat.
Proof.
  apply (substract_correct 4 (mkRange 10 20) [mkRange 0 30; mkRange 12 15; mkRange 18 25]);
    vm_compute; first [done | split; done | lia].
Defined.

End RangeSet.
