(* ===== verification/Bitfield.v ===== *)
(** * Bit fields of machine words

    Models util/bitfield/util/bitfield.hh: [UIntField<value_t,base_t,START,BITS>]
    and [BoolField<value_t,base_t,START>] over a [w]-bit [value_t].  A
    [BITFIELD_DEF] union is the word itself; the fields are read and written
    with the mask arithmetic of the header. *)

From stdpp Require Import base tactics numbers.
From Stdlib Require Import ZArith Lia.
From S2P Require Import Prelude.

Local Open Scope Z_scope.

(** [UIntField::MASK], util/bitfield/util/bitfield.hh:46-48 *)
Definition UIntField_MASK (w START BITS : Z) : Z :=
  wrap w (u64 (Z.shiftl (u64 (Z.shiftl 1 BITS) - 1) START)).

(** [UIntField::operator value_t], util/bitfield/util/bitfield.hh:57 *)
Definition uget (w START BITS value : Z) : Z :=
  Z.shiftr (Z.land value (UIntField_MASK w START BITS)) START.

(** [UIntField::operator()], util/bitfield/util/bitfield.hh:50-54 *)
Definition uset (w START BITS value v : Z) : Z :=
  wrap w (Z.lor (Z.land value (Z.lnot (UIntField_MASK w START BITS)))
                (Z.land (u64 (Z.shiftl v START)) (UIntField_MASK w START BITS))).

(** The [ASSERT] of [UIntField::operator()], util/bitfield/util/bitfield.hh:51 *)
Definition uset_assert (BITS v : Z) : bool := Z.eqb (Z.shiftr v BITS) 0.

(** [BoolField::MASK], util/bitfield/util/bitfield.hh:60-63 *)
Definition BoolField_MASK (w START : Z) : Z := wrap w (u64 (Z.shiftl 1 START)).

(** [BoolField::operator bool], util/bitfield/util/bitfield.hh:69 *)
Definition bget (w START value : Z) : bool :=
  negb (Z.eqb (Z.shiftr (Z.land value (BoolField_MASK w START)) START) 0).

(** [BoolField::operator()], util/bitfield/util/bitfield.hh:65-68 *)
Definition bset (w START value : Z) (v : bool) : Z :=
  wrap w (Z.lor (Z.land value (Z.lnot (BoolField_MASK w START)))
                (Z.land (u64 (Z.shiftl (Z.b2z v) START)) (BoolField_MASK w START))).

(** The [static_assert]s of the templates. *)
Definition field_ok (w START BITS : Z) : Prop :=
  0 ≤ START ∧ 0 ≤ BITS < 64 ∧ START + BITS ≤ w ∧ 0 ≤ w ≤ 64.

(** Side conditions of the field lemmas are linear arithmetic. *)
Ltac field_side := unfold field_ok, fits; lia.

Section fields.
Context (w s b : Z) (Hok : field_ok w s b).

Lemma MASK_testbit i :
  0 ≤ i → Z.testbit (UIntField_MASK w s b) i = (s <=? i) && (i <? s + b).
Proof using Hok.
  intros Hi. destruct Hok as (Hs & Hb & Hsb & Hw). unfold UIntField_MASK.
  rewrite !wrap_testbit, Z.shiftl_spec by lia.
  rewrite (wrap_small 64 (Z.shiftl 1 b)).
  2: { rewrite Z.shiftl_1_l. split; [lia|]. apply Z.pow_lt_mono_r; lia. }
  rewrite Z.shiftl_1_l, Z.sub_1_r, <- Z.ones_equiv.
  destruct (Z.leb_spec s i); simpl.
  - destruct (Z.ltb_spec i (s + b)).
    + rewrite Z.ones_spec_low by lia. by zcases.
    + rewrite Z.ones_spec_high by lia. by rewrite !andb_false_r.
  - rewrite Z.testbit_neg_r by lia. by rewrite !andb_false_r.
Qed.

Lemma uget_testbit v i :
  0 ≤ i → Z.testbit (uget w s b v) i = (i <? b) && Z.testbit v (i + s).
Proof using Hok.
  intros Hi. pose proof Hok as (Hs & Hb & Hsb & Hw). unfold uget.
  rewrite Z.shiftr_spec, Z.land_spec, MASK_testbit by lia.
  destruct (Z.ltb_spec i b).
  - rewrite (proj2 (Z.leb_le s (i + s))), (proj2 (Z.ltb_lt (i + s) (s + b))) by lia.
    by rewrite andb_true_r.
  - rewrite (proj2 (Z.ltb_ge (i + s) (s + b))) by lia. by rewrite !andb_false_r.
Qed.

Lemma uset_testbit v x i :
  fits w v → 0 ≤ i →
  Z.testbit (uset w s b v x) i =
  if (s <=? i) && (i <? s + b) then Z.testbit x (i - s) else Z.testbit v i.
Proof using Hok.
  intros Hv Hi. pose proof Hok as (Hs & Hb & Hsb & Hw). unfold uset.
  rewrite wrap_testbit, Z.lor_spec, !Z.land_spec, Z.lnot_spec, MASK_testbit by lia.
  destruct (Z.leb_spec s i), (Z.ltb_spec i (s + b)); simpl;
    rewrite ?andb_false_r, ?andb_true_r, ?orb_false_r; simpl.
  - rewrite wrap_testbit, Z.shiftl_spec by lia. by zcases.
  - destruct (Z.ltb_spec i w); [done|]. by rewrite (fits_testbit w) by (done || lia).
  - destruct (Z.ltb_spec i w); [done|]. by rewrite (fits_testbit w) by (done || lia).
  - destruct (Z.ltb_spec i w); [done|]. by rewrite (fits_testbit w) by (done || lia).
Qed.

Lemma uset_fits v x : fits w (uset w s b v x).
Proof using Hok. apply wrap_fits. unfold field_ok in Hok. lia. Qed.

Lemma uget_fits v : fits w v → fits b (uget w s b v).
Proof using Hok.
  intros Hv. pose proof Hok as (Hs & Hb & Hsb & Hw). apply fits_bits; [lia| |].
  - unfold uget. apply Z.shiftr_nonneg, Z.land_nonneg. left. apply Hv.
  - intros i Hi. rewrite uget_testbit by lia. by rewrite (proj2 (Z.ltb_ge i b)) by lia.
Qed.

(** Reading a field back gives the value that was written. *)
Lemma uget_uset v x : fits w v → fits b x → uget w s b (uset w s b v x) = x.
Proof using Hok.
  intros Hv Hx. pose proof Hok as (Hs & Hb & Hsb & Hw).
  apply Z.bits_inj'. intros i Hi. rewrite uget_testbit, uset_testbit by (done || lia).
  destruct (Z.ltb_spec i b).
  - rewrite (proj2 (Z.leb_le _ _)), (proj2 (Z.ltb_lt _ _)) by lia. simpl. f_equal. lia.
  - simpl. symmetry. apply (fits_testbit b); lia || done.
Qed.

(** Writing the value a field already has changes nothing. *)
Lemma uset_uget v : fits w v → uset w s b v (uget w s b v) = v.
Proof using Hok.
  intros Hv. pose proof Hok as (Hs & Hb & Hsb & Hw).
  apply Z.bits_inj'. intros i Hi. rewrite uset_testbit by (done || lia).
  destruct (Z.leb_spec s i), (Z.ltb_spec i (s + b)); try done. simpl.
  rewrite uget_testbit by lia.
  rewrite (proj2 (Z.ltb_lt _ _)) by lia. simpl. f_equal. lia.
Qed.

(** A field is an interval of the word's bits. *)
Lemma uget_div_mod v : 0 ≤ v → uget w s b v = (v / 2 ^ s) mod 2 ^ b.
Proof using Hok.
  intros Hv. pose proof Hok as (Hs & Hb & Hsb & Hw).
  apply Z.bits_inj'. intros i Hi. rewrite uget_testbit by lia.
  change ((v / 2 ^ s) mod 2 ^ b) with (wrap b (v / 2 ^ s)).
  rewrite wrap_testbit by lia. f_equal. rewrite <- Z.shiftr_div_pow2 by lia.
  by rewrite Z.shiftr_spec.
Qed.

End fields.

(** Writing a field keeps every field that shares no bit with it. *)
Lemma uget_uset_other w s b s' b' v x :
  field_ok w s b → field_ok w s' b' → fits w v → s + b ≤ s' ∨ s' + b' ≤ s →
  uget w s' b' (uset w s b v x) = uget w s' b' v.
Proof.
  intros Hok Hok' Hv Hd. pose proof Hok as (Hs & Hb & Hsb & Hw).
  pose proof Hok' as (Hs' & Hb' & Hsb' & _).
  apply Z.bits_inj'. intros i Hi. rewrite !uget_testbit by done.
  destruct (Z.ltb_spec i b'); [|done]. simpl.
  rewrite uset_testbit by (done || lia).
  destruct (Z.leb_spec s (i + s')), (Z.ltb_spec (i + s') (s + b)); simpl; try done; lia.
Qed.

(** A [BoolField] is one bit of the word. *)
Section bool_field.
Context (w s : Z) (Hs : 0 ≤ s < w) (Hw : w ≤ 64).

Lemma BoolField_MASK_testbit i :
  0 ≤ i → Z.testbit (BoolField_MASK w s) i = (i =? s).
Proof using Hs Hw.
  intros Hi. unfold BoolField_MASK.
  rewrite !wrap_testbit, Z.shiftl_1_l, Z.pow2_bits_eqb by lia.
  rewrite (Z.eqb_sym s i). zcases; done.
Qed.

Lemma bget_testbit v : bget w s v = Z.testbit v s.
Proof using Hs Hw.
  unfold bget. destruct (Z.testbit v s) eqn:Hb.
  - apply negb_true_iff, Z.eqb_neq. intros H0.
    assert (Z.testbit (Z.shiftr (Z.land v (BoolField_MASK w s)) s) 0 = true) as Ht.
    { rewrite Z.shiftr_spec, Z.land_spec, BoolField_MASK_testbit by lia.
      by rewrite Z.add_0_l, Hb, Z.eqb_refl. }
    by rewrite H0, Z.bits_0 in Ht.
  - apply negb_false_iff, Z.eqb_eq. apply Z.bits_inj'. intros i Hi.
    rewrite Z.shiftr_spec, Z.land_spec, BoolField_MASK_testbit, Z.bits_0 by lia.
    destruct (Z.eqb_spec (i + s) s) as [->|]; [by rewrite Hb|by rewrite andb_false_r].
Qed.

Lemma bset_testbit_low v x i :
  0 ≤ i < w → Z.testbit (bset w s v x) i = if i =? s then x else Z.testbit v i.
Proof using Hs Hw.
  intros Hi. unfold bset.
  rewrite wrap_testbit, Z.lor_spec, !Z.land_spec, Z.lnot_spec, BoolField_MASK_testbit by lia.
  rewrite (proj2 (Z.ltb_lt i w)) by lia.
  destruct (Z.eqb_spec i s) as [->|]; simpl; rewrite ?andb_false_r, ?andb_true_r; simpl.
  - rewrite wrap_testbit, Z.shiftl_spec, Z.sub_diag, Z.b2z_bit0 by lia. by zcases.
  - by rewrite orb_false_r.
Qed.

Lemma bset_testbit v x i :
  fits w v → 0 ≤ i →
  Z.testbit (bset w s v x) i = if i =? s then x else Z.testbit v i.
Proof using Hs Hw.
  intros Hv Hi. destruct (decide (i < w)); [rewrite bset_testbit_low by lia; done|].
  unfold bset. rewrite wrap_testbit by lia. rewrite (proj2 (Z.ltb_ge i w)) by lia.
  rewrite (proj2 (Z.eqb_neq i s)) by lia. by rewrite (fits_testbit w v) by (done || lia).
Qed.

Lemma bset_fits v x : fits w (bset w s v x).
Proof using Hs. apply wrap_fits. lia. Qed.

Lemma bget_bset v x : fits w v → bget w s (bset w s v x) = x.
Proof using Hs Hw.
  intros Hv. rewrite bget_testbit, bset_testbit by (done || lia). by rewrite Z.eqb_refl.
Qed.

End bool_field.

Lemma bget_bset_other w s s' v x :
  0 ≤ s < w → 0 ≤ s' < w → w ≤ 64 → fits w v → s ≠ s' →
  bget w s' (bset w s v x) = bget w s' v.
Proof.
  intros. rewrite !bget_testbit, bset_testbit by (done || lia).
  by rewrite (proj2 (Z.eqb_neq _ _)).
Qed.

Lemma bget_uset_other w s b s' v x :
  field_ok w s b → 0 ≤ s' < w → fits w v → s' < s ∨ s + b ≤ s' →
  bget w s' (uset w s b v x) = bget w s' v.
Proof.
  intros Hok Hs' Hv Hd. pose proof Hok as (? & ? & ? & ?).
  rewrite !bget_testbit, uset_testbit by (done || lia).
  destruct (Z.leb_spec s s'), (Z.ltb_spec s' (s + b)); simpl; try done; lia.
Qed.

Lemma uget_bset_other w s s' b' v x :
  0 ≤ s < w → field_ok w s' b' → fits w v → s < s' ∨ s' + b' ≤ s →
  uget w s' b' (bset w s v x) = uget w s' b' v.
Proof.
  intros Hs Hok Hv Hd. pose proof Hok as (? & ? & ? & ?).
  apply Z.bits_inj'. intros i Hi. rewrite !uget_testbit by done.
  destruct (Z.ltb_spec i b'); [|done]. simpl.
  rewrite bset_testbit by (done || lia).
  by rewrite (proj2 (Z.eqb_neq _ _)) by lia.
Qed.

(** Normalises reads of chains of field writes; the side conditions are closed
    by arithmetic on the field positions. *)
Create Rewrite HintDb fields.
#[export] Hint Resolve uset_fits bset_fits : mythos.

Ltac fits_tac :=
  repeat match goal with
  | |- fits _ (uset _ _ _ _ _) => apply uset_fits
  | |- fits _ (bset _ _ _ _) => apply bset_fits
  | |- fits _ (wrap _ _) => apply wrap_fits
  | |- fits _ 0 => split; lia
  | |- field_ok _ _ _ => field_side
  end; try assumption; try field_side.

Ltac field_simpl :=
  repeat first
    [ rewrite bget_bset by fits_tac
    | rewrite uget_uset by fits_tac
    | rewrite bget_bset_other by fits_tac
    | rewrite uget_uset_other by fits_tac
    | rewrite bget_uset_other by fits_tac
    | rewrite uget_bset_other by fits_tac ].
