(* ===== verification/Cap.v ===== *)
(** * Kernel addresses and capability values

    Models the address conversions of util/address/util/PhysPtr.hh and the
    64-bit capability word of objects/common/objects/Cap.hh: a 29-bit
    compressed object pointer, three flag bits and 32 bits of object data. *)

From stdpp Require Import base tactics numbers.
From Stdlib Require Import ZArith Lia.
From S2P Require Import Prelude Bitfield.

Local Open Scope Z_scope.

(** ** Addresses *)

Module PhysPtr.

(** [KERNELMEM_ADDR], boot/kernelspace-amd64/boot/memory-layout-common.h:61 *)
Definition KERNELMEM_ADDR : Z := 0xffff800000000000.

(** [KERNELMEM_SIZE], boot/kernelspace-amd64/boot/memory-layout-common.h:62 *)
Definition KERNELMEM_SIZE : Z := 0x0000000100000000.

(** [VIRT_ADDR], boot/kernelspace-amd64/boot/memory-layout-common.h:56 *)
Definition VIRT_ADDR : Z := 0xffffffff81000000.

(** [isKernelAddress], util/address/util/PhysPtr.hh:39-43 *)
Definition isKernelAddress (p : Z) : bool :=
  (KERNELMEM_ADDR <=? p) && (p <? KERNELMEM_ADDR + KERNELMEM_SIZE).

(** [PhysPtr::fromKernel], util/address/util/PhysPtr.hh:66-69 *)
Definition fromKernel (vp : Z) : Z := u64 (vp - KERNELMEM_ADDR).

(** [PhysPtr::kernelmem], util/address/util/PhysPtr.hh:101 *)
Definition kernelmem (ptr : Z) : bool := ptr <? KERNELMEM_SIZE.

(** [PhysPtr::logint], util/address/util/PhysPtr.hh:96-99 *)
Definition logint (ptr : Z) : Z := u64 (ptr + KERNELMEM_ADDR).

(** [PhysPtr::canonical], util/address/util/PhysPtr.hh:103-107 *)
Definition canonical (ptr : Z) : bool :=
  let CANONICAL_MASK := Z.shiftl (Z.shiftl 1 (64 - 48) - 1) 48 in
  (Z.land ptr CANONICAL_MASK =? 0) || (Z.land ptr CANONICAL_MASK =? CANONICAL_MASK).

(** [kernel2offset], util/address/util/PhysPtr.hh:201-205 *)
Definition kernel2offset (vp : Z) : Z := u32 (vp - KERNELMEM_ADDR).

(** [offset2kernel], util/address/util/PhysPtr.hh:207-211 *)
Definition offset2kernel (o : Z) : Z := u64 (o + KERNELMEM_ADDR).

(** [phys2kernel], util/address/util/PhysPtr.hh:196-199 *)
Definition phys2kernel (phys : Z) : Z := u64 (phys + KERNELMEM_ADDR).

Lemma isKernelAddress_spec p :
  isKernelAddress p = true ↔ KERNELMEM_ADDR ≤ p < KERNELMEM_ADDR + KERNELMEM_SIZE.
Proof. unfold isKernelAddress. rewrite andb_true_iff, Z.leb_le, Z.ltb_lt. lia. Qed.

Lemma kernel2offset_eq p :
  isKernelAddress p = true → kernel2offset p = p - KERNELMEM_ADDR.
Proof.
  rewrite isKernelAddress_spec. unfold kernel2offset, KERNELMEM_ADDR, KERNELMEM_SIZE.
  intros H. apply wrap_small. unfold fits. lia.
Qed.

Lemma offset2kernel_eq o : fits 32 o → offset2kernel o = o + KERNELMEM_ADDR.
Proof.
  intros [H1 H2]. unfold offset2kernel, KERNELMEM_ADDR. apply wrap_small. unfold fits. lia.
Qed.

Lemma offset2kernel_kernel2offset p :
  isKernelAddress p = true → offset2kernel (kernel2offset p) = p.
Proof.
  intros Hp. rewrite offset2kernel_eq, kernel2offset_eq by (done || by apply wrap_fits). lia.
Qed.

Lemma kernel2offset_inj p q :
  isKernelAddress p = true → isKernelAddress q = true →
  kernel2offset p = kernel2offset q → p = q.
Proof.
  intros Hp Hq. rewrite !kernel2offset_eq by done. lia.
Qed.

Lemma fromKernel_logint p :
  isKernelAddress p = true → kernelmem (fromKernel p) = true ∧ logint (fromKernel p) = p.
Proof.
  rewrite isKernelAddress_spec. unfold kernelmem, logint, fromKernel, KERNELMEM_ADDR, KERNELMEM_SIZE.
  intros H. rewrite (wrap_small 64 (p - _)) by (unfold fits; lia).
  split; [by apply Z.ltb_lt; lia|]. rewrite wrap_small by (unfold fits; lia). lia.
Qed.

End PhysPtr.

(** ** Capability words *)

Import PhysPtr.

(** [Fields] of a capability word, objects/common/objects/Cap.hh:104-111 *)
Definition f_ptr (c : Z) : Z := uget 64 0 29 c.
Definition f_trans (c : Z) : bool := bget 64 29 c.
Definition f_ref (c : Z) : bool := bget 64 30 c.
Definition f_der (c : Z) : bool := bget 64 31 c.
Definition f_data (c : Z) : Z := uget 64 32 32 c.

(** [Cap::_packPtr], objects/common/objects/Cap.hh:113-118 *)
Definition packPtr (ptr : Z) : Z :=
  if ptr =? 0 then 0 else Z.shiftr (kernel2offset ptr) 3.

(** [Cap::CapFlags], objects/common/objects/Cap.hh:45-50 *)
Definition NOFLAG : Z := 0.
Definition DERIVED_FLAG : Z := 1.
Definition REFERENCE_FLAG : Z := 2.
Definition TRANSITION_FLAG : Z := 4.

(** [Cap::Cap], objects/common/objects/Cap.hh:57-64 *)
Definition mkCap (ptr data flags : Z) : Z :=
  let c := uset 64 0 29 0 (Z.land (packPtr ptr) 0x1FFFFFFF) in
  let c := bset 64 29 c (Z.testbit flags 2) in
  let c := bset 64 30 c (Z.testbit flags 1) in
  let c := bset 64 31 c (Z.testbit flags 0) in
  uset 64 32 32 c data.

(** [Cap::getPtr], objects/common/objects/Cap.hh:66-67 *)
Definition getPtr (c : Z) : Z :=
  if f_ptr c =? 0 then 0 else offset2kernel (u32 (Z.shiftl (f_ptr c) 3)).

(** [Cap::isDerived], objects/common/objects/Cap.hh:70 *)
Definition isDerived (c : Z) : bool := f_der c.

(** [Cap::isReference], objects/common/objects/Cap.hh:71 *)
Definition isReference (c : Z) : bool := f_ref c.

(** [Cap::isDerivedReference], objects/common/objects/Cap.hh:72 *)
Definition isDerivedReference (c : Z) : bool := isDerived c && isReference c.

(** [Cap::isOriginal], objects/common/objects/Cap.hh:69 *)
Definition isOriginal (c : Z) : bool := negb (isDerived c) && negb (isReference c).

(** [Cap::isEmpty], objects/common/objects/Cap.hh:74 *)
Definition isEmptyCap (c : Z) : bool := c =? 0.

(** [Cap::inTransition], objects/common/objects/Cap.hh:75 *)
Definition inTransition (c : Z) : bool := f_trans c.

(** [Cap::isAllocated], objects/common/objects/Cap.hh:76 *)
Definition isAllocated (c : Z) : bool := (f_ptr c =? 0) && inTransition c.

(** [Cap::isZombie], objects/common/objects/Cap.hh:77 *)
Definition isZombie (c : Z) : bool := negb (f_ptr c =? 0) && inTransition c.

(** [Cap::isUsable], objects/common/objects/Cap.hh:78 *)
Definition isUsable (c : Z) : bool := negb (f_ptr c =? 0) && negb (inTransition c).

(** [Cap::asZombie], objects/common/objects/Cap.hh:86 *)
Definition asZombie (c : Z) : Z := bset 64 29 c true.

(** [Cap::asDerived], objects/common/objects/Cap.hh:87 *)
Definition asDerived (c : Z) : Z := bset 64 31 c true.

(** [Cap::asReference], objects/common/objects/Cap.hh:88 *)
Definition asReference (c : Z) : Z := bset 64 30 c true.

(** [Cap::stripReference], objects/common/objects/Cap.hh:89 *)
Definition stripReference (c : Z) : Z := bset 64 30 c false.

(** [Cap::asOriginal], objects/common/objects/Cap.hh:90 *)
Definition asOriginal (c : Z) : Z := bset 64 31 (bset 64 30 c false) false.

(** [Cap::withPtr], objects/common/objects/Cap.hh:91-93 *)
Definition withPtr (c ptr : Z) : Z := uset 64 0 29 c (Z.land (packPtr ptr) 0x1FFFFFFF).

(** [Cap::withData], objects/common/objects/Cap.hh:94 *)
Definition withData (c data : Z) : Z := uset 64 32 32 c data.

(** [Cap::asEmpty], objects/common/objects/Cap.hh:95 *)
Definition asEmpty : Z := 0.

(** [Cap::asAllocated], objects/common/objects/Cap.hh:96 *)
Definition asAllocated : Z := bset 64 29 0 true.

(** The pointers a capability can store: 8-byte aligned kernel addresses other
    than the first one, whose offset is the null offset. *)
Definition capPointer (p : Z) : bool :=
  isKernelAddress p && (Z.land (kernel2offset p) 7 =? 0) && negb (kernel2offset p =? 0).

Lemma packPtr_fits p : fits 29 (packPtr p).
Proof.
  unfold packPtr. destruct (p =? 0); [split; lia|].
  unfold kernel2offset, wrap. split.
  - apply Z.shiftr_nonneg, Z.mod_pos_bound. lia.
  - rewrite Z.shiftr_div_pow2 by lia. apply Z.div_lt_upper_bound; [lia|].
    apply Z.mod_pos_bound. lia.
Qed.

Lemma land_29 x : fits 29 x → Z.land x 0x1FFFFFFF = x.
Proof.
  intros Hx. change 0x1FFFFFFF with (Z.ones 29). rewrite Z.land_ones by lia.
  by apply Z.mod_small.
Qed.

Lemma getPtr_packed c p :
  capPointer p = true → f_ptr c = packPtr p → getPtr c = p ∧ f_ptr c ≠ 0.
Proof.
  intros Hp Hc. unfold capPointer in Hp.
  apply andb_prop in Hp as [[Hk Hal]%andb_prop Hnz].
  apply Z.eqb_eq in Hal. apply negb_true_iff, Z.eqb_neq in Hnz.
  assert (p ≠ 0) by (rewrite isKernelAddress_spec in Hk; unfold KERNELMEM_ADDR in Hk; lia).
  unfold getPtr. rewrite Hc. unfold packPtr. rewrite (proj2 (Z.eqb_neq p 0)) by done.
  assert (Z.shiftl (Z.shiftr (kernel2offset p) 3) 3 = kernel2offset p) as Hs.
  { rewrite <- Z.ldiff_ones_r by lia. change (Z.ones 3) with 7.
    rewrite (Z.ldiff_land (kernel2offset p) 7).
    apply Z.bits_inj'. intros i Hi. rewrite Z.land_spec, Z.lnot_spec by lia.
    assert (Z.testbit (Z.land (kernel2offset p) 7) i = false) as Hb
      by (rewrite Hal; apply Z.bits_0).
    rewrite Z.land_spec in Hb.
    destruct (Z.testbit (kernel2offset p) i), (Z.testbit 7 i); done. }
  assert (Z.shiftr (kernel2offset p) 3 ≠ 0) as Hn.
  { intros H'. rewrite H', Z.shiftl_0_l in Hs. congruence. }
  rewrite (proj2 (Z.eqb_neq _ 0)) by done. split; [|done].
  rewrite Hs, wrap_small by (apply wrap_fits; lia).
  by apply offset2kernel_kernel2offset.
Qed.

Create HintDb capwords discriminated.

Ltac cap_unfold :=
  unfold mkCap, withPtr, withData, asZombie, asDerived, asReference, stripReference,
    asOriginal, asAllocated, isUsable, isZombie, isAllocated, isOriginal, isDerivedReference,
    isDerived, isReference, inTransition, f_ptr, f_trans, f_ref, f_der, f_data in *.

(** Evaluate the fields of a capability word built from field updates. *)
Ltac cap_simpl := cap_unfold; field_simpl.

Lemma mkCap_fits p d fl : fits 64 (mkCap p d fl).
Proof. apply uset_fits. field_side. Qed.

Lemma asZombie_fits c : fits 64 (asZombie c).
Proof. apply bset_fits. lia. Qed.

#[export] Hint Resolve mkCap_fits asZombie_fits : capwords.

(** Setting one flag changes no other field. *)
Lemma f_ptr_bset c i x : 29 ≤ i < 64 → f_ptr (bset 64 i c x) = f_ptr c.
Proof.
  intros Hi. unfold f_ptr. apply Z.bits_inj'. intros k Hk.
  rewrite !uget_testbit by field_side. destruct (Z.ltb_spec k 29); [|done]. simpl.
  rewrite bset_testbit_low by lia. by rewrite (proj2 (Z.eqb_neq _ _)) by lia.
Qed.

Lemma flag_bset c i j x :
  0 ≤ i < 64 → 0 ≤ j < 64 → bget 64 j (bset 64 i c x) = if j =? i then x else bget 64 j c.
Proof. intros. rewrite !bget_testbit by lia. by rewrite bset_testbit_low by lia. Qed.

Lemma getPtr_bset c i x : 29 ≤ i < 64 → getPtr (bset 64 i c x) = getPtr c.
Proof. intros. unfold getPtr. by rewrite f_ptr_bset. Qed.

Lemma isZombie_asZombie c : isZombie (asZombie c) = negb (f_ptr c =? 0).
Proof.
  unfold isZombie, asZombie, inTransition, f_trans. rewrite f_ptr_bset, flag_bset by lia.
  by rewrite andb_true_r.
Qed.

Lemma isUsable_asZombie c : isUsable (asZombie c) = false.
Proof.
  unfold isUsable, asZombie, inTransition, f_trans. rewrite f_ptr_bset, flag_bset by lia.
  by rewrite andb_false_r.
Qed.

Lemma isReference_asZombie c : isReference (asZombie c) = isReference c.
Proof. unfold isReference, f_ref, asZombie. by rewrite flag_bset by lia. Qed.

Lemma isDerived_asZombie c : isDerived (asZombie c) = isDerived c.
Proof. unfold isDerived, f_der, asZombie. by rewrite flag_bset by lia. Qed.

Lemma asZombie_idem c : asZombie (asZombie c) = asZombie c.
Proof.
  apply Z.bits_inj'. intros i Hi. unfold asZombie at 1.
  rewrite bset_testbit by (lia || apply asZombie_fits).
  destruct (Z.eqb_spec i 29) as [->|]; [|done]. unfold asZombie.
  by rewrite bset_testbit_low by lia.
Qed.

Lemma isUsable_ptr c : isUsable c = true → f_ptr c ≠ 0.
Proof. unfold isUsable. intros. by bool_hyps. Qed.

Lemma isUsable_getPtr c : isUsable c = true → getPtr c ≠ 0.
Proof.
  intros Hu%isUsable_ptr. unfold getPtr. rewrite (proj2 (Z.eqb_neq _ 0)) by done.
  rewrite offset2kernel_eq by (apply wrap_fits; lia). pose proof (wrap_fits 32 (Z.shiftl (f_ptr c) 3)).
  unfold fits, KERNELMEM_ADDR in *. lia.
Qed.

(** The fields of a new capability. *)
Lemma getPtr_mkCap p d fl :
  capPointer p = true → getPtr (mkCap p d fl) = p ∧ f_ptr (mkCap p d fl) ≠ 0.
Proof.
  intros Hp. apply getPtr_packed; [done|].
  pose proof (packPtr_fits p). cap_unfold. rewrite land_29 by done. by field_simpl.
Qed.

Lemma f_data_mkCap p d fl : fits 32 d → f_data (mkCap p d fl) = d.
Proof. intros Hd. by cap_simpl. Qed.

Lemma f_data_bset c i x : fits 64 c → 0 ≤ i < 32 → f_data (bset 64 i c x) = f_data c.
Proof. intros Hc Hi. unfold f_data. apply uget_bset_other; try field_side; done. Qed.

(** A capability word returns what it was built from: the object pointer of
    every 8-byte aligned kernel object, the 32 bits of data and the flags. *)
Theorem mkCap_roundtrip (p d fl : Z) :
  capPointer p = true → fits 32 d →
  getPtr (mkCap p d fl) = p ∧ f_data (mkCap p d fl) = d ∧
  isDerived (mkCap p d fl) = Z.testbit fl 0 ∧
  isReference (mkCap p d fl) = Z.testbit fl 1 ∧
  inTransition (mkCap p d fl) = Z.testbit fl 2 ∧
  (Z.testbit fl 2 = false → isUsable (mkCap p d fl) = true).
Proof.
  intros Hp Hd. destruct (getPtr_mkCap p d fl Hp) as [Hg Hn].
  assert (inTransition (mkCap p d fl) = Z.testbit fl 2) as Ht by (cap_simpl; done).
  split_and!; try done; try (by apply f_data_mkCap); try (cap_simpl; done).
  intros Hz. unfold isUsable. rewrite Ht, Hz, (proj2 (Z.eqb_neq _ 0)) by done. done.
Qed.

Lemma mkCap_roundtrip_witness :
  getPtr (mkCap 0xffff800000012340 77 REFERENCE_FLAG) = 0xffff800000012340 ∧
  f_data (mkCap 0xffff800000012340 77 REFERENCE_FLAG) = 77 ∧
  isDerived (mkCap 0xffff800000012340 77 REFERENCE_FLAG) = false ∧
  isReference (mkCap 0xffff800000012340 77 REFERENCE_FLAG) = true ∧
  inTransition (mkCap 0xffff800000012340 77 REFERENCE_FLAG) = false ∧
  (false = false → isUsable (mkCap 0xffff800000012340 77 REFERENCE_FLAG) = true).
Proof.
  apply (mkCap_roundtrip 0xffff800000012340 77 REFERENCE_FLAG); [reflexivity|split; lia].
Defined.
