(* ===== verification/CapEntry.v ===== *)
(** * Capability entries: the blocking doubly linked list

    Models objects/capability-spinning/objects/CapEntry.hh and CapEntry.cc.  A
    capability entry is three atomic words: the capability, and the two links
    of the resource list, each a 32-bit kernel offset with flag bits in its
    low three bits ([LOCKED] in [_next]; [REVOKING] and [DELETED] in [_prev]).

    The operations are [kernel] computations over any state that holds a store
    of entries (class [HasEntries]); each atomic access is one primitive.  An
    execution is that of one hardware thread without interference, so waiting
    on a lock bit that is already set is [SpinsForever]. *)

From stdpp Require Import base tactics numbers list gmap.
From Stdlib Require Import ZArith Lia.
From S2P Require Import Prelude Bitfield Cap.

Local Open Scope Z_scope.
Import PhysPtr.

(** ** Links *)

(** [CapEntry::LOCKED_FLAG], objects/capability-spinning/objects/CapEntry.hh:118 *)
Definition LOCKED_FLAG : Z := 1.

(** [CapEntry::REVOKING_FLAG], objects/capability-spinning/objects/CapEntry.hh:119 *)
Definition REVOKING_FLAG : Z := 2.

(** [CapEntry::DELETED_FLAG], objects/capability-spinning/objects/CapEntry.hh:120 *)
Definition DELETED_FLAG : Z := 4.

(** [CapEntry::FLAG_MASK], objects/capability-spinning/objects/CapEntry.hh:121 *)
Definition FLAG_MASK : Z := 7.

(** [CapEntry::Link::_pack], objects/capability-spinning/objects/CapEntry.hh:160-172 *)
Definition Link_pack (p flags : Z) : Z :=
  Z.lor (if p =? 0 then 0 else kernel2offset p) flags.

(** [CapEntry::Link::_offset], objects/capability-spinning/objects/CapEntry.hh:156-158 *)
Definition Link_offset (v : Z) : Z := Z.land v (u32 (Z.lnot FLAG_MASK)).

(** [CapEntry::Link::ptr], objects/capability-spinning/objects/CapEntry.hh:141-146 *)
Definition Link_ptr (v : Z) : Z :=
  if Link_offset v =? 0 then 0 else offset2kernel (Link_offset v).

(** [CapEntry::Link::flags], objects/capability-spinning/objects/CapEntry.hh:148-150 *)
Definition Link_flags (v : Z) : Z := Z.land v FLAG_MASK.

(** [CapEntry::Link::withoutFlags], objects/capability-spinning/objects/CapEntry.hh:137 *)
Definition Link_withoutFlags (v : Z) : Z := Link_offset v.

(** [CapEntry::Link::withPtr], objects/capability-spinning/objects/CapEntry.hh:139 *)
Definition Link_withPtr (v p : Z) : Z := Link_pack p (Link_flags v).

(** The addresses a link can hold are those a capability can hold. *)
Lemma Link_offset_testbit v i :
  0 ≤ i → fits 32 v → Z.testbit (Link_offset v) i = (3 <=? i) && Z.testbit v i.
Proof.
  intros Hi Hv. unfold Link_offset. rewrite Z.land_spec, wrap_testbit, Z.lnot_spec by lia.
  change FLAG_MASK with (Z.ones 3).
  destruct (Z.leb_spec 3 i); simpl.
  - rewrite Z.ones_spec_high by lia. simpl. destruct (Z.ltb_spec i 32); simpl.
    + by rewrite andb_true_r.
    + by rewrite (fits_testbit 32 v) by (done || lia).
  - rewrite Z.ones_spec_low by lia. simpl. by rewrite !andb_false_r.
Qed.

Lemma Link_offset_fits v : fits 32 v → fits 32 (Link_offset v).
Proof. intros. apply fits_land_l; [lia|done]. Qed.

Lemma kernel2offset_fits p : fits 32 (kernel2offset p).
Proof. apply wrap_fits. lia. Qed.

Lemma flags_fits f : 0 ≤ f < 8 → fits 32 f.
Proof. split; lia. Qed.

Lemma flags_testbit f i : 0 ≤ f < 8 → 3 ≤ i → Z.testbit f i = false.
Proof. intros Hf Hi. apply (fits_testbit 3); [lia| |lia]. split; lia. Qed.

(** Closes goals that a link word fits into 32 bits. *)
Ltac fits32 :=
  first [ done | apply flags_fits; lia | apply kernel2offset_fits
        | apply Link_offset_fits; fits32
        | apply fits_lor; [lia|fits32|fits32] | apply fits_land_l; [lia|fits32]
        | split; lia ].

Lemma Link_pack_fits p f : 0 ≤ f < 8 → fits 32 (Link_pack p f).
Proof.
  intros Hf. apply fits_lor; [lia| |by apply flags_fits].
  destruct (p =? 0); [split; lia|apply kernel2offset_fits].
Qed.

Lemma Link_offset_or v f :
  fits 32 v → 0 ≤ f < 8 → Link_offset (Z.lor v f) = Link_offset v.
Proof.
  intros Hv Hf. apply Z.bits_inj'. intros i Hi.
  rewrite !Link_offset_testbit by fits32.
  rewrite Z.lor_spec. destruct (Z.leb_spec 3 i); [|done]. simpl.
  rewrite (flags_testbit f) by lia. by rewrite orb_false_r.
Qed.

Lemma Link_offset_andnot v f :
  fits 32 v → 0 ≤ f < 8 → Link_offset (Z.land v (Z.lnot f)) = Link_offset v.
Proof.
  intros Hv Hf. apply Z.bits_inj'. intros i Hi.
  rewrite !Link_offset_testbit by fits32.
  rewrite Z.land_spec, Z.lnot_spec by done. destruct (Z.leb_spec 3 i); [|done]. simpl.
  rewrite (flags_testbit f) by lia. by rewrite andb_true_r.
Qed.

Lemma capPointer_ne0 p : capPointer p = true → p ≠ 0.
Proof.
  unfold capPointer. intros [[Hk _]%andb_prop _]%andb_prop ->.
  by vm_compute in Hk.
Qed.

Lemma Link_offset_pack p f :
  capPointer p = true → 0 ≤ f < 8 → Link_offset (Link_pack p f) = kernel2offset p.
Proof.
  intros Hp Hf. unfold Link_pack. rewrite (proj2 (Z.eqb_neq p 0)) by by apply capPointer_ne0.
  rewrite Link_offset_or by fits32.
  apply andb_prop in Hp as [[_ Hal]%andb_prop _]. apply Z.eqb_eq in Hal.
  apply Z.bits_inj'. intros i Hi. rewrite Link_offset_testbit by fits32.
  destruct (Z.leb_spec 3 i); [done|]. simpl.
  assert (Z.testbit (Z.land (kernel2offset p) 7) i = false) as Hb by (rewrite Hal; apply Z.bits_0).
  rewrite Z.land_spec in Hb. change 7 with (Z.ones 3) in Hb.
  rewrite Z.ones_spec_low, andb_true_r in Hb by lia. done.
Qed.

(** A packed link gives back its pointer and its flags. *)
Lemma Link_ptr_pack p f :
  capPointer p = true → 0 ≤ f < 8 → Link_ptr (Link_pack p f) = p.
Proof.
  intros Hp Hf. unfold Link_ptr. rewrite Link_offset_pack by done.
  pose proof Hp as Hp'. unfold capPointer in Hp'.
  apply andb_prop in Hp' as [[Hk _]%andb_prop Hnz]. apply negb_true_iff in Hnz.
  rewrite Hnz. by apply offset2kernel_kernel2offset.
Qed.

Lemma Link_ptr_offset v : fits 32 v → Link_ptr (Link_offset v) = Link_ptr v.
Proof.
  intros Hv. unfold Link_ptr.
  assert (Link_offset (Link_offset v) = Link_offset v) as ->; [|done].
  apply Z.bits_inj'. intros i Hi.
  rewrite !Link_offset_testbit by fits32.
  by destruct (3 <=? i).
Qed.

Lemma Link_ptr_or v f : fits 32 v → 0 ≤ f < 8 → Link_ptr (Z.lor v f) = Link_ptr v.
Proof. intros. unfold Link_ptr. by rewrite Link_offset_or. Qed.

Lemma Link_ptr_andnot v f :
  fits 32 v → 0 ≤ f < 8 → Link_ptr (Z.land v (Z.lnot f)) = Link_ptr v.
Proof. intros. unfold Link_ptr. by rewrite Link_offset_andnot. Qed.

Lemma Link_pack_flags p f i :
  capPointer p = true → 0 ≤ f < 8 → 0 ≤ i < 3 → Z.testbit (Link_pack p f) i = Z.testbit f i.
Proof.
  intros Hp Hf Hi. unfold Link_pack.
  rewrite (proj2 (Z.eqb_neq p 0)) by by apply capPointer_ne0.
  rewrite Z.lor_spec.
  assert (Z.testbit (kernel2offset p) i = false) as ->; [|done].
  pose proof Hp as Hp'. apply andb_prop in Hp' as [[_ Hal]%andb_prop _]. apply Z.eqb_eq in Hal.
  assert (Z.testbit (Z.land (kernel2offset p) 7) i = false) as Hb by (rewrite Hal; apply Z.bits_0).
  rewrite Z.land_spec in Hb. change 7 with (Z.ones 3) in Hb.
  by rewrite Z.ones_spec_low, andb_true_r in Hb by lia.
Qed.

Lemma Link_flags_range v : 0 ≤ Link_flags v < 8.
Proof.
  unfold Link_flags. change FLAG_MASK with (Z.ones 3). rewrite Z.land_ones by lia.
  apply (Z.mod_pos_bound v (2 ^ 3)). lia.
Qed.

Lemma Link_flags_testbit v i : 0 ≤ i < 3 → Z.testbit (Link_flags v) i = Z.testbit v i.
Proof.
  intros Hi. unfold Link_flags. change FLAG_MASK with (Z.ones 3).
  by rewrite Z.land_spec, Z.ones_spec_low, andb_true_r by lia.
Qed.

(** ** Entries and their store *)

(** [CapEntry], objects/capability-spinning/objects/CapEntry.hh:177-180 *)
Record CapEntry := mkEntry { _cap : Z; _prev : Z; _next : Z }.

Definition with_cap (v : Z) (c : CapEntry) : CapEntry := mkEntry v (_prev c) (_next c).
Definition with_prev (v : Z) (c : CapEntry) : CapEntry := mkEntry (_cap c) v (_next c).
Definition with_next (v : Z) (c : CapEntry) : CapEntry := mkEntry (_cap c) (_prev c) v.

(** A state that holds capability entries at kernel addresses. *)
Class HasEntries (S : Type) := {
  entries : S → gmap Z CapEntry;
  set_entries : gmap Z CapEntry → S → S;
  entries_set m s : entries (set_entries m s) = m;
  set_entries_set m m' s : set_entries m (set_entries m' s) = set_entries m s;
  set_entries_id s : set_entries (entries s) s = s
}.

#[global] Program Instance HasEntries_self : HasEntries (gmap Z CapEntry) :=
  {| entries := λ m, m; set_entries := λ m _, m |}.
Solve All Obligations with done.

Section operations.
Context {S : Type} `{HasEntries S}.

(** Access to the words of the entry at an address. *)
Definition rd (e : Z) : kernel S CapEntry := λ s,
  match entries s !! e with Some c => Done c s | None => AssertFail end.

Definition wr (e : Z) (f : CapEntry → CapEntry) : kernel S unit := λ s,
  match entries s !! e with
  | Some c => Done tt (set_entries (<[e := f c]> (entries s)) s)
  | None => AssertFail
  end.

Definition spin {A} : kernel S A := λ _, SpinsForever.

(** [CapEntry::cap], objects/capability-spinning/objects/CapEntry.hh:58 *)
Definition cap (e : Z) : kernel S Z := c <-- rd e;; kret (_cap c).

(** [CapEntry::isLinked], objects/capability-spinning/objects/CapEntry.hh:110 *)
Definition isLinked (c : CapEntry) : bool :=
  isAllocated (_cap c) && negb (Link_ptr (_next c) =? 0) && negb (Link_ptr (_prev c) =? 0).

(** [CapEntry::isUnlinked], objects/capability-spinning/objects/CapEntry.hh:111 *)
Definition isUnlinked (c : CapEntry) : bool :=
  isZombie (_cap c) && (Link_ptr (_next c) =? 0) && (Link_ptr (_prev c) =? 0).

(** The constructor [Link] from a pointer, with the assertions of [_pack] and
    of [kernel2offset], objects/capability-spinning/objects/CapEntry.hh:131 *)
Definition mkLink (p flags : Z) : kernel S Z :=
  kassert ((p =? 0) || isKernelAddress p);;;
  kassert (Z.lor flags FLAG_MASK =? FLAG_MASK);;;
  kassert (Z.land (if p =? 0 then 0 else kernel2offset p) FLAG_MASK =? 0);;;
  kret (Link_pack p flags).

(** [CapEntry::initRoot], objects/capability-spinning/objects/CapEntry.cc:33-42 *)
Definition initRoot (this c : Z) : kernel S unit :=
  kassert (isKernelAddress this);;;
  kassert (isUsable c);;;
  old <-- cap this;;
  kassert (isEmptyCap old);;;
  loopLink <-- mkLink this 0;;
  wr this (with_next loopLink);;;
  wr this (with_prev loopLink);;;
  wr this (with_cap c).

(** [CapEntry::tryAcquire], objects/capability-spinning/objects/CapEntry.cc:44-49 *)
Definition tryAcquire (this : Z) : kernel S bool :=
  c <-- rd this;;
  if _cap c =? asEmpty then wr this (with_cap asAllocated);;; kret true else kret false.

(** [CapEntry::acquire], objects/capability-spinning/objects/CapEntry.cc:51-55 *)
Definition acquire (this : Z) : kernel S (optional unit) :=
  b <-- tryAcquire this;; kret (if b then OK tt else THROW CAP_NONEMPTY).

(** [CapEntry::commit], objects/capability-spinning/objects/CapEntry.cc:57-61 *)
Definition commit (this c : Z) : kernel S unit :=
  e <-- rd this;;
  kassert (isLinked e);;;
  wr this (with_cap c).

(** [CapEntry::reset], objects/capability-spinning/objects/CapEntry.cc:63-70 *)
Definition reset (this : Z) : kernel S unit :=
  e <-- rd this;;
  kassert (isUnlinked e || isAllocated (_cap e));;;
  wr this (with_prev 0);;;
  wr this (with_next 0);;;
  wr this (with_cap asEmpty).

(** [CapEntry::setPrevPreserveFlags], objects/capability-spinning/objects/CapEntry.cc:72-79 *)
Definition setPrevPreserveFlags (this p : Z) : kernel S unit :=
  e <-- rd this;;
  desired <-- mkLink p (Link_flags (_prev e));;
  wr this (with_prev desired).

(** [CapEntry::setRevoking], objects/capability-spinning/objects/CapEntry.hh:70 *)
Definition setRevoking (this : Z) : kernel S bool :=
  e <-- rd this;;
  wr this (with_prev (Z.lor (_prev e) REVOKING_FLAG));;;
  kret (negb (Z.testbit (_prev e) 1)).

(** [CapEntry::finishRevoke], objects/capability-spinning/objects/CapEntry.hh:71 *)
Definition finishRevoke (this : Z) : kernel S unit :=
  e <-- rd this;; wr this (with_prev (Z.land (_prev e) (Z.lnot REVOKING_FLAG))).

(** [CapEntry::isRevoking], objects/capability-spinning/objects/CapEntry.hh:72 *)
Definition isRevoking (c : CapEntry) : bool := Z.testbit (_prev c) 1.

(** [CapEntry::setDeleted], objects/capability-spinning/objects/CapEntry.hh:74 *)
Definition setDeleted (this : Z) : kernel S unit :=
  e <-- rd this;; wr this (with_prev (Z.lor (_prev e) DELETED_FLAG)).

(** [CapEntry::isDeleted], objects/capability-spinning/objects/CapEntry.hh:75 *)
Definition isDeleted (c : CapEntry) : bool := Z.testbit (_prev c) 2.

(** [CapEntry::try_lock], objects/capability-spinning/objects/CapEntry.hh:87 *)
Definition try_lock (this : Z) : kernel S bool :=
  e <-- rd this;;
  wr this (with_next (Z.lor (_next e) LOCKED_FLAG));;;
  kret (negb (Z.testbit (_next e) 0)).

(** [CapEntry::lock], objects/capability-spinning/objects/CapEntry.hh:88 *)
Definition lock (this : Z) : kernel S unit :=
  b <-- try_lock this;; if b then kret tt else spin.

(** [CapEntry::unlock], objects/capability-spinning/objects/CapEntry.hh:89 *)
Definition unlock (this : Z) : kernel S unit :=
  e <-- rd this;;
  wr this (with_next (Z.land (_next e) (Z.lnot LOCKED_FLAG)));;;
  kassert (Z.testbit (_next e) 0).

(** [CapEntry::is_locked], objects/capability-spinning/objects/CapEntry.hh:93 *)
Definition is_locked (c : CapEntry) : bool := Z.testbit (_next c) 0.

(** [CapEntry::try_lock_prev], objects/capability-spinning/objects/CapEntry.cc:139-153 *)
Definition try_lock_prev (this : Z) : kernel S Error :=
  e <-- rd this;;
  let prev := Link_ptr (_prev e) in
  if prev =? 0 then kret GENERIC_ERROR
  else
    b <-- try_lock prev;;
    if b then
      e' <-- rd this;;
      if Link_ptr (_prev e') =? prev then kret SUCCESS
      else unlock prev;;; kret RETRY
    else kret RETRY.

(** [CapEntry::lock_prev], objects/capability-spinning/objects/CapEntry.cc:155-162 *)
Definition lock_prev (this : Z) : kernel S bool :=
  r <-- try_lock_prev this;;
  if decide (r = RETRY) then spin else kret (bool_decide (r = SUCCESS)).

(** [CapEntry::unlock_prev], objects/capability-spinning/objects/CapEntry.hh:97 *)
Definition unlock_prev (this : Z) : kernel S unit :=
  e <-- rd this;;
  kassert (negb (Link_ptr (_prev e) =? 0));;;
  unlock (Link_ptr (_prev e)).

(** [CapEntry::next], objects/capability-spinning/objects/CapEntry.hh:99-103 *)
Definition next (this : Z) : kernel S Z :=
  e <-- rd this;; kassert (is_locked e);;; kret (Link_ptr (_next e)).

(** [CapEntry::prev], objects/capability-spinning/objects/CapEntry.hh:105-108 *)
Definition prev (this : Z) : kernel S Z :=
  e <-- rd this;; kret (Link_ptr (_prev e)).

(** [CapEntry::insertAfter], objects/capability-spinning/objects/CapEntry.hh:183-211 *)
Definition insertAfter (this parentCap target targetCap : Z) (commitfun : kernel S unit)
    : kernel S (optional unit) :=
  kassert (isKernelAddress this);;;
  tc <-- cap target;;
  kassert (isAllocated tc);;;
  lock this;;;
  curCap <-- cap this;;
  if negb (isUsable curCap) || negb (curCap =? parentCap) then
    unlock this;;;
    reset target;;;
    kret (THROW LOST_RACE)
  else
    commitfun;;;
    e <-- rd this;;
    let nxt := Link_withoutFlags (_next e) in
    kassert (negb (Link_ptr nxt =? 0));;;
    setPrevPreserveFlags (Link_ptr nxt) target;;;
    wr target (with_next nxt);;;
    toThis <-- mkLink this 0;;
    wr target (with_prev toThis);;;
    toTarget <-- mkLink target 0;;
    wr this (with_next toTarget);;;
    commit target targetCap;;;
    kret (OK tt).

(** [CapEntry::moveTo], objects/capability-spinning/objects/CapEntry.cc:81-112 *)
Definition moveTo (this other : Z) : kernel S (optional unit) :=
  o <-- rd other;;
  kassert (isAllocated (_cap o));;;
  kassert (negb (isLinked o));;;
  locked <-- lock_prev this;;
  if negb locked then reset other;;; kret (THROW GENERIC_ERROR)
  else
    lock this;;;
    e <-- rd this;;
    let thisCap := _cap e in
    if isRevoking e || negb (isUsable thisCap) then
      reset other;;;
      unlock this;;;
      unlock_prev this;;;
      kret (THROW INVALID_CAPABILITY)
    else
      let nxt := Link_withoutFlags (_next e) in
      let prv := Link_withoutFlags (_prev e) in
      kassert (negb (Link_ptr nxt =? 0));;;
      setPrevPreserveFlags (Link_ptr nxt) other;;;
      wr other (with_next nxt);;;
      wr other (with_prev prv);;;
      kassert (negb (Link_ptr prv =? 0));;;
      toOther <-- mkLink other 0;;
      wr (Link_ptr prv) (with_next toOther);;;
      commit other thisCap;;;
      wr this (with_prev 0);;;
      wr this (with_next 0);;;
      wr this (with_cap asEmpty);;;
      kret (OK tt).

(** [CapEntry::kill], objects/capability-spinning/objects/CapEntry.cc:114-126 *)
Definition kill (this : Z) : kernel S bool :=
  e <-- rd this;;
  let curCap := _cap e in
  if negb (isUsable curCap) then kret (isZombie curCap)
  else wr this (with_cap (asZombie curCap));;; kret true.

(** [CapEntry::unlink], objects/capability-spinning/objects/CapEntry.cc:128-137 *)
Definition unlink (this : Z) : kernel S (optional unit) :=
  e <-- rd this;;
  let nxt := Link_withoutFlags (_next e) in
  let prv := Link_withoutFlags (_prev e) in
  kassert (negb (Link_ptr nxt =? 0));;;
  wr (Link_ptr nxt) (with_prev prv);;;
  kassert (negb (Link_ptr prv =? 0));;;
  wr (Link_ptr prv) (with_next nxt);;;
  wr this (with_prev 0);;;
  wr this (with_next 0);;;
  kret (OK tt).

End operations.
