(* ===== verification/CapRing.v ===== *)
(** * Resource lists as cyclic lists

    The abstract view of the entries of objects/capability-spinning: a resource
    list is a cyclic list of nodes (address, capability, the two flags of
    [_prev] and the lock bit of [_next]), and [Ring m l] says that the store
    [m] holds the entries of [l] doubly linked in that order.  The operations of [CapEntry]
    are shown to implement insertion, replacement and removal on the list. *)

From stdpp Require Import base tactics numbers list gmap.
From Stdlib Require Import ZArith Lia.
From S2P Require Import Prelude Bitfield Cap CapEntry.

Local Open Scope Z_scope.
Import PhysPtr.

Record node := mkNode {
  n_addr : Z; n_cap : Z; n_revoking : bool; n_deleted : bool; n_locked : bool }.

(** A fresh entry as [insertAfter] links it. *)
Definition fresh (a c : Z) : node := mkNode a c false false false.

Definition n_flags (n : node) : Z :=
  (if n_revoking n then REVOKING_FLAG else 0) + (if n_deleted n then DELETED_FLAG else 0).

Definition n_lk (n : node) : Z := if n_locked n then LOCKED_FLAG else 0.

(** The entry of [n] between the entries at [p] and [q]. *)
Definition entry_of (n : node) (p q : Z) : CapEntry :=
  mkEntry (n_cap n) (Link_pack p (n_flags n)) (Link_pack q (n_lk n)).

Definition first (z : Z) (l : list node) : Z := match l with [] => z | n :: _ => n_addr n end.
Definition final (p : Z) (l : list node) : Z := default p (n_addr <$> last l).

(** [l] is linked in [m], preceded by [p] and followed by [z]. *)
Fixpoint seg (m : gmap Z CapEntry) (p : Z) (l : list node) (z : Z) : Prop :=
  match l with
  | [] => True
  | n :: l' => m !! n_addr n = Some (entry_of n p (first z l')) ∧ seg m (n_addr n) l' z
  end.

Definition addrs (l : list node) : list Z := n_addr <$> l.

Definition Ring (m : gmap Z CapEntry) (l : list node) : Prop :=
  NoDup (addrs l) ∧ Forall (λ a, capPointer a = true) (addrs l) ∧
  seg m (final 0 l) l (first 0 l).

#[global] Instance CapEntry_eq_dec : EqDecision CapEntry.
Proof. solve_decision. Defined.

#[global] Instance seg_dec m p l z : Decision (seg m p l z).
Proof. revert p. induction l; intros p; simpl; apply _. Defined.

#[global] Instance Ring_dec m l : Decision (Ring m l).
Proof. unfold Ring. apply _. Defined.

(** A store that holds exactly the entries of a cyclic list. *)
Fixpoint ring_store (p : Z) (l : list node) (z : Z) : gmap Z CapEntry :=
  match l with
  | [] => ∅
  | n :: l' => <[n_addr n := entry_of n p (first z l')]> (ring_store (n_addr n) l' z)
  end.

Definition store_of (l : list node) : gmap Z CapEntry := ring_store (final 0 l) l (first 0 l).

(** ** Segments *)

Lemma final_cons p n l : final p (n :: l) = final (n_addr n) l.
Proof. unfold final. rewrite last_cons. by destruct (last l). Qed.

Lemma final_app p l1 l2 : final p (l1 ++ l2) = final (final p l1) l2.
Proof. unfold final. rewrite last_app. by destruct (last l2). Qed.

Lemma first_app z l1 l2 : first z (l1 ++ l2) = first (first z l2) l1.
Proof. by destruct l1. Qed.

Lemma seg_app m p l1 l2 z :
  seg m p (l1 ++ l2) z ↔ seg m p l1 (first z l2) ∧ seg m (final p l1) l2 z.
Proof.
  revert p. induction l1 as [|n l1 IH]; intros p; simpl; [tauto|].
  rewrite IH, first_app, final_cons. tauto.
Qed.

Lemma seg_frame m m' p l z :
  (∀ a, a ∈ addrs l → m' !! a = m !! a) → seg m p l z → seg m' p l z.
Proof.
  revert p. induction l as [|n l IH]; intros p Hm; simpl; [done|]. intros [Hn Hl]. split.
  - rewrite Hm; [done|]. by left.
  - apply IH; [|done]. intros a Ha. apply Hm. by right.
Qed.

Lemma Ring_rotate m l1 l2 : Ring m (l1 ++ l2) → Ring m (l2 ++ l1).
Proof.
  intros (Hnd & Hcp & Hseg). unfold Ring, addrs in *. rewrite fmap_app in *.
  split; [by rewrite (comm app)|]. split; [by rewrite (comm app)|].
  destruct l1 as [|n1 l1]; [by rewrite app_nil_r in *|].
  destruct l2 as [|n2 l2]; [by rewrite app_nil_r in *|].
  apply seg_app in Hseg as [H1 H2]. apply seg_app. rewrite final_app in *.
  rewrite !final_cons in *. by split.
Qed.

Lemma Ring_addr m n l : Ring m (n :: l) → capPointer (n_addr n) = true.
Proof. intros (_ & Hcp & _). by apply Forall_cons in Hcp as [? _]. Qed.

Lemma n_flags_range n : 0 ≤ n_flags n < 8.
Proof. unfold n_flags, REVOKING_FLAG, DELETED_FLAG. repeat case_match; lia. Qed.

Lemma n_flags_revoking n : Z.testbit (n_flags n) 1 = n_revoking n.
Proof. unfold n_flags. by destruct (n_revoking n), (n_deleted n). Qed.

(** ** Link words of ring entries *)

Lemma Link_flags_pack p f :
  capPointer p = true → 0 ≤ f < 8 → Link_flags (Link_pack p f) = f.
Proof.
  intros Hp Hf. apply Z.bits_inj'. intros i Hi. destruct (decide (i < 3)).
  - rewrite Link_flags_testbit, Link_pack_flags by (done || lia). done.
  - rewrite !flags_testbit by (lia || apply Link_flags_range || done). done.
Qed.

Lemma Link_pack_0 p : capPointer p = true → Link_pack p 0 = kernel2offset p.
Proof.
  intros Hp. unfold Link_pack. rewrite (proj2 (Z.eqb_neq p 0)) by by apply capPointer_ne0.
  apply Z.lor_0_r.
Qed.

Lemma withoutFlags_pack p f :
  capPointer p = true → 0 ≤ f < 8 → Link_withoutFlags (Link_pack p f) = Link_pack p 0.
Proof. intros. unfold Link_withoutFlags. by rewrite Link_offset_pack, Link_pack_0. Qed.

Lemma n_lk_range n : 0 ≤ n_lk n < 8.
Proof. unfold n_lk, LOCKED_FLAG. case_match; lia. Qed.

Lemma pack_bit0 p n : capPointer p = true → Z.testbit (Link_pack p (n_lk n)) 0 = n_locked n.
Proof.
  intros. rewrite Link_pack_flags by (done || apply n_lk_range || lia).
  unfold n_lk. by destruct (n_locked n).
Qed.

Lemma pack_unlocked p : capPointer p = true → Z.testbit (Link_pack p 0) 0 = false.
Proof. intros. by rewrite Link_pack_flags by (done || lia). Qed.

Lemma pack_locked p : capPointer p = true → Z.testbit (Link_pack p LOCKED_FLAG) 0 = true.
Proof. intros. by rewrite Link_pack_flags by (done || unfold LOCKED_FLAG; lia). Qed.

Lemma n_lk_unlocked n : n_locked n = false → n_lk n = 0.
Proof. unfold n_lk. by intros ->. Qed.

Lemma n_lk_locked n : n_locked n = true → n_lk n = LOCKED_FLAG.
Proof. unfold n_lk. by intros ->. Qed.

Lemma pack_lock p : Z.lor (Link_pack p 0) LOCKED_FLAG = Link_pack p LOCKED_FLAG.
Proof. unfold Link_pack. by rewrite Z.lor_0_r. Qed.

Lemma pack_unlock p :
  capPointer p = true → Z.land (Link_pack p LOCKED_FLAG) (Z.lnot LOCKED_FLAG) = Link_pack p 0.
Proof.
  intros Hp. rewrite <-pack_lock, Z.land_lor_distr_l, Z.land_lnot_diag, Z.lor_0_r.
  apply Z.bits_inj'. intros i Hi. rewrite Z.land_spec, Z.lnot_spec by lia.
  destruct (decide (i = 0)) as [->|]; [by rewrite Link_pack_flags by (done || lia)|].
  change LOCKED_FLAG with (2 ^ 0). rewrite Z.pow2_bits_false by lia. by rewrite andb_true_r.
Qed.

(** ** Running the operations

    States are kept in the form [set_entries m s], so that every access is a
    lookup in, or an update of, [m]. *)

(** Resolves a lookup in a chain of insertions. *)
Ltac lkp :=
  first [ eassumption | apply lookup_insert_eq
        | rewrite lookup_insert_ne by (done || congruence); lkp ].

Section run.
Context {S : Type} `{HasEntries S}.
Implicit Types (m : gmap Z CapEntry) (s : S) (e p : Z) (c : CapEntry).

Lemma rd_run m s e c : m !! e = Some c → rd e (set_entries m s) = Done c (set_entries m s).
Proof. intros He. unfold rd. by rewrite entries_set, He. Qed.

Lemma wr_run m s e c f :
  m !! e = Some c → wr e f (set_entries m s) = Done tt (set_entries (<[e := f c]> m) s).
Proof. intros He. unfold wr. by rewrite entries_set, He, set_entries_set. Qed.

Lemma cap_run m s e c :
  m !! e = Some c → cap e (set_entries m s) = Done (_cap c) (set_entries m s).
Proof. intros He. unfold cap. by rewrite (kbind_run _ _ _ _ _ (rd_run _ s _ _ He)). Qed.

Lemma mkLink_run p f s :
  capPointer p = true → 0 ≤ f < 8 → mkLink p f s = Done (Link_pack p f) s.
Proof.
  intros Hp Hf. unfold mkLink, kbind, kassert, kret.
  pose proof (capPointer_ne0 _ Hp) as Hne%Z.eqb_neq. rewrite Hne. simpl.
  pose proof Hp as Hp'. unfold capPointer in Hp'. bool_hyps.
  replace (isKernelAddress p) with true by done.
  replace (Z.lor f FLAG_MASK =? FLAG_MASK) with true.
  2: { symmetry. apply Z.eqb_eq, Z.bits_inj'. intros i Hi. rewrite Z.lor_spec.
       change FLAG_MASK with (Z.ones 3). destruct (decide (i < 3)).
       - rewrite Z.ones_spec_low by lia. apply orb_true_r.
       - rewrite flags_testbit by lia. done. }
  replace (Z.land (kernel2offset p) FLAG_MASK =? 0) with true; [done|].
  symmetry. apply Z.eqb_eq. pose proof (Link_flags_pack p 0 Hp ltac:(lia)) as Hz.
  by rewrite Link_pack_0 in Hz.
Qed.

Lemma try_lock_run m s e c :
  m !! e = Some c →
  try_lock e (set_entries m s) =
    Done (negb (is_locked c))
      (set_entries (<[e := with_next (Z.lor (_next c) LOCKED_FLAG) c]> m) s).
Proof. intros He. unfold try_lock, kbind. erewrite rd_run by done. by erewrite wr_run. Qed.

Lemma lock_run m s e c :
  m !! e = Some c → is_locked c = false →
  lock e (set_entries m s) =
    Done tt (set_entries (<[e := with_next (Z.lor (_next c) LOCKED_FLAG) c]> m) s).
Proof.
  intros He Hl. unfold lock, kbind. erewrite try_lock_run by done. by rewrite Hl.
Qed.

Lemma lock_spins m s e c :
  m !! e = Some c → is_locked c = true → lock e (set_entries m s) = SpinsForever.
Proof.
  intros He Hl. unfold lock, kbind. erewrite try_lock_run by done. by rewrite Hl.
Qed.

Lemma unlock_run m s e c :
  m !! e = Some c → is_locked c = true →
  unlock e (set_entries m s) =
    Done tt (set_entries (<[e := with_next (Z.land (_next c) (Z.lnot LOCKED_FLAG)) c]> m) s).
Proof.
  intros He Hl. unfold unlock, kbind. erewrite rd_run, wr_run by done.
  unfold is_locked in Hl. by rewrite Hl.
Qed.

Lemma reset_run m s e c :
  m !! e = Some c → isUnlinked c || isAllocated (_cap c) = true →
  reset e (set_entries m s) = Done tt (set_entries (<[e := mkEntry asEmpty 0 0]> m) s).
Proof.
  intros He Hl. unfold reset, kbind. erewrite rd_run by done. rewrite kassert_run by done.
  erewrite wr_run by done. erewrite wr_run by lkp. erewrite wr_run by lkp.
  by rewrite !insert_insert_eq.
Qed.

Lemma setPrev_run m s e c p :
  m !! e = Some c → capPointer p = true →
  setPrevPreserveFlags e p (set_entries m s) =
    Done tt (set_entries (<[e := with_prev (Link_withPtr (_prev c) p) c]> m) s).
Proof.
  intros He Hp. unfold setPrevPreserveFlags, kbind. erewrite rd_run by done.
  rewrite mkLink_run by (done || apply Link_flags_range). by erewrite wr_run.
Qed.

Lemma commit_run m s e c v :
  m !! e = Some c → isLinked c = true →
  commit e v (set_entries m s) = Done tt (set_entries (<[e := with_cap v c]> m) s).
Proof.
  intros He Hl. unfold commit, kbind. erewrite rd_run by done. rewrite kassert_run by done.
  by erewrite wr_run.
Qed.

Lemma lock_prev_run m s e c p cp :
  m !! e = Some c → Link_ptr (_prev c) = p → p ≠ 0 → m !! p = Some cp → is_locked cp = false →
  lock_prev e (set_entries m s) =
    Done true (set_entries (<[p := with_next (Z.lor (_next cp) LOCKED_FLAG) cp]> m) s).
Proof.
  intros He Hp Hne Hcp Hl. unfold lock_prev, try_lock_prev, kbind. erewrite rd_run by done.
  rewrite Hp, (proj2 (Z.eqb_neq _ _) Hne). erewrite try_lock_run by done.
  rewrite Hl. cbn [negb kret].
  destruct (decide (p = e)) as [->|].
  - assert (cp = c) as -> by congruence. erewrite rd_run by lkp. cbn [with_next _prev]. by rewrite Hp, Z.eqb_refl.
  - erewrite rd_run by lkp. by rewrite Hp, Z.eqb_refl.
Qed.

Lemma lock_prev_unlinked m s e c :
  m !! e = Some c → Link_ptr (_prev c) = 0 →
  lock_prev e (set_entries m s) = Done false (set_entries m s).
Proof.
  intros He Hp. unfold lock_prev, try_lock_prev, kbind. erewrite rd_run by done.
  by rewrite Hp.
Qed.

Lemma unlock_prev_run m s e c p cp :
  m !! e = Some c → Link_ptr (_prev c) = p → p ≠ 0 → m !! p = Some cp → is_locked cp = true →
  unlock_prev e (set_entries m s) =
    Done tt (set_entries (<[p := with_next (Z.land (_next cp) (Z.lnot LOCKED_FLAG)) cp]> m) s).
Proof.
  intros He Hp Hne Hcp Hl. unfold unlock_prev, kbind. erewrite rd_run by done.
  rewrite Hp, (proj2 (Z.eqb_neq _ _) Hne), kassert_run by done. by apply unlock_run.
Qed.

Lemma kill_run m s e c :
  m !! e = Some c → isUsable (_cap c) = true →
  kill e (set_entries m s) = Done true (set_entries (<[e := with_cap (asZombie (_cap c)) c]> m) s).
Proof.
  intros He Hu. unfold kill, kbind. erewrite rd_run by done. rewrite Hu.
  cbn [negb]. by erewrite wr_run.
Qed.

Lemma kill_noop m s e c :
  m !! e = Some c → isUsable (_cap c) = false →
  kill e (set_entries m s) = Done (isZombie (_cap c)) (set_entries m s).
Proof. intros He Hu. unfold kill, kbind. erewrite rd_run by done. by rewrite Hu. Qed.

End run.

(** Rewrites the link words of ring entries. *)
Ltac links :=
  rewrite ?pack_lock, ?withoutFlags_pack, ?Link_ptr_pack, ?Link_flags_pack, ?pack_bit0, ?pack_unlocked,
    ?pack_locked, ?pack_unlock
    by (done || apply n_flags_range || apply n_lk_range || (unfold LOCKED_FLAG; lia)).

Ltac prev_side :=
  cbn [_cap _prev _next with_cap with_prev with_next entry_of]; links; reflexivity.

(** Executes the next operation of a [kernel] computation. *)
Ltac kop side :=
  first [ apply rd_run; lkp | apply wr_run; lkp | apply cap_run; lkp
        | apply kassert_run; side | apply mkLink_run; side
        | eapply lock_run; [lkp|side] | eapply unlock_run; [lkp|side]
        | eapply reset_run; [lkp|side] | eapply setPrev_run; [lkp|side]
        | eapply commit_run; [lkp|side]
        | eapply lock_prev_run; [lkp|prev_side|side|lkp|side]
        | eapply unlock_prev_run; [lkp|prev_side|side|lkp|side] ].
Ltac kstep side := erewrite kbind_run; [|kop side]; cbn beta.

Ltac ring_side :=
  try done; try (by apply capPointer_ne0);
  try match goal with Hb : ?b = false |- context [?b] => rewrite Hb; done end;
  cbn [_cap _prev _next with_cap with_prev with_next entry_of is_locked isLinked isUnlinked];
  unfold is_locked, isLinked, isUnlinked, entry_of; cbn [_cap _prev _next with_cap with_prev with_next];
  links; try done;
  repeat match goal with
  | Hc : capPointer ?p = true |- context [?p =? 0] =>
      rewrite (proj2 (Z.eqb_neq p 0) (capPointer_ne0 p Hc))
  | Hb : ?b = true |- context [?b] => rewrite Hb
  end; try done; rewrite ?Z.eqb_refl, ?orb_true_r; try done; lia.

Ltac lks :=
  repeat first [ rewrite lookup_insert_eq | rewrite lookup_insert_ne by (done || congruence) ].

(** Closes goals that an address holds the entry of a node. *)
Ltac node_lookup :=
  lks; first [ done
        | f_equal; unfold entry_of, Link_withPtr; cbn [_cap _prev _next with_cap with_prev with_next];
          repeat match goal with Hz : n_lk _ = _ |- _ => rewrite Hz end; links; done ].

(** The effect of the stores of [unlink] on the neighbours. *)
Definition clearf (n : node) : node := mkNode (n_addr n) (n_cap n) false false (n_locked n).
Definition unlockn (n : node) : node :=
  mkNode (n_addr n) (n_cap n) (n_revoking n) (n_deleted n) false.

Section insert.
Context {S : Type} `{HasEntries S}.
Implicit Types (m : gmap Z CapEntry) (s : S).

Lemma Ring_cons_inv m n l :
  Ring m (n :: l) ↔
  NoDup (n_addr n :: addrs l) ∧ Forall (λ a, capPointer a = true) (n_addr n :: addrs l) ∧
  m !! n_addr n = Some (entry_of n (final (n_addr n) l) (first (n_addr n) l)) ∧
  seg m (n_addr n) l (n_addr n).
Proof. unfold Ring. rewrite final_cons. done. Qed.

Lemma insertAfter_ring m s s' n l target t targetCap cf :
  Ring m (n :: l) → isUsable (n_cap n) = true → n_locked n = false →
  target ∉ addrs (n :: l) → capPointer target = true →
  m !! target = Some t → isAllocated (_cap t) = true →
  (∀ m1, cf (set_entries m1 s) = Done tt (set_entries m1 s')) →
  ∃ m', insertAfter (n_addr n) (n_cap n) target targetCap cf (set_entries m s) =
          Done (OK tt) (set_entries m' s') ∧
        Ring m' (n :: fresh target targetCap :: l) ∧
        ∀ a, a ∉ target :: addrs (n :: l) → m' !! a = m !! a.
Proof.
  intros (Hnd & Hcp & Hn & Hl)%Ring_cons_inv Hu Hlk Ht Hct Hmt Ha Hcf.
  apply not_elem_of_cons in Ht as [Htn Htl].
  apply n_lk_unlocked in Hlk. unfold entry_of in Hn. rewrite Hlk in Hn.
  pose proof (Forall_inv Hcp) as Hcn. simpl in Hcn.
  assert (isKernelAddress (n_addr n) = true) as Hk.
  { unfold capPointer in Hcn. bool_hyps. done. }
  unfold insertAfter. destruct l as [|q l]; simpl in *.
  - eexists. split; [|split].
    + do 5 kstep ring_side. cbn. rewrite Hu, Z.eqb_refl. cbn.
      erewrite kbind_run by apply Hcf. kstep ring_side. cbn. links.
      repeat kstep ring_side. reflexivity.
    + apply Ring_cons_inv. simpl. split_and!; try node_lookup.
      * apply NoDup_cons. split; [set_solver|apply NoDup_singleton].
      * by repeat constructor.
    + intros a Hna. apply not_elem_of_cons in Hna as [? [? _]%not_elem_of_cons].
      by rewrite !lookup_insert_ne by congruence.
  - destruct Hl as [Hq Hl]. apply NoDup_cons in Hnd as [Hnl Hnd].
    apply NoDup_cons in Hnd as [Hql Hnd].
    apply not_elem_of_cons in Hnl as [Hnq Hnl]. apply not_elem_of_cons in Htl as [Htq Htl].
    pose proof (Forall_inv (Forall_inv_tail Hcp)) as Hcq. simpl in Hcq.
    eexists. split; [|split].
    + do 5 kstep ring_side. cbn. rewrite Hu, Z.eqb_refl. cbn.
      erewrite kbind_run by apply Hcf. kstep ring_side. cbn. links.
      repeat kstep ring_side. reflexivity.
    + apply Ring_cons_inv. simpl. rewrite !final_cons in *. split_and!; try node_lookup.
      * repeat apply NoDup_cons_2; set_solver.
      * repeat (apply Forall_cons; split; [done|]). by do 2 apply Forall_inv_tail in Hcp.
      * eapply seg_frame; [|done]. intros a Hal.
        by rewrite !lookup_insert_ne by set_solver.
    + intros a Hna. rewrite !not_elem_of_cons in Hna. destruct Hna as (? & ? & ? & _).
      by rewrite !lookup_insert_ne by congruence.
Qed.

(** The facts the removal of the head of a ring uses. *)
Lemma Ring_pair_inv m n q :
  Ring m [n; q] →
  n_addr n ≠ n_addr q ∧ capPointer (n_addr n) = true ∧ capPointer (n_addr q) = true ∧
  m !! n_addr n = Some (mkEntry (n_cap n) (Link_pack (n_addr q) (n_flags n))
                                (Link_pack (n_addr q) (n_lk n))) ∧
  m !! n_addr q = Some (mkEntry (n_cap q) (Link_pack (n_addr n) (n_flags q))
                                (Link_pack (n_addr n) (n_lk q))).
Proof.
  intros (Hnd & Hcp & Hn & Hq & _)%Ring_cons_inv.
  apply NoDup_cons in Hnd as [Hnq _]. rewrite list_elem_of_singleton in Hnq.
  simpl in Hcp. rewrite Forall_cons, Forall_singleton in Hcp. naive_solver.
Qed.

Lemma Ring_many_inv m n q mid p :
  Ring m (n :: q :: mid ++ [p]) →
  n_addr n ≠ n_addr q ∧ n_addr n ≠ n_addr p ∧ n_addr q ≠ n_addr p ∧
  (∀ a, a ∈ addrs mid → a ≠ n_addr n ∧ a ≠ n_addr q ∧ a ≠ n_addr p) ∧ NoDup (addrs mid) ∧
  capPointer (n_addr n) = true ∧ capPointer (n_addr q) = true ∧ capPointer (n_addr p) = true ∧
  Forall (λ a, capPointer a = true) (addrs mid) ∧
  m !! n_addr n = Some (mkEntry (n_cap n) (Link_pack (n_addr p) (n_flags n))
                                (Link_pack (n_addr q) (n_lk n))) ∧
  m !! n_addr q = Some (mkEntry (n_cap q) (Link_pack (n_addr n) (n_flags q))
                                (Link_pack (first (n_addr p) mid) (n_lk q))) ∧
  seg m (n_addr q) mid (n_addr p) ∧
  m !! n_addr p = Some (mkEntry (n_cap p) (Link_pack (final (n_addr q) mid) (n_flags p))
                                (Link_pack (n_addr n) (n_lk p))).
Proof.
  intros (Hnd & Hcp & Hn & Hq & Hl)%Ring_cons_inv.
  apply seg_app in Hl as [Hmid [Hp _]]. rewrite final_cons, final_app in Hn.
  rewrite first_app in Hq. unfold addrs in *. rewrite fmap_cons, fmap_app in *. simpl in *.
  apply NoDup_cons in Hnd as [Hnl [Hql Hnd]%NoDup_cons].
  apply NoDup_app in Hnd as (Hndm & Hmp & _).
  rewrite !Forall_cons, Forall_app, Forall_singleton in Hcp.
  destruct Hcp as (? & ? & ? & ?). split_and!; try done; set_solver.
Qed.

(** Conversely, the facts that make a ring of at least two entries. *)
Lemma Ring_many m q mid p :
  n_addr q ≠ n_addr p → (∀ a, a ∈ addrs mid → a ≠ n_addr q ∧ a ≠ n_addr p) → NoDup (addrs mid) →
  capPointer (n_addr q) = true → capPointer (n_addr p) = true →
  Forall (λ a, capPointer a = true) (addrs mid) →
  m !! n_addr q = Some (entry_of q (n_addr p) (first (n_addr p) mid)) →
  seg m (n_addr q) mid (n_addr p) →
  m !! n_addr p = Some (entry_of p (final (n_addr q) mid) (n_addr q)) →
  Ring m (q :: mid ++ [p]).
Proof.
  intros Hqp Hm Hnd Hcq Hcp Hcm Hq Hmid Hp. apply Ring_cons_inv.
  unfold addrs in *. rewrite fmap_app, final_app, first_app, seg_app. simpl. split_and!; try done.
  - apply NoDup_cons. split; [set_solver|]. apply NoDup_app. split_and!; [done|set_solver|].
    apply NoDup_singleton.
  - by rewrite Forall_cons, Forall_app, Forall_singleton.
Qed.

(** Removal of the head of a ring: the successor loses the flags of its [_prev]
    word and the predecessor is unlocked. *)
Lemma unlink_pair m s n q :
  Ring m [n; q] →
  ∃ m', unlink (n_addr n) (set_entries m s) = Done (OK tt) (set_entries m' s) ∧
        Ring m' [unlockn (clearf q)] ∧
        m' !! n_addr n = Some (mkEntry (n_cap n) 0 0) ∧
        ∀ a, a ∉ [n_addr n; n_addr q] → m' !! a = m !! a.
Proof.
  intros (Hnq & Hcn & Hcq & Hn & Hq)%Ring_pair_inv. eexists. split_and!.
  - unfold unlink. kstep ring_side. cbn [_cap _prev _next]. links.
    repeat kstep ring_side. reflexivity.
  - apply Ring_cons_inv. simpl. split_and!; try node_lookup.
    + apply NoDup_singleton.
    + by repeat constructor.
  - node_lookup.
  - intros a Ha. rewrite !not_elem_of_cons in Ha. destruct Ha as (? & ? & _). by lks.
Qed.

Lemma unlink_many m s n q mid p :
  Ring m (n :: q :: mid ++ [p]) →
  ∃ m', unlink (n_addr n) (set_entries m s) = Done (OK tt) (set_entries m' s) ∧
        Ring m' (clearf q :: mid ++ [unlockn p]) ∧
        m' !! n_addr n = Some (mkEntry (n_cap n) 0 0) ∧
        ∀ a, a ∉ addrs (n :: q :: mid ++ [p]) → m' !! a = m !! a.
Proof.
  intros (Hnq & Hnp & Hqp & Hm & Hnd & Hcn & Hcq & Hcp & Hcm & Hn & Hq & Hmid & Hp)%Ring_many_inv.
  eexists. split_and!.
  - unfold unlink. kstep ring_side. cbn [_cap _prev _next]. links.
    repeat kstep ring_side. reflexivity.
  - apply Ring_many; try done; [naive_solver| | |]; try node_lookup.
    eapply seg_frame; [|done]. intros a (? & ? & ?)%Hm. by lks.
  - node_lookup.
  - intros a Ha. unfold addrs in Ha. rewrite !fmap_cons, fmap_app in Ha.
    by rewrite !lookup_insert_ne by set_solver.
Qed.

(** [moveTo] lets [other] take the place of the head. *)
Lemma moveTo_pair m s n q other t :
  Ring m [n; q] → isUsable (n_cap n) = true → n_revoking n = false →
  n_locked n = false → n_locked q = false →
  other ∉ addrs [n; q] → capPointer other = true →
  m !! other = Some t → isAllocated (_cap t) = true → isLinked t = false →
  ∃ m', moveTo (n_addr n) other (set_entries m s) = Done (OK tt) (set_entries m' s) ∧
        Ring m' [fresh other (n_cap n); q] ∧
        m' !! n_addr n = Some (mkEntry asEmpty 0 0) ∧
        ∀ a, a ∉ other :: addrs [n; q] → m' !! a = m !! a.
Proof.
  intros (Hnq & Hcn & Hcq & Hn & Hq)%Ring_pair_inv Hu Hr Hlk Hlq Ho Hco Hmo Ha Hli.
  simpl in Ho. rewrite !not_elem_of_cons in Ho. destruct Ho as (Hon & Hoq & _).
  apply n_lk_unlocked in Hlk, Hlq. rewrite Hlk in Hn. rewrite Hlq in Hq.
  eexists. split_and!.
  - unfold moveTo. do 4 kstep ring_side. cbn [negb]. do 2 kstep ring_side.
    unfold isRevoking. cbn [_cap _prev _next with_next].
    rewrite Link_pack_flags, n_flags_revoking, Hr, Hu by (done || apply n_flags_range || lia).
    cbn [negb orb]. links. repeat kstep ring_side. reflexivity.
  - apply (Ring_many _ (fresh other (n_cap n)) [] q); try done; simpl; try node_lookup.
    + set_solver.
    + apply NoDup_nil_2.
  - node_lookup.
  - intros a Hna. simpl in Hna. rewrite !not_elem_of_cons in Hna.
    destruct Hna as (? & ? & ? & _). by lks.
Qed.

Lemma moveTo_many m s n q mid p other t :
  Ring m (n :: q :: mid ++ [p]) → isUsable (n_cap n) = true → n_revoking n = false →
  n_locked n = false → n_locked p = false →
  other ∉ addrs (n :: q :: mid ++ [p]) → capPointer other = true →
  m !! other = Some t → isAllocated (_cap t) = true → isLinked t = false →
  ∃ m', moveTo (n_addr n) other (set_entries m s) = Done (OK tt) (set_entries m' s) ∧
        Ring m' (fresh other (n_cap n) :: q :: mid ++ [p]) ∧
        m' !! n_addr n = Some (mkEntry asEmpty 0 0) ∧
        ∀ a, a ∉ other :: addrs (n :: q :: mid ++ [p]) → m' !! a = m !! a.
Proof.
  intros (Hnq & Hnp & Hqp & Hm & Hnd & Hcn & Hcq & Hcp & Hcm & Hn & Hq & Hmid & Hp)%Ring_many_inv
    Hu Hr Hlk Hlp Ho Hco Hmo Ha Hli.
  unfold addrs in *. rewrite !fmap_cons, fmap_app in *.
  assert (other ≠ n_addr n ∧ other ≠ n_addr q ∧ other ≠ n_addr p ∧ other ∉ n_addr <$> mid)
    as (Hon & Hoq & Hop & Hom) by set_solver.
  apply n_lk_unlocked in Hlk, Hlp. rewrite Hlk in Hn. rewrite Hlp in Hp.
  eexists. split_and!.
  - unfold moveTo. do 4 kstep ring_side. cbn [negb]. do 2 kstep ring_side.
    unfold isRevoking. cbn [_cap _prev _next with_next].
    rewrite Link_pack_flags, n_flags_revoking, Hr, Hu by (done || apply n_flags_range || lia).
    cbn [negb orb]. links. repeat kstep ring_side. reflexivity.
  - apply (Ring_many _ (fresh other (n_cap n)) (q :: mid) p); try done; simpl; try node_lookup.
    + intros a Hin. set_solver.
    + apply NoDup_cons. split; [|done]. set_solver.
    + by constructor.
    + split; [node_lookup|]. eapply seg_frame; [|done].
      intros a Hin. pose proof (Hm a Hin) as (? & ? & ?). by rewrite !lookup_insert_ne by set_solver.
    + rewrite final_cons. node_lookup.
  - node_lookup.
  - intros a Hna. by rewrite !lookup_insert_ne by set_solver.
Qed.

End insert.

(** ** Refinement theorems *)

Definition unlocked (l : list node) : Prop := Forall (λ n, n_locked n = false) l.

Lemma Ring_rotate_iff m l1 l2 : Ring m (l1 ++ l2) ↔ Ring m (l2 ++ l1).
Proof. split; apply Ring_rotate. Qed.

Lemma addrs_rotate a n l1 l2 : a ∈ addrs (n :: l2 ++ l1) ↔ a ∈ addrs (l1 ++ n :: l2).
Proof. unfold addrs. rewrite fmap_cons, !fmap_app, fmap_cons. set_solver. Qed.

Lemma Ring_head m l1 n l2 : Ring m (l1 ++ n :: l2) ↔ Ring m (n :: l2 ++ l1).
Proof. by rewrite Ring_rotate_iff. Qed.

Lemma capPointer_kernel a : capPointer a = true → isKernelAddress a = true.
Proof. unfold capPointer. intros. by bool_hyps. Qed.

(** Every entry of a ring lies between two addresses of the ring. *)
Lemma Ring_node m l1 n l2 :
  Ring m (l1 ++ n :: l2) →
  ∃ p q, capPointer (n_addr n) = true ∧ capPointer p = true ∧ capPointer q = true ∧
         m !! n_addr n = Some (entry_of n p q).
Proof.
  intros (_ & Hcp & Hn & _)%Ring_head%Ring_cons_inv. eexists _, _. split_and!; [..|done].
  - by apply Forall_cons in Hcp as [? _].
  - rewrite Forall_forall in Hcp. apply Hcp. unfold final.
    destruct (last (l2 ++ l1)) as [x|] eqn:Hx; [|by left].
    right. apply list_elem_of_fmap. exists x. split; [done|]. by apply last_Some_elem_of.
  - rewrite Forall_forall in Hcp. apply Hcp. destruct (l2 ++ l1); [by left|]. right. by left.
Qed.

Lemma list_ends {A} (l : list A) :
  l ≠ [] → ∃ x, l = [x] ∨ ∃ mid y, l = x :: mid ++ [y].
Proof.
  destruct l as [|x l]; [done|]. intros _. exists x.
  destruct l as [|y mid _] using rev_ind; [by left|]. right. by eexists _, _.
Qed.

Section refinement.
Context {S : Type} `{HasEntries S}.
Implicit Types (m : gmap Z CapEntry) (s : S).

(** C3: [insertAfter] with the capability the parent still holds inserts the
    target directly behind the parent in the cyclic resource list, at every
    position of the list: the rest of the list keeps its order, its
    capabilities and its flags, the parent is unlocked again, the target holds
    the new capability, and no entry outside the list changes. *)
Theorem insertAfter_refines m s s' l1 n l2 target t targetCap commitfun :
  Ring m (l1 ++ n :: l2) → isUsable (n_cap n) = true → n_locked n = false →
  target ∉ addrs (l1 ++ n :: l2) → capPointer target = true →
  m !! target = Some t → isAllocated (_cap t) = true →
  (∀ m1, commitfun (set_entries m1 s) = Done tt (set_entries m1 s')) →
  ∃ m', insertAfter (n_addr n) (n_cap n) target targetCap commitfun (set_entries m s) =
          Done (OK tt) (set_entries m' s') ∧
        Ring m' (l1 ++ n :: fresh target targetCap :: l2) ∧
        ∀ a, a ≠ target → a ∉ addrs (l1 ++ n :: l2) → m' !! a = m !! a.
Proof.
  intros HR Hu Hl Ht Hct Hmt Ha Hcf. rewrite <-addrs_rotate in Ht.
  destruct (insertAfter_ring m s s' n (l2 ++ l1) target t targetCap commitfun)
    as (m' & Hrun & HR' & Hf); [by apply Ring_head|done..|].
  exists m'. split_and!; [done|by apply Ring_head|].
  intros a Hat Hal. apply Hf. rewrite not_elem_of_cons, addrs_rotate. done.
Qed.

(** [insertAfter] on a parent whose capability was changed or killed in the
    meantime reports [LOST_RACE], runs no commit function, leaves every entry
    of the store as it was (the parent unlocked) and makes the acquired target
    empty again. *)
Theorem insertAfter_lost_race m s l1 n l2 target t parentCap targetCap commitfun :
  Ring m (l1 ++ n :: l2) → n_locked n = false →
  isUsable (n_cap n) = false ∨ n_cap n ≠ parentCap →
  target ∉ addrs (l1 ++ n :: l2) → m !! target = Some t → isAllocated (_cap t) = true →
  insertAfter (n_addr n) parentCap target targetCap commitfun (set_entries m s) =
    Done (THROW LOST_RACE) (set_entries (<[target := mkEntry asEmpty 0 0]> m) s).
Proof.
  intros HR Hl Hc Ht Hmt Ha. destruct (Ring_node _ _ _ _ HR) as (p & q & Hcn & Hcp & Hcq & Hn).
  assert (target ≠ n_addr n) as Htn by (intros ->; apply Ht; unfold addrs; set_solver).
  assert (isKernelAddress (n_addr n) = true) as Hk by by apply capPointer_kernel.
  apply n_lk_unlocked in Hl. unfold entry_of in Hn. rewrite Hl in Hn.
  unfold insertAfter. do 5 kstep ring_side. cbn [_cap with_next].
  replace (negb (isUsable (n_cap n)) || negb (n_cap n =? parentCap)) with true.
  2: { destruct Hc as [->|Hc%Z.eqb_neq]; [done|]. rewrite Hc. by rewrite orb_true_r. }
  do 2 kstep ring_side. unfold kret. do 2 f_equal.
  rewrite insert_insert_eq, (insert_id m (n_addr n)); [done|]. rewrite Hn. cbn. by links.
Qed.

Lemma moveTo_ring m s n l other t :
  Ring m (n :: l) → l ≠ [] → n_locked n = false → unlocked l →
  isUsable (n_cap n) = true → n_revoking n = false →
  other ∉ addrs (n :: l) → capPointer other = true →
  m !! other = Some t → isAllocated (_cap t) = true → isLinked t = false →
  ∃ m', moveTo (n_addr n) other (set_entries m s) = Done (OK tt) (set_entries m' s) ∧
        Ring m' (fresh other (n_cap n) :: l) ∧
        m' !! n_addr n = Some (mkEntry asEmpty 0 0) ∧
        ∀ a, a ∉ other :: addrs (n :: l) → m' !! a = m !! a.
Proof.
  unfold unlocked. intros HR (q & [->|(mid & p & ->)])%list_ends Hlk Hul Hu Hr ?????.
  - rewrite Forall_singleton in Hul. by eapply moveTo_pair.
  - rewrite Forall_cons, Forall_app, Forall_singleton in Hul. destruct Hul as (? & ? & ?).
    by eapply moveTo_many.
Qed.

(** C8: [moveTo] of a usable, unpinned entry lets the acquired target take its
    place in the cyclic list: the target holds the capability, both neighbours
    keep their flags and are unlocked, the moved entry is empty and unlinked,
    and no entry outside the list changes. *)
Theorem moveTo_refines m s l1 n l2 other t :
  Ring m (l1 ++ n :: l2) → l1 ++ l2 ≠ [] → unlocked (l1 ++ n :: l2) →
  isUsable (n_cap n) = true → n_revoking n = false →
  other ∉ addrs (l1 ++ n :: l2) → capPointer other = true →
  m !! other = Some t → isAllocated (_cap t) = true → isLinked t = false →
  ∃ m', moveTo (n_addr n) other (set_entries m s) = Done (OK tt) (set_entries m' s) ∧
        Ring m' (l1 ++ fresh other (n_cap n) :: l2) ∧
        m' !! n_addr n = Some (mkEntry asEmpty 0 0) ∧
        ∀ a, a ≠ other → a ∉ addrs (l1 ++ n :: l2) → m' !! a = m !! a.
Proof.
  intros HR Hne Hul Hu Hr Ho Hco Hmo Ha Hli. rewrite <-addrs_rotate in Ho.
  apply Ring_head in HR. assert (n_locked n = false ∧ unlocked (l2 ++ l1)) as [Hlk Hul'].
  { unfold unlocked in *. rewrite !Forall_app, !Forall_cons in *. naive_solver. }
  destruct (moveTo_ring m s n (l2 ++ l1) other t) as (m' & Hrun & HR' & Hn & Hf); try done.
  { by intros [-> ->]%app_eq_nil. }
  exists m'. split_and!; [done|by apply Ring_head|done|].
  intros a Hao Hal. apply Hf. rewrite not_elem_of_cons, addrs_rotate. done.
Qed.

(** The refusal of [moveTo], from the entries of the moved node and of its
    predecessor. *)
Lemma moveTo_refused_at m s n p q cp other t :
  m !! n_addr n = Some (mkEntry (n_cap n) (Link_pack p (n_flags n)) (Link_pack q 0)) →
  m !! p = Some cp → _next cp = Link_pack (n_addr n) 0 →
  p ≠ n_addr n → other ≠ n_addr n → other ≠ p →
  capPointer (n_addr n) = true → capPointer p = true → capPointer q = true →
  n_revoking n || negb (isUsable (n_cap n)) = true →
  m !! other = Some t → isAllocated (_cap t) = true → isLinked t = false →
  moveTo (n_addr n) other (set_entries m s) =
    Done (THROW INVALID_CAPABILITY) (set_entries (<[other := mkEntry asEmpty 0 0]> m) s).
Proof.
  intros Hn Hp Hnx Hpn Hon Hop Hcn Hcp Hcq Hr Hmo Ha Hli.
  destruct cp as [pc pp pn]. simpl in Hnx. subst pn.
  unfold moveTo. do 4 kstep ring_side. cbn [negb]. do 2 kstep ring_side.
  unfold isRevoking. cbn [_cap _prev _next with_next].
  rewrite Link_pack_flags, n_flags_revoking, Hr by (done || apply n_flags_range || lia).
  do 3 kstep ring_side. unfold kret. do 2 f_equal.
  apply map_eq. intros a. cbn [_cap _prev _next with_next]. links.
  destruct (decide (a = p)) as [->|]; [by lks|].
  destruct (decide (a = n_addr n)) as [->|]; [by lks|].
  destruct (decide (a = other)) as [->|]; by lks.
Qed.

(** [moveTo] of an entry that a revocation has pinned, or that is no longer
    usable, reports [INVALID_CAPABILITY]; both locks are released, every entry
    of the store keeps its contents and the acquired target is empty again. *)
Theorem moveTo_refused m s l1 n l2 other t :
  Ring m (l1 ++ n :: l2) → l1 ++ l2 ≠ [] → unlocked (l1 ++ n :: l2) →
  n_revoking n || negb (isUsable (n_cap n)) = true →
  other ∉ addrs (l1 ++ n :: l2) →
  m !! other = Some t → isAllocated (_cap t) = true → isLinked t = false →
  moveTo (n_addr n) other (set_entries m s) =
    Done (THROW INVALID_CAPABILITY) (set_entries (<[other := mkEntry asEmpty 0 0]> m) s).
Proof.
  intros HR Hne Hul Hr Ho Hmo Ha Hli. rewrite <-addrs_rotate in Ho.
  apply Ring_head in HR. assert (n_lk n = 0 ∧ unlocked (l2 ++ l1)) as [Hlk Hul'].
  { unfold unlocked in *. rewrite !Forall_app, !Forall_cons in *.
    split; [apply n_lk_unlocked|]; naive_solver. }
  assert (l2 ++ l1 ≠ []) as (q & [Hq|(mid & p & Hq)])%list_ends by (by intros [-> ->]%app_eq_nil).
  all: rewrite Hq in *; unfold unlocked, addrs in *.
  - rewrite Forall_singleton in Hul'. apply n_lk_unlocked in Hul'.
    apply Ring_pair_inv in HR as (Hnq & Hcn & Hcq & Hn & Hqe). rewrite Hlk in Hn. rewrite Hul' in Hqe.
    eapply moveTo_refused_at; try done; set_solver.
  - rewrite Forall_cons, Forall_app, Forall_singleton in Hul'. destruct Hul' as (_ & _ & Hul').
    apply n_lk_unlocked in Hul'. rewrite !fmap_cons, fmap_app in Ho.
    apply Ring_many_inv in HR as (? & ? & ? & _ & _ & ? & ? & ? & _ & Hn & _ & _ & Hp).
    rewrite Hlk in Hn. rewrite Hul' in Hp. eapply moveTo_refused_at; try done; set_solver.
Qed.

End refinement.

(** ** Witnesses *)

Definition wa (i : Z) : Z := KERNELMEM_ADDR + 0x1000 + 0x10 * i.
Definition wcap : Z := mkCap (KERNELMEM_ADDR + 0x2000) 0 NOFLAG.
Definition wring : list node := [fresh (wa 0) wcap; fresh (wa 1) wcap; fresh (wa 2) wcap].
Definition wstore : gmap Z CapEntry := <[wa 3 := mkEntry asAllocated 0 0]> (store_of wring).

Lemma insertAfter_refines_witness :
  ∃ m', insertAfter (wa 0) wcap (wa 3) wcap (kret tt) (set_entries wstore wstore) =
          Done (OK tt) (set_entries m' wstore) ∧
        Ring m' [fresh (wa 0) wcap; fresh (wa 3) wcap; fresh (wa 1) wcap; fresh (wa 2) wcap].
Proof.
  destruct (insertAfter_refines wstore wstore wstore [] (fresh (wa 0) wcap)
    [fresh (wa 1) wcap; fresh (wa 2) wcap] (wa 3) (mkEntry asAllocated 0 0) wcap (kret tt))
    as (m' & Hrun & HR & _); first [computes | intros; reflexivity | idtac].
  exists m'. exact (conj Hrun HR).
Defined.

Lemma insertAfter_lost_race_witness :
  insertAfter (wa 0) 0 (wa 3) wcap (kret tt) (set_entries wstore wstore) =
    Done (THROW LOST_RACE) (set_entries (<[wa 3 := mkEntry asEmpty 0 0]> wstore) wstore).
Proof.
  apply (insertAfter_lost_race wstore wstore [] (fresh (wa 0) wcap)
    [fresh (wa 1) wcap; fresh (wa 2) wcap] (wa 3) (mkEntry asAllocated 0 0)); first [computes | intros; reflexivity | idtac].
Defined.

Lemma moveTo_refines_witness :
  ∃ m', moveTo (wa 1) (wa 3) (set_entries wstore wstore) = Done (OK tt) (set_entries m' wstore) ∧
        Ring m' [fresh (wa 0) wcap; fresh (wa 3) wcap; fresh (wa 2) wcap].
Proof.
  destruct (moveTo_refines wstore wstore [fresh (wa 0) wcap] (fresh (wa 1) wcap)
    [fresh (wa 2) wcap] (wa 3) (mkEntry asAllocated 0 0))
    as (m' & Hrun & HR & _); first [computes | intros; reflexivity | idtac].
  exists m'. exact (conj Hrun HR).
Defined.

Definition wpinned : node := mkNode (wa 1) wcap true false false.
Definition wpinned_store : gmap Z CapEntry :=
  <[wa 3 := mkEntry asAllocated 0 0]> (store_of [fresh (wa 0) wcap; wpinned; fresh (wa 2) wcap]).

Lemma moveTo_refused_witness :
  moveTo (wa 1) (wa 3) (set_entries wpinned_store wpinned_store) =
    Done (THROW INVALID_CAPABILITY)
      (set_entries (<[wa 3 := mkEntry asEmpty 0 0]> wpinned_store) wpinned_store).
Proof.
  apply (moveTo_refused wpinned_store wpinned_store [fresh (wa 0) wcap] wpinned
    [fresh (wa 2) wcap] (wa 3) (mkEntry asAllocated 0 0)); first [computes | intros; reflexivity | idtac].
Defined.
