(* ===== verification/CapSteps.v ===== *)
(** * Single steps on resource lists

    How the elementary operations of [CapEntry] (locks, flags, kill, unlink)
    act on the cyclic list of objects/capability-spinning: each changes one
    node in place, except [unlink], which removes a node.  The operations of
    CapOps.v and Revoke.v are sequences of these steps. *)

From stdpp Require Import base tactics numbers list gmap.
From Stdlib Require Import ZArith Lia.
From S2P Require Import Prelude Bitfield Cap CapEntry CapRing.

Local Open Scope Z_scope.
Import PhysPtr.

(** Changes of a node in place. *)
Definition lockn (n : node) : node :=
  mkNode (n_addr n) (n_cap n) (n_revoking n) (n_deleted n) true.
Definition zombien (n : node) : node :=
  mkNode (n_addr n) (if isUsable (n_cap n) then asZombie (n_cap n) else n_cap n)
    (n_revoking n) (n_deleted n) (n_locked n).
Definition revokingn (b : bool) (n : node) : node :=
  mkNode (n_addr n) (n_cap n) b (n_deleted n) (n_locked n).

(** A ring gives access to the entry of each node, and stays a ring when the
    entry is replaced by that of another node at the same address. *)
Lemma Ring_access m l1 n l2 :
  Ring m (l1 ++ n :: l2) →
  ∃ p q, capPointer (n_addr n) = true ∧ capPointer p = true ∧ capPointer q = true ∧
         p = final (n_addr n) (l2 ++ l1) ∧ q = first (n_addr n) (l2 ++ l1) ∧
         m !! n_addr n = Some (entry_of n p q) ∧
         ∀ n', n_addr n' = n_addr n →
           Ring (<[n_addr n := entry_of n' p q]> m) (l1 ++ n' :: l2).
Proof.
  intros HR. destruct (Ring_node _ _ _ _ HR) as (p & q & Hcn & Hcp & Hcq & Hn).
  apply Ring_head, Ring_cons_inv in HR as (Hnd & Hc & Hn' & Hseg).
  exists (final (n_addr n) (l2 ++ l1)), (first (n_addr n) (l2 ++ l1)). split_and!; try done.
  - unfold final. destruct (last (l2 ++ l1)) as [x|] eqn:Hx; [|done].
    rewrite Forall_forall in Hc. apply Hc. right. apply list_elem_of_fmap.
    exists x. split; [done|]. by apply last_Some_elem_of.
  - rewrite Forall_forall in Hc. destruct (l2 ++ l1); [done|]. apply Hc. right. by left.
  - intros n' Ha. apply Ring_head, Ring_cons_inv. rewrite Ha. split_and!; try done.
    + apply lookup_insert_eq.
    + apply NoDup_cons in Hnd as [Hnl _]. eapply seg_frame; [|done].
      intros a Hal. apply lookup_insert_ne. intros <-. done.
Qed.

Section steps.
Context {S : Type} `{HasEntries S}.
Implicit Types (m : gmap Z CapEntry) (s : S).

(** The stores agree outside the address [a]. *)
Definition only_at (a : Z) (m m' : gmap Z CapEntry) : Prop := ∀ b, b ≠ a → m' !! b = m !! b.

Lemma lock_step m s l1 n l2 :
  Ring m (l1 ++ n :: l2) → n_locked n = false →
  ∃ m', lock (n_addr n) (set_entries m s) = Done tt (set_entries m' s) ∧
        Ring m' (l1 ++ lockn n :: l2) ∧ only_at (n_addr n) m m'.
Proof.
  intros (p & q & Hcn & Hcp & Hcq & _ & _ & Hn & Hup)%Ring_access Hl.
  specialize (Hup (lockn n) eq_refl). eexists. split_and!; [|exact Hup|intros b ?; by lks].
  unfold entry_of in Hn. rewrite (n_lk_unlocked n) in Hn by done.
  erewrite lock_run; [|exact Hn|ring_side]. do 3 f_equal.
  unfold entry_of. cbn. by links.
Qed.

Lemma unlock_step m s l1 n l2 :
  Ring m (l1 ++ n :: l2) → n_locked n = true →
  ∃ m', unlock (n_addr n) (set_entries m s) = Done tt (set_entries m' s) ∧
        Ring m' (l1 ++ unlockn n :: l2) ∧ only_at (n_addr n) m m'.
Proof.
  intros (p & q & Hcn & Hcp & Hcq & _ & _ & Hn & Hup)%Ring_access Hl.
  specialize (Hup (unlockn n) eq_refl). eexists. split_and!; [|exact Hup|intros b ?; by lks].
  unfold entry_of in Hn. rewrite (n_lk_locked n) in Hn by done.
  erewrite unlock_run; [|exact Hn|ring_side]. do 3 f_equal.
  unfold entry_of. cbn. by links.
Qed.

Lemma kill_step m s l1 n l2 :
  Ring m (l1 ++ n :: l2) → isUsable (n_cap n) = true ∨ isZombie (n_cap n) = true →
  ∃ m', kill (n_addr n) (set_entries m s) = Done true (set_entries m' s) ∧
        Ring m' (l1 ++ zombien n :: l2) ∧ only_at (n_addr n) m m'.
Proof.
  intros (p & q & Hcn & Hcp & Hcq & _ & _ & Hn & Hup)%Ring_access Hu.
  specialize (Hup (zombien n) eq_refl). destruct (isUsable (n_cap n)) eqn:Hus.
  - eexists. split_and!; [|exact Hup|intros b ?; by lks].
    erewrite kill_run; [|exact Hn|done]. unfold zombien, entry_of. cbn. by rewrite Hus.
  - destruct Hu as [?|Hz]; [done|]. exists m. split_and!; [| |done].
    + erewrite kill_noop; [|exact Hn|done]. cbn. by rewrite Hz.
    + rewrite insert_id in Hup; [done|]. rewrite Hn. unfold zombien, entry_of. cbn. by rewrite Hus.
Qed.

(** Locking and unlocking the predecessor of the head. *)
Lemma lock_prev_step m s n l p :
  Ring m (n :: l ++ [p]) → n_locked p = false →
  ∃ m', lock_prev (n_addr n) (set_entries m s) = Done true (set_entries m' s) ∧
        Ring m' (n :: l ++ [lockn p]) ∧ only_at (n_addr p) m m'.
Proof.
  intros HR Hl.
  pose proof (Ring_access m [] n (l ++ [p]) HR) as (p' & q & Hcn & Hcp' & Hcq & Hp' & _ & Hn & _).
  rewrite app_nil_r, final_app in Hp'. cbn in Hp'. subst p'.
  destruct (Ring_access m (n :: l) p [] HR) as (pp & pq & Hcp & Hcpp & Hcpq & _ & _ & Hp & Hup).
  specialize (Hup (lockn p) eq_refl). eexists. split_and!; [|exact Hup|intros b ?; by lks].
  unfold entry_of in Hp. rewrite (n_lk_unlocked p) in Hp by done.
  erewrite lock_prev_run; [|exact Hn|prev_side|by apply capPointer_ne0|exact Hp|ring_side].
  do 3 f_equal. unfold entry_of. cbn. by links.
Qed.

Lemma unlock_prev_step m s n l p :
  Ring m (n :: l ++ [p]) → n_locked p = true →
  ∃ m', unlock_prev (n_addr n) (set_entries m s) = Done tt (set_entries m' s) ∧
        Ring m' (n :: l ++ [unlockn p]) ∧ only_at (n_addr p) m m'.
Proof.
  intros HR Hl.
  pose proof (Ring_access m [] n (l ++ [p]) HR) as (p' & q & Hcn & Hcp' & Hcq & Hp' & _ & Hn & _).
  rewrite app_nil_r, final_app in Hp'. cbn in Hp'. subst p'.
  destruct (Ring_access m (n :: l) p [] HR) as (pp & pq & Hcp & Hcpp & Hcpq & _ & _ & Hp & Hup).
  specialize (Hup (unlockn p) eq_refl). eexists. split_and!; [|exact Hup|intros b ?; by lks].
  unfold entry_of in Hp. rewrite (n_lk_locked p) in Hp by done.
  erewrite unlock_prev_run; [|exact Hn|prev_side|by apply capPointer_ne0|exact Hp|ring_side].
  do 3 f_equal. unfold entry_of. cbn. by links.
Qed.

(** The neighbours after the removal of the head: the first node loses the
    flags of its [_prev] word, the last node its lock. *)
Definition dropped (l : list node) : list node :=
  match l with
  | [] => []
  | q :: l' => match reverse l' with
               | [] => [unlockn (clearf q)]
               | p :: mid => clearf q :: reverse mid ++ [unlockn p]
               end
  end.

Lemma unlink_step m s n l :
  Ring m (n :: l) → l ≠ [] →
  ∃ m', unlink (n_addr n) (set_entries m s) = Done (OK tt) (set_entries m' s) ∧
        Ring m' (dropped l) ∧ m' !! n_addr n = Some (mkEntry (n_cap n) 0 0) ∧
        ∀ a, a ∉ addrs (n :: l) → m' !! a = m !! a.
Proof.
  intros HR (q & [->|(mid & p & ->)])%list_ends.
  - by apply unlink_pair.
  - simpl dropped. rewrite reverse_snoc, reverse_involutive. by apply unlink_many.
Qed.

Lemma pack_finishRevoke p n :
  capPointer p = true →
  Z.land (Link_pack p (n_flags n)) (Z.lnot REVOKING_FLAG) =
    Link_pack p (n_flags (revokingn false n)).
Proof.
  intros Hp. assert (∀ f, 0 ≤ f < 8 → Link_pack p f = Z.lor (Link_pack p 0) f) as Hl.
  { intros f _. unfold Link_pack. by rewrite Z.lor_0_r. }
  rewrite (Hl (n_flags n)), (Hl (n_flags (revokingn false n))) by apply n_flags_range.
  rewrite Z.land_lor_distr_l. apply (f_equal2 Z.lor).
  - apply Z.bits_inj'. intros i Hi. rewrite Z.land_spec, Z.lnot_spec by lia.
    change REVOKING_FLAG with (2 ^ 1). rewrite Z.pow2_bits_eqb by lia.
    destruct (Z.eqb_spec 1 i) as [<-|]; [|by rewrite andb_true_r].
    by rewrite Link_pack_flags by (done || lia).
  - unfold n_flags, revokingn. cbn. by destruct (n_revoking n), (n_deleted n).
Qed.

Lemma finishRevoke_step m s l1 n l2 :
  Ring m (l1 ++ n :: l2) →
  ∃ m', finishRevoke (n_addr n) (set_entries m s) = Done tt (set_entries m' s) ∧
        Ring m' (l1 ++ revokingn false n :: l2) ∧ only_at (n_addr n) m m'.
Proof.
  intros (p & q & Hcn & Hcp & Hcq & _ & _ & Hn & Hup)%Ring_access.
  specialize (Hup (revokingn false n) eq_refl). eexists. split_and!; [|exact Hup|intros b ?; by lks].
  unfold finishRevoke. rewrite (kbind_run _ _ _ _ _ (rd_run _ s _ _ Hn)).
  erewrite wr_run by exact Hn. unfold entry_of, with_prev. cbn [_cap _prev _next].
  by rewrite pack_finishRevoke.
Qed.

End steps.
