(* ===== verification/CapOps.v ===== *)
(** * Operations on the resource tree

    Models objects/capability-utils/objects/ops.hh, ops.cc, CapRef.hh and
    CapRef.cc: the parent test that reconstructs the inheritance tree from the
    resource list, inheritance, derivation and references, and the capability
    references kernel objects keep of each other.

    The virtual functions of [IKernelObject] are the class [KernelObjects],
    those of [CapRefBase] the class [RefSubjects]: each takes the address of
    the object it is called on. *)

From stdpp Require Import base tactics numbers list gmap.
From Stdlib Require Import ZArith Lia.
From S2P Require Import Prelude Ranges Bitfield Cap CapEntry CapRing CapSteps.

Local Open Scope Z_scope.
Import PhysPtr Intervals.

(** [IKernelObject], objects/common/objects/IKernelObject.hh:62-105 *)
Class KernelObjects (S : Type) := {
  addressRange : Z → Z → Z → kernel S Range;
  mint : Z → Z → Z → Z → bool → kernel S (optional Z);
  deleteCap : Z → Z → Z → kernel S (optional unit)
}.

(** [IKernelObject::addressRange], objects/common/objects/IKernelObject.hh:136-138 *)
Definition default_addressRange {S} (this entry self : Z) : kernel S Range :=
  kassert (isKernelAddress this);;;
  kret (bySize (fromKernel this) 1).

(** [IKernelObject::mint], objects/common/objects/IKernelObject.hh:140-142 *)
Definition default_mint {S} (this entry self request : Z) (derive : bool)
    : kernel S (optional Z) := kret (OK self).

(** [implies], util/assert/util/assert.hh:30-33 *)
Definition implies (a b : bool) : bool := negb a || b.

Section ops.
Context {S : Type} `{HasEntries S} `{KernelObjects S}.

(** [cap::isParentOf], objects/capability-utils/objects/ops.cc:36-54 *)
Definition isParentOf (parentEntry parent otherEntry other : Z) : kernel S bool :=
  kassert (negb (getPtr parent =? 0));;;
  kassert (negb (getPtr other =? 0));;;
  parentRange <-- addressRange (getPtr parent) parentEntry parent;;
  otherRange <-- addressRange (getPtr other) otherEntry other;;
  if negb (contains parentRange otherRange) then kret false
  else if negb (contains otherRange parentRange) then kret (negb (isReference parent))
  else
    kassert (range_eqb parentRange otherRange);;;
    if isReference parent then kret false
    else if isDerived parent then kret (isDerivedReference other)
    else
      kassert (isOriginal parent);;;
      kassert (negb (isDerivedReference other));;;
      kret true.

(** The commit function that [cap::inherit] passes to [insertAfter]; both
    arguments of [implies] are evaluated,
    objects/capability-utils/objects/ops.hh:93-104 *)
Definition inherit_commit (parentEntry parentCap targetEntry targetCap : Z)
    (commitfun : kernel S unit) : kernel S unit :=
  commitfun;;;
  p <-- isParentOf parentEntry parentCap targetEntry targetCap;;
  b <-- (if p then kret false
         else q <-- isParentOf targetEntry targetCap parentEntry parentCap;; kret (negb q));;
  kassert (implies (isReference parentCap) b);;;
  p' <-- isParentOf parentEntry parentCap targetEntry targetCap;;
  kassert (implies (negb (isReference parentCap)) p').

(** [cap::inherit], objects/capability-utils/objects/ops.hh:86-106 *)
Definition inherit (parentEntry parentCap targetEntry targetCap : Z) (commitfun : kernel S unit)
    : kernel S (optional unit) :=
  insertAfter parentEntry parentCap targetEntry targetCap
    (inherit_commit parentEntry parentCap targetEntry targetCap commitfun).

(** [cap::derive], objects/capability-utils/objects/ops.cc:56-63 *)
Definition derive (parentEntry targetEntry parentCap request : Z) : kernel S (optional unit) :=
  if negb (isUsable parentCap) || isDerived parentCap then kret (THROW INVALID_CAPABILITY)
  else
    minted <-- mint (getPtr parentCap) parentEntry parentCap request true;;
    match minted with
    | THROW e => kret (THROW e)
    | OK c =>
      a <-- acquire targetEntry;;
      if isOK a then
        inherit parentEntry parentCap targetEntry (asDerived (stripReference c)) (kret tt)
      else kret (THROW LOST_RACE)
    end.

(** [cap::reference], objects/capability-utils/objects/ops.cc:65-72 *)
Definition reference (parentEntry targetEntry parentCap request : Z) : kernel S (optional unit) :=
  if negb (isUsable parentCap) then kret (THROW INVALID_CAPABILITY)
  else
    minted <-- mint (getPtr parentCap) parentEntry parentCap request false;;
    match minted with
    | THROW e => kret (THROW e)
    | OK c =>
      a <-- acquire targetEntry;;
      if isOK a then inherit parentEntry parentCap targetEntry (asReference c) (kret tt)
      else kret (THROW LOST_RACE)
    end.

(** [cap::setReference], objects/capability-utils/objects/ops.hh:63-69 *)
Definition setReference (dst dstCap src srcCap : Z) (fn : kernel S unit)
    : kernel S (optional unit) :=
  kassert (isReference dstCap);;;
  a <-- acquire dst;;
  if isOK a then inherit src srcCap dst dstCap fn else kret (THROW LOST_RACE).

(** [cap::resetReference], objects/capability-utils/objects/ops.hh:71-82 *)
Definition resetReference (dst : Z) (fn : kernel S unit) : kernel S bool :=
  k <-- kill dst;;
  if negb k then kret false
  else
    l <-- lock_prev dst;;
    if negb l then kret true
    else
      lock dst;;;
      kill dst;;;
      unlink dst;;;
      fn;;;
      reset dst;;;
      kret true.

End ops.

(** ** Capability references

    A [CapRef] is a kernel object that holds one entry and the word [orig]; its
    address identifies it. *)

Class HasRefs (S : Type) `{HasEntries S} := {
  refEntry : Z → Z;
  orig : S → Z → Z;
  set_orig : Z → Z → S → S;
  orig_set r v s : orig (set_orig r v s) r = v;
  orig_set_ne r r' v s : r ≠ r' → orig (set_orig r v s) r' = orig s r';
  set_orig_entries r v m s : set_orig r v (set_entries m s) = set_entries m (set_orig r v s)
}.

Class RefSubjects (S : Type) := {
  binding : Z → Z → Z → kernel S unit;
  unbinding : Z → Z → Z → kernel S unit
}.

Section capref.
Context {S : Type} `{HasEntries S} `{KernelObjects S} `{!HasRefs S} `{RefSubjects S}.

(** [CapRefBase::cap], objects/capability-utils/objects/CapRef.hh:56 *)
Definition CapRef_cap (this : Z) : kernel S Z := s <-- kget;; kret (orig s this).

(** [CapRefBase::isUsable], objects/capability-utils/objects/CapRef.hh:54 *)
Definition CapRef_isUsable (this : Z) : kernel S bool :=
  c <-- CapRef_cap this;; kret (isUsable c).

(** [CapRefBase::reset], objects/capability-utils/objects/CapRef.cc:50-58 *)
Definition CapRef_reset (this : Z) : kernel S unit :=
  resetReference (refEntry this)
    (c <-- cap (refEntry this);;
     s <-- kget;;
     unbinding this (offset2kernel (f_data c)) (orig s this);;;
     kmodify (set_orig this asEmpty));;;
  kret tt.

(** [Cap::asReference] with pointer and data, objects/common/objects/Cap.hh:99-101 *)
Definition asReferenceTo (c ptr data : Z) : Z := withData (withPtr (asReference c) ptr) data.

(** [CapRefBase::set], objects/capability-utils/objects/CapRef.cc:37-48 *)
Definition CapRef_set (this subject src srcCap : Z) : kernel S (optional unit) :=
  CapRef_reset this;;;
  kassert (isKernelAddress subject);;;
  setReference (refEntry this) (asReferenceTo srcCap this (kernel2offset subject)) src srcCap
    (kmodify (set_orig this (asReference srcCap));;;
     binding this subject (asReference srcCap)).

(** [CapRefBase::addressRange], objects/capability-utils/objects/CapRef.cc:60-64 *)
Definition CapRef_addressRange (this entry self : Z) : kernel S Range :=
  obj <-- CapRef_cap this;;
  kassert (isUsable obj);;;
  addressRange (getPtr obj) entry obj.

(** [CapRefBase::deleteCap], objects/capability-utils/objects/CapRef.cc:66-73 *)
Definition CapRef_deleteCap (this entry self : Z) : kernel S (optional unit) :=
  s <-- kget;;
  unbinding this (offset2kernel (f_data self)) (orig s this);;;
  kmodify (set_orig this asEmpty);;;
  kret (OK tt).

(** [CapRef::get] up to the cast, objects/capability-utils/objects/CapRef.hh:111-115 *)
Definition CapRef_get {A} (castObj : Z → optional A) (this : Z) : kernel S (optional A) :=
  obj <-- CapRef_cap this;;
  kret (if isUsable obj then castObj (getPtr obj) else THROW GENERIC_ERROR).

End capref.

(** ** Typed capabilities *)

(** [TypedCap], objects/capability-utils/objects/TypedCap.hh:83-87 *)
Record TypedCap (A : Type) := mkTyped { t_cap : Z; t_obj : option A; t_state : Error }.
Arguments mkTyped {A}. Arguments t_cap {A}. Arguments t_obj {A}. Arguments t_state {A}.

(** [TypedCap::set] of a capability, objects/capability-utils/objects/TypedCap.hh:110-120 *)
Definition TypedCap_set {A} (castObj : Z → optional A) (t : TypedCap A) (c : Z) : TypedCap A :=
  if negb (isUsable c) then mkTyped (t_cap t) (t_obj t) INVALID_CAPABILITY
  else
    match castObj (getPtr c) with
    | THROW e => mkTyped (t_cap t) (t_obj t) e
    | OK o => mkTyped c (Some o) SUCCESS
    end.

(** ** The parent test *)

(** What [isParentOf] decides, on the ranges of the two capabilities. *)
Definition childOf (pr : Range) (p : Z) (or : Range) (o : Z) : bool :=
  contains pr or && negb (isReference p) &&
  (negb (contains or pr) || negb (isDerived p) || isDerivedReference o).

(** The assertion: a derived reference is never next to the original itself. *)
Definition treeOk (pr : Range) (p : Z) (or : Range) (o : Z) : bool :=
  negb (contains pr or && contains or pr && isOriginal p && isDerivedReference o).

Lemma contains_both a b : contains a b = true → contains b a = true → range_eqb a b = true.
Proof. rewrite !contains_spec. unfold range_eqb. intros. apply andb_true_intro. lia. Qed.

Section parent.
Context {S : Type} `{HasEntries S} `{KernelObjects S}.
Implicit Types (s : S).

Lemma isParentOf_ptrs pe p oe o b s s' :
  isParentOf pe p oe o s = Done b s' → getPtr p ≠ 0 ∧ getPtr o ≠ 0.
Proof.
  unfold isParentOf, kbind, kassert.
  destruct (getPtr p =? 0) eqn:Hp; [done|]. destruct (getPtr o =? 0) eqn:Ho; [done|].
  by intros _; split; apply Z.eqb_neq.
Qed.

Lemma isParentOf_run pe p oe o pr or s :
  getPtr p ≠ 0 → getPtr o ≠ 0 →
  addressRange (getPtr p) pe p s = Done pr s → addressRange (getPtr o) oe o s = Done or s →
  isParentOf pe p oe o s = if treeOk pr p or o then Done (childOf pr p or o) s else AssertFail.
Proof.
  intros Hp%Z.eqb_neq Ho%Z.eqb_neq Hpr Hor. unfold isParentOf, kbind, kassert.
  rewrite Hp, Ho. cbn [negb]. rewrite Hpr, Hor. unfold childOf, treeOk, isOriginal.
  destruct (contains pr or) eqn:H1; [|done]. destruct (contains or pr) eqn:H2; cbn.
  - rewrite contains_both by done. by destruct (isReference p), (isDerived p), (isDerivedReference o).
  - unfold kret. by rewrite andb_true_r.
Qed.

End parent.

(** The parent relation is transitive. *)
Lemma childOf_trans ra a rb b rc c :
  childOf ra a rb b = true → childOf rb b rc c = true → childOf ra a rc c = true.
Proof.
  unfold childOf, isDerivedReference. intros [[Hab Ha]%andb_prop Hd]%andb_prop [[Hbc Hb]%andb_prop _]%andb_prop.
  rewrite (contains_trans ra rb rc) by done. rewrite Ha. cbn.
  destruct (contains rc ra) eqn:Hca; [|done]. cbn.
  rewrite (contains_trans rb rc ra) in Hd by done. cbn in Hd.
  by destruct (isDerived a), (isReference b), (isDerived b).
Qed.

(** A reference has no children. *)
Lemma childOf_reference pr p or o : isReference p = true → childOf pr p or o = false.
Proof. intros Hp. unfold childOf. by rewrite Hp, andb_false_r. Qed.

Section tree.
Context {S : Type} `{HasEntries S} `{KernelObjects S}.
Implicit Types (s : S).

(** The inheritance test is transitive: when [isParentOf] holds from [a] to
    [b] and from [b] to [c], it holds from [a] to [c], or it stops in the
    assertion that a derived reference has a derived capability in between:
    then [a] is an original, [c] a derived reference, and both cover the same
    range. *)
Theorem isParentOf_trans ea a eb b ec c ra rb rc s :
  addressRange (getPtr a) ea a s = Done ra s →
  addressRange (getPtr b) eb b s = Done rb s →
  addressRange (getPtr c) ec c s = Done rc s →
  isParentOf ea a eb b s = Done true s → isParentOf eb b ec c s = Done true s →
  isParentOf ea a ec c s = Done true s ∨
  (isParentOf ea a ec c s = AssertFail ∧ isOriginal a = true ∧
   isDerivedReference c = true ∧ ra = rc).
Proof.
  intros Ha Hb Hc Hab Hbc.
  assert (getPtr a ≠ 0 ∧ getPtr b ≠ 0) as [Hna Hnb] by by eapply isParentOf_ptrs.
  assert (getPtr c ≠ 0) as Hnc by by eapply isParentOf_ptrs.
  erewrite isParentOf_run in Hab, Hbc |- * by done.
  destruct (treeOk ra a rb b); [|done]. destruct (treeOk rb b rc c); [|done].
  injection Hab as Hab. injection Hbc as Hbc.
  rewrite (childOf_trans ra a rb b rc c) by done.
  destruct (treeOk ra a rc c) eqn:Ht; [by left|]. right. split; [done|].
  unfold treeOk in Ht. apply negb_false_iff in Ht. bool_hyps. split_and!; [done..|].
  by apply contains_antisym.
Qed.

End tree.

(** ** References *)

Definition clear_first (l : list node) : list node :=
  match l with [] => [] | q :: l' => clearf q :: l' end.

Lemma unlockn_lockn p : n_locked p = false → unlockn (lockn p) = p.
Proof. destruct p. cbn. by intros ->. Qed.

Lemma isZombie_zombien n :
  isUsable (n_cap n) = true ∨ isZombie (n_cap n) = true → isZombie (n_cap (zombien n)) = true.
Proof.
  unfold zombien. cbn. destruct (isUsable (n_cap n)) eqn:Hu; [|naive_solver]. intros _.
  rewrite isZombie_asZombie. by apply negb_true_iff, Z.eqb_neq, isUsable_ptr.
Qed.

Lemma zombien_idem n : zombien (zombien n) = zombien n.
Proof.
  unfold zombien. cbn. destruct (isUsable (n_cap n)) eqn:Hu; [|by rewrite Hu].
  by rewrite isUsable_asZombie.
Qed.

Lemma Ring_frame m m' l :
  (∀ a, a ∈ addrs l → m' !! a = m !! a) → Ring m l → Ring m' l.
Proof. intros Hf (? & ? & ?). split_and!; [done..|]. by eapply seg_frame. Qed.

Lemma dropped_locked l p :
  n_locked p = false → dropped (l ++ [lockn p]) = clear_first (l ++ [p]).
Proof.
  intros Hp. destruct l as [|q l]; simpl.
  - unfold unlockn, clearf, lockn. cbn. by rewrite Hp.
  - by rewrite reverse_snoc, reverse_involutive, unlockn_lockn.
Qed.

Lemma addrs_dropped l p : addrs (clear_first (l ++ [p])) = addrs (l ++ [p]).
Proof. by destruct l. Qed.

Section references.
Context {S : Type} `{HasEntries S}.
Implicit Types (m : gmap Z CapEntry) (s : S).

Lemma resetReference_ring m s s' n l p fn :
  Ring m (n :: l ++ [p]) → n_locked n = false → n_locked p = false →
  isUsable (n_cap n) = true ∨ isZombie (n_cap n) = true →
  (∀ m1, m1 !! n_addr n = Some (mkEntry (n_cap (zombien n)) 0 0) →
         fn (set_entries m1 s) = Done tt (set_entries m1 s')) →
  ∃ m', resetReference (n_addr n) fn (set_entries m s) = Done true (set_entries m' s') ∧
        Ring m' (clear_first (l ++ [p])) ∧ m' !! n_addr n = Some (mkEntry asEmpty 0 0) ∧
        ∀ a, a ∉ addrs (n :: l ++ [p]) → m' !! a = m !! a.
Proof.
  intros HR Hln Hlp Hu Hfn. unfold resetReference.
  assert (n_addr n ∉ addrs (l ++ [p])) as Hnin.
  { destruct HR as [Hnd _]. by apply NoDup_cons in Hnd as [? _]. }
  assert (∀ a, a ∉ addrs (n :: l ++ [p]) → a ≠ n_addr n ∧ a ≠ n_addr p) as Hout.
  { unfold addrs. rewrite fmap_cons, fmap_app. set_solver. }
  destruct (kill_step m s [] n (l ++ [p]) HR Hu) as (m1 & E1 & HR1 & Hf1).
  destruct (lock_prev_step m1 s (zombien n) l p HR1 Hlp) as (m2 & E2 & HR2 & Hf2).
  destruct (lock_step m2 s [] (zombien n) (l ++ [lockn p]) HR2 Hln) as (m3 & E3 & HR3 & Hf3).
  destruct (kill_step m3 s [] (lockn (zombien n)) (l ++ [lockn p]) HR3) as (m4 & E4 & HR4 & Hf4);
    [right; by apply isZombie_zombien|].
  destruct (unlink_step m4 s (zombien (lockn (zombien n))) (l ++ [lockn p]) HR4)
    as (m5 & E5 & HR5 & Hm5 & Hf5); [by destruct l|].
  rewrite dropped_locked in HR5 by done.
  assert (n_cap (zombien (lockn (zombien n))) = n_cap (zombien n)) as Hc
    by exact (f_equal n_cap (zombien_idem n)).
  rewrite Hc in Hm5. pose proof (isZombie_zombien n Hu) as Hz.
  exists (<[n_addr n := mkEntry asEmpty 0 0]> m5). split_and!.
  - rewrite (kbind_run _ _ _ _ _ E1). cbn [negb]. rewrite (kbind_run _ _ _ _ _ E2). cbn [negb].
    rewrite (kbind_run _ _ _ _ _ E3), (kbind_run _ _ _ _ _ E4), (kbind_run _ _ _ _ _ E5).
    rewrite (kbind_run _ _ _ _ _ (Hfn m5 Hm5)).
    erewrite kbind_run; [|eapply reset_run; [exact Hm5|]]; [done|].
    unfold isUnlinked. cbn [_cap _prev _next]. by rewrite Hz.
  - eapply Ring_frame; [|done]. intros a Ha. rewrite addrs_dropped in Ha.
    apply lookup_insert_ne. by intros <-.
  - apply lookup_insert_eq.
  - intros a Ha. destruct (Hout a Ha) as [Han Hap]. rewrite lookup_insert_ne by done.
    rewrite Hf5, Hf4, Hf3, Hf2, Hf1; try done.
    unfold addrs in *. rewrite fmap_cons, fmap_app in *. done.
Qed.

Lemma resetReference_at m s s' l1 n l2 fn :
  Ring m (l1 ++ n :: l2) → l1 ++ l2 ≠ [] → unlocked (l1 ++ n :: l2) →
  isUsable (n_cap n) = true ∨ isZombie (n_cap n) = true →
  (∀ m1, m1 !! n_addr n = Some (mkEntry (n_cap (zombien n)) 0 0) →
         fn (set_entries m1 s) = Done tt (set_entries m1 s')) →
  ∃ m', resetReference (n_addr n) fn (set_entries m s) = Done true (set_entries m' s') ∧
        Ring m' (clear_first (l2 ++ l1)) ∧ m' !! n_addr n = Some (mkEntry asEmpty 0 0) ∧
        ∀ a, a ∉ addrs (l1 ++ n :: l2) → m' !! a = m !! a.
Proof.
  intros HR Hne Hul Hu Hfn. apply Ring_head in HR.
  assert (n_locked n = false ∧ unlocked (l2 ++ l1)) as [Hln Hul'].
  { unfold unlocked in *. rewrite !Forall_app, !Forall_cons in *. naive_solver. }
  setoid_rewrite <-addrs_rotate.
  destruct (exists_last (l := l2 ++ l1)) as (l & p & Hl); [by intros [-> ->]%app_eq_nil|].
  rewrite Hl in *.
  apply Forall_app in Hul' as [_ Hlp]. rewrite Forall_singleton in Hlp.
  by apply resetReference_ring.
Qed.

(** C32: [resetReference] takes a linked entry, usable or already killed, out of
    the resource list wherever it stands: the caller's action runs once, on the
    unlinked zombie, the entry ends empty, every other entry of the list keeps
    its capability, its order and its lock state, and the flags of all entries
    but the successor are kept. *)
Theorem resetReference_refines m s s' l1 n l2 fn :
  Ring m (l1 ++ n :: l2) → l1 ++ l2 ≠ [] → unlocked (l1 ++ n :: l2) →
  isUsable (n_cap n) = true ∨ isZombie (n_cap n) = true →
  (∀ m1, m1 !! n_addr n = Some (mkEntry (n_cap (zombien n)) 0 0) →
         fn (set_entries m1 s) = Done tt (set_entries m1 s')) →
  ∃ m', resetReference (n_addr n) fn (set_entries m s) = Done true (set_entries m' s') ∧
        Ring m' (clear_first (l2 ++ l1)) ∧ m' !! n_addr n = Some (mkEntry asEmpty 0 0) ∧
        ∀ a, a ∉ addrs (l1 ++ n :: l2) → m' !! a = m !! a.
Proof. apply resetReference_at. Qed.

(** Removing an entry also clears the flags in the [_prev] word of the next
    entry: an entry that a running revocation has pinned with its REVOKING flag
    loses the pin, while it keeps its capability, when the entry in front of it
    is removed. *)
Theorem resetReference_clears_pin m s n q l :
  Ring m (n :: q :: l) → unlocked (n :: q :: l) → isUsable (n_cap n) = true →
  n_revoking q = true →
  ∃ c m' c',
    m !! n_addr q = Some c ∧ isRevoking c = true ∧
    resetReference (n_addr n) (kret tt) (set_entries m s) = Done true (set_entries m' s) ∧
    m' !! n_addr q = Some c' ∧ isRevoking c' = false ∧ _cap c' = _cap c.
Proof.
  intros HR Hul Hu Hq.
  destruct (Ring_access m [n] q l HR) as (p & ? & _ & Hcp & _ & _ & _ & Hmq & _).
  destruct (exists_last (l := q :: l)) as (l' & z & Hl); [done|].
  unfold unlocked in Hul. pose proof HR as HR'. rewrite Hl in HR', Hul.
  rewrite Forall_cons, Forall_app, Forall_singleton in Hul. destruct Hul as (Hn & _ & Hz).
  destruct (resetReference_ring m s s n l' z (kret tt) HR') as (m' & Hrun & HR2 & _);
    [done|done|by left|done|].
  rewrite <-Hl in HR2. simpl in HR2.
  destruct (Ring_access m' [] (clearf q) l HR2) as (p' & ? & _ & Hcp' & _ & _ & _ & Hmq' & _).
  eexists _, m', _. split_and!; [exact Hmq| |exact Hrun|exact Hmq'| |done].
  all: unfold isRevoking, entry_of; cbn [_prev];
    rewrite Link_pack_flags, n_flags_revoking by (done || apply n_flags_range || lia); done.
Qed.

End references.

(** ** Inheritance *)

(** When the assertions of [cap::inherit] pass. *)
Definition linkable (pr : Range) (p : Z) (tr : Range) (t : Z) : bool :=
  treeOk pr p tr t &&
  (if isReference p then treeOk tr t pr p && negb (childOf tr t pr p) else childOf pr p tr t).

Section inheritance.
Context {S : Type} `{HasEntries S} `{KernelObjects S}.
Implicit Types (m : gmap Z CapEntry) (s : S).

(** The address range of a capability does not depend on the links. *)
Definition hasRange (s : S) (e c : Z) (r : Range) : Prop :=
  getPtr c ≠ 0 ∧ ∀ m, addressRange (getPtr c) e c (set_entries m s) = Done r (set_entries m s).

Lemma inherit_commit_run m s s' pe p te t pr tr cf :
  hasRange s' pe p pr → hasRange s' te t tr → linkable pr p tr t = true →
  cf (set_entries m s) = Done tt (set_entries m s') →
  inherit_commit pe p te t cf (set_entries m s) = Done tt (set_entries m s').
Proof.
  intros [Hp Hpr] [Ht Htr] [H1 H2]%andb_prop Hcf. unfold inherit_commit.
  rewrite (kbind_run _ _ _ _ _ Hcf).
  pose proof (isParentOf_run pe p te t pr tr _ Hp Ht (Hpr m) (Htr m)) as Hpt.
  pose proof (isParentOf_run te t pe p tr pr _ Ht Hp (Htr m) (Hpr m)) as Htp.
  rewrite H1 in Hpt. rewrite (kbind_run _ _ _ _ _ Hpt). destruct (isReference p) eqn:Href.
  - rewrite childOf_reference in Hpt |- * by done. apply andb_prop in H2 as [H2 H3].
    rewrite H2 in Htp. apply negb_true_iff in H3. rewrite H3 in Htp.
    unfold kbind, kassert, kret. rewrite Htp. cbn [negb implies orb]. by rewrite Hpt.
  - rewrite H2 in Hpt |- *. unfold kbind, kassert, kret. cbn [negb implies orb]. by rewrite Hpt.
Qed.

Lemma acquire_run m s e c :
  m !! e = Some c → _cap c = asEmpty →
  acquire e (set_entries m s) = Done (OK tt) (set_entries (<[e := with_cap asAllocated c]> m) s).
Proof.
  intros He Hc. unfold acquire, tryAcquire, kbind. erewrite rd_run by done. rewrite Hc. cbn.
  by erewrite wr_run.
Qed.

Lemma inherit_ring m s s' l1 n l2 target t targetCap pr tr cf :
  Ring m (l1 ++ n :: l2) → isUsable (n_cap n) = true → n_locked n = false →
  target ∉ addrs (l1 ++ n :: l2) → capPointer target = true →
  m !! target = Some t → isAllocated (_cap t) = true →
  hasRange s' (n_addr n) (n_cap n) pr → hasRange s' target targetCap tr →
  linkable pr (n_cap n) tr targetCap = true →
  (∀ m1, cf (set_entries m1 s) = Done tt (set_entries m1 s')) →
  ∃ m', inherit (n_addr n) (n_cap n) target targetCap cf (set_entries m s) =
          Done (OK tt) (set_entries m' s') ∧
        Ring m' (l1 ++ n :: fresh target targetCap :: l2) ∧
        ∀ a, a ≠ target → a ∉ addrs (l1 ++ n :: l2) → m' !! a = m !! a.
Proof.
  intros HR Hu Hl Ht Hct Hmt Ha Hpr Htr Hlink Hcf. rewrite <-addrs_rotate in Ht.
  destruct (insertAfter_ring m s s' n (l2 ++ l1) target t targetCap
    (inherit_commit (n_addr n) (n_cap n) target targetCap cf)) as (m' & Hrun & HR' & Hf);
    try done; [by apply Ring_head| |].
  { intros m1. eapply inherit_commit_run; eauto. }
  exists m'. split_and!; [done|by apply Ring_head|].
  intros a Hat Hal. apply Hf. rewrite not_elem_of_cons, addrs_rotate. done.
Qed.

Lemma inherit_acquired m s l1 n l2 target t targetCap pr tr :
  Ring m (l1 ++ n :: l2) → isUsable (n_cap n) = true → n_locked n = false →
  target ∉ addrs (l1 ++ n :: l2) → capPointer target = true → m !! target = Some t →
  hasRange s (n_addr n) (n_cap n) pr → hasRange s target targetCap tr →
  linkable pr (n_cap n) tr targetCap = true →
  ∃ m', inherit (n_addr n) (n_cap n) target targetCap (kret tt)
          (set_entries (<[target := with_cap asAllocated t]> m) s) =
          Done (OK tt) (set_entries m' s) ∧
        Ring m' (l1 ++ n :: fresh target targetCap :: l2) ∧
        ∀ a, a ≠ target → a ∉ addrs (l1 ++ n :: l2) → m' !! a = m !! a.
Proof.
  intros HR Hu Hl Ht Hct Hmt Hpr Htr Hlink.
  edestruct (inherit_ring (<[target := with_cap asAllocated t]> m) s s l1 n l2 target)
    as (m' & Hrun & HR' & Hf); try done.
  - eapply Ring_frame; [|done]. intros a Ha. apply lookup_insert_ne. by intros <-.
  - apply lookup_insert_eq.
  - done.
  - exists m'. split_and!; [done..|]. intros a Hat Hal. rewrite Hf by done.
    by apply lookup_insert_ne.
Qed.

Lemma linkable_reference r p c :
  isDerived c = isDerived p → linkable r p r (asReference c) = true.
Proof.
  intros Hd. unfold linkable, treeOk, childOf, isDerivedReference, isOriginal.
  replace (isReference (asReference c)) with true.
  2: { unfold isReference, f_ref, asReference. by rewrite flag_bset by lia. }
  replace (isDerived (asReference c)) with (isDerived p).
  2: { rewrite <-Hd. unfold isDerived, f_der, asReference. by rewrite flag_bset by lia. }
  rewrite contains_refl. by destruct (isReference p), (isDerived p).
Qed.

Lemma linkable_derived r p c :
  isDerived p = false → linkable r p r (asDerived (stripReference c)) = true.
Proof.
  intros Hp. unfold linkable, treeOk, childOf, isDerivedReference, isOriginal. rewrite Hp.
  replace (isReference (asDerived (stripReference c))) with false.
  2: { unfold isReference, f_ref, asDerived, stripReference. by rewrite !flag_bset by lia. }
  replace (isDerived (asDerived (stripReference c))) with true.
  2: { unfold isDerived, f_der, asDerived. by rewrite flag_bset by lia. }
  rewrite contains_refl. by destruct (isReference p).
Qed.

Lemma reference_inserts m s l1 n l2 target t request c r :
  Ring m (l1 ++ n :: l2) → isUsable (n_cap n) = true → n_locked n = false →
  target ∉ addrs (l1 ++ n :: l2) → capPointer target = true →
  m !! target = Some t → _cap t = asEmpty →
  mint (getPtr (n_cap n)) (n_addr n) (n_cap n) request false (set_entries m s) =
    Done (OK c) (set_entries m s) →
  isDerived c = isDerived (n_cap n) →
  hasRange s (n_addr n) (n_cap n) r → hasRange s target (asReference c) r →
  ∃ m', reference (n_addr n) target (n_cap n) request (set_entries m s) =
          Done (OK tt) (set_entries m' s) ∧
        Ring m' (l1 ++ n :: fresh target (asReference c) :: l2) ∧
        ∀ a, a ≠ target → a ∉ addrs (l1 ++ n :: l2) → m' !! a = m !! a.
Proof.
  intros HR Hu Hl Ht Hct Hmt He Hmint Hd Hpr Htr. unfold reference. rewrite Hu. cbn [negb].
  rewrite (kbind_run _ _ _ _ _ Hmint), (kbind_run _ _ _ _ _ (acquire_run m s _ _ Hmt He)).
  cbn [isOK]. eapply inherit_acquired; eauto. by apply linkable_reference.
Qed.

(** [cap::reference] on a usable capability inserts the minted capability,
    marked as a reference, directly behind the parent entry: an empty target
    is acquired, all assertions of the tree pass for originals, derived
    capabilities and references alike, and the list is otherwise unchanged. *)
Theorem reference_refines m s l1 n l2 target t request c r :
  Ring m (l1 ++ n :: l2) → isUsable (n_cap n) = true → n_locked n = false →
  target ∉ addrs (l1 ++ n :: l2) → capPointer target = true →
  m !! target = Some t → _cap t = asEmpty →
  mint (getPtr (n_cap n)) (n_addr n) (n_cap n) request false (set_entries m s) =
    Done (OK c) (set_entries m s) →
  isDerived c = isDerived (n_cap n) →
  hasRange s (n_addr n) (n_cap n) r → hasRange s target (asReference c) r →
  ∃ m', reference (n_addr n) target (n_cap n) request (set_entries m s) =
          Done (OK tt) (set_entries m' s) ∧
        Ring m' (l1 ++ n :: fresh target (asReference c) :: l2) ∧
        ∀ a, a ≠ target → a ∉ addrs (l1 ++ n :: l2) → m' !! a = m !! a.
Proof. apply reference_inserts. Qed.

(** [cap::derive] on a usable capability that is not derived inserts the
    minted capability, marked as derived and no reference, directly behind the
    parent entry, for originals and for references as parent; the list is
    otherwise unchanged. *)
Theorem derive_refines m s l1 n l2 target t request c r :
  Ring m (l1 ++ n :: l2) → isUsable (n_cap n) = true → n_locked n = false →
  isDerived (n_cap n) = false →
  target ∉ addrs (l1 ++ n :: l2) → capPointer target = true →
  m !! target = Some t → _cap t = asEmpty →
  mint (getPtr (n_cap n)) (n_addr n) (n_cap n) request true (set_entries m s) =
    Done (OK c) (set_entries m s) →
  hasRange s (n_addr n) (n_cap n) r → hasRange s target (asDerived (stripReference c)) r →
  ∃ m', derive (n_addr n) target (n_cap n) request (set_entries m s) =
          Done (OK tt) (set_entries m' s) ∧
        Ring m' (l1 ++ n :: fresh target (asDerived (stripReference c)) :: l2) ∧
        ∀ a, a ≠ target → a ∉ addrs (l1 ++ n :: l2) → m' !! a = m !! a.
Proof.
  intros HR Hu Hl Hd Ht Hct Hmt He Hmint Hpr Htr. unfold derive. rewrite Hu, Hd. cbn [negb orb].
  rewrite (kbind_run _ _ _ _ _ Hmint), (kbind_run _ _ _ _ _ (acquire_run m s _ _ Hmt He)).
  cbn [isOK]. eapply inherit_acquired; eauto. by apply linkable_derived.
Qed.

End inheritance.

(** ** Witnesses *)

#[local] Instance wobjects : KernelObjects (gmap Z CapEntry) := {|
  addressRange := default_addressRange; mint := default_mint; deleteCap := λ _ _ _, kret (OK tt) |}.

Definition wempty : gmap Z CapEntry := <[wa 3 := mkEntry asEmpty 0 0]> (store_of wring).
Definition wrange : Range := bySize 0x2000 1.

Lemma isParentOf_trans_witness :
  isParentOf (wa 0) wcap (wa 1) wcap wempty = Done true wempty ∧
  (isParentOf (wa 0) wcap (wa 2) wcap wempty = Done true wempty ∨
   (isParentOf (wa 0) wcap (wa 2) wcap wempty = AssertFail ∧ isOriginal wcap = true ∧
    isDerivedReference wcap = true ∧ wrange = wrange)).
Proof.
  split; [vm_compute; reflexivity|].
  apply (isParentOf_trans (wa 0) wcap (wa 1) wcap (wa 2) wcap wrange wrange wrange wempty);
    vm_compute; reflexivity.
Defined.

Lemma reference_refines_witness :
  ∃ m', reference (wa 0) (wa 3) wcap 0 (set_entries wempty wempty) =
          Done (OK tt) (set_entries m' wempty) ∧
        Ring m' [fresh (wa 0) wcap; fresh (wa 3) (asReference wcap);
                 fresh (wa 1) wcap; fresh (wa 2) wcap].
Proof.
  destruct (reference_refines wempty wempty [] (fresh (wa 0) wcap)
    [fresh (wa 1) wcap; fresh (wa 2) wcap] (wa 3) (mkEntry asEmpty 0 0) 0 wcap wrange)
    as (m' & Hrun & HR & _);
    first [computes | reflexivity | (split; [computes|intros; reflexivity]) | idtac].
  exists m'. exact (conj Hrun HR).
Defined.

Lemma derive_refines_witness :
  ∃ m', derive (wa 0) (wa 3) wcap 0 (set_entries wempty wempty) =
          Done (OK tt) (set_entries m' wempty) ∧
        Ring m' [fresh (wa 0) wcap; fresh (wa 3) (asDerived (stripReference wcap));
                 fresh (wa 1) wcap; fresh (wa 2) wcap].
Proof.
  destruct (derive_refines wempty wempty [] (fresh (wa 0) wcap)
    [fresh (wa 1) wcap; fresh (wa 2) wcap] (wa 3) (mkEntry asEmpty 0 0) 0 wcap wrange)
    as (m' & Hrun & HR & _);
    first [computes | reflexivity | (split; [computes|intros; reflexivity]) | idtac].
  exists m'. exact (conj Hrun HR).
Defined.

Lemma resetReference_refines_witness :
  ∃ m', resetReference (wa 1) (kret tt) (set_entries wempty wempty) =
          Done true (set_entries m' wempty) ∧
        Ring m' [fresh (wa 2) wcap; fresh (wa 0) wcap].
Proof.
  destruct (resetReference_refines wempty wempty wempty [fresh (wa 0) wcap] (fresh (wa 1) wcap)
    [fresh (wa 2) wcap] (kret tt)) as (m' & Hrun & HR & _);
    first [computes | (intros; reflexivity) | idtac].
  exists m'. exact (conj Hrun HR).
Defined.

Definition wpin_store : gmap Z CapEntry := store_of [fresh (wa 0) wcap; wpinned; fresh (wa 2) wcap].

Lemma resetReference_clears_pin_witness :
  ∃ c m' c',
    wpin_store !! wa 1 = Some c ∧ isRevoking c = true ∧
    resetReference (wa 0) (kret tt) (set_entries wpin_store wpin_store) =
      Done true (set_entries m' wpin_store) ∧
    m' !! wa 1 = Some c' ∧ isRevoking c' = false ∧ _cap c' = _cap c.
Proof.
  apply (resetReference_clears_pin wpin_store wpin_store (fresh (wa 0) wcap) wpinned
    [fresh (wa 2) wcap]); first [computes | reflexivity].
Defined.
