(* ===== verification/Revoke.v ===== *)
(** * Revocation and deletion of capabilities

    Models objects/capability-spinning/objects/RevokeOperation.hh and .cc: the
    walk along the resource list to a leaf of the inheritance tree, the loop
    that deletes leaf after leaf, and the request handlers around it.

    The two loops carry fuel and end in [SpinsForever] without it; the theorems
    give the fuel that suffices. *)

From stdpp Require Import base tactics numbers list gmap.
From Stdlib Require Import ZArith Lia.
From S2P Require Import Prelude Ranges Bitfield Cap CapEntry CapRing CapSteps CapOps.

Local Open Scope Z_scope.
Import PhysPtr Intervals.

(** What the operation tells its environment: the response of [_res], the two
    monitor calls, the broadcast and the asynchronous deletion of an object. *)
Inductive RevokeEvent :=
| Response (e : Error)
| RequestDone
| ResponseDone
| BroadcastRun
| DeleteObject (obj : Z).

(** [RevokeOperation], objects/capability-spinning/objects/RevokeOperation.hh:115-126 *)
Record RevokeOp := mkRevokeOp {
  _deleteQueue : list Z; _guarded : Z; _result : Error; _lock : bool;
  events : list RevokeEvent }.

Class HasRevokeOp (S : Type) `{HasEntries S} := {
  rop : S → RevokeOp;
  set_rop : RevokeOp → S → S;
  rop_set o s : rop (set_rop o s) = o;
  set_rop_entries o m s : set_rop o (set_entries m s) = set_entries m (set_rop o s);
  rop_entries m s : rop (set_entries m s) = rop s
}.

Section revoke.
Context {S : Type} `{HasEntries S} `{KernelObjects S}.

(** [RevokeOperation::_startTraversal],
    objects/capability-spinning/objects/RevokeOperation.cc:146-170 *)
Definition _startTraversal (root rootCap : Z) : kernel S bool :=
  l <-- lock_prev root;;
  if negb l then kret false
  else
    p <-- prev root;;
    if p =? root then unlock_prev root;;; kret false
    else
      lock root;;;
      c <-- cap root;;
      if negb (asZombie c =? asZombie rootCap) then
        unlock root;;;
        unlock_prev root;;;
        kret false
      else kret true.

(** [RevokeOperation::_findLockedLeaf],
    objects/capability-spinning/objects/RevokeOperation.cc:172-195 *)
Fixpoint _findLockedLeaf (fuel : nat) (curEntry : Z) : kernel S Z :=
  match fuel with
  | O => spin
  | Datatypes.S fuel =>
    curCap <-- cap curEntry;;
    nextEntry <-- next curEntry;;
    ne <-- rd nextEntry;;
    if isAllocated (_cap ne) then kassert (negb (isDeleted ne));;; spin
    else
      p <-- isParentOf curEntry curCap nextEntry (_cap ne);;
      if p then
        unlock_prev curEntry;;;
        kill nextEntry;;;
        lock nextEntry;;;
        _findLockedLeaf fuel nextEntry
      else kret curEntry
  end.

(** [RevokeOperation::_delete] on entries,
    objects/capability-spinning/objects/RevokeOperation.cc:107-144 *)
Fixpoint _deleteEntries (fuel wfuel : nat) (guarded root rootCap : Z) : kernel S (optional unit) :=
  match fuel with
  | O => spin
  | Datatypes.S fuel =>
    started <-- _startTraversal root rootCap;;
    if negb started then kret (OK tt)
    else
      leaf <-- _findLockedLeaf wfuel root;;
      if (leaf =? root) && negb (isZombie rootCap) then
        finishRevoke root;;;
        unlock root;;;
        unlock_prev root;;;
        kret (OK tt)
      else
        leafCap <-- cap leaf;;
        kassert (isZombie leafCap);;;
        if getPtr leafCap =? guarded then
          unlock leaf;;;
          unlock_prev leaf;;;
          kret (THROW CYCLIC_DEPENDENCY)
        else
          delRes <-- deleteCap (getPtr leafCap) leaf leafCap;;
          match delRes with
          | OK _ =>
            unlink leaf;;;
            reset leaf;;;
            if leaf =? root then kret (OK tt)
            else _deleteEntries fuel wfuel guarded root rootCap
          | THROW e =>
            unlock leaf;;;
            unlock_prev leaf;;;
            kret (THROW e)
          end
  end.

(** [RevokeOperation::deleteEntry],
    objects/capability-spinning/objects/RevokeOperation.cc:33-52 *)
Fixpoint deleteEntry_loop (fuel dfuel wfuel : nat) (guarded entry : Z)
    : kernel S (optional unit) :=
  match fuel with
  | O => spin
  | Datatypes.S fuel =>
    e <-- rd entry;;
    kassert (negb (isDeleted e));;;
    a <-- tryAcquire entry;;
    if a then setDeleted entry;;; kret (OK tt)
    else
      k <-- kill entry;;
      if k then
        c <-- cap entry;;
        r <-- _deleteEntries dfuel wfuel guarded entry c;;
        match r with
        | OK _ => deleteEntry_loop fuel dfuel wfuel guarded entry
        | THROW x => kret (THROW x)
        end
      else deleteEntry_loop fuel dfuel wfuel guarded entry
  end.

Definition deleteEntry (fuel dfuel wfuel : nat) (guarded entry : Z) : kernel S (optional unit) :=
  e <-- rd entry;;
  if isDeleted e then kret (OK tt) else deleteEntry_loop fuel dfuel wfuel guarded entry.

End revoke.

Section handlers.
Context {S : Type} `{HasEntries S} `{KernelObjects S} `{!HasRevokeOp S}.

Definition modify_rop (f : RevokeOp → RevokeOp) : kernel S unit :=
  kmodify (λ s, set_rop (f (rop s)) s).

Definition emit (e : RevokeEvent) : kernel S unit :=
  modify_rop (λ o, mkRevokeOp (_deleteQueue o) (_guarded o) (_result o) (_lock o) (events o ++ [e])).

(** [RevokeOperation::acquire], objects/capability-spinning/objects/RevokeOperation.hh:92-96 *)
Definition Revoke_acquire : kernel S bool :=
  s <-- kget;;
  modify_rop (λ o, mkRevokeOp (_deleteQueue o) (_guarded o) (_result o) true (events o));;;
  kret (negb (_lock (rop s))).

(** [RevokeOperation::release], objects/capability-spinning/objects/RevokeOperation.hh:98-101 *)
Definition Revoke_release : kernel S unit :=
  modify_rop (λ o, mkRevokeOp (_deleteQueue o) (_guarded o) (_result o) false (events o)).

(** [RevokeOperation::deleteObject], objects/capability-spinning/objects/RevokeOperation.hh:55-58 *)
Definition Revoke_deleteObject (obj : Z) : kernel S unit :=
  modify_rop (λ o, mkRevokeOp (_deleteQueue o ++ [obj]) (_guarded o) (_result o) (_lock o) (events o)).

Definition set_guarded (g : Z) : kernel S unit :=
  modify_rop (λ o, mkRevokeOp (_deleteQueue o) g (_result o) (_lock o) (events o)).
Definition set_result (r : optional unit) : kernel S unit :=
  modify_rop (λ o, mkRevokeOp (_deleteQueue o) (_guarded o) (state r) (_lock o) (events o)).

(** [RevokeOperation::_startAsyncDelete],
    objects/capability-spinning/objects/RevokeOperation.cc:197-208 *)
Definition _startAsyncDelete : kernel S unit :=
  s <-- kget;;
  match _deleteQueue (rop s) with
  | [] => Revoke_release;;; emit (Response (_result (rop s)));;; emit RequestDone
  | _ => emit BroadcastRun
  end.

(** [RevokeOperation::_deleteObject],
    objects/capability-spinning/objects/RevokeOperation.cc:210-221 *)
Definition _deleteObject : kernel S unit :=
  s <-- kget;;
  match _deleteQueue (rop s) with
  | [] => emit (Response (_result (rop s)));;; Revoke_release;;; emit RequestDone
  | obj :: q =>
    modify_rop (λ o, mkRevokeOp q (_guarded o) (_result o) (_lock o) (events o));;;
    emit (DeleteObject obj)
  end;;;
  emit ResponseDone.

(** [RevokeOperation::_delete] as request handler,
    objects/capability-spinning/objects/RevokeOperation.cc:55-76 *)
Definition _deleteRequest (fuel wfuel : nat) (entry guarded : Z) : kernel S unit :=
  set_guarded guarded;;;
  a <-- Revoke_acquire;;
  if negb a then emit (Response LOST_RACE);;; emit RequestDone
  else
    k <-- kill entry;;
    if negb k then emit (Response LOST_RACE);;; Revoke_release;;; emit RequestDone
    else
      c <-- cap entry;;
      r <-- _deleteEntries fuel wfuel guarded entry c;;
      set_result r;;;
      _startAsyncDelete.

(** [RevokeOperation::_revoke],
    objects/capability-spinning/objects/RevokeOperation.cc:78-105 *)
Definition _revokeRequest (fuel wfuel : nat) (entry guarded : Z) : kernel S unit :=
  set_guarded guarded;;;
  a <-- Revoke_acquire;;
  if negb a then emit (Response LOST_RACE);;; emit RequestDone
  else
    lock entry;;;
    rootCap <-- cap entry;;
    if negb (isUsable rootCap) then
      unlock entry;;;
      emit (Response LOST_RACE);;;
      Revoke_release;;;
      emit RequestDone
    else
      setRevoking entry;;;
      unlock entry;;;
      r <-- _deleteEntries fuel wfuel guarded entry rootCap;;
      set_result r;;;
      _startAsyncDelete.

End handlers.
