(* ===== verification/RevokeTree.v ===== *)
(** * Revocation deletes exactly the descendants

    Correctness of the deletion loop of
    objects/capability-spinning/objects/RevokeOperation.cc.  The resource list
    is a pre-order of the inheritance tree: the descendants [D] of an entry
    follow it directly, and [R] is the rest of the cycle.  The loop removes
    [D], leaf by leaf, and nothing else. *)

From stdpp Require Import base tactics numbers list gmap.
From Stdlib Require Import ZArith Lia.
From S2P Require Import Prelude Ranges Bitfield Cap CapEntry CapRing CapSteps CapOps Revoke.

Local Open Scope Z_scope.
Import PhysPtr Intervals.

Lemma getPtr_ne0 c : f_ptr c ≠ 0 → getPtr c ≠ 0.
Proof.
  intros Hp. unfold getPtr. rewrite (proj2 (Z.eqb_neq _ _) Hp).
  rewrite offset2kernel_eq by (apply wrap_fits; lia).
  pose proof (wrap_fits 32 (Z.shiftl (f_ptr c) 3) ltac:(lia)) as [? _].
  unfold KERNELMEM_ADDR. lia.
Qed.

Definition alive (n : node) : Prop := isUsable (n_cap n) = true ∨ isZombie (n_cap n) = true.

Lemma alive_ptr n : alive n → f_ptr (n_cap n) ≠ 0.
Proof. unfold alive, isUsable, isZombie. intros [Hb|Hb]; by bool_hyps. Qed.

Lemma alive_not_allocated n : alive n → isAllocated (n_cap n) = false.
Proof.
  intros Hp%alive_ptr%Z.eqb_neq. unfold isAllocated. by rewrite Hp.
Qed.

Lemma zombien_alive n : alive n → alive (zombien n).
Proof. intros. right. by apply isZombie_zombien. Qed.

Lemma treeOk_childOf pr p or o : childOf pr p or o = false → treeOk pr p or o = true.
Proof.
  unfold treeOk, childOf, isOriginal. intros Hc.
  destruct (contains pr or), (contains or pr), (isReference p), (isDerived p),
    (isDerivedReference o); cbn [negb andb orb] in *; congruence.
Qed.

Section traversal.
Context {S : Type} `{HasEntries S}.
Implicit Types (m : gmap Z CapEntry) (s : S).

Definition outside (l : list node) m m' : Prop := ∀ a, a ∉ addrs l → m' !! a = m !! a.

(** One step down: the lock on the predecessor moves on to the child. *)
Lemma descend_step {A} (K : kernel S A) m s cur L v y T :
  Ring m (lockn cur :: L ++ [lockn v]) → L ++ [v] = y :: T →
  n_locked v = false → n_locked y = false → alive y →
  ∃ m', (unlock_prev (n_addr cur);;; kill (n_addr y);;; lock (n_addr y);;; K) (set_entries m s) =
          K (set_entries m' s) ∧
        Ring m' (lockn (zombien y) :: T ++ [lockn cur]) ∧ outside (cur :: y :: T) m m'.
Proof.
  intros HR HL Hv Hy Ha.
  destruct (unlock_prev_step m s (lockn cur) L (lockn v) HR eq_refl) as (m1 & E1 & HR1 & Hf1).
  rewrite (unlockn_lockn v) in HR1 by done. rewrite HL in HR1.
  destruct (kill_step m1 s [lockn cur] y T HR1 Ha) as (m2 & E2 & HR2 & Hf2).
  destruct (lock_step m2 s [lockn cur] (zombien y) T HR2 Hy) as (m3 & E3 & HR3 & Hf3).
  exists m3. split_and!.
  - rewrite (kbind_run _ _ _ _ _ E1), (kbind_run _ _ _ _ _ E2). by rewrite (kbind_run _ _ _ _ _ E3).
  - by apply Ring_head in HR3.
  - intros a Hn. assert (n_addr v ∈ addrs (y :: T)) as Hvin.
    { rewrite <-HL. unfold addrs. rewrite fmap_app. set_solver. }
    unfold addrs in *. rewrite !fmap_cons, !not_elem_of_cons in *.
    rewrite Hf3, Hf2, Hf1; [done|set_solver..].
Qed.

Lemma startTraversal_run m s root L p rootCap :
  Ring m (root :: L ++ [p]) → n_locked root = false → n_locked p = false →
  asZombie (n_cap root) = asZombie rootCap →
  ∃ m', _startTraversal (n_addr root) rootCap (set_entries m s) = Done true (set_entries m' s) ∧
        Ring m' (lockn root :: L ++ [lockn p]) ∧ outside (root :: L ++ [p]) m m'.
Proof.
  intros HR Hlr Hlp Hcap.
  destruct (lock_prev_step m s root L p HR Hlp) as (m1 & E1 & HR1 & Hf1).
  destruct (lock_step m1 s [] root (L ++ [lockn p]) HR1 Hlr) as (m2 & E2 & HR2 & Hf2).
  destruct (Ring_access m1 [] root (L ++ [lockn p]) HR1)
    as (p' & q & _ & Hcp & _ & Hp' & _ & Hn1 & _).
  destruct (Ring_access m2 [] (lockn root) (L ++ [lockn p]) HR2) as (? & ? & _ & _ & _ & _ & _ & Hn2 & _).
  rewrite app_nil_r, final_app in Hp'. cbn in Hp'. subst p'.
  exists m2. split_and!; [|done|].
  - unfold _startTraversal. rewrite (kbind_run _ _ _ _ _ E1). cbn [negb].
    erewrite kbind_run; [|unfold prev; erewrite kbind_run; [reflexivity|by apply rd_run]].
    cbn [entry_of _prev]. rewrite Link_ptr_pack by (done || apply n_flags_range).
    rewrite (proj2 (Z.eqb_neq _ _)).
    2: { destruct HR as [Hnd _]. unfold addrs in Hnd.
         rewrite fmap_cons, fmap_app, NoDup_cons in Hnd. set_solver. }
    rewrite (kbind_run _ _ _ _ _ E2), (kbind_run _ _ _ _ _ (cap_run _ s _ _ Hn2)).
    cbn [entry_of _cap]. change (n_cap (lockn root)) with (n_cap root).
    by rewrite Hcap, Z.eqb_refl.
  - intros a Ha. unfold addrs in Ha. rewrite fmap_cons, fmap_app in Ha.
    rewrite Hf2, Hf1; [done|set_solver..].
Qed.

(** An entry alone on its list has no descendants. *)
Lemma startTraversal_single m s root rootCap :
  Ring m [root] → n_locked root = false →
  ∃ m', _startTraversal (n_addr root) rootCap (set_entries m s) = Done false (set_entries m' s) ∧
        Ring m' [root] ∧ outside [root] m m'.
Proof.
  intros HR Hl. destruct (Ring_access m [] root [] HR) as (p & q & Hcr & _ & _ & Hp & Hq & Hn & Hup).
  cbn in Hp, Hq. subst p q. unfold entry_of in Hn. rewrite (n_lk_unlocked root) in Hn by done.
  exists (<[n_addr root := entry_of root (n_addr root) (n_addr root)]> m).
  split_and!; [|by apply Hup|intros a Ha; apply lookup_insert_ne; set_solver].
  unfold _startTraversal.
  erewrite kbind_run; [|eapply lock_prev_run; [exact Hn|prev_side|by apply capPointer_ne0|exact Hn|ring_side]].
  cbn [negb]. erewrite kbind_run; [|unfold prev; erewrite kbind_run; [reflexivity|apply rd_run; lkp]].
  cbn [_prev with_next]. links. rewrite Z.eqb_refl.
  erewrite kbind_run; [|eapply unlock_prev_run; [lkp|prev_side|by apply capPointer_ne0|lkp|ring_side]].
  rewrite insert_insert_eq. unfold kret. do 3 f_equal. unfold entry_of. cbn. links.
  by rewrite (n_lk_unlocked root).
Qed.

(** The list after the removal of a leaf behind [X]. *)
Definition after (root : node) (X E2 R : list node) : node * list node * list node :=
  match E2, R with
  | _ :: _, _ => (root, X ++ clear_first E2, R)
  | [], _ :: _ => (root, X, clear_first R)
  | [], [] => (clearf root, X, [])
  end.

Lemma Ring_after m root X E2 R root' D' R' :
  after root X E2 R = (root', D', R') →
  Ring m (clear_first (E2 ++ R ++ root :: X)) → Ring m (root' :: D' ++ R').
Proof.
  unfold after. destruct E2 as [|e E2]; [destruct R as [|r R]|]; intros [= <- <- <-]; simpl.
  - by rewrite app_nil_r.
  - intros HR. by apply (Ring_rotate m (clearf r :: R) (root :: X)).
  - intros HR. rewrite app_assoc in HR. apply (Ring_rotate m (clearf e :: E2 ++ R) (root :: X)) in HR.
    simpl in HR. by rewrite <-app_assoc.
Qed.

Lemma after_sims root X E2 R root' D' R' :
  after root X E2 R = (root', D', R') →
  (root' = root ∨ root' = clearf root) ∧ D' = X ++ clear_first E2 ∧ (R' = R ∨ R' = clear_first R) ∧
  (E2 = [] → R = [] → root' = clearf root).
Proof.
  unfold after. destruct E2 as [|e E2]; [destruct R as [|r R]|]; intros [= <- <- <-];
    rewrite ?app_nil_r; naive_solver.
Qed.

Lemma addrs_zombien (l : list node) : n_addr <$> (zombien <$> l) = n_addr <$> l.
Proof. rewrite <-list_fmap_compose. by apply list_fmap_ext. Qed.

Lemma addrs_clear_first l : n_addr <$> clear_first l = n_addr <$> l.
Proof. by destruct l. Qed.

Lemma Forall_clear_first (P : node → Prop) l :
  (∀ x, P x → P (clearf x)) → Forall P l → Forall P (clear_first l).
Proof. intros HP. destruct l; simpl; [done|]. rewrite !Forall_cons. naive_solver. Qed.

Lemma getPtr_zombien x : getPtr (n_cap (zombien x)) = getPtr (n_cap x).
Proof.
  unfold zombien. cbn [n_cap]. destruct (isUsable (n_cap x)); [|done].
  unfold asZombie. by apply getPtr_bset.
Qed.

(** A locked leaf leaves the list and becomes empty. *)
Lemma remove_leaf {A} (K : kernel S A) m s leaf L w :
  Ring m (lockn leaf :: L ++ [lockn w]) → n_locked w = false → isZombie (n_cap leaf) = true →
  ∃ m', (unlink (n_addr leaf);;; reset (n_addr leaf);;; K) (set_entries m s) =
          K (set_entries m' s) ∧
        Ring m' (clear_first (L ++ [w])) ∧
        m' !! n_addr leaf = Some (mkEntry asEmpty 0 0) ∧ outside (leaf :: L ++ [w]) m m'.
Proof.
  intros HR Hlw Hz. assert (n_addr leaf ∉ addrs (L ++ [w])) as Hnin.
  { destruct HR as [Hnd _]. unfold addrs in *. rewrite fmap_cons, fmap_app, NoDup_cons in Hnd.
    rewrite fmap_app. naive_solver. }
  destruct (unlink_step m s (lockn leaf) (L ++ [lockn w]) HR) as (m1 & E1 & HR1 & Hm1 & Hf1);
    [by destruct L|].
  rewrite dropped_locked in HR1 by done.
  exists (<[n_addr leaf := mkEntry asEmpty 0 0]> m1). split_and!.
  - rewrite (kbind_run _ _ _ _ _ E1). erewrite kbind_run; [done|]. eapply reset_run; [exact Hm1|].
    unfold isUnlinked. cbn [_cap _prev _next lockn n_cap]. by rewrite Hz.
  - eapply Ring_frame; [|done]. intros a Ha. rewrite addrs_dropped in Ha.
    apply lookup_insert_ne. by intros <-.
  - apply lookup_insert_eq.
  - intros a Ha. unfold addrs in *. rewrite fmap_cons, fmap_app in *.
    rewrite lookup_insert_ne by set_solver. by apply Hf1.
Qed.

End traversal.

Section tree.
Context (rng : Z → Z → Range) (Hrngz : ∀ e c, rng e (asZombie c) = rng e c).

Definition nrange (n : node) : Range := rng (n_addr n) (n_cap n).
Definition node_par (x y : node) : bool := childOf (nrange x) (n_cap x) (nrange y) (n_cap y).
Definition node_ok (x y : node) : bool := treeOk (nrange x) (n_cap x) (nrange y) (n_cap y).

#[local] Abbreviation par := node_par.
#[local] Abbreviation ok := node_ok.

Lemma par_trans x y z : par x y = true → par y z = true → par x z = true.
Proof. apply childOf_trans. Qed.

Lemma ok_par x y : par x y = false → ok x y = true.
Proof. apply treeOk_childOf. Qed.

Lemma nrange_zombien x : nrange (zombien x) = nrange x.
Proof using Hrngz. unfold nrange, zombien. cbn. destruct (isUsable (n_cap x)); [apply Hrngz|done]. Qed.

Lemma zombien_flags x :
  isReference (n_cap (zombien x)) = isReference (n_cap x) ∧
  isDerived (n_cap (zombien x)) = isDerived (n_cap x).
Proof.
  unfold zombien. cbn. destruct (isUsable (n_cap x)); [|done].
  by rewrite isReference_asZombie, isDerived_asZombie.
Qed.

Lemma par_zombien_l x y : par (zombien x) y = par x y.
Proof using Hrngz.
  unfold node_par, childOf. rewrite nrange_zombien. by destruct (zombien_flags x) as [-> ->].
Qed.

Lemma par_zombien_r x y : par x (zombien y) = par x y.
Proof using Hrngz.
  unfold node_par, childOf, isDerivedReference. rewrite nrange_zombien.
  by destruct (zombien_flags y) as [-> ->].
Qed.

Lemma ok_zombien_l x y : ok (zombien x) y = ok x y.
Proof using Hrngz.
  unfold node_ok, treeOk, isOriginal. rewrite nrange_zombien. by destruct (zombien_flags x) as [-> ->].
Qed.

Lemma ok_zombien_r x y : ok x (zombien y) = ok x y.
Proof using Hrngz.
  unfold node_ok, treeOk, isDerivedReference. rewrite nrange_zombien.
  by destruct (zombien_flags y) as [-> ->].
Qed.

(** The list [l] behind [x] in a pre-order: the children of [x] come first, and
    a capability the parent test refuses to compare with [x] has a parent in
    between. *)
Definition below (x : node) (l : list node) : Prop :=
  ∀ a y b, l = a ++ y :: b →
    (par x y = true → Forall (λ z, par x z = true) a) ∧
    (ok x y = true ∨ Exists (λ z, par z y = true) a).

Fixpoint preorder (l : list node) : Prop :=
  match l with [] => True | x :: l' => below x l' ∧ preorder l' end.

Lemma below_next x y l : below x (y :: l) → ok x y = true.
Proof. intros Hb. destruct (Hb [] y l eq_refl) as [_ [?|He]]; [done|]. by apply Exists_nil in He. Qed.

Lemma below_one x y : ok x y = true → below x [y].
Proof. intros Hy a z b Heq. destruct a as [|? []]; simplify_eq/=. split; [constructor|by left]. Qed.

Lemma below_two x y z :
  ok x y = true → (par x z = true → par x y = true) → ok x z = true ∨ par y z = true →
  below x [y; z].
Proof.
  intros Hy Hp Hz a u b Heq. destruct a as [|? [|? []]]; simplify_eq/=.
  - split; [constructor|by left].
  - rewrite Forall_singleton, Exists_cons, Exists_nil. naive_solver.
Qed.

(** A node that is not the parent of its successor has no child behind it. *)
Lemma below_leaf x l :
  below x l → (∀ y l', l = y :: l' → par x y = false) → Forall (λ z, par x z = false) l.
Proof.
  intros Hb Hl. apply Forall_forall. intros z (a & b & ->)%list_elem_of_split.
  destruct (Hb a z b eq_refl) as [Hc _]. destruct a as [|y a]; [by eapply Hl|].
  destruct (par x z); [|done]. specialize (Hc eq_refl). apply Forall_cons in Hc as [Hc _].
  by rewrite (Hl y (a ++ z :: b)) in Hc.
Qed.

(** Removing a node without children keeps the pre-order. *)
Lemma below_remove x l1 z l2 :
  below x (l1 ++ z :: l2) → Forall (λ y, par z y = false) l2 → below x (l1 ++ l2).
Proof.
  intros Hb Hz a y b Heq. apply app_eq_inv in Heq as [(k & -> & Hk)|(k & -> & Hk)].
  - destruct k as [|y' k].
    + simpl in Hk. subst l2. rewrite app_nil_r in *.
      destruct (Hb (a ++ [z]) y b) as [H1 H2]; [by rewrite <-app_assoc|]. split.
      * intros Hy. by apply H1, Forall_app in Hy as [? _].
      * destruct H2 as [?|He]; [by left|]. right.
        apply Exists_app in He as [?|He]; [done|]. apply Exists_exists in He as (w & Hw & Hp).
        apply list_elem_of_singleton in Hw as ->. apply Forall_cons in Hz as [Hz _]. by rewrite Hz in Hp.
    + injection Hk as <- ->. apply (Hb a y (k ++ z :: l2)). by rewrite <-app_assoc.
  - subst l2. destruct (Hb (l1 ++ z :: k) y b) as [H1 H2]; [by rewrite <-app_assoc|].
    apply Forall_app in Hz as [_ [Hz _]%Forall_cons]. split.
    + intros Hy. apply H1 in Hy. rewrite Forall_app, Forall_cons in Hy. apply Forall_app. naive_solver.
    + destruct H2 as [?|He]; [by left|]. right. rewrite Exists_app, Exists_cons in He.
      apply Exists_app. rewrite Hz in He. naive_solver.
Qed.

Lemma preorder_zombien x l : preorder (x :: l) → preorder (zombien x :: l).
Proof using Hrngz.
  intros [Hb Hp]. split; [|done]. intros a y b Heq. specialize (Hb a y b Heq).
  rewrite par_zombien_l, ok_zombien_l. setoid_rewrite par_zombien_l. done.
Qed.

Lemma preorder_app l1 l2 : preorder (l1 ++ l2) → preorder l2.
Proof. induction l1 as [|x l1 IH]; simpl; [done|]. intros [_ ?]. by apply IH. Qed.

Lemma preorder_remove l1 z l2 :
  preorder (l1 ++ z :: l2) → (∀ y l', l2 = y :: l' → par z y = false) → preorder (l1 ++ l2).
Proof.
  intros Hp Hl. assert (Forall (λ y, par z y = false) l2) as Hz.
  { apply below_leaf; [|done]. by apply preorder_app in Hp as [? _]. }
  clear Hl. induction l1 as [|x l1 IH]; simpl in *; [by destruct Hp|].
  destruct Hp as [Hb Hp]. split; [by eapply below_remove|by apply IH].
Qed.

(** Nodes the parent test does not tell apart. *)
Definition sim (x x' : node) : Prop :=
  ∀ y, par x' y = par x y ∧ par y x' = par y x ∧ ok x' y = ok x y ∧ ok y x' = ok y x.

Lemma sim_refl x : sim x x.
Proof. done. Qed.

Lemma sim_zombien x : sim x (zombien x).
Proof using Hrngz. intros y. by rewrite par_zombien_l, par_zombien_r, ok_zombien_l, ok_zombien_r. Qed.

Lemma sim_clearf x : sim x (clearf x).
Proof. done. Qed.

Lemma sims_refl l : Forall2 sim l l.
Proof. induction l; by constructor. Qed.

Lemma sims_zombien l : Forall2 sim l (zombien <$> l).
Proof using Hrngz. induction l; simpl; constructor; [apply sim_zombien|done]. Qed.

Lemma sims_clear_first l : Forall2 sim l (clear_first l).
Proof. destruct l; simpl; constructor; [apply sim_clearf|apply sims_refl]. Qed.

Lemma Forall_sims (P : node → Prop) l l' :
  (∀ x x', sim x x' → P x → P x') → Forall2 sim l l' → Forall P l → Forall P l'.
Proof. intros HP. induction 1; [done|]. rewrite !Forall_cons. naive_solver. Qed.

Lemma below_sims x x' l l' : sim x x' → Forall2 sim l l' → below x l → below x' l'.
Proof.
  intros Hx Hl Hb a' y' b' ->. apply Forall2_app_inv_r in Hl as (a & l2 & Ha & Hl & ->).
  apply Forall2_cons_inv_r in Hl as (y & b & Hy & _ & ->).
  destruct (Hb a y b eq_refl) as [H1 H2].
  assert (par x' y' = par x y) as -> by (rewrite (proj1 (Hx y')); apply Hy).
  assert (ok x' y' = ok x y) as ->.
  { destruct (Hx y') as (_ & _ & -> & _). destruct (Hy x) as (_ & _ & _ & ->). done. }
  split.
  - intros Hxy. apply (Forall_impl (λ z, par x z = true)).
    + eapply Forall_sims; [|exact Ha|by apply H1].
      intros z z' Hz Hp. by destruct (Hz x) as (_ & -> & _).
    + intros z Hz. by destruct (Hx z) as [-> _].
  - destruct H2 as [?|He]; [by left|]. right. clear -Ha He Hy. induction Ha as [|z z' a a' Hz Ha IH].
    + by apply Exists_nil in He.
    + apply Exists_cons in He as [Hp|He]; [left|right; by apply IH].
      destruct (Hz y') as [-> _]. by destruct (Hy z) as (_ & -> & _).
Qed.

Lemma preorder_sims l l' : Forall2 sim l l' → preorder l → preorder l'.
Proof.
  induction 1 as [|x x' l l' Hx Hl IH]; simpl; [done|].
  intros [Hb Hp]. split; [by eapply below_sims|by apply IH].
Qed.

End tree.

Section walk.
Context {S : Type} `{HasEntries S} `{KernelObjects S}.
Context (rng : Z → Z → Range) (Hrngz : ∀ e c, rng e (asZombie c) = rng e c).
Context (Hrng : ∀ (s : S) e c, f_ptr c ≠ 0 → addressRange (getPtr c) e c s = Done (rng e c) s).
Implicit Types (m : gmap Z CapEntry) (s : S).

#[local] Abbreviation par := (node_par rng).
#[local] Abbreviation ok := (node_ok rng).
#[local] Abbreviation preorder := (preorder rng).

Lemma isParentOf_node s x y :
  alive x → alive y → ok x y = true →
  isParentOf (n_addr x) (n_cap x) (n_addr y) (n_cap y) s = Done (par x y) s.
Proof using Hrng.
  intros Hx%alive_ptr Hy%alive_ptr Hok.
  erewrite isParentOf_run; [|by apply getPtr_ne0..|by apply Hrng|by apply Hrng].
  unfold node_ok in Hok. unfold nrange in Hok. by rewrite Hok.
Qed.

Lemma findLeaf_step f m s cur y T :
  Ring m (lockn cur :: y :: T) → alive cur → alive y → ok cur y = true →
  _findLockedLeaf (Datatypes.S f) (n_addr cur) (set_entries m s) =
    if par cur y then
      (unlock_prev (n_addr cur);;; kill (n_addr y);;; lock (n_addr y);;;
       _findLockedLeaf f (n_addr y)) (set_entries m s)
    else Done (n_addr cur) (set_entries m s).
Proof using Hrng.
  intros HR Hc Hy Hok.
  destruct (Ring_access m [] (lockn cur) (y :: T) HR)
    as (p & q & _ & _ & Hcq & _ & Hq & Hn & _). simpl in Hq. subst q.
  destruct (Ring_access m [lockn cur] y T HR) as (p' & q' & _ & _ & _ & _ & _ & Hyn & _).
  simpl. rewrite (kbind_run _ _ _ _ _ (cap_run _ s _ _ Hn)). cbn [entry_of _cap].
  erewrite kbind_run.
  2: { unfold next. erewrite kbind_run; [|by apply rd_run].
       erewrite kbind_run; [reflexivity|]. apply kassert_run.
       unfold is_locked. cbn [entry_of _next]. by rewrite pack_bit0. }
  cbn [entry_of _next]. rewrite Link_ptr_pack by (done || apply n_lk_range).
  rewrite (kbind_run _ _ _ _ _ (rd_run _ s _ _ Hyn)). cbn [entry_of _cap].
  rewrite alive_not_allocated by done.
  change (n_cap (lockn cur)) with (n_cap cur).
  rewrite (kbind_run _ _ _ _ _ (isParentOf_node _ _ _ Hc Hy Hok)). by destruct (par cur y).
Qed.

Lemma findLeaf_loop E : ∀ f m s cur Rst v,
  Ring m (lockn cur :: (E ++ Rst) ++ [lockn v]) →
  alive cur → Forall alive E → alive (default v (head Rst)) →
  n_locked cur = false → unlocked E → n_locked v = false →
  preorder (cur :: E) → Forall (λ x, par x (default v (head Rst)) = false) (cur :: E) →
  (length E < f)%nat →
  ∃ C E2 leaf W w m',
    E = C ++ E2 ∧
    _findLockedLeaf f (n_addr cur) (set_entries m s) = Done (n_addr leaf) (set_entries m' s) ∧
    Ring m' (lockn leaf :: (E2 ++ Rst ++ W) ++ [lockn w]) ∧
    W ++ [w; leaf] = v :: cur :: (zombien <$> C) ∧ n_locked w = false ∧
    (∀ y l, E2 = y :: l → par leaf y = false) ∧
    outside (cur :: (E ++ Rst) ++ [v]) m m'.
Proof using Hrng Hrngz.
  induction E as [|y E IH]; intros f m s cur Rst v HR Hc HE Hb Hlc HlE Hlv Hpre Hpar Hf.
  all: destruct f as [|f]; [lia|].
  - exists [], [], cur, [], v, m. apply Forall_cons in Hpar as [Hpar _].
    assert (∃ y T, Rst ++ [lockn v] = y :: T ∧ par cur y = false ∧ alive y) as (y & T & HT & Hy & Hay).
    { destruct Rst as [|r Rst]; [by exists (lockn v), []|by exists r, (Rst ++ [lockn v])]. }
    simpl in HR. pose proof HR as HR'. rewrite HT in HR'.
    rewrite (findLeaf_step f m s cur y T) by (done || by apply ok_par). rewrite Hy.
    rewrite !app_nil_r. by split_and!.
  - simpl in HR. destruct Hpre as [Hbel Hpre].
    apply Forall_cons in HE as [Hay HE]. apply Forall_cons in HlE as [Hly HlE].
    rewrite (findLeaf_step f m s cur y ((E ++ Rst) ++ [lockn v])) by (done || by eapply below_next).
    destruct (par cur y) eqn:Hcy.
    2: { exists [], (y :: E), cur, [], v, m. rewrite app_nil_r. split_and!; try done.
         intros ?? [= -> ->]. done. }
    destruct (descend_step (_findLockedLeaf f (n_addr y)) m s cur (y :: E ++ Rst) v y
      ((E ++ Rst) ++ [v]) HR) as (m1 & -> & HR1 & Hf1); try done.
    rewrite <-(app_assoc E) in HR1.
    assert (default cur (head (Rst ++ [v])) = default v (head Rst)) as Hd by by destruct Rst.
    destruct (IH f m1 s (zombien y) (Rst ++ [v]) cur HR1)
      as (C & E2 & leaf & W & w & m' & -> & Hrun & HR' & HW & Hlw & Hleaf & Hf'); try done.
    + by apply zombien_alive.
    + by rewrite Hd.
    + by apply preorder_zombien.
    + rewrite Hd. apply Forall_cons in Hpar as [_ [Hpy HpE]%Forall_cons].
      apply Forall_cons. by rewrite par_zombien_l.
    + simpl in Hf. lia.
    + exists (y :: C), E2, leaf, (v :: W), w, m'. split_and!; try done.
      * by rewrite <-(app_assoc Rst) in HR'.
      * simpl. by rewrite HW.
      * intros a Ha. rewrite Hf', Hf1; [done|..]; unfold addrs in *; set_unfold; naive_solver.
Qed.

(** The run of descendants ends: the next entry is no child, or the list wraps
    around to the root, which is no child of its descendants. *)
Definition closed (root : node) (D R : list node) : Prop :=
  match R with
  | r :: _ => par root r = false
  | [] => Forall (λ x, par x root = false) D
  end.

Lemma closed_boundary root D R :
  closed root D R → Forall (λ x, par root x = true) D →
  Forall (λ x, par x (default root (head R)) = false) D.
Proof.
  destruct R as [|r R]; simpl; [done|]. intros Hr HD. eapply Forall_impl; [exact HD|].
  intros x Hx. simpl in Hx. destruct (par x r) eqn:Hxr; [|done].
  by rewrite (par_trans rng root x r) in Hr.
Qed.

(** Everything the deletion loop relies on. *)
Record run_ok (root : node) (D R : list node) : Prop := {
  run_alive : Forall alive (root :: D ++ R);
  run_unlocked : unlocked (root :: D ++ R);
  run_children : Forall (λ x, par root x = true) D;
  run_preorder : preorder (root :: D);
  run_closed : closed root D R
}.

(** From the root, the walk passes descendants only and ends on one that has no
    child behind it. *)
Lemma findLeaf_root f m s root d D R L p :
  Ring m (lockn root :: L ++ [lockn p]) → L ++ [p] = d :: D ++ R →
  run_ok root (d :: D) R → (length (d :: D) < f)%nat →
  ∃ C E2 leaf W w m',
    d :: D = C ++ E2 ∧ C ≠ [] ∧
    _findLockedLeaf f (n_addr root) (set_entries m s) = Done (n_addr leaf) (set_entries m' s) ∧
    Ring m' (lockn leaf :: (E2 ++ R ++ W) ++ [lockn w]) ∧
    W ++ [w; leaf] = root :: (zombien <$> C) ∧ n_locked w = false ∧
    (∀ y l, E2 = y :: l → par leaf y = false) ∧
    outside (root :: d :: D ++ R) m m'.
Proof using Hrng Hrngz.
  intros HR HL [Hal Hul Hch Hpre Hcl] Hf.
  pose proof (closed_boundary _ _ _ Hcl Hch) as Hbd.
  apply Forall_cons in Hal as [Hroot [Hd Hal]%Forall_cons].
  apply Forall_cons in Hul as [Hlroot Hul]. pose proof Hul as [Hld HlDR]%Forall_cons.
  apply Forall_app in Hal as [HaD HaR]. apply Forall_app in HlDR as [HlD HlR].
  apply Forall_cons in Hch as [Hrd Hch]. destruct Hpre as [Hbel Hpre].
  assert (n_locked p = false) as Hlp.
  { change (unlocked (d :: D ++ R)) in Hul. rewrite <-HL in Hul. unfold unlocked in Hul.
    rewrite Forall_app, Forall_singleton in Hul. by destruct Hul. }
  destruct f as [|f]; [lia|].
  assert (∃ y T, L ++ [lockn p] = y :: T ∧ n_addr y = n_addr d ∧ n_cap y = n_cap d) as (y & T & HT & Hya & Hyc).
  { destruct L as [|x L]; injection HL as -> ?; [by exists (lockn d), []|by exists d, (L ++ [lockn p])]. }
  assert (par root y = par root d ∧ ok root y = ok root d) as [Hpy Hoy]
    by (unfold node_par, node_ok, nrange; by rewrite Hya, Hyc).
  pose proof HR as HR'. rewrite HT in HR'.
  rewrite (findLeaf_step f m s root y T HR' Hroot); [|by unfold alive; rewrite Hyc|].
  2: { rewrite Hoy. by eapply below_next. }
  rewrite Hpy, Hrd, Hya.
  destruct (descend_step (_findLockedLeaf f (n_addr d)) m s root L p d (D ++ R) HR HL Hlp Hld Hd)
    as (m1 & -> & HR1 & Hf1).
  destruct (findLeaf_loop D f m1 s (zombien d) R root)
    as (C & E2 & leaf & W & w & m' & -> & Hrun & HR2 & HW & Hlw & Hleaf & Hf2); try done.
  - by apply zombien_alive.
  - destruct R as [|r R]; [done|]. by apply Forall_cons in HaR as [? _].
  - by apply preorder_zombien.
  - apply Forall_cons in Hbd as [Hbd1 Hbd2]. apply Forall_cons. by rewrite par_zombien_l.
  - simpl in Hf. lia.
  - exists (d :: C), E2, leaf, W, w, m'. split_and!; try done.
    intros a Ha. rewrite Hf2, Hf1; [done|..]; unfold addrs in *; set_unfold; naive_solver.
Qed.

Lemma run_ok_after root C c E2 R root' D' R' :
  run_ok root (C ++ c :: E2) R → (∀ y l, E2 = y :: l → par c y = false) →
  after root (zombien <$> C) E2 R = (root', D', R') → run_ok root' D' R'.
Proof using Hrngz.
  intros [Hal Hul Hch Hpre Hcl] Hleaf (Hr & -> & HR & _)%after_sims.
  assert (sim rng root root') as Hsr by (destruct Hr as [->| ->]; done).
  assert (Forall2 (sim rng) (C ++ E2) ((zombien <$> C) ++ clear_first E2)) as HsD
    by (apply Forall2_app; [by apply sims_zombien|apply sims_clear_first]).
  assert (Forall2 (sim rng) R R') as HsR
    by (destruct HR as [->| ->]; [apply sims_refl|apply sims_clear_first]).
  assert (∀ P : node → Prop, (∀ x, P x → P (clearf x)) → (∀ x, P x → P (zombien x)) →
    Forall P (root :: (C ++ c :: E2) ++ R) →
    Forall P (root' :: ((zombien <$> C) ++ clear_first E2) ++ R')) as HP.
  { intros P Hc Hz. rewrite !Forall_cons, !Forall_app, Forall_cons, Forall_fmap.
    intros (? & (? & _ & ?) & ?). split_and!.
    - destruct Hr as [->| ->]; auto.
    - eapply Forall_impl; eauto.
    - by apply Forall_clear_first.
    - destruct HR as [->| ->]; [done|]. by apply Forall_clear_first. }
  assert (∀ P : node → Prop, (∀ x x', sim rng x x' → P x → P x') →
    Forall P (C ++ c :: E2) → Forall P ((zombien <$> C) ++ clear_first E2)) as HPs.
  { intros P Hs HF. eapply Forall_sims; [done|exact HsD|].
    rewrite !Forall_app, Forall_cons in *. naive_solver. }
  split.
  - apply HP; [done|apply zombien_alive|done].
  - by apply HP.
  - apply HPs; [|eapply Forall_impl; [exact Hch|]].
    + intros x x' Hx Hp. by destruct (Hx root') as (_ & -> & _).
    + intros x Hx. by destruct (Hsr x) as [-> _].
  - eapply (preorder_sims rng (root :: C ++ E2)); [by constructor|].
    by apply (preorder_remove rng (root :: C) c E2).
  - destruct HsR as [|r r' R R' Hsr']; simpl in *.
    + apply HPs; [|eapply Forall_impl; [exact Hcl|]].
      * intros x x' Hx Hp. by destruct (Hx root') as [-> _].
      * intros x Hx. by destruct (Hsr x) as (_ & -> & _).
    + destruct (Hsr r') as [-> _]. by destruct (Hsr' root) as (_ & -> & _).
Qed.

End walk.

Section deletion.
Context {S : Type} `{HasEntries S} `{KernelObjects S}.
Context (rng : Z → Z → Range) (Hrngz : ∀ e c, rng e (asZombie c) = rng e c).
Context (Hrng : ∀ (s : S) e c, f_ptr c ≠ 0 → addressRange (getPtr c) e c s = Done (rng e c) s).
Context (del : Z → Z → S → S).
Context (Hdel : ∀ m (s : S) e c,
  deleteCap (getPtr c) e c (set_entries m s) = Done (OK tt) (set_entries m (del e c s))).
Implicit Types (m : gmap Z CapEntry) (s : S).

#[local] Abbreviation run_ok := (run_ok rng).

Definition unguarded (g : Z) (l : list node) : Prop := Forall (λ x, getPtr (n_cap x) ≠ g) l.

(** One round of the loop removes one descendant. *)
Lemma delete_round f wf m s g root d D R :
  Ring m (root :: (d :: D) ++ R) → run_ok root (d :: D) R → unguarded g (d :: D) →
  (length (d :: D) < wf)%nat →
  ∃ m' s' root' D' R' x,
    _deleteEntries (Datatypes.S f) wf g (n_addr root) (n_cap root) (set_entries m s) =
      _deleteEntries f wf g (n_addr root) (n_cap root) (set_entries m' s') ∧
    Ring m' (root' :: D' ++ R') ∧ run_ok root' D' R' ∧ unguarded g D' ∧
    addrs (d :: D) ≡ₚ x :: addrs D' ∧ m' !! x = Some (mkEntry asEmpty 0 0) ∧
    (root' = root ∨ root' = clearf root) ∧ (R' = R ∨ R' = clear_first R) ∧
    (R = [] → D' = [] → root' = clearf root) ∧
    outside (root :: (d :: D) ++ R) m m'.
Proof using Hrng Hrngz Hdel.
  intros HR Hrun Hg Hwf. pose proof Hrun as [Hal Hul _ _ _].
  destruct (exists_last (l := d :: D ++ R)) as (L & p & HL); [done|].
  assert (n_locked root = false ∧ n_locked p = false) as [Hlr Hlp].
  { unfold unlocked in Hul. simpl in Hul. rewrite HL, Forall_cons, Forall_app, Forall_singleton in Hul.
    naive_solver. }
  pose proof HR as HR0. simpl in HR0. rewrite HL in HR0.
  destruct (startTraversal_run m s root L p (n_cap root) HR0) as (m1 & E1 & HR1 & Hf1); [done..|].
  destruct (findLeaf_root rng Hrngz Hrng wf m1 s root d D R L p HR1)
    as (C & E2 & leaf & W & w & m2 & HC & HCne & E2' & HR2 & HW & Hlw & Hleaf & Hf2); [done..|].
  destruct (exists_last HCne) as (C0 & c & ->). rewrite fmap_app in HW.
  change (W ++ [w] ++ [leaf] = (root :: (zombien <$> C0)) ++ [zombien c]) in HW.
  rewrite app_assoc in HW. apply app_inj_tail in HW as [HW ->].
  rewrite <-app_assoc in HC. simpl in HC. rewrite HC in *.
  assert (alive c) as Hc.
  { rewrite Forall_cons, !Forall_app, Forall_cons in Hal. naive_solver. }
  pose proof (isZombie_zombien c Hc) as Hz.
  assert (getPtr (n_cap (zombien c)) ≠ g) as Hgc.
  { rewrite getPtr_zombien. unfold unguarded in Hg. rewrite Forall_app, Forall_cons in Hg. naive_solver. }
  assert (n_addr c ≠ n_addr root) as Hcr.
  { destruct HR as [Hnd _]. unfold addrs in Hnd. rewrite fmap_cons, NoDup_cons, !fmap_app in Hnd.
    rewrite fmap_cons in Hnd. set_solver. }
  destruct (Ring_access m2 [] _ _ HR2) as (? & ? & _ & _ & _ & _ & _ & Hlf & _).
  destruct (remove_leaf (_deleteEntries f wf g (n_addr root) (n_cap root)) m2
    (del (n_addr c) (n_cap (zombien c)) s) (zombien c) _ w HR2 Hlw Hz) as (m3 & E3 & HR3 & Hm3 & Hf3).
  destruct (after root (zombien <$> C0) E2 R) as [[root' D'] R'] eqn:Haft.
  exists m3, (del (n_addr c) (n_cap (zombien c)) s), root', D', R', (n_addr c).
  pose proof (after_sims _ _ _ _ _ _ _ Haft) as (Hr & HD & HRs & Hlast). split_and!; try done.
  - cbn [_deleteEntries]. rewrite (kbind_run _ _ _ _ _ E1). cbn [negb].
    rewrite (kbind_run _ _ _ _ _ E2'). change (n_addr (zombien c)) with (n_addr c) in *.
    rewrite (proj2 (Z.eqb_neq _ _) Hcr). cbn [andb].
    rewrite (kbind_run _ _ _ _ _ (cap_run _ s _ _ Hlf)). 
    change (_cap _) with (n_cap (zombien c)).
    rewrite (kbind_run _ _ _ _ _ (kassert_run _ _ Hz)), (proj2 (Z.eqb_neq _ _) Hgc).
    rewrite (kbind_run _ _ _ _ _ (Hdel m2 s (n_addr c) (n_cap (zombien c)))). exact E3.
  - eapply Ring_after; [exact Haft|]. by rewrite <-!app_assoc, HW in HR3.
  - eapply run_ok_after; [done|exact Hrun| |exact Haft].
    intros y l ->. by rewrite <-(par_zombien_l rng Hrngz), (Hleaf y l).
  - subst D'. unfold unguarded in *. rewrite Forall_app, Forall_cons in Hg.
    rewrite Forall_app, Forall_fmap. destruct Hg as (Hg1 & _ & Hg2). split.
    + eapply Forall_impl; [exact Hg1|]. intros y Hy.
      unfold compose. by rewrite getPtr_zombien.
    + by apply Forall_clear_first.
  - subst D'. unfold addrs. rewrite !fmap_app, fmap_cons, addrs_zombien, addrs_clear_first.
    symmetry. apply Permutation_middle.
  - intros -> HD0. apply Hlast; [|done]. subst D'. apply app_eq_nil in HD0 as [_ HE]. by destruct E2.
  - intros a Ha. rewrite Hf3, Hf2, Hf1; [done|..].
    + rewrite <-HL. change (d :: D ++ R) with ((d :: D) ++ R). by rewrite HC.
    + change (d :: D ++ R) with ((d :: D) ++ R). by rewrite HC.
    + rewrite <-!app_assoc, HW. unfold addrs in *. rewrite !fmap_cons, !fmap_app, !fmap_cons in *.
      rewrite addrs_zombien. set_solver.
Qed.

(** All rounds: the descendants are gone, everything else is in place. *)
Lemma delete_descendants wf g : ∀ D f m s root R,
  Ring m (root :: D ++ R) → run_ok root D R → unguarded g D → (length D < wf)%nat →
  ∃ m' s' root' R',
    _deleteEntries (length D + f) wf g (n_addr root) (n_cap root) (set_entries m s) =
      _deleteEntries f wf g (n_addr root) (n_cap root) (set_entries m' s') ∧
    Ring m' (root' :: R') ∧ run_ok root' [] R' ∧
    (root' = root ∨ root' = clearf root) ∧ (R' = R ∨ R' = clear_first R) ∧
    (R = [] → D ≠ [] → root' = clearf root) ∧
    Forall (λ a, m' !! a = Some (mkEntry asEmpty 0 0)) (addrs D) ∧
    outside (root :: D ++ R) m m'.
Proof using Hrng Hrngz Hdel.
  intros D. remember (length D) as k eqn:Hk. revert D Hk.
  induction k as [|k IH]; intros D Hk f m s root R HR Hrun Hg Hwf.
  { destruct D; [|done]. exists m, s, root, R. split_and!; try done; by (left || constructor). }
  destruct D as [|d D]; [done|].
  destruct (delete_round (k + f) wf m s g root d D R HR Hrun Hg)
    as (m1 & s1 & root1 & D1 & R1 & x & E1 & HR1 & Hrun1 & Hg1 & Hperm & Hx & Hroot1 & HR1' & Hl1 & Hf1);
    [simpl in *; lia|].
  assert (k = length D1) as Hk1.
  { apply Permutation_length in Hperm. unfold addrs in Hperm. simpl in Hperm.
    rewrite !length_fmap in Hperm. simpl in Hk. lia. }
  assert (n_addr root1 = n_addr root ∧ n_cap root1 = n_cap root) as [Ha Hc]
    by (destruct Hroot1 as [->| ->]; done).
  destruct (IH D1 Hk1 f m1 s1 root1 R1 HR1 Hrun1 Hg1)
    as (m' & s' & root' & R' & E & HR' & Hrun' & Hroot' & HRR & Hl & Hdone & Hf); [lia|].
  rewrite Ha, Hc in E.
  assert (addrs (root :: (d :: D) ++ R) ≡ₚ x :: addrs (root1 :: D1 ++ R1)) as Hall.
  { unfold addrs in *. rewrite !fmap_cons, !fmap_app, Hperm, Ha.
    replace (n_addr <$> R1) with (n_addr <$> R) by (destruct HR1' as [->| ->]; [done|by destruct R]).
    simpl. apply Permutation_swap. }
  exists m', s', root', R'. split_and!; try done.
  - by rewrite <-E.
  - destruct Hroot1 as [->| ->], Hroot' as [->| ->]; by auto.
  - destruct HR1' as [->| ->], HRR as [->| ->]; auto. right. by destruct R.
  - intros -> _. destruct HR1' as [->| ->].
    all: destruct D1 as [|d1 D1]; [|destruct Hroot1 as [->| ->]; by rewrite Hl].
    all: destruct Hroot' as [->| ->]; by rewrite Hl1.
  - assert (x ∉ addrs (root1 :: D1 ++ R1)) as Hxn.
    { destruct HR as [Hnd _]. rewrite Hall in Hnd. by apply NoDup_cons in Hnd as [? _]. }
    rewrite Hperm. apply Forall_cons. split; [|done]. by rewrite Hf.
  - intros a Han. rewrite Hf, Hf1; [done|done|]. rewrite Hall in Han. set_solver.
Qed.

Lemma kept_addrs root root' R R' :
  root' = root ∨ root' = clearf root → R' = R ∨ R' = clear_first R →
  addrs (root' :: R') = addrs (root :: R).
Proof. intros [->| ->] [->| ->]; try done; by destruct R. Qed.

(** What later rounds leave alone. *)
Lemma deleted_stay m m1 m2 root D R root1 R1 :
  Ring m (root :: D ++ R) →
  root1 = root ∨ root1 = clearf root → R1 = R ∨ R1 = clear_first R →
  outside (root1 :: R1) m1 m2 →
  Forall (λ a, m1 !! a = Some (mkEntry asEmpty 0 0)) (addrs D) →
  Forall (λ a, m2 !! a = Some (mkEntry asEmpty 0 0)) (addrs D).
Proof.
  intros [Hnd _] Hr HR Hout Hdone. rewrite Forall_forall in Hdone |- *. intros a Ha.
  rewrite Hout; [by apply Hdone|]. rewrite (kept_addrs root root1 R R1) by done.
  clear -Hnd Ha. unfold addrs in *. rewrite fmap_cons, fmap_app, NoDup_cons, NoDup_app in Hnd.
  rewrite fmap_cons. set_solver.
Qed.

Lemma outside_twice m m1 m2 root D R root1 R1 :
  root1 = root ∨ root1 = clearf root → R1 = R ∨ R1 = clear_first R →
  outside (root :: D ++ R) m m1 → outside (root1 :: R1) m1 m2 → outside (root :: D ++ R) m m2.
Proof.
  intros Hr HR H1 H2 a Ha. rewrite H2, H1; [done|done|].
  rewrite (kept_addrs root root1 R R1) by done. clear -Ha. unfold addrs in *.
  rewrite fmap_cons, fmap_app in Ha. rewrite fmap_cons. set_solver.
Qed.

(** Without descendants the walk stays at the root. *)
Lemma findLeaf_here wf m s root L p :
  Ring m (lockn root :: L ++ [lockn p]) → alive root → Forall alive (L ++ [p]) →
  closed rng root [] (L ++ [p]) → (0 < wf)%nat →
  _findLockedLeaf wf (n_addr root) (set_entries m s) = Done (n_addr root) (set_entries m s).
Proof using Hrng.
  intros HR Har HaR Hcl Hwf. destruct wf as [|wf]; [lia|].
  assert (∃ y T, L ++ [lockn p] = y :: T ∧ node_par rng root y = false ∧ alive y)
    as (y & T & HT & Hy & Hay).
  { destruct L as [|x L]; simpl in *; apply Forall_cons in HaR as [? _];
      [by exists (lockn p), []|by exists x, (L ++ [lockn p])]. }
  rewrite HT in HR. rewrite (findLeaf_step rng Hrng wf m s root y T) by (done || by apply ok_par).
  by rewrite Hy.
Qed.

(** The last round of a revocation keeps the root and clears its pin. *)
Lemma revoke_last f wf m s g root R :
  Ring m (root :: R) → run_ok root [] R → isUsable (n_cap root) = true → (0 < wf)%nat →
  ∃ m' root', _deleteEntries (Datatypes.S f) wf g (n_addr root) (n_cap root) (set_entries m s) =
                Done (OK tt) (set_entries m' s) ∧
              Ring m' (root' :: R) ∧ (R = [] ∧ root' = root ∨ root' = revokingn false root) ∧
              outside (root :: R) m m'.
Proof using Hrng Hrngz Hdel.
  intros HR [Hal Hul _ _ Hcl] Hu Hwf. unfold unlocked in Hul. rewrite app_nil_l in Hal, Hul.
  apply Forall_cons in Hal as [Har HaR].
  apply Forall_cons in Hul as [Hlr HlR]. destruct (decide (R = [])) as [->|HRne].
  { destruct (startTraversal_single m s root (n_cap root) HR Hlr) as (m1 & E1 & HR1 & Hf1).
    exists m1, root. split_and!; [|done|by left|done].
    cbn [_deleteEntries]. by rewrite (kbind_run _ _ _ _ _ E1). }
  destruct (exists_last HRne) as (L & p & ->).
  assert (n_locked p = false) as Hlp
    by (rewrite Forall_app, Forall_singleton in HlR; by destruct HlR).
  destruct (startTraversal_run m s root L p (n_cap root) HR Hlr Hlp eq_refl) as (m1 & E1 & HR1 & Hf1).
  pose proof (findLeaf_here wf m1 s root L p HR1 Har HaR Hcl Hwf) as E2.
  destruct (finishRevoke_step m1 s [] _ _ HR1) as (m2 & E3 & HR2 & Hf2).
  destruct (unlock_step m2 s [] _ _ HR2 eq_refl) as (m3 & E4 & HR3 & Hf3).
  destruct (unlock_prev_step m3 s _ L _ HR3 eq_refl) as (m4 & E5 & HR4 & Hf4).
  exists m4, (revokingn false root). split_and!; [| |by right|].
  - cbn [_deleteEntries]. rewrite (kbind_run _ _ _ _ _ E1). cbn [negb].
    rewrite (kbind_run _ _ _ _ _ E2), Z.eqb_refl.
    replace (isZombie (n_cap root)) with false.
    2: { unfold isUsable, isZombie in *. apply andb_prop in Hu as [_ ->%negb_true_iff].
         by rewrite andb_false_r. }
    cbn [negb andb]. rewrite (kbind_run _ _ _ _ _ E3), (kbind_run _ _ _ _ _ E4).
    by rewrite (kbind_run _ _ _ _ _ E5).
  - rewrite (unlockn_lockn p) in HR4 by done.
    replace (revokingn false root) with (unlockn (revokingn false (lockn root))); [done|].
    unfold unlockn, revokingn, lockn. cbn. by rewrite Hlr.
  - intros a Ha. unfold addrs in Ha. rewrite fmap_cons, fmap_app in Ha.
    rewrite Hf4, Hf3, Hf2, Hf1; [done|..]; unfold addrs; rewrite ?fmap_cons, ?fmap_app; set_solver.
Qed.

(** The last round of a deletion removes the root as well. *)
Lemma delete_last f wf m s g root R :
  Ring m (root :: R) → run_ok root [] R → R ≠ [] → isZombie (n_cap root) = true →
  getPtr (n_cap root) ≠ g → (0 < wf)%nat →
  ∃ m' s', _deleteEntries (Datatypes.S f) wf g (n_addr root) (n_cap root) (set_entries m s) =
             Done (OK tt) (set_entries m' s') ∧
           Ring m' (clear_first R) ∧ m' !! n_addr root = Some (mkEntry asEmpty 0 0) ∧
           outside (root :: R) m m'.
Proof using Hrng Hdel.
  intros HR [Hal Hul _ _ Hcl] HRne Hz Hg Hwf. unfold unlocked in Hul. rewrite app_nil_l in Hal, Hul.
  apply Forall_cons in Hal as [Har HaR]. apply Forall_cons in Hul as [Hlr HlR].
  destruct (exists_last HRne) as (L & p & ->).
  assert (n_locked p = false) as Hlp
    by (rewrite Forall_app, Forall_singleton in HlR; by destruct HlR).
  destruct (startTraversal_run m s root L p (n_cap root) HR Hlr Hlp eq_refl) as (m1 & E1 & HR1 & Hf1).
  pose proof (findLeaf_here wf m1 s root L p HR1 Har HaR Hcl Hwf) as E2.
  destruct (Ring_access m1 [] _ _ HR1) as (? & ? & _ & _ & _ & _ & _ & Hrt & _).
  destruct (remove_leaf (kret (OK tt)) m1 (del (n_addr root) (n_cap root) s) root L p HR1 Hlp Hz)
    as (m2 & E3 & HR2 & Hm2 & Hf2).
  exists m2, (del (n_addr root) (n_cap root) s). split_and!; [|done..|].
  - cbn [_deleteEntries]. rewrite (kbind_run _ _ _ _ _ E1). cbn [negb].
    rewrite (kbind_run _ _ _ _ _ E2), Z.eqb_refl, Hz. cbn [negb andb].
    rewrite (kbind_run _ _ _ _ _ (cap_run _ s _ _ Hrt)). change (_cap _) with (n_cap root).
    rewrite (kbind_run _ _ _ _ _ (kassert_run _ _ Hz)), (proj2 (Z.eqb_neq _ _) Hg).
    by rewrite (kbind_run _ _ _ _ _ (Hdel m1 s (n_addr root) (n_cap root))).
  - intros a Ha. by rewrite Hf2, Hf1.
Qed.



End deletion.

(** ** Witnesses

    An original capability with a derived capability and a derived reference
    below it, followed by the capability of another object. *)

#[local] Instance wobjects : KernelObjects (gmap Z CapEntry) := {|
  addressRange := default_addressRange; mint := default_mint; deleteCap := λ _ _ _, kret (OK tt) |}.

Definition wrng (e c : Z) : Range := bySize (fromKernel (getPtr c)) 1.
Definition wroot (c : Z) : node := fresh (wa 0) c.
Definition wdesc : list node :=
  [fresh (wa 1) (asDerived wcap); fresh (wa 2) (asReference (asDerived wcap))].
Definition wrest : list node := [fresh (wa 3) (mkCap (KERNELMEM_ADDR + 0x3000) 0 NOFLAG)].
Definition wlist (c : Z) : gmap Z CapEntry := store_of (wroot c :: wdesc ++ wrest).

Lemma getPtr_kernel c : f_ptr c ≠ 0 → isKernelAddress (getPtr c) = true.
Proof.
  intros Hp. unfold getPtr. rewrite (proj2 (Z.eqb_neq _ _) Hp).
  pose proof (wrap_fits 32 (Z.shiftl (f_ptr c) 3) ltac:(lia)) as Hf.
  rewrite offset2kernel_eq by done. apply isKernelAddress_spec.
  destruct Hf. unfold KERNELMEM_SIZE. lia.
Qed.

Lemma wrng_range (s : gmap Z CapEntry) e c :
  f_ptr c ≠ 0 → addressRange (getPtr c) e c s = Done (wrng e c) s.
Proof. intros Hp. cbn. unfold default_addressRange, kbind, kassert. by rewrite getPtr_kernel. Qed.

Lemma wrng_zombie e c : wrng e (asZombie c) = wrng e c.
Proof. unfold wrng, asZombie. by rewrite getPtr_bset. Qed.

Lemma wrun_ok c : c = wcap ∨ c = asZombie wcap → run_ok wrng (wroot c) wdesc wrest.
Proof.
  intros Hc. split.
  - repeat (apply Forall_cons; split; [destruct Hc as [->| ->]; unfold alive; vm_compute; tauto|]).
    constructor.
  - by repeat constructor.
  - repeat (apply Forall_cons; split; [destruct Hc as [->| ->]; vm_compute; reflexivity|]). constructor.
  - split; [|split; [|split; [intros [] ?? [=]|done]]].
    + apply below_two; [|intros _|right]; destruct Hc as [->| ->]; vm_compute; reflexivity.
    + apply below_one. vm_compute. reflexivity.
  - destruct Hc as [->| ->]; vm_compute; reflexivity.
Qed.


