(* ===== verification/Heap.v ===== *)
(** * The first-fit heap

    Models util/first-fit-heap-intrusive/util/FirstFitHeap.hh, the free list
    that kernel memory objects and the boot code allocate from.  The list
    descriptors live at the start of the free ranges they describe, so a
    descriptor is its address and its length, and the chain of [next] pointers
    is the list. *)

From stdpp Require Import base tactics numbers list relations.
From Stdlib Require Import ZArith Lia.
From S2P Require Import Prelude Ranges.

Local Open Scope Z_scope.

Module FirstFitHeap.
Import Align.

(** [FirstFitHeap::heapAlign], util/first-fit-heap-intrusive/util/FirstFitHeap.hh:38-43 *)
Definition heapAlign : Z := alignLine.

(** [FirstFitHeap::Range], util/first-fit-heap-intrusive/util/FirstFitHeap.hh:74-79 *)
Record FreeRange := mkFree { start : Z; length : Z }.

(** [FirstFitHeap::Range::start], util/first-fit-heap-intrusive/util/FirstFitHeap.hh:80 *)
Definition start_aligned (r : FreeRange) (alignment : Z) : Z := round_up (start r) alignment.

(** [FirstFitHeap::Range::offset], util/first-fit-heap-intrusive/util/FirstFitHeap.hh:81 *)
Definition offset (r : FreeRange) (alignment : Z) : Z :=
  u64 (start_aligned r alignment - start r).

(** [FirstFitHeap::Range::aligned_length], util/first-fit-heap-intrusive/util/FirstFitHeap.hh:83-87 *)
Definition aligned_length (r : FreeRange) (alignment : Z) : Z :=
  if offset r alignment <? length r then u64 (length r - offset r alignment) else 0.

(** [FirstFitHeap::Range::fit], util/first-fit-heap-intrusive/util/FirstFitHeap.hh:89-91 *)
Definition fit (r : FreeRange) (size alignment : Z) : bool := size <=? aligned_length r alignment.

(** The search of [FirstFitHeap::salloc]: the address and the new free list,
    util/first-fit-heap-intrusive/util/FirstFitHeap.hh:113-147 *)
Fixpoint salloc_loop (size alignment : Z) (l : list FreeRange)
    : optional (Z * list FreeRange) :=
  match l with
  | [] => THROW UNSET
  | r :: next =>
    if fit r size alignment then
      let '(pre, r) :=
        if negb (is_aligned (start r) alignment) then
          ([mkFree (start r) (offset r alignment)],
           mkFree (start_aligned r alignment) (aligned_length r alignment))
        else ([], r) in
      let next :=
        if size <? length r then mkFree (u64 (start r + size)) (u64 (length r - size)) :: next
        else next in
      OK (start r, pre ++ next)
    else
      match salloc_loop size alignment next with
      | OK (a, next') => OK (a, r :: next')
      | THROW e => THROW e
      end
  end.

(** [FirstFitHeap::salloc], [None] when an assertion fails,
    util/first-fit-heap-intrusive/util/FirstFitHeap.hh:108-147 *)
Definition salloc (size alignment : Z) (l : list FreeRange)
    : option (optional (Z * list FreeRange)) :=
  if is_aligned size heapAlign && is_aligned alignment heapAlign
  then Some (salloc_loop size alignment l) else None.

(** the loop of [FirstFitHeap::sfree], [None] when an assertion fails,
    util/first-fit-heap-intrusive/util/FirstFitHeap.hh:154-194 *)
Fixpoint sfree_loop (s len : Z) (l : list FreeRange) : option (list FreeRange) :=
  match l with
  | [] => Some [mkFree s len]
  | r :: next =>
    if start r =? u64 (s + len) then Some (mkFree s (u64 (len + length r)) :: next)
    else if u64 (start r + length r) =? s then
      let r := mkFree (start r) (u64 (length r + len)) in
      match next with
      | n :: next' =>
        if u64 (start r + length r) =? start n
        then Some (mkFree (start r) (u64 (length r + length n)) :: next')
        else Some (r :: next)
      | [] => Some [r]
      end
    else if s <? start r then Some (mkFree s len :: r :: next)
    else if u64 (start r + length r) <? s then cons r <$> sfree_loop s len next
    else None
  end.

(** [FirstFitHeap::sfree], util/first-fit-heap-intrusive/util/FirstFitHeap.hh:149-194 *)
Definition sfree (s len : Z) (l : list FreeRange) : option (list FreeRange) :=
  if is_aligned s heapAlign && is_aligned len heapAlign then sfree_loop s len l else None.

(** [FirstFitHeap::alloc], util/first-fit-heap-intrusive/util/FirstFitHeap.hh:50-57 *)
Definition alloc (length alignment : Z) (l : list FreeRange)
    : option (optional (Z * list FreeRange)) := salloc (round_up length heapAlign) alignment l.

(** [FirstFitHeap::free], util/first-fit-heap-intrusive/util/FirstFitHeap.hh:59-63 *)
Definition free (s length : Z) (l : list FreeRange) : option (list FreeRange) :=
  sfree s (round_up length heapAlign) l.

(** [FirstFitHeap::addRange], util/first-fit-heap-intrusive/util/FirstFitHeap.hh:65-70 *)
Definition addRange (s length : Z) (l : list FreeRange) : option (list FreeRange) :=
  sfree (round_up s heapAlign) (round_down length heapAlign) l.

(** ** The invariant and what the list stands for *)

(** Aligned, non-empty ranges in ascending order with gaps in between, none of
    them at the null address or at the end of the address space. *)
Fixpoint heap_ok (lo : Z) (l : list FreeRange) : Prop :=
  match l with
  | [] => True
  | r :: next =>
    lo < start r ∧ 0 < length r ∧ start r + length r < 2 ^ 64 ∧
    is_aligned (start r) heapAlign = true ∧ is_aligned (length r) heapAlign = true ∧
    heap_ok (start r + length r) next
  end.

Definition inr (r : FreeRange) (p : Z) : Prop := start r ≤ p < start r + length r.
Definition free_at (l : list FreeRange) (p : Z) : Prop := Exists (λ r, inr r p) l.

Lemma heap_ok_weaken lo lo' l : lo' ≤ lo → heap_ok lo l → heap_ok lo' l.
Proof. destruct l; simpl; [done|]. intuition lia. Qed.

Lemma free_at_above lo l p : heap_ok lo l → free_at l p → lo < p.
Proof.
  revert lo. induction l as [|r l IH]; intros lo; simpl.
  - intros _ Hp. by apply Exists_nil in Hp.
  - intros (? & ? & ? & _ & _ & Hl) [[? _]|Hp]%Exists_cons; [lia|].
    pose proof (IH _ Hl Hp). lia.
Qed.

Lemma free_at_cons r l p : free_at (r :: l) p ↔ inr r p ∨ free_at l p.
Proof. apply Exists_cons. Qed.

Lemma free_at_nil p : free_at [] p ↔ False.
Proof. apply Exists_nil. Qed.

Lemma heap_ok_starts lo l : heap_ok lo l → Forall (λ r, free_at l (start r)) l.
Proof.
  revert lo. induction l as [|r l IH]; intros lo; [done|]. intros (_ & Hl & _ & _ & _ & Hn).
  apply Forall_cons. split; [apply free_at_cons; left; unfold inr; lia|].
  eapply Forall_impl; [by eapply IH|]. intros r' Hr'. apply free_at_cons. by right.
Qed.

Lemma free_at_app l1 l2 p : free_at (l1 ++ l2) p ↔ free_at l1 p ∨ free_at l2 p.
Proof. apply Exists_app. Qed.

(** ** Allocation *)

Section salloc.
Context (size al : Z).
Context (Hsize : 0 < size) (Hal : 0 < al).
Context (Hsa : is_aligned size heapAlign = true) (Haa : is_aligned al heapAlign = true).

(** The aligned part of a range. *)
Lemma fit_spec r :
  0 < start r → 0 < length r → start r + length r < 2 ^ 64 → start r + al - 1 < 2 ^ 64 →
  is_aligned (start_aligned r al) al = true ∧
  start r ≤ start_aligned r al ∧ start_aligned r al < start r + al ∧
  offset r al = start_aligned r al - start r ∧
  (fit r size al = true ↔ start_aligned r al + size ≤ start r + length r) ∧
  (fit r size al = true → aligned_length r al = start r + length r - start_aligned r al).
Proof using Hsize Hal.
  intros Hs Hl He Hov. unfold start_aligned.
  destruct (round_up_bounds (start r) al) as (Ha & Hb & Hf); [done|split; lia|done|].
  assert (offset r al = start_aligned r al - start r) as Ho.
  { unfold offset, start_aligned. apply wrap_small. destruct Hf. split; lia. }
  unfold start_aligned in Ho. split_and!; [done|lia|lia|done|..].
  - unfold fit, aligned_length. rewrite Ho. destruct (Z.ltb_spec (round_up (start r) al - start r) (length r)).
    + rewrite wrap_small by (split; lia). rewrite Z.leb_le. lia.
    + rewrite Z.leb_le. lia.
  - unfold fit, aligned_length. rewrite Ho. destruct (Z.ltb_spec (round_up (start r) al - start r) (length r)).
    + rewrite wrap_small by (split; lia). lia.
    + rewrite Z.leb_le. lia.
Qed.

(** Taking the aligned block out of the first range that fits. *)
Lemma carve_spec r next lo :
  0 ≤ lo → heap_ok lo (r :: next) → start r + al - 1 < 2 ^ 64 → fit r size al = true →
  ∃ l', salloc_loop size al (r :: next) = OK (start_aligned r al, l') ∧ heap_ok lo l' ∧
    ∀ p, free_at l' p ↔
      (start r ≤ p < start_aligned r al ∨
       start_aligned r al + size ≤ p < start r + length r) ∨ free_at next p.
Proof using Hsize Hal Hsa Haa.
  intros Hlo (Hs & Hl & He & Hsal & Hlal & Hnext) Hov Hfit.
  destruct (fit_spec r) as (HA & HA1 & HA2 & Hoff & Hf & Hlen); [lia..|].
  assert (0 < heapAlign) as HH by done.
  assert (is_aligned (start_aligned r al) heapAlign = true) as HAh
    by (by apply (is_aligned_trans _ _ al)).
  assert (is_aligned (start r + length r) heapAlign = true) as HEh by (by apply is_aligned_add).
  pose proof (proj1 Hf Hfit) as Hin. specialize (Hlen Hfit). simpl. rewrite Hfit.
  set (A := start_aligned r al) in *. set (E := start r + length r) in *.
  assert (∃ pre, (if negb (is_aligned (start r) al) then ([mkFree (start r) (offset r al)],
      mkFree A (aligned_length r al)) else ([], r)) = (pre, mkFree A (E - A)) ∧
      (pre = [] ∧ A = start r ∨ pre = [mkFree (start r) (A - start r)] ∧ start r < A)) as (pre & -> & Hpre).
  { destruct (is_aligned (start r) al) eqn:Hra; simpl.
    - exists []. assert (A = start r) as -> by (apply round_up_aligned; try done; split; lia).
      split; [|by left]. f_equal. destruct r. unfold E. simpl. f_equal. lia.
    - exists [mkFree (start r) (A - start r)]. rewrite Hoff, Hlen. split; [done|]. right. split; [done|].
      destruct (decide (A = start r)) as [Heq|]; [|lia]. rewrite <-Heq, HA in Hra. done. }
  simpl. set (post := if size <? E - A then mkFree (u64 (A + size)) (u64 (E - A - size)) :: next else next).
  assert (heap_ok A post ∧ ∀ p, free_at post p ↔ A + size ≤ p < E ∨ free_at next p) as [Hpost Hpf].
  { subst post. destruct (Z.ltb_spec size (E - A)).
    - rewrite !wrap_small by (split; lia). split.
      + simpl. split_and!; try lia; [by apply is_aligned_add|..].
        * replace (E - A - size) with (E - (A + size)) by lia.
          apply is_aligned_sub; [done|done|by apply is_aligned_add].
        * by replace (A + size + (E - A - size)) with E by lia.
      + intros p. rewrite free_at_cons. unfold inr. simpl.
        replace (A + size + (E - A - size)) with E by lia. done.
    - split; [by eapply heap_ok_weaken; [|exact Hnext]; lia|]. intros p. intuition lia. }
  exists (pre ++ post). split; [done|]. destruct Hpre as [[-> HAs]|[-> HAs]]; simpl.
  - split; [by eapply heap_ok_weaken; [|exact Hpost]; lia|]. intros p. rewrite Hpf. intuition lia.
  - replace (start r + (A - start r)) with A by lia. split_and!; try done; try lia.
    + by apply is_aligned_sub.
    + intros p. rewrite free_at_cons, Hpf. unfold inr. simpl.
      replace (start r + (A - start r)) with A by lia. tauto.
Qed.

Lemma salloc_loop_spec l : ∀ lo,
  0 ≤ lo → heap_ok lo l → Forall (λ r, start r + al - 1 < 2 ^ 64) l →
  match salloc_loop size al l with
  | OK (a, l') =>
    is_aligned a al = true ∧ lo < a ∧ (∀ p, a ≤ p < a + size → free_at l p) ∧
    heap_ok lo l' ∧ ∀ p, free_at l' p ↔ free_at l p ∧ ¬ (a ≤ p < a + size)
  | THROW e => e = UNSET ∧
    Forall (λ r, ∀ a, is_aligned a al = true → start r ≤ a → start r + length r < a + size) l
  end.
Proof using Hsize Hal Hsa Haa.
  induction l as [|r l IH]; intros lo Hlo Hok Hov; [by split|].
  apply Forall_cons in Hov as [Hovr Hov]. pose proof Hok as (Hs & Hl & He & Hsal & Hlal & Hnext).
  destruct (fit_spec r) as (HA & HA1 & HA2 & _ & Hf & _); [lia..|].
  destruct (fit r size al) eqn:Hfit.
  - destruct (carve_spec r l lo Hlo Hok Hovr Hfit) as (l' & -> & Hok' & Hfree).
    pose proof (proj1 Hf eq_refl) as Hin. split_and!; try done; [lia|..].
    + intros p Hp. apply free_at_cons. left. unfold inr. lia.
    + intros p. rewrite Hfree, free_at_cons. unfold inr.
      split; [|intuition lia]. intros [?|Hp]; [intuition lia|].
      pose proof (free_at_above _ _ _ Hnext Hp). intuition lia.
  - simpl. rewrite Hfit. specialize (IH (start r + length r) ltac:(lia) Hnext Hov).
    destruct (salloc_loop size al l) as [[a l']|e].
    + destruct IH as (Ha & Hla & Hin & Hok' & Hfree). split_and!; try done; [lia|..].
      * intros p Hp. apply free_at_cons. right. by apply Hin.
      * intros p. rewrite !free_at_cons, Hfree. unfold inr. intuition lia.
    + destruct IH as [-> IH]. split; [done|]. apply Forall_cons. split; [|done].
      intros a Haal Hsa'. assert (start_aligned r al ≤ a) by (apply round_up_least; try done; split; lia).
      destruct (decide (start_aligned r al + size ≤ start r + length r)) as [Hle|]; [|lia].
      by apply Hf in Hle.
Qed.

End salloc.

(** First-fit allocation is sound and complete: from a well-formed free list
    it either returns a block with the requested alignment that was entirely
    free, and the new list is well formed and stands for exactly the free
    addresses without the block; or it fails with [UNSET], and then no free
    range holds an aligned block of that size. *)
Theorem salloc_correct size al l :
  0 < size → 0 < al → is_aligned size heapAlign = true → is_aligned al heapAlign = true →
  heap_ok 0 l → Forall (λ r, start r + al - 1 < 2 ^ 64) l →
  match salloc size al l with
  | Some (OK (a, l')) =>
    is_aligned a al = true ∧ 0 < a ∧ (∀ p, a ≤ p < a + size → free_at l p) ∧
    heap_ok 0 l' ∧ ∀ p, free_at l' p ↔ free_at l p ∧ ¬ (a ≤ p < a + size)
  | Some (THROW e) => e = UNSET ∧
    Forall (λ r, ∀ a, is_aligned a al = true → start r ≤ a → start r + length r < a + size) l
  | None => False
  end.
Proof.
  intros Hs Ha Hsa Haa Hok Hov. unfold salloc. rewrite Hsa, Haa. cbn [andb].
  by apply (salloc_loop_spec size al Hs Ha Hsa Haa l 0).
Qed.

(** ** Freeing *)

(** Growing a range at its end, and merging it with the next one. *)
Lemma sfree_append r l lo s len :
  heap_ok lo (r :: l) → start r + length r = s → 0 < len → s + len < 2 ^ 64 → 0 ≤ lo →
  is_aligned len heapAlign = true → (∀ p, s ≤ p < s + len → ¬ free_at (r :: l) p) →
  ∃ l', (let r := mkFree (start r) (length r + len) in
         match l with
         | n :: next' =>
           if u64 (start r + length r) =? start n
           then Some (mkFree (start r) (u64 (length r + length n)) :: next')
           else Some (r :: l)
         | [] => Some [r]
         end) = Some l' ∧ heap_ok lo l' ∧
        ∀ p, free_at l' p ↔ free_at (r :: l) p ∨ s ≤ p < s + len.
Proof.
  intros (Hs & Hl & Her & Hsal & Hlal & Hnext) Heq Hlen He Hlo Hla Hdis. simpl.
  assert (is_aligned (length r + len) heapAlign = true) as Hal by (by apply is_aligned_add).
  destruct l as [|n l].
  { eexists. split; [done|]. split; [simpl; split_and!; try done; lia|].
    intros p. rewrite !free_at_cons, !free_at_nil. unfold inr. simpl. intuition lia. }
  pose proof Hnext as (Hns & Hnl & Hne & Hnsal & Hnlal & Hnn).
  rewrite (wrap_small 64 (start r + _)) by (split; lia).
  assert (s + len ≤ start n) as Hsep.
  { destruct (decide (s + len ≤ start n)); [done|]. exfalso.
    apply (Hdis (start n)); [lia|]. rewrite !free_at_cons. right. left. unfold inr. lia. }
  destruct (Z.eqb_spec (start r + (length r + len)) (start n)) as [Hm|].
  - rewrite wrap_small by (split; lia). eexists. split; [done|]. split.
    + simpl. replace (start r + (length r + len + length n)) with (start n + length n) by lia.
      split_and!; try done; try lia. by apply is_aligned_add.
    + intros p. rewrite !free_at_cons. unfold inr. simpl. intuition lia.
  - eexists. split; [done|]. split.
    + simpl. split_and!; try done; lia.
    + intros p. rewrite !free_at_cons. unfold inr. simpl. intuition lia.
Qed.

Lemma sfree_loop_spec s len l : ∀ lo,
  0 ≤ lo < s → 0 < len → s + len < 2 ^ 64 →
  is_aligned s heapAlign = true → is_aligned len heapAlign = true →
  heap_ok lo l → (∀ p, s ≤ p < s + len → ¬ free_at l p) →
  ∃ l', sfree_loop s len l = Some l' ∧ heap_ok lo l' ∧
        ∀ p, free_at l' p ↔ free_at l p ∨ s ≤ p < s + len.
Proof.
  induction l as [|r l IH]; intros lo Hlo Hlen He Hsa Hla Hok Hdis.
  { exists [mkFree s len]. simpl. split_and!; try done; [lia..|].
    intros p. rewrite free_at_cons, !free_at_nil. unfold inr. simpl. tauto. }
  pose proof Hok as (Hs & Hl & Her & Hsal & Hlal & Hnext). simpl.
  assert (start r + length r ≤ s ∨ s + len ≤ start r) as Hd.
  { destruct (decide (start r + length r ≤ s)); [by left|]. right.
    destruct (decide (s + len ≤ start r)); [done|].
    exfalso. apply (Hdis (Z.max s (start r))); [lia|]. apply free_at_cons. left. unfold inr. lia. }
  rewrite !(wrap_small 64 (s + len)), !(wrap_small 64 (start r + length r)) by (split; lia).
  destruct (Z.eqb_spec (start r) (s + len)) as [Heq|].
  { rewrite wrap_small by (split; lia). eexists. split; [done|]. split.
    - simpl. replace (s + (len + length r)) with (start r + length r) by lia.
      split_and!; try done; try lia. by apply is_aligned_add.
    - intros p. rewrite !free_at_cons. unfold inr. simpl. intuition lia. }
  destruct (Z.eqb_spec (start r + length r) s) as [Heq|].
  { rewrite (wrap_small 64 (length r + len)) by (split; lia). eapply sfree_append; done || lia. }
  destruct (Z.ltb_spec s (start r)).
  { eexists. split; [done|]. split.
    - simpl. split_and!; try done; lia.
    - intros p. rewrite !free_at_cons. unfold inr. simpl. intuition lia. }
  destruct (Z.ltb_spec (start r + length r) s); [|lia].
  destruct (IH (start r + length r)) as (l' & -> & Hok' & Hfree); try done; [lia|..].
  { intros p Hp Hf. apply (Hdis p Hp). apply free_at_cons. by right. }
  eexists. split; [done|]. split; [done|].
  intros p. rewrite !free_at_cons, Hfree. tauto.
Qed.

(** Freeing is the inverse of allocation on the free addresses: giving back
    an aligned block that is not free adds exactly its addresses to a
    well-formed list, which is well formed again, with neighbouring ranges
    merged; no assertion fails. *)
Theorem sfree_correct s len l :
  0 < s → 0 < len → s + len < 2 ^ 64 →
  is_aligned s heapAlign = true → is_aligned len heapAlign = true →
  heap_ok 0 l → (∀ p, s ≤ p < s + len → ¬ free_at l p) →
  ∃ l', sfree s len l = Some l' ∧ heap_ok 0 l' ∧
        ∀ p, free_at l' p ↔ free_at l p ∨ s ≤ p < s + len.
Proof.
  intros Hs Hl He Hsa Hla Hok Hd. unfold sfree. rewrite Hsa, Hla. cbn [andb].
  apply sfree_loop_spec; done || lia.
Qed.

(** ** Sequences of allocations and frees *)

(** A client: the free list and the blocks it holds, by address and length. *)
Definition client : Type := list FreeRange * list (Z * Z).

Definition block (b : Z * Z) (p : Z) : Prop := b.1 ≤ p < b.1 + round_up b.2 heapAlign.

Inductive hstep : client → client → Prop :=
| h_alloc l A len al a l' :
    0 < len < 2 ^ 32 → 0 < al < 2 ^ 32 → is_aligned al heapAlign = true →
    alloc len al l = Some (OK (a, l')) → hstep (l, A) (l', (a, len) :: A)
| h_free l A1 a len A2 l' :
    free a len l = Some l' → hstep (l, A1 ++ (a, len) :: A2) (l', A1 ++ A2).

(** An allocation succeeds or fails with [UNSET]; no assertion fails. *)
Lemma salloc_loop_unset size al l e : salloc_loop size al l = THROW e → e = UNSET.
Proof.
  induction l as [|r l IH]; simpl; [naive_solver|].
  repeat case_match; naive_solver.
Qed.

(** The free list and the blocks partition the memory [U]. *)
Fixpoint blocks_ok (l : list FreeRange) (U : Z → Prop) (A : list (Z * Z)) : Prop :=
  match A with
  | [] => ∀ p, free_at l p ↔ U p
  | b :: A' =>
    0 < b.1 ∧ 0 < b.2 < 2 ^ 32 ∧ is_aligned b.1 heapAlign = true ∧ (∀ p, block b p → U p) ∧
    blocks_ok l (λ p, U p ∧ ¬ block b p) A'
  end.

Lemma round_len len :
  0 < len < 2 ^ 32 →
  is_aligned (round_up len heapAlign) heapAlign = true ∧ 0 < round_up len heapAlign < 2 ^ 33.
Proof.
  intros Hl. destruct (round_up_bounds len heapAlign) as (Ha & Hb & _);
    [done|split; lia|unfold heapAlign, alignLine; lia|].
  unfold heapAlign, alignLine in Hb |- *. split; [done|lia].
Qed.

Lemma alloc_cases len al l :
  0 < len < 2 ^ 32 → is_aligned al heapAlign = true →
  (∃ a l', alloc len al l = Some (OK (a, l'))) ∨ alloc len al l = Some (THROW UNSET).
Proof.
  intros [Hr _]%round_len Ha. unfold alloc, salloc. rewrite Hr, Ha. cbn [andb].
  destruct (salloc_loop (round_up len heapAlign) al l) as [[a l']|e] eqn:Hrun; [left; eauto|right].
  by rewrite (salloc_loop_unset _ _ _ _ Hrun).
Qed.

Lemma blocks_ok_free l U A p : blocks_ok l U A → free_at l p → U p.
Proof.
  revert U. induction A as [|b A IH]; intros U; simpl; [by intros ->|].
  intros (_ & _ & _ & _ & HA) Hp. by apply (IH _ HA Hp).
Qed.

Lemma blocks_ok_ext l l' U U' A :
  (∀ p, free_at l p ↔ free_at l' p) → (∀ p, U p ↔ U' p) → blocks_ok l U A → blocks_ok l' U' A.
Proof.
  intros Hl. revert U U'. induction A as [|b A IH]; intros U U' HU; simpl.
  - intros HA p. by rewrite <-Hl, <-HU.
  - intros (? & ? & ? & Hb & HA). split_and!; try (done || lia).
    + intros p Hp. by apply HU, Hb.
    + eapply IH; [|exact HA]. intros p. simpl. by rewrite HU.
Qed.

(** Taking free addresses away from the list and from the memory. *)
Lemma blocks_ok_take l l' U A (B : Z → Prop) :
  (∀ p, free_at l' p ↔ free_at l p ∧ ¬ B p) → (∀ p, B p → free_at l p) →
  blocks_ok l U A → blocks_ok l' (λ p, U p ∧ ¬ B p) A.
Proof.
  intros Hl HB. revert U. induction A as [|b A IH]; intros U; simpl.
  - intros HA p. by rewrite Hl, HA.
  - intros (? & ? & ? & Hb & HA). split_and!; try (done || lia).
    + intros p Hp. split; [by apply Hb|]. intros Hbp.
      by apply (blocks_ok_free l _ A p HA), proj2 in HB.
    + eapply blocks_ok_ext; [done| |by apply IH]. simpl. tauto.
Qed.

(** Giving addresses back. *)
Lemma blocks_ok_add l l' V A (B : Z → Prop) :
  (∀ p, free_at l' p ↔ free_at l p ∨ B p) → (∀ p, B p → ¬ V p) →
  blocks_ok l V A → blocks_ok l' (λ p, V p ∨ B p) A.
Proof.
  intros Hl. revert V. induction A as [|b A IH]; intros V HB; simpl.
  - intros HA p. by rewrite Hl, HA.
  - intros (? & ? & ? & Hb & HA). split_and!; try (done || lia); [by left; apply Hb|].
    eapply blocks_ok_ext; [done| |apply (IH _ (λ p Hp, λ Hv, HB p Hp (proj1 Hv)) HA)].
    intros p. specialize (HB p). specialize (Hb p). simpl. tauto.
Qed.

Lemma block_dec b p : block b p ∨ ¬ block b p.
Proof. unfold block. lia. Qed.

Lemma blocks_ok_give l l' U A1 b A2 :
  (∀ p, free_at l' p ↔ free_at l p ∨ block b p) →
  blocks_ok l U (A1 ++ b :: A2) → blocks_ok l' U (A1 ++ A2).
Proof.
  intros Hl. revert U. induction A1 as [|c A1 IH]; intros U; simpl.
  - intros (_ & _ & _ & Hb & HA). eapply blocks_ok_ext; [done| |].
    2: { eapply blocks_ok_add; [exact Hl| |exact HA]. simpl. tauto. }
    intros p. specialize (Hb p). destruct (block_dec b p); simpl; tauto.
  - intros (? & ? & ? & Hb & HA). split_and!; try (done || lia). by apply IH.
Qed.

(** What the partition says about one block. *)
Lemma blocks_ok_in l U A1 b A2 :
  blocks_ok l U (A1 ++ b :: A2) →
  0 < b.1 ∧ 0 < b.2 < 2 ^ 32 ∧ is_aligned b.1 heapAlign = true ∧
  ∀ p, block b p → U p ∧ ¬ free_at l p.
Proof.
  revert U. induction A1 as [|c A1 IH]; intros U; simpl.
  - intros (? & ? & ? & Hb & HA). split_and!; try (done || lia). intros p Hp.
    split; [by apply Hb|]. intros Hf. by apply (blocks_ok_free l _ A2 p HA), proj2 in Hf.
  - intros (_ & _ & _ & _ & HA). destruct (IH _ HA) as (? & ? & ? & Hb).
    split_and!; try (done || lia). intros p Hp. destruct (Hb p Hp) as [[??] ?]. done.
Qed.

Section client.
Context (U : Z → Prop) (HU : ∀ p, U p → p < 2 ^ 64 - 2 ^ 34).

Lemma free_block l A1 b A2 :
  heap_ok 0 l → blocks_ok l U (A1 ++ b :: A2) →
  ∃ l', free b.1 b.2 l = Some l' ∧ heap_ok 0 l' ∧ blocks_ok l' U (A1 ++ A2).
Proof using HU.
  intros Hok HA. destruct (blocks_ok_in _ _ _ _ _ HA) as (Ha & Hlen & Hal & Hb).
  destruct (round_len b.2 Hlen) as [Hrl Hr].
  assert (b.1 < 2 ^ 64 - 2 ^ 34) by (apply HU, Hb; unfold block; lia).
  unfold free, sfree. rewrite Hal, Hrl. cbn [andb].
  destruct (sfree_loop_spec b.1 (round_up b.2 heapAlign) l 0) as (l' & -> & Hok' & Hf); try (done || lia).
  { intros p Hp. by apply Hb. }
  exists l'. split_and!; [done..|]. by eapply blocks_ok_give.
Qed.

Lemma hstep_inv l A l' A' :
  hstep (l, A) (l', A') → heap_ok 0 l → blocks_ok l U A → heap_ok 0 l' ∧ blocks_ok l' U A'.
Proof using HU.
  intros Hst Hok HA. inversion Hst as [? ? len al a ? Hlen Hal Hala Hrun|? A1 a len A2 ? Hrun]; subst.
  - destruct (round_len len Hlen) as [Hrl Hr]. unfold alloc, salloc in Hrun. rewrite Hrl, Hala in Hrun.
    cbn [andb] in Hrun. injection Hrun as Hrun.
    pose proof (salloc_loop_spec (round_up len heapAlign) al ltac:(lia) ltac:(lia) Hrl Hala l 0) as Hs.
    rewrite Hrun in Hs. destruct Hs as (Haa & Hla & Hin & Hok' & Hf); [lia|done| |].
    { eapply Forall_impl; [by eapply heap_ok_starts|]. intros r Hr2. simpl in Hr2.
      assert (start r < 2 ^ 64 - 2 ^ 34) by (by apply HU, (blocks_ok_free l U A)). lia. }
    split; [done|]. simpl. split_and!; try (done || lia).
    + by apply (is_aligned_trans _ _ al); try (done || lia).
    + intros p Hp. by apply (blocks_ok_free l U A), Hin.
    + by eapply blocks_ok_take.
  - destruct (free_block l A1 (a, len) A2 Hok HA) as (l1 & Hf & ? & ?).
    simpl in Hf. rewrite Hrun in Hf. by injection Hf as ->.
Qed.

End client.

(** C18: in every sequence of allocations and frees that starts from a well-formed
    free list, the free list stays well formed and the held blocks and the free
    list partition the initial memory: each block is aligned, lies in that
    memory, overlaps no other block and no free range, nothing is lost; and
    every held block can be given back. *)
Theorem heap_partition l0 l A :
  heap_ok 0 l0 → (∀ p, free_at l0 p → p < 2 ^ 64 - 2 ^ 34) → rtc hstep (l0, []) (l, A) →
  heap_ok 0 l ∧ blocks_ok l (free_at l0) A ∧
  ∀ A1 b A2, A = A1 ++ b :: A2 → ∃ l', free b.1 b.2 l = Some l'.
Proof.
  intros Hok HU Hrtc.
  assert (heap_ok 0 l ∧ blocks_ok l (free_at l0) A) as [Hok' HA].
  { remember (l0, @nil (Z * Z)) as c0 eqn:Hc0. remember (l, A) as c eqn:Hc.
    assert (heap_ok 0 c0.1 ∧ blocks_ok c0.1 (free_at l0) c0.2) as H0 by (by subst).
    clear Hc0. enough (heap_ok 0 c.1 ∧ blocks_ok c.1 (free_at l0) c.2) by (by subst).
    clear Hc. induction Hrtc as [|[l1 A1] [l2 A2] c Hst _ IH]; [done|].
    apply IH. simpl in *. destruct H0. by eapply hstep_inv. }
  split_and!; [done..|]. intros A1 b A2 ->.
  destruct (free_block _ HU l A1 b A2 Hok' HA) as (l' & ? & _). by exists l'.
Qed.

(** Adding a range whose start is not aligned also frees addresses behind the
    range: the start is rounded up but the length is not shortened by the
    skipped bytes. *)
Theorem addRange_overruns s len :
  0 < s → 0 < len → s + len + heapAlign ≤ 2 ^ 64 → is_aligned s heapAlign = false → is_aligned len heapAlign = true →
  ∃ l' p, addRange s len [] = Some l' ∧ free_at l' p ∧ s + len ≤ p.
Proof.
  intros Hs Hlen Hmax Hsa Hla. assert (0 < heapAlign) by done.
  destruct (round_up_bounds s heapAlign) as (Ha & Hb & _);
    [done|split; lia|lia|].
  assert (round_down len heapAlign = len) as Hr.
  { unfold round_down. apply is_aligned_spec, Z.mod_divide in Hla as [k ->]; [|done].
    rewrite Z.div_mul by done. apply wrap_small. split; lia. }
  assert (round_up s heapAlign ≠ s) by (intros Heq; by rewrite Heq, Hsa in Ha).
  exists [mkFree (round_up s heapAlign) len], (round_up s heapAlign + len - 1). split_and!.
  - unfold addRange, sfree. by rewrite Hr, Ha, Hla.
  - apply free_at_cons. left. unfold inr. simpl. lia.
  - lia.
Qed.

(** ** Witnesses *)

Definition wheap : list FreeRange := [mkFree 0x1040 0xfc0].

Lemma wheap_ok : heap_ok 0 wheap.
Proof. by repeat split. Qed.

Lemma salloc_correct_witness :
  salloc 128 4096 [mkFree 0x1040 0x2000] = Some (OK (0x2000, [mkFree 0x1040 0xfc0; mkFree 0x2080 0xfc0])) ∧
  is_aligned 0x2000 4096 = true ∧ heap_ok 0 [mkFree 0x1040 0xfc0; mkFree 0x2080 0xfc0].
Proof.
  pose proof (salloc_correct 128 4096 [mkFree 0x1040 0x2000]) as Hw.
  assert (salloc 128 4096 [mkFree 0x1040 0x2000] =
    Some (OK (0x2000, [mkFree 0x1040 0xfc0; mkFree 0x2080 0xfc0]))) as Hrun by reflexivity.
  rewrite Hrun in Hw. destruct Hw as (Ha & _ & _ & Hok & _); try done; try (by repeat split).
  by repeat constructor.
Defined.

Lemma sfree_correct_witness :
  ∃ l', sfree 0x1000 0x40 wheap = Some l' ∧ heap_ok 0 l' ∧
        ∀ p, free_at l' p ↔ free_at wheap p ∨ 0x1000 ≤ p < 0x1000 + 0x40.
Proof.
  apply (sfree_correct 0x1000 0x40 wheap); try done.
  intros p Hp [Hf|Hf]%free_at_cons; [|by apply free_at_nil in Hf]. unfold inr in Hf. simpl in Hf. lia.
Defined.

Lemma heap_partition_witness :
  heap_ok 0 [mkFree 0x1080 0xf80] ∧
  blocks_ok [mkFree 0x1080 0xf80] (free_at wheap) [(0x1040, 40)].
Proof.
  destruct (heap_partition wheap [mkFree 0x1080 0xf80] [(0x1040, 40)]) as (Hok & HA & _);
    [apply wheap_ok| | |exact (conj Hok HA)].
  - intros p [Hf|Hf]%free_at_cons; [|by apply free_at_nil in Hf]. unfold inr in Hf. simpl in Hf. lia.
  - eapply rtc_l; [|apply rtc_refl]. by apply (h_alloc wheap [] 40 64).
Defined.

Lemma addRange_overruns_witness :
  ∃ l' p, addRange 8 64 [] = Some l' ∧ free_at l' p ∧ 8 + 64 ≤ p.
Proof. apply (addRange_overruns 8 64); done. Defined.

End FirstFitHeap.
