(* ===== verification/UserHeap.v ===== *)
(** * The heap of applications

    Models runtime/memory/runtime/SequentialHeap.hh, which puts a header with the
    size in front of every block it allocates from a first-fit heap, and the C and
    C++ allocation functions of runtime/memory/runtime/umem.cc.

    The first-fit heap behind it is an interface, [HeapOps] with the laws
    [HeapLaws]: the template is instantiated with an alignment of 64 bytes, or of
    4 KiB when the C functions are built.  Heap.v discharges the laws for the
    alignment it models.  The operations under the mutex are one step.
    The headers are kept apart from the other bytes: the application does not write
    to memory that it was not given. *)

From stdpp Require Import base tactics numbers list gmap relations.
From Stdlib Require Import ZArith Lia.
From S2P Require Import Prelude Ranges Heap.

Local Open Scope Z_scope.
Import Align.

(** ** The heap of free ranges *)

Class HeapOps (H : Type) := {
  h_alloc : Z → Z → H → option (optional (Z * H));
  h_free : Z → Z → H → option H;
  h_addRange : Z → Z → H → option H
}.

(** What the applications' heap relies on: [h_at] are the free addresses. *)
Class HeapLaws (H : Type) (HA : Z) `{HeapOps H} := {
  h_ok : H → Prop;
  h_at : H → Z → Prop;
  h_align : 0 < HA ≤ 2 ^ 12;
  h_alloc_law size al h :
    h_ok h → (∀ p, h_at h p → p < 2 ^ 64 - 2 ^ 34) → 0 < size < 2 ^ 33 → 0 < al < 2 ^ 32 →
    is_aligned size HA = true → is_aligned al HA = true →
    match h_alloc size al h with
    | Some (OK (a, h')) =>
      is_aligned a al = true ∧ 0 < a ∧ (∀ p, a ≤ p < a + size → h_at h p) ∧ h_ok h' ∧
      ∀ p, h_at h' p ↔ h_at h p ∧ ¬ (a ≤ p < a + size)
    | Some (THROW _) => True
    | None => False
    end;
  h_free_law s len h :
    h_ok h → 0 < s → 0 < len → s + len ≤ 2 ^ 64 - 2 ^ 34 → is_aligned s HA = true → is_aligned len HA = true →
    (∀ p, s ≤ p < s + len → ¬ h_at h p) →
    ∃ h', h_free s len h = Some h' ∧ h_ok h' ∧ ∀ p, h_at h' p ↔ h_at h p ∨ s ≤ p < s + len
}.

Module SequentialHeap.

(** [SequentialHeap::Head], runtime/memory/runtime/SequentialHeap.hh:50-61 *)
Record Head := mkHead { cannary : Z; begin : Z; size : Z; reqSize : Z }.

(** [SequentialHeap::Head::cannary], runtime/memory/runtime/SequentialHeap.hh:57 *)
Definition CANNARY : Z := 0x08154711.

(** [SequentialHeap::Head::isGood], runtime/memory/runtime/SequentialHeap.hh:56 *)
Definition isGood (h : Head) : bool := cannary h =? CANNARY.

Definition sizeof_Head : Z := 32.

Section heap.
Context {H : Type} (HA : Z) `{HeapOps H}.

(** The heap with the headers in memory by their addresses, and the other bytes,
    runtime/memory/runtime/SequentialHeap.hh:166-171 *)
Record SequentialHeap := mkHeap {
  heap : H;
  heads : gmap Z Head;
  allocated : Z;
  bytes : Z → Z
}.

Definition with_heap (h : H) (s : SequentialHeap) : SequentialHeap :=
  mkHeap h (heads s) (allocated s) (bytes s).
Definition with_heads (m : gmap Z Head) (s : SequentialHeap) : SequentialHeap :=
  mkHeap (heap s) m (allocated s) (bytes s).
Definition with_allocated (n : Z) (s : SequentialHeap) : SequentialHeap :=
  mkHeap (heap s) (heads s) n (bytes s).
Definition with_bytes (b : Z → Z) (s : SequentialHeap) : SequentialHeap :=
  mkHeap (heap s) (heads s) (allocated s) b.

(** The calls of the first-fit heap. *)
Definition heap_alloc (n align : Z) : kernel SequentialHeap (optional Z) := λ s,
  match h_alloc n align (heap s) with
  | Some (OK (a, h)) => Done (OK a) (with_heap h s)
  | Some (THROW e) => Done (THROW e) s
  | None => AssertFail
  end.

Definition heap_free (start n : Z) : kernel SequentialHeap unit := λ s,
  match h_free start n (heap s) with
  | Some h => Done tt (with_heap h s)
  | None => AssertFail
  end.

(** [SequentialHeap::alloc], runtime/memory/runtime/SequentialHeap.hh:87-125 *)
Definition alloc (length align : Z) : kernel SequentialHeap (optional Z) :=
  let align := round_up align HA in
  let headsize := round_up sizeof_Head align in
  let allocSize := round_up (u64 (headsize + length)) HA in
  res <-- heap_alloc allocSize align;;
  match res with
  | THROW e => kret (THROW e)
  | OK b =>
    kmodify (λ s, with_allocated (u64 (allocated s + allocSize)) s);;;
    let addr := u64 (b + headsize) in
    kmodify (λ s, with_heads (<[u64 (addr - sizeof_Head) := mkHead CANNARY b allocSize length]> (heads s)) s);;;
    kassert (is_aligned addr align);;;
    kassert (is_aligned addr HA);;;
    kret (OK addr)
  end.

(** The header in front of a block. *)
Definition head_of (start : Z) : kernel SequentialHeap Head := λ s,
  match heads s !! u64 (start - sizeof_Head) with Some h => Done h s | None => AssertFail end.

(** [SequentialHeap::free], runtime/memory/runtime/SequentialHeap.hh:127-150 *)
Definition free (start : Z) : kernel SequentialHeap unit :=
  h <-- head_of start;;
  kassert (isGood h);;;
  kassert (is_aligned (begin h) HA);;;
  kassert (is_aligned (size h) HA);;;
  heap_free (begin h) (size h);;;
  kmodify (λ s, with_allocated (u64 (allocated s - size h)) s).

(** [SequentialHeap::getSize], runtime/memory/runtime/SequentialHeap.hh:159-164 *)
Definition getSize (ptr : Z) : kernel SequentialHeap Z :=
  h <-- head_of ptr;;
  kassert (isGood h);;;
  kret (reqSize h).

(** [SequentialHeap::addRange], runtime/memory/runtime/SequentialHeap.hh:152-157 *)
Definition addRange (start length : Z) : kernel SequentialHeap unit := λ s,
  match h_addRange start length (heap s) with
  | Some h => Done tt (with_heap h s)
  | None => AssertFail
  end.

(** ** The allocation functions *)

Definition nullptr : Z := 0.

(** [memset] and [memcpy] of the C library on the bytes. *)
Definition memset (p v n : Z) : kernel SequentialHeap unit :=
  kmodify (λ s, with_bytes (λ a, if (p <=? a) && (a <? p + n) then v else bytes s a) s).
Definition memcpy (d p n : Z) : kernel SequentialHeap unit :=
  kmodify (λ s, with_bytes (λ a, if (d <=? a) && (a <? d + n) then bytes s (p + (a - d)) else bytes s a) s).

(** [malloc], runtime/memory/runtime/umem.cc:55-60 *)
Definition malloc (n : Z) : kernel SequentialHeap Z :=
  if n =? 0 then kret nullptr
  else
    tmp <-- alloc n HA;;
    match tmp with THROW _ => kret nullptr | OK a => kret a end.

(** [calloc], runtime/memory/runtime/umem.cc:45-49 *)
Definition calloc (nmemb n : Z) : kernel SequentialHeap Z :=
  tmp <-- malloc (u64 (nmemb * n));;
  (if negb (tmp =? nullptr) then memset tmp 0 (u64 (nmemb * n)) else kret tt);;;
  kret tmp.

(** [free] of the C library, runtime/memory/runtime/umem.cc:51-53 *)
Definition free_ptr (ptr : Z) : kernel SequentialHeap unit :=
  if negb (ptr =? nullptr) then free ptr else kret tt.

(** [realloc], runtime/memory/runtime/umem.cc:62-74 *)
Definition realloc (ptr n : Z) : kernel SequentialHeap Z :=
  if ptr =? nullptr then malloc n
  else
    oldsize <-- getSize ptr;;
    if n =? oldsize then kret ptr
    else
      m <-- malloc n;;
      if m =? nullptr then (if n =? 0 then free_ptr ptr else kret tt);;; kret nullptr
      else (if oldsize <? n then memcpy m ptr oldsize else memcpy m ptr n);;; kret m.

(** [posix_memalign]: the result and the pointer, runtime/memory/runtime/umem.cc:38-43 *)
Definition posix_memalign (alignment n : Z) : kernel SequentialHeap (Z * option Z) :=
  tmp <-- alloc n alignment;;
  match tmp with THROW _ => kret (-1, None) | OK a => kret (0, Some a) end.

(** [operator new]; [alignof(std::max_align_t)] is 16, runtime/memory/runtime/umem.cc:18-22 *)
Definition operator_new (n : Z) : kernel SequentialHeap Z :=
  tmp <-- alloc n 16;;
  match tmp with THROW _ => (λ _, AssertFail) | OK a => kret a end.

(** [operator delete], runtime/memory/runtime/umem.cc:30-32 *)
Definition operator_delete (ptr : Z) : kernel SequentialHeap unit := free ptr.
End heap.

(** ** The invariant *)

(** The block of a header. *)
Definition block (h : Head) (p : Z) : Prop := begin h ≤ p < begin h + size h.

Definition total (live : gmap Z Head) : Z := map_fold (λ _ h n, size h + n) 0 live.

Section partition.
Context {H : Type} (HA : Z) `{HL : HeapLaws H HA}.

(** The memory that was given to the heap. *)
Context (U : Z → Prop) (HU : ∀ p, U p → p < 2 ^ 64 - 2 ^ 34).

Notation SequentialHeap := (SequentialHeap (H := H)).

(** [live] maps the pointers that were handed out to their headers. *)
Record inv (live : gmap Z Head) (s : SequentialHeap) : Prop := mkInv {
  inv_ok : h_ok (heap s);
  inv_free p : h_at (heap s) p → U p;
  inv_head a h : live !! a = Some h →
    heads s !! (a - sizeof_Head) = Some h ∧ isGood h = true ∧
    is_aligned (begin h) HA = true ∧ is_aligned (size h) HA = true ∧
    0 < begin h ∧ 0 < size h ∧ begin h ≤ a - sizeof_Head ∧ a + reqSize h ≤ begin h + size h ∧ 0 ≤ reqSize h;
  inv_block a h p : live !! a = Some h → block h p → U p ∧ ¬ h_at (heap s) p;
  inv_disjoint a a' h h' p : live !! a = Some h → live !! a' = Some h' → block h p → block h' p → a = a';
  inv_all p : U p → h_at (heap s) p ∨ ∃ a h, live !! a = Some h ∧ block h p;
  inv_count : allocated s = u64 (total live)
}.

Lemma total_insert live a h : live !! a = None → total (<[a := h]> live) = size h + total live.
Proof using. intros Ha. unfold total. apply (map_fold_insert_L (λ _ h n, size h + n)); [|done]. intros; lia. Qed.

Lemma total_delete live a h : live !! a = Some h → total live = size h + total (delete a live).
Proof using. intros Ha. unfold total. apply (map_fold_delete_L (λ _ h n, size h + n) _ a h); [|done]. intros; lia. Qed.

Lemma inv_range live s a h : inv live s → live !! a = Some h → begin h + size h ≤ 2 ^ 64 - 2 ^ 34.
Proof using HU.
  intros I Ha. destruct (inv_head _ _ I a h Ha) as (_ & _ & _ & _ & Hb & Hs & _).
  destruct (inv_block _ _ I a h (begin h + size h - 1) Ha) as [Hp _]; [unfold block; lia|].
  apply HU in Hp. lia.
Qed.

(** The sizes that [alloc] computes. *)
Lemma alloc_sizes length align :
  0 ≤ length < 2 ^ 31 → 0 < align ≤ 2 ^ 30 →
  let A := round_up align HA in let hs := round_up sizeof_Head A in
  let n := round_up (u64 (hs + length)) HA in
  0 < A < 2 ^ 32 ∧ is_aligned A HA = true ∧ sizeof_Head ≤ hs < 2 ^ 32 ∧ is_aligned hs A = true ∧
  is_aligned n HA = true ∧ hs + length ≤ n < 2 ^ 33.
Proof using HL.
  intros Hlen Hal A hs n. pose proof h_align as Hh. unfold sizeof_Head in *.
  destruct (round_up_bounds align HA) as (A1 & A2 & _); [lia|split; lia|lia|]. fold A in A1, A2.
  destruct (round_up_bounds 32 A) as (B1 & B2 & _); [lia|split; lia|lia|]. fold hs in B1, B2.
  assert (u64 (hs + length) = hs + length) as E by (apply wrap_small; unfold fits; lia).
  destruct (round_up_bounds (hs + length) HA) as (C1 & C2 & _); [lia|split; lia|lia|].
  unfold n. rewrite E. split_and!; (done || lia).
Qed.

(** A block that was free becomes live. *)
Lemma inv_insert live s h' a hd n :
  size hd = n → inv live s → h_ok h' → (∀ p, block hd p → h_at (heap s) p) →
  (∀ p, h_at h' p ↔ h_at (heap s) p ∧ ¬ block hd p) →
  isGood hd = true → is_aligned (begin hd) HA = true → is_aligned (size hd) HA = true →
  0 < begin hd → 0 < size hd → begin hd ≤ a - sizeof_Head → a + reqSize hd ≤ begin hd + size hd → 0 ≤ reqSize hd →
  live !! a = None ∧
  inv (<[a := hd]> live) (mkHeap h' (<[a - sizeof_Head := hd]> (heads s)) (u64 (allocated s + n)) (bytes s)).
Proof using.
  intros <- I Hok Hfree Hat Hg Hab Has Hb Hs Hba Hae Hr. pose proof I as [I1 I2 I3 I4 I5 I6 I7].
  assert (∀ a' h, live !! a' = Some h → ∀ p, block h p → block hd p → False) as Hnew.
  { intros a' h Ha' p Hp Hp'. destruct (I4 a' h p Ha' Hp) as [_ Hn]. by apply Hn, Hfree. }
  assert (block hd (a - sizeof_Head)) as Hhead by (unfold block, sizeof_Head in *; lia).
  assert (∀ a' h, live !! a' = Some h → a' ≠ a) as Hne.
  { intros a' h Ha' ->. destruct (I3 a h Ha') as (_ & _ & _ & _ & ? & ? & ? & ? & ?).
    eapply (Hnew a h Ha' (a - sizeof_Head)); [unfold block, sizeof_Head in *; lia|done]. }
  assert (live !! a = None) as Ha by (destruct (live !! a) eqn:E; [by apply Hne in E|done]).
  split; [done|]. split; cbn [heap heads allocated]; try done.
  - intros p [Hp _]%Hat. by apply I2.
  - intros a' h. destruct (decide (a' = a)) as [->|Hd].
    + rewrite !lookup_insert_eq. intros [= <-]. split_and!; (done || lia).
    + rewrite lookup_insert_ne by done. intros Ha'. destruct (I3 a' h Ha') as (E & Hrest).
      rewrite lookup_insert_ne by lia. done.
  - intros a' h p. destruct (decide (a' = a)) as [->|Hd].
    + rewrite lookup_insert_eq. intros [= <-] Hp. split; [by apply I2, Hfree|]. by intros [_ ?]%Hat.
    + rewrite lookup_insert_ne by done. intros Ha' Hp. destruct (I4 a' h p Ha' Hp) as [? Hn].
      split; [done|]. by intros [? _]%Hat.
  - intros a1 a2 h1 h2 p. destruct (decide (a1 = a)) as [->|H1], (decide (a2 = a)) as [->|H2];
      rewrite ?lookup_insert_eq, ?lookup_insert_ne by done; try done.
    + intros [= <-] H2' Hp Hp'. exfalso. by eapply Hnew.
    + intros H1' [= <-] Hp Hp'. exfalso. by eapply Hnew.
    + apply I5.
  - intros p Hp. destruct (decide (begin hd ≤ p < begin hd + size hd)) as [Hin|Hout].
    + right. exists a, hd. by rewrite lookup_insert_eq.
    + destruct (I6 p Hp) as [Hf|(a' & h & Ha' & Hp')]; [left; by apply Hat|].
      right. exists a', h. rewrite lookup_insert_ne; [done|]. apply not_eq_sym. by eapply Hne.
  - rewrite total_insert, I7 by done. unfold wrap. rewrite Z.add_mod_idemp_l by lia. f_equal. lia.
Qed.

(** [alloc] after the first-fit heap has answered. *)
Lemma alloc_OK length align s A hs n b h' a k :
  A = round_up align HA → hs = round_up sizeof_Head A → n = round_up (u64 (hs + length)) HA →
  h_alloc n A (heap s) = Some (OK (b, h')) → u64 (b + hs) = a → u64 (a - sizeof_Head) = k →
  is_aligned a A = true → is_aligned a HA = true →
  alloc HA length align s =
    Done (OK a) (mkHeap h' (<[k := mkHead CANNARY b n length]> (heads s)) (u64 (allocated s + n)) (bytes s)).
Proof using.
  intros EA Eh En Eal Ea Ek Ha1 Ha2. unfold alloc. rewrite <-EA, <-Eh, <-En.
  unfold kbind, heap_alloc, kmodify, kassert, kret. rewrite Eal, Ea, Ek, Ha1, Ha2. reflexivity.
Qed.

Lemma alloc_THROW length align s A hs n e :
  A = round_up align HA → hs = round_up sizeof_Head A → n = round_up (u64 (hs + length)) HA →
  h_alloc n A (heap s) = Some (THROW e) → alloc HA length align s = Done (THROW e) s.
Proof using.
  intros EA Eh En Eal. unfold alloc. rewrite <-EA, <-Eh, <-En. unfold kbind, heap_alloc. by rewrite Eal.
Qed.

Lemma alloc_run live s length align :
  inv live s → 0 ≤ length < 2 ^ 31 → 0 < align ≤ 2 ^ 30 →
  (∃ e, alloc HA length align s = Done (THROW e) s) ∨
  ∃ a h s', alloc HA length align s = Done (OK a) s' ∧ live !! a = None ∧ reqSize h = length ∧
    is_aligned a (round_up align HA) = true ∧ inv (<[a := h]> live) s' ∧ bytes s' = bytes s.
Proof using HL HU.
  intros I Hlen Hal. destruct (alloc_sizes length align Hlen Hal) as (HA1 & HA2 & Hh1 & Hh2 & Hn1 & Hn2).
  remember (round_up align HA) as A eqn:EA. remember (round_up sizeof_Head A) as hs eqn:Eh.
  remember (round_up (u64 (hs + length)) HA) as n eqn:En. pose proof h_align as Hha.
  assert (sizeof_Head = 32) as H32 by done.
  pose proof (h_alloc_law n A (heap s) (inv_ok _ _ I)) as Hlaw.
  specialize (Hlaw (λ p Hp, HU p (inv_free _ _ I p Hp)) ltac:(lia) ltac:(lia) Hn1 HA2).
  destruct (h_alloc n A (heap s)) as [[[b h']|e]|] eqn:Eal; [|left; exists e; by eapply alloc_THROW|done].
  destruct Hlaw as (Hb & Hb0 & Hfree & Hok & Hat). right.
  assert (b + n ≤ 2 ^ 64 - 2 ^ 34) as Hmax.
  { assert (h_at (heap s) (b + n - 1)) as Hp by (apply Hfree; lia). apply (inv_free _ _ I), HU in Hp. lia. }
  assert (is_aligned (b + hs) A = true) as Haa by (by apply is_aligned_add; [lia| |]).
  assert (is_aligned b HA = true) as Hba by (by apply (is_aligned_trans _ HA A); [lia|lia| |]).
  destruct (inv_insert live s h' (b + hs) (mkHead CANNARY b n length) n) as [Hnone I'];
    cbn [begin size reqSize]; [reflexivity|exact I|exact Hok|exact Hfree|exact Hat|reflexivity|exact Hba|exact Hn1|lia..|].
  exists (b + hs), (mkHead CANNARY b n length). eexists. split.
  - eapply alloc_OK; [exact EA|exact Eh|exact En|exact Eal|apply wrap_small; unfold fits; lia
      |apply wrap_small; unfold fits; lia|exact Haa|by apply (is_aligned_trans _ HA A); [lia|lia| |]].
  - split; [exact Hnone|]. split; [reflexivity|]. split; [exact Haa|]. split; [exact I'|reflexivity].
Qed.

Lemma free_run live s a h :
  inv live s → live !! a = Some h →
  ∃ s', free HA a s = Done tt s' ∧ inv (delete a live) s' ∧ bytes s' = bytes s.
Proof using HL HU.
  intros I Ha. pose proof (inv_range _ _ _ _ I Ha) as Hmax. pose proof I as [I1 I2 I3 I4 I5 I6 I7].
  destruct (I3 a h Ha) as (Eh & Hg & Hab & Has & Hb & Hs & Hba & Hae & Hr).
  destruct (h_free_law (begin h) (size h) (heap s) I1) as (h' & Efree & Hok & Hat); try (done || lia).
  { intros p Hp. by eapply (I4 a h p Ha). }
  assert (u64 (a - sizeof_Head) = a - sizeof_Head) as E
    by (apply wrap_small; unfold fits, sizeof_Head in *; lia).
  eexists. split.
  - unfold free, kbind, head_of. rewrite E, Eh. unfold kassert. rewrite Hg, Hab, Has.
    unfold heap_free. rewrite Efree. unfold kmodify. reflexivity.
  - split; [|done]. split; cbn [heap heads allocated with_allocated with_heap]; try done.
    + intros p [Hp|Hp]%Hat; [by apply I2|]. by eapply (I4 a h p Ha).
    + intros a' h1 [_ Ha']%lookup_delete_Some. by apply I3.
    + intros a' h1 p [Hne Ha']%lookup_delete_Some Hp. destruct (I4 a' h1 p Ha' Hp) as [? Hn].
      split; [done|]. intros [?|Hin]%Hat; [done|]. by apply Hne, (I5 a a' h h1 p).
    + intros a1 a2 h1 h2 p [_ H1]%lookup_delete_Some [_ H2]%lookup_delete_Some. by apply (I5 a1 a2 h1 h2 p).
    + intros p Hp. destruct (I6 p Hp) as [Hf|(a' & h1 & Ha' & Hp')]; [left; apply Hat; by left|].
      destruct (decide (a' = a)) as [->|Hne].
      * left. apply Hat. right. by replace h with h1 by congruence.
      * right. exists a', h1. by rewrite lookup_delete_ne.
    + rewrite I7, (total_delete live a h Ha). unfold wrap.
      rewrite Zminus_mod, Z.mod_mod, <-Zminus_mod by lia. f_equal. lia.
Qed.

(** What applications do with the heap: they allocate, free what they have, and
    write into their blocks. *)
Inductive ustep : gmap Z Head * SequentialHeap → gmap Z Head * SequentialHeap → Prop :=
  | u_alloc live s length align a s' h :
      0 ≤ length < 2 ^ 31 → 0 < align ≤ 2 ^ 30 → alloc HA length align s = Done (OK a) s' →
      heads s' !! (a - sizeof_Head) = Some h → ustep (live, s) (<[a := h]> live, s')
  | u_fail live s length align e s' :
      0 ≤ length < 2 ^ 31 → 0 < align ≤ 2 ^ 30 → alloc HA length align s = Done (THROW e) s' →
      ustep (live, s) (live, s')
  | u_free live s a h s' :
      live !! a = Some h → free HA a s = Done tt s' → ustep (live, s) (delete a live, s')
  | u_write live s b : ustep (live, s) (live, with_bytes b s).

Lemma ustep_inv c c' : ustep c c' → inv c.1 c.2 → inv c'.1 c'.2.
Proof using HL HU.
  intros Hst. inversion Hst as [live s length align a s' h Hl Ha Hrun Hh|live s length align e s' Hl Ha Hrun
    |live s a h s' Hlive Hrun|live s b]; subst; cbn [fst snd]; intros I.
  - destruct (alloc_run live s length align I Hl Ha) as [[e E]|(a' & h' & s1 & E & _ & _ & _ & I' & _)];
      rewrite Hrun in E; [done|]. injection E as <- <-.
    assert (h' = h) as -> by (destruct (inv_head _ _ I' a h') as [E _]; [apply lookup_insert_eq|congruence]).
    done.
  - destruct (alloc_run live s length align I Hl Ha) as [[e' E]|(a' & h' & s1 & E & _)];
      rewrite Hrun in E; [by injection E as <- <-|done].
  - destruct (free_run live s a h I Hlive) as (s1 & E & I' & _). rewrite Hrun in E. by injection E as <-.
  - destruct I. by split.
Qed.


(** ** The C functions *)

Lemma malloc_run live s n :
  inv live s → 0 < n < 2 ^ 31 →
  malloc HA n s = Done nullptr s ∨
  ∃ a h s', malloc HA n s = Done a s' ∧ a ≠ nullptr ∧ live !! a = None ∧ reqSize h = n ∧
    inv (<[a := h]> live) s' ∧ bytes s' = bytes s.
Proof using HL HU.
  intros I Hn. unfold malloc. rewrite (proj2 (Z.eqb_neq n 0)) by lia. pose proof h_align as Hh.
  destruct (alloc_run live s n HA I) as [[e E]|(a & h & s' & E & Ha & Hr & _ & I' & Hb)]; [lia|lia|..];
    rewrite (kbind_run _ _ _ _ _ E); [by left|right].
  exists a, h, s'. split; [done|]. split; [|done].
  destruct (inv_head _ _ I' a h) as (_ & _ & _ & _ & ? & _ & ? & _); [apply lookup_insert_eq|].
  unfold nullptr, sizeof_Head in *. lia.
Qed.

(** The data of different pointers does not overlap. *)
Lemma data_apart live s a a' h h' i :
  inv live s → live !! a = Some h → live !! a' = Some h' → a ≠ a' → 0 ≤ i < reqSize h →
  ¬ (a' ≤ a + i < a' + reqSize h').
Proof using.
  intros I Ha Ha' Hne Hi Hp. apply Hne.
  destruct (inv_head _ _ I a h Ha) as (_ & _ & _ & _ & _ & _ & ? & ? & _).
  destruct (inv_head _ _ I a' h' Ha') as (_ & _ & _ & _ & _ & _ & ? & ? & _). unfold sizeof_Head in *.
  eapply (inv_disjoint _ _ I a a' h h' (a + i)); [done|done|unfold block; lia..].
Qed.

Lemma inv_bytes live s b : inv live s → inv live (with_bytes b s).
Proof using. intros []. by split. Qed.

(** [calloc] without overflow: the block is zero and the other blocks keep their data. *)
Lemma calloc_zeroes live s nmemb n :
  inv live s → 0 < nmemb * n < 2 ^ 31 →
  calloc HA nmemb n s = Done nullptr s ∨
  ∃ a h s', calloc HA nmemb n s = Done a s' ∧ live !! a = None ∧ reqSize h = nmemb * n ∧
    inv (<[a := h]> live) s' ∧ (∀ i, 0 ≤ i < nmemb * n → bytes s' (a + i) = 0) ∧
    ∀ a' h' i, live !! a' = Some h' → 0 ≤ i < reqSize h' → bytes s' (a' + i) = bytes s (a' + i).
Proof using HL HU.
  intros I Hn. unfold calloc. rewrite wrap_small by (unfold fits; lia).
  destruct (malloc_run live s (nmemb * n) I Hn) as [E|(a & h & s' & E & Hne & Ha & Hr & I' & Hb)];
    rewrite (kbind_run _ _ _ _ _ E); [by left|right].
  rewrite (proj2 (Z.eqb_neq a nullptr)) by done. eexists a, h, _. split; [done|]. split_and!; [done..| | |].
  - by apply inv_bytes.
  - intros i Hi. cbn. rewrite (proj2 (Z.leb_le _ _)), (proj2 (Z.ltb_lt _ _)) by lia. done.
  - intros a' h' i Ha' Hi. cbn. assert (a' ≠ a) as Hd by congruence.
    pose proof (data_apart _ _ a' a h' h i I') as Hap.
    rewrite lookup_insert_ne, lookup_insert_eq, Hr in Hap by done. specialize (Hap Ha' eq_refl Hd Hi).
    rewrite <-Hb. destruct (Z.leb_spec a (a' + i)), (Z.ltb_spec (a' + i) (a + nmemb * n)); cbn; try done. lia.
Qed.

(** [realloc] of a block to another size returns a new block with the data of
    the old one as far as both reach, and all other blocks keep their data; when
    there is no memory it returns null and changes nothing.  The old block stays
    allocated: it is neither returned nor freed. *)
Theorem realloc_copies live s a h n :
  inv live s → live !! a = Some h → 0 < n < 2 ^ 31 → n ≠ reqSize h →
  realloc HA a n s = Done nullptr s ∨
  ∃ a' h' s', realloc HA a n s = Done a' s' ∧ live !! a' = None ∧ reqSize h' = n ∧
    inv (<[a' := h']> live) s' ∧
    (∀ i, 0 ≤ i < Z.min n (reqSize h) → bytes s' (a' + i) = bytes s (a + i)) ∧
    ∀ b hb i, live !! b = Some hb → 0 ≤ i < reqSize hb → bytes s' (b + i) = bytes s (b + i).
Proof using HL HU.
  intros I Ha Hn Hne. pose proof (inv_range _ _ _ _ I Ha) as Hmax.
  destruct (inv_head _ _ I a h Ha) as (Eh & Hg & _ & _ & ? & _ & ? & ? & Hr0).
  unfold realloc. rewrite (proj2 (Z.eqb_neq a nullptr)) by (unfold nullptr, sizeof_Head in *; lia).
  assert (getSize a s = Done (reqSize h) s) as Eg.
  { unfold getSize, kbind, head_of. rewrite wrap_small by (unfold fits, sizeof_Head in *; lia).
    rewrite Eh. unfold kassert. by rewrite Hg. }
  rewrite (kbind_run _ _ _ _ _ Eg), (proj2 (Z.eqb_neq n _)) by done.
  destruct (malloc_run live s n I Hn) as [E|(a' & h' & s' & E & Hnull & Ha' & Hr & I' & Hb)];
    rewrite (kbind_run _ _ _ _ _ E).
  { left. cbn. by rewrite (proj2 (Z.eqb_neq n 0)) by lia. }
  right. rewrite (proj2 (Z.eqb_neq a' nullptr)) by done.
  set (m := Z.min n (reqSize h)).
  assert ((if reqSize h <? n then memcpy a' a (reqSize h) else memcpy a' a n) = memcpy (H := H) a' a m) as ->.
  { unfold m. destruct (Z.ltb_spec (reqSize h) n); f_equal; lia. }
  eexists a', h', _. split; [done|]. split_and!; [done..| | |].
  - by apply inv_bytes.
  - intros i Hi. cbn. rewrite (proj2 (Z.leb_le _ _)), (proj2 (Z.ltb_lt _ _)) by lia. cbn.
    rewrite Hb. f_equal. lia.
  - intros b hb i Hlive Hi. cbn. assert (b ≠ a') as Hd by congruence.
    pose proof (data_apart _ _ b a' hb h' i I') as Hap.
    rewrite lookup_insert_ne, lookup_insert_eq, Hr in Hap by done. specialize (Hap Hlive eq_refl Hd Hi).
    rewrite <-Hb. destruct (Z.leb_spec a' (b + i)), (Z.ltb_spec (b + i) (a' + m)); cbn; try done. lia.
Qed.
End partition.

(** ** On the first-fit heap *)

Module Example.
Import FirstFitHeap(FreeRange, start, heapAlign, heap_ok, free_at, heap_ok_starts, salloc, salloc_correct, sfree_correct).

#[export] Instance firstfit_ops : HeapOps (list FreeRange) :=
  {| h_alloc := FirstFitHeap.alloc; h_free := FirstFitHeap.free;
     h_addRange := FirstFitHeap.addRange |}.

#[export] Instance firstfit_laws : HeapLaws (list FreeRange) heapAlign.
Proof.
  refine {| h_ok := heap_ok 0; h_at := free_at |}.
  - unfold heapAlign, alignLine. lia.
  - intros size al l Hok Hat Hs Ha Hsa Haa. cbn. unfold FirstFitHeap.alloc.
    rewrite round_up_aligned by (done || unfold heapAlign, alignLine; lia || (split; lia)).
    assert (Forall (λ r, start r + al - 1 < 2 ^ 64) l) as Hov.
    { eapply Forall_impl; [by eapply heap_ok_starts|]. intros r Hr%Hat. lia. }
    pose proof (salloc_correct size al l ltac:(lia) ltac:(lia) Hsa Haa Hok Hov) as Hc.
    destruct (salloc size al l) as [[[a l']|e]|]; done.
  - intros s len l Hok Hs Hl He Hsa Hla Hd. cbn. unfold FirstFitHeap.free.
    rewrite round_up_aligned by (done || unfold heapAlign, alignLine; lia || (split; lia)).
    apply sfree_correct; done || lia.
Defined.

(** A heap of 16 KiB at 1 MiB. *)
Definition U (p : Z) : Prop := 0x100000 ≤ p < 0x104000.
Definition heap0 : SequentialHeap :=
  match addRange 0x100000 0x4000 (mkHeap [] ∅ 0 (λ a, a mod 256)) with
  | Done _ s => s
  | _ => mkHeap [] ∅ 0 (λ _, 0)
  end.

Lemma U_below p : U p → p < 2 ^ 64 - 2 ^ 34.
Proof. unfold U. lia. Qed.

Lemma heap0_ranges : heap heap0 = [FirstFitHeap.mkFree 0x100000 0x4000].
Proof. vm_compute. reflexivity. Qed.

Lemma inv0 : inv heapAlign U ∅ heap0.
Proof.
  assert (∀ p, free_at (heap heap0) p ↔ U p) as Hf.
  { intros p. rewrite heap0_ranges. unfold free_at. rewrite Exists_cons, Exists_nil. unfold FirstFitHeap.inr, U. cbn. lia. }
  split; try done.
  - intros p Hp%Hf. done.
  - intros p Hp. left. by apply Hf.
Qed.

(** [malloc 100] in the fresh heap. *)
Definition heap1 : SequentialHeap :=
  match malloc heapAlign 100 heap0 with Done _ s => s | _ => heap0 end.
Definition head1 : Head := mkHead CANNARY 0x100000 192 100.

Lemma step1 : ustep heapAlign (∅, heap0) (<[0x100040 := head1]> ∅, heap1).
Proof. by apply (u_alloc _ _ _ 100 heapAlign). Qed.


Definition pointer (o : outcome (SequentialHeap (H := list FreeRange)) Z) : Z := match o with Done a _ => a | _ => nullptr end.

Lemma realloc1 : pointer (realloc heapAlign 0x100040 200 heap1) = 0x100100.
Proof. vm_compute. reflexivity. Qed.

Lemma inv1 : inv heapAlign U (<[0x100040 := head1]> ∅) heap1.
Proof. apply (ustep_inv heapAlign U U_below (∅, heap0) _ step1), inv0. Qed.

Lemma live1 : (<[0x100040 := head1]> (∅ : gmap Z Head)) !! 0x100040 = Some head1.
Proof. reflexivity. Qed.

Lemma realloc_copies_witness :
  ∃ s, realloc heapAlign 0x100040 200 heap1 = Done 0x100100 s ∧
    ∀ i, 0 ≤ i < 100 → bytes s (0x100100 + i) = bytes heap1 (0x100040 + i).
Proof.
  pose proof realloc1 as P.
  destruct (realloc_copies heapAlign U U_below _ heap1 0x100040 head1 200 inv1 live1
              ltac:(lia) ltac:(discriminate)) as [E|(a & h & s & E & _ & _ & _ & Hc & _)];
    rewrite E in P; cbn [pointer] in P; [discriminate P|].
  subst a. exists s. split; [exact E|]. exact Hc.
Defined.

(** The size of a request just below 2^64 wraps around: [malloc] returns a
    pointer although no byte was allocated. *)
Lemma malloc_size_wraps :
  ∃ a s, malloc heapAlign (2 ^ 64 - 64) heap0 = Done a s ∧ a ≠ nullptr ∧ allocated s = 0.
Proof. eexists _, _. split; [vm_compute; reflexivity|]. done. Qed.
End Example.
End SequentialHeap.
