(* ===== verification/KernelMemory.v ===== *)
(** * Kernel memory objects

    Models objects/kernel-memory/objects/KernelMemory.hh and .cc with the
    allocator interface of objects/common/objects/IAllocator.hh: allocation of
    one block and of a list of blocks, freeing, adding memory, and the factory
    that creates a kernel memory object inside another one. *)

From stdpp Require Import base tactics numbers list gmap.
From Stdlib Require Import ZArith Lia.
From S2P Require Import Prelude Ranges Bitfield Cap CapEntry CapRing CapSteps CapOps Heap.

Local Open Scope Z_scope.
Import PhysPtr Align Intervals.

(** [MemoryDescriptor], objects/common/objects/IAllocator.hh:35-48 *)
Record MemoryDescriptor := mkDesc { md_ptr : Z; md_size : Z; md_alignment : Z }.

(** The members of [KernelMemory], with the reference count of its monitor,
    objects/kernel-memory/objects/KernelMemory.hh:102-110 *)
Record KernelMemory := mkKM {
  heap : list FirstFitHeap.FreeRange; _range : Range; refcount : Z }.

Class HasMemory (S : Type) := {
  mem : S → KernelMemory;
  set_mem : KernelMemory → S → S;
  mem_set k s : mem (set_mem k s) = k;
  set_mem_set k k' s : set_mem k (set_mem k' s) = set_mem k s;
  set_mem_id s : set_mem (mem s) s = s
}.

#[global] Program Instance HasMemory_self : HasMemory KernelMemory :=
  {| mem := λ k, k; set_mem := λ k _, k |}.
Solve All Obligations with done.

Definition with_heap (h : list FirstFitHeap.FreeRange) (k : KernelMemory) : KernelMemory :=
  mkKM h (_range k) (refcount k).

(** [DeletionMonitor::acquireRef], async/monitor-common/async/DeletionMonitor.hh:41 *)
Definition acquireRef (k : KernelMemory) : KernelMemory :=
  mkKM (heap k) (_range k) (u64 (refcount k + 1)).

(** [DeletionMonitor::releaseRef] while no deletion is requested,
    async/monitor-common/async/DeletionMonitor.hh:43-49 *)
Definition releaseRef (k : KernelMemory) : KernelMemory :=
  mkKM (heap k) (_range k) (u64 (refcount k - 1)).

Section kernel_memory.
Context {S : Type} `{HasMemory S}.

Definition modify_mem (f : KernelMemory → KernelMemory) : kernel S unit :=
  kmodify (λ s, set_mem (f (mem s)) s).

(** A heap operation; [None] is a failed assertion. *)
Definition heap_alloc (len al : Z) : kernel S (optional Z) := λ s,
  match FirstFitHeap.alloc len al (heap (mem s)) with
  | Some (OK (a, h)) => Done (OK a) (set_mem (with_heap h (mem s)) s)
  | Some (THROW e) => Done (THROW e) s
  | None => AssertFail
  end.

Definition heap_update (f : list FirstFitHeap.FreeRange → option (list FirstFitHeap.FreeRange))
    : kernel S unit := λ s,
  match f (heap (mem s)) with
  | Some h => Done tt (set_mem (with_heap h (mem s)) s)
  | None => AssertFail
  end.

(** [KernelMemory::alloc] of one block,
    objects/kernel-memory/objects/KernelMemory.cc:48-59 *)
Definition km_alloc (length alignment : Z) : kernel S (optional Z) :=
  result <-- heap_alloc length alignment;;
  match result with
  | OK a => modify_mem acquireRef;;; kret (OK a)
  | THROW e => kret (THROW e)
  end.

(** [KernelMemory::free] of one block,
    objects/kernel-memory/objects/KernelMemory.cc:86-94 *)
Definition km_free (ptr length : Z) : kernel S unit :=
  kassert (isKernelAddress ptr);;;
  s <-- kget;;
  kassert (contains (_range (mem s)) (bySize (fromKernel ptr) length));;;
  modify_mem releaseRef;;;
  heap_update (FirstFitHeap.free ptr length).

(** [KernelMemory::free] of a list of blocks,
    objects/kernel-memory/objects/KernelMemory.cc:96-99 *)
Fixpoint km_freeAll (ds : list MemoryDescriptor) : kernel S unit :=
  match ds with
  | [] => kret tt
  | d :: ds => km_free (md_ptr d) (md_size d);;; km_freeAll ds
  end.

(** The loop of [KernelMemory::alloc] over descriptors: the descriptors that
    were filled, the others, and the last result,
    objects/kernel-memory/objects/KernelMemory.cc:63-77 *)
Fixpoint alloc_loop (filled ds : list MemoryDescriptor)
    : kernel S (list MemoryDescriptor * list MemoryDescriptor * optional unit) :=
  match ds with
  | [] => kret (filled, [], OK tt)
  | it :: ds' =>
    kassert (0 <? md_size it);;;
    kassert (md_ptr it =? 0);;;
    result <-- heap_alloc (md_size it) (md_alignment it);;
    match result with
    | OK a =>
      modify_mem acquireRef;;;
      alloc_loop (filled ++ [mkDesc a (md_size it) (md_alignment it)]) ds'
    | THROW e => kret (filled, ds, THROW e)
    end
  end.

(** [KernelMemory::alloc] of a list of blocks; the descriptors are updated in
    place, objects/kernel-memory/objects/KernelMemory.cc:61-84 *)
Definition km_allocAll (ds : list MemoryDescriptor)
    : kernel S (list MemoryDescriptor * optional unit) :=
  r <-- alloc_loop [] ds;;
  let '(filled, rest, result) := r in
  match result with
  | OK _ => kret (filled ++ rest, OK tt)
  | THROW e => km_freeAll filled;;; kret (filled ++ rest, THROW e)
  end.

(** [KernelMemory::addRange], objects/kernel-memory/objects/KernelMemory.cc:101-110 *)
Definition km_addRange (start length : Z) : kernel S unit :=
  if negb (kernelmem start) then kret tt
  else
    s <-- kget;;
    let add := bySize (logint start) length in
    kassert (kernelmem (getStart (_range (mem s))));;;
    let own := bySize (logint (getStart (_range (mem s)))) (getSize (_range (mem s))) in
    let add := cut add own in
    if isEmpty add then kret tt
    else heap_update (FirstFitHeap.addRange (getStart add) (getSize add)).

(** [IAllocator::create] of an object of [size] bytes,
    objects/common/objects/IAllocator.hh:74-79 *)
Definition create (size : Z) : kernel S (optional Z) := km_alloc size 64.

(** [KernelMemory::mint], objects/kernel-memory/objects/KernelMemory.hh:78-81 *)
Definition km_mint (self request : Z) (derive : bool) : optional Z :=
  if derive then THROW INVALID_REQUEST else OK self.

(** [KernelMemory::deleteCap]: whether the object is queued for deletion,
    objects/kernel-memory/objects/KernelMemory.hh:83-86 *)
Definition km_deleteCap (self : Z) : bool := isOriginal self.

End kernel_memory.

Section factory.
Context {S : Type} `{HasEntries S} `{KernelObjects S} `{HasMemory S}.

(** [KernelMemoryFactory::factory]: [sizeof] is the size of the object,
    [newObject] its constructor and [objAddRange] the method of the new object.
    The division by a zero alignment is a processor exception, [AssertFail],
    objects/kernel-memory/objects/KernelMemory.cc:184-211 *)
Definition km_factory (sizeof : Z) (newObject : Z → Range → kernel S unit)
    (objAddRange : Z → Z → Z → kernel S unit)
    (dstEntry memEntry memCap size alignment : Z) : kernel S (optional Z) :=
  if negb (is_aligned alignment align4K) then kret (THROW UNALIGNED) else
  kassert (negb (alignment =? 0));;;
  if negb (is_aligned size alignment) then kret (THROW UNALIGNED)
  else
    region <-- km_alloc size alignment;;
    match region with
    | THROW e => reset dstEntry;;; kret (THROW e)
    | OK r =>
      obj <-- create sizeof;;
      match obj with
      | THROW e => km_free r size;;; reset dstEntry;;; kret (THROW e)
      | OK o =>
        newObject o (mkRange r (u64 (r + size)));;;
        res <-- inherit memEntry memCap dstEntry (mkCap o 0 NOFLAG) (kret tt);;
        match res with
        | THROW e => km_free o sizeof;;; km_free r size;;; kret (THROW e)
        | OK _ => objAddRange o (fromKernel r) size;;; kret (OK o)
        end
      end
    end.

End factory.

(** ** Lists of blocks are allocated completely or not at all *)

Import FirstFitHeap.

(** The addresses [U] lie in the range that the object manages. *)
Definition in_range (R : Range) (U : Z → Prop) : Prop :=
  0 ≤ getStart R ∧ getEnd R < KERNELMEM_SIZE ∧
  ∀ p, U p → KERNELMEM_ADDR + getStart R ≤ p < KERNELMEM_ADDR + getEnd R.

Definition blk (d : MemoryDescriptor) : Z * Z := (md_ptr d, md_size d).

Definition desc_ok (d : MemoryDescriptor) : Prop :=
  md_ptr d = 0 ∧ 0 < md_size d < 2 ^ 32 ∧ 0 < md_alignment d < 2 ^ 32 ∧
  is_aligned (md_alignment d) heapAlign = true.

Section atomic.
Context {S : Type} `{HasMemory S}.
Context (R : Range) (U : Z → Prop) (c : Z) (HU : in_range R U).
Implicit Types (k : KernelMemory) (s : S).

(** The object holds the blocks of the descriptors [ds]. *)
Definition holds k (ds : list MemoryDescriptor) : Prop :=
  heap_ok 0 (heap k) ∧ blocks_ok (heap k) U (reverse (blk <$> ds)) ∧
  _range k = R ∧ refcount k = u64 (c + Z.of_nat (List.length ds)).

Lemma U_bound p : U p → p < 2 ^ 64 - 2 ^ 34.
Proof using HU.
  intros Hp. destruct HU as (_ & HE & Hin). specialize (Hin p Hp).
  unfold KERNELMEM_ADDR, KERNELMEM_SIZE in *. lia.
Qed.

Lemma heap_alloc_spec k s ds d :
  holds k ds → desc_ok d →
  (∃ a k', heap_alloc (md_size d) (md_alignment d) (set_mem k s) = Done (OK a) (set_mem k' s) ∧
           holds (acquireRef k') (ds ++ [mkDesc a (md_size d) (md_alignment d)])) ∨
  heap_alloc (md_size d) (md_alignment d) (set_mem k s) = Done (THROW UNSET) (set_mem k s).
Proof using HU.
  intros (Hok & HA & HR & Hc) (_ & Hs & Hal & Haa). unfold heap_alloc. rewrite mem_set.
  destruct (alloc_cases (md_size d) (md_alignment d) (heap k) Hs Haa) as [(a & h & Hrun)|Hrun].
  - left. exists a, (with_heap h k). rewrite Hrun, set_mem_set. split; [done|].
    destruct (hstep_inv U U_bound (heap k) (reverse (blk <$> ds)) h ((a, md_size d) :: reverse (blk <$> ds)))
      as [Hok' HA']; [by econstructor|done..|].
    unfold holds. simpl. split_and!; try done.
    + by rewrite fmap_app, reverse_app.
    + rewrite Hc, length_app. simpl. unfold wrap. rewrite Zplus_mod_idemp_l. f_equal. lia.
  - right. by rewrite Hrun.
Qed.

Lemma alloc_loop_spec ds : ∀ k s filled,
  holds k filled → Forall desc_ok ds →
  ∃ filled' rest r k',
    alloc_loop filled ds (set_mem k s) = Done (filled', rest, r) (set_mem k' s) ∧
    holds k' filled' ∧
    (r = OK tt ∧ rest = [] ∧
       (λ d, (md_size d, md_alignment d)) <$> filled' =
       (λ d, (md_size d, md_alignment d)) <$> filled ++ ds ∨ r = THROW UNSET).
Proof using HU.
  induction ds as [|d ds IH]; intros k s filled Hh Hd.
  - exists filled, [], (OK tt), k. split_and!; [done..|]. left. by rewrite app_nil_r.
  - apply Forall_cons in Hd as [Hd Hds]. pose proof Hd as (Hp & Hs & _ & _). simpl.
    rewrite (kbind_run _ _ _ _ _ (kassert_run _ _ (proj2 (Z.ltb_lt _ _) (proj1 Hs)))).
    rewrite (kbind_run _ _ _ _ _ (kassert_run _ _ (proj2 (Z.eqb_eq _ _) Hp))).
    destruct (heap_alloc_spec k s filled d Hh Hd) as [(a & k' & E & Hh')|E].
    + rewrite (kbind_run _ _ _ _ _ E). unfold modify_mem, kmodify, kbind. rewrite mem_set, set_mem_set.
      destruct (IH (acquireRef k') s _ Hh' Hds) as (f' & rest & r & k2 & E2 & Hh2 & Hr).
      exists f', rest, r, k2. split_and!; [done..|]. destruct Hr as [(? & ? & Hm)|?]; [left|by right].
      split_and!; try done. rewrite Hm, <-app_assoc, !fmap_app. done.
    + rewrite (kbind_run _ _ _ _ _ E). exists filled, (d :: ds), (THROW UNSET), k.
      split_and!; [done..|by right].
Qed.

(** Any block that is held can be freed. *)
Lemma km_free_any k s ds1 d ds2 :
  holds k (ds1 ++ d :: ds2) →
  ∃ k', km_free (md_ptr d) (md_size d) (set_mem k s) = Done tt (set_mem k' s) ∧ holds k' (ds1 ++ ds2).
Proof using HU.
  intros (Hok & HA & HR & Hc). rewrite fmap_app, fmap_cons, reverse_app, reverse_cons, <- app_assoc in HA.
  destruct (blocks_ok_in _ _ _ _ _ HA) as (Hp & Hs & Hal & Hb). simpl in *.
  destruct (free_block U U_bound (heap k) (reverse (blk <$> ds2)) (blk d) (reverse (blk <$> ds1))) as (h & Hf & Hok' & HA'); [done..|].
  rewrite <- reverse_app, <- fmap_app in HA'. pose proof HU as (HR1 & HR2 & Hin).
  destruct (round_up_bounds (md_size d) heapAlign) as (_ & Hrb & _);
    [done|split; lia|unfold heapAlign, alignLine; lia|].
  assert (∀ x, 0 ≤ x < md_size d →
    KERNELMEM_ADDR + getStart R ≤ md_ptr d + x < KERNELMEM_ADDR + getEnd R) as Hx.
  { intros x Hx. apply Hin, Hb. unfold block. simpl. lia. }
  pose proof (Hx 0 ltac:(lia)). pose proof (Hx (md_size d - 1) ltac:(lia)).
  assert (isKernelAddress (md_ptr d) = true) as Hk by (apply isKernelAddress_spec; lia).
  exists (with_heap h (releaseRef k)). split.
  - unfold km_free, kbind, kassert, kget, modify_mem, kmodify, heap_update. rewrite Hk, !mem_set, HR.
    replace (contains R (bySize (fromKernel (md_ptr d)) (md_size d))) with true.
    2: { symmetry. apply contains_spec. unfold bySize, fromKernel. simpl.
         unfold KERNELMEM_ADDR, KERNELMEM_SIZE in *. rewrite (wrap_small 64 (md_ptr d - _)) by (split; lia).
         rewrite wrap_small by (split; lia). lia. }
    rewrite !mem_set. cbn [releaseRef heap]. simpl in Hf. rewrite Hf. by rewrite !set_mem_set.
  - unfold holds. simpl. split_and!; try done. rewrite Hc, !length_app. simpl. unfold wrap.
    rewrite Zminus_mod_idemp_l. f_equal. lia.
Qed.

Lemma km_free_spec k s d ds :
  holds k (d :: ds) →
  ∃ k', km_free (md_ptr d) (md_size d) (set_mem k s) = Done tt (set_mem k' s) ∧ holds k' ds.
Proof using HU. apply (km_free_any k s []). Qed.

Lemma km_freeAll_spec ds : ∀ k s,
  holds k ds → ∃ k', km_freeAll ds (set_mem k s) = Done tt (set_mem k' s) ∧ holds k' [].
Proof using HU.
  induction ds as [|d ds IH]; intros k s Hh; simpl; [by exists k|].
  destruct (km_free_spec k s d ds Hh) as (k1 & E1 & Hh1).
  rewrite (kbind_run _ _ _ _ _ E1). by apply IH.
Qed.

Lemma km_allocAll_spec k s ds :
  holds k [] → Forall desc_ok ds →
  ∃ ds' r k', km_allocAll ds (set_mem k s) = Done (ds', r) (set_mem k' s) ∧
    (r = OK tt ∧ holds k' ds' ∧
       (λ d, (md_size d, md_alignment d)) <$> ds' = (λ d, (md_size d, md_alignment d)) <$> ds ∨
     r = THROW UNSET ∧ holds k' []).
Proof using HU.
  intros Hh Hd. unfold km_allocAll.
  destruct (alloc_loop_spec ds k s [] Hh Hd) as (f & rest & r & k1 & E1 & Hh1 & Hr).
  rewrite (kbind_run _ _ _ _ _ E1). destruct Hr as [(-> & -> & Hm)| ->].
  - rewrite app_nil_r. eexists _, _, k1. split; [done|]. by left.
  - destruct (km_freeAll_spec f k1 s Hh1) as (k2 & E2 & Hh2).
    rewrite (kbind_run _ _ _ _ _ E2). eexists _, _, k2. split; [done|]. by right.
Qed.

End atomic.

(** Allocating a list of blocks is atomic: it either fills every descriptor,
    in order, with blocks that partition the memory together with the remaining
    free list and takes one reference per block; or it fails with [UNSET], and
    then exactly the addresses that were free before are free again and the
    reference count is unchanged.  No assertion fails on the way, including
    those of the rollback. *)
Theorem allocAll_atomic {S} `{HasMemory S} (k : KernelMemory) (s : S) ds :
  heap_ok 0 (heap k) → in_range (_range k) (free_at (heap k)) → fits 64 (refcount k) →
  Forall desc_ok ds →
  ∃ ds' r k', km_allocAll ds (set_mem k s) = Done (ds', r) (set_mem k' s) ∧
    heap_ok 0 (heap k') ∧ _range k' = _range k ∧
    (r = OK tt ∧ blocks_ok (heap k') (free_at (heap k)) (reverse (blk <$> ds')) ∧
       refcount k' = u64 (refcount k + Z.of_nat (List.length ds')) ∧
       (λ d, (md_size d, md_alignment d)) <$> ds' = (λ d, (md_size d, md_alignment d)) <$> ds ∨
     r = THROW UNSET ∧ (∀ p, free_at (heap k') p ↔ free_at (heap k) p) ∧
       refcount k' = refcount k).
Proof.
  intros Hok HU Hc Hd.
  destruct (km_allocAll_spec (_range k) (free_at (heap k)) (refcount k) HU k s ds)
    as (ds' & r & k' & E & Hr); [|done|].
  { split_and!; try done. simpl. by rewrite Z.add_0_r, wrap_small. }
  exists ds', r, k'. split; [done|].
  destruct Hr as [(-> & (Hok' & HA & HR & Hc') & Hm)|(-> & Hok' & HA & HR & Hc')].
  - split_and!; [done..|]. by left.
  - split_and!; [done..|]. right. split_and!; [done..|].
    simpl in Hc'. by rewrite Z.add_0_r, wrap_small in Hc'.
Qed.

(** A creation request with alignment zero divides by zero: the zero passes
    the test for page alignment and then is the divisor of the size test. *)
Theorem km_factory_zero_alignment {S} `{HasEntries S} `{KernelObjects S} `{HasMemory S}
    sizeof newObject objAddRange dstEntry memEntry memCap size (s : S) :
  km_factory sizeof newObject objAddRange dstEntry memEntry memCap size 0 s = AssertFail.
Proof. reflexivity. Qed.

Definition wkm : KernelMemory :=
  mkKM [mkFree (KERNELMEM_ADDR + 0x1000) 0x1000] (mkRange 0x1000 0x2000) 0.

Lemma wkm_free p : free_at (heap wkm) p → KERNELMEM_ADDR + 0x1000 ≤ p < KERNELMEM_ADDR + 0x2000.
Proof.
  intros [Hf|Hf]%free_at_cons; [|by apply free_at_nil in Hf]. unfold inr in Hf. simpl in *. lia.
Qed.

Lemma allocAll_atomic_witness :
  ∃ ds' r k', km_allocAll [mkDesc 0 100 64; mkDesc 0 200 64] (set_mem wkm wkm) =
      Done (ds', r) (set_mem k' wkm) ∧ heap_ok 0 (heap k').
Proof.
  destruct (allocAll_atomic wkm wkm [mkDesc 0 100 64; mkDesc 0 200 64])
    as (ds' & r & k' & E & Hok & _).
  - by repeat split.
  - split_and!; [done..|]. apply wkm_free.
  - by split.
  - by repeat constructor.
  - exists ds', r, k'. exact (conj E Hok).
Defined.
