(* ===== verification/CapMap.v ===== *)
(** * Capability maps

    Models objects/capmap/objects/CapMap.hh and .cc with the invocation
    messages of mythos/invocation/mythos/protocol/CapMap.hh: the guarded radix
    tree that translates capability pointers to entries, and the operations a
    user invokes on entries.

    A shift of a 32-bit word by 32 has no defined result in C++; it is
    [AssertFail] here. *)

From stdpp Require Import base tactics numbers list gmap.
From Stdlib Require Import ZArith Lia.
From S2P Require Import Prelude Ranges Bitfield Cap CapEntry CapRing CapSteps CapOps Revoke Heap KernelMemory.

Local Open Scope Z_scope.
Import PhysPtr.

(** [null_cap], mythos/caps/mythos/caps.hh:39 *)
Definition null_cap : Z := 0.

(** [ptrbits], objects/capmap/objects/CapMap.hh:91 *)
Definition ptrbits : Z := 32.

(** The members of [CapMap] that lookups read, objects/capmap/objects/CapMap.hh:87-91 *)
Record CapMap := mkCapMap { indexbits : Z; guardbits : Z; guard : Z }.

(** [CapEntryRef], objects/common/objects/ICapMap.hh:62-76 *)
Record CapEntryRef := mkEntryRef { ref_entry : Z; ref_container : Z }.

(** [CapMapData::writable], objects/capmap/objects/CapMap.cc:35-38 *)
Definition CapMapData_writable (d : Z) : bool := bget 32 0 d.

(** [CapMap::cap_count], objects/capmap/objects/CapMap.hh:58 *)
Definition cap_count (bits : Z) : Z := Z.shiftl 1 bits.

(** A right shift and a left shift of a 32-bit word. *)
Definition shr32 {S} (v n : Z) : kernel S Z :=
  kassert ((0 <=? n) && (n <? 32));;; kret (Z.shiftr v n).
Definition shl32 {S} (v n : Z) : kernel S Z :=
  kassert ((0 <=? n) && (n <? 32));;; kret (u32 (Z.shiftl v n)).

(** The capability maps of the system, by the address of the object, and the
    layout of a map: the distance of its entries from the object. *)
Class HasCapMaps (S : Type) := {
  capmap : S → Z → option CapMap;
  caps_offset : Z
}.

(** [CapMap::caps] and the entries behind it, objects/capmap/objects/CapMap.hh:85 *)
Definition caps {S} `{HasCapMaps S} (this index : Z) : Z := this + caps_offset + 16 * index.

Section capmap.
Context {S : Type} `{HasEntries S} `{KernelObjects S} `{HasCapMaps S}.

(** [CapMap::vcast] on the object at an address, objects/capmap/objects/CapMap.cc:213-217 *)
Definition castCapMap (obj : Z) : kernel S (optional Z) := λ s,
  match capmap s obj with
  | Some _ => Done (OK obj) s
  | None => Done (THROW TYPE_MISMATCH) s
  end.

Definition getMap (this : Z) : kernel S CapMap := λ s,
  match capmap s this with Some m => Done m s | None => AssertFail end.

(** [TypedCap<ICapMap>] of a capability, objects/capability-utils/objects/TypedCap.hh:110-120 *)
Definition typedCapMap (c : Z) : kernel S (optional Z) :=
  if negb (isUsable c) then kret (THROW INVALID_CAPABILITY) else castCapMap (getPtr c).

(** [CapMap::lookup], objects/capmap/objects/CapMap.cc:104-123 *)
Fixpoint lookup (fuel : nat) (this self ptr depth : Z) (writable : bool)
    : kernel S (optional CapEntryRef) :=
  match fuel with
  | O => spin
  | Datatypes.S fuel =>
    if writable && negb (CapMapData_writable (f_data self)) then kret (THROW NO_LOOKUP)
    else
      m <-- getMap this;;
      if depth <? guardbits m + indexbits m then kret (THROW INVALID_CAPABILITY)
      else
        g <-- shr32 ptr (ptrbits - guardbits m);;
        if negb (g =? guard m) then kret (THROW INVALID_CAPABILITY)
        else
          let depth := u8 (depth - guardbits m) in
          ptr <-- shl32 ptr (guardbits m);;
          index <-- shr32 ptr (ptrbits - indexbits m);;
          let depth := u8 (depth - indexbits m) in
          ptr <-- shl32 ptr (indexbits m);;
          let entry := caps this index in
          if depth =? 0 then kret (OK (mkEntryRef entry this))
          else
            c <-- cap entry;;
            sub <-- typedCapMap c;;
            match sub with
            | THROW e => kret (THROW e)
            | OK obj => lookup fuel obj c ptr depth writable
            end
  end.

(** [CapMap::mint], objects/capmap/objects/CapMap.cc:81-85 *)
Definition CapMap_mint (self request : Z) : optional Z :=
  OK (withData self (Z.land (f_data self) (u32 request))).

(** The loop of [CapMap::deleteCap] over the entries from [i] on,
    objects/capmap/objects/CapMap.cc:94-97 *)
Fixpoint deleteEntries (n : nat) (del : Z → kernel S (optional unit)) (this i : Z)
    : kernel S (optional unit) :=
  match n with
  | O => kret (OK tt)
  | Datatypes.S n =>
    res <-- del (caps this i);;
    match res with
    | THROW e => kret (THROW e)
    | OK _ => deleteEntries n del this (i + 1)
    end
  end.

(** [CapMap::deleteCap]; [del] and [delObject] are the methods of the deleter,
    objects/capmap/objects/CapMap.cc:87-102 *)
Definition CapMap_deleteCap (del : Z → kernel S (optional unit)) (delObject : Z → kernel S unit)
    (this self : Z) : kernel S (optional unit) :=
  if isOriginal self then
    m <-- getMap this;;
    res <-- deleteEntries (Z.to_nat (cap_count (indexbits m))) del this 0;;
    match res with
    | THROW e => kret (THROW e)
    | OK _ => delObject this;;; kret (OK tt)
    end
  else kret (OK tt).

(** ** Invocations *)

(** [protocol::CapMap::BinaryOp] with the request of [Derive] and [Reference],
    mythos/invocation/mythos/protocol/CapMap.hh:44-90 *)
Record BinaryOp := mkBinaryOp {
  srcDepth : Z; dstDepth : Z; dstCS : Z; srcPtr : Z; dstPtr : Z; request : Z }.

(** [IInvocation::lookupEntry] of the invocation message. *)
Context (lookupEntry : Z → kernel S (optional Z)).

(** [CapMap::lookupDst], objects/capmap/objects/CapMap.cc:145-158 *)
Definition lookupDst (fuel : nat) (this self : Z) (data : BinaryOp)
    : kernel S (optional CapEntryRef) :=
  if negb (dstCS data =? null_cap) then
    e <-- lookupEntry (dstCS data);;
    match e with
    | THROW x => kret (THROW x)
    | OK entry =>
      c <-- cap entry;;
      m <-- typedCapMap c;;
      match m with
      | THROW x => kret (THROW x)
      | OK obj => lookup fuel obj c (dstPtr data) (dstDepth data) true
      end
    end
  else lookup fuel this self (dstPtr data) (dstDepth data) true.

(** What [invokeDerive] and [invokeReference] share: the two lookups,
    objects/capmap/objects/CapMap.cc:168-173 *)
Definition withSrcDst (fuel : nat) (this self : Z) (data : BinaryOp)
    (op : Z → Z → Z → kernel S (optional unit)) : kernel S Error :=
  dstRef <-- lookupDst fuel this self data;;
  match dstRef with
  | THROW e => kret e
  | OK dst =>
    srcRef <-- lookup fuel this self (srcPtr data) (srcDepth data) false;;
    match srcRef with
    | THROW e => kret e
    | OK src =>
      c <-- cap (ref_entry src);;
      r <-- op (ref_entry src) (ref_entry dst) c;;
      kret (state r)
    end
  end.

(** [CapMap::invokeDerive], objects/capmap/objects/CapMap.cc:165-176 *)
Definition invokeDerive (fuel : nat) (this self : Z) (data : BinaryOp) : kernel S Error :=
  withSrcDst fuel this self data (λ src dst c, derive src dst c (request data)).

(** [CapMap::invokeReference], objects/capmap/objects/CapMap.cc:178-189 *)
Definition invokeReference (fuel : nat) (this self : Z) (data : BinaryOp) : kernel S Error :=
  withSrcDst fuel this self data (λ src dst c, reference src dst c (request data)).

(** [CapMap::invokeDelete]; the entry handed to [deletionResponse] and whether
    to delete or to revoke, objects/capmap/objects/CapMap.cc:191-200 *)
Definition invokeDelete (fuel : nat) (this self ptr depth : Z)
    : kernel S (Error * option (Z * bool)) :=
  ref <-- lookup fuel this self ptr depth true;;
  match ref with
  | THROW e => kret (e, None)
  | OK r => kret (INHIBIT, Some (ref_entry r, true))
  end.

(** [CapMap::invokeRevoke], objects/capmap/objects/CapMap.cc:202-211 *)
Definition invokeRevoke (fuel : nat) (this self ptr depth : Z)
    : kernel S (Error * option (Z * bool)) :=
  ref <-- lookup fuel this self ptr depth true;;
  match ref with
  | THROW e => kret (e, None)
  | OK r => kret (INHIBIT, Some (ref_entry r, false))
  end.

End capmap.

Section factory.
Context {S : Type} `{HasEntries S} `{KernelObjects S} `{HasCapMaps S} `{HasMemory S}.

(** [CapMap::size], objects/capmap/objects/CapMap.hh:56-57 *)
Definition CapMap_size (bits : Z) : Z := caps_offset + cap_count bits * 16.

(** The capability of a new map, objects/capmap/objects/CapMap.cc:72 *)
Definition newMapCap (obj : Z) : Z := withData (mkCap obj 0 NOFLAG) (bset 32 0 0 true).

(** [CapMapFactory::factory]; [newMap] is the constructor,
    objects/capmap/objects/CapMap.cc:65-79 *)
Definition CapMap_factory (newMap : Z → CapMap → kernel S unit)
    (dstEntry memEntry memCap ib gb g : Z) : kernel S (optional Z) :=
  kassert (ib <=? 32);;;
  ptr <-- km_alloc (CapMap_size ib) 64;;
  match ptr with
  | THROW e => kret (THROW e)
  | OK obj =>
    kassert (ib + gb <=? ptrbits);;;
    newMap obj (mkCapMap ib gb g);;;
    res <-- inherit memEntry memCap dstEntry (newMapCap obj) (kret tt);;
    match res with
    | THROW e => km_free obj (CapMap_size ib);;; kret (THROW e)
    | OK _ => kret (OK obj)
    end
  end.

(** [CapMapFactory::initial]: the map holds its own root entry, at [getRoot],
    objects/capmap/objects/CapMap.cc:48-63 *)
Definition CapMap_initial (newMap : Z → CapMap → kernel S unit) (getRoot : Z → Z)
    (memEntry memCap ib gb g : Z) : kernel S (optional Z) :=
  kassert (ib <=? 32);;;
  ptr <-- km_alloc (CapMap_size ib) 64;;
  match ptr with
  | THROW e => kret (THROW e)
  | OK obj =>
    kassert (ib + gb <=? ptrbits);;;
    newMap obj (mkCapMap ib gb g);;;
    res <-- inherit memEntry memCap (getRoot obj) (newMapCap obj) (kret tt);;
    match res with
    | THROW e => km_free obj (CapMap_size ib);;; kret (THROW e)
    | OK _ => kret (OK obj)
    end
  end.

End factory.

(** ** Capability pointers as paths

    The [depth] highest bits of a capability pointer, highest first, are a path
    through the tree of maps. *)

Fixpoint path (depth : nat) (ptr : Z) : list bool :=
  match depth with
  | O => []
  | Datatypes.S d => Z.testbit ptr 31 :: path d (u32 (Z.shiftl ptr 1))
  end.

Fixpoint bits_val (l : list bool) : Z :=
  match l with [] => 0 | b :: l => Z.b2z b * 2 ^ Z.of_nat (length l) + bits_val l end.

(** The maps whose shifts are all defined. *)
Definition map_ok (m : CapMap) : Prop :=
  1 ≤ guardbits m ∧ 1 ≤ indexbits m ∧ guardbits m + indexbits m ≤ 32.

Section walk.
Context {S : Type} `{HasEntries S} `{HasCapMaps S}.

(** Reference: a map strips its guard from the path, the next bits are the
    index, and the rest of the path continues in the map stored there. *)
Fixpoint walk (fuel : nat) (this self : Z) (p : list bool) (writable : bool)
    : kernel S (optional CapEntryRef) :=
  match fuel with
  | O => spin
  | Datatypes.S fuel =>
    if writable && negb (CapMapData_writable (f_data self)) then kret (THROW NO_LOOKUP)
    else
      m <-- getMap this;;
      let g := Z.to_nat (guardbits m) in
      let i := Z.to_nat (indexbits m) in
      if decide (length p < g + i)%nat then kret (THROW INVALID_CAPABILITY)
      else if negb (bits_val (take g p) =? guard m) then kret (THROW INVALID_CAPABILITY)
      else
        let entry := caps this (bits_val (take i (drop g p))) in
        match drop (g + i) p with
        | [] => kret (OK (mkEntryRef entry this))
        | p' =>
          c <-- cap entry;;
          sub <-- typedCapMap c;;
          match sub with
          | THROW e => kret (THROW e)
          | OK obj => walk fuel obj c p' writable
          end
        end
  end.

End walk.

Lemma length_path d ptr : length (path d ptr) = d.
Proof. revert ptr. induction d; intros; simpl; auto. Qed.

Lemma u32_shiftl_add ptr g h :
  0 ≤ g → 0 ≤ h → u32 (Z.shiftl (u32 (Z.shiftl ptr g)) h) = u32 (Z.shiftl ptr (g + h)).
Proof.
  intros Hg Hh. unfold wrap. rewrite !Z.shiftl_mul_pow2 by lia.
  rewrite Z.mul_mod_idemp_l by lia. by rewrite <-Z.mul_assoc, <-Z.pow_add_r.
Qed.

Lemma path_drop g d ptr :
  fits 32 ptr → drop g (path (g + d) ptr) = path d (u32 (Z.shiftl ptr (Z.of_nat g))).
Proof.
  revert ptr. induction g as [|g IH]; intros ptr Hp; simpl.
  - by rewrite Z.shiftl_0_r, wrap_small.
  - rewrite IH by (apply wrap_fits; lia). f_equal.
    rewrite u32_shiftl_add by lia. do 2 f_equal. lia.
Qed.

Lemma testbit31 ptr : fits 32 ptr → Z.b2z (Z.testbit ptr 31) = ptr / 2 ^ 31.
Proof.
  intros [H1 H2]. rewrite Z.testbit_spec' by lia. apply Z.mod_small.
  split; [apply Z.div_pos; lia|]. apply Z.div_lt_upper_bound; lia.
Qed.

Lemma u32_double ptr : fits 32 ptr → u32 (Z.shiftl ptr 1) = 2 * (ptr mod 2 ^ 31).
Proof.
  intros Hp. unfold wrap. rewrite Z.shiftl_mul_pow2 by lia.
  change (2 ^ 32) with (2 ^ 31 * 2 ^ 1). rewrite Z.mul_mod_distr_r by lia. lia.
Qed.

Lemma bits_val_take g d ptr :
  fits 32 ptr → (g ≤ d)%nat → (g ≤ 32)%nat →
  bits_val (take g (path d ptr)) = Z.shiftr ptr (32 - Z.of_nat g).
Proof.
  revert d ptr. induction g as [|g IH]; intros d ptr Hp Hgd Hg.
  - simpl. rewrite Z.shiftr_div_pow2 by lia. destruct Hp. by rewrite Z.div_small by lia.
  - destruct d as [|d]; [lia|]. cbn [take path bits_val]. rewrite IH by (lia || apply wrap_fits; lia).
    rewrite length_take, length_path, Nat.min_l by lia. rewrite testbit31 by done.
    rewrite !Z.shiftr_div_pow2 by lia. rewrite u32_double by done.
    set (k := 31 - Z.of_nat g).
    replace (32 - Z.of_nat (Datatypes.S g)) with k by lia.
    replace (32 - Z.of_nat g) with (1 + k) by lia. rewrite Z.pow_add_r, Z.pow_1_r by lia.
    rewrite Z.div_mul_cancel_l by lia.
    rewrite (Z.div_mod ptr (2 ^ 31)) at 3 by lia.
    replace (2 ^ 31) with (2 ^ Z.of_nat g * 2 ^ k) at 3
      by (rewrite <-Z.pow_add_r by lia; f_equal; lia).
    replace (2 ^ Z.of_nat g * 2 ^ k * (ptr / 2 ^ 31)) with ((ptr / 2 ^ 31 * 2 ^ Z.of_nat g) * 2 ^ k) by lia.
    rewrite Z.div_add_l by lia. done.
Qed.

Lemma path_index g i d ptr :
  fits 32 ptr → (g + i ≤ d)%nat → (d ≤ 32)%nat →
  bits_val (take i (drop g (path d ptr))) =
    Z.shiftr (u32 (Z.shiftl ptr (Z.of_nat g))) (32 - Z.of_nat i).
Proof.
  intros Hp Hgi Hd. replace d with (g + (d - g))%nat by lia. rewrite path_drop by done.
  apply bits_val_take; [apply wrap_fits; lia|lia..].
Qed.

Lemma path_rest g i d ptr :
  fits 32 ptr → (g + i ≤ d)%nat →
  drop (g + i) (path d ptr) =
    path (d - g - i) (u32 (Z.shiftl (u32 (Z.shiftl ptr (Z.of_nat g))) (Z.of_nat i))).
Proof.
  intros Hp Hgi. replace d with ((g + i) + (d - g - i))%nat at 1 by lia.
  rewrite path_drop by done. rewrite u32_shiftl_add by lia. do 3 f_equal. lia.
Qed.

Lemma shr32_run {S} v n (s : S) : 0 ≤ n < 32 → shr32 v n s = Done (Z.shiftr v n) s.
Proof. intros Hn. unfold shr32, kbind, kassert. by zcases. Qed.

Lemma shl32_run {S} v n (s : S) : 0 ≤ n < 32 → shl32 v n s = Done (u32 (Z.shiftl v n)) s.
Proof. intros Hn. unfold shl32, kbind, kassert. by zcases. Qed.

Section equivalence.
Context {S : Type} `{HasEntries S} `{HasCapMaps S}.
Context (Hmaps : ∀ (s : S) a m, capmap s a = Some m → map_ok m).
Implicit Types (s : S).

Lemma lookup_walk fuel : ∀ this self ptr depth w s,
  fits 32 ptr → 0 ≤ depth ≤ 32 →
  lookup fuel this self ptr depth w s = walk fuel this self (path (Z.to_nat depth) ptr) w s.
Proof using Hmaps.
  induction fuel as [|fuel IH]; intros this self ptr depth w s Hp Hd; [done|].
  cbn [lookup walk]. destruct (w && negb (CapMapData_writable (f_data self))); [done|].
  destruct (capmap s this) as [m|] eqn:Hm; [|unfold kbind, getMap; by rewrite Hm].
  assert (getMap this s = Done m s) as Hget by (unfold getMap; by rewrite Hm).
  rewrite !(kbind_run _ _ _ _ _ Hget).
  destruct (Hmaps s this m Hm) as (Hg & Hi & Hgi). rewrite length_path.
  destruct (Z.ltb_spec depth (guardbits m + indexbits m)).
  { rewrite decide_True by lia. done. }
  rewrite decide_False by lia.
  erewrite kbind_run by (apply shr32_run; unfold ptrbits; lia).
  rewrite bits_val_take by (done || lia). rewrite Z2Nat.id by lia. unfold ptrbits.
  destruct (negb (Z.shiftr ptr (32 - guardbits m) =? guard m)); [done|].
  erewrite kbind_run by (apply shl32_run; lia).
  erewrite kbind_run by (apply shr32_run; lia).
  erewrite kbind_run by (apply shl32_run; lia).
  rewrite path_index, path_rest by (done || lia). rewrite !Z2Nat.id by lia.
  rewrite (wrap_small 8 (depth - guardbits m)) by (split; lia).
  rewrite (wrap_small 8 (depth - guardbits m - indexbits m)) by (split; lia).
  replace (Z.to_nat depth - Z.to_nat (guardbits m) - Z.to_nat (indexbits m))%nat
    with (Z.to_nat (depth - guardbits m - indexbits m)) by lia.
  destruct (Z.eqb_spec (depth - guardbits m - indexbits m) 0) as [->|Hne]; [done|].
  destruct (path (Z.to_nat (depth - guardbits m - indexbits m)) _) as [|b p'] eqn:Hpath.
  { apply (f_equal length) in Hpath. rewrite length_path in Hpath. simpl in Hpath. lia. }
  rewrite <-Hpath. unfold kbind.
  destruct (cap _ s) as [c s1| |]; try done. destruct (typedCapMap c s1) as [[obj|e] s2| |]; try done.
  apply IH; [apply wrap_fits; lia|lia].
Qed.

(** Every map takes at least two bits of the path. *)
Lemma walk_terminates fuel : ∀ this self p w s,
  (length p < 2 * fuel)%nat → walk fuel this self p w s ≠ SpinsForever.
Proof using Hmaps.
  induction fuel as [|fuel IH]; intros this self p w s Hf; [lia|].
  cbn [walk]. destruct (w && negb (CapMapData_writable (f_data self))); [done|].
  destruct (capmap s this) as [m|] eqn:Hm; [|unfold kbind, getMap; by rewrite Hm].
  assert (getMap this s = Done m s) as Hget by (unfold getMap; by rewrite Hm).
  rewrite (kbind_run _ _ _ _ _ Hget).
  destruct (Hmaps s this m Hm) as (Hg & Hi & Hgi).
  destruct (decide _); [done|]. destruct (negb _); [done|].
  destruct (drop _ p) as [|b p'] eqn:Hdrop; [done|].
  apply (f_equal length) in Hdrop. rewrite length_drop in Hdrop.
  unfold kbind, cap, rd, kbind, typedCapMap, castCapMap. destruct (entries s !! _) as [e|]; [|done].
  simpl. destruct (negb (isUsable (_cap e))); [done|].
  destruct (capmap s (getPtr (_cap e))); [|done]. apply IH. simpl in *. lia.
Qed.

(** C19: looking up a capability pointer with shifts and masks is the walk along
    its bits: guard bits are compared, index bits select the entry, and the
    remaining bits continue in the map stored there, with the same errors; and
    17 nested maps are enough for every pointer, so that a lookup always ends
    even in a cyclic graph of maps. *)
Theorem lookup_correct this self ptr depth w s :
  fits 32 ptr → 0 ≤ depth ≤ 32 →
  lookup 17 this self ptr depth w s = walk 17 this self (path (Z.to_nat depth) ptr) w s ∧
  lookup 17 this self ptr depth w s ≠ SpinsForever.
Proof using Hmaps.
  intros Hp Hd. rewrite lookup_walk by done. split; [done|].
  apply walk_terminates. rewrite length_path. lia.
Qed.

End equivalence.

(** ** Witness

    A map with 20 guard bits and 12 index bits, as the root map of the initial
    process. *)

#[local] Instance wmaps : HasCapMaps (gmap Z CapEntry) := {|
  capmap := λ _ a, if a =? KERNELMEM_ADDR + 0x8000 then Some (mkCapMap 12 20 0) else None;
  caps_offset := 0x80 |}.

Lemma wmaps_ok (s : gmap Z CapEntry) a m : capmap s a = Some m → map_ok m.
Proof. simpl. destruct (a =? _); [|done]. intros [= <-]. by repeat split. Qed.

Lemma lookup_correct_witness :
  lookup 17 (KERNELMEM_ADDR + 0x8000) (newMapCap (KERNELMEM_ADDR + 0x8000)) 5 32 true ∅ =
    walk 17 (KERNELMEM_ADDR + 0x8000) (newMapCap (KERNELMEM_ADDR + 0x8000)) (path 32 5) true ∅ ∧
  lookup 17 (KERNELMEM_ADDR + 0x8000) (newMapCap (KERNELMEM_ADDR + 0x8000)) 5 32 true ∅ =
    Done (OK (mkEntryRef (KERNELMEM_ADDR + 0x8000 + 0x80 + 80) (KERNELMEM_ADDR + 0x8000))) ∅.
Proof.
  split; [|vm_compute; reflexivity].
  apply (lookup_correct wmaps_ok (KERNELMEM_ADDR + 0x8000)
    (newMapCap (KERNELMEM_ADDR + 0x8000)) 5 32 true ∅); [split; lia|lia].
Defined.
