(* ===== verification/Creation.v ===== *)
(** * Creation of kernel objects

    Models the invocation of objects/kernel-memory/objects/KernelMemory.cc through
    which all kernel objects are created, with its message of
    mythos/invocation/mythos/protocol/KernelMemory.hh: the entry for the new
    capability is looked up and acquired, and the factory named by the message
    allocates and links the object.  The factory of kernel memory itself, of
    KernelMemory.v, is shown to be a transaction.

    The invocation is the class [EntryLookups], the factories are the class
    [Factories]. *)

From stdpp Require Import base tactics numbers list gmap.
From Stdlib Require Import ZArith Lia.
From S2P Require Import Prelude Ranges Bitfield Cap CapEntry CapRing CapSteps CapOps Heap KernelMemory CapMap.

Local Open Scope Z_scope.
Import PhysPtr Align Intervals FirstFitHeap.

(** [IInvocation::lookupEntry] for a message,
    objects/common/objects/IInvocation.hh:80 *)
Class EntryLookups (S : Type) := { lookupEntryAt : Z → Z → Z → bool → kernel S (optional Z) }.

(** [IFactory]: the cast of an object and the virtual [factory] with the entries, the
    capability of the memory and the message,
    objects/common/objects/IFactory.hh:55-66 *)
Class Factories (S : Type) := {
  castFactory : Z → kernel S (optional Z);
  runFactory : Z → Z → Z → Z → Z → kernel S Error
}.

(** [protocol::KernelMemory::CreateBase],
    mythos/invocation/mythos/protocol/KernelMemory.hh:42-64 *)
Record CreateBase := mkCreate {
  cr_dstPtr : Z; cr_factory : Z; cr_dstSpace : Z; cr_dstDepth : Z }.

Section creation.
Context {S : Type} `{HasEntries S} `{KernelObjects S} `{HasCapMaps S} `{!EntryLookups S}
  `{!Factories S}.

(** The entry for a new capability: found directly or through the capability map
    [dstSpace], objects/kernel-memory/objects/KernelMemory.cc:162-172 *)
Definition dst_lookup (msg dstSpace dstPtr dstDepth : Z) : kernel S (optional Z) :=
  if dstSpace =? null_cap then lookupEntryAt msg dstPtr 32 true
  else
    e <-- lookupEntryAt msg dstSpace 32 false;;
    match e with
    | THROW err => kret (THROW err)
    | OK entry =>
      c <-- cap entry;;
      m <-- typedCapMap c;;
      match m with
      | THROW err => kret (THROW err)
      | OK obj =>
        r <-- lookup 17 obj c dstPtr dstDepth true;;
        kret (match r with OK ref => OK (ref_entry ref) | THROW err => THROW err end)
      end
    end.

(** [TypedCap<IFactory>] of a looked up entry,
    objects/kernel-memory/objects/KernelMemory.cc:175-176 *)
Definition factory_lookup (msg ptr : Z) : kernel S (optional Z) :=
  e <-- lookupEntryAt msg ptr 32 false;;
  match e with
  | THROW err => kret (THROW err)
  | OK entry =>
    c <-- cap entry;;
    if negb (isUsable c) then kret (THROW INVALID_CAPABILITY) else castFactory (getPtr c)
  end.

(** [KernelMemory::invokeCreate]; [memEntry] is the entry of the invoked capability
    [self], objects/kernel-memory/objects/KernelMemory.cc:156-182 *)
Definition invokeCreate (msg memEntry self : Z) (data : CreateBase) : kernel S Error :=
  dst <-- dst_lookup msg (cr_dstSpace data) (cr_dstPtr data) (cr_dstDepth data);;
  match dst with
  | THROW err => kret err
  | OK dstEntry =>
    factory <-- factory_lookup msg (cr_factory data);;
    match factory with
    | THROW err => kret err
    | OK f =>
      a <-- acquire dstEntry;;
      if negb (isOK a) then kret LOST_RACE else runFactory f dstEntry memEntry self msg
    end
  end.

(** [KernelMemory::invoke] when the monitor runs the request, up to the reply of the
    result; [create] holds the data of a message CREATE,
    objects/kernel-memory/objects/KernelMemory.cc:136-153 *)
Definition km_invoke (msg memEntry self : Z) (create : option CreateBase) : kernel S Error :=
  match create with
  | Some data => invokeCreate msg memEntry self data
  | None => kret NOT_IMPLEMENTED
  end.

End creation.

Section requests.
Context {S : Type} `{HasMemory S}.

(** The asynchronous [KernelMemory::free] when the monitor runs the request;
    [response] is the call of the result object, [requestDone] that of the monitor,
    objects/kernel-memory/objects/KernelMemory.cc:126-134 *)
Definition km_freeRequest (response requestDone : kernel S unit) (start length : Z) : kernel S unit :=
  km_free start length;;; response;;; requestDone.

(** [KernelMemory::free] of a list of blocks as a request,
    objects/kernel-memory/objects/KernelMemory.cc:115-124 *)
Definition km_freeAllRequest (response requestDone : kernel S unit) (ds : list MemoryDescriptor)
    : kernel S unit :=
  km_freeAll ds;;; response;;; requestDone.

End requests.

(** ** Creation is a transaction *)

(** Entries and kernel memory are separate parts of the state. *)
Class MemoryApart (S : Type) `{HasEntries S} `{HasMemory S} := {
  set_mem_entries k m s : set_mem k (set_entries m s) = set_entries m (set_mem k s)
}.

Section transaction.
Context {S : Type} `{HasEntries S} `{KernelObjects S} `{HasMemory S} `{!MemoryApart S}.
Context (R : Range) (U : Z → Prop) (c : Z) (HU : in_range R U).
Context (sizeof : Z) (newObject : Z → Range → kernel S unit) (objAddRange : Z → Z → Z → kernel S unit).

(** The constructor and [addRange] of the new object write to its own memory. *)
Hypothesis Hnew : ∀ o r s, newObject o r s = Done tt s.
Hypothesis Hadd : ∀ o a n s, objAddRange o a n s = Done tt s.

Lemma km_alloc_spec k (s : S) ds size al :
  holds R U c k ds → desc_ok (mkDesc 0 size al) →
  (∃ a k', km_alloc size al (set_mem k s) = Done (OK a) (set_mem k' s) ∧
           holds R U c k' (ds ++ [mkDesc a size al])) ∨
  km_alloc size al (set_mem k s) = Done (THROW UNSET) (set_mem k s).
Proof using HU.
  intros Hh Hd. unfold km_alloc.
  destruct (heap_alloc_spec R U c HU k s ds _ Hh Hd) as [(a & k' & E & Hh')|E]; cbn [md_size md_alignment] in *.
  - left. exists a, (acquireRef k'). rewrite (kbind_run _ _ _ _ _ E).
    unfold modify_mem, kmodify, kbind. by rewrite mem_set, set_mem_set.
  - right. by rewrite (kbind_run _ _ _ _ _ E).
Qed.

(** The state in which the new capability is linked or its failure is undone. *)
Definition created (size al : Z) (m : gmap Z CapEntry) l1 n l2 (d memCap : Z)
    (r : optional Z) (k' : KernelMemory) (m' : gmap Z CapEntry) : Prop :=
  match r with
  | OK o => n_cap n = memCap ∧ Ring m' (l1 ++ n :: fresh d (mkCap o 0 NOFLAG) :: l2) ∧
      ∃ a, holds R U c k' [mkDesc a size al; mkDesc o sizeof 64]
  | THROW _ => holds R U c k' [] ∧ m' = <[d := mkEntry asEmpty 0 0]> m
  end.

Lemma inherit_created k (s : S) m l1 n l2 d t memCap a o size al :
  holds R U c k [mkDesc a size al; mkDesc o sizeof 64] →
  Ring m (l1 ++ n :: l2) → n_locked n = false → d ∉ addrs (l1 ++ n :: l2) → capPointer d = true →
  m !! d = Some t → isAllocated (_cap t) = true →
  (∃ pr tr, hasRange (set_mem k s) (n_addr n) (n_cap n) pr ∧ hasRange (set_mem k s) d (mkCap o 0 NOFLAG) tr ∧
    linkable pr (n_cap n) tr (mkCap o 0 NOFLAG) = true) →
  ∃ r k' m',
    (res <-- inherit (n_addr n) memCap d (mkCap o 0 NOFLAG) (kret tt);;
     match res with
     | THROW e => km_free o sizeof;;; km_free a size;;; kret (THROW e)
     | OK _ => objAddRange o (fromKernel a) size;;; kret (OK o)
     end) (set_entries m (set_mem k s)) = Done r (set_entries m' (set_mem k' s)) ∧
    created size al m l1 n l2 d memCap r k' m'.
Proof using HU Hadd MemoryApart0.
  intros Hh HR Hl Hd Hcp Et Ha (pr & tr & Hpr & Htr & Hlink).
  destruct (decide (isUsable (n_cap n) = true ∧ n_cap n = memCap)) as [[Hu <-]|Hno].
  - destruct (inherit_ring m (set_mem k s) (set_mem k s) l1 n l2 d t (mkCap o 0 NOFLAG) pr tr (kret tt))
      as (m' & E & HR' & _); try done.
    rewrite (kbind_run _ _ _ _ _ E). unfold kbind. rewrite Hadd.
    exists (OK o), k, m'. split; [done|]. cbn. eauto.
  - assert (Hc : isUsable (n_cap n) = false ∨ n_cap n ≠ memCap).
    { destruct (isUsable (n_cap n)); [right|by left]. intros Hm. by apply Hno. }
    unfold inherit. rewrite (kbind_run _ _ _ _ _ (insertAfter_lost_race m (set_mem k s) l1 n l2 d t memCap
      (mkCap o 0 NOFLAG) _ HR Hl Hc Hd Et Ha)).
    rewrite <- set_mem_entries.
    destruct (km_free_any R U c HU k (set_entries (<[d := mkEntry asEmpty 0 0]> m) s) [mkDesc a size al]
      (mkDesc o sizeof 64) []) as (k1 & E1 & Hh1); [done|].
    cbn [md_ptr md_size] in E1. rewrite (kbind_run _ _ _ _ _ E1).
    destruct (km_free_any R U c HU k1 (set_entries (<[d := mkEntry asEmpty 0 0]> m) s) [] (mkDesc a size al) [])
      as (k2 & E2 & Hh2); [done|].
    cbn [md_ptr md_size] in E2. rewrite (kbind_run _ _ _ _ _ E2).
    exists (THROW LOST_RACE), k2, (<[d := mkEntry asEmpty 0 0]> m). by rewrite <- set_mem_entries.
Qed.

Lemma km_factory_created k (s : S) m l1 n l2 d t memCap size al :
  holds R U c k [] → desc_ok (mkDesc 0 size al) → desc_ok (mkDesc 0 sizeof 64) →
  is_aligned al align4K = true → is_aligned size al = true →
  Ring m (l1 ++ n :: l2) → n_locked n = false → d ∉ addrs (l1 ++ n :: l2) → capPointer d = true →
  m !! d = Some t → isAllocated (_cap t) = true →
  (∀ k o, U o → is_aligned o heapAlign = true → ∃ pr tr, hasRange (set_mem k s) (n_addr n) (n_cap n) pr ∧
     hasRange (set_mem k s) d (mkCap o 0 NOFLAG) tr ∧ linkable pr (n_cap n) tr (mkCap o 0 NOFLAG) = true) →
  ∃ r k' m',
    km_factory sizeof newObject objAddRange d (n_addr n) memCap size al (set_entries m (set_mem k s)) =
      Done r (set_entries m' (set_mem k' s)) ∧
    created size al m l1 n l2 d memCap r k' m'.
Proof using HU Hadd Hnew MemoryApart0.
  intros Hh Hd1 Hd2 Hal Hsz HR Hl Hd Hcp Et Ha Hlink.
  assert (Hreset : ∀ k, reset d (set_entries m (set_mem k s)) =
    Done tt (set_entries (<[d := mkEntry asEmpty 0 0]> m) (set_mem k s))).
  { intros k0. apply (reset_run m _ d t Et). by rewrite Ha, orb_true_r. }
  unfold km_factory, create. rewrite Hal, Hsz. cbn [negb].
  assert (Hnz : al ≠ 0) by (destruct Hd1 as (_ & _ & ? & _); cbn in *; lia).
  unfold kbind at 1. rewrite (proj2 (Z.eqb_neq _ _) Hnz), <- set_mem_entries. cbn [negb kassert].
  set (s' := set_entries m s).
  destruct (km_alloc_spec k s' [] size al Hh Hd1) as [(a & k1 & E1 & Hh1)|E1];
    rewrite (kbind_run _ _ _ _ _ E1).
  2: { exists (THROW UNSET), k, (<[d := mkEntry asEmpty 0 0]> m). unfold s'. rewrite set_mem_entries.
       by rewrite (kbind_run _ _ _ _ _ (Hreset k)). }
  destruct (km_alloc_spec k1 s' _ sizeof 64 Hh1 Hd2) as [(o & k2 & E2 & Hh2)|E2];
    rewrite (kbind_run _ _ _ _ _ E2).
  2: { destruct (km_free_any R U c HU k1 s' [] (mkDesc a size al) [] Hh1) as (k3 & E3 & Hh3).
       cbn [md_ptr md_size] in E3. rewrite (kbind_run _ _ _ _ _ E3).
       exists (THROW UNSET), k3, (<[d := mkEntry asEmpty 0 0]> m). unfold s'. rewrite set_mem_entries.
       by rewrite (kbind_run _ _ _ _ _ (Hreset k3)). }
  rewrite (kbind_run _ _ _ _ _ (Hnew _ _ _)). unfold s'. rewrite set_mem_entries.
  assert (Ho : U o ∧ is_aligned o heapAlign = true).
  { destruct Hh2 as (_ & HA & _). destruct (blocks_ok_in (heap k2) U [] (o, sizeof) _ HA) as (_ & Hs & Hoa & Hb).
    split; [|done]. apply Hb. unfold block. cbn in *. pose proof (round_len sizeof Hs) as [? ?]. lia. }
  pose proof (Hlink k2 o (proj1 Ho) (proj2 Ho)) as Hlo. eapply inherit_created; eauto.
Qed.

End transaction.


(** ** A memory of four pages *)

Record memory := mkMemory { my_entries : gmap Z CapEntry; my_mem : KernelMemory }.

#[local] Instance memory_entries : HasEntries memory.
Proof.
  refine (Build_HasEntries memory my_entries (λ m s, mkMemory m (my_mem s)) _ _ _); by intros; try destruct s.
Defined.
#[local] Instance memory_mem : HasMemory memory.
Proof.
  refine (Build_HasMemory memory my_mem (λ k s, mkMemory (my_entries s) k) _ _ _); by intros; try destruct s.
Defined.
#[local] Instance memory_apart : MemoryApart memory.
Proof. by split. Qed.

(** The memory object covers its pages, other objects cover their first byte. *)
Definition w_pages : Range := mkRange 0x10000 0x14000.
Definition w_range (o : Z) : Range := if o =? getPtr wcap then w_pages else bySize (fromKernel o) 1.
#[local] Instance memory_objects : KernelObjects memory := {|
  addressRange := λ o _ _, kret (w_range o); mint := default_mint; deleteCap := λ _ _ _, kret (OK tt) |}.

Definition w_free : KernelMemory := mkKM [mkFree (KERNELMEM_ADDR + 0x10000) 0x4000] w_pages 0.
Definition w_entries : gmap Z CapEntry :=
  <[wa 3 := mkEntry asAllocated 0 0]> (store_of [fresh (wa 0) wcap]).
Definition w_memory : memory := mkMemory w_entries w_free.

Lemma w_free_at p : free_at (heap w_free) p → KERNELMEM_ADDR + 0x10000 ≤ p < KERNELMEM_ADDR + 0x14000.
Proof.
  intros [Hf|Hf]%free_at_cons; [|by apply free_at_nil in Hf]. unfold inr in Hf. simpl in *. lia.
Qed.

Lemma w_linkable o :
  free_at (heap w_free) o → is_aligned o heapAlign = true →
  getPtr (mkCap o 0 NOFLAG) ≠ 0 ∧
  linkable w_pages wcap (w_range (getPtr (mkCap o 0 NOFLAG))) (mkCap o 0 NOFLAG) = true.
Proof.
  intros Ho%w_free_at Ha%is_aligned_spec.
  assert (Hin : o ∈ (λ j, KERNELMEM_ADDR + 64 * j) <$> seqZ 0x400 256).
  { apply list_elem_of_fmap. exists ((o - KERNELMEM_ADDR) / 64).
    assert (Hm : (o - KERNELMEM_ADDR) mod 64 = 0).
    { rewrite Zminus_mod. change (KERNELMEM_ADDR mod 64) with 0. change heapAlign with 64 in Ha. by rewrite Ha. }
    pose proof (Z.div_mod (o - KERNELMEM_ADDR) 64). rewrite elem_of_seqZ. split; lia. }
  revert o Hin Ho Ha. intros o Hin _ _. revert o Hin. apply Forall_forall. computes.
Qed.

