(* ===== verification/Frame.v ===== *)
(** * Frames: capabilities to ranges of physical memory

    Models the frame part of objects/memory-amd64: the sizes of
    mythos/invocation/mythos/protocol/Frame.hh, the capability data of
    objects/memory-amd64/objects/FrameDataAmd64.hh, MemoryRegion.hh and .cc
    (frames allocated from kernel memory) and DeviceMemory.hh and .cc (frames
    of the static device regions).

    A frame capability restricts the region its object manages to a
    power-of-two sized subrange; minting restricts it further. *)

From stdpp Require Import base tactics numbers list gmap.
From Stdlib Require Import ZArith Lia.
From S2P Require Import Prelude Ranges Bitfield Cap CapEntry CapRing CapSteps CapOps Heap KernelMemory.

Local Open Scope Z_scope.
Import PhysPtr Align.

(** [UIntField::operator()] with its assertion, util/bitfield/util/bitfield.hh:50-53 *)
Definition kuset {S} (w START BITS value v : Z) : kernel S Z :=
  kassert (uset_assert BITS v);;; kret (uset w START BITS value v).

Lemma kuset_run {S} w START BITS value v (s : S) :
  0 ≤ BITS → fits BITS v → kuset w START BITS value v s = Done (uset w START BITS value v) s.
Proof.
  intros HB [Hv1 Hv2]. unfold kuset, uset_assert, kbind, kassert, kret.
  by rewrite Z.shiftr_div_pow2, Z.div_small by lia.
Qed.

Module FrameSize.

(** [FrameSize::PAGE_MIN_SIZE], mythos/invocation/mythos/protocol/Frame.hh:36 *)
Definition PAGE_MIN_SIZE : Z := Z.shiftl 1 12.

(** [FrameSize::PAGE_SIZE_SHIFT], mythos/invocation/mythos/protocol/Frame.hh:37 *)
Definition PAGE_SIZE_SHIFT : Z := 9.

(** [FrameSize::PAGE_SIZE_FACTOR], mythos/invocation/mythos/protocol/Frame.hh:38 *)
Definition PAGE_SIZE_FACTOR : Z := Z.shiftl 1 PAGE_SIZE_SHIFT.

(** [FrameSize::FRAME_MIN_SIZE], mythos/invocation/mythos/protocol/Frame.hh:39 *)
Definition FRAME_MIN_SIZE : Z := PAGE_MIN_SIZE.

(** [FrameSize::FRAME_SIZE_SHIFT], mythos/invocation/mythos/protocol/Frame.hh:40 *)
Definition FRAME_SIZE_SHIFT : Z := 1.

(** [FrameSize::FRAME_SIZE_FACTOR], mythos/invocation/mythos/protocol/Frame.hh:41 *)
Definition FRAME_SIZE_FACTOR : Z := Z.shiftl 1 FRAME_SIZE_SHIFT.

(** [FrameSize::FRAME_MAX_BITS], mythos/invocation/mythos/protocol/Frame.hh:42 *)
Definition FRAME_MAX_BITS : Z := 25.

(** [FrameSize::REGION_MAX_SIZE], mythos/invocation/mythos/protocol/Frame.hh:44 *)
Definition REGION_MAX_SIZE : Z := FRAME_MIN_SIZE * Z.shiftl 1 FRAME_MAX_BITS.

(** [FrameSize::DEVICE_REGIONS], mythos/invocation/mythos/protocol/Frame.hh:47 *)
Definition DEVICE_REGIONS : Z := Z.shiftl 1 48 / REGION_MAX_SIZE.

(** [FrameSize::logBase]; a [size_t] needs at most 64 halvings,
    mythos/invocation/mythos/protocol/Frame.hh:49-51 *)
Fixpoint logBase (fuel : nat) (n base : Z) : Z :=
  match fuel with
  | O => 0
  | Datatypes.S fuel => if n <? base then 0 else 1 + logBase fuel (n / base) base
  end.

(** [FrameSize::frameBits2Size], mythos/invocation/mythos/protocol/Frame.hh:53-55 *)
Definition frameBits2Size (bits : Z) : Z :=
  u64 (Z.shiftl FRAME_MIN_SIZE (bits * FRAME_SIZE_SHIFT)).

(** [FrameSize::frameSize2Bits], mythos/invocation/mythos/protocol/Frame.hh:57-59 *)
Definition frameSize2Bits (size : Z) : Z :=
  logBase 64 (size / FRAME_MIN_SIZE) FRAME_SIZE_FACTOR.

(** [FrameSize::pageLevel2Size], mythos/invocation/mythos/protocol/Frame.hh:61-63 *)
Definition pageLevel2Size (level : Z) : Z :=
  u64 (Z.shiftl PAGE_MIN_SIZE (level * PAGE_SIZE_SHIFT)).

(** [FrameSize::pageSize2Level], mythos/invocation/mythos/protocol/Frame.hh:65-67 *)
Definition pageSize2Level (size : Z) : Z :=
  logBase 64 (size / PAGE_MIN_SIZE) PAGE_SIZE_FACTOR.

(** The fuel is enough: the logarithm of a power is its exponent. *)
Lemma logBase_pow fuel base k :
  2 ≤ base → (k < Z.of_nat fuel) → 0 ≤ k → logBase fuel (base ^ k) base = k.
Proof.
  intros Hb. revert k. induction fuel as [|fuel IH]; intros k Hk H0; [lia|]. simpl.
  destruct (decide (k = 0)) as [->|Hn].
  - by rewrite (proj2 (Z.ltb_lt _ _)) by lia.
  - assert (base ^ k = base ^ (k - 1) * base) as ->.
    { replace k with (Z.succ (k - 1)) at 1 by lia. rewrite Z.pow_succ_r by lia. lia. }
    assert (0 < base ^ (k - 1)) by (apply Z.pow_pos_nonneg; lia).
    rewrite (proj2 (Z.ltb_ge _ _)) by nia.
    rewrite Z.div_mul by lia. rewrite IH by lia. lia.
Qed.

Lemma frameBits2Size_eq b : 0 ≤ b ≤ 51 → frameBits2Size b = 2 ^ (12 + b).
Proof.
  intros Hb. unfold frameBits2Size, FRAME_MIN_SIZE, PAGE_MIN_SIZE, FRAME_SIZE_SHIFT.
  rewrite Z.mul_1_r, Z.shiftl_shiftl, Z.shiftl_1_l by lia. apply wrap_small.
  split; [apply Z.pow_nonneg; lia|]. by apply Z.pow_lt_mono_r; lia.
Qed.

Lemma frameSize2Bits_pow b : 0 ≤ b ≤ 51 → frameSize2Bits (2 ^ (12 + b)) = b.
Proof.
  intros Hb. unfold frameSize2Bits. change FRAME_MIN_SIZE with (2 ^ 12).
  rewrite Z.pow_add_r, Z.mul_comm, Z.div_mul by lia. 
  change FRAME_SIZE_FACTOR with 2. apply (logBase_pow 64); lia.
Qed.

End FrameSize.
Import FrameSize.

(** ** The capability data of a frame *)

Module FrameData.

(** [FrameData::writable], objects/memory-amd64/objects/FrameDataAmd64.hh:54 *)
Definition writable (d : Z) : bool := bget 32 0 d.

(** [FrameData::device], objects/memory-amd64/objects/FrameDataAmd64.hh:55 *)
Definition device (d : Z) : bool := bget 32 1 d.

(** [FrameData::sizeBits], objects/memory-amd64/objects/FrameDataAmd64.hh:56 *)
Definition sizeBits (d : Z) : Z := uget 32 2 5 d.

(** [FrameData::offset], objects/memory-amd64/objects/FrameDataAmd64.hh:57 *)
Definition offset (d : Z) : Z := uget 32 7 25 d.

(** [FrameData::getSize], objects/memory-amd64/objects/FrameDataAmd64.hh:62 *)
Definition getSize (d : Z) : Z := frameBits2Size (sizeBits d).

(** [FrameData::getStart], objects/memory-amd64/objects/FrameDataAmd64.hh:69 *)
Definition getStart (d base : Z) : Z := u64 (base + offset d * FRAME_MIN_SIZE).

(** [FrameData::getEnd], objects/memory-amd64/objects/FrameDataAmd64.hh:70 *)
Definition getEnd (d base : Z) : Z := u64 (getStart d base + getSize d).

(** [FrameData::size], objects/memory-amd64/objects/FrameDataAmd64.hh:63-67 *)
Definition size {S} (d sz : Z) : kernel S Z :=
  let bits := frameSize2Bits sz in
  kassert (sz =? frameBits2Size bits);;;
  kuset 32 2 5 d bits.

(** [FrameData::start], objects/memory-amd64/objects/FrameDataAmd64.hh:71-74 *)
Definition start {S} (d base addr : Z) : kernel S Z :=
  kassert ((base <=? addr) && (addr <? u64 (base + REGION_MAX_SIZE)));;;
  kuset 32 7 25 d ((addr - base) / FRAME_MIN_SIZE).

(** [FrameReq], mythos/invocation/mythos/protocol/Frame.hh:125-132 *)
Definition req_writable (r : Z) : bool := bget 32 0 r.

(** [FrameReq::device], mythos/invocation/mythos/protocol/Frame.hh:127 *)
Definition req_device (r : Z) : bool := bget 32 1 r.

(** [FrameReq::sizeBits], mythos/invocation/mythos/protocol/Frame.hh:128 *)
Definition req_sizeBits (r : Z) : Z := uget 32 2 5 r.

(** [FrameReq::offset], mythos/invocation/mythos/protocol/Frame.hh:129 *)
Definition req_offset (r : Z) : Z := uget 32 7 25 r.

(** The range of a frame capability inside the region of its object, as
    [getFrameInfo], [addressRange] and [subRegion] compute it,
    objects/memory-amd64/objects/FrameDataAmd64.hh:82 *)
Definition frameRange (base size self : Z) : Intervals.Range :=
  Intervals.bySize (getStart (f_data self) base)
    (if isOriginal self then size else getSize (f_data self)).

(** The requested range, objects/memory-amd64/objects/FrameDataAmd64.hh:83 *)
Definition requestRange (base self r : Z) : Intervals.Range :=
  Intervals.bySize (u64 (getStart (f_data self) base + FRAME_MIN_SIZE * req_offset r))
    (frameBits2Size (req_sizeBits r)).

(** [FrameData::subRegion], objects/memory-amd64/objects/FrameDataAmd64.hh:80-90 *)
Definition subRegion {S} (self base size r : Z) (derive : bool) : kernel S (optional Z) :=
  let old := f_data self in
  let oldRange := frameRange base size self in
  let newRange := requestRange base self r in
  if negb (Intervals.contains oldRange newRange) then kret (THROW INSUFFICIENT_RESOURCES)
  else if req_writable r && negb (writable old) then kret (THROW INSUFFICIENT_RESOURCES)
  else if negb (req_device r) && device old then kret (THROW INSUFFICIENT_RESOURCES)
  else
    let res := bset 32 1 (bset 32 0 0 (req_writable r)) (req_device r) in
    res <-- start res base (Intervals.getStart newRange);;
    res <-- FrameData.size res (Intervals.getSize newRange);;
    kret (OK (withData (if derive then asDerived self else asReference self) res)).

End FrameData.

(** ** Minting a frame never extends it *)

(** The result of the tests in [subRegion]. *)
Definition grantable (base size self r : Z) : bool :=
  Intervals.contains (FrameData.frameRange base size self) (FrameData.requestRange base self r) &&
  implies (FrameData.req_writable r) (FrameData.writable (f_data self)) &&
  implies (FrameData.device (f_data self)) (FrameData.req_device r).

(** A region in physical memory and a capability to a part of it. *)
Definition frame_ok (base size self : Z) : Prop :=
  fits 64 self ∧ fits 48 base ∧ 0 ≤ size ≤ REGION_MAX_SIZE ∧
  Intervals.contains (Intervals.bySize base size) (FrameData.frameRange base size self) = true.

Section mint.
Context (base size self r : Z) (Hok : frame_ok base size self) (Hr : fits 32 r).
Import FrameData.

Lemma offset_range d : fits 32 d → 0 ≤ offset d < 2 ^ 25.
Proof. intros Hd. apply (uget_fits 32 7 25); [field_side|done]. Qed.

Lemma getStart_eq d : fits 32 d → getStart d base = base + 4096 * offset d.
Proof using Hok.
  intros Hd. pose proof (offset_range d Hd). destruct Hok as (_ & [Hb1 Hb2] & _).
  unfold getStart. change FRAME_MIN_SIZE with 4096. rewrite wrap_small; [lia|]. split; lia.
Qed.

Lemma size_range d : fits 32 d → 0 ≤ uget 32 2 5 d < 32.
Proof. intros Hd. apply (uget_fits 32 2 5); [field_side|done]. Qed.

Lemma frame_data_fits : fits 32 (f_data self).
Proof using Hok. destruct Hok as [Hs _]. apply (uget_fits 64 32 32); [field_side|done]. Qed.

(** The requested range, without wrap-around. *)
Lemma requestRange_eq :
  requestRange base self r =
  Intervals.mkRange (base + 4096 * (offset (f_data self) + req_offset r))
    (base + 4096 * (offset (f_data self) + req_offset r) + 2 ^ (12 + req_sizeBits r)).
Proof using Hok Hr.
  pose proof frame_data_fits as Hd. pose proof (offset_range _ Hd) as Ho.
  pose proof (offset_range _ Hr) as Hor. pose proof (size_range _ Hr) as Hs.
  destruct Hok as (_ & [Hb1 Hb2] & _).
  unfold requestRange, Intervals.bySize. rewrite getStart_eq by done.
  fold (req_sizeBits r) in Hs. fold (offset r) in Hor. change (offset r) with (req_offset r) in Hor.
  change FRAME_MIN_SIZE with 4096. rewrite frameBits2Size_eq by lia.
  assert (2 ^ (12 + req_sizeBits r) ≤ 2 ^ 43) by (apply Z.pow_le_mono_r; lia).
  assert (0 < 2 ^ (12 + req_sizeBits r)) by (apply Z.pow_pos_nonneg; lia).
  rewrite !(wrap_small 64) by (rewrite ?wrap_small; split; lia).
  f_equal; lia.
Qed.

(** The data word that [subRegion] assembles. *)
Definition sub_data : Z :=
  uset 32 2 5
    (uset 32 7 25 (bset 32 1 (bset 32 0 0 (req_writable r)) (req_device r))
      (offset (f_data self) + req_offset r))
    (req_sizeBits r).

Lemma req_bounds : 0 ≤ req_offset r < 2 ^ 25 ∧ 0 ≤ req_sizeBits r < 32 ∧
  0 < 2 ^ (12 + req_sizeBits r) ≤ 2 ^ 43.
Proof using Hr.
  pose proof (offset_range _ Hr) as Hor. pose proof (size_range _ Hr) as Hs.
  fold (req_sizeBits r) in Hs. change (offset r) with (req_offset r) in Hor.
  split_and!; try lia. apply Z.pow_le_mono_r; lia.
Qed.

(** A granted range starts inside the region. *)
Lemma granted_offset :
  grantable base size self r = true → 0 ≤ offset (f_data self) + req_offset r < 2 ^ 25.
Proof using Hok Hr.
  intros [[Hin _]%andb_prop _]%andb_prop. pose proof (offset_range _ frame_data_fits) as Ho.
  pose proof req_bounds as ([Hor _] & _ & Hpow).
  pose proof Hok as (_ & [Hb1 Hb2] & [Hz1 Hz2] & Hreg).
  pose proof (Intervals.contains_trans _ _ _ Hreg Hin) as Hc.
  rewrite requestRange_eq, Intervals.contains_spec in Hc. unfold Intervals.bySize in Hc.
  cbn [Intervals.getStart Intervals.getEnd] in Hc.
  change REGION_MAX_SIZE with (2 ^ 37) in Hz2. rewrite wrap_small in Hc by (split; lia). lia.
Qed.

Lemma sub_data_fits : fits 32 sub_data.
Proof. unfold sub_data. fits_tac. Qed.

Lemma sub_data_fields :
  grantable base size self r = true →
  writable sub_data = req_writable r ∧ device sub_data = req_device r ∧
  getStart sub_data base = Intervals.getStart (requestRange base self r) ∧
  getSize sub_data = 2 ^ (12 + req_sizeBits r).
Proof using Hok Hr.
  intros Hg. pose proof (granted_offset Hg). pose proof req_bounds as (_ & Hs & _).
  rewrite getStart_eq, requestRange_eq by apply sub_data_fits.
  unfold writable, device, offset at 1, getSize, sizeBits, sub_data.
  field_simpl; try (split; lia). split_and!; try done. apply frameBits2Size_eq. lia.
Qed.

Lemma subRegion_run {S} (s : S) derive :
  grantable base size self r = true →
  subRegion self base size r derive s =
    Done (OK (withData (if derive then asDerived self else asReference self) sub_data)) s.
Proof using Hok Hr.
  intros Hg. pose proof (granted_offset Hg) as Ho. pose proof req_bounds as (_ & Hs & Hpow).
  pose proof Hok as (_ & [Hb1 Hb2] & _). unfold subRegion, sub_data.
  unfold grantable, implies in Hg. apply andb_prop in Hg as [[-> Hw]%andb_prop Hdv].
  replace (req_writable r && negb (writable (f_data self))) with false
    by by destruct (req_writable r), (writable (f_data self)).
  replace (negb (req_device r) && device (f_data self)) with false
    by by destruct (req_device r), (device (f_data self)).
  cbn [negb].
  rewrite requestRange_eq. unfold start, FrameData.size, kuset, Intervals.getSize.
  cbn [Intervals.getStart Intervals.getEnd].
  set (o := offset (f_data self) + req_offset r) in *.
  replace (u64 (base + 4096 * o + 2 ^ (12 + req_sizeBits r) - (base + 4096 * o)))
    with (2 ^ (12 + req_sizeBits r)) by (rewrite wrap_small; [lia|split; lia]).
  rewrite frameSize2Bits_pow, frameBits2Size_eq by lia. change FRAME_MIN_SIZE with 4096.
  replace ((base + 4096 * o - base) / 4096) with o
    by (replace (base + 4096 * o - base) with (o * 4096) by lia; by rewrite Z.div_mul).
  change REGION_MAX_SIZE with (2 ^ 37). rewrite (wrap_small 64) by (split; lia).
  unfold kbind, kassert, kret, uset_assert. rewrite !Z.shiftr_div_pow2, Z.eqb_refl by lia.
  rewrite !Z.div_small by lia.
  by rewrite (proj2 (Z.leb_le _ _)), (proj2 (Z.ltb_lt _ _)) by lia.
Qed.

Lemma subRegion_denied {S} (s : S) derive :
  grantable base size self r = false →
  subRegion self base size r derive s = Done (THROW INSUFFICIENT_RESOURCES) s.
Proof.
  unfold subRegion, grantable, implies. intros Hg.
  destruct (Intervals.contains _ _); [|done]. cbn [negb andb] in *.
  destruct (req_writable r), (writable _), (req_device r), (device _); done.
Qed.

End mint.

(** The fields of a minted capability. *)
Lemma minted_fields self d (derive : bool) :
  fits 64 self → fits 32 d →
  let c := withData (if derive then asDerived self else asReference self) d in
  fits 64 c ∧ f_data c = d ∧ getPtr c = getPtr self ∧ isOriginal c = false.
Proof.
  intros Hs Hd c. unfold c, getPtr.
  destruct derive; cap_simpl; (split_and!; [fits_tac|done|done|]);
    by destruct (bget 64 30 self), (bget 64 31 self).
Qed.

(** Minting a frame capability never escalates.  A request that lies inside
    the frame, asks for write access only if the frame has it and keeps the
    device restriction yields a capability of the same object to exactly the
    requested range, with exactly the requested rights, on which the same
    holds again; every other request is answered with INSUFFICIENT_RESOURCES.
    No assertion fails. *)
Theorem subRegion_restricts {S} base size self r derive (s : S) :
  frame_ok base size self → fits 32 r →
  (grantable base size self r = false ∧
   FrameData.subRegion self base size r derive s = Done (THROW INSUFFICIENT_RESOURCES) s) ∨
  (∃ c, FrameData.subRegion self base size r derive s = Done (OK c) s ∧
    getPtr c = getPtr self ∧ frame_ok base size c ∧
    FrameData.frameRange base size c = FrameData.requestRange base self r ∧
    Intervals.contains (FrameData.frameRange base size self)
      (FrameData.frameRange base size c) = true ∧
    FrameData.writable (f_data c) = FrameData.req_writable r ∧
    (FrameData.writable (f_data c) = true → FrameData.writable (f_data self) = true) ∧
    FrameData.device (f_data c) = FrameData.req_device r ∧
    (FrameData.device (f_data self) = true → FrameData.device (f_data c) = true)).
Proof.
  intros Hok Hr. destruct (grantable base size self r) eqn:Hg;
    [right|left; by split; [|apply subRegion_denied]].
  pose proof (sub_data_fields base size self r Hok Hr Hg) as (Hw & Hdv & Hst & Hsz).
  pose proof Hok as (Hs & Hb & Hz & Hreg).
  destruct (minted_fields self (sub_data self r) derive Hs (sub_data_fits self r))
    as (Hf & Hd & Hp & Ho).
  eexists. split; [by apply subRegion_run|]. set (c := withData _ _) in *.
  unfold grantable, implies in Hg. apply andb_prop in Hg as [[Hin Hgw]%andb_prop Hgd].
  assert (FrameData.frameRange base size c = FrameData.requestRange base self r) as Heq.
  { unfold FrameData.frameRange. rewrite Ho, Hd, Hst, Hsz, (requestRange_eq base size) by done.
    unfold Intervals.bySize. cbn [Intervals.getStart]. f_equal.
    pose proof (offset_range _ (frame_data_fits base size self Hok)).
    pose proof (req_bounds r Hr) as (? & _ & ?). destruct Hb. apply wrap_small. split; lia. }
  rewrite Heq, Hd, Hw, Hdv. unfold frame_ok. rewrite Heq.
  split_and!; try (done || lia).
  - by eapply Intervals.contains_trans.
  - intros Hq. by rewrite Hq in Hgw.
  - intros Hq. by rewrite Hq in Hgd.
Qed.

(** A region of 1 MiB at 16 MiB and its original capability. *)
Definition wbase : Z := 0x1000000.
Definition wsize : Z := 0x100000.
Definition wframe : Z := mkCap 0xffff800000012340 1 NOFLAG.

(** The request of the 64 KiB at offset 128 KiB, read only. *)
Definition wrequest : Z := Z.lor (Z.shiftl 32 7) (Z.shiftl 4 2).

Lemma subRegion_restricts_witness :
  ∃ c, FrameData.subRegion wframe wbase wsize wrequest true tt = Done (OK c) tt ∧
    FrameData.frameRange wbase wsize c = Intervals.mkRange 0x1020000 0x1030000 ∧
    FrameData.writable (f_data c) = false.
Proof.
  destruct (subRegion_restricts wbase wsize wframe wrequest true tt) as [[Hg _]|(c & Hc & H)].
  - repeat split; vm_compute; congruence.
  - split; vm_compute; congruence.
  - by vm_compute in Hg.
  - exists c. destruct H as (_ & _ & -> & _ & -> & _).
    exact (conj Hc (conj eq_refl eq_refl)).
Defined.

(** ** Memory regions *)

Module MemoryRegion.

(** The members of [MemoryRegion], objects/memory-amd64/objects/MemoryRegion.hh:105-106 *)
Record MemoryRegion := mkRegion { base : Z; size : Z }.

(** [IFrame::Info], objects/common/objects/IFrame.hh:37-44 *)
Record Info := mkInfo { i_start : Z; i_size : Z; i_device : bool; i_writable : bool }.

(** [MemoryRegion::getFrameInfo], objects/memory-amd64/objects/MemoryRegion.hh:53-56 *)
Definition getFrameInfo (this : MemoryRegion) (self : Z) : Info :=
  let c := f_data self in
  mkInfo (FrameData.getStart c (base this))
    (if isOriginal self then size this else FrameData.getSize c)
    (FrameData.device c) (FrameData.writable c).

(** [MemoryRegion::deleteCap]: whether the object is queued for deletion,
    objects/memory-amd64/objects/MemoryRegion.hh:64-67 *)
Definition deleteCap (self : Z) : bool := isOriginal self.

(** [MemoryRegion::deleteObject]: the blocks that are freed,
    objects/memory-amd64/objects/MemoryRegion.hh:69-73 *)
Definition deleteObject {S} (sizeof this : Z) (r : MemoryRegion) : kernel S (list MemoryDescriptor) :=
  kassert (kernelmem (base r));;;
  kret [mkDesc (logint (base r)) (size r) 0; mkDesc this sizeof 0].

(** [MemoryRegion::mint], objects/memory-amd64/objects/MemoryRegion.hh:75-77 *)
Definition mint {S} (this : MemoryRegion) (self request : Z) (derive : bool)
    : kernel S (optional Z) :=
  FrameData.subRegion self (base this) (size this) request derive.

(** [MemoryRegion::addressRange], objects/memory-amd64/objects/MemoryRegion.hh:79-82 *)
Definition addressRange (this : MemoryRegion) (self : Z) : Intervals.Range :=
  let c := f_data self in
  Intervals.bySize (FrameData.getStart c (base this))
    (if isOriginal self then size this else FrameData.getSize c).

Section factory.
Context {S : Type} `{HasEntries S} `{KernelObjects S} `{HasMemory S}.

(** [MemoryRegionFactory::factory]: [sizeof] is the size of the object and
    [newObject] its constructor; the remainder of a division by a zero
    alignment is a processor exception,
    objects/memory-amd64/objects/MemoryRegion.cc:32-59 *)
Definition factory (sizeof : Z) (newObject : Z → MemoryRegion → kernel S unit)
    (dstEntry memEntry memCap size alignment : Z) : kernel S (optional Z) :=
  if negb (is_aligned alignment align4K) then kret (THROW UNALIGNED) else
  kassert (negb (alignment =? 0));;;
  if negb (is_aligned size alignment) then kret (THROW UNALIGNED)
  else
    region <-- km_alloc size alignment;;
    match region with
    | THROW e => reset dstEntry;;; kret (THROW e)
    | OK p =>
      kassert (isKernelAddress p);;;
      obj <-- create sizeof;;
      match obj with
      | THROW e => km_free p size;;; reset dstEntry;;; kret (THROW e)
      | OK o =>
        newObject o (mkRegion (fromKernel p) size);;;
        let capData := bset 32 0 (bset 32 1 (uset 32 2 5 (uset 32 7 25 0 0) 0) false) true in
        res <-- inherit memEntry memCap dstEntry (mkCap o capData NOFLAG) (kret tt);;
        match res with
        | THROW e => km_free o sizeof;;; km_free p size;;; kret (THROW e)
        | OK _ => kret (OK o)
        end
      end
    end.

End factory.
End MemoryRegion.

(** ** Device memory *)

Module DeviceMemory.

(** [DeviceMemory::DeviceMemory]: the base of region [i],
    objects/memory-amd64/objects/DeviceMemory.cc:39-44 *)
Definition region_base (i : Z) : Z := REGION_MAX_SIZE * i.

(** [DeviceMemory::addressRange], objects/memory-amd64/objects/DeviceMemory.hh:62 *)
Definition rootRange : Intervals.Range := Intervals.mkRange 0 (u64 (Z.lnot 0)).

(** [DeviceMemory::Region::getFrameInfo], objects/memory-amd64/objects/DeviceMemory.hh:84-87 *)
Definition Region_getFrameInfo (base self : Z) : MemoryRegion.Info :=
  let c := f_data self in
  MemoryRegion.mkInfo (FrameData.getStart c base)
    (if isOriginal self then REGION_MAX_SIZE else FrameData.getSize c)
    (FrameData.device c) (FrameData.writable c).

(** [DeviceMemory::Region::mint], objects/memory-amd64/objects/DeviceMemory.hh:97-99 *)
Definition Region_mint {S} (base self request : Z) (derive : bool) : kernel S (optional Z) :=
  FrameData.subRegion self base REGION_MAX_SIZE request derive.

(** [DeviceMemory::Region::addressRange], objects/memory-amd64/objects/DeviceMemory.hh:101-104 *)
Definition Region_addressRange (base self : Z) : Intervals.Range :=
  let c := f_data self in
  Intervals.bySize (FrameData.getStart c base)
    (if isOriginal self then REGION_MAX_SIZE else FrameData.getSize c).

Section device.
Context {S : Type} `{HasEntries S} `{KernelObjects S}.
(** The address of [_memory_region[i]]. *)
Context (region_addr : Z → Z).

(** [DeviceMemory::deriveFrame], objects/memory-amd64/objects/DeviceMemory.cc:46-67 *)
Definition deriveFrame (rootEntry rootCap dstEntry addr size : Z) (writable : bool)
    : kernel S (optional unit) :=
  if DEVICE_REGIONS <=? addr / REGION_MAX_SIZE then kret (THROW INSUFFICIENT_RESOURCES)
  else if negb (is_aligned addr align4K) || negb (is_aligned size align4K)
  then kret (THROW UNALIGNED)
  else
    let sizeBits := frameSize2Bits size in
    if negb (size =? frameBits2Size sizeBits) then kret (THROW UNALIGNED)
    else
      let obj := region_addr (addr / REGION_MAX_SIZE) in
      let base := region_base (addr / REGION_MAX_SIZE) in
      kassert (base =? round_down addr REGION_MAX_SIZE);;;
      a <-- acquire dstEntry;;
      if negb (isOK a) then kret (THROW LOST_RACE)
      else
        d <-- FrameData.start 0 base addr;;
        d <-- kuset 32 2 5 d sizeBits;;
        let capData := bset 32 0 (bset 32 1 d true) writable in
        inherit rootEntry rootCap dstEntry (asDerived (mkCap obj capData NOFLAG)) (kret tt).

(** The objects answer [addressRange] as the classes above define it. *)
Context (rootObj : Z)
  (Hroot : ∀ e c (s : S), CapOps.addressRange rootObj e c s = Done rootRange s)
  (Hregion : ∀ i e c (s : S), 0 ≤ i < DEVICE_REGIONS →
     CapOps.addressRange (region_addr i) e c s = Done (Region_addressRange (region_base i) c) s)
  (Hptr : ∀ i, 0 ≤ i < DEVICE_REGIONS → capPointer (region_addr i) = true).

(** The capability that [deriveFrame] creates. *)
Definition device_cap (addr b : Z) (writable : bool) : Z :=
  asDerived (mkCap (region_addr (addr / REGION_MAX_SIZE))
    (bset 32 0 (bset 32 1 (uset 32 2 5 (uset 32 7 25 0 (addr mod REGION_MAX_SIZE / 4096)) b) true)
      writable) NOFLAG).

Lemma device_cap_unfold addr b w :
  device_cap addr b w =
  asDerived (mkCap (region_addr (addr / REGION_MAX_SIZE))
    (bset 32 0 (bset 32 1 (uset 32 2 5 (uset 32 7 25 0 (addr mod REGION_MAX_SIZE / 4096)) b) true)
      w) NOFLAG).
Proof. reflexivity. Qed.

(** A device address in the fields of the model. *)
Definition device_ok (addr b : Z) : Prop :=
  0 ≤ addr < 2 ^ 48 ∧ addr mod 4096 = 0 ∧ 0 ≤ b < 32.

Lemma device_index addr b : device_ok addr b →
  0 ≤ addr / REGION_MAX_SIZE < DEVICE_REGIONS ∧
  0 ≤ addr mod REGION_MAX_SIZE / 4096 < 2 ^ 25 ∧
  REGION_MAX_SIZE * (addr / REGION_MAX_SIZE) + addr mod REGION_MAX_SIZE / 4096 * 4096 = addr.
Proof.
  intros (Ha & Hal & _). change DEVICE_REGIONS with (2 ^ 11). change REGION_MAX_SIZE with (2 ^ 37).
  pose proof (Z.mod_pos_bound addr (2 ^ 37)). pose proof (Z.div_mod addr (2 ^ 37)).
  pose proof (Z.div_mod addr 4096).
  assert ((addr mod 2 ^ 37) mod 4096 = 0) as Hm.
  { rewrite Z.mod_mod_divide; [done|]. by exists (2 ^ 25). }
  pose proof (Z.div_mod (addr mod 2 ^ 37) 4096). split_and!; lia.
Qed.

Lemma device_cap_fields addr b w : device_ok addr b →
  getPtr (device_cap addr b w) = region_addr (addr / REGION_MAX_SIZE) ∧
  getPtr (device_cap addr b w) ≠ 0 ∧
  Region_addressRange (region_base (addr / REGION_MAX_SIZE)) (device_cap addr b w) =
    Intervals.mkRange addr (addr + 2 ^ (12 + b)) ∧
  FrameData.device (f_data (device_cap addr b w)) = true ∧
  FrameData.writable (f_data (device_cap addr b w)) = w ∧
  isReference (device_cap addr b w) = false ∧ isDerived (device_cap addr b w) = true.
Proof using Hptr.
  intros Hok. pose proof (device_index addr b Hok) as (Hi & Ho & Heq).
  destruct Hok as (Ha & _ & Hb). set (i := addr / REGION_MAX_SIZE) in *.
  set (o := addr mod REGION_MAX_SIZE / 4096) in *.
  assert (2 ^ (12 + b) ≤ 2 ^ 43) by (apply Z.pow_le_mono_r; lia).
  assert (0 < 2 ^ (12 + b)) by (apply Z.pow_pos_nonneg; lia).
  unfold device_cap. fold i o. set (d := bset 32 0 _ w).
  assert (fits 32 d) as Hd by (apply bset_fits; lia).
  assert (getPtr (asDerived (mkCap (region_addr i) d NOFLAG)) = region_addr i) as Hp.
  { unfold asDerived. rewrite getPtr_bset by lia. by apply getPtr_mkCap, Hptr. }
  assert (f_data (asDerived (mkCap (region_addr i) d NOFLAG)) = d) as Hdata.
  { unfold asDerived. rewrite f_data_bset by (lia || apply mkCap_fits). by apply f_data_mkCap. }
  assert (fits 25 o) by (split; lia). assert (fits 5 b) by (split; lia).
  split_and!; [done| | | | | |].
  - rewrite Hp. by apply capPointer_ne0, Hptr.
  - unfold Region_addressRange, isOriginal. rewrite Hdata.
    replace (isDerived _) with true by by cap_simpl. cbn [negb andb].
    unfold FrameData.getStart, FrameData.getSize, FrameData.offset, FrameData.sizeBits, d.
    field_simpl. rewrite frameBits2Size_eq by lia. change FRAME_MIN_SIZE with 4096.
    unfold region_base, Intervals.bySize. rewrite Heq.
    rewrite !(wrap_small 64) by (rewrite ?wrap_small; split; lia). done.
  - rewrite Hdata. unfold FrameData.device, d. by field_simpl.
  - rewrite Hdata. unfold FrameData.writable, d. by field_simpl.
  - unfold NOFLAG. by cap_simpl.
  - by cap_simpl.
Qed.

Lemma device_linkable p addr b w : device_ok addr b →
  linkable rootRange p (Intervals.mkRange addr (addr + 2 ^ (12 + b))) (device_cap addr b w) = true.
Proof using Hptr.
  intros Hok. pose proof (device_cap_fields addr b w Hok) as (_ & _ & _ & _ & _ & Hr & Hd).
  destruct Hok as (Ha & _ & Hb).
  assert (2 ^ (12 + b) ≤ 2 ^ 43) by (apply Z.pow_le_mono_r; lia).
  set (tr := Intervals.mkRange _ _). change rootRange with (Intervals.mkRange 0 (2 ^ 64 - 1)).
  set (pr := Intervals.mkRange _ _).
  assert (Intervals.contains pr tr = true) as Hc1
    by (apply Intervals.contains_spec; cbn; lia).
  assert (Intervals.contains tr pr = false) as Hc2.
  { apply not_true_iff_false. rewrite Intervals.contains_spec. cbn. lia. }
  unfold linkable, treeOk, childOf. rewrite Hc1, Hc2. by destruct (isReference p).
Qed.

(** Up to the acquisition of the destination all tests pass. *)
Lemma deriveFrame_run m s e c dst addr b w t :
  0 ≤ addr < 2 ^ 48 → addr mod 4096 = 0 → 0 ≤ b ≤ 51 → m !! dst = Some t → _cap t = asEmpty →
  deriveFrame e c dst addr (2 ^ (12 + b)) w (set_entries m s) =
    (d <-- kuset 32 2 5 (uset 32 7 25 0 (addr mod REGION_MAX_SIZE / 4096)) b;;
     inherit e c dst (asDerived (mkCap (region_addr (addr / REGION_MAX_SIZE))
       (bset 32 0 (bset 32 1 d true) w) NOFLAG)) (kret tt))
    (set_entries (<[dst := with_cap asAllocated t]> m) s).
Proof.
  intros Ha Hal Hb Ht Hc. assert (device_ok addr 0) as Hok by (split_and!; done || lia).
  pose proof (device_index addr 0 Hok) as (Hi & Ho & Heq). unfold deriveFrame.
  rewrite (proj2 (Z.leb_gt _ _)) by lia.
  assert (is_aligned addr align4K = true) as -> by by apply is_aligned_spec.
  assert (is_aligned (2 ^ (12 + b)) align4K = true) as ->.
  { rewrite Z.pow_add_r, Z.mul_comm by lia. by apply is_aligned_mult. }
  rewrite frameSize2Bits_pow, frameBits2Size_eq, Z.eqb_refl by lia. cbn [negb orb].
  change REGION_MAX_SIZE with (2 ^ 37) in *.
  pose proof (Z.div_mod addr (2 ^ 37)). pose proof (Z.mod_pos_bound addr (2 ^ 37)).
  assert (region_base (addr / 2 ^ 37) = 2 ^ 37 * (addr / 2 ^ 37)) as -> by done.
  rewrite kbind_run with (a := tt) (s' := set_entries m s).
  2: { apply kassert_run, Z.eqb_eq. unfold round_down. rewrite wrap_small; [lia|split; lia]. }
  rewrite (kbind_run _ _ _ _ _ (acquire_run m s dst t Ht Hc)). cbn [isOK negb].
  unfold FrameData.start at 1, kuset at 1. change REGION_MAX_SIZE with (2 ^ 37).
  rewrite (wrap_small 64) by (split; lia). change FRAME_MIN_SIZE with 4096.
  replace (addr - 2 ^ 37 * (addr / 2 ^ 37)) with (addr mod 2 ^ 37) by lia.
  unfold kbind, kassert, kret, uset_assert. rewrite !Z.shiftr_div_pow2 by lia.
  rewrite (Z.div_small (_ / 4096)) by lia.
  by rewrite (proj2 (Z.leb_le _ _)), (proj2 (Z.ltb_lt _ _)) by lia.
Qed.

(** [deriveFrame] turns the device memory capability into a frame: for every
    page-aligned physical address below 2^48 and every power-of-two size from
    4 KiB to 8 TiB it inserts a derived capability behind the root, which
    covers exactly the requested addresses, is marked as device memory and has
    exactly the requested write access. *)
Theorem deriveFrame_correct m s l1 n l2 dst t addr b w :
  Ring m (l1 ++ n :: l2) → isUsable (n_cap n) = true → n_locked n = false →
  getPtr (n_cap n) = rootObj → rootObj ≠ 0 →
  dst ∉ addrs (l1 ++ n :: l2) → capPointer dst = true →
  m !! dst = Some t → _cap t = asEmpty →
  0 ≤ addr < 2 ^ 48 → addr mod 4096 = 0 → 0 ≤ b < 32 →
  ∃ m' c, deriveFrame (n_addr n) (n_cap n) dst addr (2 ^ (12 + b)) w (set_entries m s) =
            Done (OK tt) (set_entries m' s) ∧
    Ring m' (l1 ++ n :: fresh dst c :: l2) ∧ isDerived c = true ∧
    CapOps.addressRange (getPtr c) dst c s =
      Done (Intervals.mkRange addr (addr + 2 ^ (12 + b))) s ∧
    FrameData.device (f_data c) = true ∧ FrameData.writable (f_data c) = w.
Proof using Hroot Hregion Hptr.
  intros HR Hu Hl Hp Hp0 Hdst Hcp Ht Hc Ha Hal Hb. assert (device_ok addr b) as Hok by done.
  pose proof (device_cap_fields addr b w Hok) as (Hp1 & Hp2 & Hrng & Hdev & Hwr & _ & Hder).
  pose proof (device_index addr b Hok) as (Hi & _).
  destruct (inherit_acquired m s l1 n l2 dst t (device_cap addr b w) rootRange
    (Intervals.mkRange addr (addr + 2 ^ (12 + b)))) as (m' & Hrun & HR' & _); try done.
  - split; [by rewrite Hp|]. intros. by rewrite Hp, Hroot.
  - split; [done|]. intros. by rewrite Hp1, Hregion, Hrng.
  - by apply device_linkable.
  - exists m', (device_cap addr b w). split_and!; try done.
    + rewrite deriveFrame_run with (t := t) by (done || lia).
      erewrite kbind_run by (apply kuset_run; [lia|split; lia]). 
      rewrite device_cap_unfold in Hrun. exact Hrun.
    + by rewrite Hp1, Hregion, Hrng.
Qed.

(** The size in [deriveFrame] is not checked against the 5 bits of the
    capability's size field: a power-of-two size of 16 TiB or more in the
    message passes all tests and then fails the assertion of the bit field,
    after the destination entry has been acquired. *)
Theorem deriveFrame_oversized m s e c dst addr b w t :
  0 ≤ addr < 2 ^ 48 → addr mod 4096 = 0 → 32 ≤ b ≤ 51 →
  m !! dst = Some t → _cap t = asEmpty →
  deriveFrame e c dst addr (2 ^ (12 + b)) w (set_entries m s) = AssertFail.
Proof.
  intros Ha Hal Hb Ht Hc. rewrite deriveFrame_run with (t := t) by (done || lia).
  replace (kuset 32 2 5 _ b) with (@kbind S unit Z (kassert false) (λ _, kret 0)).
  2: { unfold kuset, uset_assert. rewrite (Z.shiftr_div_pow2 b 5) by lia. change (2 ^ 5) with 32.
       rewrite (proj2 (Z.eqb_neq (b / 32) 0)) by (pose proof (Z.div_str_pos b 32); lia). done. }
  done.
Qed.

End device.

(** *** Witnesses *)

Definition wregion (i : Z) : Z := KERNELMEM_ADDR + 0x10000 + 64 * i.

#[local] Instance wdevices : KernelObjects (gmap Z CapEntry) := {|
  CapOps.addressRange p e c := kret
    (if p =? KERNELMEM_ADDR + 0x2000 then rootRange
     else Region_addressRange (region_base ((p - KERNELMEM_ADDR - 0x10000) / 64)) c);
  CapOps.mint := default_mint; CapOps.deleteCap := λ _ _ _, kret (OK tt) |}.

Lemma wregion_range i e c (s : gmap Z CapEntry) : 0 ≤ i < DEVICE_REGIONS →
  CapOps.addressRange (wregion i) e c s = Done (Region_addressRange (region_base i) c) s.
Proof.
  intros Hi. cbn [CapOps.addressRange wdevices]. unfold wregion, kret.
  rewrite (proj2 (Z.eqb_neq _ _)) by lia. do 3 f_equal.
  replace (_ - _ - _) with (i * 64) by lia. by apply Z.div_mul.
Qed.

Lemma wroot_range e c (s : gmap Z CapEntry) :
  CapOps.addressRange (KERNELMEM_ADDR + 0x2000) e c s = Done rootRange s.
Proof. reflexivity. Qed.

Lemma wregion_ptr i : 0 ≤ i < DEVICE_REGIONS → capPointer (wregion i) = true.
Proof.
  change DEVICE_REGIONS with 2048. intros Hi.
  assert (isKernelAddress (wregion i) = true) as Hk
    by (apply isKernelAddress_spec; unfold wregion, KERNELMEM_SIZE; lia).
  unfold capPointer. rewrite Hk, kernel2offset_eq by done. unfold wregion.
  change 7 with (Z.ones 3). rewrite Z.land_ones by lia.
  rewrite (proj2 (Z.eqb_eq _ 0)), (proj2 (Z.eqb_neq _ 0)); [done|lia|].
  replace (_ - _) with ((0x2000 + 8 * i) * 2 ^ 3) by lia. by apply Z.mod_mul.
Qed.

Lemma deriveFrame_correct_witness :
  ∃ m' c, deriveFrame wregion (wa 0) wcap (wa 3) 0xfee00000 (2 ^ (12 + 0)) true
            (set_entries wempty wempty) = Done (OK tt) (set_entries m' wempty) ∧
    Ring m' [fresh (wa 0) wcap; fresh (wa 3) c; fresh (wa 1) wcap; fresh (wa 2) wcap] ∧
    CapOps.addressRange (getPtr c) (wa 3) c wempty =
      Done (Intervals.mkRange 0xfee00000 (0xfee00000 + 2 ^ (12 + 0))) wempty.
Proof.
  destruct (deriveFrame_correct wregion (KERNELMEM_ADDR + 0x2000) wroot_range
    wregion_range wregion_ptr wempty wempty [] (fresh (wa 0) wcap)
    [fresh (wa 1) wcap; fresh (wa 2) wcap] (wa 3) (mkEntry asEmpty 0 0) 0xfee00000 0 true)
    as (m' & c & Hrun & HR & _ & Hr & _);
    first [computes | reflexivity | lia | idtac].
  exists m', c. exact (conj Hrun (conj HR Hr)).
Defined.

Lemma deriveFrame_oversized_witness :
  deriveFrame wregion (wa 0) wcap (wa 3) 0xfee00000 (2 ^ (12 + 32)) true
    (set_entries wempty wempty) = AssertFail.
Proof.
  apply (deriveFrame_oversized wregion wempty wempty (wa 0) wcap (wa 3) 0xfee00000 32 true
    (mkEntry asEmpty 0 0)); first [computes | reflexivity | lia].
Defined.

End DeviceMemory.
