(* ===== verification/PageTable.v ===== *)
(** * Page table entries

    Models the x86-64 page table entry and the page map capability data of
    objects/memory-amd64/objects/FrameDataAmd64.hh, and the flags of
    mythos/invocation/mythos/protocol/PageMap.hh.  A page table is a run of 512
    words in kernel memory; [HasPageTables] is a state that holds such words.

    The reference for what the tables mean is [translate], the page walk of the
    processor. *)

From stdpp Require Import base tactics numbers list gmap.
From Stdlib Require Import ZArith Lia.
From S2P Require Import Prelude Ranges Bitfield Cap CapEntry CapRing CapSteps CapOps Heap KernelMemory Frame.

Local Open Scope Z_scope.
Import PhysPtr.

(** ** Entries *)

Module PTE.

(** [PageTableEntry::MAXPHYADDR], objects/memory-amd64/objects/FrameDataAmd64.hh:102 *)
Definition MAXPHYADDR : Z := 40.

(** [PageTableEntry::present], objects/memory-amd64/objects/FrameDataAmd64.hh:103 *)
Definition present (v : Z) : bool := bget 64 0 v.

(** [PageTableEntry::writeable], objects/memory-amd64/objects/FrameDataAmd64.hh:104 *)
Definition writeable (v : Z) : bool := bget 64 1 v.

(** [PageTableEntry::userMode], objects/memory-amd64/objects/FrameDataAmd64.hh:105 *)
Definition userMode (v : Z) : bool := bget 64 2 v.

(** [PageTableEntry::writeThrough], objects/memory-amd64/objects/FrameDataAmd64.hh:106 *)
Definition writeThrough (v : Z) : bool := bget 64 3 v.

(** [PageTableEntry::cacheDisabled], objects/memory-amd64/objects/FrameDataAmd64.hh:107 *)
Definition cacheDisabled (v : Z) : bool := bget 64 4 v.

(** [PageTableEntry::page], objects/memory-amd64/objects/FrameDataAmd64.hh:110 *)
Definition page (v : Z) : bool := bget 64 7 v.

(** [PageTableEntry::configurable], objects/memory-amd64/objects/FrameDataAmd64.hh:114 *)
Definition configurable (v : Z) : bool := bget 64 9 v.

(** [PageTableEntry::addr], objects/memory-amd64/objects/FrameDataAmd64.hh:113 *)
Definition addr (v : Z) : Z := uget 64 12 (MAXPHYADDR - 12) v.

(** [PageTableEntry::pmPtr], objects/memory-amd64/objects/FrameDataAmd64.hh:115 *)
Definition pmPtr (v : Z) : Z := uget 64 52 10 v.

(** [PageTableEntry::withAddr], objects/memory-amd64/objects/FrameDataAmd64.hh:127 *)
Definition withAddr {S} (v a : Z) : kernel S Z :=
  kuset 64 12 (MAXPHYADDR - 12) v (Z.shiftr a 12).

(** [PageTableEntry::getAddr], objects/memory-amd64/objects/FrameDataAmd64.hh:128 *)
Definition getAddr (v : Z) : Z := u64 (Z.shiftl (addr v) 12).

(** The value [PageTableEntry::reset] stores, objects/memory-amd64/objects/FrameDataAmd64.hh:121 *)
Definition reset_value (v : Z) : Z := uset 64 52 10 0 (pmPtr v).

Lemma addr_fits v : fits 64 v → 0 ≤ addr v < 2 ^ 28.
Proof. intros Hv. apply (uget_fits 64 12 28); [field_side|done]. Qed.

Lemma pmPtr_fits v : fits 64 v → fits 10 (pmPtr v).
Proof. intros Hv. apply (uget_fits 64 52 10); [field_side|done]. Qed.

Lemma getAddr_eq v : fits 64 v → getAddr v = 4096 * addr v.
Proof.
  intros Hv. pose proof (addr_fits v Hv). unfold getAddr.
  rewrite Z.shiftl_mul_pow2, wrap_small by (lia || (split; lia)). lia.
Qed.

End PTE.

(** ** Mapping flags *)

Module MapFlags.

(** [MapFlags::writable], mythos/invocation/mythos/protocol/PageMap.hh:55 *)
Definition fl_writable (f : Z) : bool := bget 8 0 f.

(** [MapFlags::cache_disabled], mythos/invocation/mythos/protocol/PageMap.hh:57 *)
Definition fl_cache_disabled (f : Z) : bool := bget 8 2 f.

(** [MapFlags::write_through], mythos/invocation/mythos/protocol/PageMap.hh:58 *)
Definition fl_write_through (f : Z) : bool := bget 8 3 f.

(** [MapFlags::configurable], mythos/invocation/mythos/protocol/PageMap.hh:59 *)
Definition fl_configurable (f : Z) : bool := bget 8 4 f.

End MapFlags.

(** ** Page map capabilities *)

Module PageMapData.

(** [PageMapData::writable], objects/memory-amd64/objects/FrameDataAmd64.hh:154 *)
Definition pd_writable (d : Z) : bool := bget 32 1 d.

(** [PageMapData::PageMapData], objects/memory-amd64/objects/FrameDataAmd64.hh:155 *)
Definition default : Z := bset 32 1 0 true.

(** [PageMapReq::configurable], mythos/invocation/mythos/protocol/PageMap.hh:50 *)
Definition req_configurable (r : Z) : bool := bget 32 0 r.

(** [PageMapData::mint], objects/memory-amd64/objects/FrameDataAmd64.hh:158-161 *)
Definition mint (d self r : Z) : Z :=
  withData (asReference self) (bset 32 1 d (pd_writable d && req_configurable r)).

End PageMapData.

(** ** Page table memory *)

Class HasPageTables (S : Type) `{HasEntries S} := {
  ptes : S → gmap Z Z;
  set_ptes : gmap Z Z → S → S;
  ptes_set t s : ptes (set_ptes t s) = t;
  set_ptes_set t t' s : set_ptes t (set_ptes t' s) = set_ptes t s;
  set_ptes_id s : set_ptes (ptes s) s = s;
  ptes_set_entries m s : ptes (set_entries m s) = ptes s;
  set_ptes_entries t m s : set_ptes t (set_entries m s) = set_entries m (set_ptes t s)
}.

Section words.
Context {S : Type} `{HasPageTables S}.

Definition rd_pte (a : Z) : kernel S Z := λ s,
  match ptes s !! a with Some v => Done v s | None => AssertFail end.

Definition wr_pte (a v : Z) : kernel S unit := λ s,
  match ptes s !! a with
  | Some _ => Done tt (set_ptes (<[a := v]> (ptes s)) s)
  | None => AssertFail
  end.

(** [PageTableEntry::reset], objects/memory-amd64/objects/FrameDataAmd64.hh:121 *)
Definition pte_reset (a : Z) : kernel S unit :=
  v <-- rd_pte a;; wr_pte a (PTE.reset_value v).

(** [PageTableEntry::set], objects/memory-amd64/objects/FrameDataAmd64.hh:122 *)
Definition pte_set (a v : Z) : kernel S unit := wr_pte a v.

(** [PageTableEntry::load], objects/memory-amd64/objects/FrameDataAmd64.hh:123 *)
Definition pte_load (a : Z) : kernel S Z := rd_pte a.

(** [PageTableEntry::replace], objects/memory-amd64/objects/FrameDataAmd64.hh:124-126 *)
Definition pte_replace (a oldVal newVal : Z) : kernel S bool :=
  v <-- rd_pte a;;
  if v =? oldVal then wr_pte a newVal;;; kret true else kret false.

End words.

(** ** The meaning of the tables *)

(** The entry for offset [off] of a table of [level], and the table behind it. *)
Definition slot (level : nat) (table off : Z) : Z :=
  table + 8 * (off / 2 ^ (12 + 9 * (Z.of_nat level - 1))).

Definition subtable (level : nat) (v : Z) : option Z :=
  if (1 <? Z.of_nat level) && PTE.present v && negb (PTE.page v)
  then Some (phys2kernel (PTE.getAddr v)) else None.

(** The page walk of the processor from a table of [level]: the entry that maps
    the address and the offset inside the page it maps. *)
Fixpoint translate (T : gmap Z Z) (level : nat) (table off : Z) : option (Z * Z) :=
  match level with
  | O => None
  | Datatypes.S l =>
    v ← T !! slot level table off;
    match subtable level v with
    | Some sub => translate T l sub (off mod 2 ^ (12 + 9 * Z.of_nat l))
    | None => if PTE.present v then Some (v, off mod 2 ^ (12 + 9 * Z.of_nat l)) else None
    end
  end.
