(* ===== verification/PageMap.v ===== *)
(** * Page maps

    Models objects/memory-amd64/objects/PageMapAmd64.hh and .cc: page tables
    whose entries are paired with capability entries, the walks through the
    tree of tables, and the invocations of the protocol in
    mythos/invocation/mythos/protocol/PageMap.hh.

    A visitor object is a record that the walk passes on and returns; the
    virtual [applyPage] and [applyTable] are arguments of the walks. *)

From stdpp Require Import base tactics numbers list gmap.
From Stdlib Require Import ZArith Lia.
From S2P Require Import Prelude Ranges Bitfield Cap CapEntry CapRing CapSteps CapOps Heap KernelMemory Frame PageTable.

Local Open Scope Z_scope.
Import PhysPtr Align FrameSize.

(** [PageMap::TABLE_SIZE], objects/memory-amd64/objects/PageMapAmd64.hh:50 *)
Definition TABLE_SIZE : Z := 512.

(** [PageMap::num_caps], objects/memory-amd64/objects/PageMapAmd64.hh:55 *)
Definition num_caps (l : Z) : Z := if l <? 4 then TABLE_SIZE else TABLE_SIZE / 2.

(** [PageMap::pageSize], objects/memory-amd64/objects/PageMapAmd64.hh:60 *)
Definition pageSize (level : Z) : Z := u64 (Z.shiftl 4096 (9 * (level - 1))).

(** The members of [PageMap], with the addresses of its two tables and of its
    two helper objects, objects/memory-amd64/objects/PageMapAmd64.hh:207-222 *)
Record PageMap := mkPageMap {
  _level : Z; _table : Z; _caps : Z; mappedFrameHelper : Z; mappedPageMapHelper : Z }.

(** [PageMap::isRootMap], objects/memory-amd64/objects/PageMapAmd64.hh:57 *)
Definition isRootMap (pm : PageMap) : bool := _level pm =? 4.

(** The page maps by the address of their [IPageMap] interface, which page maps
    and which frames the kernel objects are, and their members. *)
Class HasPageMaps (S : Type) `{HasPageTables S} := {
  pagemap : S → Z → option PageMap;
  asPageMap : S → Z → option Z;
  asFrame : S → Z → option MemoryRegion.MemoryRegion;
  pagemap_set_entries m s : pagemap (set_entries m s) = pagemap s;
  asPageMap_set_entries m s : asPageMap (set_entries m s) = asPageMap s;
  asFrame_set_entries m s : asFrame (set_entries m s) = asFrame s;
  pagemap_set_ptes t s : pagemap (set_ptes t s) = pagemap s;
  asPageMap_set_ptes t s : asPageMap (set_ptes t s) = asPageMap s;
  asFrame_set_ptes t s : asFrame (set_ptes t s) = asFrame s
}.

(** ** The link from a table to its page map *)

(** The three values that [PageMap::PageMap] stores in the first entries,
    objects/memory-amd64/objects/PageMapAmd64.cc:53-56 *)
Definition pmPtr_parts (this : Z) : Z * Z * Z :=
  let pmPtr := kernel2offset this in
  (Z.land (Z.shiftr pmPtr 3) 0x3FF, Z.land (Z.shiftr pmPtr 13) 0x3FF,
   Z.land (Z.shiftr pmPtr 23) 0x3FF).

(** [PageMap::table2PageMap] on the values of the first three entries,
    objects/memory-amd64/objects/PageMapAmd64.cc:59-62 *)
Definition decode_pmPtr (v0 v1 v2 : Z) : Z :=
  offset2kernel (u32 (Z.lor (Z.lor (u64 (Z.shiftl (PTE.pmPtr v0) 3))
    (u64 (Z.shiftl (PTE.pmPtr v1) 13))) (u64 (Z.shiftl (PTE.pmPtr v2) 23)))).

Section pagemap.
Context {S : Type} `{HasEntries S} `{!HasPageTables S} `{!HasPageMaps S} `{KernelObjects S}.

(** [PageMap::table2PageMap], objects/memory-amd64/objects/PageMapAmd64.cc:59-62 *)
Definition table2PageMap (table : Z) : kernel S Z :=
  v0 <-- rd_pte table;;
  v1 <-- rd_pte (table + 8);;
  v2 <-- rd_pte (table + 16);;
  kret (decode_pmPtr v0 v1 v2).

Definition getPageMap (this : Z) : kernel S PageMap := λ s,
  match pagemap s this with Some pm => Done pm s | None => AssertFail end.

(** [PageMap::_pm_table], objects/memory-amd64/objects/PageMapAmd64.hh:214-217 *)
Definition _pm_table (pm : PageMap) (index : Z) : kernel S Z :=
  kassert (index <? TABLE_SIZE);;; kret (_table pm + 8 * index).

(** [PageMap::_cap_table], objects/memory-amd64/objects/PageMapAmd64.hh:219-222 *)
Definition _cap_table (pm : PageMap) (index : Z) : kernel S Z :=
  kassert (index <? num_caps (_level pm));;; kret (_caps pm + 16 * index).

(** [IPageMap::Info], objects/common/objects/IPageMap.hh:46-51 *)
Record Info := mkInfo { i_level : Z; i_table : Z; i_configurable : bool }.

(** [PageMap::getPageMapInfo], objects/memory-amd64/objects/PageMapAmd64.hh:64-66 *)
Definition getPageMapInfo (this self : Z) : kernel S Info :=
  pm <-- getPageMap this;;
  a <-- _pm_table pm 0;;
  kassert (isKernelAddress a);;;
  kret (mkInfo (_level pm) (fromKernel a) (PageMapData.pd_writable (f_data self))).

(** [TypedCap<IPageMap>] of an entry: the capability and the interface,
    objects/capability-utils/objects/TypedCap.hh:96-120 *)
Definition typedPageMap (e : Z) : kernel S (optional (Z * Z)) :=
  if e =? 0 then kret (THROW INVALID_CAPABILITY) else
  c <-- cap e;;
  if negb (isUsable c) then kret (THROW INVALID_CAPABILITY) else
  s <-- kget;;
  match asPageMap s (getPtr c) with
  | Some p => kret (OK (c, p))
  | None => kret (THROW TYPE_MISMATCH)
  end.

(** [TypedCap<IFrame>] of an entry: the capability and what [getFrameInfo]
    returns for it, objects/capability-utils/objects/TypedCap.hh:96-120 *)
Definition typedFrame (e : Z) : kernel S (optional (Z * MemoryRegion.Info)) :=
  if e =? 0 then kret (THROW INVALID_CAPABILITY) else
  c <-- cap e;;
  if negb (isUsable c) then kret (THROW INVALID_CAPABILITY) else
  s <-- kget;;
  match asFrame s (getPtr c) with
  | Some r => kret (OK (c, MemoryRegion.getFrameInfo r c))
  | None => kret (THROW TYPE_MISMATCH)
  end.

(** ** Operations on one entry *)

(** The index of an entry of the capability table,
    objects/memory-amd64/objects/PageMapAmd64.cc:66 *)
Definition entry_index (pm : PageMap) (entry : Z) : Z := (entry - _caps pm) / 16.

(** [MappedFrame::addressRange], objects/memory-amd64/objects/PageMapAmd64.cc:64-70 *)
Definition MappedFrame_addressRange (map entry self : Z) : kernel S Intervals.Range :=
  pm <-- getPageMap map;;
  a <-- _pm_table pm (entry_index pm entry);;
  v <-- rd_pte a;;
  kret (Intervals.bySize (PTE.getAddr v) (pageSize (_level pm))).

(** [MappedPageMap::addressRange], objects/memory-amd64/objects/PageMapAmd64.cc:72-77 *)
Definition MappedPageMap_addressRange (map entry self : Z) : kernel S Intervals.Range :=
  pm <-- getPageMap map;;
  a <-- _pm_table pm (entry_index pm entry);;
  v <-- rd_pte a;;
  kret (Intervals.bySize (PTE.getAddr v) 4096).

(** [PageMap::addressRange], objects/memory-amd64/objects/PageMapAmd64.cc:79-84 *)
Definition PageMap_addressRange (this entry self : Z) : kernel S Intervals.Range :=
  pm <-- getPageMap this;;
  kassert (isKernelAddress (_table pm));;;
  kret (Intervals.bySize (fromKernel (_table pm)) 4096).

(** [MappedFrame::deleteCap], objects/memory-amd64/objects/PageMapAmd64.cc:93-99 *)
Definition MappedFrame_deleteCap (map entry self : Z) : kernel S (optional unit) :=
  pm <-- getPageMap map;;
  a <-- _pm_table pm (entry_index pm entry);;
  pte_reset a;;;
  kret (OK tt).

(** [MappedPageMap::deleteCap], objects/memory-amd64/objects/PageMapAmd64.cc:101-107 *)
Definition MappedPageMap_deleteCap (map entry self : Z) : kernel S (optional unit) :=
  pm <-- getPageMap map;;
  a <-- _pm_table pm (entry_index pm entry);;
  pte_reset a;;;
  kret (OK tt).

(** The loop of [PageMap::deleteCap] over the capability table from [i] on,
    objects/memory-amd64/objects/PageMapAmd64.cc:113-117 *)
Fixpoint deleteMapped (n : nat) (del : Z → kernel S (optional unit)) (pm : PageMap) (i : Z)
    : kernel S (optional unit) :=
  match n with
  | O => kret (OK tt)
  | Datatypes.S n =>
    a <-- _cap_table pm i;;
    res <-- del a;;
    kassert (isOK res);;;
    deleteMapped n del pm (i + 1)
  end.

(** [PageMap::deleteCap]; [del] and [delObject] are the methods of the deleter,
    objects/memory-amd64/objects/PageMapAmd64.cc:109-121 *)
Definition PageMap_deleteCap (del : Z → kernel S (optional unit)) (delObject : Z → kernel S unit)
    (this self : Z) : kernel S (optional unit) :=
  if isOriginal self then
    pm <-- getPageMap this;;
    res <-- deleteMapped (Z.to_nat (num_caps (_level pm))) del pm 0;;
    match res with
    | THROW e => kret (THROW e)
    | OK _ => delObject this;;; kret (OK tt)
    end
  else kret (OK tt).

(** [PageMap::mint], objects/memory-amd64/objects/PageMapAmd64.cc:167-170 *)
Definition PageMap_mint (self request : Z) : optional Z :=
  OK (PageMapData.mint (f_data self) self request).

(** The entry that [PageMap::mapTable] builds,
    objects/memory-amd64/objects/PageMapAmd64.cc:153-157 *)
Definition table_entry (info : Info) (req old : Z) : kernel S Z :=
  let v := bset 64 2 (bset 64 0 0 true) true in
  let v := bset 64 1 v (MapFlags.fl_writable req) in
  let v := bset 64 3 v (MapFlags.fl_write_through req) in
  let v := bset 64 4 v (MapFlags.fl_cache_disabled req) in
  v <-- PTE.withAddr v (i_table info);;
  v <-- kuset 64 52 10 v (PTE.pmPtr old);;
  kret (bset 64 9 v (i_configurable info && MapFlags.fl_configurable req)).

(** [PageMap::mapTable] at an index, objects/memory-amd64/objects/PageMapAmd64.cc:142-165 *)
Definition mapTableAt (this tableEntry req index : Z) : kernel S (optional unit) :=
  pm <-- getPageMap this;;
  kassert (index <? num_caps (_level pm));;;
  table <-- typedPageMap tableEntry;;
  match table with
  | THROW e => kret (THROW e)
  | OK (tc, tp) =>
    info <-- getPageMapInfo tp tc;;
    if negb (_level pm =? i_level info + 1) then kret (THROW INVALID_CAPABILITY)
    else
      pme <-- _pm_table pm index;;
      old <-- rd_pte pme;;
      entry <-- table_entry info req old;;
      let capData := bset 32 1 PageMapData.default (PTE.configurable entry) in
      let newCap := withData (withPtr (asReference tc) (mappedPageMapHelper pm)) capData in
      dst <-- _cap_table pm index;;
      resetReference dst (pte_reset pme);;;
      setReference dst newCap tableEntry tc (pte_set pme entry)
  end.

(** The entry that [PageMap::mapFrame] builds,
    objects/memory-amd64/objects/PageMapAmd64.cc:192-199 *)
Definition frame_entry (level : Z) (frameInfo : MemoryRegion.Info) (flags frameaddr old : Z)
    : kernel S Z :=
  let v := bset 64 7 (bset 64 2 (bset 64 0 0 true) true) (1 <? level) in
  let v := bset 64 1 v (MapFlags.fl_writable flags && MemoryRegion.i_writable frameInfo) in
  let v := bset 64 3 v (MapFlags.fl_write_through flags) in
  let v := bset 64 4 v (MapFlags.fl_cache_disabled flags) in
  v <-- PTE.withAddr v frameaddr;;
  let v := bset 64 9 v (MemoryRegion.i_writable frameInfo) in
  kuset 64 52 10 v (PTE.pmPtr old).

(** [PageMap::mapFrame] at an index, objects/memory-amd64/objects/PageMapAmd64.cc:173-207 *)
Definition mapFrameAt (this index frameEntry flags offset : Z) : kernel S (optional unit) :=
  pm <-- getPageMap this;;
  frame <-- typedFrame frameEntry;;
  match frame with
  | THROW e => kret (THROW e)
  | OK (fc, frameInfo) =>
    kassert (index <? num_caps (_level pm));;;
    let frameaddr := u64 (MemoryRegion.i_start frameInfo + offset) in
    if negb (frameaddr mod pageSize (_level pm) =? 0) then kret (THROW PAGEMAP_MISSING)
    else if MemoryRegion.i_size frameInfo <? u64 (offset + pageSize (_level pm))
    then kret (THROW INSUFFICIENT_RESOURCES)
    else
      pme <-- _pm_table pm index;;
      old <-- rd_pte pme;;
      entry <-- frame_entry (_level pm) frameInfo flags frameaddr old;;
      let newCap := withPtr (asReference fc) (mappedFrameHelper pm) in
      dst <-- _cap_table pm index;;
      resetReference dst (pte_reset pme);;;
      setReference dst newCap frameEntry fc (pte_set pme entry)
  end.

(** [PageMap::unmapEntry], objects/memory-amd64/objects/PageMapAmd64.cc:209-216 *)
Definition unmapEntry (this index : Z) : kernel S (optional unit) :=
  pm <-- getPageMap this;;
  kassert (index <? num_caps (_level pm));;;
  pme <-- _pm_table pm index;;
  dst <-- _cap_table pm index;;
  resetReference dst (pte_reset pme);;;
  kret (OK tt).

End pagemap.

(** ** Walks *)

(** [PageMap::PageOp], objects/memory-amd64/objects/PageMapAmd64.hh:80-98 *)
Record PageOp := mkPageOp {
  start_vaddr : Z; start_size : Z; frame_offset : Z; skip_nonmapped : bool;
  table_vaddr : Z; page_offset : Z; current_level : Z }.

(** [PageOp::PageOp], objects/memory-amd64/objects/PageMapAmd64.hh:81-82 *)
Definition newPageOp (vaddr size offset : Z) (skip : bool) : PageOp :=
  mkPageOp vaddr size offset skip 0 0 0.

(** [PageOp::vaddr], objects/memory-amd64/objects/PageMapAmd64.hh:94 *)
Definition op_vaddr (op : PageOp) : Z := u64 (start_vaddr op + page_offset op).

(** [PageOp::sizeRemaining], objects/memory-amd64/objects/PageMapAmd64.hh:95 *)
Definition sizeRemaining (op : PageOp) : Z := u64 (start_size op - page_offset op).

(** [PageOp::offset], objects/memory-amd64/objects/PageMapAmd64.hh:96 *)
Definition op_offset (op : PageOp) : Z := u64 (frame_offset op + page_offset op).

(** [PageOp::moveForward], objects/memory-amd64/objects/PageMapAmd64.hh:97 *)
Definition moveForward (pagesize : Z) (op : PageOp) : PageOp :=
  mkPageOp (start_vaddr op) (start_size op) (frame_offset op) (skip_nonmapped op)
    (table_vaddr op) (u64 (page_offset op + pagesize)) (current_level op).

Definition at_level (l : Z) (op : PageOp) : PageOp :=
  mkPageOp (start_vaddr op) (start_size op) (frame_offset op) (skip_nonmapped op)
    (table_vaddr op) (page_offset op) l.

Definition at_table (v : Z) (op : PageOp) : PageOp :=
  mkPageOp (start_vaddr op) (start_size op) (frame_offset op) (skip_nonmapped op)
    v (page_offset op) (current_level op).

(** The test that a page of the level fits the operation, as an error,
    objects/memory-amd64/objects/PageMapAmd64.cc:254-260 *)
Definition page_misfit (LEVEL : Z) (op : PageOp) : option Error :=
  if negb (op_vaddr op mod pageSize LEVEL =? 0) || (sizeRemaining op <? pageSize LEVEL)
  then Some (if 2 <=? LEVEL then PAGEMAP_MISSING else UNALIGNED) else None.

(** [PageMap::TableOp], objects/memory-amd64/objects/PageMapAmd64.hh:133-145 *)
Record TableOp := mkTableOp {
  t_vaddr : Z; target_level : Z; t_table_vaddr : Z; failaddr : Z; t_current_level : Z }.

(** [TableOp::TableOp], objects/memory-amd64/objects/PageMapAmd64.hh:134-135 *)
Definition newTableOp (vaddr target_level : Z) : TableOp := mkTableOp vaddr target_level 0 0 0.

Section walks.
Context {S : Type} `{HasEntries S} `{!HasPageTables S} `{!HasPageMaps S} `{KernelObjects S}.

Section visit.
(** [PageOp::applyPage] of the visitor *)
Context (applyPage : PageOp → Z → Z → kernel S (optional unit)).

(** The operation on one page, objects/memory-amd64/objects/PageMapAmd64.cc:253-264 *)
Definition applyAndMove (LEVEL table index : Z) (op : PageOp)
    : kernel S (optional unit * PageOp) :=
  match page_misfit LEVEL op with
  | Some e => kret (THROW e, op)
  | None =>
    res <-- applyPage op table index;;
    match res with
    | THROW e => kret (THROW e, op)
    | OK _ => kret (OK tt, moveForward (pageSize LEVEL) op)
    end
  end.

(** One iteration of [PageMap::visitPages]; [descend] is the recursive call,
    objects/memory-amd64/objects/PageMapAmd64.cc:241-281 *)
Definition visit_entry (descend : Z → PageOp → kernel S (optional unit * PageOp))
    (LEVEL table tableStart index : Z) (op : PageOp) : kernel S (optional unit * PageOp) :=
  let op := at_level LEVEL op in
  pme <-- pte_load (table + 8 * index);;
  if (1 <? LEVEL) && PTE.present pme && negb (PTE.page pme) then
    if negb (PTE.configurable pme) then kret (THROW PAGEMAP_NOCONF, op)
    else descend (phys2kernel (PTE.getAddr pme))
           (at_table (u64 (tableStart + u64 (index * pageSize LEVEL))) op)
  else if PTE.present pme && PTE.page pme then applyAndMove LEVEL table index op
  else if negb (skip_nonmapped op) then
    if 2 <? LEVEL then kret (THROW PAGEMAP_MISSING, op)
    else applyAndMove LEVEL table index op
  else
    kret (OK tt, moveForward (u64 (pageSize LEVEL - op_vaddr op mod pageSize LEVEL)) op).

(** The loop of [PageMap::visitPages] over [n] entries from [index] on,
    objects/memory-amd64/objects/PageMapAmd64.cc:240-282 *)
Fixpoint visit_loop (descend : Z → PageOp → kernel S (optional unit * PageOp))
    (LEVEL table tableStart index : Z) (n : nat) (op : PageOp)
    : kernel S (optional unit * PageOp) :=
  match n with
  | O => kret (OK tt, op)
  | Datatypes.S n =>
    r <-- visit_entry descend LEVEL table tableStart index op;;
    match r with
    | (THROW e, op') => kret (THROW e, op')
    | (OK _, op') => visit_loop descend LEVEL table tableStart (index + 1) n op'
    end
  end.

(** [PageMap::visitPages]; a recursive call is for a level of at least 1,
    objects/memory-amd64/objects/PageMapAmd64.cc:232-284 *)
Fixpoint visitPages (level : nat) (table : Z) (op : PageOp) : kernel S (optional unit * PageOp) :=
  match level with
  | O => λ _, AssertFail
  | Datatypes.S l =>
    let LEVEL := Z.of_nat level in
    let tableStart := table_vaddr op in
    let startIndex := u64 (op_vaddr op - table_vaddr op) / pageSize LEVEL in
    if num_caps LEVEL <=? startIndex then kret (THROW REQUEST_DENIED, op)
    else
      let numEntries := u64 (u64 (op_vaddr op + sizeRemaining op + pageSize LEVEL - 1)
                               / pageSize LEVEL - op_vaddr op / pageSize LEVEL) in
      let numEntries := if num_caps LEVEL - startIndex <? numEntries
                        then num_caps LEVEL - startIndex else numEntries in
      visit_loop (visitPages l) LEVEL table tableStart startIndex (Z.to_nat numEntries) op
  end.

End visit.

(** [PageMap::visitTables]; [applyTable] is the method of the visitor,
    objects/memory-amd64/objects/PageMapAmd64.cc:287-302 *)
Fixpoint visitTables (applyTable : Z → Z → kernel S (optional unit)) (level : nat) (table : Z)
    (op : TableOp) : kernel S (optional unit * TableOp) :=
  match level with
  | O => λ _, AssertFail
  | Datatypes.S l =>
    let LEVEL := Z.of_nat level in
    let tableStart := t_table_vaddr op in
    let index := u64 (t_vaddr op - t_table_vaddr op) / pageSize LEVEL in
    let op := mkTableOp (t_vaddr op) (target_level op) (t_table_vaddr op)
                (u64 (t_vaddr op / pageSize LEVEL * pageSize LEVEL)) LEVEL in
    if num_caps LEVEL <=? index then kret (THROW REQUEST_DENIED, op)
    else
      pme <-- pte_load (table + 8 * index);;
      if target_level op =? LEVEL then
        map <-- table2PageMap table;;
        res <-- applyTable map index;;
        kret (res, op)
      else if (1 <? LEVEL) && PTE.present pme && negb (PTE.page pme) then
        if negb (PTE.configurable pme) then kret (THROW PAGEMAP_NOCONF, op)
        else visitTables applyTable l (phys2kernel (PTE.getAddr pme))
               (mkTableOp (t_vaddr op) (target_level op)
                  (u64 (tableStart + u64 (index * pageSize LEVEL))) (failaddr op)
                  (t_current_level op))
      else kret (THROW PAGEMAP_MISSING, op)
  end.

(** ** Visitors *)

(** [MapFrameVisitor::applyPage], objects/memory-amd64/objects/PageMapAmd64.hh:109-111 *)
Definition mapFrame_apply (frameEntry flags : Z) (op : PageOp) (table index : Z)
    : kernel S (optional unit) :=
  map <-- table2PageMap table;;
  mapFrameAt map index frameEntry flags (op_offset op).

(** [UnmapFrameVisitor::applyPage], objects/memory-amd64/objects/PageMapAmd64.hh:119-121 *)
Definition unmapFrame_apply (op : PageOp) (table index : Z) : kernel S (optional unit) :=
  map <-- table2PageMap table;;
  unmapEntry map index.

(** The entry that [ProtectPageVisitor::applyPage] stores,
    objects/memory-amd64/objects/PageMapAmd64.cc:224-227 *)
Definition protect_entry (flags pme : Z) : Z :=
  let v := bset 64 1 pme (MapFlags.fl_writable flags && PTE.configurable pme) in
  let v := bset 64 3 v (MapFlags.fl_write_through flags) in
  bset 64 4 v (MapFlags.fl_cache_disabled flags).

(** [ProtectPageVisitor::applyPage], objects/memory-amd64/objects/PageMapAmd64.cc:218-230 *)
Definition protectPage_apply (flags : Z) (op : PageOp) (table index : Z)
    : kernel S (optional unit) :=
  pme <-- pte_load (table + 8 * index);;
  if negb (PTE.present pme) || negb (PTE.page pme) then kret (THROW LOST_RACE)
  else
    b <-- pte_replace (table + 8 * index) pme (protect_entry flags pme);;
    kret (if b then OK tt else THROW LOST_RACE).

(** [MapTableVisitor::applyTable], objects/memory-amd64/objects/PageMapAmd64.hh:155 *)
Definition mapTable_apply (mapEntry flags map index : Z) : kernel S (optional unit) :=
  mapTableAt map mapEntry flags index.

(** [UnmapTableVisitor::applyTable], objects/memory-amd64/objects/PageMapAmd64.hh:161 *)
Definition unmapTable_apply (map index : Z) : kernel S (optional unit) := unmapEntry map index.

End walks.

(** ** Invocations *)

(** The message [protocol::PageMap::Result] that an invocation writes,
    mythos/invocation/mythos/protocol/PageMap.hh:136-143 *)
Record Result := mkResult { r_vaddr : Z; r_level : Z }.

(** [protocol::PageMap::Methods], mythos/invocation/mythos/protocol/PageMap.hh:39-47 *)
Inductive Methods := MAP | REMAP | PROTECT | UNMAP | INSTALLMAP | REMOVEMAP | RESULT.

(** [protocol::PageMap::Mmap] and the other requests: [m_tgt] is the capability
    pointer of [Mmap] and [InstallMap], mythos/invocation/mythos/protocol/PageMap.hh:63-127 *)
Record Request := mkRequest {
  m_tgt : Z; m_vaddr : Z; m_size : Z; m_level : Z; m_flags : Z; m_offset : Z }.

Section invocations.
Context {S : Type} `{HasEntries S} `{!HasPageTables S} `{!HasPageMaps S} `{KernelObjects S}.
(** [IInvocation::lookupEntry] of the invocation message. *)
Context (lookupEntry : Z → kernel S (optional Z)).

Definition levelOf (pm : PageMap) : nat := Z.to_nat (_level pm).

(** [PageMap::mapFrame] on an address range: the result and the failure address
    and level, objects/memory-amd64/objects/PageMapAmd64.cc:320-331 *)
Definition mapFrame (this vaddr size frameEntry flags offset : Z)
    : kernel S (optional unit * Result) :=
  pm <-- getPageMap this;;
  frame <-- typedFrame frameEntry;;
  match frame with
  | THROW e => kret (THROW e, mkResult 0 0)
  | OK _ =>
    table <-- _pm_table pm 0;;
    r <-- visitPages (mapFrame_apply frameEntry flags) (levelOf pm) table
            (newPageOp vaddr size offset false);;
    kret (r.1, mkResult (op_vaddr r.2) (current_level r.2))
  end.

(** [PageMap::mapTable] at an address, objects/memory-amd64/objects/PageMapAmd64.cc:376-387 *)
Definition mapTable (this vaddr level tableEntry flags : Z) : kernel S (optional unit * Result) :=
  pm <-- getPageMap this;;
  if (level <? 1) || (4 <? level) || negb (vaddr mod pageSize level =? 0)
  then kret (THROW UNALIGNED, mkResult 0 0)
  else
    table <-- _pm_table pm 0;;
    r <-- visitTables (mapTable_apply tableEntry flags) (levelOf pm) table
            (newTableOp vaddr level);;
    kret (r.1, mkResult (failaddr r.2) (t_current_level r.2)).

(** [PageMap::invokeMmap], objects/memory-amd64/objects/PageMapAmd64.cc:333-345 *)
Definition invokeMmap (this self : Z) (data : Request) : kernel S (Error * option Result) :=
  if negb (PageMapData.pd_writable (f_data self)) then kret (REQUEST_DENIED, None)
  else
    frameEntry <-- lookupEntry (m_tgt data);;
    match frameEntry with
    | THROW _ => kret (INVALID_CAPABILITY, None)
    | OK e =>
      r <-- mapFrame this (m_vaddr data) (m_size data) e (m_flags data) (m_offset data);;
      kret (state r.1, Some r.2)
    end.

(** [PageMap::invokeRemap], objects/memory-amd64/objects/PageMapAmd64.cc:347-352 *)
Definition invokeRemap (this self : Z) (data : Request) : kernel S (Error * option Result) :=
  if negb (PageMapData.pd_writable (f_data self)) then kret (REQUEST_DENIED, None)
  else kret (NOT_IMPLEMENTED, None).

(** [PageMap::invokeMunmap], objects/memory-amd64/objects/PageMapAmd64.cc:354-363 *)
Definition invokeMunmap (this self : Z) (data : Request) : kernel S (Error * option Result) :=
  if negb (PageMapData.pd_writable (f_data self)) then kret (REQUEST_DENIED, None)
  else
    pm <-- getPageMap this;;
    table <-- _pm_table pm 0;;
    r <-- visitPages unmapFrame_apply (levelOf pm) table
            (newPageOp (m_vaddr data) (m_size data) 0 true);;
    kret (state r.1, Some (mkResult (op_vaddr r.2) (current_level r.2))).

(** [PageMap::invokeMprotect], objects/memory-amd64/objects/PageMapAmd64.cc:365-374 *)
Definition invokeMprotect (this self : Z) (data : Request) : kernel S (Error * option Result) :=
  if negb (PageMapData.pd_writable (f_data self)) then kret (REQUEST_DENIED, None)
  else
    pm <-- getPageMap this;;
    table <-- _pm_table pm 0;;
    r <-- visitPages (protectPage_apply (m_flags data)) (levelOf pm) table
            (newPageOp (m_vaddr data) (m_size data) 0 true);;
    kret (state r.1, Some (mkResult (op_vaddr r.2) (current_level r.2))).

(** [PageMap::invokeInstallMap], objects/memory-amd64/objects/PageMapAmd64.cc:389-401 *)
Definition invokeInstallMap (this self : Z) (data : Request) : kernel S (Error * option Result) :=
  if negb (PageMapData.pd_writable (f_data self)) then kret (REQUEST_DENIED, None)
  else
    tableEntry <-- lookupEntry (m_tgt data);;
    match tableEntry with
    | THROW _ => kret (INVALID_CAPABILITY, None)
    | OK e =>
      r <-- mapTable this (m_vaddr data) (m_level data) e (m_flags data);;
      kret (state r.1, Some r.2)
    end.

(** [PageMap::invokeRemoveMap], objects/memory-amd64/objects/PageMapAmd64.cc:403-416 *)
Definition invokeRemoveMap (this self : Z) (data : Request) : kernel S (Error * option Result) :=
  if negb (PageMapData.pd_writable (f_data self)) then kret (REQUEST_DENIED, None)
  else
    let op := newTableOp (m_vaddr data) (m_level data) in
    if (target_level op <? 1) || (4 <? target_level op)
       || negb (t_vaddr op mod pageSize (target_level op) =? 0)
    then kret (UNALIGNED, Some (mkResult (failaddr op) (t_current_level op)))
    else
      pm <-- getPageMap this;;
      table <-- _pm_table pm 0;;
      r <-- visitTables unmapTable_apply (levelOf pm) table op;;
      kret (state r.1, Some (mkResult (failaddr r.2) (t_current_level r.2))).

(** [protocol::PageMap::dispatchRequest], mythos/invocation/mythos/protocol/PageMap.hh:145-156 *)
Definition PageMap_dispatch (this : Z) (m : Methods) (self : Z) (data : Request)
    : kernel S (Error * option Result) :=
  match m with
  | MAP => invokeMmap this self data
  | REMAP => invokeRemap this self data
  | UNMAP => invokeMunmap this self data
  | PROTECT => invokeMprotect this self data
  | INSTALLMAP => invokeInstallMap this self data
  | REMOVEMAP => invokeRemoveMap this self data
  | RESULT => kret (NOT_IMPLEMENTED, None)
  end.

End invocations.

(** ** Creation *)

(** The words of a new table: empty, for a root map with the upper half [pml4] of
    the kernel's own table, and with the link to the page map in the first three
    entries, objects/memory-amd64/objects/PageMapAmd64.cc:47-56 *)
Definition new_table (pml4 : Z → Z) (level this : Z) : list Z :=
  let '(p0, p1, p2) := pmPtr_parts this in
  let word i := if (level =? 4) && (TABLE_SIZE / 2 <=? i) then pml4 i else 0 in
  (λ i, let v := word (Z.of_nat i) in
        match i with
        | 0%nat => uset 64 52 10 v p0
        | 1%nat => uset 64 52 10 v p1
        | 2%nat => uset 64 52 10 v p2
        | _ => v
        end) <$> seq 0 (Z.to_nat TABLE_SIZE).

(** The words of a table at consecutive addresses. *)
Fixpoint store_words (a : Z) (ws : list Z) (T : gmap Z Z) : gmap Z Z :=
  match ws with [] => T | w :: ws => <[a := w]> (store_words (a + 8) ws T) end.

Fixpoint clear_entries (n : nat) (a : Z) (m : gmap Z CapEntry) : gmap Z CapEntry :=
  match n with
  | O => m
  | Datatypes.S n => <[a := mkEntry 0 0 0]> (clear_entries n (a + 16) m)
  end.

Section creation.
Context {S : Type} `{HasEntries S} `{!HasPageTables S} `{!HasPageMaps S} `{KernelObjects S} `{HasMemory S}.

(** [PageMap::PageMap]: the two tables, objects/memory-amd64/objects/PageMapAmd64.cc:40-57 *)
Definition PageMap_init (pml4 : Z → Z) (this level tableMem capMem : Z) : kernel S unit :=
  kassert (is_aligned tableMem PAGE_MIN_SIZE);;;
  kassert (isKernelAddress this);;;
  kmodify (λ s, set_ptes (store_words tableMem (new_table pml4 level this) (ptes s)) s);;;
  kmodify (λ s, set_entries (clear_entries (Z.to_nat (num_caps level)) capMem (entries s)) s).

(** The blocks that [deleteObject] and [response] free,
    objects/memory-amd64/objects/PageMapAmd64.cc:44-46 *)
Definition PageMap_blocks (sizeof obj : Z) (pm : PageMap) : list MemoryDescriptor :=
  [mkDesc (_table pm) PAGE_MIN_SIZE 0; mkDesc (_caps pm) (16 * num_caps (_level pm)) 0;
   mkDesc obj sizeof 0].

(** [PageMapFactory::factory]; [sizeof] is the size of the object, [newObject]
    puts it in place, objects/memory-amd64/objects/PageMapAmd64.cc:418-450 *)
Definition PageMap_factory (sizeof : Z) (newObject : Z → Z → Z → Z → kernel S unit)
    (dstEntry memEntry memCap level : Z) : kernel S (optional Z) :=
  if negb ((1 <=? level) && (level <=? 4)) then kret (THROW INVALID_ARGUMENT)
  else
    table <-- km_alloc PAGE_MIN_SIZE PAGE_MIN_SIZE;;
    match table with
    | THROW e => reset dstEntry;;; kret (THROW e)
    | OK t =>
      caps <-- km_alloc (16 * num_caps level) PAGE_MIN_SIZE;;
      match caps with
      | THROW e => km_free t PAGE_MIN_SIZE;;; reset dstEntry;;; kret (THROW e)
      | OK c =>
        obj <-- create sizeof;;
        match obj with
        | THROW e =>
          km_free t PAGE_MIN_SIZE;;;
          km_free c (16 * num_caps level);;;
          reset dstEntry;;;
          kret (THROW e)
        | OK o =>
          newObject o level t c;;;
          res <-- inherit memEntry memCap dstEntry
                    (withData (mkCap o 0 NOFLAG) PageMapData.default) (kret tt);;
          match res with
          | THROW e =>
            km_free o sizeof;;;
            km_free t PAGE_MIN_SIZE;;;
            km_free c (16 * num_caps level);;;
            kret (THROW e)
          | OK _ => kret (OK o)
          end
        end
      end
    end.

End creation.
