(* ===== verification/PageWalk.v ===== *)
(** * The page walk maps exactly the requested range

    [visitPages] is proved against the page walk of the processor: for a visitor
    whose [applyPage] replaces one entry, the addresses the walk has moved over
    are translated through the new entries, all other addresses are translated
    as before, and a walk that succeeds has moved over the whole range or to the
    end of the table.  The tables form a tree. *)

From stdpp Require Import base tactics numbers list gmap.
From Stdlib Require Import ZArith Lia.
From S2P Require Import Prelude Ranges Bitfield Cap CapEntry CapRing CapSteps CapOps Heap KernelMemory Frame PageTable PageMap.

Local Open Scope Z_scope.
Import PhysPtr.

(** ** Sizes *)

Definition psize (l : nat) : Z := 2 ^ (12 + 9 * (Z.of_nat l - 1)).
Definition nslots (l : nat) : Z := num_caps (Z.of_nat l).

Lemma psize_pos l : (1 ≤ l)%nat → 4096 ≤ psize l.
Proof.
  intros Hl. unfold psize. change 4096 with (2 ^ 12). apply Z.pow_le_mono_r; lia.
Qed.

Lemma psize_S l : (1 ≤ l)%nat → psize (S l) = 512 * psize l.
Proof.
  intros Hl. unfold psize. change 512 with (2 ^ 9). rewrite <-Z.pow_add_r by lia. f_equal. lia.
Qed.

Lemma psize_alt l : 2 ^ (12 + 9 * Z.of_nat l) = psize (S l).
Proof. unfold psize. f_equal. lia. Qed.

Lemma psize_bound l : (1 ≤ l ≤ 4)%nat → psize l ≤ 2 ^ 39.
Proof. intros Hl. unfold psize. apply Z.pow_le_mono_r; lia. Qed.

Lemma pageSize_psize l : (1 ≤ l ≤ 4)%nat → pageSize (Z.of_nat l) = psize l.
Proof.
  intros Hl. pose proof (psize_bound l Hl). pose proof (psize_pos l). unfold pageSize.
  change 4096 with (2 ^ 12). rewrite Z.shiftl_mul_pow2, <-Z.pow_add_r by lia.
  fold (psize l). apply wrap_small. split; lia.
Qed.

Lemma nslots_bound l : 256 ≤ nslots l ≤ 512.
Proof. unfold nslots, num_caps, TABLE_SIZE. destruct (_ <? _); vm_compute; intuition congruence. Qed.

Lemma nslots_low l : (l < 4)%nat → nslots l = 512.
Proof. intros Hl. unfold nslots, num_caps. by rewrite (proj2 (Z.ltb_lt _ _)) by lia. Qed.

(** ** Trees of tables *)

Section trees.
(** The tables of the system, by level and address. *)
Context (isTbl : nat → Z → Prop).
Implicit Types (T : gmap Z Z).

(** The words of a table and of the tables below it. *)
Fixpoint owns T (level : nat) (table a : Z) : Prop :=
  match level with
  | O => False
  | S l => ∃ i, 0 ≤ i < nslots level ∧
      (a = table + 8 * i ∨
       ∃ v sub, T !! (table + 8 * i) = Some v ∧ subtable level v = Some sub ∧ owns T l sub a)
  end.

(** Every table below is reached on one path only. *)
Fixpoint tree T (level : nat) (table : Z) : Prop :=
  match level with
  | O => False
  | S l => isTbl level table ∧ ∀ i, 0 ≤ i < nslots level →
      ∃ v, T !! (table + 8 * i) = Some v ∧ fits 64 v ∧
        ∀ sub, subtable level v = Some sub →
          tree T l sub ∧
          (∀ j, 0 ≤ j < nslots level → ¬ owns T l sub (table + 8 * j)) ∧
          ∀ j v' sub', 0 ≤ j < nslots level → j ≠ i → T !! (table + 8 * j) = Some v' →
            subtable level v' = Some sub' → ∀ a, owns T l sub a → ¬ owns T l sub' a
  end.

(** A table only depends on the words it owns. *)
Lemma owns_frame T T' l table :
  (∀ a, owns T l table a → T' !! a = T !! a) → ∀ a, owns T' l table a ↔ owns T l table a.
Proof.
  revert table. induction l as [|l IH]; intros table HT a; [done|]. cbn [owns].
  assert (∀ i, 0 ≤ i < nslots (S l) → T' !! (table + 8 * i) = T !! (table + 8 * i)) as Hs.
  { intros i Hi. apply HT. exists i. split; [done|by left]. }
  split; intros (i & Hi & [->|(v & sub & Hv & Hsub & Ho)]); exists i; (split; [done|]);
    try (by left); right; exists v, sub.
  - rewrite Hs in Hv by done. split_and!; [done..|]. apply IH in Ho; [done|].
    intros b Hb. apply HT. exists i. split; [done|]. right. by exists v, sub.
  - rewrite Hs by done. split_and!; [done..|]. apply IH; [|done].
    intros b Hb. apply HT. exists i. split; [done|]. right. by exists v, sub.
Qed.

Lemma tree_frame T T' l table :
  (∀ a, owns T l table a → T' !! a = T !! a) → tree T l table → tree T' l table.
Proof.
  revert table. induction l as [|l IH]; intros table HT; [done|]. intros [Ht Htr]. split; [done|].
  assert (∀ i, 0 ≤ i < nslots (S l) → T' !! (table + 8 * i) = T !! (table + 8 * i)) as Hs.
  { intros i Hi. apply HT. exists i. split; [done|by left]. }
  assert (∀ i v sub a, 0 ≤ i < nslots (S l) → T !! (table + 8 * i) = Some v →
    subtable (S l) v = Some sub → owns T l sub a → T' !! a = T !! a) as Hsub.
  { intros i v sub a Hi Hv Hsb Ho. apply HT. exists i. split; [done|]. right. by exists v, sub. }
  intros i Hi. destruct (Htr i Hi) as (v & Hv & Hf & Hsb). exists v. rewrite Hs by done.
  split; [done|]. split; [done|]. intros sub Hs0. destruct (Hsb sub Hs0) as (H1 & H2 & H3).
  assert (∀ a, owns T' l sub a ↔ owns T l sub a) as Ho by (apply owns_frame; intros; by eapply Hsub).
  split_and!.
  - apply IH; [|done]. intros. by eapply Hsub.
  - intros j Hj. rewrite Ho. by apply H2.
  - intros j v' sub' Hj Hne Hv' Hs' a. rewrite Hs in Hv' by done. rewrite Ho.
    rewrite (owns_frame T T' l sub') by (intros; by eapply Hsub). by eapply H3.
Qed.

Lemma translate_frame T T' l table off :
  (∀ a, owns T l table a → T' !! a = T !! a) → 0 ≤ off < nslots l * psize l → (l ≤ 4)%nat →
  translate T' l table off = translate T l table off.
Proof.
  revert table off. induction l as [|l IH]; intros table off HT Hoff Hl; [done|].
  cbn [translate]. unfold slot. fold (psize (S l)). rewrite psize_alt.
  pose proof (psize_pos (S l)).
  assert (0 ≤ off / psize (S l) < nslots (S l)) as Hi.
  { split; [apply Z.div_pos; lia|]. apply Z.div_lt_upper_bound; lia. }
  rewrite HT by (exists (off / psize (S l)); split; [done|by left]).
  destruct (T !! _) as [v|] eqn:Hv; [|done]. cbn.
  destruct (subtable (S l) v) as [sub|] eqn:Hsub; [|done].
  destruct (decide (l = 0%nat)) as [->|Hl0]; [done|].
  apply IH; [|rewrite nslots_low, <-psize_S by lia; apply Z.mod_pos_bound; lia|lia].
  intros a Ha. apply HT. exists (off / psize (S l)). split; [done|]. right. by exists v, sub.
Qed.

Lemma translate_leaf T l table off e :
  T !! (table + 8 * (off / psize (S l))) = Some e → subtable (S l) e = None →
  PTE.present e = true → translate T (S l) table off = Some (e, off mod psize (S l)).
Proof.
  intros He Hs Hp. cbn [translate]. unfold slot. fold (psize (S l)). rewrite psize_alt, He. cbn.
  by rewrite Hs, Hp.
Qed.

Lemma translate_sub T l table off v sub :
  T !! (table + 8 * (off / psize (S l))) = Some v → subtable (S l) v = Some sub →
  translate T (S l) table off = translate T l sub (off mod psize (S l)).
Proof.
  intros He Hs. cbn [translate]. unfold slot. fold (psize (S l)). rewrite psize_alt, He. cbn.
  by rewrite Hs.
Qed.

(** The state of the tables after a walk: only own words have changed, and the
    tables are the same. *)
Definition updated T T' (l : nat) (table : Z) : Prop :=
  (∀ a, ¬ owns T l table a → T' !! a = T !! a) ∧ tree T' l table ∧
  ∀ a, owns T' l table a ↔ owns T l table a.

Lemma updated_refl T l table : tree T l table → updated T T l table.
Proof. done. Qed.

Lemma updated_trans T1 T2 T3 l table :
  updated T1 T2 l table → updated T2 T3 l table → updated T1 T3 l table.
Proof.
  intros (H1 & _ & Ho1) (H2 & Ht & Ho2). split_and!; [|done|].
  - intros a Ha. rewrite H2, H1; [done|done|by rewrite Ho1].
  - intros a. by rewrite Ho2.
Qed.

(** The word of entry [i] and what lies below it. *)
Definition below T (l : nat) (table i a : Z) : Prop :=
  a = table + 8 * i ∨
  ∃ v sub, T !! (table + 8 * i) = Some v ∧ subtable (S l) v = Some sub ∧ owns T l sub a.

(** A change of entry [i], or below it, that keeps the tables below it. *)
Definition entry_change T T' (l : nat) (table i : Z) : Prop :=
  (∀ a, ¬ below T l table i a → T' !! a = T !! a) ∧
  ∃ v v', T !! (table + 8 * i) = Some v ∧ T' !! (table + 8 * i) = Some v' ∧ fits 64 v' ∧
    subtable (S l) v' = subtable (S l) v ∧
    ∀ sub, subtable (S l) v = Some sub →
      tree T' l sub ∧ ∀ a, owns T' l sub a ↔ owns T l sub a.

Section change.
Context T T' (l : nat) (table i : Z).
Context (Htree : tree T (S l) table) (Hi : 0 ≤ i < nslots (S l)).
Context (Hch : entry_change T T' l table i).

Lemma other_slot j : 0 ≤ j < nslots (S l) → j ≠ i → T' !! (table + 8 * j) = T !! (table + 8 * j).
Proof using All.
  intros Hj Hne. apply Hch. intros [?|(v & sub & Hv & Hs & Ho)]; [lia|].
  destruct Htree as [_ Ht]. destruct (Ht i Hi) as (v0 & Hv0 & _ & Hsub).
  simplify_eq. destruct (Hsub _ Hs) as (_ & H2 & _). by eapply H2.
Qed.

Lemma other_sub j v sub :
  0 ≤ j < nslots (S l) → j ≠ i → T !! (table + 8 * j) = Some v → subtable (S l) v = Some sub →
  ∀ a, owns T l sub a → T' !! a = T !! a.
Proof using All.
  intros Hj Hne Hv Hs a Ha. apply Hch. destruct Htree as [_ Ht].
  destruct (Ht j Hj) as (v0 & Hv0 & _ & Hsub). simplify_eq.
  destruct (Hsub _ Hs) as (_ & H2 & H3). intros [->|(v' & sub' & Hv' & Hs' & Ho)].
  - exact (H2 i Hi Ha).
  - eapply (H3 i v' sub' Hi); [congruence|done|done|done|done].
Qed.

(** Every entry of the table before and after the change. *)
Lemma slot_view j : 0 ≤ j < nslots (S l) →
  ∃ v v', T !! (table + 8 * j) = Some v ∧ T' !! (table + 8 * j) = Some v' ∧ fits 64 v' ∧
    subtable (S l) v' = subtable (S l) v ∧
    ∀ sub, subtable (S l) v = Some sub →
      tree T' l sub ∧ ∀ a, owns T' l sub a ↔ owns T l sub a.
Proof using All.
  intros Hj. destruct (decide (j = i)) as [->|Hne]; [apply Hch|].
  destruct Htree as [_ Ht]. destruct (Ht j Hj) as (v & Hv & Hf & Hsub).
  exists v, v. rewrite other_slot by done. split; [done|]. split; [done|]. split; [done|].
  split; [done|]. intros sub Hs. split.
  - eapply tree_frame; [by eapply other_sub|by apply Hsub].
  - apply owns_frame. by eapply other_sub.
Qed.

Lemma entry_change_owns a : owns T' (S l) table a ↔ owns T (S l) table a.
Proof using All.
  split; intros (j & Hj & [->|(v & sub & Hv & Hs & Ho)]); exists j; (split; [done|]);
    try (by left); right;
    destruct (slot_view j Hj) as (v0 & v1 & Hv0 & Hv1 & _ & Heq & Hsub); simplify_eq.
  - rewrite Heq in Hs. exists v0, sub. split_and!; [done..|]. by apply (Hsub sub Hs).
  - exists v1, sub. rewrite Heq. split_and!; [done..|]. by apply (Hsub sub Hs).
Qed.

Lemma entry_change_updated : updated T T' (S l) table.
Proof using All.
  split_and!; [| |apply entry_change_owns].
  - intros a Ha. apply Hch. intros Hb. apply Ha. exists i. by split.
  - destruct Htree as [Htb Ht]. split; [done|]. intros j Hj.
    destruct (slot_view j Hj) as (v & v' & Hv & Hv' & Hf & Heq & Hsub).
    exists v'. split; [done|]. split; [done|]. rewrite Heq. intros sub Hs.
    destruct (Ht j Hj) as (v0 & Hv0 & _ & Hold). simplify_eq.
    destruct (Hold sub Hs) as (_ & H2 & H3). destruct (Hsub sub Hs) as [Htr Ho].
    split_and!; [done| |].
    + intros k Hk. rewrite Ho. by apply H2.
    + intros k w sub' Hk Hne Hw Hs' a. rewrite Ho.
      destruct (slot_view k Hk) as (w0 & w1 & Hw0 & Hw1 & _ & Heq' & Hsub'). simplify_eq.
      rewrite Heq' in Hs'. destruct (Hsub' sub' Hs') as [_ Ho']. rewrite Ho'. by eapply H3.
Qed.

(** Addresses of the other entries are translated as before. *)
Lemma entry_change_translate off :
  (S l ≤ 4)%nat → 0 ≤ off < nslots (S l) * psize (S l) → off / psize (S l) ≠ i →
  translate T' (S l) table off = translate T (S l) table off.
Proof using All.
  intros Hl Hoff Hne. cbn [translate]. unfold slot. fold (psize (S l)). rewrite psize_alt.
  pose proof (psize_pos (S l)).
  assert (0 ≤ off / psize (S l) < nslots (S l)) as Hj.
  { split; [apply Z.div_pos; lia|]. apply Z.div_lt_upper_bound; lia. }
  rewrite other_slot by done. destruct (T !! _) as [v|] eqn:Hv; [|done]. cbn.
  destruct (subtable (S l) v) as [sub|] eqn:Hs; [|done].
  destruct (decide (l = 0%nat)) as [->|Hl0]; [done|].
  apply translate_frame; [by eapply other_sub| |lia].
  rewrite nslots_low, <-psize_S by lia. apply Z.mod_pos_bound. lia.
Qed.

End change.

(** The two changes of a walk. *)
Lemma leaf_change T l table i v e :
  tree T (S l) table → T !! (table + 8 * i) = Some v → subtable (S l) v = None →
  subtable (S l) e = None → fits 64 e →
  entry_change T (<[table + 8 * i := e]> T) l table i.
Proof.
  intros Htr Hv Hs He Hf. split.
  - intros a Ha. apply lookup_insert_ne. intros <-. apply Ha. by left.
  - exists v, e. rewrite lookup_insert_eq, He, Hs. split; [done|]. split; [done|]. split; [done|].
    split; [done|]. by intros.
Qed.

Lemma sub_change T T' l table i v sub :
  tree T (S l) table → 0 ≤ i < nslots (S l) → T !! (table + 8 * i) = Some v →
  subtable (S l) v = Some sub → updated T T' l sub →
  entry_change T T' l table i.
Proof.
  intros [_ Ht] Hi Hv Hs (Hfr & Htr & Hown).
  destruct (Ht i Hi) as (v0 & Hv0 & Hf & Hsub). simplify_eq.
  destruct (Hsub sub Hs) as (_ & H2 & _). split.
  - intros a Ha. apply Hfr. intros Ho. apply Ha. right. by exists v, sub.
  - exists v, v. rewrite Hfr by by apply H2. split; [done|]. split; [done|]. split; [done|].
    split; [done|]. intros sub' Hs'. simplify_eq. by split.
Qed.

End trees.

(** ** Walks *)

Definition cur (op : PageOp) : Z := start_vaddr op + page_offset op.
Definition fin (op : PageOp) : Z := start_vaddr op + start_size op.

(** An operation whose ranges do not wrap around. *)
Definition op_ok (op : PageOp) : Prop :=
  0 ≤ start_vaddr op ∧ 0 ≤ page_offset op ≤ start_size op ∧ 0 ≤ frame_offset op ∧
  fin op < 2 ^ 62 ∧ frame_offset op + start_size op < 2 ^ 62 ∧ skip_nonmapped op = false.

(** The parts of the visitor that a walk does not change. *)
Definition same_op (op op' : PageOp) : Prop :=
  start_vaddr op' = start_vaddr op ∧ start_size op' = start_size op ∧
  frame_offset op' = frame_offset op ∧ skip_nonmapped op' = skip_nonmapped op.

Lemma op_vaddr_eq op : op_ok op → op_vaddr op = cur op.
Proof. unfold op_ok, fin, op_vaddr. intros. apply wrap_small. unfold cur. split; lia. Qed.

Lemma sizeRemaining_eq op : op_ok op → sizeRemaining op = fin op - cur op.
Proof.
  unfold op_ok, fin, sizeRemaining, cur. intros. rewrite wrap_small; [lia|]. split; lia.
Qed.

Lemma op_offset_eq op : op_ok op → op_offset op = frame_offset op + page_offset op.
Proof. unfold op_ok, fin, op_offset. intros. apply wrap_small. split; lia. Qed.

Lemma op_ok_same op op' : op_ok op → same_op op op' → cur op ≤ cur op' ≤ fin op → op_ok op'.
Proof.
  unfold op_ok, same_op, cur, fin. intros Hok (E1 & E2 & E3 & E4). rewrite E1, E2, E3, E4. 
  intros. intuition lia.
Qed.

Section walk.
Context {S : Type} `{HasEntries S} `{!HasPageTables S} `{!HasPageMaps S} `{KernelObjects S}.
Context (applyPage : PageOp → Z → Z → kernel S (optional unit)).
Context (isTbl : nat → Z → Prop).
(** The invariant of the state, and what an entry for a page of level [l] is that
    maps the frame from offset [o] on. *)
Context (Inv : S → Prop) (leaf : nat → Z → Z → Prop).

(** What the operation on one page does: it replaces the entry, or it fails and
    changes no table. *)
Definition applies : Prop :=
  ∀ s l table i op, Inv s → isTbl l table → (1 ≤ l ≤ 4)%nat → 0 ≤ i < nslots l → op_ok op →
  ∃ r s', applyPage op table i s = Done r s' ∧ Inv s' ∧
    match r with
    | OK _ => ∃ e, leaf l (frame_offset op + page_offset op) e ∧
                ptes s' = <[table + 8 * i := e]> (ptes s)
    | THROW _ => ptes s' = ptes s
    end.

Definition leaves : Prop :=
  ∀ l o e, leaf l o e → fits 64 e ∧ PTE.present e = true ∧ subtable l e = None.

Context (Happly : applies) (Hleaf : leaves).

(** An address that is translated through a new entry. *)
Definition mapped (T : gmap Z Z) (l : nat) (table : Z) (op : PageOp) (off va : Z) : Prop :=
  ∃ l' e d, translate T l table off = Some (e, d) ∧
    leaf l' (frame_offset op + (va - d - start_vaddr op)) e.

(** What a walk over a part of a table up to address [lim] has done. *)
Definition walked (T T' : gmap Z Z) (l : nat) (table tb lim : Z) (op op' : PageOp)
    (res : optional unit) : Prop :=
  updated isTbl T T' l table ∧ same_op op op' ∧ cur op ≤ cur op' ≤ Z.min (fin op) lim ∧
  (∀ off, 0 ≤ off < nslots l * psize l →
    (cur op ≤ tb + off < cur op' → mapped T' l table op off (tb + off)) ∧
    (¬ (cur op ≤ tb + off < cur op') → translate T' l table off = translate T l table off)) ∧
  (res = OK tt → cur op' = Z.min (fin op) lim).

Lemma walked_stay T l table tb lim op op' e :
  tree isTbl T l table → cur op ≤ Z.min (fin op) lim → same_op op op' → cur op' = cur op →
  walked T T l table tb lim op op' (THROW e).
Proof.
  intros Ht Hc Hs Heq. refine (conj _ (conj Hs (conj _ (conj _ _)))); [by apply updated_refl|lia| |done].
  intros off Hoff. split; [lia|done].
Qed.

Lemma walked_weaken T T' l table tb lim lim' op op' e :
  walked T T' l table tb lim op op' (THROW e) → lim ≤ lim' →
  walked T T' l table tb lim' op op' (THROW e).
Proof. intros (Hu & Hs & Hc & Hm & _) Hl. refine (conj Hu (conj Hs (conj _ (conj Hm _)))); [lia|done]. Qed.

Lemma walked_trans T1 T2 T3 l table tb lim lim' op1 op2 op3 res :
  walked T1 T2 l table tb lim op1 op2 (OK tt) → walked T2 T3 l table tb lim' op2 op3 res →
  lim ≤ lim' → walked T1 T3 l table tb lim' op1 op3 res.
Proof.
  intros (U1 & S1 & C1 & M1 & _) (U2 & S2 & C2 & M2 & R2) Hl.
  assert (fin op2 = fin op1) as Hf by (unfold fin, same_op in *; intuition congruence).
  rewrite Hf in *. refine (conj _ (conj _ (conj _ (conj _ R2)))); [| |lia|].
  - by eapply updated_trans.
  - unfold same_op in *. intuition congruence.
  - intros off Hoff. destruct (M1 off Hoff) as [Ma Mb], (M2 off Hoff) as [Mc Md].
    assert (∀ va, mapped T3 l table op2 off va → mapped T3 l table op1 off va) as Hmap.
    { unfold mapped, same_op in *. destruct S1 as (-> & _ & -> & _). done. }
    split; intros Hva.
    + destruct (decide (cur op2 ≤ tb + off)); [apply Hmap, Mc; lia|].
      destruct Ma as (l' & e & d & Htr & Hlf); [lia|]. exists l', e, d. rewrite Md by lia. done.
    + rewrite Md, Mb by lia. done.
Qed.

(** The position of a walk at entry [k] of a table for addresses from [tb] on. *)
Definition at_entry (l : nat) (tb k : Z) (op : PageOp) : Prop :=
  op_ok op ∧ 0 ≤ tb ∧ tb mod psize l = 0 ∧ 0 ≤ k < nslots l ∧
  tb + k * psize l ≤ cur op < tb + (k + 1) * psize l.

(** A position that is aligned to the page is the start of the entry. *)
Lemma entry_start l tb k op : (1 ≤ l)%nat →
  at_entry l tb k op → cur op mod psize l = 0 → cur op = tb + k * psize l.
Proof.
  intros Hl (_ & Htb & Hal & Hk & Hc) Hm. pose proof (psize_pos l Hl).
  pose proof (Z.div_mod (cur op) (psize l)) as Hq. pose proof (Z.div_mod tb (psize l)) as Ht.
  set (q := cur op / psize l) in *. set (t := tb / psize l) in *.
  assert (t + k ≤ q) by (apply (Z.mul_le_mono_pos_l _ _ (psize l)); lia).
  assert (q < t + k + 1) by (apply (Z.mul_lt_mono_pos_l (psize l)); lia).
  assert (q = t + k) as Heq by lia. rewrite Heq in Hq. lia.
Qed.

Lemma div_entry off l k : (1 ≤ l)%nat →
  off / psize l = k ↔ k * psize l ≤ off < (k + 1) * psize l.
Proof.
  intros Hl. pose proof (psize_pos l Hl). pose proof (Z.div_mod off (psize l)).
  pose proof (Z.mod_pos_bound off (psize l)). split; [intros <-; lia|]. intros Hk. symmetry.
  apply (Z.div_unique_pos off (psize l) k (off - k * psize l)); lia.
Qed.

Lemma applied_walked T l table tb k op v e :
  tree isTbl T (Datatypes.S l) table → (Datatypes.S l ≤ 4)%nat →
  at_entry (Datatypes.S l) tb k op → cur op = tb + k * psize (Datatypes.S l) →
  psize (Datatypes.S l) ≤ fin op - cur op →
  T !! (table + 8 * k) = Some v → subtable (Datatypes.S l) v = None →
  leaf (Datatypes.S l) (frame_offset op + page_offset op) e →
  walked T (<[table + 8 * k := e]> T) (Datatypes.S l) table tb
    (tb + (k + 1) * psize (Datatypes.S l)) op (moveForward (psize (Datatypes.S l)) op) (OK tt).
Proof using Hleaf.
  intros Ht Hl Hat Hstart Hfin Hv Hs Hlf. pose proof Hat as (Hop & Htb & Hal & Hk & Hc).
  destruct (Hleaf _ _ e Hlf) as (Hfe & Hpe & Hse). pose proof (psize_pos (Datatypes.S l)).
  pose proof (leaf_change isTbl T l table k v e Ht Hv Hs Hse Hfe) as Hch.
  assert (cur (moveForward (psize (Datatypes.S l)) op) = cur op + psize (Datatypes.S l)) as Hc'.
  { unfold cur, moveForward. cbn [start_vaddr page_offset]. unfold op_ok, fin, cur in *.
    pose proof (psize_bound (Datatypes.S l)). rewrite wrap_small; [lia|split; lia]. }
  unfold walked. rewrite Hc'.
  refine (conj _ (conj _ (conj _ (conj _ _)))); [by eapply entry_change_updated|done|lia| |lia].
  intros off Hoff. split; intros Hva.
  - assert (off / psize (Datatypes.S l) = k) as Hdiv by (apply div_entry; lia).
    exists (Datatypes.S l), e, (off mod psize (Datatypes.S l)). split.
    + apply translate_leaf; [|done|done]. rewrite Hdiv. apply lookup_insert_eq.
    + replace (tb + off - off mod _ - start_vaddr op) with (page_offset op); [done|].
      pose proof (Z.div_mod off (psize (Datatypes.S l))). unfold cur in Hstart. lia.
  - eapply entry_change_translate; try done. rewrite div_entry by lia. lia.
Qed.

Lemma apply_step l table tb k op s v :
  Inv s → tree isTbl (ptes s) (Datatypes.S l) table → (Datatypes.S l ≤ 4)%nat →
  at_entry (Datatypes.S l) tb k op →
  ptes s !! (table + 8 * k) = Some v → subtable (Datatypes.S l) v = None →
  ∃ res op' s',
    applyAndMove applyPage (Z.of_nat (Datatypes.S l)) table k op s = Done (res, op') s' ∧ Inv s' ∧
    walked (ptes s) (ptes s') (Datatypes.S l) table tb
      (tb + (k + 1) * psize (Datatypes.S l)) op op' res.
Proof using Happly Hleaf.
  intros HI Ht Hl Hat Hv Hs. pose proof Hat as (Hop & Htb & Hal & Hk & Hc).
  assert (cur op ≤ fin op) as Hcf by (unfold op_ok, cur, fin in *; lia).
  assert (∀ s', ptes s' = ptes s → Inv s' → ∀ e, ∃ res op' s'',
    Done (THROW e, op) s' = Done (res, op') s'' ∧ Inv s'' ∧
    walked (ptes s) (ptes s'') (Datatypes.S l) table tb
      (tb + (k + 1) * psize (Datatypes.S l)) op op' res) as Hstay.
  { intros s' Hp HI' e. eexists _, _, s'. rewrite Hp. split_and!; [done..|].
    apply walked_stay; done || lia. }
  unfold applyAndMove, page_misfit. rewrite pageSize_psize by lia.
  rewrite op_vaddr_eq, sizeRemaining_eq by done.
  destruct (Z.eqb_spec (cur op mod psize (Datatypes.S l)) 0) as [Hm|]; cbn [negb orb];
    [|by apply Hstay].
  destruct (Z.ltb_spec (fin op - cur op) (psize (Datatypes.S l))); [by apply Hstay|].
  destruct (Happly s (Datatypes.S l) table k op) as (r & s' & Hrun & HI' & Hr);
    [done|apply Ht|lia|done|done|].
  rewrite (kbind_run _ _ _ _ _ Hrun). destruct r as [[]|e]; [|by apply Hstay].
  destruct Hr as (e & Hlf & Hpt). eexists _, _, s'. rewrite Hpt. split; [done|]. split; [done|].
  eapply applied_walked; try done. eapply entry_start; [lia|done|done].
Qed.

(** A walk through the table below entry [k] is a walk over that entry. *)
Lemma descend_walked T T' l table tb k op op' v sub res :
  tree isTbl T (Datatypes.S l) table → (1 ≤ l)%nat → (Datatypes.S l ≤ 4)%nat →
  at_entry (Datatypes.S l) tb k op →
  T !! (table + 8 * k) = Some v → subtable (Datatypes.S l) v = Some sub →
  walked T T' l sub (tb + k * psize (Datatypes.S l))
    (tb + k * psize (Datatypes.S l) + nslots l * psize l) op op' res →
  walked T T' (Datatypes.S l) table tb (tb + (k + 1) * psize (Datatypes.S l)) op op' res.
Proof.
  intros Ht Hl1 Hl Hat Hv Hs (Hu & Hsame & Hc' & Hm & Hr).
  pose proof Hat as (Hop & Htb & Hal & Hk & Hc). pose proof (psize_pos (Datatypes.S l)).
  rewrite nslots_low, <-psize_S in * by lia.
  replace (tb + (k + 1) * psize (Datatypes.S l))
    with (tb + k * psize (Datatypes.S l) + psize (Datatypes.S l)) by lia.
  pose proof (sub_change isTbl T T' l table k v sub Ht Hk Hv Hs Hu) as Hch.
  assert (T' !! (table + 8 * k) = Some v) as Hv'.
  { destruct Hu as [Hfr _]. rewrite Hfr; [done|]. destruct Ht as [_ Ht].
    destruct (Ht k Hk) as (v0 & Hv0 & _ & Hsub). simplify_eq.
    destruct (Hsub sub Hs) as (_ & Hno & _). by apply Hno. }
  refine (conj _ (conj Hsame (conj Hc' (conj _ Hr)))); [by eapply entry_change_updated|].
  intros off Hoff. pose proof (Z.mod_pos_bound off (psize (Datatypes.S l))).
  destruct (decide (off / psize (Datatypes.S l) = k)) as [Hdiv|Hdiv].
  - pose proof (Z.div_mod off (psize (Datatypes.S l))) as Hdm. rewrite Hdiv in Hdm.
    destruct (Hm (off mod psize (Datatypes.S l))) as [Hin Hout]; [lia|].
    unfold mapped. rewrite !(translate_sub _ l table off v sub) by (done || by rewrite Hdiv).
    replace (tb + off) with (tb + k * psize (Datatypes.S l) + off mod psize (Datatypes.S l)) by lia.
    done.
  - split; intros Hva.
    + exfalso. apply Hdiv, div_entry; lia.
    + by eapply entry_change_translate.
Qed.

(** What [visitPages] does from a position inside its table. *)
Definition walks (l : nat) : Prop :=
  ∀ table tb op s, Inv s → tree isTbl (ptes s) l table → op_ok op → table_vaddr op = tb →
  0 ≤ tb → tb mod psize l = 0 → tb + nslots l * psize l ≤ 2 ^ 62 →
  tb ≤ cur op < tb + nslots l * psize l →
  ∃ res op' s', visitPages applyPage l table op s = Done (res, op') s' ∧ Inv s' ∧
    walked (ptes s) (ptes s') l table tb (tb + nslots l * psize l) op op' res.

Lemma psize_divides l x : (1 ≤ l)%nat → x mod psize (Datatypes.S l) = 0 → x mod psize l = 0.
Proof.
  intros Hl Hx. pose proof (psize_pos l Hl). rewrite psize_S in Hx by done.
  pose proof (Z.div_mod x (512 * psize l)). apply Z.mod_divide; [lia|].
  exists (512 * (x / (512 * psize l))). lia.
Qed.

Lemma subtree_step l table tb k op s v sub :
  walks l → (1 ≤ l)%nat → Inv s → tree isTbl (ptes s) (Datatypes.S l) table →
  (Datatypes.S l ≤ 4)%nat → at_entry (Datatypes.S l) tb k op →
  tb + nslots (Datatypes.S l) * psize (Datatypes.S l) ≤ 2 ^ 62 →
  ptes s !! (table + 8 * k) = Some v → subtable (Datatypes.S l) v = Some sub →
  ∃ res op' s',
    visitPages applyPage l sub
      (at_table (u64 (tb + u64 (k * pageSize (Z.of_nat (Datatypes.S l))))) op) s =
      Done (res, op') s' ∧ Inv s' ∧
    walked (ptes s) (ptes s') (Datatypes.S l) table tb
      (tb + (k + 1) * psize (Datatypes.S l)) op op' res.
Proof.
  intros Hw Hl1 HI Ht Hl Hat Hlim Hv Hs. pose proof Hat as (Hop & Htb & Hal & Hk & Hc).
  pose proof (psize_pos (Datatypes.S l)). rewrite pageSize_psize by lia.
  assert (0 ≤ k * psize (Datatypes.S l)) by nia.
  assert ((k + 1) * psize (Datatypes.S l) ≤ nslots (Datatypes.S l) * psize (Datatypes.S l))
    by (apply Z.mul_le_mono_nonneg_r; lia).
  rewrite !wrap_small by (rewrite ?wrap_small; split; lia).
  set (tb' := tb + k * psize (Datatypes.S l)).
  pose proof Ht as [_ Hslots]. destruct (Hslots k Hk) as (v0 & Hv0 & _ & Hsub). simplify_eq.
  assert (nslots l * psize l = psize (Datatypes.S l)) as Hns
    by (rewrite nslots_low, <-psize_S by lia; done).
  destruct (Hw sub tb' (at_table tb' op) s) as (res & op' & s' & Hrun & HI' & Hwk); try done.
  - by apply Hsub.
  - lia.
  - apply psize_divides; [done|]. unfold tb'. rewrite Z.mod_add by lia. done.
  - rewrite Hns. lia.
  - rewrite Hns. change (cur (at_table tb' op)) with (cur op). lia.
  - exists res, op', s'. split; [done|]. split; [done|].
    eapply (descend_walked (ptes s) (ptes s') l table tb k op op' v sub res); try done.
Qed.

Lemma entry_step l table tb k op s :
  (l = 0%nat ∨ walks l) → Inv s → tree isTbl (ptes s) (Datatypes.S l) table →
  (Datatypes.S l ≤ 4)%nat → at_entry (Datatypes.S l) tb k op →
  tb + nslots (Datatypes.S l) * psize (Datatypes.S l) ≤ 2 ^ 62 →
  ∃ res op' s',
    visit_entry applyPage (visitPages applyPage l) (Z.of_nat (Datatypes.S l)) table tb k op s =
      Done (res, op') s' ∧ Inv s' ∧
    walked (ptes s) (ptes s') (Datatypes.S l) table tb
      (tb + (k + 1) * psize (Datatypes.S l)) op op' res.
Proof using Happly Hleaf.
  intros IH HI Ht Hl Hat Hlim. pose proof Hat as (Hop & Htb & Hal & Hk & Hc).
  assert (cur op ≤ fin op) as Hcf by (unfold op_ok, cur, fin in *; lia).
  set (L := Z.of_nat (Datatypes.S l)). set (op1 := at_level L op).
  assert (at_entry (Datatypes.S l) tb k op1) as Hat1 by exact Hat.
  assert (∀ e, ∃ res op' s', Done (THROW e, op1) s = Done (res, op') s' ∧ Inv s' ∧
    walked (ptes s) (ptes s') (Datatypes.S l) table tb
      (tb + (k + 1) * psize (Datatypes.S l)) op op' res) as Hstay.
  { intros e. eexists _, _, s. split_and!; [done..|]. apply walked_stay; done || lia. }
  pose proof Ht as [_ Hslots]. destruct (Hslots k Hk) as (v & Hv & Hfit & Hsub).
  unfold visit_entry. fold op1. unfold pte_load, rd_pte, kbind at 1. rewrite Hv.
  assert (subtable (Datatypes.S l) v =
    if (1 <? L) && PTE.present v && negb (PTE.page v)
    then Some (phys2kernel (PTE.getAddr v)) else None) as Hst by done.
  destruct ((1 <? L) && PTE.present v && negb (PTE.page v)) eqn:Hd.
  - destruct (PTE.configurable v); cbn [negb]; [|apply Hstay].
    destruct IH as [->|Hw]; [done|].
    apply (subtree_step l table tb k op1 s v); try done. destruct l; [done|lia].
  - pose proof (apply_step l table tb k op1 s v HI Ht Hl Hat1 Hv Hst) as Happ.
    destruct (PTE.present v && PTE.page v); [exact Happ|].
    destruct Hop as (_ & _ & _ & _ & _ & Hskip). change (skip_nonmapped op1) with (skip_nonmapped op).
    rewrite Hskip. cbn [negb]. destruct (2 <? L); [apply Hstay|exact Happ].
Qed.

(** The entries from [k] on, [n] of them, are those that the rest of the range
    reaches in the table. *)
Definition remaining (l : nat) (tb k : Z) (n : nat) (op : PageOp) : Prop :=
  0 ≤ k ∧ k + Z.of_nat n ≤ nslots l ∧
  (k + Z.of_nat n < nslots l → fin op ≤ tb + (k + Z.of_nat n) * psize l) ∧
  (0 < Z.of_nat n → tb + (k + Z.of_nat n - 1) * psize l ≤ fin op ∧ at_entry l tb k op) ∧
  (n = 0%nat → cur op = Z.min (fin op) (tb + nslots l * psize l)).

Lemma remaining_step l tb k n op op' : (1 ≤ l)%nat →
  remaining l tb k (Datatypes.S n) op → same_op op op' →
  cur op' = Z.min (fin op) (tb + (k + 1) * psize l) → cur op ≤ cur op' →
  remaining l tb (k + 1) n op'.
Proof.
  intros Hl (Hk & Hkn & Hlast & Hpos & _) Hsame Hcur Hmono. destruct Hpos as [Hfin Hat]; [lia|].
  destruct Hat as (Hop & Htb & Hal & _ & Hc). pose proof (psize_pos l Hl).
  assert (fin op' = fin op) as Hf by (unfold fin, same_op in *; intuition congruence).
  assert (op_ok op') as Hop' by (eapply op_ok_same; [done|done|lia]).
  unfold remaining. rewrite Hf. replace (k + 1 + Z.of_nat n) with (k + Z.of_nat (Datatypes.S n)) by lia.
  split_and!; try (done || lia).
  - intros Hn. assert ((k + 1) * psize l ≤ (k + Z.of_nat (Datatypes.S n) - 1) * psize l)
      by (apply Z.mul_le_mono_nonneg_r; lia).
    split; [lia|]. split_and!; try (done || lia).
  - intros ->. rewrite Hcur. replace (k + Z.of_nat 1) with (k + 1) in * by lia.
    destruct (decide (k + 1 < nslots l)) as [Hlt|]; [|by replace (k + 1) with (nslots l) by lia].
    specialize (Hlast Hlt).
    assert ((k + 1) * psize l ≤ nslots l * psize l) by (apply Z.mul_le_mono_nonneg_r; lia). lia.
Qed.

Lemma loop_step l table tb n :
  (l = 0%nat ∨ walks l) → (Datatypes.S l ≤ 4)%nat → 
  tb + nslots (Datatypes.S l) * psize (Datatypes.S l) ≤ 2 ^ 62 →
  ∀ k op s, Inv s → tree isTbl (ptes s) (Datatypes.S l) table →
  remaining (Datatypes.S l) tb k n op →
  ∃ res op' s',
    visit_loop applyPage (visitPages applyPage l) (Z.of_nat (Datatypes.S l)) table tb k n op s =
      Done (res, op') s' ∧ Inv s' ∧
    walked (ptes s) (ptes s') (Datatypes.S l) table tb
      (tb + nslots (Datatypes.S l) * psize (Datatypes.S l)) op op' res.
Proof using Happly Hleaf.
  intros IH Hl Hlim. induction n as [|n IHn]; intros k op s HI Ht Hrem.
  - eexists _, op, s. split; [done|]. split; [done|].
    destruct Hrem as (_ & _ & _ & _ & Hc). specialize (Hc eq_refl).
    refine (conj _ (conj _ (conj _ (conj _ _)))); [by apply updated_refl|done|lia| |done].
    intros off Hoff. split; [lia|done].
  - pose proof Hrem as (Hk & Hkn & _ & Hpos & _). destruct Hpos as [_ Hat]; [lia|].
    pose proof (psize_pos (Datatypes.S l)).
    assert ((k + 1) * psize (Datatypes.S l) ≤ nslots (Datatypes.S l) * psize (Datatypes.S l))
      by (apply Z.mul_le_mono_nonneg_r; lia).
    destruct (entry_step l table tb k op s IH HI Ht Hl Hat Hlim)
      as (res & op1 & s1 & Hrun & HI1 & Hw). cbn [visit_loop].
    rewrite (kbind_run _ _ _ _ _ Hrun). destruct res as [[]|e].
    + pose proof Hw as ((_ & Ht1 & _) & Hsame & Hc & _ & Hr).
      destruct (IHn (k + 1) op1 s1 HI1 Ht1) as (res & op2 & s2 & Hrun2 & HI2 & Hw2).
      { eapply remaining_step; try done; [lia|by apply Hr|lia]. }
      exists res, op2, s2. split; [done|]. split; [done|].
      eapply walked_trans; [exact Hw|exact Hw2|lia].
    + eexists _, op1, s1. split; [done|]. split; [done|]. eapply walked_weaken; [exact Hw|lia].
Qed.

(** The entries that [visitPages] computes for its loop. *)
Lemma remaining_start l tb op n : (1 ≤ l)%nat →
  op_ok op → 0 ≤ tb → tb mod psize l = 0 → tb ≤ cur op < tb + nslots l * psize l →
  n = (fin op + psize l - 1) / psize l - cur op / psize l →
  0 ≤ n ∧ 0 ≤ (cur op - tb) / psize l < nslots l ∧
  remaining l tb ((cur op - tb) / psize l)
    (Z.to_nat (if nslots l - (cur op - tb) / psize l <? n
               then nslots l - (cur op - tb) / psize l else n)) op.
Proof.
  intros Hl Hop Htb Hal Hc Hn. pose proof (psize_pos l Hl) as Hps.
  assert (cur op ≤ fin op) by (unfold op_ok, cur, fin in *; lia).
  set (si := (cur op - tb) / psize l). set (ps := psize l) in *.
  pose proof (Z.div_mod (cur op - tb) ps) as Hd1. fold si in Hd1.
  pose proof (Z.mod_pos_bound (cur op - tb) ps) as Hm1.
  pose proof (Z.div_mod tb ps) as Hd2. set (t := tb / ps) in *.
  assert (cur op / ps = t + si) as Hq.
  { symmetry. apply (Z.div_unique_pos _ _ _ ((cur op - tb) mod ps)); lia. }
  pose proof (Z.div_mod (fin op + ps - 1) ps) as Hd3.
  pose proof (Z.mod_pos_bound (fin op + ps - 1) ps) as Hm3.
  set (q := (fin op + ps - 1) / ps) in *.
  assert (0 ≤ si < nslots l) as Hsi.
  { split; [apply Z.div_pos; lia|]. apply Z.div_lt_upper_bound; lia. }
  assert (t + si ≤ q) as Hge by (rewrite <-Hq; apply Z.div_le_mono; lia).
  split; [lia|]. split; [done|].
  set (n' := if _ <? _ then _ else _).
  assert (0 ≤ n' ≤ n ∧ si + n' ≤ nslots l ∧ (si + n' < nslots l → n' = n) ∧ (n' = 0 → n = 0)) as Hn'.
  { unfold n'. destruct (Z.ltb_spec (nslots l - si) n); lia. }
  clearbody n'. unfold remaining. rewrite Z2Nat.id by lia.
  assert ((si + n' - 1 + t) * ps ≤ (q - 1) * ps) by (apply Z.mul_le_mono_nonneg_r; lia).
  split_and!; try lia.
  intros Hpos. split; [lia|]. unfold at_entry. fold ps. split_and!; try (done || lia).
Qed.

Lemma walks_all l : (1 ≤ l ≤ 4)%nat → walks l.
Proof using Happly Hleaf.
  induction l as [|l IH]; [lia|]. intros Hl table tb op s HI Ht Hop Htv Htb Hal Hlim Hc.
  pose proof (psize_pos (Datatypes.S l)). pose proof (psize_bound (Datatypes.S l) Hl).
  assert (cur op ≤ fin op < 2 ^ 62) as Hcf by (unfold op_ok, cur, fin in *; lia).
  destruct (remaining_start (Datatypes.S l) tb op _ ltac:(lia) Hop Htb Hal Hc eq_refl)
    as (Hn & Hsi & Hrem).
  cbn [visitPages]. rewrite Htv, op_vaddr_eq, sizeRemaining_eq, pageSize_psize by done.
  rewrite (wrap_small 64 (cur op - tb)) by (split; lia).
  fold (nslots (Datatypes.S l)). rewrite (proj2 (Z.leb_gt _ _)) by lia.
  replace (cur op + (fin op - cur op) + psize (Datatypes.S l) - 1)
    with (fin op + psize (Datatypes.S l) - 1) by lia.
  rewrite (wrap_small 64 (fin op + _ - 1)) by (split; lia).
  rewrite (wrap_small 64 (_ - _)).
  2: { split; [done|]. apply Z.le_lt_trans with ((fin op + psize (Datatypes.S l) - 1) / 1); [|].
       - transitivity ((fin op + psize (Datatypes.S l) - 1) / psize (Datatypes.S l)).
         + pose proof (Z.div_pos (cur op) (psize (Datatypes.S l))). lia.
         + apply Z.div_le_compat_l; lia.
       - rewrite Z.div_1_r. lia. }
  apply loop_step; try done; try lia. destruct l; [by left|right; apply IH; lia].
Qed.

End walk.
