(* ===== verification/CapSlots.v ===== *)
(** * Slots: entries that an object fills with references

    A page map holds an array of entries that it fills with references to the
    mapped frames and tables and clears again.  [slots] is the invariant of such
    an array next to the entry the references are made from: each slot is empty
    or a usable entry of the resource list.  Clearing a slot and storing a
    reference in it keep the invariant. *)

From stdpp Require Import base tactics numbers list gmap.
From Stdlib Require Import ZArith Lia.
From S2P Require Import Prelude Ranges Bitfield Cap CapEntry CapRing CapSteps CapOps.

Local Open Scope Z_scope.
Import PhysPtr.

Definition free_slot (m : gmap Z CapEntry) (l : list node) (a : Z) : Prop :=
  a ∉ addrs l ∧ ∃ t, m !! a = Some t ∧ _cap t = asEmpty.

Definition used_slot (l : list node) (a : Z) : Prop :=
  ∃ n, n ∈ l ∧ n_addr n = a ∧ isUsable (n_cap n) = true.

(** [l] is the resource list; [src] is an entry with capability [c] in it, and
    [P] are the slots. *)
Record slots (m : gmap Z CapEntry) (l : list node) (src c : Z) (P : Z → Prop) : Prop := {
  sl_ring : Ring m l;
  sl_unlocked : unlocked l;
  sl_src : ∃ n, n ∈ l ∧ n_addr n = src ∧ n_cap n = c;
  sl_usable : isUsable c = true;
  sl_slot a : P a → a ≠ src ∧ capPointer a = true ∧ (free_slot m l a ∨ used_slot l a)
}.

Lemma clear_first_elem l n :
  n ∈ l → ∃ n', n' ∈ clear_first l ∧ n_addr n' = n_addr n ∧ n_cap n' = n_cap n.
Proof.
  destruct l as [|q l]; intros Hn; [by apply elem_of_nil in Hn|]. cbn.
  apply elem_of_cons in Hn as [->|Hn].
  - exists (clearf q). split_and!; [by apply elem_of_cons; left|done|done].
  - exists n. split_and!; [by apply elem_of_cons; right|done|done].
Qed.

Lemma clear_first_addrs l : addrs (clear_first l) = addrs l.
Proof. by destruct l. Qed.

Lemma clear_first_unlocked l : unlocked l → unlocked (clear_first l).
Proof. destruct l as [|q l]; [done|]. intros [? ?]%Forall_cons. by apply Forall_cons. Qed.

Lemma elem_of_addrs n l : n ∈ l → n_addr n ∈ addrs l.
Proof. intros Hn. by apply list_elem_of_fmap_2. Qed.

Section slots.
Context {S : Type} `{HasEntries S} `{KernelObjects S}.
Implicit Types (m : gmap Z CapEntry) (s : S).

Lemma slot_free_run m s a t (fn : kernel S unit) :
  m !! a = Some t → _cap t = asEmpty →
  resetReference a fn (set_entries m s) = Done false (set_entries m s).
Proof.
  intros Ht Hc. unfold resetReference, kill, kbind. erewrite rd_run by done. by rewrite Hc.
Qed.

(** Clearing a slot, used or not. *)
Lemma slot_clear m s s' l src c P a (fn : kernel S unit) :
  slots m l src c P → P a → (∀ m1, fn (set_entries m1 s) = Done tt (set_entries m1 s')) →
  ∃ (b : bool) m' l', resetReference a fn (set_entries m s) =
               Done b (set_entries m' (if b then s' else s)) ∧
    slots m' l' src c P ∧ free_slot m' l' a ∧ (b = false → l' = l) ∧
    ∀ x, x ≠ a → used_slot l x → used_slot l' x.
Proof.
  intros [HR Hul (n0 & Hn0 & Ha0 & Hc0) Hu Hsl] Ha Hfn.
  destruct (Hsl a Ha) as (Hne & Hcp & [Hfree|(n & Hn & Hna & Hnu)]).
  { exists false, m, l. destruct Hfree as (Hni & t & Ht & Htc).
    split_and!; [by eapply slot_free_run|by split; eauto|by split; eauto|done|done]. }
  apply list_elem_of_split in Hn as (l1 & l2 & ->).
  assert (∀ x, x ∈ l1 ++ n :: l2 → n_addr x ≠ a → x ∈ l2 ++ l1) as Hrest.
  { intros x Hx Hxa. rewrite elem_of_app, elem_of_cons in *. naive_solver. }
  assert (n0 ∈ l2 ++ l1) as Hn0' by (apply Hrest; congruence).
  destruct (resetReference_at m s s' l1 n l2 fn) as (m' & Hrun & HR' & Hm' & Hfr); try done.
  { intros Hnil. apply app_eq_nil in Hnil as [-> ->]. by apply elem_of_nil in Hn0'. }
  { by left. }
  rewrite Hna in *.
  assert (a ∉ addrs (clear_first (l2 ++ l1))) as Hni.
  { rewrite clear_first_addrs. destruct HR as (Hnd & _). rewrite <-Hna.
    unfold addrs in *. rewrite fmap_app, fmap_cons in *. apply NoDup_app in Hnd as (_ & Hd1 & Hd2).
    apply NoDup_cons in Hd2 as [Hd2 _]. intros [Hx|Hx]%elem_of_app; [done|].
    apply (Hd1 _ Hx). by apply elem_of_cons; left. }
  assert (∀ b, b ≠ a → used_slot (l1 ++ n :: l2) b → used_slot (clear_first (l2 ++ l1)) b) as Huse.
  { intros b Hba (x & Hx & Hxa & Hxu).
    destruct (clear_first_elem (l2 ++ l1) x) as (x' & Hx' & Hxa' & Hxc'); [apply Hrest; congruence|].
    exists x'. split_and!; congruence. }
  exists true, m', (clear_first (l2 ++ l1)). split_and!; [done| |by split; eauto|done|done].
  split; [done| | |done|].
  - apply clear_first_unlocked. unfold unlocked in *. rewrite !Forall_app, Forall_cons in *. naive_solver.
  - destruct (clear_first_elem _ _ Hn0') as (n1 & ? & ? & ?). exists n1. split_and!; congruence.
  - intros b Hb. destruct (Hsl b Hb) as (Hbs & Hbp & Hbo). split_and!; [done|done|].
    destruct (decide (b = a)) as [->|Hba]; [left; by split; eauto|].
    destruct Hbo as [(Hbi & t & Ht & Htc)|Hbu]; [left|right; by apply Huse].
    split; [|exists t; by rewrite Hfr by done]. rewrite clear_first_addrs.
    unfold addrs in *. rewrite !fmap_app, fmap_cons in *. set_solver.
Qed.

(** Storing a reference to the source in a free slot. *)
Lemma slot_set m s s' l src c P a newCap pr tr cf :
  slots m l src c P → P a → free_slot m l a →
  isReference newCap = true → isUsable newCap = true →
  hasRange s' src c pr → hasRange s' a newCap tr → linkable pr c tr newCap = true →
  (∀ m1, cf (set_entries m1 s) = Done tt (set_entries m1 s')) →
  ∃ m' l', setReference a newCap src c cf (set_entries m s) = Done (OK tt) (set_entries m' s') ∧
    slots m' l' src c P ∧ used_slot l' a ∧ ∀ x, used_slot l x → used_slot l' x.
Proof.
  intros [HR Hul (n & Hn & Hna & Hnc) Hu Hsl] Ha (Hni & t & Ht & Htc) Href Hnu Hpr Htr Hlk Hcf.
  apply list_elem_of_split in Hn as (l1 & l2 & ->).
  destruct (Hsl a Ha) as (Hne & Hcp & _).
  assert (n_locked n = false) as Hln
    by (unfold unlocked in Hul; rewrite Forall_app, Forall_cons in Hul; naive_solver).
  set (m1 := <[a := with_cap asAllocated t]> m).
  destruct (inherit_ring m1 s s' l1 n l2 a (with_cap asAllocated t) newCap pr tr cf)
    as (m' & Hrun & HR' & Hfr); rewrite ?Hna, ?Hnc; try done.
  { eapply Ring_frame; [|done]. intros b Hb. apply lookup_insert_ne. by intros <-. }
  { apply lookup_insert_eq. }
  rewrite Hna, Hnc in Hrun. exists m', (l1 ++ n :: fresh a newCap :: l2). split.
  { unfold setReference. rewrite (kbind_run _ _ _ _ _ (kassert_run _ _ Href)).
    rewrite (kbind_run _ _ _ _ _ (acquire_run m s a t Ht Htc)). exact Hrun. }
  assert (∀ x, x ∈ l1 ++ n :: l2 → x ∈ l1 ++ n :: fresh a newCap :: l2) as Hsub by set_solver.
  assert (used_slot (l1 ++ n :: fresh a newCap :: l2) a) as Hua.
  { exists (fresh a newCap). split_and!; [set_solver|done|done]. }
  assert (∀ b, used_slot (l1 ++ n :: l2) b → used_slot (l1 ++ n :: fresh a newCap :: l2) b) as Huse.
  { intros b (x & Hx & ? & ?). exists x. split_and!; [by apply Hsub|done|done]. }
  split; [|by split].
  split; [done| |exists n; split_and!; [apply Hsub; set_solver|done|done]|done|].
  - unfold unlocked in *. rewrite !Forall_app, !Forall_cons in *. naive_solver.
  - intros b Hb. destruct (Hsl b Hb) as (Hbs & Hbp & Hbo). split_and!; [done|done|].
    destruct (decide (b = a)) as [->|Hba]; [by right|].
    destruct Hbo as [(Hbi & u & Hu' & Huc)|Hbu]; [left; split|right; by apply Huse].
    + unfold addrs in *. rewrite !fmap_app, !fmap_cons in *. set_solver.
    + exists u. rewrite Hfr by done. unfold m1. by rewrite lookup_insert_ne.
Qed.

End slots.
