(* ===== verification/PageMapping.v ===== *)
(** * Mapping a frame

    [PageMap::mapFrame] is proved to change the address space exactly as
    requested: together with PageWalk.v, an address of the requested range is
    translated to the corresponding address of the frame with the granted
    rights, and no other address is affected.  The references in the capability
    tables stay in step: the invariant of CapSlots.v is kept. *)

From stdpp Require Import base tactics numbers list gmap.
From Stdlib Require Import ZArith Lia.
From S2P Require Import Prelude Ranges Bitfield Cap CapEntry CapRing CapSteps CapOps Heap KernelMemory Frame PageTable PageMap PageWalk CapSlots.

Local Open Scope Z_scope.
Import PhysPtr.

Lemma psize_4096 l x : (1 ≤ l)%nat → x mod psize l = 0 → x mod 4096 = 0.
Proof.
  induction l as [|l IH]; [lia|]. intros _ Hx. destruct l; [done|].
  apply IH; [lia|]. by apply psize_divides; [lia|].
Qed.

(** ** Entries *)

(** The entry of a mapped page. *)
Definition page_entry (info : MemoryRegion.Info) (flags : Z) (l : nat) (o e : Z) : Prop :=
  fits 64 e ∧ PTE.present e = true ∧ PTE.userMode e = true ∧ PTE.page e = (1 <? Z.of_nat l) ∧
  PTE.writeable e = MapFlags.fl_writable flags && MemoryRegion.i_writable info ∧
  PTE.configurable e = MemoryRegion.i_writable info ∧
  PTE.getAddr e = MemoryRegion.i_start info + o.

Lemma page_entry_leaves info flags : leaves (page_entry info flags).
Proof.
  intros l o e (Hf & Hp & _ & Hpg & _). split; [done|]. split; [done|].
  unfold subtable. rewrite Hp, Hpg. by destruct (1 <? Z.of_nat l).
Qed.

Lemma frame_entry_run {S} info flags a old (s : S) l :
  fits 64 old → 0 ≤ a < 2 ^ 40 → a mod 4096 = 0 →
  ∃ e, frame_entry (Z.of_nat l) info flags a old s = Done e s ∧
    page_entry info flags l (a - MemoryRegion.i_start info) e ∧ PTE.pmPtr e = PTE.pmPtr old.
Proof.
  intros Hold Ha Hal. unfold frame_entry, PTE.withAddr. change (PTE.MAXPHYADDR - 12) with 28.
  pose proof (PTE.pmPtr_fits old Hold) as Hpm.
  assert (fits 28 (Z.shiftr a 12)) as Hsh.
  { rewrite Z.shiftr_div_pow2 by lia. split; [apply Z.div_pos; lia|].
    apply Z.div_lt_upper_bound; lia. }
  erewrite kbind_run by (apply kuset_run; [lia|exact Hsh]).
  rewrite kuset_run by (lia || done). eexists. split; [done|].
  unfold page_entry, PTE.present, PTE.userMode, PTE.page, PTE.writeable, PTE.configurable, PTE.pmPtr.
  assert (∀ x, fits 64 x → PTE.addr x = Z.shiftr a 12 → PTE.getAddr x = a) as Hga.
  { intros x Hx Hax. rewrite PTE.getAddr_eq, Hax, Z.shiftr_div_pow2 by (done || lia).
    pose proof (Z.div_mod a 4096). change (2 ^ 12) with 4096. lia. }
  unfold PTE.pmPtr in *.
  rewrite Hga; [| |unfold PTE.addr; change (PTE.MAXPHYADDR - 12) with 28].
  - field_simpl. split_and!; try done; try lia; fits_tac.
  - fits_tac.
  - field_simpl. done.
Qed.

(** ** Tables and their page maps *)

(** The words of the table of [pm], with the link back to the object at [p]. *)
Definition linked (T : gmap Z Z) (p : Z) (pm : PageMap) : Prop :=
  (∀ i, 0 ≤ i < TABLE_SIZE → ∃ v, T !! (_table pm + 8 * i) = Some v ∧ fits 64 v) ∧
  ∃ v0 v1 v2, T !! _table pm = Some v0 ∧ T !! (_table pm + 8) = Some v1 ∧
    T !! (_table pm + 16) = Some v2 ∧ decode_pmPtr v0 v1 v2 = p.

(** Words keep the link as long as they keep their [pmPtr] field. *)
Lemma linked_update T p pm a old e :
  linked T p pm → T !! a = Some old → fits 64 e → PTE.pmPtr e = PTE.pmPtr old →
  linked (<[a := e]> T) p pm.
Proof.
  intros [Hw (v0 & v1 & v2 & H0 & H1 & H2 & Hd)] Ha He Hp.
  assert (∀ b v, T !! b = Some v → ∃ v', <[a := e]> T !! b = Some v' ∧ PTE.pmPtr v' = PTE.pmPtr v) as Hb.
  { intros b v Hv. destruct (decide (a = b)) as [<-|Hne].
    - simplify_eq. exists e. by rewrite lookup_insert_eq.
    - exists v. by rewrite lookup_insert_ne. }
  split.
  - intros i Hi. destruct (decide (a = _table pm + 8 * i)) as [<-|Hne].
    + exists e. by rewrite lookup_insert_eq.
    + rewrite lookup_insert_ne by done. by apply Hw.
  - destruct (Hb _ _ H0) as (w0 & ? & E0), (Hb _ _ H1) as (w1 & ? & E1), (Hb _ _ H2) as (w2 & ? & E2).
    exists w0, w1, w2. split_and!; [done..|]. unfold decode_pmPtr. rewrite E0, E1, E2. exact Hd.
Qed.

(** A reference with the range of a part is placed below its source. *)
Lemma linkable_part pr p tr t :
  Intervals.contains pr tr = true → isReference t = true → isDerived t = isDerived p →
  linkable pr p tr t = true.
Proof.
  intros Hc Hr Hd. unfold linkable, treeOk, childOf, isDerivedReference, isOriginal.
  rewrite Hc, Hr, Hd. by destruct (Intervals.contains tr pr), (isReference p), (isDerived p).
Qed.

Lemma reset_value_fields v : fits 64 v →
  PTE.present (PTE.reset_value v) = false ∧ PTE.pmPtr (PTE.reset_value v) = PTE.pmPtr v ∧
  fits 64 (PTE.reset_value v).
Proof.
  intros Hv. pose proof (PTE.pmPtr_fits v Hv) as Hp. unfold PTE.reset_value.
  split; [unfold PTE.present; by field_simpl|]. split; [|fits_tac].
  unfold PTE.pmPtr at 1. by field_simpl.
Qed.

Lemma slot_index l i : 0 ≤ i < num_caps l → i < TABLE_SIZE.
Proof.
  unfold num_caps, TABLE_SIZE. destruct (_ <? 4); [lia|]. change (512 / 2) with 256. lia.
Qed.

(** Runs of the operations on page table words. *)
Section words.
Context {S : Type} `{HasEntries S} `{!HasPageTables S}.

Lemma pte_set_run (s : S) m a old e :
  ptes s !! a = Some old →
  pte_set a e (set_entries m s) = Done tt (set_entries m (set_ptes (<[a := e]> (ptes s)) s)).
Proof.
  intros Ha. unfold pte_set, wr_pte. by rewrite ptes_set_entries, Ha, set_ptes_entries.
Qed.

Lemma pte_reset_run (s : S) m a old :
  ptes s !! a = Some old →
  pte_reset a (set_entries m s) =
    Done tt (set_entries m (set_ptes (<[a := PTE.reset_value old]> (ptes s)) s)).
Proof.
  intros Ha. unfold pte_reset, rd_pte, kbind. rewrite ptes_set_entries, Ha. by eapply pte_set_run.
Qed.

End words.

(** ** The operation on one page *)

Section mapping.
Context {S : Type} `{HasEntries S} `{!HasPageTables S} `{!HasPageMaps S} `{KernelObjects S}.
(** The page maps of the system and the frame that is mapped. *)
Context (pms : Z → option PageMap) (frameEntry fc : Z) (region : MemoryRegion.MemoryRegion)
  (flags : Z).

Definition frame_info : MemoryRegion.Info := MemoryRegion.getFrameInfo region fc.

(** The tables and the slots of the page maps. *)
Definition isTable (l : nat) (table : Z) : Prop :=
  ∃ p pm, pms p = Some pm ∧ _level pm = Z.of_nat l ∧ _table pm = table.

Definition isSlot (a : Z) : Prop :=
  ∃ p pm i, pms p = Some pm ∧ 0 ≤ i < num_caps (_level pm) ∧ a = _caps pm + 16 * i.

(** The frame lies in physical memory that page tables can address. *)
Definition frame_addressable : Prop :=
  frame_ok (MemoryRegion.base region) (MemoryRegion.size region) fc ∧
  MemoryRegion.i_start frame_info + MemoryRegion.i_size frame_info ≤ 2 ^ 40 ∧
  frameEntry ≠ 0.

(** The memory of the page maps does not overlap. *)
Definition layout_ok : Prop :=
  ∀ p pm q qm i j, pms p = Some pm → pms q = Some qm →
  0 ≤ i < num_caps (_level pm) → 0 ≤ j < num_caps (_level qm) →
  _table pm + 8 * i = _table qm + 8 * j ∨ _caps pm + 16 * i = _caps qm + 16 * j →
  p = q ∧ i = j.

(** The helper objects of the page maps and the frame answer [addressRange] as
    their classes define it. *)
Definition objects_ok : Prop :=
  layout_ok ∧
  (∀ p pm, pms p = Some pm → capPointer (mappedFrameHelper pm) = true ∧
     ∀ e c (s : S), addressRange (mappedFrameHelper pm) e c s = MappedFrame_addressRange p e c s) ∧
  (∀ e (s : S), addressRange (getPtr fc) e fc s = Done (MemoryRegion.addressRange region fc) s).

(** Every present entry of a table has a reference in its slot. *)
Definition referenced (T : gmap Z Z) (l : list node) : Prop :=
  ∀ p pm i v, pms p = Some pm → 0 ≤ i < num_caps (_level pm) →
  T !! (_table pm + 8 * i) = Some v → PTE.present v = true → used_slot l (_caps pm + 16 * i).

(** The invariant of the state. *)
Definition mapInv (s : S) : Prop :=
  (∀ p pm, pms p = Some pm → pagemap s p = Some pm ∧ linked (ptes s) p pm) ∧
  asFrame s (getPtr fc) = Some region ∧
  ∃ l, slots (entries s) l frameEntry fc isSlot ∧ referenced (ptes s) l.

Context (Hframe : frame_addressable) (Hobj : objects_ok).

Lemma frame_range_eq :
  0 ≤ MemoryRegion.i_start frame_info ∧ 0 ≤ MemoryRegion.i_size frame_info ∧
  MemoryRegion.addressRange region fc =
    Intervals.mkRange (MemoryRegion.i_start frame_info)
      (MemoryRegion.i_start frame_info + MemoryRegion.i_size frame_info).
Proof using Hframe.
  destruct Hframe as (Hok & Hphys & _). unfold frame_info, MemoryRegion.getFrameInfo in *.
  cbn [MemoryRegion.i_start MemoryRegion.i_size] in *.
  assert (0 ≤ FrameData.getStart (f_data fc) (MemoryRegion.base region)) as Hs
    by (apply wrap_fits; lia).
  assert (0 ≤ (if isOriginal fc then MemoryRegion.size region else FrameData.getSize (f_data fc))) as Hz.
  { destruct (isOriginal fc); [apply Hok|apply wrap_fits; lia]. }
  split_and!; [done|done|]. unfold MemoryRegion.addressRange, Intervals.bySize. f_equal.
  apply wrap_small. split; lia.
Qed.

(** The capability of a mapped page. *)
Definition mapped_cap (pm : PageMap) : Z := withPtr (asReference fc) (mappedFrameHelper pm).

Lemma mapped_cap_fields pm : isUsable fc = true → capPointer (mappedFrameHelper pm) = true →
  isReference (mapped_cap pm) = true ∧ isUsable (mapped_cap pm) = true ∧
  isDerived (mapped_cap pm) = isDerived fc ∧ getPtr (mapped_cap pm) = mappedFrameHelper pm.
Proof using Hframe.
  intros Hu Hp. destruct Hframe as ([Hfit _] & _). pose proof (packPtr_fits (mappedFrameHelper pm)).
  assert (f_ptr (mapped_cap pm) = packPtr (mappedFrameHelper pm)) as Hf.
  { unfold mapped_cap. cap_unfold. rewrite land_29 by done. by field_simpl. }
  destruct (getPtr_packed _ _ Hp Hf) as [Hg Hn].
  split_and!; [unfold mapped_cap; by cap_simpl| |unfold mapped_cap; by cap_simpl|done].
  unfold isUsable in *. rewrite (proj2 (Z.eqb_neq _ 0)) by done. apply andb_prop in Hu as [_ Hu].
  unfold mapped_cap. cap_unfold. by field_simpl.
Qed.

(** The range of a mapped page is what its table entry says. *)
Lemma mapped_range s p pm i e :
  pms p = Some pm → pagemap s p = Some pm → 0 ≤ i < num_caps (_level pm) →
  isUsable fc = true → ptes s !! (_table pm + 8 * i) = Some e →
  hasRange s (_caps pm + 16 * i) (mapped_cap pm)
    (Intervals.bySize (PTE.getAddr e) (pageSize (_level pm))).
Proof using Hframe Hobj.
  intros Hpm Hpg Hi Hu He. destruct Hobj as (_ & Hhelp & _). destruct (Hhelp p pm Hpm) as [Hcp Hrange].
  destruct (mapped_cap_fields pm Hu Hcp) as (_ & _ & _ & Hptr). split.
  - rewrite Hptr. by apply capPointer_ne0.
  - intros m. rewrite Hptr, Hrange. unfold MappedFrame_addressRange, getPageMap, kbind.
    rewrite pagemap_set_entries, Hpg. unfold _pm_table, entry_index, kbind, kassert, kret.
    replace ((_caps pm + 16 * i - _caps pm) / 16) with i
      by (replace (_ - _) with (i * 16) by lia; by rewrite Z.div_mul).
    assert (i < TABLE_SIZE) as Hlt by by apply slot_index in Hi.
    rewrite (proj2 (Z.ltb_lt _ _)) by done. unfold rd_pte. by rewrite ptes_set_entries, He.
Qed.

(** A change of one entry whose slot is used afterwards, or that is not present. *)
Lemma referenced_update T l l' p pm i e :
  layout_ok → referenced T l → pms p = Some pm → 0 ≤ i < num_caps (_level pm) →
  used_slot l' (_caps pm + 16 * i) ∨ PTE.present e = false →
  (∀ x, x ≠ _caps pm + 16 * i → used_slot l x → used_slot l' x) →
  referenced (<[_table pm + 8 * i := e]> T) l'.
Proof.
  intros Hlay Hrf Hpm Hi Hd Huse q qm j v Hq Hj Hv Hp.
  destruct (decide (_table pm + 8 * i = _table qm + 8 * j)) as [Heq|Hne].
  - destruct (Hlay p pm q qm i j) as [<- <-]; try done; [by left|].
    rewrite Heq, lookup_insert_eq in Hv. simplify_eq. destruct Hd; [done|congruence].
  - rewrite lookup_insert_ne in Hv by done. apply Huse; [|by eapply Hrf].
    intros Hc. destruct (Hlay p pm q qm i j) as [<- <-]; try done; [by right|]. by simplify_eq.
Qed.

(** Replacing the reference in a slot together with the entry of the table. *)
Lemma store_page s p pm i old e :
  mapInv s → pms p = Some pm → 0 ≤ i < num_caps (_level pm) →
  ptes s !! (_table pm + 8 * i) = Some old → fits 64 e → PTE.pmPtr e = PTE.pmPtr old →
  Intervals.contains (MemoryRegion.addressRange region fc)
    (Intervals.bySize (PTE.getAddr e) (pageSize (_level pm))) = true →
  ∃ s', (resetReference (_caps pm + 16 * i) (pte_reset (_table pm + 8 * i));;;
         setReference (_caps pm + 16 * i) (mapped_cap pm) frameEntry fc
           (pte_set (_table pm + 8 * i) e)) s = Done (OK tt) s' ∧
    mapInv s' ∧ ptes s' = <[_table pm + 8 * i := e]> (ptes s).
Proof using Hframe Hobj.
  intros (Hpms & Hfr & l & Hsl & Hrf) Hpm Hi Hold He Hpe Hin.
  set (a := _table pm + 8 * i) in *. set (d := _caps pm + 16 * i).
  assert (isSlot d) as Hd by by exists p, pm, i.
  pose proof (sl_usable _ _ _ _ _ Hsl) as Hu. pose proof Hobj as (Hlay & Hhelp & Hfrange).
  destruct (mapped_cap_fields pm Hu ltac:(by eapply Hhelp)) as (Href & Hus & Hder & _).
  set (s2 := set_ptes (<[a := e]> (ptes s)) s).
  destruct (slot_clear (entries s) s (set_ptes (<[a := PTE.reset_value old]> (ptes s)) s) l
    frameEntry fc isSlot d (pte_reset a) Hsl Hd) as (b & m1 & l1 & Hrun1 & Hsl1 & Hfree & _ & Huse1).
  { intros m1. by apply pte_reset_run. }
  rewrite set_entries_id in Hrun1. set (s1 := if b then _ else _) in *.
  assert (∀ m, pte_set a e (set_entries m s1) = Done tt (set_entries m s2)) as Hcf.
  { intros m. unfold s1, s2. destruct b; [|by eapply pte_set_run].
    erewrite pte_set_run by (rewrite ptes_set; apply lookup_insert_eq).
    by rewrite ptes_set, insert_insert_eq, set_ptes_set. }
  destruct (slot_set m1 s1 s2 l1 frameEntry fc isSlot d (mapped_cap pm)
    (MemoryRegion.addressRange region fc) (Intervals.bySize (PTE.getAddr e) (pageSize (_level pm)))
    (pte_set a e)) as (m2 & l2 & Hrun2 & Hsl2 & Hud & Huse2); try done.
  - split; [by apply isUsable_getPtr|intros; apply Hfrange].
  - eapply mapped_range; try done.
    + unfold s2. rewrite pagemap_set_ptes. by apply Hpms.
    + unfold s2. rewrite ptes_set. apply lookup_insert_eq.
  - by apply linkable_part.
  - exists (set_entries m2 s2). rewrite (kbind_run _ _ _ _ _ Hrun1). split; [done|].
    rewrite ptes_set_entries. unfold s2. rewrite ptes_set. split; [|done].
    split_and!; [|by rewrite asFrame_set_entries, asFrame_set_ptes|].
    + intros q qm Hq. rewrite pagemap_set_entries, pagemap_set_ptes, ptes_set_entries, ptes_set.
      destruct (Hpms q qm Hq) as [Hg Hl]. split; [done|]. by eapply linked_update.
    + exists l2. rewrite entries_set, ptes_set_entries, ptes_set. split; [done|].
      eapply referenced_update; try done; [by left|]. intros x Hx Hxu. by apply Huse2, Huse1.
Qed.

Lemma table2PageMap_run s p pm :
  linked (ptes s) p pm → table2PageMap (_table pm) s = Done p s.
Proof.
  intros [_ (v0 & v1 & v2 & Hv0 & Hv1 & Hv2 & Hd)]. unfold table2PageMap, rd_pte, kbind, kret.
  by rewrite Hv0, Hv1, Hv2, Hd.
Qed.

Lemma typedFrame_run s : mapInv s → typedFrame frameEntry s = Done (OK (fc, frame_info)) s.
Proof using Hframe.
  intros (_ & Hfr & l & Hsl & _). destruct Hframe as (_ & _ & Hne). unfold typedFrame.
  rewrite (proj2 (Z.eqb_neq _ 0)) by done.
  pose proof Hsl as [HR _ (n & Hn & Hna & Hnc) Hu _].
  apply list_elem_of_split in Hn as (l1 & l2 & ->).
  destruct (Ring_access _ _ _ _ HR) as (q1 & q2 & _ & _ & _ & _ & _ & Hm & _).
  unfold CapEntry.cap, kbind, rd. rewrite <-Hna, Hm. cbn. rewrite Hnc, Hu. cbn.
  by rewrite Hfr.
Qed.

(** The tests of [mapFrame], and what follows when they pass. *)
Lemma mapFrameAt_run s p pm l i o :
  mapInv s → pms p = Some pm → _level pm = Z.of_nat l → (1 ≤ l ≤ 4)%nat →
  0 ≤ i < nslots l → 0 ≤ o < 2 ^ 62 →
  (∃ e, mapFrameAt p i frameEntry flags o s = Done (THROW e) s) ∨
  (o + psize l ≤ MemoryRegion.i_size frame_info ∧
   ∃ old e, ptes s !! (_table pm + 8 * i) = Some old ∧ page_entry frame_info flags l o e ∧
     PTE.pmPtr e = PTE.pmPtr old ∧
     mapFrameAt p i frameEntry flags o s =
       (resetReference (_caps pm + 16 * i) (pte_reset (_table pm + 8 * i));;;
        setReference (_caps pm + 16 * i) (mapped_cap pm) frameEntry fc
          (pte_set (_table pm + 8 * i) e)) s).
Proof using Hframe.
  intros HI Hpm Hlv Hl Hi Ho. pose proof HI as (Hpms & _). destruct (Hpms p pm Hpm) as [Hpg Hlk].
  pose proof (nslots_bound l). assert (i < TABLE_SIZE) as Hit by (unfold TABLE_SIZE; lia).
  assert (i < num_caps (_level pm)) as Hin by (rewrite Hlv; apply Hi).
  pose proof frame_range_eq as (Hs0 & Hz0 & _). destruct Hframe as (_ & Hphys & _).
  pose proof (psize_bound l Hl). pose proof (psize_pos l).
  unfold mapFrameAt. erewrite kbind_run by (unfold getPageMap; by rewrite Hpg).
  rewrite (kbind_run _ _ _ _ _ (typedFrame_run s HI)).
  rewrite (kbind_run _ _ _ _ _ (kassert_run _ s (proj2 (Z.ltb_lt _ _) Hin))).
  rewrite Hlv, pageSize_psize, !wrap_small by (done || split; lia).
  destruct (Z.eqb_spec ((MemoryRegion.i_start frame_info + o) mod psize l) 0) as [Hal|];
    cbn [negb]; [|left; by eexists].
  destruct (Z.ltb_spec (MemoryRegion.i_size frame_info) (o + psize l)); [left; by eexists|].
  right. split; [done|]. destruct (proj1 Hlk i ltac:(lia)) as (old & Hold & Hfold).
  destruct (frame_entry_run frame_info flags (MemoryRegion.i_start frame_info + o) old s l)
    as (e & Hent & Hpe & Hpp); [done|lia|apply (psize_4096 l); [lia|done]|].
  exists old, e. split; [done|]. split; [|split; [done|]].
  { by replace o with (MemoryRegion.i_start frame_info + o - MemoryRegion.i_start frame_info) by lia. }
  unfold _pm_table, _cap_table. rewrite <-Hlv in *.
  rewrite kbind_run with (a := _table pm + 8 * i) (s' := s)
    by by rewrite (kbind_run _ _ _ _ _ (kassert_run _ s (proj2 (Z.ltb_lt _ _) Hit))).
  erewrite kbind_run by (unfold rd_pte; by rewrite Hold). rewrite (kbind_run _ _ _ _ _ Hent).
  by rewrite kbind_run with (a := _caps pm + 16 * i) (s' := s)
    by by rewrite (kbind_run _ _ _ _ _ (kassert_run _ s (proj2 (Z.ltb_lt _ _) Hin))).
Qed.

(** [mapFrame] at an index stores the page, or refuses without a change. *)
Lemma mapFrame_applies :
  applies (mapFrame_apply frameEntry flags) isTable mapInv (page_entry frame_info flags).
Proof using Hframe Hobj.
  intros s l table i op HI (p & pm & Hpm & Hlv & <-) Hl Hi Hop.
  pose proof HI as (Hpms & _). destruct (Hpms p pm Hpm) as [Hpg Hlk].
  pose proof frame_range_eq as (Hs0 & Hz0 & Hrg). pose proof (psize_bound l Hl).
  pose proof (op_offset_eq op Hop) as Ho. set (o := frame_offset op + page_offset op) in *.
  assert (0 ≤ o < 2 ^ 62) as Hob by (unfold o, op_ok, fin in *; lia).
  unfold mapFrame_apply. rewrite (kbind_run _ _ _ _ _ (table2PageMap_run s p pm Hlk)), Ho.
  destruct (mapFrameAt_run s p pm l i o HI Hpm Hlv Hl Hi Hob)
    as [[e ->]|(Hfit & old & e & Hold & Hpe & Hpp & ->)]; [by eexists _, s|].
  pose proof Hpe as (Hfe & _ & _ & _ & _ & _ & Hga).
  destruct (store_page s p pm i old e) as (s' & Hrun & HI' & Hpt); try done.
  { by rewrite Hlv. }
  { rewrite Hrg, Hga, Hlv, pageSize_psize by done. apply Intervals.contains_spec.
    destruct Hframe as (_ & Hphys & _). unfold Intervals.bySize.
    cbn [Intervals.getStart Intervals.getEnd]. pose proof (psize_pos l).
    rewrite wrap_small by (split; lia). lia. }
  exists (OK tt), s'. split; [done|]. split; [done|]. by exists e.
Qed.

(** C34: unmapping an entry of a page map always succeeds and leaves the entry not
    present and its slot empty: with the page the reference to the frame is
    gone, the link from the table to its page map and all other entries are
    kept, and every present entry still has its reference. *)
Theorem unmapEntry_correct s p pm i :
  mapInv s → pms p = Some pm → 0 ≤ i < num_caps (_level pm) →
  ∃ s' old new, unmapEntry p i s = Done (OK tt) s' ∧ mapInv s' ∧
    ptes s !! (_table pm + 8 * i) = Some old ∧
    ptes s' = <[_table pm + 8 * i := new]> (ptes s) ∧
    PTE.present new = false ∧ PTE.pmPtr new = PTE.pmPtr old ∧
    ∃ t, entries s' !! (_caps pm + 16 * i) = Some t ∧ _cap t = asEmpty.
Proof using Hobj.
  intros (Hpms & Hfr & l & Hsl & Hrf) Hpm Hi. destruct (Hpms p pm Hpm) as [Hpg Hlk].
  assert (i < TABLE_SIZE) as Hit by by apply slot_index in Hi.
  destruct (proj1 Hlk i) as (old & Hold & Hfold); [lia|].
  set (a := _table pm + 8 * i) in *. set (d := _caps pm + 16 * i).
  destruct (slot_clear (entries s) s (set_ptes (<[a := PTE.reset_value old]> (ptes s)) s) l
    frameEntry fc isSlot d (pte_reset a) Hsl) as (b & m1 & l1 & Hrun & Hsl1 & Hfree & Hb & Huse).
  { by exists p, pm, i. }
  { intros m1. by apply pte_reset_run. }
  rewrite set_entries_id in Hrun. set (new := if b then PTE.reset_value old else old).
  assert (ptes (if b then set_ptes (<[a := PTE.reset_value old]> (ptes s)) s else s) =
    <[a := new]> (ptes s)) as Hpt.
  { unfold new. destruct b; [by rewrite ptes_set|by rewrite insert_id]. }
  destruct (reset_value_fields old Hfold) as (Hrp & Hrm & Hrf').
  assert (PTE.present new = false) as Hnp.
  { unfold new. destruct b; [done|]. apply not_true_iff_false. intros Hp. rewrite (Hb eq_refl) in Hfree.
    destruct (Hrf p pm i old Hpm Hi Hold Hp) as (n & Hn & Hna & _). destruct Hfree as [Hni _].
    apply Hni. fold d in Hna. rewrite <-Hna. by apply elem_of_addrs. }
  assert (fits 64 new ∧ PTE.pmPtr new = PTE.pmPtr old) as [Hfn Hpn] by (unfold new; by destruct b).
  eexists _, old, new. split; [|split; [|rewrite ptes_set_entries, entries_set; split_and!; try done; apply Hfree]].
  - unfold unmapEntry. erewrite kbind_run by (unfold getPageMap; by rewrite Hpg).
    rewrite (kbind_run _ _ _ _ _ (kassert_run _ s (proj2 (Z.ltb_lt _ _) (proj2 Hi)))).
    unfold _pm_table, _cap_table.
    rewrite kbind_run with (a := a) (s' := s)
      by by rewrite (kbind_run _ _ _ _ _ (kassert_run _ s (proj2 (Z.ltb_lt _ _) Hit))).
    rewrite kbind_run with (a := d) (s' := s)
      by by rewrite (kbind_run _ _ _ _ _ (kassert_run _ s (proj2 (Z.ltb_lt _ _) (proj2 Hi)))).
    by rewrite (kbind_run _ _ _ _ _ Hrun).
  - unfold mapInv. rewrite asFrame_set_entries, entries_set, ptes_set_entries, Hpt.
    split_and!; [|by destruct b; rewrite ?asFrame_set_ptes|].
    + intros q qm Hq. rewrite pagemap_set_entries. destruct (Hpms q qm Hq) as [Hg Hl].
      split; [by destruct b; rewrite ?pagemap_set_ptes|]. by eapply linked_update.
    + exists l1. split; [done|]. eapply referenced_update; try done; [apply Hobj|by right].
Qed.

End mapping.

(** ** Mapping an address range *)

Section range.
Context {S : Type} `{HasEntries S} `{!HasPageTables S} `{!HasPageMaps S} `{KernelObjects S}.

(** The first address behind a table of a level. *)
Definition table_end (l : nat) : Z := nslots l * psize l.

Lemma table_end_bound l : (1 ≤ l ≤ 4)%nat → 0 < table_end l ≤ 2 ^ 48.
Proof.
  intros Hl. unfold table_end. pose proof (nslots_bound l). pose proof (psize_bound l Hl).
  pose proof (psize_pos l). nia.
Qed.

Lemma visitPages_top applyPage isTbl (Inv : S → Prop) leaf l table op s :
  applies applyPage isTbl Inv leaf → leaves leaf → (1 ≤ l ≤ 4)%nat →
  Inv s → tree isTbl (ptes s) l table → op_ok op → table_vaddr op = 0 → cur op ≤ fin op →
  ∃ res op' s', visitPages applyPage l table op s = Done (res, op') s' ∧ Inv s' ∧
    updated isTbl (ptes s) (ptes s') l table ∧ op_ok op' ∧ same_op op op' ∧
    cur op ≤ cur op' ≤ fin op ∧
    (∀ va, 0 ≤ va < table_end l →
      (cur op ≤ va < cur op' → mapped leaf (ptes s') l table op va va) ∧
      (¬ (cur op ≤ va < cur op') → translate (ptes s') l table va = translate (ptes s) l table va)) ∧
    (res = OK tt → cur op' = Z.min (fin op) (table_end l)).
Proof.
  intros Hap Hlf Hl HI Ht Hop Htv Hcf. pose proof (table_end_bound l Hl).
  assert (0 ≤ cur op) by (unfold op_ok, cur in *; lia).
  destruct (decide (cur op < table_end l)) as [Hin|Hout].
  - destruct (walks_all applyPage isTbl Inv leaf Hap Hlf l Hl table 0 op s)
      as (res & op' & s' & Hrun & HI' & Hup & Hsame & Hc & Hm & Hr); try done;
      [unfold table_end in *; lia..|].
    exists res, op', s'. fold (table_end l) in *. split; [done|]. split; [done|]. split; [done|].
    split; [by eapply op_ok_same; [done|done|lia]|]. split; [done|]. split; [lia|]. split.
    + intros va Hva. apply (Hm va Hva).
    + intros Hok. specialize (Hr Hok). lia.
  - eexists (THROW REQUEST_DENIED), op, s. split; [|split; [done|split; [by apply updated_refl|]]].
    + destruct l as [|l]; [lia|]. cbn [visitPages]. rewrite op_vaddr_eq, Htv, Z.sub_0_r by done.
      rewrite wrap_small by (unfold op_ok, cur, fin in *; split; lia).
      rewrite pageSize_psize by lia. fold (nslots (Datatypes.S l)).
      rewrite (proj2 (Z.leb_le _ _)); [done|]. unfold table_end in Hout.
      pose proof (psize_pos (Datatypes.S l)). apply Z.div_le_lower_bound; lia.
    + split; [done|]. split; [done|]. split; [lia|]. split; [|done]. intros va Hva. split; [lia|done].
Qed.

(** C1: mapping a frame changes the address space exactly as requested.  From a
    state in which the page maps, their capability tables and the resource list
    are consistent, [mapFrame] always returns; it reports how far it came, all
    of the range or up to the end of the table if it succeeds.  Up to there
    every address of the range is translated to the corresponding address of
    the frame, writable only if requested and granted by the frame; every other
    address is translated as before, also when the operation fails half-way.
    The state stays consistent. *)
Theorem mapFrame_correct pms frameEntry fc region flags this pm l s vaddr size offset :
  frame_addressable frameEntry fc region → objects_ok pms fc region →
  mapInv pms frameEntry fc region s → pms this = Some pm → _level pm = Z.of_nat l →
  (1 ≤ l ≤ 4)%nat → tree (isTable pms) (ptes s) l (_table pm) →
  0 ≤ vaddr → 0 ≤ size → 0 ≤ offset → vaddr + size < 2 ^ 62 → offset + size < 2 ^ 62 →
  ∃ res r s', mapFrame this vaddr size frameEntry flags offset s = Done (res, r) s' ∧
    mapInv pms frameEntry fc region s' ∧ tree (isTable pms) (ptes s') l (_table pm) ∧
    vaddr ≤ r_vaddr r ≤ vaddr + size ∧
    (res = OK tt → r_vaddr r = Z.min (vaddr + size) (table_end l)) ∧
    ∀ va, 0 ≤ va < table_end l →
      (vaddr ≤ va < r_vaddr r →
         ∃ e d, translate (ptes s') l (_table pm) va = Some (e, d) ∧
           PTE.getAddr e + d =
             MemoryRegion.i_start (frame_info fc region) + offset + (va - vaddr) ∧
           PTE.writeable e =
             MapFlags.fl_writable flags && MemoryRegion.i_writable (frame_info fc region)) ∧
      (¬ (vaddr ≤ va < r_vaddr r) →
         translate (ptes s') l (_table pm) va = translate (ptes s) l (_table pm) va).
Proof.
  intros Hfr Hob HI Hpm Hlv Hl Ht Hv Hs Ho Hvs Hos.
  set (op := newPageOp vaddr size offset false).
  assert (op_ok op) as Hop by (unfold op_ok, op, fin; cbn; split_and!; done || lia).
  destruct (visitPages_top (mapFrame_apply frameEntry flags) (isTable pms)
    (mapInv pms frameEntry fc region) (page_entry (frame_info fc region) flags) l (_table pm) op s)
    as (res & op' & s' & Hrun & HI' & (_ & Ht' & _) & Hop' & Hsame & Hc & Hm & Hr); try done;
    [by apply mapFrame_applies|apply page_entry_leaves|unfold cur, fin, op; cbn; lia|].
  exists res, (mkResult (op_vaddr op') (current_level op')), s'. split.
  { unfold mapFrame. pose proof HI as (Hpms & _). destruct (Hpms this pm Hpm) as [Hpg _].
    erewrite kbind_run by (unfold getPageMap; by rewrite Hpg).
    rewrite (kbind_run _ _ _ _ _ (typedFrame_run pms frameEntry fc region Hfr s HI)).
    rewrite kbind_run with (a := _table pm) (s' := s) by (unfold _pm_table; by rewrite Z.add_0_r).
    unfold levelOf. rewrite Hlv, Nat2Z.id. by rewrite (kbind_run _ _ _ _ _ Hrun). }
  cbn [r_vaddr]. rewrite op_vaddr_eq by done.
  assert (cur op = vaddr) as Ec by (unfold cur, op; cbn; lia).
  assert (fin op = vaddr + size) as Ef by (unfold fin, op; cbn; lia).
  rewrite Ec, Ef in *. split; [done|]. split; [done|]. split; [done|]. split; [done|].
  intros va Hva. destruct (Hm va Hva) as [Hin Hout]. split; [|done].
  intros Hr'. destruct (Hin Hr') as (l' & e & d & Htr & _ & _ & _ & _ & Hw & _ & Hga).
  exists e, d. split; [done|]. split; [|done]. rewrite Hga. unfold op. cbn. lia.
Qed.

(** *** Pages of the smallest size *)

(** Entries without the page flag are skipped by [skip_nonmapped] walks. *)
Lemma visit_loop_skips applyPage descend table ts (s : S) n : ∀ k op,
  skip_nonmapped op = true →
  (∀ i, k ≤ i < k + Z.of_nat n → ∃ v, ptes s !! (table + 8 * i) = Some v ∧ PTE.page v = false) →
  ∃ op', visit_loop applyPage descend 1 table ts k n op s = Done (OK tt, op') s.
Proof.
  induction n as [|n IH]; intros k op Hsk Hv; [by eexists|]. cbn [visit_loop].
  destruct (Hv k) as (v & Hk & Hpg); [lia|].
  rewrite kbind_run with (s' := s)
    (a := (OK tt, moveForward (u64 (pageSize 1 - op_vaddr (at_level 1 op) mod pageSize 1)) (at_level 1 op))).
  - apply IH; [done|]. intros i Hi. apply Hv. lia.
  - unfold visit_entry, pte_load, rd_pte, kbind. rewrite Hk, Hpg, andb_false_r. cbn [negb andb Z.ltb].
    change (skip_nonmapped (at_level 1 op)) with (skip_nonmapped op). by rewrite Hsk.
Qed.

(** Unmapping and protecting ignore pages of 4 KiB.  [mapFrame] stores an entry
    of a level-1 table without the page flag ([page_entry] with level 1), and the
    walks of [invokeMunmap] and [invokeMprotect] take an entry without that flag
    for unmapped: on a level-1 page map that holds such entries only, both report
    SUCCESS for every range that starts inside the table and change nothing. *)
Theorem small_pages_ignored this pm self data (s : S) :
  pagemap s this = Some pm → _level pm = 1 → PageMapData.pd_writable (f_data self) = true →
  (∀ i, 0 ≤ i < TABLE_SIZE → ∃ v, ptes s !! (_table pm + 8 * i) = Some v ∧ PTE.page v = false) →
  0 ≤ m_vaddr data < table_end 1 →
  (∃ r, invokeMunmap this self data s = Done (SUCCESS, Some r) s) ∧
  (∃ r, invokeMprotect this self data s = Done (SUCCESS, Some r) s).
Proof.
  intros Hpg Hlv Hw Hv Hva. change (table_end 1) with (512 * 4096) in Hva.
  assert (∀ applyPage, ∃ op', visitPages applyPage 1 (_table pm)
    (newPageOp (m_vaddr data) (m_size data) 0 true) s = Done (OK tt, op') s) as Hwalk.
  { intros applyPage. set (op := newPageOp _ _ _ _).
    assert (op_vaddr op = m_vaddr data) as Hop
      by (unfold op_vaddr, op; cbn; rewrite Z.add_0_r; apply wrap_small; split; lia).
    cbn [visitPages]. change (table_vaddr op) with 0.
    rewrite Hop, Z.sub_0_r, (wrap_small 64 (m_vaddr data)) by (split; lia).
    change (Z.of_nat 1) with 1. change (num_caps 1) with 512. change (pageSize 1) with 4096.
    assert (0 ≤ m_vaddr data / 4096 < 512) as Hi.
    { split; [apply Z.div_pos; lia|apply Z.div_lt_upper_bound; lia]. }
    rewrite (proj2 (Z.leb_gt _ _)) by lia. apply visit_loop_skips; [done|].
    intros i Hir. apply Hv. change TABLE_SIZE with 512.
    match type of Hir with context [Z.to_nat (if ?b then _ else ?n)] =>
      destruct b eqn:Hb; [apply Z.ltb_lt in Hb|apply Z.ltb_ge in Hb];
      assert (0 ≤ n) by (apply (wrap_fits 64); lia) end; lia. }
  unfold invokeMunmap, invokeMprotect. rewrite Hw. cbn [negb].
  assert (getPageMap this s = Done pm s) as Hg by (unfold getPageMap; by rewrite Hpg).
  assert (_pm_table pm 0 s = Done (_table pm) s) as Hp0 by (unfold _pm_table; by rewrite Z.add_0_r).
  rewrite !(kbind_run _ _ _ _ _ Hg), !(kbind_run _ _ _ _ _ Hp0). unfold levelOf. rewrite Hlv.
  split; (edestruct Hwalk as [op' Hrun]; rewrite (kbind_run _ _ _ _ _ Hrun); by eexists).
Qed.

End range.
