(* ===== verification/PageMapInit.v ===== *)
(** * New page maps

    The constructor of [PageMap] establishes what the walks rely on: the link
    from the table back to the object, an empty table and empty capability
    entries.  A concrete address space built with it is the example for the
    theorems about page maps. *)

From stdpp Require Import base tactics numbers list gmap.
From Stdlib Require Import ZArith Lia.
From S2P Require Import Prelude Ranges Bitfield Cap CapEntry CapRing CapSteps CapOps Heap KernelMemory Frame PageTable PageMap PageWalk CapSlots PageMapping.

Local Open Scope Z_scope.
Import PhysPtr Align FrameSize.

(** ** The link to the object *)

Lemma pmPtr_parts_fit this p0 p1 p2 :
  pmPtr_parts this = (p0, p1, p2) → fits 10 p0 ∧ fits 10 p1 ∧ fits 10 p2.
Proof.
  unfold pmPtr_parts. intros [= <- <- <-]. change 0x3FF with (Z.ones 10).
  rewrite !Z.land_ones by lia. split_and!; apply Z.mod_pos_bound; lia.
Qed.

(** Three 10-bit fields hold a 32-bit offset that is a multiple of 8. *)
Lemma decode_parts this p0 p1 p2 v0 v1 v2 :
  capPointer this = true → pmPtr_parts this = (p0, p1, p2) →
  PTE.pmPtr v0 = p0 → PTE.pmPtr v1 = p1 → PTE.pmPtr v2 = p2 → decode_pmPtr v0 v1 v2 = this.
Proof.
  intros Hp Hparts E0 E1 E2. unfold decode_pmPtr. rewrite E0, E1, E2.
  apply andb_prop in Hp as [[Hk Hal]%andb_prop _]. apply Z.eqb_eq in Hal.
  rewrite <-(offset2kernel_kernel2offset this) by done. f_equal.
  unfold pmPtr_parts in Hparts. injection Hparts as <- <- <-.
  pose proof (kernel2offset_fits this) as Hf. set (o := kernel2offset this) in *.
  change 0x3FF with (Z.ones 10).
  apply Z.bits_inj'. intros i Hi.
  assert (i < 3 → Z.testbit o i = false) as Hlow.
  { intros Hi3. assert (Z.testbit (Z.land o 7) i = false) as Hb by (rewrite Hal; apply Z.bits_0).
    rewrite Z.land_spec in Hb. change 7 with (Z.ones 3) in Hb.
    by rewrite Z.ones_spec_low, andb_true_r in Hb by lia. }
  rewrite wrap_testbit, !Z.lor_spec, !wrap_testbit, !Z.shiftl_spec, !Z.land_spec by lia.
  assert (∀ k, Z.testbit (Z.land (Z.shiftr o k) (Z.ones 10)) (i - k) =
    (k <=? i) && (i <? k + 10) && Z.testbit o i) as Hfield.
  { intros k. destruct (Z.leb_spec k i); cbn [andb]; [|by rewrite Z.testbit_neg_r by lia].
    rewrite Z.land_spec, Z.shiftr_spec by lia. replace (i - k + k) with i by lia.
    destruct (Z.ltb_spec i (k + 10)); cbn [andb].
    - by rewrite Z.ones_spec_low, andb_true_r by lia.
    - by rewrite Z.ones_spec_high, andb_false_r by lia. }
  rewrite <-!Z.land_spec, !Hfield. destruct (Z.ltb_spec i 32).
  - destruct (Z.testbit o i) eqn:Hb; rewrite ?andb_false_r, ?andb_true_r; [|done].
    destruct (Z.ltb_spec i 3); [by specialize (Hlow ltac:(lia))|]. zcases; done.
  - rewrite (fits_testbit 32 o) by (done || lia). done.
Qed.

(** ** Words and entries in memory *)

Lemma store_words_lookup ws : ∀ a T i w,
  ws !! i = Some w → store_words a ws T !! (a + 8 * Z.of_nat i) = Some w.
Proof.
  induction ws as [|x ws IH]; intros a T i w Hw; [done|]. cbn [store_words].
  destruct i as [|i].
  - simpl in Hw. simplify_eq. replace (a + 8 * Z.of_nat 0) with a by lia. apply lookup_insert_eq.
  - rewrite lookup_insert_ne by lia.
    replace (a + 8 * Z.of_nat (S i)) with (a + 8 + 8 * Z.of_nat i) by lia. by apply IH.
Qed.

Lemma clear_entries_lookup n : ∀ a m i,
  0 ≤ i < Z.of_nat n → clear_entries n a m !! (a + 16 * i) = Some (mkEntry 0 0 0).
Proof.
  induction n as [|n IH]; intros a m i Hi; [lia|]. cbn [clear_entries].
  destruct (decide (i = 0)) as [->|Hne].
  - replace (a + 16 * 0) with a by lia. apply lookup_insert_eq.
  - rewrite lookup_insert_ne by lia. replace (a + 16 * i) with (a + 16 + 16 * (i - 1)) by lia.
    apply IH. lia.
Qed.

Lemma clear_entries_other n : ∀ a m b,
  (∀ i, 0 ≤ i < Z.of_nat n → b ≠ a + 16 * i) → clear_entries n a m !! b = m !! b.
Proof.
  induction n as [|n IH]; intros a m b Hb; [done|]. cbn [clear_entries].
  rewrite lookup_insert_ne by (specialize (Hb 0); lia). apply IH.
  intros i Hi. specialize (Hb (i + 1)). lia.
Qed.

Lemma new_table_lookup pml4 level this i :
  (i < 512)%nat → ∃ w, new_table pml4 level this !! i = Some w ∧
    ((∀ j, fits 64 (pml4 j)) → fits 64 w) ∧
    ((level = 4 → (i < 256)%nat) → PTE.present w = false) ∧
    (level = 4 → (256 ≤ i)%nat → w = pml4 (Z.of_nat i)) ∧
    (∀ p0 p1 p2, pmPtr_parts this = (p0, p1, p2) →
       (i = 0%nat → PTE.pmPtr w = p0) ∧ (i = 1%nat → PTE.pmPtr w = p1) ∧
       (i = 2%nat → PTE.pmPtr w = p2)).
Proof.
  intros Hi. unfold new_table. destruct (pmPtr_parts this) as [[p0 p1] p2] eqn:Hp.
  destruct (pmPtr_parts_fit _ _ _ _ Hp) as (F0 & F1 & F2).
  eexists. rewrite list_lookup_fmap, lookup_seq_lt by done. split; [done|].
  cbn [Nat.add]. set (v := if _ && _ then _ else _).
  assert ((level = 4 → (i < 256)%nat) → v = 0) as Hv.
  { intros Hlt. unfold v. destruct (Z.eqb_spec level 4); [|done].
    rewrite (proj2 (Z.leb_gt _ _)); [done|]. change (TABLE_SIZE / 2) with 256. lia. }
  assert ((∀ j, fits 64 (pml4 j)) → fits 64 v) as Hf.
  { intros Hfit. unfold v. destruct (_ && _); [apply Hfit|split; lia]. }
  assert (∀ x, fits 10 x → PTE.present (uset 64 52 10 0 x) = false ∧ PTE.pmPtr (uset 64 52 10 0 x) = x)
    as Hw.
  { intros x Hx. unfold PTE.present, PTE.pmPtr. field_simpl. done. }
  destruct i as [|[|[|i]]]; [rewrite Hv by lia..|].
  all: split; [intros; try (apply uset_fits; field_side); by apply Hf|].
  all: split; [intros Hlt; try (by apply Hw); by rewrite Hv|].
  all: split; [intros -> Hge; try lia; unfold v; by rewrite (proj2 (Z.leb_le _ _)) by
    (change (TABLE_SIZE / 2) with 256; lia)|].
  all: intros ? ? ? [= <- <- <-]; split_and!; intros; try lia; by apply Hw.
Qed.

Section creation.
Context {S : Type} `{HasEntries S} `{!HasPageTables S} `{!HasPageMaps S} `{KernelObjects S}.

Lemma entries_set_ptes t s : entries (set_ptes t s) = entries s.
Proof.
  transitivity (entries (set_ptes t (set_entries (entries s) s))); [by rewrite set_entries_id|].
  by rewrite set_ptes_entries, entries_set.
Qed.

(** The state after the constructor. *)
Definition init_state (pml4 : Z → Z) (this level tableMem capMem : Z) (s : S) : S :=
  set_entries (clear_entries (Z.to_nat (num_caps level)) capMem (entries s))
    (set_ptes (store_words tableMem (new_table pml4 level this) (ptes s)) s).

Lemma PageMap_init_run pml4 this level tableMem capMem s :
  isKernelAddress this = true → is_aligned tableMem PAGE_MIN_SIZE = true →
  PageMap_init pml4 this level tableMem capMem s =
    Done tt (init_state pml4 this level tableMem capMem s).
Proof.
  intros Hk Hal. unfold PageMap_init, kbind, kassert, kmodify, init_state. rewrite Hal, Hk.
  by rewrite entries_set_ptes.
Qed.

Section init.
Context (pml4 : Z → Z) (this level tableMem capMem : Z) (s : S).
Context (Hp : capPointer this = true) (Hf : ∀ j, fits 64 (pml4 j)).

Lemma init_ptes :
  ptes (init_state pml4 this level tableMem capMem s) =
  store_words tableMem (new_table pml4 level this) (ptes s).
Proof. unfold init_state. by rewrite ptes_set_entries, ptes_set. Qed.

Lemma init_word i : 0 ≤ i < TABLE_SIZE →
  ∃ w, ptes (init_state pml4 this level tableMem capMem s) !! (tableMem + 8 * i) = Some w ∧
    fits 64 w ∧ ((level = 4 → i < 256) → PTE.present w = false) ∧ (level = 4 → 256 ≤ i → w = pml4 i) ∧
    ∀ p0 p1 p2, pmPtr_parts this = (p0, p1, p2) →
      (i = 0 → PTE.pmPtr w = p0) ∧ (i = 1 → PTE.pmPtr w = p1) ∧ (i = 2 → PTE.pmPtr w = p2).
Proof using Hf.
  change TABLE_SIZE with 512. intros Hi. rewrite init_ptes.
  destruct (new_table_lookup pml4 level this (Z.to_nat i)) as (w & Hw & Hfit & Hpr & Hup & Hq); [lia|].
  exists w. split; [|split; [by apply Hfit|split; [|split]]].
  - replace i with (Z.of_nat (Z.to_nat i)) at 1 by lia. by apply store_words_lookup.
  - intros Hlt. apply Hpr. lia.
  - intros Hlv Hge. rewrite (Hup Hlv) by lia. by rewrite Z2Nat.id by lia.
  - intros p0 p1 p2 Hpp. destruct (Hq _ _ _ Hpp) as (Q0 & Q1 & Q2).
    split_and!; intros ->; [apply Q0|apply Q1|apply Q2]; done.
Qed.

Lemma init_linked pm :
  _table pm = tableMem → linked (ptes (init_state pml4 this level tableMem capMem s)) this pm.
Proof using Hp Hf.
  intros Htb. unfold linked. rewrite Htb. split.
  - intros i Hi. destruct (init_word i Hi) as (w & Hw & Hfit & _). by exists w.
  - destruct (pmPtr_parts this) as [[p0 p1] p2] eqn:Hpp.
    destruct (init_word 0) as (w0 & E0 & _ & _ & _ & Q0), (init_word 1) as (w1 & E1 & _ & _ & _ & Q1),
      (init_word 2) as (w2 & E2 & _ & _ & _ & Q2); try (by unfold TABLE_SIZE).
    rewrite Z.add_0_r in E0. exists w0, w1, w2. split_and!; [done..|].
    eapply decode_parts; [done|exact Hpp|by apply (Q0 _ _ _ Hpp)|by apply (Q1 _ _ _ Hpp)|by apply (Q2 _ _ _ Hpp)].
Qed.

Lemma init_table2PageMap :
  table2PageMap tableMem (init_state pml4 this level tableMem capMem s) =
    Done this (init_state pml4 this level tableMem capMem s).
Proof using Hp Hf.
  pose proof (init_linked (mkPageMap level tableMem capMem 0 0) eq_refl) as Hl.
  exact (table2PageMap_run _ _ _ Hl).
Qed.

End init.

(** The constructor of a page map links the table to the object and leaves
    nothing mapped: [table2PageMap] returns the object from the 30 bits that are
    spread over the first three entries, all entries of the user half are not
    present, the upper half of a root table is the kernel's, and all capability
    entries are empty. *)
Theorem PageMap_init_correct pml4 this level tableMem capMem (s : S) :
  capPointer this = true → is_aligned tableMem PAGE_MIN_SIZE = true → (∀ j, fits 64 (pml4 j)) →
  ∃ s', PageMap_init pml4 this level tableMem capMem s = Done tt s' ∧
    table2PageMap tableMem s' = Done this s' ∧
    (∀ i, 0 ≤ i < TABLE_SIZE → ∃ w, ptes s' !! (tableMem + 8 * i) = Some w ∧ fits 64 w ∧
       ((level = 4 → i < 256) → PTE.present w = false) ∧ (level = 4 → 256 ≤ i → w = pml4 i)) ∧
    (∀ i, 0 ≤ i < num_caps level → entries s' !! (capMem + 16 * i) = Some (mkEntry 0 0 0)).
Proof.
  intros Hp Hal Hf. exists (init_state pml4 this level tableMem capMem s). split_and!.
  - apply PageMap_init_run; [by apply capPointer_kernel|done].
  - by apply init_table2PageMap.
  - intros i Hi. destruct (init_word pml4 this level tableMem capMem s Hf i Hi)
      as (w & ? & ? & ? & ? & _). by exists w.
  - intros i Hi. unfold init_state. rewrite entries_set. apply clear_entries_lookup. lia.
Qed.

End creation.

(** ** An address space *)

(** A state with one page map of level 1 and one frame. *)
Record space := mkSpace { sp_entries : gmap Z CapEntry; sp_ptes : gmap Z Z }.

#[export] Instance space_entries : HasEntries space.
Proof.
  refine (Build_HasEntries space sp_entries (λ m s, mkSpace m (sp_ptes s)) _ _ _); by intros; destruct s || done.
Defined.

#[export] Instance space_tables : HasPageTables space.
Proof.
  refine (Build_HasPageTables space _ sp_ptes (λ t s, mkSpace (sp_entries s) t) _ _ _ _ _);
    intros; by destruct s || done.
Defined.

Definition sp_map : Z := KERNELMEM_ADDR + 0x20000.
Definition sp_pm : PageMap :=
  mkPageMap 1 (KERNELMEM_ADDR + 0x30000) (KERNELMEM_ADDR + 0x40000)
    (KERNELMEM_ADDR + 0x20040) (KERNELMEM_ADDR + 0x20080).
Definition sp_pms (p : Z) : option PageMap := if p =? sp_map then Some sp_pm else None.

(** A frame of 1 MiB at 16 MiB, writable. *)
Definition sp_region : MemoryRegion.MemoryRegion := MemoryRegion.mkRegion 0x1000000 0x100000.
Definition sp_frame : Z := mkCap (KERNELMEM_ADDR + 0x2000) 1 NOFLAG.
Definition sp_ring : list node := [fresh (wa 0) sp_frame; fresh (wa 1) wcap].

#[export] Instance space_maps : HasPageMaps space.
Proof.
  refine (Build_HasPageMaps space _ _ (λ _, sp_pms) (λ _ _, None)
    (λ _ p, if p =? KERNELMEM_ADDR + 0x2000 then Some sp_region else None) _ _ _ _ _ _); done.
Defined.

#[export] Instance space_objects : KernelObjects space := {|
  addressRange p e c := if p =? mappedFrameHelper sp_pm then MappedFrame_addressRange sp_map e c
                        else kret (MemoryRegion.addressRange sp_region c);
  mint := default_mint; deleteCap := λ _ _ _, kret (OK tt) |}.

(** The state after the constructor has run. *)
Definition sp_state : space :=
  init_state (λ _, 0) sp_map 1 (_table sp_pm) (_caps sp_pm) (mkSpace (store_of sp_ring) ∅).

Lemma sp_pms_inv p pm : sp_pms p = Some pm → p = sp_map ∧ pm = sp_pm.
Proof. unfold sp_pms. destruct (Z.eqb_spec p sp_map); [|done]. by intros [= <-]. Qed.

Lemma sp_linked : linked (ptes sp_state) sp_map sp_pm.
Proof.
  apply (init_linked (λ _, 0) sp_map 1 (_table sp_pm) (_caps sp_pm)); [computes|split; lia|done].
Qed.

Lemma sp_entries_eq : entries sp_state =
  clear_entries (Z.to_nat (num_caps 1)) (_caps sp_pm) (store_of sp_ring).
Proof. apply entries_set. Qed.

Lemma sp_slots : slots (entries sp_state) sp_ring (wa 0) sp_frame (isSlot sp_pms).
Proof.
  rewrite sp_entries_eq. change (num_caps 1) with 512.
  assert (∀ i, 0 ≤ i < 512 → ∀ n, n ∈ sp_ring → n_addr n ≠ _caps sp_pm + 16 * i) as Hne.
  { intros i Hi n Hn. unfold sp_ring in Hn. rewrite !elem_of_cons, elem_of_nil in Hn.
    destruct Hn as [->|[->|[]]]; unfold wa, fresh, sp_pm; cbn; lia. }
  split.
  - apply (Ring_frame (store_of sp_ring)); [|computes]. intros a Ha. apply clear_entries_other. intros i Hi.
    apply list_elem_of_fmap in Ha as (n & -> & Hn). apply Hne; [lia|done].
  - computes.
  - exists (fresh (wa 0) sp_frame). split_and!; [by left|done|done].
  - computes.
  - intros a (p & pm & i & Hpm & Hi & ->). apply sp_pms_inv in Hpm as [-> ->].
    change (num_caps (_level sp_pm)) with 512 in Hi. split_and!.
    + intros Heq. apply (Hne i Hi (fresh (wa 0) sp_frame)); [by left|done].
    + assert (isKernelAddress (_caps sp_pm + 16 * i) = true) as Hk.
      { apply isKernelAddress_spec. unfold sp_pm, KERNELMEM_SIZE. cbn [_caps]. lia. }
      unfold capPointer. rewrite Hk, kernel2offset_eq by done. unfold sp_pm. cbn [_caps].
      change 7 with (Z.ones 3). rewrite Z.land_ones by lia.
      rewrite (proj2 (Z.eqb_eq _ 0)), (proj2 (Z.eqb_neq _ 0)); [done|lia|].
      replace (_ - _) with ((0x8000 + 2 * i) * 2 ^ 3) by lia. by apply Z.mod_mul.
    + left. split.
      * intros (n & Heq & Hn)%list_elem_of_fmap. by apply (Hne i Hi n).
      * exists (mkEntry 0 0 0). split; [|done]. apply clear_entries_lookup. lia.
Qed.

Lemma sp_inv : mapInv sp_pms (wa 0) sp_frame sp_region sp_state.
Proof.
  split_and!; [|reflexivity|exists sp_ring; split; [apply sp_slots|]].
  2: { intros p pm i v Hpm Hi Hv Hp. apply sp_pms_inv in Hpm as [-> ->].
       destruct (init_word (λ _, 0) sp_map 1 (_table sp_pm) (_caps sp_pm)
         (mkSpace (store_of sp_ring) ∅) ltac:(split; lia) i Hi) as (w & Hw & _ & Hnp & _).
       assert (w = v) as -> by (fold sp_state in Hw; rewrite Hw in Hv; congruence).
       rewrite Hnp in Hp; [discriminate Hp|discriminate]. }
  intros p pm Hpm. pose proof (sp_pms_inv _ _ Hpm) as [-> ->]. split; [done|apply sp_linked].
Qed.

Lemma sp_objects : objects_ok (S := space) sp_pms sp_frame sp_region.
Proof.
  split_and!.
  - intros p pm q qm i j [-> ->]%sp_pms_inv [-> ->]%sp_pms_inv Hi Hj He. split; [done|lia].
  - intros p pm Hpm. apply sp_pms_inv in Hpm as [-> ->]. split; [computes|].
    intros e c s. cbn [addressRange space_objects]. by rewrite Z.eqb_refl.
  - intros e s. reflexivity.
Qed.

Lemma sp_tree : tree (isTable sp_pms) (ptes sp_state) 1 (_table sp_pm).
Proof.
  split; [by exists sp_map, sp_pm|]. intros i Hi. destruct sp_linked as [Hw _].
  destruct (Hw i Hi) as (v & Hv & Hf). exists v. split; [done|]. by split.
Qed.

(** Two pages of the frame, from its second page on, at address 0x3000. *)
Lemma mapFrame_correct_witness :
  ∃ res r s', mapFrame sp_map 0x3000 0x2000 (wa 0) 1 0x1000 sp_state = Done (res, r) s' ∧
    mapInv sp_pms (wa 0) sp_frame sp_region s' ∧ 0x3000 ≤ r_vaddr r ≤ 0x3000 + 0x2000 ∧
    (res = OK tt → r_vaddr r = Z.min (0x3000 + 0x2000) (table_end 1)).
Proof.
  destruct (mapFrame_correct sp_pms (wa 0) sp_frame sp_region 1 sp_map sp_pm 1 sp_state
    0x3000 0x2000 0x1000) as (res & r & s' & Hrun & Hinv & _ & Hr & Hok & _);
    first [exact sp_objects | exact sp_inv | exact sp_tree | reflexivity | lia | idtac].
  - split; [|split; vm_compute; congruence].
    split; [split; vm_compute; congruence|]. split; [split; vm_compute; congruence|].
    split; [split; vm_compute; congruence|reflexivity].
  - exists res, r, s'. exact (conj Hrun (conj Hinv (conj Hr Hok))).
Defined.

(** The same run, evaluated: it succeeds, and address 0x4321 is translated to the
    third page of the frame. *)
Example mapFrame_runs :
  match mapFrame sp_map 0x3000 0x2000 (wa 0) 1 0x1000 sp_state with
  | Done (OK _, r) s' =>
    r_vaddr r = 0x5000 ∧
    (λ '(e, d), PTE.getAddr e + d) <$> translate (sp_ptes s') 1 (_table sp_pm) 0x4321 = Some 0x1002321
  | _ => False
  end.
Proof. vm_compute. by split. Qed.

Lemma unmapEntry_correct_witness :
  ∃ s', unmapEntry sp_map 3 sp_state = Done (OK tt) s' ∧
    mapInv sp_pms (wa 0) sp_frame sp_region s'.
Proof.
  destruct (unmapEntry_correct sp_pms (wa 0) sp_frame sp_region sp_objects sp_state sp_map sp_pm 3)
    as (s' & old & new & Hrun & HI & _);
    first [exact sp_inv | reflexivity | (split; vm_compute; congruence) | idtac].
  exists s'. exact (conj Hrun HI).
Defined.

Lemma PageMap_init_correct_witness :
  ∃ s', PageMap_init (λ _, 0) sp_map 1 (_table sp_pm) (_caps sp_pm) (mkSpace (store_of sp_ring) ∅)
          = Done tt s' ∧
    table2PageMap (_table sp_pm) s' = Done sp_map s'.
Proof.
  destruct (PageMap_init_correct (λ _, 0) sp_map 1 (_table sp_pm) (_caps sp_pm)
    (mkSpace (store_of sp_ring) ∅)) as (s' & Hrun & Ht & _);
    first [reflexivity | (split; vm_compute; congruence) | idtac].
  exists s'. exact (conj Hrun Ht).
Defined.

(** The request to unmap the two pages, with a writable page map capability. *)
Definition sp_request : Request := mkRequest 0 0x3000 0x2000 0 0 0.
Definition sp_self : Z := mkCap sp_map PageMapData.default NOFLAG.

(** The page map with the two pages. *)
Definition sp_mapped : space :=
  match mapFrame sp_map 0x3000 0x2000 (wa 0) 1 0x1000 sp_state with
  | Done _ s => s
  | _ => sp_state
  end.

Definition no_page_flag (s : space) : bool :=
  forallb (λ i, match sp_ptes s !! (_table sp_pm + 8 * Z.of_nat i) with
                | Some v => negb (PTE.page v) | None => false end) (seq 0 512).

Lemma no_page_flag_spec s : no_page_flag s = true →
  ∀ i, 0 ≤ i < TABLE_SIZE → ∃ v, ptes s !! (_table sp_pm + 8 * i) = Some v ∧ PTE.page v = false.
Proof.
  unfold no_page_flag, TABLE_SIZE. rewrite forallb_forall. intros Hall i Hi.
  specialize (Hall (Z.to_nat i)). rewrite Z2Nat.id in Hall by lia. cbn [ptes space_tables].
  destruct (sp_ptes s !! _) as [v|].
  - exists v. split; [done|]. apply negb_true_iff, Hall. apply in_seq. lia.
  - specialize (Hall ltac:(apply in_seq; lia)). done.
Qed.

(** Two mapped pages are still mapped after the request to unmap them. *)
Lemma small_pages_ignored_witness :
  (∃ r, invokeMunmap sp_map sp_self sp_request sp_mapped = Done (SUCCESS, Some r) sp_mapped) ∧
  (∃ r, invokeMprotect sp_map sp_self sp_request sp_mapped = Done (SUCCESS, Some r) sp_mapped) ∧
  (λ '(e, d), PTE.getAddr e + d) <$> translate (sp_ptes sp_mapped) 1 (_table sp_pm) 0x4321
    = Some 0x1002321.
Proof.
  destruct (small_pages_ignored sp_map sp_pm sp_self sp_request sp_mapped) as [Hu Hp];
    first [reflexivity | (apply no_page_flag_spec; vm_compute; reflexivity)
          | (split; vm_compute; congruence) | idtac].
  split; [exact Hu|]. split; [exact Hp|]. vm_compute. reflexivity.
Defined.
