(* ===== verification/KernelSpace.v ===== *)
(** * The kernel's address space

    Models the static page tables of boot/kernelspace-amd64/boot/pagetables.cc
    and the functions that change them while booting
    (boot/kernelspace-amd64/boot/init-kernelspace-common.cc).  The places of the
    tables are chosen by the linker and are a parameter, [Layout]; so are the
    two symbols of the linker script, [KERN_ROEND] and [KERN_END].  The meaning
    of the tables is [translate] of PageTable.v, the page walk of the processor.

    The theorems say what the kernel sees: the direct mapped area and the image
    area, that no address gives write access to the code of the kernel and none
    gives access to user mode, that the stacks are separated by unmapped pages,
    and that every new root page map has the same upper half. *)

From stdpp Require Import base tactics numbers list gmap.
From Stdlib Require Import ZArith Lia.
From S2P Require Import Prelude Ranges Bitfield Cap CapEntry CapRing CapSteps CapOps Heap KernelMemory Frame PageTable PageMap PageWalk CapSlots PageMapping PageMapInit.

Local Open Scope Z_scope.
Import PhysPtr Align FrameSize.

Module KernelSpace.

(** ** Constants *)

(** [LOAD_ADDR], boot/kernelspace-amd64/boot/memory-layout-common.h:45 *)
Definition LOAD_ADDR : Z := 0x200000.

(** [DEVICES_ADDR], boot/kernelspace-amd64/boot/memory-layout-common.h:64 *)
Definition DEVICES_ADDR : Z := 0xffff800100000000.

(** [LAPIC_ADDR], boot/kernelspace-amd64/boot/memory-layout-common.h:65-66 *)
Definition LAPIC_ADDR : Z := 0xffff800100001000.

(** [IOAPIC_ADDR], boot/kernelspace-amd64/boot/memory-layout-common.h:67-68 *)
Definition IOAPIC_ADDR : Z := 0xffff800100002000.

(** [KERNELSTACKS_ADDR], boot/kernelspace-amd64/boot/memory-layout-common.h:69 *)
Definition KERNELSTACKS_ADDR : Z := 0xffff800100200000.

(** [CORE_STACK_SIZE], boot/kernelspace-amd64/boot/memory-layout-common.h:72 *)
Definition CORE_STACK_SIZE : Z := 2 * 4096.

(** [INVALID], boot/kernelspace-amd64/boot/pagetables.hh:35 *)
Definition INVALID : Z := 0.

(** [PRESENT], boot/kernelspace-amd64/boot/pagetables.hh:36 *)
Definition PRESENT : Z := Z.shiftl 1 0.

(** [WRITE], boot/kernelspace-amd64/boot/pagetables.hh:37 *)
Definition WRITE : Z := Z.shiftl 1 1.

(** [USER], boot/kernelspace-amd64/boot/pagetables.hh:38 *)
Definition USER : Z := Z.shiftl 1 2.

(** [CD], boot/kernelspace-amd64/boot/pagetables.hh:40 *)
Definition CD : Z := Z.shiftl 1 4.

(** [ACCESSED], boot/kernelspace-amd64/boot/pagetables.hh:41 *)
Definition ACCESSED : Z := Z.shiftl 1 5.

(** [DIRTY], boot/kernelspace-amd64/boot/pagetables.hh:42 *)
Definition DIRTY : Z := Z.shiftl 1 6.

(** [ISPAGE], boot/kernelspace-amd64/boot/pagetables.hh:43 *)
Definition ISPAGE : Z := Z.shiftl 1 7.

(** [GLOBAL], boot/kernelspace-amd64/boot/pagetables.hh:45 *)
Definition GLOBAL : Z := 0.

(** [PML2_PAGESIZE], boot/kernelspace-amd64/boot/pagetables.hh:49 *)
Definition PML2_PAGESIZE : Z := Z.shiftl 1 21.

(** [PAGETABLE_SIZE], boot/kernelspace-amd64/boot/pagetables.hh:50 *)
Definition PAGETABLE_SIZE : Z := 4096.

(** [PML2_BASE], boot/kernelspace-amd64/boot/pagetables.hh:64 *)
Definition PML2_BASE : Z := PRESENT + WRITE + ACCESSED + DIRTY + ISPAGE + GLOBAL.

(** [PML3_BASE], boot/kernelspace-amd64/boot/pagetables.hh:65 *)
Definition PML3_BASE : Z := PRESENT + WRITE + USER + ACCESSED.

(** [PML4_BASE], boot/kernelspace-amd64/boot/pagetables.hh:66 *)
Definition PML4_BASE : Z := PRESENT + WRITE + USER + ACCESSED.

(** [table_to_phys_addr], boot/kernelspace-amd64/boot/pagetables.hh:59-61 *)
Definition table_to_phys_addr (t subtable : Z) : Z :=
  u64 (t + subtable * PAGETABLE_SIZE - VIRT_ADDR).

(** ** The static tables *)

(** The addresses the linker gives to the arrays,
    boot/kernelspace-amd64/boot/pagetables.hh:52-57 *)
Record Layout := mkLayout {
  devices_pml1_at : Z;
  devices_pml2_at : Z;
  image_pml2_at : Z;
  pml2_tables_at : Z;
  pml3_table_at : Z;
  pml4_table_at : Z
}.

(** The arrays, boot/kernelspace-amd64/boot/pagetables.hh:52-57 *)
Record Tables := mkTables {
  devices_pml1 : list Z;
  devices_pml2 : list Z;
  image_pml2 : list Z;
  pml2_tables : list Z;
  pml3_table : list Z;
  pml4_table : list Z
}.

(** [devices_pml1]: devices, boot/kernelspace-amd64/boot/pagetables.cc:37-550 *)
Definition devices_static : list Z := [INVALID; INVALID] ++ replicate 510 INVALID.

(** [devices_pml1]: kernel stacks, boot/kernelspace-amd64/boot/pagetables.cc:552-1064 *)
Definition stacks_static_low : list Z := replicate 512 INVALID.

(** [devices_pml1]: kernel stacks, boot/kernelspace-amd64/boot/pagetables.cc:1065-1576 *)
Definition stacks_static_high : list Z := replicate 512 INVALID.

(** [devices_pml2], boot/kernelspace-amd64/boot/pagetables.cc:1579-2095 *)
Definition devices_pml2_static (L : Layout) : list Z :=
  [PRESENT + WRITE + USER + ACCESSED + table_to_phys_addr (devices_pml1_at L) 0;
   PRESENT + WRITE + USER + ACCESSED + table_to_phys_addr (devices_pml1_at L) 1;
   PRESENT + WRITE + USER + ACCESSED + table_to_phys_addr (devices_pml1_at L) 2]
  ++ replicate 509 INVALID.

(** A run of large pages with consecutive physical addresses. *)
Definition large_pages (n : nat) : list Z :=
  (λ i, PML2_BASE + Z.of_nat i * PML2_PAGESIZE) <$> seq 0 n.

(** [image_pml2], boot/kernelspace-amd64/boot/pagetables.cc:2099-3124 *)
Definition image_pml2_static : list Z := replicate 8 INVALID ++ large_pages 1016.

(** [pml2_tables], boot/kernelspace-amd64/boot/pagetables.cc:3126-5175 *)
Definition pml2_tables_static : list Z := large_pages 2048.

(** [pml3_table]: kernel memory, boot/kernelspace-amd64/boot/pagetables.cc:5177-5691 *)
Definition pml3_kernelmem (L : Layout) : list Z :=
  ((λ i, PML3_BASE + table_to_phys_addr (pml2_tables_at L) (Z.of_nat i)) <$> seq 0 4)
  ++ [PML3_BASE + table_to_phys_addr (devices_pml2_at L) 0] ++ replicate 507 INVALID.

(** [pml3_table]: kernel image, boot/kernelspace-amd64/boot/pagetables.cc:5693-6207 *)
Definition pml3_image (L : Layout) : list Z :=
  replicate 510 INVALID
  ++ ((λ i, PML3_BASE + table_to_phys_addr (image_pml2_at L) (Z.of_nat i)) <$> seq 0 2).

(** The upper half that both variants of [pml4_table] share. *)
Definition pml4_upper (L : Layout) : list Z :=
  [PML4_BASE + table_to_phys_addr (pml3_table_at L) 0] ++ replicate 254 INVALID
  ++ [PML4_BASE + table_to_phys_addr (pml3_table_at L) 1].

(** [pml4_table]: boot variant, boot/kernelspace-amd64/boot/pagetables.cc:6209-6723 *)
Definition pml4_boot (L : Layout) : list Z :=
  [PML4_BASE + table_to_phys_addr (pml3_table_at L) 0] ++ replicate 255 INVALID ++ pml4_upper L.

(** [pml4_table]: final variant, boot/kernelspace-amd64/boot/pagetables.cc:6725-7239 *)
Definition pml4_final (L : Layout) : list Z := replicate 256 INVALID ++ pml4_upper L.

(** The tables of the loaded image. *)
Definition static_tables (L : Layout) : Tables :=
  mkTables (devices_static ++ stacks_static_low ++ stacks_static_high)
    (devices_pml2_static L) image_pml2_static pml2_tables_static
    (pml3_kernelmem L ++ pml3_image L) (pml4_boot L ++ pml4_final L).

(** ** Operations

    An access outside of an array has no defined result in the source; the
    model stops there. *)

Definition set_devices (f : list Z → list Z) (s : Tables) : Tables :=
  mkTables (f (devices_pml1 s)) (devices_pml2 s) (image_pml2 s) (pml2_tables s)
    (pml3_table s) (pml4_table s).

Definition set_image (f : list Z → list Z) (s : Tables) : Tables :=
  mkTables (devices_pml1 s) (devices_pml2 s) (f (image_pml2 s)) (pml2_tables s)
    (pml3_table s) (pml4_table s).

Definition set_pml2 (f : list Z → list Z) (s : Tables) : Tables :=
  mkTables (devices_pml1 s) (devices_pml2 s) (image_pml2 s) (f (pml2_tables s))
    (pml3_table s) (pml4_table s).

(** [word &= ~bits] on 64 bits *)
Definition clear (bits v : Z) : Z := Z.land v (u64 (Z.lnot bits)).

(** An update of the element at an index of an array. *)
Definition at_index (arr : Tables → list Z) (set : (list Z → list Z) → Tables → Tables)
    (i : Z) (f : Z → Z) : kernel Tables unit :=
  s <-- kget;;
  kassert ((0 <=? i) && (i <? Z.of_nat (length (arr s))));;;
  kmodify (set (alter f (Z.to_nat i))).

(** [initKernelSpaceCommon]: the loop over the pages of the code,
    boot/kernelspace-amd64/boot/init-kernelspace-common.cc:47-52 *)
Fixpoint protect_code (n : nat) (i : Z) : kernel Tables unit :=
  match n with
  | O => kret tt
  | Datatypes.S n =>
    at_index image_pml2 set_image (8 + i) (clear WRITE);;;
    at_index pml2_tables set_pml2 i (clear WRITE);;;
    protect_code n (i + 1)
  end.

(** [initKernelSpaceCommon]: the loop over the pages behind the image,
    boot/kernelspace-amd64/boot/init-kernelspace-common.cc:57-59 *)
Fixpoint cut_image (n : nat) (i : Z) : kernel Tables unit :=
  match n with
  | O => kret tt
  | Datatypes.S n => at_index image_pml2 set_image i (clear PRESENT);;; cut_image n (i + 1)
  end.

(** [initKernelSpaceCommon], boot/kernelspace-amd64/boot/init-kernelspace-common.cc:39-60 *)
Definition initKernelSpaceCommon (KERN_ROEND KERN_END : Z) : kernel Tables unit :=
  at_index image_pml2 set_image 8 (clear PRESENT);;;
  let first := LOAD_ADDR / PML2_PAGESIZE in
  protect_code (Z.to_nat (KERN_ROEND / PML2_PAGESIZE - first)) first;;;
  let rest := 8 + KERN_END / PML2_PAGESIZE in
  cut_image (Z.to_nat (1024 - rest)) rest.

(** [loadKernelSpace]: the value of [cr3],
    boot/kernelspace-amd64/boot/init-kernelspace-common.cc:62-65 *)
Definition loadKernelSpace (L : Layout) : Z := table_to_phys_addr (pml4_table_at L) 1.

(** [mapLapic], boot/kernelspace-amd64/boot/init-kernelspace-common.cc:67-71 *)
Definition mapLapic (phys : Z) : kernel Tables unit :=
  at_index devices_pml1 set_devices 1
    (λ _, u64 (CD + PRESENT + WRITE + ACCESSED + DIRTY + GLOBAL + phys)).

(** [mapIOApic], boot/kernelspace-amd64/boot/init-kernelspace-common.cc:73-77 *)
Definition mapIOApic (phys : Z) : kernel Tables unit :=
  at_index devices_pml1 set_devices 2
    (λ _, u64 (CD + PRESENT + WRITE + ACCESSED + DIRTY + GLOBAL + phys)).

(** [initKernelStack], boot/kernelspace-amd64/boot/init-kernelspace-common.cc:79-85 *)
Definition initKernelStack (idx paddr : Z) : kernel Tables Z :=
  at_index devices_pml1 set_devices (512 + 3 * idx + 1)
    (λ _, u64 (PRESENT + WRITE + ACCESSED + DIRTY + GLOBAL + paddr));;;
  at_index devices_pml1 set_devices (512 + 3 * idx + 2)
    (λ _, u64 (PRESENT + WRITE + ACCESSED + DIRTY + GLOBAL + paddr));;;
  kret (u64 (KERNELSTACKS_ADDR + 4096 * (3 * idx + 3))).

(** ** Entries of the tables *)

(** Flags below bit 12 and a page address above it. *)
Lemma entry_bits f pa k :
  fits 12 f → pa mod 4096 = 0 → 0 ≤ k < 12 → Z.testbit (f + pa) k = Z.testbit f k.
Proof.
  intros Hf Hpa Hk. rewrite <-(Z.mod_pow2_bits_low (f + pa) 12 k), <-(Z.mod_pow2_bits_low f 12 k) by lia.
  f_equal. change (2 ^ 12) with 4096. rewrite (Z.div_mod pa 4096), Hpa by lia.
  replace (f + (4096 * (pa / 4096) + 0)) with (f + pa / 4096 * 4096) by lia. by apply Z_mod_plus_full.
Qed.

Lemma entry_addr f pa :
  fits 12 f → pa mod 4096 = 0 → fits 40 pa → PTE.getAddr (f + pa) = pa.
Proof.
  intros Hf Hpa Hfit. unfold fits in *. unfold PTE.getAddr, PTE.addr, PTE.MAXPHYADDR.
  rewrite uget_div_mod by (field_side || lia). change (2 ^ 12) with 4096.
  rewrite (Z.div_mod pa 4096), Hpa at 1 by lia.
  replace (f + (4096 * (pa / 4096) + 0)) with (f + pa / 4096 * 4096) by lia.
  rewrite Z_div_plus_full, Z.div_small by lia.
  assert (0 ≤ pa / 4096 < 2 ^ 28) as Hq.
  { split; [apply Z.div_pos; lia|]. apply Z.div_lt_upper_bound; lia. }
  rewrite Z.add_0_l, Z.mod_small, Z.shiftl_mul_pow2 by lia. change (2 ^ 12) with 4096.
  rewrite wrap_small by (unfold fits; lia). rewrite (Z.div_mod pa 4096) at 2 by lia. lia.
Qed.

(** What the processor and the kernel read from an entry. *)
Record fields := mkFields {
  f_present : bool; f_writeable : bool; f_user : bool; f_cd : bool; f_page : bool; f_addr : Z
}.

Definition fields_of (v : Z) : fields :=
  mkFields (PTE.present v) (PTE.writeable v) (PTE.userMode v) (PTE.cacheDisabled v) (PTE.page v)
    (PTE.getAddr v).

Lemma fields_entry f pa :
  fits 12 f → pa mod 4096 = 0 → fits 40 pa →
  fields_of (f + pa) =
    mkFields (Z.testbit f 0) (Z.testbit f 1) (Z.testbit f 2) (Z.testbit f 4) (Z.testbit f 7) pa.
Proof.
  intros Hf Hpa Hfit. unfold fields_of.
  unfold PTE.present, PTE.writeable, PTE.userMode, PTE.cacheDisabled, PTE.page.
  rewrite !bget_testbit, !entry_bits, entry_addr by (done || lia). done.
Qed.

(** Clearing a flag changes that flag only. *)
Lemma fields_clear k v :
  0 ≤ k < 12 → fits 64 v → fields_of (clear (Z.shiftl 1 k) v) =
    mkFields (negb (k =? 0) && PTE.present v) (negb (k =? 1) && PTE.writeable v)
      (negb (k =? 2) && PTE.userMode v) (negb (k =? 4) && PTE.cacheDisabled v)
      (negb (k =? 7) && PTE.page v) (PTE.getAddr v).
Proof.
  intros Hk Hv.
  assert (∀ i, 0 ≤ i → Z.testbit (clear (Z.shiftl 1 k) v) i = negb (k =? i) && Z.testbit v i) as Hb.
  { intros i Hi. unfold clear. rewrite Z.land_spec, wrap_testbit, Z.lnot_spec, Z.shiftl_1_l by lia.
    rewrite Z.pow2_bits_eqb by lia. destruct (Z.ltb_spec i 64).
    - by rewrite andb_true_l, andb_comm.
    - rewrite (fits_testbit 64 v) by (done || lia). by rewrite !andb_false_r. }
  assert (0 ≤ clear (Z.shiftl 1 k) v) as Hpos by (apply Z.land_nonneg; left; apply Hv).
  unfold fields_of, PTE.present, PTE.writeable, PTE.userMode, PTE.cacheDisabled, PTE.page.
  rewrite !bget_testbit, !Hb by lia. f_equal. unfold PTE.getAddr, PTE.addr, PTE.MAXPHYADDR. do 2 f_equal.
  apply Z.bits_inj'. intros i Hi. rewrite !uget_testbit by (field_side || lia). f_equal.
  rewrite Hb by lia. by rewrite (proj2 (Z.eqb_neq _ _)) by lia.
Qed.

Lemma clear_fits bits v : fits 64 v → fits 64 (clear bits v).
Proof.
  intros Hv. unfold clear. pose proof (wrap_fits 64 (Z.lnot bits)) as Hm. unfold fits in *.
  split; [apply Z.land_nonneg; lia|].
  destruct (Z.eq_dec (Z.land v (wrap 64 (Z.lnot bits))) 0) as [->|Hne]; [lia|].
  apply Z.log2_lt_pow2; [pose proof (Z.land_nonneg v (wrap 64 (Z.lnot bits))); lia|].
  eapply Z.le_lt_trans; [apply Z.log2_land; lia|]. eapply Z.le_lt_trans; [apply Z.le_min_l|].
  destruct (Z.eq_dec v 0) as [->|?]; [done|]. apply Z.log2_lt_pow2; lia.
Qed.

(** ** The tables in memory *)

(** Where the kernel finds an array through the direct mapped area. *)
Definition kaddr (a : Z) : Z := phys2kernel (table_to_phys_addr a 0).

Definition disjoint_arrays (x y : Z * list Z) : Prop :=
  x.1 + 8 * Z.of_nat (length x.2) ≤ y.1 ∨ y.1 + 8 * Z.of_nat (length y.2) ≤ x.1.

Definition store_arrays (l : list (Z * list Z)) : gmap Z Z :=
  foldr (λ x T, store_words x.1 x.2 T) ∅ l.

Lemma store_words_other ws : ∀ a T b,
  (∀ j, (j < length ws)%nat → b ≠ a + 8 * Z.of_nat j) → store_words a ws T !! b = T !! b.
Proof.
  induction ws as [|w ws IH]; intros a T b Hb; [done|]. cbn [store_words length] in *.
  rewrite lookup_insert_ne by (specialize (Hb 0%nat); lia). apply IH.
  intros j Hj. specialize (Hb (Datatypes.S j)). lia.
Qed.

Lemma store_arrays_lookup l b ws i v :
  ForallOrdPairs disjoint_arrays l → (b, ws) ∈ l → ws !! i = Some v →
  store_arrays l !! (b + 8 * Z.of_nat i) = Some v.
Proof.
  intros Hd Hin Hv. induction Hd as [|[a us] l Hall Hd IH]; [set_solver|].
  cbn [store_arrays foldr fst snd]. apply elem_of_cons in Hin as [[= <- <-]|Hin].
  - by apply store_words_lookup.
  - rewrite Forall_forall in Hall. specialize (Hall _ Hin). unfold disjoint_arrays in Hall.
    cbn [fst snd] in Hall. pose proof (lookup_lt_Some _ _ _ Hv).
    rewrite store_words_other by (intros; lia). by apply IH.
Qed.

Lemma store_arrays_none l b : Forall (λ x, b < x.1) l → store_arrays l !! b = None.
Proof.
  induction 1 as [|[a ws] l Ha _ IH]; [done|]. cbn [store_arrays foldr fst snd] in *.
  rewrite store_words_other by (intros; lia). exact IH.
Qed.

Definition arrays (L : Layout) (s : Tables) : list (Z * list Z) :=
  [(kaddr (devices_pml1_at L), devices_pml1 s); (kaddr (devices_pml2_at L), devices_pml2 s);
   (kaddr (image_pml2_at L), image_pml2 s); (kaddr (pml2_tables_at L), pml2_tables s);
   (kaddr (pml3_table_at L), pml3_table s); (kaddr (pml4_table_at L), pml4_table s)].

(** The words of the tables by their kernel addresses. *)
Definition words (L : Layout) (s : Tables) : gmap Z Z := store_arrays (arrays L s).

(** The linker places the arrays in the image, aligned and apart. *)
Definition placed (n a : Z) : Prop := a mod 4096 = 0 ∧ VIRT_ADDR ≤ a ∧ a + 4096 * n ≤ 2 ^ 64.

Definition apart (x y : Z * Z) : Prop := x.1 + 4096 * x.2 ≤ y.1 ∨ y.1 + 4096 * y.2 ≤ x.1.

Definition extents (L : Layout) : list (Z * Z) :=
  [(devices_pml1_at L, 3); (devices_pml2_at L, 1); (image_pml2_at L, 2);
   (pml2_tables_at L, 4); (pml3_table_at L, 2); (pml4_table_at L, 2)].

Definition layout_ok (L : Layout) : Prop :=
  Forall (λ x, placed x.2 x.1) (extents L) ∧ ForallOrdPairs apart (extents L).

(** The parts of the tables that no function changes, and the sizes. *)
Record upper_ok (L : Layout) (s : Tables) : Prop := mkUpper {
  up_devices : length (devices_pml1 s) = 1536%nat;
  up_image : length (image_pml2 s) = 1024%nat;
  up_pml2 : length (pml2_tables s) = 2048%nat;
  up_devices2 : devices_pml2 s = devices_pml2_static L;
  up_pml3 : pml3_table s = pml3_kernelmem L ++ pml3_image L;
  up_pml4 : pml4_table s = pml4_boot L ++ pml4_final L
}.

Lemma table_to_phys_addr_eq n a i :
  placed n a → 0 ≤ i < n → table_to_phys_addr a i = a - VIRT_ADDR + 4096 * i ∧
  table_to_phys_addr a i mod 4096 = 0 ∧ fits 31 (table_to_phys_addr a i).
Proof.
  intros (Hm & Hlo & Hhi) Hi. unfold table_to_phys_addr, PAGETABLE_SIZE, VIRT_ADDR in *.
  rewrite wrap_small by (unfold fits; lia). split; [lia|]. split; [|unfold fits; lia].
  rewrite (Z.div_mod a 4096), Hm by lia.
  replace (4096 * (a / 4096) + 0 + i * 4096 - 0xffffffff81000000)
    with ((a / 4096 + i - 0xffffffff81000) * 4096) by lia. apply Z_mod_mult.
Qed.

Lemma kaddr_eq n a i :
  placed n a → 0 ≤ i < n → phys2kernel (table_to_phys_addr a i) = kaddr a + 4096 * i.
Proof.
  intros Hp Hi. unfold kaddr. pose proof (table_to_phys_addr_eq n a i Hp Hi) as (E & _ & F).
  pose proof (table_to_phys_addr_eq n a 0 Hp ltac:(lia)) as (E0 & _ & F0).
  unfold phys2kernel, KERNELMEM_ADDR, fits in *. rewrite !wrap_small by (unfold fits; lia). lia.
Qed.

(** An entry that links to a table. *)
Lemma link_entry n a i base l :
  placed n a → 0 ≤ i < n → fits 12 base → Z.testbit base 0 = true → Z.testbit base 7 = false →
  subtable (Datatypes.S (Datatypes.S l)) (base + table_to_phys_addr a i) = Some (kaddr a + 4096 * i).
Proof.
  intros Hp Hi Hb Hpr Hpg. pose proof (table_to_phys_addr_eq n a i Hp Hi) as (_ & Hm & Hf).
  assert (fields_of (base + table_to_phys_addr a i) = _) as Ef
    by (apply fields_entry; [done..|unfold fits in *; lia]).
  rewrite Hpr, Hpg in Ef. injection Ef as E0 _ _ _ E7 Ea. unfold subtable. rewrite E0, E7, Ea.
  rewrite (proj2 (Z.ltb_lt _ _)) by lia. cbn [andb negb]. by rewrite (kaddr_eq n).
Qed.

Lemma apart_disjoint a b n m us vs :
  apart (a, n) (b, m) → 8 * Z.of_nat (length us) = 4096 * n → 8 * Z.of_nat (length vs) = 4096 * m →
  disjoint_arrays (KERNELMEM_ADDR + (a - VIRT_ADDR), us) (KERNELMEM_ADDR + (b - VIRT_ADDR), vs).
Proof. unfold apart, disjoint_arrays. cbn [fst snd]. intros. lia. Qed.

(** A leaf: the entry with the offset in its page, when it is present. *)
Definition leaf (size off v : Z) : option (Z * Z) :=
  if PTE.present v then Some (v, off mod size) else None.

(** The memory layout of boot/kernelspace-amd64/boot/memory-layout-common.h as a
    lookup in the last level of tables: below [DEVICES_ADDR], the devices and
    the stacks, and the last two GiB. *)
Definition direct (s : Tables) (x : Z) : option (Z * Z) :=
  if x <? KERNELMEM_SIZE then pml2_tables s !! Z.to_nat (x / PML2_PAGESIZE) ≫= leaf PML2_PAGESIZE x
  else
    let d := x - KERNELMEM_SIZE in
    if d <? 3 * PML2_PAGESIZE then devices_pml1 s !! Z.to_nat (d / 4096) ≫= leaf 4096 d else None.

Definition image (s : Tables) (q : Z) : option (Z * Z) :=
  image_pml2 s !! Z.to_nat (q / PML2_PAGESIZE) ≫= leaf PML2_PAGESIZE q.

Definition IMAGE_ADDR : Z := 0xffffffff80000000.

(** The layout of the upper half. *)
Definition layout (s : Tables) (va : Z) : option (Z * Z) :=
  if va <? KERNELMEM_ADDR + 2 ^ 39 then direct s (va - KERNELMEM_ADDR)
  else if va <? IMAGE_ADDR then None else image s (va - IMAGE_ADDR).

Section walks.
Context (L : Layout) (s : Tables) (HL : layout_ok L) (Hs : upper_ok L s).

Lemma arrays_disjoint : ForallOrdPairs disjoint_arrays (arrays L s).
Proof using HL Hs.
  destruct Hs as [E1 E2 E3 E4 E5 E6]. destruct HL as [Hp Hd].
  unfold extents in *. rewrite !Forall_cons in Hp. cbn [fst snd] in Hp.
  destruct Hp as (P1 & P2 & P3 & P4 & P5 & P6 & _).
  assert (∀ n a, placed n a → 0 < n → kaddr a = KERNELMEM_ADDR + (a - VIRT_ADDR)) as K.
  { intros n a Hp Hn. unfold kaddr.
    destruct (table_to_phys_addr_eq n a 0 Hp ltac:(lia)) as (E & _ & F).
    unfold phys2kernel, fits in *. rewrite E in *. rewrite wrap_small; [lia|].
    unfold KERNELMEM_ADDR, fits. lia. }
  unfold arrays. rewrite (K _ _ P1), (K _ _ P2), (K _ _ P3), (K _ _ P4), (K _ _ P5), (K _ _ P6) by lia.
  assert (length (devices_pml2 s) = 512%nat ∧ length (pml3_table s) = 1024%nat ∧
    length (pml4_table s) = 1024%nat) as (F4 & F5 & F6) by (rewrite E4, E5, E6; done).
  repeat match goal with H : ForallOrdPairs _ (_ :: _) |- _ => inversion_clear H end.
  rewrite ?Forall_cons in *. destruct_and?.
  repeat match goal with |- ForallOrdPairs _ _ => constructor | |- Forall _ _ => constructor end;
    (eapply apart_disjoint; [eassumption|by rewrite ?E1, ?E2, ?E3, ?F4, ?F5, ?F6..]).
Qed.

Context (T : gmap Z Z) (HT : words L s ⊆ T).

Lemma word_in b ws i v :
  (b, ws) ∈ arrays L s → ws !! i = Some v → T !! (b + 8 * Z.of_nat i) = Some v.
Proof using HL Hs HT.
  intros Hin Hv. eapply lookup_weaken; [|exact HT]. by eapply store_arrays_lookup; [apply arrays_disjoint|..].
Qed.

Definition large (v : Z) : Prop := PTE.present v = true → PTE.page v = true.

Lemma translate_page l table off v :
  T !! (table + 8 * (off / psize (Datatypes.S l))) = Some v → (l = 0%nat ∨ large v) →
  translate T (Datatypes.S l) table off = leaf (psize (Datatypes.S l)) off v.
Proof using.
  intros Hv Hl. cbn [translate]. unfold slot. fold (psize (Datatypes.S l)). rewrite psize_alt, Hv.
  cbn [option_bind mbind option_fmap]. unfold leaf, subtable. destruct (PTE.present v) eqn:Hp.
  - destruct Hl as [->|Hl]; [done|]. rewrite Hl by done. by rewrite andb_false_r.
  - by rewrite andb_false_r.
Qed.

(** The index in a run of tables from the indices of two levels. *)
Lemma index_split q x : 0 < q → 512 * (x / (512 * q)) + (x mod (512 * q)) / q = x / q.
Proof using.
  intros Hq. rewrite (Z.div_mod x (512 * q)) at 3 by lia.
  replace (512 * q * (x / (512 * q)) + x mod (512 * q))
    with (x mod (512 * q) + (512 * (x / (512 * q))) * q) by lia.
  rewrite Z.div_add by lia. lia.
Qed.

(** A walk through an entry of a table that links to a run of tables. *)
Lemma walk_link n a i base l table off :
  placed n a → 0 ≤ i < n → fits 12 base → Z.testbit base 0 = true → Z.testbit base 7 = false →
  T !! (table + 8 * (off / psize (Datatypes.S (Datatypes.S l)))) = Some (base + table_to_phys_addr a i) →
  translate T (Datatypes.S (Datatypes.S l)) table off =
  translate T (Datatypes.S l) (kaddr a + 4096 * i) (off mod psize (Datatypes.S (Datatypes.S l))).
Proof using.
  intros Hp Hi Hb H0 H7 Hv. eapply translate_sub; [exact Hv|]. by eapply link_entry.
Qed.

Lemma placed_in n a : (a, n) ∈ extents L → placed n a.
Proof using HL. intros Hin. destruct HL as [Hp _]. rewrite Forall_forall in Hp. exact (Hp _ Hin). Qed.

Ltac member := unfold extents, arrays; rewrite !elem_of_cons; tauto.

(** A walk that ends in a run of tables. *)
Lemma walk_run n a ws i base l table off v :
  (a, n) ∈ extents L → (kaddr a, ws) ∈ arrays L s → 0 ≤ i < n →
  fits 12 base → Z.testbit base 0 = true → Z.testbit base 7 = false →
  T !! (table + 8 * (off / psize (Datatypes.S (Datatypes.S l)))) = Some (base + table_to_phys_addr a i) →
  ws !! Z.to_nat (512 * i + off mod psize (Datatypes.S (Datatypes.S l)) / psize (Datatypes.S l)) = Some v →
  (l = 0%nat ∨ large v) →
  translate T (Datatypes.S (Datatypes.S l)) table off = leaf (psize (Datatypes.S l)) off v.
Proof using HL Hs HT.
  intros Hn Hin Hi Hb H0 H7 Hlink Hv Hl. pose proof (psize_pos (Datatypes.S l) ltac:(lia)) as Hq.
  pose proof (psize_S (Datatypes.S l) ltac:(lia)) as Hqs.
  rewrite (walk_link n a i base) by (done || by apply placed_in).
  set (o := off mod _) in *. assert (0 ≤ o) by (apply Z.mod_pos_bound; lia).
  assert (0 ≤ o / psize (Datatypes.S l)) by (apply Z.div_pos; lia).
  rewrite (translate_page l _ _ v); [|rewrite <-(word_in _ _ _ _ Hin Hv); f_equal; lia|done].
  unfold leaf, o. rewrite Hqs. by rewrite Z.mod_mod_divide by (by exists 512).
Qed.

Lemma walk_none l table off :
  T !! (table + 8 * (off / psize (Datatypes.S l))) = Some INVALID →
  translate T (Datatypes.S l) table off = None.
Proof using.
  intros Hv. rewrite (translate_page l table off INVALID); [done..|]. right. by intros ?.
Qed.

(** An entry of one of the arrays by its index. *)
Lemma entry_in b ws i v :
  (b, ws) ∈ arrays L s → 0 ≤ i → ws !! Z.to_nat i = Some v → T !! (b + 8 * i) = Some v.
Proof using HL Hs HT. intros Hin Hi Hv. rewrite <-(word_in _ _ _ _ Hin Hv). f_equal. lia. Qed.

Lemma walk_kernelmem p v :
  0 ≤ p < KERNELMEM_SIZE → pml2_tables s !! Z.to_nat (p / PML2_PAGESIZE) = Some v → large v →
  translate T 3 (kaddr (pml3_table_at L)) p = leaf PML2_PAGESIZE p v.
Proof using HL Hs HT.
  change PML2_PAGESIZE with (2 ^ 21). unfold KERNELMEM_SIZE. intros Hp Hv Hlarge.
  assert (0 ≤ p / 2 ^ 30 < 4) as Hi.
  { split; [apply Z.div_pos; lia|apply Z.div_lt_upper_bound; lia]. }
  apply (walk_run 4 (pml2_tables_at L) (pml2_tables s) (p / 2 ^ 30) PML3_BASE 1);
    [member|member|done..| | |by right].
  - change (psize 3) with (2 ^ 30). apply (entry_in _ (pml3_table s)); [member|lia|].
    rewrite (up_pml3 L s Hs). set (i := p / 2 ^ 30) in *.
    assert (i = 0 ∨ i = 1 ∨ i = 2 ∨ i = 3) as [-> | [-> | [-> | ->]]] by lia; reflexivity.
  - change (psize 3) with (512 * 2 ^ 21). change (psize 2) with (2 ^ 21).
    by change (2 ^ 30) with (512 * 2 ^ 21); rewrite index_split by lia.
Qed.

Lemma walk_devices d v :
  0 ≤ d < 3 * PML2_PAGESIZE → devices_pml1 s !! Z.to_nat (d / 4096) = Some v →
  translate T 2 (kaddr (devices_pml2_at L)) d = leaf 4096 d v.
Proof using HL Hs HT.
  change PML2_PAGESIZE with (2 ^ 21). intros Hd Hv.
  assert (0 ≤ d / 2 ^ 21 < 3) as Hi.
  { split; [apply Z.div_pos; lia|apply Z.div_lt_upper_bound; lia]. }
  apply (walk_run 3 (devices_pml1_at L) (devices_pml1 s) (d / 2 ^ 21)
    (PRESENT + WRITE + USER + ACCESSED) 0); [member|member|done..| | |by left].
  - change (psize 2) with (2 ^ 21). apply (entry_in _ (devices_pml2 s)); [member|lia|].
    rewrite (up_devices2 L s Hs). set (i := d / 2 ^ 21) in *.
    assert (i = 0 ∨ i = 1 ∨ i = 2) as [-> | [-> | ->]] by lia; reflexivity.
  - change (psize 2) with (512 * 4096). change (psize 1) with 4096.
    by change (2 ^ 21) with (512 * 4096); rewrite index_split by lia.
Qed.

(** An index in a run of invalid entries. *)
Lemma static_invalid (k n : nat) xs ys i :
  length xs = k → (k ≤ i < k + n)%nat → (xs ++ replicate n INVALID ++ ys) !! i = Some INVALID.
Proof using.
  intros Hl Hi. rewrite lookup_app_r by lia. rewrite lookup_app_l by (rewrite length_replicate; lia).
  apply lookup_replicate_2. lia.
Qed.

Lemma walk_device_area d :
  0 ≤ d < 2 ^ 30 → translate T 2 (kaddr (devices_pml2_at L)) d =
    if d <? 3 * 2 ^ 21 then devices_pml1 s !! Z.to_nat (d / 4096) ≫= leaf 4096 d else None.
Proof using HL Hs HT.
  intros Hd. destruct (Z.ltb_spec d (3 * 2 ^ 21)) as [Hlt|Hge].
  - assert (Z.to_nat (d / 4096) < 1536)%nat as Hi.
    { enough (d / 4096 < 1536) by lia. apply Z.div_lt_upper_bound; lia. }
    rewrite <-(up_devices L s Hs) in Hi. apply lookup_lt_is_Some_2 in Hi as [v Hv]. rewrite Hv.
    apply walk_devices; [change PML2_PAGESIZE with (2 ^ 21); lia|done].
  - apply walk_none. change (psize 2) with (2 ^ 21).
    assert (3 ≤ d / 2 ^ 21 < 512) as Hj.
    { split; [apply Z.div_le_lower_bound; lia|apply Z.div_lt_upper_bound; lia]. }
    apply (entry_in _ (devices_pml2 s)); [member|lia|]. rewrite (up_devices2 L s Hs).
    unfold devices_pml2_static. rewrite <-(app_nil_r (replicate 509 _)).
    apply (static_invalid 3 509); [done|lia].
Qed.

Lemma walk_direct x :
  0 ≤ x < 2 ^ 39 → Forall large (pml2_tables s) →
  translate T 3 (kaddr (pml3_table_at L)) x = direct s x.
Proof using HL Hs HT.
  intros Hx Hlarge. unfold direct. destruct (Z.ltb_spec x KERNELMEM_SIZE) as [Hlt|Hge].
  { assert (Z.to_nat (x / PML2_PAGESIZE) < 2048)%nat as Hi.
    { change PML2_PAGESIZE with (2 ^ 21). unfold KERNELMEM_SIZE in *.
      enough (x / 2 ^ 21 < 2048) by lia. apply Z.div_lt_upper_bound; lia. }
    rewrite <-(up_pml2 L s Hs) in Hi. apply lookup_lt_is_Some_2 in Hi as [v Hv]. rewrite Hv.
    apply walk_kernelmem; [lia|done|]. by eapply Forall_lookup_1. }
  change PML2_PAGESIZE with (2 ^ 21). unfold KERNELMEM_SIZE in *. set (d := x - 4294967296).
  destruct (decide (d < 2 ^ 30)) as [Hd|Hd].
  - assert (x / 2 ^ 30 = 4 ∧ x mod 2 ^ 30 = d) as [Eq Em].
    { replace x with (d + 4 * 2 ^ 30) by lia.
      rewrite Z.div_add, Z_mod_plus_full, Z.div_small, Z.mod_small by lia. done. }
    rewrite (walk_link 1 (devices_pml2_at L) 0 PML3_BASE); [|apply placed_in; member|done..|].
    + change (psize 3) with (2 ^ 30). rewrite Em, Z.add_0_r. apply walk_device_area. lia.
    + change (psize 3) with (2 ^ 30). rewrite Eq. apply (entry_in _ (pml3_table s)); [member|lia|].
      by rewrite (up_pml3 L s Hs).
  - rewrite (proj2 (Z.ltb_ge _ _)) by lia. apply walk_none. change (psize 3) with (2 ^ 30).
    assert (5 ≤ x / 2 ^ 30 < 512) as Hj.
    { split; [apply Z.div_le_lower_bound; lia|apply Z.div_lt_upper_bound; lia]. }
    apply (entry_in _ (pml3_table s)); [member|lia|]. rewrite (up_pml3 L s Hs).
    unfold pml3_kernelmem. rewrite <-!app_assoc, (app_assoc (_ <$> _)).
    apply (static_invalid 5 507); [done|lia].
Qed.

Lemma walk_image y :
  0 ≤ y < 2 ^ 39 → Forall large (image_pml2 s) →
  translate T 3 (kaddr (pml3_table_at L) + 4096) y =
    if y <? 510 * 2 ^ 30 then None else image s (y - 510 * 2 ^ 30).
Proof using HL Hs HT.
  intros Hy Hlarge. assert (0 ≤ y / 2 ^ 30 < 512) as Hj.
  { split; [apply Z.div_pos; lia|apply Z.div_lt_upper_bound; lia]. }
  assert (∀ v, pml3_image L !! Z.to_nat (y / 2 ^ 30) = Some v →
    T !! (kaddr (pml3_table_at L) + 4096 + 8 * (y / psize 3)) = Some v) as Hentry.
  { intros v Hv. change (psize 3) with (2 ^ 30). rewrite <-Z.add_assoc.
    replace (4096 + 8 * (y / 2 ^ 30)) with (8 * (512 + y / 2 ^ 30)) by lia.
    apply (entry_in _ (pml3_table s)); [member|lia|]. rewrite (up_pml3 L s Hs).
    rewrite lookup_app_r by (change (length (pml3_kernelmem L)) with 512%nat; lia).
    rewrite <-Hv. f_equal. change (length (pml3_kernelmem L)) with 512%nat. lia. }
  destruct (Z.ltb_spec y (510 * 2 ^ 30)) as [Hlt|Hge].
  - apply walk_none, Hentry. apply (static_invalid 0 510 []); [done|].
    enough (y / 2 ^ 30 < 510) by lia. apply Z.div_lt_upper_bound; lia.
  - set (q := y - 510 * 2 ^ 30). unfold image. change PML2_PAGESIZE with (2 ^ 21).
    assert (y / 2 ^ 30 = 510 + q / 2 ^ 30 ∧ y mod 2 ^ 30 = q mod 2 ^ 30 ∧ y mod 2 ^ 21 = q mod 2 ^ 21)
      as (Eq & Em & Em').
    { replace y with (q + 510 * 2 ^ 30) by lia. rewrite Z.div_add, Z_mod_plus_full by lia.
      replace (510 * 2 ^ 30) with (510 * 2 ^ 9 * 2 ^ 21) by lia. rewrite Z_mod_plus_full. lia. }
    assert (0 ≤ q / 2 ^ 30 < 2) as Hi.
    { split; [apply Z.div_pos; lia|apply Z.div_lt_upper_bound; lia]. }
    assert (Z.to_nat (q / 2 ^ 21) < 1024)%nat as Hn.
    { enough (q / 2 ^ 21 < 1024) by lia. apply Z.div_lt_upper_bound; lia. }
    rewrite <-(up_image L s Hs) in Hn. apply lookup_lt_is_Some_2 in Hn as [v Hv]. rewrite Hv.
    cbn [mbind option_bind].
    rewrite (walk_run 2 (image_pml2_at L) (image_pml2 s) (q / 2 ^ 30) PML3_BASE 1 _ _ v);
      [unfold leaf; change (psize 2) with (2 ^ 21); by rewrite Em'|member|member|done..| | |].
    + apply Hentry. rewrite Eq. set (i := q / 2 ^ 30) in *.
      assert (i = 0 ∨ i = 1) as [-> | ->] by lia; reflexivity.
    + change (psize 3) with (2 ^ 30). rewrite Em. change (psize 2) with (2 ^ 21).
      change (2 ^ 30) with (512 * 2 ^ 21). by rewrite index_split by lia.
    + right. by eapply Forall_lookup_1.
Qed.

Context (root : Z).
Context (Hroot : ∀ i, 0 ≤ i < 256 → T !! (root + 8 * (256 + i)) = pml4_upper L !! Z.to_nat i).

(** The processor finds the layout. *)
Lemma walk_upper va :
  KERNELMEM_ADDR ≤ va < 2 ^ 64 → Forall large (pml2_tables s) → Forall large (image_pml2 s) →
  translate T 4 root (va mod 2 ^ 48) = layout s va.
Proof using HL Hs HT Hroot.
  intros Hva Hl2 Hli. unfold KERNELMEM_ADDR in *. set (x := va - 0xffff800000000000).
  assert (va mod 2 ^ 48 = x + 256 * 2 ^ 39) as ->.
  { replace va with (x + 256 * 2 ^ 39 + 65535 * 2 ^ 48) by lia.
    rewrite Z_mod_plus_full, Z.mod_small; lia. }
  assert (0 ≤ x / 2 ^ 39 < 256) as Hi.
  { split; [apply Z.div_pos; lia|apply Z.div_lt_upper_bound; lia]. }
  assert (∀ v, pml4_upper L !! Z.to_nat (x / 2 ^ 39) = Some v →
    T !! (root + 8 * ((x + 256 * 2 ^ 39) / psize 4)) = Some v) as Hentry.
  { intros v <-. change (psize 4) with (2 ^ 39). rewrite Z.div_add by lia.
    rewrite Z.add_comm with (m := 256). by apply Hroot. }
  unfold layout. change (KERNELMEM_ADDR + 2 ^ 39) with 0xffff808000000000.
  destruct (Z.ltb_spec va 0xffff808000000000) as [Hlo|Hhi].
  - rewrite (walk_link 2 (pml3_table_at L) 0 PML4_BASE); [|apply placed_in; member|done..|].
    + change (psize 4) with (2 ^ 39). rewrite Z_mod_plus_full, Z.mod_small, Z.mul_0_r, Z.add_0_r by lia.
      change (va - KERNELMEM_ADDR) with x. apply walk_direct; [lia|done].
    + apply Hentry. by rewrite Z.div_small by lia.
  - destruct (decide (x < 255 * 2 ^ 39)) as [Hm|Hm].
    + rewrite (proj2 (Z.ltb_lt _ _)) by (unfold IMAGE_ADDR; lia). apply walk_none, Hentry.
      apply (static_invalid 1 254); [done|]. split.
      * enough (1 ≤ x / 2 ^ 39) by lia. apply Z.div_le_lower_bound; lia.
      * enough (x / 2 ^ 39 < 255) by lia. apply Z.div_lt_upper_bound; lia.
    + assert (x / 2 ^ 39 = 255 ∧ (x + 256 * 2 ^ 39) mod 2 ^ 39 = x - 255 * 2 ^ 39) as [Eq Em].
      { replace x with (x - 255 * 2 ^ 39 + 255 * 2 ^ 39) at 1 2 by lia.
        rewrite Z_mod_plus_full, Z.div_add, Z_mod_plus_full, Z.div_small, Z.mod_small by lia. lia. }
      rewrite (walk_link 2 (pml3_table_at L) 1 PML4_BASE); [|apply placed_in; member|done..|].
      * change (psize 4) with (2 ^ 39). rewrite Em, Z.mul_1_r, walk_image by (done || lia).
        unfold IMAGE_ADDR, x. zcases; (lia || done || f_equal; lia).
      * apply Hentry. by rewrite Eq.
Qed.
End walks.

(** ** The functions that change the tables *)

Lemma at_index_run arr set i f s :
  0 ≤ i < Z.of_nat (length (arr s)) → at_index arr set i f s = Done tt (set (alter f (Z.to_nat i)) s).
Proof.
  intros Hi. unfold at_index, kbind, kget, kassert, kmodify.
  by rewrite (proj2 (Z.leb_le _ _)), (proj2 (Z.ltb_lt _ _)) by lia.
Qed.

Lemma at_index_bind {A} arr set i f (k : kernel Tables A) s :
  0 ≤ i < Z.of_nat (length (arr s)) →
  (at_index arr set i f;;; k) s = k (set (alter f (Z.to_nat i)) s).
Proof. intros Hi. by rewrite (kbind_run _ _ _ _ _ (at_index_run _ set _ f _ Hi)). Qed.

Lemma at_index_Done arr set i f s u s' :
  at_index arr set i f s = Done u s' →
  0 ≤ i < Z.of_nat (length (arr s)) ∧ s' = set (alter f (Z.to_nat i)) s.
Proof.
  unfold at_index, kbind, kget, kassert, kmodify.
  destruct (Z.leb_spec 0 i), (Z.ltb_spec i (Z.of_nat (length (arr s)))); cbn; try done.
  intros [= <- <-]. done.
Qed.

(** [f] at [n] consecutive indices from [i]. *)
Definition alter_range (f : Z → Z) (i n : nat) (xs : list Z) : list Z :=
  imap (λ j v, if decide (i ≤ j < i + n)%nat then f v else v) xs.

Lemma alter_range_0 f i xs : alter_range f i 0 xs = xs.
Proof.
  apply list_eq. intros j. unfold alter_range. rewrite list_lookup_imap.
  destruct (xs !! j); cbn; [|done]. by rewrite decide_False by lia.
Qed.

Lemma alter_range_S f i n xs :
  alter_range f i (Datatypes.S n) xs = alter_range f (Datatypes.S i) n (alter f i xs).
Proof.
  apply list_eq. intros j. unfold alter_range. rewrite !list_lookup_imap.
  destruct (decide (i = j)) as [<-|Hne].
  - rewrite list_lookup_alter_eq. destruct (xs !! i); cbn; [|done].
    by rewrite decide_True, decide_False by lia.
  - rewrite list_lookup_alter_ne by done. destruct (xs !! j); cbn; [|done].
    by repeat case_decide; try lia.
Qed.

Lemma alter_range_lookup f i n xs j :
  alter_range f i n xs !! j = (λ v, if decide (i ≤ j < i + n)%nat then f v else v) <$> xs !! j.
Proof. apply list_lookup_imap. Qed.

Lemma alter_range_length f i n xs : length (alter_range f i n xs) = length xs.
Proof. apply length_imap. Qed.

Lemma protect_code_run n : ∀ i s,
  (8 + i + n ≤ length (image_pml2 s))%nat → (i + n ≤ length (pml2_tables s))%nat →
  protect_code n (Z.of_nat i) s =
    Done tt (set_pml2 (alter_range (clear WRITE) i n) (set_image (alter_range (clear WRITE) (8 + i) n) s)).
Proof.
  induction n as [|n IH]; intros i s Hi Hp.
  { unfold set_pml2, set_image. rewrite !alter_range_0. by destruct s. }
  cbn [protect_code].
  rewrite at_index_bind by lia.
  rewrite at_index_bind by (cbn; lia).
  replace (Z.of_nat i + 1) with (Z.of_nat (Datatypes.S i)) by lia.
  replace (Z.to_nat (8 + Z.of_nat i)) with (8 + i)%nat by lia. rewrite Nat2Z.id.
  rewrite IH by (cbn; rewrite ?length_alter; lia).
  unfold set_pml2, set_image. cbn [image_pml2 pml2_tables devices_pml1 devices_pml2 pml3_table pml4_table].
  by rewrite !alter_range_S, <-!plus_n_Sm.
Qed.

Lemma cut_image_run n : ∀ i s,
  (i + n ≤ length (image_pml2 s))%nat →
  cut_image n (Z.of_nat i) s = Done tt (set_image (alter_range (clear PRESENT) i n) s).
Proof.
  induction n as [|n IH]; intros i s Hi.
  { unfold set_image. rewrite alter_range_0. by destruct s. }
  cbn [cut_image]. rewrite at_index_bind by lia.
  replace (Z.of_nat i + 1) with (Z.of_nat (Datatypes.S i)) by lia. rewrite Nat2Z.id.
  rewrite IH by (cbn; rewrite ?length_alter; lia).
  unfold set_image. cbn [image_pml2 pml2_tables devices_pml1 devices_pml2 pml3_table pml4_table].
  by rewrite alter_range_S.
Qed.

(** What the linker script guarantees: both symbols are aligned to large pages
    and the image fits into its area. *)
Definition linked_image (KERN_ROEND KERN_END : Z) : Prop :=
  KERN_ROEND mod PML2_PAGESIZE = 0 ∧ KERN_END mod PML2_PAGESIZE = 0 ∧
  LOAD_ADDR ≤ KERN_ROEND ≤ KERN_END ∧ KERN_END ≤ 1016 * PML2_PAGESIZE.

(** The state after [initKernelSpaceCommon]. *)
Definition init_tables (ro fin : nat) (s : Tables) : Tables :=
  set_image (alter_range (clear PRESENT) (8 + fin) (1016 - fin))
    (set_pml2 (alter_range (clear WRITE) 1 (ro - 1))
      (set_image (alter_range (clear WRITE) 9 (ro - 1)) (set_image (alter (clear PRESENT) 8%nat) s))).

Lemma initKernelSpaceCommon_run ro fin s :
  (1 ≤ ro ≤ fin)%nat → (fin ≤ 1016)%nat →
  length (image_pml2 s) = 1024%nat → length (pml2_tables s) = 2048%nat →
  initKernelSpaceCommon (PML2_PAGESIZE * Z.of_nat ro) (PML2_PAGESIZE * Z.of_nat fin) s =
    Done tt (init_tables ro fin s).
Proof.
  intros Hro Hfin Hi Hp. unfold initKernelSpaceCommon.
  rewrite at_index_bind by lia.
  rewrite !(Z.mul_comm PML2_PAGESIZE), !Z.div_mul by done.
  change (LOAD_ADDR / PML2_PAGESIZE) with (Z.of_nat 1).
  replace (Z.to_nat (Z.of_nat ro - Z.of_nat 1)) with (ro - 1)%nat by lia.
  erewrite kbind_run by (apply protect_code_run; cbn; rewrite ?length_alter; lia).
  replace (8 + Z.of_nat fin) with (Z.of_nat (8 + fin)) by lia.
  rewrite cut_image_run by (cbn [image_pml2 set_pml2 set_image]; rewrite !alter_range_length, !length_alter; lia).
  by replace (Z.to_nat (1024 - Z.of_nat (8 + fin))) with (1016 - fin)%nat by lia.
Qed.

(** ** The address space while booting *)

(** [MYTHOS_MAX_THREADS], boot/kernelspace-amd64/boot/memory-layout-common.h:75 *)
Definition MYTHOS_MAX_THREADS : Z := 244.

(** A physical page outside of the code of the kernel. *)
Definition outside_code (KERN_ROEND phys : Z) : Prop :=
  phys mod 4096 = 0 ∧ fits 40 phys ∧ (phys + 4096 ≤ LOAD_ADDR ∨ KERN_ROEND ≤ phys).

Section boot.
Context (L : Layout) (KERN_ROEND KERN_END : Z).

(** The tables of the image, changed by [entry_bsp]
    (boot/kernel-main/boot/kernel.cc:81-107) and by [DeployHWThread::prepare]
    for each hardware thread. *)
Inductive booted : Tables → Prop :=
  | booted_init s :
      initKernelSpaceCommon KERN_ROEND KERN_END (static_tables L) = Done tt s → booted s
  | booted_lapic s s' phys :
      booted s → outside_code KERN_ROEND phys → mapLapic phys s = Done tt s' → booted s'
  | booted_ioapic s s' phys :
      booted s → outside_code KERN_ROEND phys → mapIOApic phys s = Done tt s' → booted s'
  | booted_stack s s' idx paddr top :
      booted s → 0 ≤ idx < MYTHOS_MAX_THREADS → outside_code KERN_ROEND paddr →
      initKernelStack idx paddr s = Done top s' → booted s'.

(** What the last level of tables holds. *)
Record leaves_ok (s : Tables) : Prop := mkLeaves {
  lv_pml2 i v : pml2_tables s !! i = Some v →
    fields_of v = mkFields true (negb ((1 <=? Z.of_nat i) && (Z.of_nat i <? KERN_ROEND / PML2_PAGESIZE)))
      false false true (Z.of_nat i * PML2_PAGESIZE);
  lv_image i v : image_pml2 s !! i = Some v →
    PTE.present v = (9 <=? Z.of_nat i) && (Z.of_nat i <? 8 + KERN_END / PML2_PAGESIZE) ∧
    (PTE.present v = true →
      fields_of v = mkFields true (negb (Z.of_nat i <? 8 + KERN_ROEND / PML2_PAGESIZE))
        false false true ((Z.of_nat i - 8) * PML2_PAGESIZE));
  lv_devices i v : devices_pml1 s !! i = Some v → PTE.present v = true →
    PTE.userMode v = false ∧ outside_code KERN_ROEND (PTE.getAddr v);
  lv_guard i v : devices_pml1 s !! (512 + 3 * i)%nat = Some v → PTE.present v = false
}.

Lemma large_pages_lookup n i v :
  large_pages n !! i = Some v → (i < n)%nat ∧ v = PML2_BASE + Z.of_nat i * PML2_PAGESIZE.
Proof using.
  unfold large_pages. rewrite list_lookup_fmap, fmap_Some. intros (j & Hj & ->).
  apply lookup_seq in Hj as [-> ?]. done.
Qed.

Lemma large_page_fields i :
  0 ≤ i < 2048 → fits 64 (PML2_BASE + i * PML2_PAGESIZE) ∧
  fields_of (PML2_BASE + i * PML2_PAGESIZE) = mkFields true true false false true (i * PML2_PAGESIZE).
Proof using.
  intros Hi. change PML2_PAGESIZE with (512 * 4096). unfold fits. split.
  - change PML2_BASE with 227. lia.
  - rewrite fields_entry; [done|by split| |unfold fits; lia].
    replace (i * (512 * 4096)) with (i * 512 * 4096) by lia. apply Z_mod_mult.
Qed.

Lemma static_upper : upper_ok L (static_tables L).
Proof using. split; reflexivity. Qed.

Lemma static_devices i v : devices_pml1 (static_tables L) !! i = Some v → v = INVALID.
Proof using.
  assert (devices_pml1 (static_tables L) = replicate 1536 INVALID) as -> by reflexivity.
  by intros [-> _]%lookup_replicate_1.
Qed.

Context (Himg : linked_image KERN_ROEND KERN_END).

Lemma linked_image_pages : ∃ ro fin : nat,
  KERN_ROEND = PML2_PAGESIZE * Z.of_nat ro ∧ KERN_END = PML2_PAGESIZE * Z.of_nat fin ∧
  (1 ≤ ro ≤ fin)%nat ∧ (fin ≤ 1016)%nat ∧
  KERN_ROEND / PML2_PAGESIZE = Z.of_nat ro ∧ KERN_END / PML2_PAGESIZE = Z.of_nat fin.
Proof using Himg.
  destruct Himg as (Hr & He & Hle & Hmax). unfold LOAD_ADDR in *. change PML2_PAGESIZE with 0x200000 in *.
  pose proof (Z.div_mod KERN_ROEND 0x200000 ltac:(lia)) as Er.
  pose proof (Z.div_mod KERN_END 0x200000 ltac:(lia)) as Ee.
  exists (Z.to_nat (KERN_ROEND / 0x200000)), (Z.to_nat (KERN_END / 0x200000)). lia.
Qed.

(** The fields of an entry of [pml2_tables] and of [image_pml2] that is changed
    by the first loop. *)
Lemma page_fields_write (b : bool) i :
  0 ≤ i < 2048 → let v := PML2_BASE + i * PML2_PAGESIZE in
  let v' := if b then clear WRITE v else v in
  fits 64 v' ∧ fields_of v' = mkFields true (negb b) false false true (i * PML2_PAGESIZE).
Proof using.
  intros Hi v v'. destruct (large_page_fields i Hi) as [Hf Ef]. fold v in Hf, Ef. unfold v'.
  destruct b; [|done]. split; [by apply clear_fits|]. unfold WRITE. rewrite fields_clear by (done || lia).
  injection Ef as -> -> -> -> -> ->. done.
Qed.

Lemma clear_present_fields v : fits 64 v → PTE.present (clear PRESENT v) = false.
Proof using.
  intros Hv. unfold PRESENT. pose proof (fields_clear 0 v ltac:(lia) Hv) as E. by injection E as -> _.
Qed.

Lemma init_pml2 ro fin i v :
  (1 ≤ ro)%nat → pml2_tables (init_tables ro fin (static_tables L)) !! i = Some v →
  fields_of v = mkFields true (negb ((1 <=? Z.of_nat i) && (Z.of_nat i <? Z.of_nat ro)))
    false false true (Z.of_nat i * PML2_PAGESIZE).
Proof using.
  intros Hro. cbn [init_tables pml2_tables set_image set_pml2 static_tables].
  rewrite alter_range_lookup, fmap_Some. intros (v0 & [Hi ->]%large_pages_lookup & ->).
  replace ((1 <=? Z.of_nat i) && (Z.of_nat i <? Z.of_nat ro)) with
    (bool_decide (1 ≤ i < 1 + (ro - 1))%nat) by (apply eq_true_iff_eq; rewrite bool_decide_eq_true; lia).
  rewrite <-(proj2 (page_fields_write (bool_decide (1 ≤ i < 1 + (ro - 1))%nat) (Z.of_nat i) ltac:(lia))).
  rewrite bool_decide_decide. by destruct (decide _).
Qed.

Lemma init_image ro fin i v :
  (1 ≤ ro ≤ fin)%nat → image_pml2 (init_tables ro fin (static_tables L)) !! i = Some v →
  PTE.present v = (9 <=? Z.of_nat i) && (Z.of_nat i <? 8 + Z.of_nat fin) ∧
  (PTE.present v = true →
    fields_of v = mkFields true (negb (Z.of_nat i <? 8 + Z.of_nat ro)) false false true
      ((Z.of_nat i - 8) * PML2_PAGESIZE)).
Proof using.
  intros Hro. cbn [init_tables image_pml2 set_image set_pml2 static_tables].
  rewrite !alter_range_lookup, fmap_Some. intros (v1 & (v0 & Hv0 & ->)%fmap_Some & ->).
  destruct (decide (i < 8)%nat) as [Hlt|Hge].
  { rewrite list_lookup_alter_ne in Hv0 by lia. unfold image_pml2_static in Hv0.
    rewrite lookup_app_l in Hv0 by done. apply lookup_replicate_1 in Hv0 as [-> _].
    rewrite !decide_False by lia. rewrite (proj2 (Z.leb_gt _ _)) by lia. done. }
  destruct (decide (i = 8%nat)) as [->|Hne].
  { rewrite list_lookup_alter_eq in Hv0. injection Hv0 as <-. rewrite !decide_False by lia.
    split; [done|]. discriminate. }
  rewrite list_lookup_alter_ne in Hv0 by done. unfold image_pml2_static in Hv0.
  rewrite lookup_app_r in Hv0 by (rewrite length_replicate; lia). rewrite length_replicate in Hv0.
  apply large_pages_lookup in Hv0 as [Hi ->].
  destruct (page_fields_write (bool_decide (9 ≤ i < 9 + (ro - 1))%nat) (Z.of_nat (i - 8)) ltac:(lia)) as [Hf Ef].
  set (v1 := if bool_decide _ then _ else _) in *.
  assert ((if decide (9 ≤ i < 9 + (ro - 1))%nat then clear WRITE (PML2_BASE + Z.of_nat (i - 8) * PML2_PAGESIZE)
    else PML2_BASE + Z.of_nat (i - 8) * PML2_PAGESIZE) = v1) as ->.
  { unfold v1. rewrite bool_decide_decide. destruct (decide _); reflexivity. }
  destruct (decide (8 + fin ≤ i < 8 + fin + (1016 - fin))%nat).
  - rewrite clear_present_fields by done. split; [|done]. symmetry. apply andb_false_iff. lia.
  - split; [injection Ef as -> _ _ _ _ _; symmetry; apply andb_true_iff; lia|]. intros _. rewrite Ef. f_equal; [|lia].
    f_equal. apply eq_true_iff_eq. rewrite bool_decide_eq_true. lia.
Qed.

Lemma init_leaves s :
  initKernelSpaceCommon KERN_ROEND KERN_END (static_tables L) = Done tt s → upper_ok L s ∧ leaves_ok s.
Proof using Himg.
  destruct linked_image_pages as (ro & fin & Er & Ee & Hro & Hfin & Dr & De). rewrite Er, Ee.
  rewrite initKernelSpaceCommon_run by done. intros [= <-]. split.
  - split; try reflexivity; cbn [init_tables image_pml2 pml2_tables set_image set_pml2];
      by rewrite ?alter_range_length, ?length_alter.
  - split; rewrite ?Dr, ?De.
    + intros i v Hv. by eapply init_pml2; [|exact Hv]; lia.
    + intros i v Hv. by eapply init_image.
    + intros i v Hv Hp. by rewrite (static_devices _ _ Hv) in Hp.
    + intros i v Hv. by rewrite (static_devices _ _ Hv).
Qed.

(** A device entry with a page outside of the code keeps the invariant. *)
Lemma set_device_ok s i f pa :
  upper_ok L s ∧ leaves_ok s → outside_code KERN_ROEND pa → fits 12 f → Z.testbit f 2 = false →
  (i < 512 ∨ (i - 512) mod 3 ≠ 0)%nat →
  let s' := set_devices (alter (λ _, u64 (f + pa)) i) s in upper_ok L s' ∧ leaves_ok s'.
Proof using.
  intros [[U1 U2 U3 U4 U5 U6] [V1 V2 V3 V4]] Hpa Hf Hu Hi s'.
  destruct Hpa as (Hm & Hfit & Hout).
  pose proof (fields_entry f pa Hf Hm Hfit) as Ef.
  rewrite <-(wrap_small 64 (f + pa)) in Ef by (unfold fits in *; lia).
  rewrite Hu in Ef. unfold s'.
  split; split; cbn [set_devices devices_pml1 devices_pml2 image_pml2 pml2_tables pml3_table pml4_table];
    rewrite ?length_alter; try done.
  - intros j v. destruct (decide (i = j)) as [<-|Hne].
    + rewrite list_lookup_alter_eq. destruct (devices_pml1 s !! i); [|done]. intros [= <-] _.
      injection Ef as _ _ -> _ _ ->. done.
    + rewrite list_lookup_alter_ne by done. apply V3.
  - intros k v. rewrite list_lookup_alter_ne; [by apply V4|]. intros E. destruct Hi as [?|Hi]; [lia|].
    apply Hi. replace (i - 512)%nat with (k * 3)%nat by lia. apply Nat.Div0.mod_mul.
Qed.

Lemma stack_slot_index idx k :
  0 ≤ idx → (k = 1 ∨ k = 2) →
  ∃ i, Z.to_nat (512 + 3 * idx + k) = i ∧ (i < 512 ∨ (i - 512) mod 3 ≠ 0)%nat.
Proof using.
  intros Hi Hk. exists (Z.to_nat (512 + 3 * idx + k)). split; [done|right].
  replace (Z.to_nat (512 + 3 * idx + k) - 512)%nat with (Z.to_nat k + Z.to_nat idx * 3)%nat by lia.
  rewrite Nat.Div0.mod_add. destruct Hk as [-> | ->]; done.
Qed.

Lemma initKernelStack_Done idx paddr s top s' :
  initKernelStack idx paddr s = Done top s' →
  let e := u64 (PRESENT + WRITE + ACCESSED + DIRTY + GLOBAL + paddr) in
  top = u64 (KERNELSTACKS_ADDR + 4096 * (3 * idx + 3)) ∧
  s' = set_devices (alter (λ _, e) (Z.to_nat (512 + 3 * idx + 2)))
         (set_devices (alter (λ _, e) (Z.to_nat (512 + 3 * idx + 1))) s).
Proof using.
  unfold initKernelStack. intros ([] & s1 & H1 & ([] & s2 & H2 & [= <- <-])%kbind_Done)%kbind_Done.
  apply at_index_Done in H1 as [_ ->], H2 as [_ ->]. done.
Qed.

Lemma booted_ok s : booted s → upper_ok L s ∧ leaves_ok s.
Proof using Himg.
  induction 1 as [s Hs|s s' phys _ IH Ho Hs|s s' phys _ IH Ho Hs|s s' idx paddr top _ IH Hidx Ho Hs].
  - by apply init_leaves.
  - apply at_index_Done in Hs as [_ ->]. apply set_device_ok; [done..|by left; lia].
  - apply at_index_Done in Hs as [_ ->]. apply set_device_ok; [done..|by left; lia].
  - apply initKernelStack_Done in Hs as [_ ->].
    destruct (stack_slot_index idx 1) as (i & -> & Hi); [lia..|].
    destruct (stack_slot_index idx 2) as (j & -> & Hj); [lia..|].
    by apply set_device_ok; [apply set_device_ok|..].
Qed.

Lemma booted_large s : booted s → Forall large (pml2_tables s) ∧ Forall large (image_pml2 s).
Proof using Himg.
  intros [_ [V1 V2 _ _]]%booted_ok. split; apply Forall_lookup_2; intros i v Hv Hp.
  - apply V1 in Hv. by injection Hv as _ _ _ _ -> _.
  - apply V2 in Hv as [_ Hv]. specialize (Hv Hp). by injection Hv as _ _ _ _ -> _.
Qed.

(** ** What the layout gives *)

(** A leaf of a large page translates to its place in the page. *)
Lemma large_leaf w i x v :
  fields_of v = mkFields true w false false true (i * PML2_PAGESIZE) → x / PML2_PAGESIZE = i →
  leaf PML2_PAGESIZE x v = Some (v, x mod PML2_PAGESIZE) ∧
  PTE.getAddr v + x mod PML2_PAGESIZE = x ∧ PTE.writeable v = w ∧ PTE.userMode v = false.
Proof using.
  intros Ef Hx. injection Ef as Hp Hw Hu _ _ Ha. unfold leaf. rewrite Hp, Ha, <-Hx.
  pose proof (Z.div_mod x PML2_PAGESIZE ltac:(done)). split_and!; [done|lia|done..].
Qed.

Lemma page_le a x :
  a mod PML2_PAGESIZE = 0 → a / PML2_PAGESIZE ≤ x / PML2_PAGESIZE ↔ a ≤ x.
Proof using.
  change PML2_PAGESIZE with 0x200000. intros Ha. pose proof (Z.div_mod a 0x200000 ltac:(lia)).
  pose proof (Z.div_mod x 0x200000 ltac:(lia)). pose proof (Z.mod_pos_bound x 0x200000 ltac:(lia)). lia.
Qed.

Lemma layout_direct s p :
  booted s → 0 ≤ p < KERNELMEM_SIZE → ∃ e o, layout s (KERNELMEM_ADDR + p) = Some (e, o) ∧
    PTE.getAddr e + o = p ∧ PTE.userMode e = false ∧
    PTE.writeable e = negb ((LOAD_ADDR <=? p) && (p <? KERN_ROEND)).
Proof using Himg.
  intros Hs Hp. destruct (booted_ok s Hs) as [HU [V _ _ _]].
  assert (0 ≤ p / PML2_PAGESIZE < 2048) as Hi.
  { change PML2_PAGESIZE with 0x200000. unfold KERNELMEM_SIZE in Hp.
    split; [apply Z.div_pos; lia|apply Z.div_lt_upper_bound; lia]. }
  assert (Z.to_nat (p / PML2_PAGESIZE) < length (pml2_tables s))%nat as Hn.
  { rewrite (up_pml2 _ _ HU). lia. }
  apply lookup_lt_is_Some_2 in Hn as [v Hv].
  pose proof (V _ _ Hv) as Ef. rewrite Z2Nat.id in Ef by lia.
  destruct (large_leaf _ _ p v Ef eq_refl) as (El & Ea & Ew & Eu).
  exists v, (p mod PML2_PAGESIZE). unfold layout.
  rewrite (proj2 (Z.ltb_lt _ _)) by (unfold KERNELMEM_SIZE in Hp; lia).
  replace (KERNELMEM_ADDR + p - KERNELMEM_ADDR) with p by lia. unfold direct.
  rewrite (proj2 (Z.ltb_lt _ _)), Hv by lia. cbn [mbind option_bind].
  split_and!; [done..|]. rewrite Ew. f_equal. pose proof (page_le LOAD_ADDR p eq_refl) as H1.
  change (LOAD_ADDR / PML2_PAGESIZE) with 1 in H1. pose proof (page_le KERN_ROEND p (proj1 Himg)).
  apply eq_true_iff_eq. lia.
Qed.

Lemma layout_image s p :
  booted s → 0 ≤ p < 2 ^ 64 - VIRT_ADDR →
  if (LOAD_ADDR <=? p) && (p <? KERN_END)
  then ∃ e o, layout s (VIRT_ADDR + p) = Some (e, o) ∧ PTE.getAddr e + o = p ∧
    PTE.userMode e = false ∧ PTE.writeable e = (KERN_ROEND <=? p)
  else layout s (VIRT_ADDR + p) = None.
Proof using Himg.
  intros Hs Hp. destruct (booted_ok s Hs) as [HU [_ V _ _]]. destruct Himg as (Hr & He & _).
  unfold VIRT_ADDR in Hp. set (q := p + 8 * PML2_PAGESIZE).
  assert (q / PML2_PAGESIZE = 8 + p / PML2_PAGESIZE ∧ q mod PML2_PAGESIZE = p mod PML2_PAGESIZE) as [Eq Em].
  { unfold q. rewrite Z.div_add, Z_mod_plus_full by done. lia. }
  assert (0 ≤ p / PML2_PAGESIZE < 1016) as Hi.
  { change PML2_PAGESIZE with 0x200000. split; [apply Z.div_pos; lia|apply Z.div_lt_upper_bound; lia]. }
  assert (Z.to_nat (q / PML2_PAGESIZE) < length (image_pml2 s))%nat as Hn.
  { rewrite (up_image _ _ HU). lia. }
  apply lookup_lt_is_Some_2 in Hn as [v Hv].
  assert (layout s (VIRT_ADDR + p) = leaf PML2_PAGESIZE p v) as ->.
  { unfold layout. rewrite !(proj2 (Z.ltb_ge _ _)) by (unfold IMAGE_ADDR, VIRT_ADDR, KERNELMEM_ADDR; lia).
    replace (VIRT_ADDR + p - IMAGE_ADDR) with q
      by (unfold q, IMAGE_ADDR, VIRT_ADDR; change PML2_PAGESIZE with 0x200000; lia).
    unfold image. rewrite Hv. cbn [mbind option_bind]. unfold leaf. by rewrite Em. }
  destruct (V _ _ Hv) as [Hpr Ef]. rewrite Z2Nat.id, Eq in Hpr, Ef by lia.
  assert (PTE.present v = (LOAD_ADDR <=? p) && (p <? KERN_END)) as Hpres.
  { rewrite Hpr. pose proof (page_le LOAD_ADDR p eq_refl) as H1.
    change (LOAD_ADDR / PML2_PAGESIZE) with 1 in H1. pose proof (page_le KERN_END p He).
    apply eq_true_iff_eq. lia. }
  rewrite <-Hpres. destruct (PTE.present v) eqn:Hb; [|unfold leaf; by rewrite Hb].
  specialize (Ef eq_refl). replace (8 + p / PML2_PAGESIZE - 8) with (p / PML2_PAGESIZE) in Ef by lia.
  destruct (large_leaf _ _ p v Ef eq_refl) as (El & Ea & Ew & Eu).
  exists v, (p mod PML2_PAGESIZE). split_and!; [done..|]. rewrite Ew.
  pose proof (page_le KERN_ROEND p Hr). apply eq_true_iff_eq. lia.
Qed.

(** Whatever the layout maps is for the kernel only, and the code is read only. *)
Lemma layout_safe s va e o :
  booted s → KERNELMEM_ADDR ≤ va < 2 ^ 64 → layout s va = Some (e, o) →
  PTE.userMode e = false ∧ (LOAD_ADDR ≤ PTE.getAddr e + o < KERN_ROEND → PTE.writeable e = false).
Proof using Himg.
  intros Hs Hva Hl. destruct (booted_ok s Hs) as [HU [_ V2 V3 _]]. pose proof Hl as Hl'. unfold layout in Hl'.
  destruct (Z.ltb_spec va (KERNELMEM_ADDR + 2 ^ 39)) as [Hlo|Hhi].
  - destruct (decide (va - KERNELMEM_ADDR < KERNELMEM_SIZE)) as [Hd|Hd].
    + destruct (layout_direct s (va - KERNELMEM_ADDR) Hs ltac:(lia)) as (e' & o' & El & Ea & Eu & Ew).
      replace (KERNELMEM_ADDR + (va - KERNELMEM_ADDR)) with va in El by lia.
      rewrite Hl in El. injection El as <- <-.
      split; [done|]. rewrite Ea, Ew. intros Hc. apply negb_false_iff, andb_true_iff. lia.
    + unfold direct in Hl'. rewrite (proj2 (Z.ltb_ge _ _)) in Hl' by lia. destruct (_ <? _); [|done].
      apply bind_Some in Hl' as (v & Hv & Hl'). unfold leaf in Hl'. destruct (PTE.present v) eqn:Hp; [|done].
      injection Hl' as <- <-. destruct (V3 _ _ Hv Hp) as [Hu (_ & _ & Hout)]. split; [done|].
      pose proof (Z.mod_pos_bound (va - KERNELMEM_ADDR - KERNELMEM_SIZE) 4096 ltac:(lia)). lia.
  - destruct (Z.ltb_spec va IMAGE_ADDR); [done|]. destruct (decide (va < VIRT_ADDR)) as [Hv|Hv].
    + apply bind_Some in Hl' as (v & Hv' & Hl'). unfold leaf in Hl'. destruct (V2 _ _ Hv') as [Hp _].
      rewrite Hp, (proj2 (Z.leb_gt _ _)) in Hl'; [done|].
      enough ((va - IMAGE_ADDR) / PML2_PAGESIZE < 8) by lia. apply Z.div_lt_upper_bound; [done|].
      unfold VIRT_ADDR in Hv. unfold IMAGE_ADDR. change PML2_PAGESIZE with 0x200000. lia.
    + pose proof (layout_image s (va - VIRT_ADDR) Hs ltac:(lia)) as Hi.
      replace (VIRT_ADDR + (va - VIRT_ADDR)) with va in Hi by lia. rewrite Hl in Hi.
      destruct (_ && _); [|done]. destruct Hi as (e' & o' & [= <- <-] & Ea & Eu & Ew).
      split; [done|]. rewrite Ea, Ew. intros Hc. apply Z.leb_gt. lia.
Qed.

(** ** What the processor sees *)

(** The root table that [loadKernelSpace] selects, by its kernel address. *)
Definition kernel_root : Z := phys2kernel (loadKernelSpace L).

(** A memory access of the kernel. *)
Definition access (s : Tables) (va : Z) : option (Z * Z) :=
  translate (words L s) 4 kernel_root (va mod 2 ^ 48).

Context (HL : layout_ok L).

Lemma kernel_root_word s i v :
  upper_ok L s → 0 ≤ i → pml4_final L !! Z.to_nat i = Some v → words L s !! (kernel_root + 8 * i) = Some v.
Proof using HL.
  intros HU Hi Hv. unfold kernel_root, loadKernelSpace.
  rewrite (kaddr_eq 2) by (lia || (apply (placed_in L HL); unfold extents; rewrite !elem_of_cons; tauto)).
  replace (kaddr (pml4_table_at L) + 4096 * 1 + 8 * i) with (kaddr (pml4_table_at L) + 8 * (512 + i)) by lia.
  apply (entry_in L s HL HU _ ltac:(done) _ (pml4_table s));
    [unfold arrays; rewrite !elem_of_cons; tauto|lia|].
  rewrite (up_pml4 _ _ HU), lookup_app_r by (change (length (pml4_boot L)) with 512%nat; lia).
  rewrite <-Hv. f_equal. change (length (pml4_boot L)) with 512%nat. lia.
Qed.

Lemma access_layout s va : booted s → KERNELMEM_ADDR ≤ va < 2 ^ 64 → access s va = layout s va.
Proof using Himg HL.
  intros Hs Hva. destruct (booted_ok s Hs) as [HU _], (booted_large s Hs) as [H2 Hi].
  unfold access. eapply walk_upper; try done. intros i Hi'.
  assert (Z.to_nat i < length (pml4_upper L))%nat as Hn by (change (length (pml4_upper L)) with 256%nat; lia).
  apply lookup_lt_is_Some_2 in Hn as [v Hv]. rewrite Hv. apply kernel_root_word; [done|lia|].
  unfold pml4_final. rewrite lookup_app_r by (rewrite length_replicate; lia). rewrite <-Hv. f_equal.
  rewrite length_replicate. lia.
Qed.

Lemma access_lower s va : booted s → 0 ≤ va < 2 ^ 47 → access s va = None.
Proof using Himg HL.
  intros Hs Hva. destruct (booted_ok s Hs) as [HU _]. unfold access. rewrite Z.mod_small by lia.
  assert (0 ≤ va / 2 ^ 39 < 256) as Hi.
  { split; [apply Z.div_pos; lia|apply Z.div_lt_upper_bound; lia]. }
  apply walk_none. apply kernel_root_word; [done|apply Hi|].
  unfold pml4_final. change (psize 4) with (2 ^ 39).
  rewrite lookup_app_l by (rewrite length_replicate; lia). apply lookup_replicate_2. lia.
Qed.

(** C31: the address space of the kernel is the documented one, from the static
    tables through all changes while booting: the direct mapped area gives every
    physical address below 4 GiB, writable unless it belongs to the code; the
    image area gives exactly the physical addresses of the loaded image, code
    read only and data writable; the lower half gives nothing. *)
Theorem kernel_layout s :
  booted s →
  (∀ p, 0 ≤ p < KERNELMEM_SIZE → ∃ e o, access s (KERNELMEM_ADDR + p) = Some (e, o) ∧
     PTE.getAddr e + o = p ∧ PTE.writeable e = negb ((LOAD_ADDR <=? p) && (p <? KERN_ROEND))) ∧
  (∀ p, 0 ≤ p < 2 ^ 64 - VIRT_ADDR →
     if (LOAD_ADDR <=? p) && (p <? KERN_END)
     then ∃ e o, access s (VIRT_ADDR + p) = Some (e, o) ∧ PTE.getAddr e + o = p ∧
       PTE.writeable e = (KERN_ROEND <=? p)
     else access s (VIRT_ADDR + p) = None) ∧
  (∀ va, 0 ≤ va < 2 ^ 47 → access s va = None).
Proof using Himg HL.
  intros Hs. split_and!.
  - intros p Hp. rewrite access_layout by (done || (unfold KERNELMEM_ADDR, KERNELMEM_SIZE in *; lia)).
    destruct (layout_direct s p Hs Hp) as (e & o & El & Ea & _ & Ew). by exists e, o.
  - intros p Hp. rewrite access_layout by (done || (unfold KERNELMEM_ADDR, VIRT_ADDR in *; lia)).
    pose proof (layout_image s p Hs Hp) as Hi. destruct (_ && _); [|done].
    destruct Hi as (e & o & El & Ea & _ & Ew). by exists e, o.
  - intros va Hva. by apply access_lower.
Qed.

(** C37: whatever virtual address the kernel uses, an access to a page is never open
    to user mode, and the code of the kernel is never writable: neither through
    the image, nor through the direct mapped area, nor through a device or a
    stack that was mapped while booting. *)
Theorem kernel_code_protected s va e o :
  booted s → KERNELMEM_ADDR ≤ va < 2 ^ 64 → access s va = Some (e, o) →
  PTE.userMode e = false ∧ (LOAD_ADDR ≤ PTE.getAddr e + o < KERN_ROEND → PTE.writeable e = false).
Proof using Himg HL.
  intros Hs Hva. rewrite access_layout by done. by apply layout_safe.
Qed.


Lemma access_device s i o v :
  booted s → devices_pml1 s !! i = Some v → 0 ≤ o < 4096 →
  access s (DEVICES_ADDR + 4096 * Z.of_nat i + o) = if PTE.present v then Some (v, o) else None.
Proof using Himg HL.
  intros Hs Hv Ho. destruct (booted_ok s Hs) as [HU _].
  pose proof (lookup_lt_Some _ _ _ Hv) as Hi. rewrite (up_devices _ _ HU) in Hi.
  change DEVICES_ADDR with (KERNELMEM_ADDR + KERNELMEM_SIZE).
  rewrite access_layout by (done || (unfold KERNELMEM_ADDR, KERNELMEM_SIZE; lia)). unfold layout.
  rewrite (proj2 (Z.ltb_lt _ _)) by (unfold KERNELMEM_ADDR, KERNELMEM_SIZE; lia).
  unfold direct. rewrite (proj2 (Z.ltb_ge _ _)) by lia.
  replace (_ - KERNELMEM_ADDR - KERNELMEM_SIZE) with (o + Z.of_nat i * 4096) by lia.
  rewrite (proj2 (Z.ltb_lt _ _)) by (change PML2_PAGESIZE with 0x200000; lia).
  rewrite Z.div_add, Z.div_small, Z.add_0_l, Nat2Z.id, Hv by lia. cbn [mbind option_bind].
  unfold leaf. by rewrite Z_mod_plus_full, Z.mod_small by lia.
Qed.

(** The entry of a device or a stack page. *)
Lemma device_entry f phys :
  outside_code KERN_ROEND phys → fits 12 f →
  fields_of (u64 (f + phys)) =
    mkFields (Z.testbit f 0) (Z.testbit f 1) (Z.testbit f 2) (Z.testbit f 4) (Z.testbit f 7) phys.
Proof using.
  intros (Hm & Hfit & _) Hf. rewrite wrap_small by (unfold fits in *; lia). by apply fields_entry.
Qed.

(** The registers of the local APIC are mapped uncached at their fixed address. *)
Lemma mapLapic_mapped s phys o :
  booted s → outside_code KERN_ROEND phys → 0 ≤ o < 4096 →
  ∃ s' e, mapLapic phys s = Done tt s' ∧ access s' (LAPIC_ADDR + o) = Some (e, o) ∧
    PTE.getAddr e = phys ∧ PTE.cacheDisabled e = true ∧ PTE.writeable e = true.
Proof using Himg HL.
  intros Hs Hphys Ho. destruct (booted_ok s Hs) as [HU _]. pose proof (up_devices _ _ HU) as Hlen.
  set (f := CD + PRESENT + WRITE + ACCESSED + DIRTY + GLOBAL). set (e := u64 (f + phys)).
  assert (mapLapic phys s = Done tt (set_devices (alter (λ _, e) 1%nat) s)) as Hrun
    by (apply (at_index_run devices_pml1); rewrite Hlen; lia).
  eexists _, e. split; [exact Hrun|]. pose proof (booted_lapic _ _ _ Hs Hphys Hrun) as Hs'.
  pose proof (device_entry f phys Hphys ltac:(by split)) as Ef. fold e in Ef.
  injection Ef as Ep Ew _ Ec _ Ea. split_and!; [|done..].
  change (LAPIC_ADDR + o) with (DEVICES_ADDR + 4096 * Z.of_nat 1 + o).
  rewrite (access_device _ 1%nat o e Hs'); [by rewrite Ep| |done].
  cbn [set_devices devices_pml1]. rewrite list_lookup_alter_eq.
  assert (1 < length (devices_pml1 s))%nat as [v ->]%lookup_lt_is_Some_2 by lia. done.
Qed.

Section stack.
Context (s : Tables) (idx paddr : Z) (Hs : booted s) (Hidx : 0 ≤ idx < MYTHOS_MAX_THREADS).
Context (Hout : outside_code KERN_ROEND paddr).

Definition stack_entry : Z := u64 (PRESENT + WRITE + ACCESSED + DIRTY + GLOBAL + paddr).
Definition stack_index : nat := (512 + 3 * Z.to_nat idx)%nat.
Definition stack_state : Tables :=
  set_devices (alter (λ _, stack_entry) (stack_index + 2)%nat)
    (set_devices (alter (λ _, stack_entry) (stack_index + 1)%nat) s).

Lemma initKernelStack_run :
  initKernelStack idx paddr s = Done (KERNELSTACKS_ADDR + 4096 * (3 * idx + 3)) stack_state.
Proof using Himg Hs Hidx.
  destruct (booted_ok s Hs) as [HU _]. pose proof (up_devices _ _ HU) as Hlen.
  unfold MYTHOS_MAX_THREADS, initKernelStack in *.
  rewrite !at_index_bind by (cbn [set_devices devices_pml1]; rewrite ?length_alter, Hlen; lia).
  replace (Z.to_nat (512 + 3 * idx + 2)) with (stack_index + 2)%nat by (unfold stack_index; lia).
  replace (Z.to_nat (512 + 3 * idx + 1)) with (stack_index + 1)%nat by (unfold stack_index; lia).
  unfold kret. f_equal. apply wrap_small. unfold KERNELSTACKS_ADDR, fits. lia.
Qed.

Lemma stack_page j : (j = 1 ∨ j = 2)%nat → devices_pml1 stack_state !! (stack_index + j)%nat = Some stack_entry.
Proof using Himg Hs Hidx.
  intros Hj. destruct (booted_ok s Hs) as [HU _]. pose proof (up_devices _ _ HU) as Hlen.
  unfold MYTHOS_MAX_THREADS in *.
  assert (stack_index + j < length (devices_pml1 s))%nat as [v Hv]%lookup_lt_is_Some_2
    by (unfold stack_index; lia).
  unfold stack_state. cbn [set_devices devices_pml1]. destruct Hj as [-> | ->].
  - rewrite list_lookup_alter_ne, list_lookup_alter_eq, Hv by lia. done.
  - rewrite list_lookup_alter_eq, list_lookup_alter_ne, Hv by lia. done.
Qed.

Lemma stack_guard : ∃ v, devices_pml1 stack_state !! stack_index = Some v ∧ PTE.present v = false.
Proof using Himg Hs Hidx.
  destruct (booted_ok s Hs) as [HU [_ _ _ Hg]]. pose proof (up_devices _ _ HU) as Hlen.
  unfold MYTHOS_MAX_THREADS in *.
  assert (stack_index < length (devices_pml1 s))%nat as [v Hv]%lookup_lt_is_Some_2
    by (unfold stack_index; lia).
  exists v. split; [|by eapply Hg]. unfold stack_state. cbn [set_devices devices_pml1].
  by rewrite !list_lookup_alter_ne by lia.
Qed.
End stack.

(** [initKernelStack] puts the two pages of a stack below the address it
    returns, with an unmapped page below them, but gives both pages the same
    physical page: the upper 4 KiB of the stack overlay the lower ones, and
    half of the 8 KiB that were reserved for the stack is not used. *)
Theorem kernel_stack_aliased s idx paddr :
  booted s → 0 ≤ idx < MYTHOS_MAX_THREADS → outside_code KERN_ROEND paddr →
  ∃ s' top e, initKernelStack idx paddr s = Done top s' ∧
    top = KERNELSTACKS_ADDR + 4096 * (3 * idx + 3) ∧
    PTE.getAddr e = paddr ∧ PTE.writeable e = true ∧
    ∀ o, 0 ≤ o < 4096 →
      access s' (top - 4096 + o) = Some (e, o) ∧
      access s' (top - CORE_STACK_SIZE + o) = Some (e, o) ∧
      access s' (top - CORE_STACK_SIZE - 4096 + o) = None.
Proof using Himg HL.
  intros Hs Hidx Hout. pose proof (initKernelStack_run s idx paddr Hs Hidx) as Hrun.
  pose proof (booted_stack _ _ _ _ _ Hs Hidx Hout Hrun) as Hs'.
  eexists _, _, (stack_entry paddr). split; [exact Hrun|]. split; [done|].
  pose proof (device_entry (PRESENT + WRITE + ACCESSED + DIRTY + GLOBAL) paddr Hout ltac:(by split)) as Ef.
  fold (stack_entry paddr) in Ef. injection Ef as Ep Ew _ _ _ Ea. split_and!; [done..|].
  assert (∀ j o, KERNELSTACKS_ADDR + 4096 * (3 * idx + j) + o =
    DEVICES_ADDR + 4096 * (Z.of_nat (stack_index idx) + j) + o) as Haddr.
  { intros j o. unfold stack_index, KERNELSTACKS_ADDR, DEVICES_ADDR. lia. }
  intros o Ho. split_and!.
  - replace (_ - 4096 + o) with (KERNELSTACKS_ADDR + 4096 * (3 * idx + 2) + o) by lia. rewrite Haddr.
    replace (Z.of_nat _ + 2) with (Z.of_nat (stack_index idx + 2)) by lia.
    rewrite (access_device _ _ o (stack_entry paddr) Hs'); [by rewrite Ep|apply stack_page; auto|done].
  - replace (_ - CORE_STACK_SIZE + o) with (KERNELSTACKS_ADDR + 4096 * (3 * idx + 1) + o)
      by (unfold CORE_STACK_SIZE; lia). rewrite Haddr.
    replace (Z.of_nat _ + 1) with (Z.of_nat (stack_index idx + 1)) by lia.
    rewrite (access_device _ _ o (stack_entry paddr) Hs'); [by rewrite Ep|apply stack_page; auto|done].
  - replace (_ - CORE_STACK_SIZE - 4096 + o) with (KERNELSTACKS_ADDR + 4096 * (3 * idx + 0) + o)
      by (unfold CORE_STACK_SIZE; lia). rewrite Haddr, Z.add_0_r.
    destruct (stack_guard s idx paddr Hs Hidx) as (v & Hv & Hp).
    rewrite (access_device _ _ o v Hs' Hv Ho). by rewrite Hp.
Qed.

(** ** New address spaces *)

Section new_root.
Context {S : Type} `{HasEntries S} `{!HasPageTables S} `{!HasPageMaps S} `{KernelObjects S}.
Context (s : Tables) (this tableMem capMem : Z) (σ : S).
Context (Hs : booted s).
Context (Hwords : words L s ⊆ ptes σ).
Context (Hnew : ∀ j, 0 ≤ j < 512 → words L s !! (tableMem + 8 * j) = None).

(** [boot::pml4_table] as the constructor of a page map reads it. *)
Definition boot_pml4 (j : Z) : Z := default INVALID (pml4_table s !! Z.to_nat j).

Definition new_root : S := init_state boot_pml4 this 4 tableMem capMem σ.

Lemma boot_pml4_fits j : fits 64 (boot_pml4 j).
Proof using Himg HL Hs.
  destruct (booted_ok s Hs) as [HU _]. unfold boot_pml4. rewrite (up_pml4 _ _ HU).
  assert (Forall (fits 64) (pml4_boot L ++ pml4_final L)) as Hf.
  { assert (fits 64 INVALID) as Hinv by (by split).
    assert (∀ i, 0 ≤ i < 2 → fits 64 (PML4_BASE + table_to_phys_addr (pml3_table_at L) i)) as Hl.
    { intros i Hi. assert (placed 2 (pml3_table_at L)) as Hp
        by (apply (placed_in L HL); unfold extents; rewrite !elem_of_cons; tauto).
      pose proof (table_to_phys_addr_eq 2 _ i Hp Hi) as (_ & _ & Hf).
      change PML4_BASE with 39. unfold fits in *. lia. }
    unfold pml4_boot, pml4_final, pml4_upper.
    rewrite !Forall_app, !Forall_singleton. split_and!; (apply Hl; lia) || by apply Forall_replicate. }
  destruct (_ !! _) as [v|] eqn:Hv; [by eapply Forall_lookup_1|by split].
Qed.

Lemma new_root_words : words L s ⊆ ptes new_root.
Proof using Hwords Hnew.
  unfold new_root. rewrite init_ptes. apply map_subseteq_spec. intros a v Ha.
  rewrite store_words_other; [by eapply lookup_weaken|]. intros j Hj ->.
  assert (length (new_table boot_pml4 4 this) = 512%nat) as Hlen.
  { unfold new_table. destruct (pmPtr_parts this) as [[??]?]. by rewrite length_fmap, length_seq. }
  by rewrite Hnew in Ha by lia.
Qed.

Lemma new_root_upper i : 0 ≤ i < 256 → ptes new_root !! (tableMem + 8 * (256 + i)) = pml4_upper L !! Z.to_nat i.
Proof using Himg HL Hs.
  intros Hi. destruct (init_word boot_pml4 this 4 tableMem capMem σ boot_pml4_fits (256 + i))
    as (w & Hw & _ & _ & Hup & _); [change TABLE_SIZE with 512; lia|].
  unfold new_root. rewrite Hw, Hup by lia. unfold boot_pml4.
  destruct (booted_ok s Hs) as [HU _]. rewrite (up_pml4 _ _ HU).
  replace (Z.to_nat (256 + i)) with (256 + Z.to_nat i)%nat by lia.
  assert (Z.to_nat i < length (pml4_upper L))%nat as [v Hv]%lookup_lt_is_Some_2
    by (change (length (pml4_upper L)) with 256%nat; lia).
  rewrite lookup_app_l by (change (length (pml4_boot L)) with 512%nat; lia).
  unfold pml4_boot. rewrite app_assoc, lookup_app_r by (rewrite length_app, length_replicate; cbn; lia).
  rewrite length_app, length_replicate. cbn [length].
  replace (256 + Z.to_nat i - (1 + 255))%nat with (Z.to_nat i) by lia. by rewrite Hv.
Qed.

Lemma new_root_lower i :
  0 ≤ i < 256 → ∃ w, ptes new_root !! (tableMem + 8 * i) = Some w ∧ PTE.present w = false.
Proof using Himg HL Hs.
  intros Hi. destruct (init_word boot_pml4 this 4 tableMem capMem σ boot_pml4_fits i)
    as (w & Hw & _ & Hp & _); [change TABLE_SIZE with 512; lia|]. exists w. split; [done|]. apply Hp. lia.
Qed.
End new_root.

(** C38: the constructor of a root page map gives a new address space the kernel's
    upper half: through the new table every address of the upper half is
    translated as through the kernel's own table, and the lower half is empty. *)
Theorem new_root_kernel_half {S : Type} `{HasEntries S} `{!HasPageTables S} `{!HasPageMaps S}
    `{KernelObjects S} (s : Tables) (this tableMem capMem : Z) (σ : S) :
  booted s → capPointer this = true → is_aligned tableMem PAGE_MIN_SIZE = true →
  words L s ⊆ ptes σ → (∀ j, 0 ≤ j < 512 → words L s !! (tableMem + 8 * j) = None) →
  ∃ σ', PageMap_init (boot_pml4 s) this 4 tableMem capMem σ = Done tt σ' ∧
    (∀ va, KERNELMEM_ADDR ≤ va < 2 ^ 64 →
       translate (ptes σ') 4 tableMem (va mod 2 ^ 48) = access s va) ∧
    (∀ va, 0 ≤ va < 2 ^ 47 → translate (ptes σ') 4 tableMem va = None).
Proof using Himg HL.
  intros Hs Hthis Hal Hwords Hnew. exists (new_root s this tableMem capMem σ). split_and!.
  - apply PageMap_init_run; [by apply capPointer_kernel|done].
  - intros va Hva. destruct (booted_ok s Hs) as [HU _], (booted_large s Hs) as [H2 Hi].
    rewrite access_layout by done. eapply walk_upper; try done.
    + by apply new_root_words.
    + intros i Hi'. by apply new_root_upper.
  - intros va Hva. assert (0 ≤ va / 2 ^ 39 < 256) as Hi.
    { split; [apply Z.div_pos; lia|apply Z.div_lt_upper_bound; lia]. }
    destruct (new_root_lower s this tableMem capMem σ Hs _ Hi) as (w & Hw & Hp).
    rewrite (translate_page _ 3 _ _ w); [unfold leaf; by rewrite Hp|exact Hw|].
    right. intros E. by rewrite Hp in E.
Qed.
End boot.

(** ** An example: an image with 2 MiB of code and 4 MiB of data *)

Module Example.

Definition at_page (n : Z) : Z := VIRT_ADDR + 0x400000 + 4096 * n.
Definition wL : Layout := mkLayout (at_page 0) (at_page 3) (at_page 4) (at_page 6) (at_page 10) (at_page 12).
Definition wROEND : Z := 0x400000.
Definition wEND : Z := 0x800000.
Definition wS : Tables := init_tables 2 4 (static_tables wL).

Lemma wL_ok : layout_ok wL.
Proof.
  split; [by repeat constructor|]. unfold extents.
  repeat match goal with |- ForallOrdPairs _ _ => constructor | |- Forall _ _ => constructor end; by left.
Qed.

Lemma w_linked : linked_image wROEND wEND.
Proof. by repeat split. Qed.

Lemma w_booted : booted wL wROEND wEND wS.
Proof.
  apply booted_init. change wROEND with (PML2_PAGESIZE * Z.of_nat 2).
  change wEND with (PML2_PAGESIZE * Z.of_nat 4). apply initKernelSpaceCommon_run; (lia || reflexivity).
Qed.

Lemma kernel_layout_witness :
  ∃ e o, access wL wS (KERNELMEM_ADDR + 0x234567) = Some (e, o) ∧ PTE.getAddr e + o = 0x234567 ∧
    PTE.writeable e = false.
Proof.
  apply (proj1 (kernel_layout wL wROEND wEND w_linked wL_ok wS w_booted) 0x234567). by split.
Defined.

Lemma kernel_code_protected_witness : PTE.userMode 0x2000e1 = false ∧ PTE.writeable 0x2000e1 = false.
Proof.
  destruct (kernel_code_protected wL wROEND wEND w_linked wL_ok wS (VIRT_ADDR + 0x200010) 0x2000e1 0x10)
    as [Hu Hw]; [exact w_booted|by split|vm_compute; reflexivity|].
  split; [exact Hu|]. apply Hw. by split.
Defined.

Lemma kernel_stack_aliased_witness :
  ∃ s' e, initKernelStack 7 0x700000 wS = Done 0xffff800100218000 s' ∧
    access wL s' 0xffff800100217000 = Some (e, 0) ∧ access wL s' 0xffff800100216000 = Some (e, 0) ∧
    access wL s' 0xffff800100215000 = None.
Proof.
  destruct (kernel_stack_aliased wL wROEND wEND w_linked wL_ok wS 7 0x700000)
    as (s' & top & e & Hrun & -> & _ & _ & Hacc); [exact w_booted|by split| |].
  { split; [done|]. split; [by split|by right]. }
  exists s', e. split; [exact Hrun|]. exact (Hacc 0 ltac:(lia)).
Defined.

Definition w_table : Z := KERNELMEM_ADDR + 0x30000.
Definition w_space : space := mkSpace ∅ (words wL wS).

Lemma w_table_new j : 0 ≤ j < 512 → words wL wS !! (w_table + 8 * j) = None.
Proof.
  intros Hj. apply store_arrays_none. unfold arrays.
  repeat match goal with |- Forall _ _ => constructor end; cbn [fst];
    match goal with |- _ < kaddr ?a => let v := eval vm_compute in (kaddr a) in change (kaddr a) with v end;
    change w_table with 0xffff800000030000; lia.
Qed.

Lemma w_words : words wL wS ⊆ ptes w_space.
Proof. change (ptes w_space) with (words wL wS). reflexivity. Qed.

Lemma new_root_kernel_half_witness :
  ∃ σ' : space, PageMap_init (boot_pml4 wS) sp_map 4 w_table (KERNELMEM_ADDR + 0x40000) w_space = Done tt σ' ∧
    translate (ptes σ') 4 w_table (KERNELMEM_ADDR mod 2 ^ 48) = access wL wS KERNELMEM_ADDR ∧
    translate (ptes σ') 4 w_table 0x1000 = None.
Proof.
  destruct (new_root_kernel_half wL wROEND wEND w_linked wL_ok wS sp_map w_table (KERNELMEM_ADDR + 0x40000)
    w_space) as (σ' & Hrun & Hup & Hlo); [exact w_booted|reflexivity|reflexivity|exact w_words|exact w_table_new|].
  exists σ'. split; [exact Hrun|]. split; [apply Hup; by split|apply Hlo; by split].
Defined.

End Example.
End KernelSpace.
