(* ===== verification/LinkedList.v ===== *)
(** * The intrusive FIFO queue

    Models util/linked-list/util/LinkedList.hh: a singly linked list with a
    pointer to the last [next] field, so that elements are appended and taken
    from the front in constant time and removed from anywhere.  Its clients are
    the event queue of an execution context, the ready queue of a scheduling
    context and the sinks of a signal source; what they rely on is the class
    [Fifo], which the list implements.

    Every operation holds the mutex of the list, so an operation is one function
    from state to state.  An element is in at most one list at a time: the
    [next] fields are part of the list that holds the element. *)

From stdpp Require Import base tactics numbers list gmap.
From Stdlib Require Import ZArith Lia.
From S2P Require Import Prelude.

Local Open Scope Z_scope.

(** ** What clients rely on *)

Class Fifo (Q : Type) := {
  contents : Q → list Z → Prop;
  q_new : Q;
  q_empty : Q → bool;
  q_push : Z → Q → option Q;
  q_pull : Q → Z * Q;
  q_remove : Z → Q → option (bool * Q);
  q_items : Q → option (list Z);
  contents_new : contents q_new [];
  contents_items q l : contents q l → q_items q = Some l;
  contents_nodup q l : contents q l → NoDup l ∧ 0 ∉ l;
  contents_empty q l : contents q l → q_empty q = bool_decide (l = []);
  contents_push q l x : contents q l → x ≠ 0 → x ∉ l →
    ∃ q', q_push x q = Some q' ∧ contents q' (l ++ [x]);
  contents_pull_nil q : contents q [] → q_pull q = (0, q);
  contents_pull q l x : contents q (x :: l) →
    ∃ q', q_pull q = (x, q') ∧ contents q' l;
  contents_remove q l x : contents q l → x ≠ 0 →
    ∃ q', q_remove x q = Some (bool_decide (x ∈ l), q') ∧
          contents q' (filter (.≠ x) l)
}.

(** ** The list *)

Module FifoList.

(** [LinkedList] with the [next] fields of its elements; [tail] is the address
    of [head] for [None] and of the [next] field of an element for [Some],
    util/linked-list/util/LinkedList.hh:144-146 *)
Record LinkedList := mkList { head : Z; tail : option Z; nexts : gmap Z Z }.

(** [Queueable::next], util/linked-list/util/LinkedList.hh:58 *)
Definition next (q : LinkedList) (item : Z) : Z := default 0 (nexts q !! item).

(** [LinkedList::LinkedList], util/linked-list/util/LinkedList.hh:41 *)
Definition newList : LinkedList := mkList 0 None ∅.

(** [LinkedList::empty], util/linked-list/util/LinkedList.hh:65 *)
Definition empty (q : LinkedList) : bool := head q =? 0.

(** [LinkedList::peek], util/linked-list/util/LinkedList.hh:101 *)
Definition peek (q : LinkedList) : Z := head q.

(** The assignment to [head] followed by the reset of [tail] when the list got
    empty, util/linked-list/util/LinkedList.hh:130-131 *)
Definition set_head (h : Z) (q : LinkedList) : LinkedList :=
  mkList h (if h =? 0 then None else tail q) (nexts q).

(** [LinkedList::_pull], util/linked-list/util/LinkedList.hh:126-134 *)
Definition _pull (q : LinkedList) : Z * LinkedList :=
  if negb (head q =? 0) then (head q, set_head (next q (head q)) q) else (0, q).

(** [*tail = item], util/linked-list/util/LinkedList.hh:140 *)
Definition store_tail (item : Z) (q : LinkedList) : LinkedList :=
  match tail q with
  | None => mkList item (tail q) (nexts q)
  | Some last => mkList (head q) (tail q) (<[last := item]> (nexts q))
  end.

(** [LinkedList::_push], [None] when the assertion fails,
    util/linked-list/util/LinkedList.hh:136-142 *)
Definition _push (item : Z) (q : LinkedList) : option LinkedList :=
  if item =? 0 then None
  else
    let q := mkList (head q) (tail q) (<[item := 0]> (nexts q)) in
    let q := store_tail item q in
    Some (mkList (head q) (Some item) (nexts q)).

(** [LinkedList::push] and [LinkedList::pull], util/linked-list/util/LinkedList.hh:67-74 *)
Definition push := _push.
Definition pull := _pull.

(** [LinkedList::rotate], util/linked-list/util/LinkedList.hh:76-84 *)
Definition rotate (q : LinkedList) : option (Z * LinkedList) :=
  let '(res, q) := _pull q in
  if negb (res =? 0) then q ← _push res q; Some (res, q) else Some (res, q).

(** [LinkedList::map]: the values passed to the function, in order; [None]
    when the fuel is too small for the chain,
    util/linked-list/util/LinkedList.hh:89-99 *)
Fixpoint map_from (fuel : nat) (q : LinkedList) (cur : Z) : option (list Z) :=
  if cur =? 0 then Some []
  else match fuel with
       | O => None
       | S fuel => cons cur <$> map_from fuel q (next q cur)
       end.
Definition map (fuel : nat) (q : LinkedList) : option (list Z) := map_from fuel q (head q).

(** The search for the predecessor in [LinkedList::remove],
    util/linked-list/util/LinkedList.hh:111-119 *)
Fixpoint remove_from (fuel : nat) (item : Z) (q : LinkedList) (cur : Z)
    : option (bool * LinkedList) :=
  if cur =? 0 then Some (false, q)
  else match fuel with
       | O => None
       | S fuel =>
         if next q cur =? item then
           Some (true, mkList (head q)
                         (if decide (tail q = Some item) then Some cur else tail q)
                         (<[cur := next q item]> (nexts q)))
         else remove_from fuel item q (next q cur)
       end.

(** [LinkedList::remove], util/linked-list/util/LinkedList.hh:103-122 *)
Definition remove (fuel : nat) (item : Z) (q : LinkedList) : option (bool * LinkedList) :=
  if head q =? item then Some (true, set_head (next q item) q)
  else remove_from fuel item q (head q).

(** ** Representation *)

(** The elements reached from a pointer along [next] are [l]. *)
Fixpoint chain (nx : gmap Z Z) (p : Z) (l : list Z) : Prop :=
  match l with
  | [] => p = 0
  | x :: l => p = x ∧ x ≠ 0 ∧ ∃ n, nx !! x = Some n ∧ chain nx n l
  end.

Definition repr (q : LinkedList) (l : list Z) : Prop :=
  chain (nexts q) (head q) l ∧ NoDup l ∧ tail q = last l.

Lemma chain_nonzero nx p l : chain nx p l → 0 ∉ l.
Proof.
  revert p. induction l as [|x l IH]; intros p; [intros _; apply not_elem_of_nil|].
  intros (_ & Hx & n & _ & Hc). apply not_elem_of_cons. split; [done | by eapply IH].
Qed.

Lemma chain_head nx p x l : chain nx p (x :: l) → p = x ∧ x ≠ 0.
Proof. by intros (-> & ? & _). Qed.

Lemma chain_next q p x l : chain (nexts q) p (x :: l) → chain (nexts q) (next q x) l.
Proof. unfold next. by intros (_ & _ & n & -> & ?). Qed.

Lemma chain_insert nx p l a v : a ∉ l → chain nx p l → chain (<[a := v]> nx) p l.
Proof.
  revert p. induction l as [|x l IH]; intros p Ha; [done|].
  apply not_elem_of_cons in Ha as [Ha Hl]. intros (-> & Hx & n & Hn & Hc).
  split; [done|]. split; [done|]. exists n. rewrite lookup_insert_ne by done. auto.
Qed.

(** Redirecting the [next] field of [c] replaces everything behind [c]. *)
Lemma chain_splice nx p l1 c l2 v l3 :
  NoDup (l1 ++ c :: l2) → c ∉ l3 → chain nx p (l1 ++ c :: l2) → chain nx v l3 →
  chain (<[c := v]> nx) p (l1 ++ c :: l3).
Proof.
  revert p. induction l1 as [|x l1 IH]; intros p Hnd Hc; cbn [app].
  - intros (-> & Hx & _) Hv. split; [done|]. split; [done|].
    exists v. rewrite lookup_insert_eq. split; [done|]. by apply chain_insert.
  - cbn [app] in Hnd. apply NoDup_cons in Hnd as [Hx Hnd].
    intros (-> & Hz & n & Hn & Hch) Hv. split; [done|]. split; [done|].
    exists n. rewrite lookup_insert_ne by (intros ->; apply Hx; set_solver). auto.
Qed.

(** The part of a chain behind an element. *)
Lemma chain_suffix nx p l1 c l2 :
  chain nx p (l1 ++ c :: l2) → ∃ n, nx !! c = Some n ∧ chain nx n l2.
Proof.
  revert p. induction l1 as [|x l1 IH]; intros p; cbn [app].
  - intros (_ & _ & n & ? & ?). eauto.
  - intros (_ & _ & n & _ & Hc). by eapply IH.
Qed.

Lemma next_suffix q p l1 c l2 :
  chain (nexts q) p (l1 ++ c :: l2) → ∃ n, next q c = n ∧ chain (nexts q) n l2.
Proof. intros (n & Hn & ?)%chain_suffix. exists n. unfold next. by rewrite Hn. Qed.

(** ** The operations on the sequence *)

Lemma repr_new : repr newList [].
Proof. split; [done|]. split; [apply NoDup_nil_2 | done]. Qed.

Lemma repr_empty q l : repr q l → empty q = bool_decide (l = []).
Proof.
  unfold empty. intros (Hc & _ & _). destruct l as [|x l].
  - cbn in Hc. by rewrite Hc.
  - apply chain_head in Hc as [-> Hx]. by rewrite (proj2 (Z.eqb_neq x 0) Hx).
Qed.

Lemma repr_push q l x :
  repr q l → x ≠ 0 → x ∉ l → ∃ q', _push x q = Some q' ∧ repr q' (l ++ [x]).
Proof.
  intros (Hc & Hnd & Ht) Hx Hl. unfold _push. rewrite (proj2 (Z.eqb_neq x 0) Hx).
  eexists. split; [reflexivity|].
  assert (Hx0 : chain (<[x := 0]> (nexts q)) x [x])
    by (split; [done|]; split; [done|]; exists 0; by rewrite lookup_insert_eq).
  split; [|split; [|by rewrite last_snoc]].
  2: { apply NoDup_app. split_and!; [done|set_solver|apply NoDup_singleton]. }
  unfold store_tail. cbn. rewrite Ht. destruct (last l) as [y|] eqn:Hy; cbn.
  - apply last_Some in Hy as [l' ->]. rewrite <- app_assoc. cbn [app].
    eapply chain_splice; [exact Hnd|set_solver|by apply chain_insert|done].
  - by apply last_None in Hy as ->.
Qed.

Lemma repr_set_head q x l : repr q (x :: l) → repr (set_head (next q x) q) l.
Proof.
  intros (Hc & Hnd & Ht). apply NoDup_cons in Hnd as [_ Hnd].
  pose proof (chain_next _ _ _ _ Hc) as Hn.
  split; [exact Hn|]. split; [done|]. cbn. rewrite Ht. destruct l as [|y l].
  - cbn in Hn. by rewrite Hn.
  - apply chain_head in Hn as [-> Hy]. by rewrite (proj2 (Z.eqb_neq y 0) Hy).
Qed.

Lemma repr_pull_nil q : repr q [] → _pull q = (0, q).
Proof. intros (Hc & _). cbn in Hc. unfold _pull. by rewrite Hc. Qed.

Lemma repr_pull q l x : repr q (x :: l) → ∃ q', _pull q = (x, q') ∧ repr q' l.
Proof.
  intros Hr. pose proof Hr as (Hc & _). apply chain_head in Hc as [Hh Hx].
  unfold _pull. rewrite Hh, (proj2 (Z.eqb_neq x 0) Hx). cbn [negb].
  eexists. split; [done|]. by apply repr_set_head.
Qed.

(** The search from an element [c] that is not the one to remove. *)
Lemma remove_from_spec q x l2 : ∀ fuel l1 c,
  repr q (l1 ++ c :: l2) → x ∉ l1 ++ [c] → x ≠ 0 → (length l2 < fuel)%nat →
  ∃ q', remove_from fuel x q c = Some (bool_decide (x ∈ l2), q') ∧
        repr q' (l1 ++ c :: filter (.≠ x) l2).
Proof.
  induction l2 as [|y l2 IH]; intros fuel l1 c Hr Hx Hx0 Hf;
    (destruct fuel as [|fuel]; [cbn in Hf; lia|]); pose proof Hr as (Hc & Hnd & Ht);
    pose proof (chain_nonzero _ _ _ Hc) as Hc0; cbn [remove_from];
    rewrite (proj2 (Z.eqb_neq c 0)) by set_solver;
    destruct (next_suffix _ _ _ _ _ Hc) as (n & Hn & Hch); rewrite Hn.
  - cbn in Hch. rewrite Hch, (proj2 (Z.eqb_neq 0 x)) by done.
    destruct fuel; eexists; (split; [reflexivity|done]).
  - apply chain_head in Hch as Hh. destruct Hh as [-> Hy].
    destruct (Z.eqb_spec y x) as [->|Hne].
    + clear IH. apply NoDup_app in Hnd as Hnd'. destruct Hnd' as (_ & _ & Hnd').
      apply NoDup_cons in Hnd' as [Hcx Hnd']. apply NoDup_cons in Hnd' as [Hxl _].
      rewrite bool_decide_true by set_solver. eexists. split; [reflexivity|].
      rewrite filter_cons_False by (intros Hn'; by apply Hn').
      rewrite filter_absent by done.
      split; [|split].
      * cbn. eapply chain_splice; [exact Hnd|set_solver|exact Hc|].
        unfold next. destruct Hch as (_ & _ & n' & -> & ?). done.
      * eapply sublist_NoDup; [exact Hnd|]. apply sublist_app; [done|].
        do 2 constructor. done.
      * cbn. rewrite Ht, last_app_cons, last_cons_cons.
        destruct l2 as [|z l2]; cbn [last].
        -- rewrite decide_True by done. by rewrite last_snoc.
        -- rewrite last_app_cons, last_cons_cons.
           rewrite decide_False; [done|]. intros Hl. apply last_Some_elem_of in Hl. done.
    + rewrite filter_cons_True by done.
      destruct (IH fuel (l1 ++ [c]) y) as (q' & Hq' & Hr').
      * by rewrite <- app_assoc.
      * rewrite <- app_assoc. set_solver.
      * done.
      * cbn in Hf. lia.
      * rewrite <- app_assoc in Hr'. exists q'. split; [|done]. rewrite Hq'.
        do 2 f_equal. apply bool_decide_ext. set_solver.
Qed.

Lemma repr_remove q l x fuel :
  repr q l → x ≠ 0 → (length l ≤ fuel)%nat →
  ∃ q', remove fuel x q = Some (bool_decide (x ∈ l), q') ∧ repr q' (filter (.≠ x) l).
Proof.
  intros Hr Hx Hf. unfold remove. pose proof Hr as (Hc & Hnd & _).
  destruct l as [|c l].
  - cbn in Hc. rewrite Hc, (proj2 (Z.eqb_neq 0 x)) by done.
    exists q. by destruct fuel.
  - apply chain_head in Hc as [-> Hc0]. destruct (Z.eqb_spec c x) as [->|Hne].
    + apply NoDup_cons in Hnd as [Hxl _]. rewrite bool_decide_true by set_solver.
      rewrite filter_cons_False by (intros Hn; by apply Hn). rewrite filter_absent by done.
      eexists. split; [done|]. by apply repr_set_head.
    + destruct (remove_from_spec q x l fuel [] c) as (q' & Hq' & Hr'); [done|set_solver|done|done|].
      rewrite filter_cons_True by done. exists q'. split; [|done]. rewrite Hq'.
      do 2 f_equal. apply bool_decide_ext. set_solver.
Qed.

Lemma map_from_spec q l : ∀ fuel p,
  chain (nexts q) p l → (length l ≤ fuel)%nat → map_from fuel q p = Some l.
Proof.
  induction l as [|x l IH]; intros fuel p Hc Hf.
  - cbn in Hc. subst p. by destruct fuel.
  - pose proof (chain_next _ _ _ _ Hc) as Hn. apply chain_head in Hc as [-> Hx].
    destruct fuel as [|fuel]; [cbn in Hf; lia|]. cbn [map_from].
    rewrite (proj2 (Z.eqb_neq x 0) Hx), (IH fuel); [done|done|cbn in Hf; lia].
Qed.

(** The elements of a list are among those that have a [next] field, so that
    their number is enough fuel. *)
Lemma repr_size q l : repr q l → (length l ≤ size (nexts q))%nat.
Proof.
  intros (Hc & Hnd & _). rewrite <- (size_list_to_set (C := gset Z)) by done.
  rewrite <- size_dom. apply subseteq_size. intros x Hx. apply elem_of_list_to_set in Hx.
  apply list_elem_of_split in Hx as (l1 & l2 & ->).
  apply chain_suffix in Hc as (n & Hn & _). by apply elem_of_dom_2 in Hn.
Qed.

Lemma repr_remove_size q l x :
  repr q l → x ≠ 0 →
  ∃ q', remove (size (nexts q)) x q = Some (bool_decide (x ∈ l), q') ∧
        repr q' (filter (.≠ x) l).
Proof. intros Hr Hx. apply repr_remove; [done|done|]. by apply repr_size. Qed.

Lemma repr_items q l : repr q l → map (size (nexts q)) q = Some l.
Proof. intros Hr. apply map_from_spec; [apply Hr|]. by apply repr_size. Qed.

#[export] Instance LinkedList_fifo : Fifo LinkedList := {
  contents := repr; q_new := newList; q_empty := empty;
  q_push := push; q_pull := pull; q_remove x q := remove (size (nexts q)) x q;
  q_items q := map (size (nexts q)) q;
  contents_new := repr_new; contents_items := repr_items;
  contents_nodup q l H := conj (proj1 (proj2 H)) (chain_nonzero _ _ _ (proj1 H));
  contents_empty := repr_empty; contents_push := repr_push;
  contents_pull_nil := repr_pull_nil; contents_pull := repr_pull;
  contents_remove := repr_remove_size
}.

(** ** Sequences of operations *)

Inductive listOp := OPush (x : Z) | OPull | ORotate | ORemove (x : Z) | OEmpty | OPeek | OMap.
Inductive listRes := RNone | RItem (x : Z) | RBool (b : bool) | RItems (l : list Z).

(** An operation on the linked list; [None] when an assertion fails or the
    chain is longer than [fuel]. *)
Definition run (fuel : nat) (op : listOp) (q : LinkedList) : option (listRes * LinkedList) :=
  match op with
  | OPush x => q ← push x q; Some (RNone, q)
  | OPull => let '(x, q) := pull q in Some (RItem x, q)
  | ORotate => '(x, q) ← rotate q; Some (RItem x, q)
  | ORemove x => '(b, q) ← remove fuel x q; Some (RBool b, q)
  | OEmpty => Some (RBool (empty q), q)
  | OPeek => Some (RItem (peek q), q)
  | OMap => l ← map fuel q; Some (RItems l, q)
  end.

(** The same operation on the sequence of elements. *)
Definition spec (op : listOp) (l : list Z) : listRes * list Z :=
  match op with
  | OPush x => (RNone, l ++ [x])
  | OPull => (RItem (hd 0 l), tl l)
  | ORotate => (RItem (hd 0 l),
                tl l ++ take 1 l)
  | ORemove x => (RBool (bool_decide (x ∈ l)), filter (.≠ x) l)
  | OEmpty => (RBool (bool_decide (l = [])), l)
  | OPeek => (RItem (hd 0 l), l)
  | OMap => (RItems l, l)
  end.

(** The caller's side of the contract: no null pointer, no element twice. *)
Definition legal (op : listOp) (l : list Z) : bool :=
  match op with
  | OPush x => bool_decide (x ≠ 0 ∧ x ∉ l)
  | ORemove x => bool_decide (x ≠ 0)
  | _ => true
  end.

Fixpoint runs (fuel : nat) (ops : list listOp) (q : LinkedList)
    : option (list listRes * LinkedList) :=
  match ops with
  | [] => Some ([], q)
  | op :: ops => '(r, q) ← run fuel op q; '(rs, q) ← runs fuel ops q; Some (r :: rs, q)
  end.

Fixpoint specs (ops : list listOp) (l : list Z) : list listRes * list Z :=
  match ops with
  | [] => ([], l)
  | op :: ops => let '(r, l) := spec op l in let '(rs, l) := specs ops l in (r :: rs, l)
  end.

Fixpoint legals (ops : list listOp) (l : list Z) : bool :=
  match ops with
  | [] => true
  | op :: ops => legal op l && legals ops (spec op l).2
  end.

Lemma run_refines fuel op q l :
  repr q l → legal op l = true → (length l ≤ fuel)%nat →
  ∃ q', run fuel op q = Some ((spec op l).1, q') ∧ repr q' (spec op l).2.
Proof.
  intros Hr Hl Hf. destruct op as [x| | |x| | |]; cbn [run spec fst snd].
  - apply bool_decide_eq_true in Hl as [Hx Hxl].
    destruct (repr_push q l x Hr Hx Hxl) as (q' & Hq & ?). unfold push. rewrite Hq. by exists q'.
  - destruct l as [|x l]; unfold pull.
    + rewrite (repr_pull_nil q Hr). by exists q.
    + destruct (repr_pull q l x Hr) as (q' & -> & ?). by exists q'.
  - unfold rotate. destruct l as [|x l].
    + rewrite (repr_pull_nil q Hr). by exists q.
    + destruct (repr_pull q l x Hr) as (q' & -> & Hr').
      destruct Hr as (Hc & [Hxl _]%NoDup_cons & _). apply chain_head in Hc as [_ Hx].
      rewrite (proj2 (Z.eqb_neq x 0) Hx). cbn [negb].
      destruct (repr_push q' l x Hr' Hx Hxl) as (q2 & Hq2 & ?). rewrite Hq2. by exists q2.
  - apply bool_decide_eq_true in Hl.
    destruct (repr_remove q l x fuel Hr Hl Hf) as (q' & Hq & ?). rewrite Hq. by exists q'.
  - exists q. by rewrite (repr_empty q l Hr).
  - exists q. split; [|done]. do 3 f_equal. destruct Hr as (Hc & _), l as [|x l]; [done|].
    by apply chain_head in Hc as [? _].
  - unfold map. destruct Hr as (Hc & ?). rewrite (map_from_spec q l fuel _ Hc Hf). by exists q.
Qed.

Lemma spec_length op l : (length (spec op l).2 ≤ Datatypes.S (length l))%nat.
Proof.
  destruct op as [x| | |x| | |]; cbn [spec snd]; try lia.
  - rewrite length_app. cbn. lia.
  - destruct l; cbn; lia.
  - rewrite length_app, length_take. destruct l; cbn; lia.
  - pose proof (length_filter (.≠ x) l). lia.
Qed.

(** C33: the linked list is a FIFO queue: every sequence of operations gives the
    same results as on the plain sequence of elements, the elements leave in
    the order in which they came, [remove] takes out the one element that is
    asked for and nothing else, and the loops over the list end after at most
    one step per element. *)
Theorem linked_list_refines ops fuel q l :
  repr q l → legals ops l = true → (length l + length ops ≤ fuel)%nat →
  ∃ q', runs fuel ops q = Some ((specs ops l).1, q') ∧ repr q' (specs ops l).2.
Proof.
  revert q l. induction ops as [|op ops IH]; intros q l Hr Hl Hf; [by exists q|].
  cbn [legals] in Hl. apply andb_prop in Hl as [Hl Hls]. cbn [length] in Hf.
  destruct (run_refines fuel op q l Hr Hl ltac:(lia)) as (q1 & Hq1 & Hr1).
  pose proof (spec_length op l).
  cbn [runs specs]. rewrite Hq1. destruct (spec op l) as [r l1] eqn:E. cbn [fst snd] in *.
  destruct (IH q1 l1 Hr1 Hls ltac:(lia)) as (q' & Hq' & Hr'). cbn. rewrite Hq'.
  destruct (specs ops l1). by exists q'.
Qed.

Lemma linked_list_refines_witness :
  ∃ q', runs 9 [OPush 16; OPush 32; OPush 48; ORemove 48; OPush 64; ORotate; OPull; OEmpty; OMap]
          newList = Some ([RNone; RNone; RNone; RBool true; RNone; RItem 16; RItem 32; RBool false;
                           RItems [64; 16]], q') ∧ repr q' [64; 16].
Proof.
  apply (linked_list_refines
    [OPush 16; OPush 32; OPush 48; ORemove 48; OPush 64; ORotate; OPull; OEmpty; OMap] 9 newList []).
  - split; [reflexivity|]. split; [apply NoDup_nil_2 | reflexivity].
  - vm_compute. reflexivity.
  - vm_compute. lia.
Defined.

End FifoList.
