(* ===== verification/Threads.v ===== *)
(** * Execution contexts and scheduling contexts

    Models objects/execution-context/objects/ExecutionContext.hh and .cc,
    objects/scheduling-context/objects/SchedulingContext.hh and .cc and the
    entry points of objects/common/objects/ISchedulable.hh: threads as kernel
    objects, their blocking flags, events and registers, and the scheduler that
    selects one of them for a hardware thread.

    Calls that leave these components are interfaces: [Invocations] for the
    message that is processed, [KEventSources] and [SignalSinks] for the objects
    that are queued at a thread, [Portals] for the portal of a system call.
    Messages to other hardware threads and to the user are recorded in the
    state as events in the order in which they are sent. *)

From stdpp Require Import base tactics numbers list gmap.
From Stdlib Require Import ZArith Lia.
From S2P Require Import Prelude Ranges Bitfield Cap CapEntry CapRing CapSteps CapOps Heap KernelMemory CapMap Frame PageTable PageMap LinkedList.

Local Open Scope Z_scope.
Import PhysPtr.

(** ** Flags *)

(** [ExecutionContext::Flags], objects/execution-context/objects/ExecutionContext.hh:58-72 *)
Definition IS_WAITING : Z := Z.shiftl 1 0.
Definition IS_TRAPPED : Z := Z.shiftl 1 1.
Definition NO_AS : Z := Z.shiftl 1 2.
Definition NO_SCHED : Z := Z.shiftl 1 3.
Definition IN_WAIT : Z := Z.shiftl 1 5.
Definition IS_NOTIFIED : Z := Z.shiftl 1 6.
Definition REGISTER_ACCESS : Z := Z.shiftl 1 7.
Definition NOT_LOADED : Z := Z.shiftl 1 8.
Definition DONT_PREEMPT : Z := Z.shiftl 1 9.
Definition NOT_RUNNING : Z := Z.shiftl 1 10.
Definition BLOCK_MASK : Z :=
  Z.lor (Z.lor (Z.lor (Z.lor IS_WAITING IS_TRAPPED) NO_AS) NO_SCHED) REGISTER_ACCESS.

(** [flag_t(~f)], objects/execution-context/objects/ExecutionContext.hh:163 *)
Definition inv_flags (f : Z) : Z := u16 (Z.lnot f).

(** [ExecutionContext::isBlocked], objects/execution-context/objects/ExecutionContext.hh:166 *)
Definition isBlocked (f : Z) : bool := negb (Z.land f BLOCK_MASK =? 0).

(** [ExecutionContext::needPreemption], objects/execution-context/objects/ExecutionContext.hh:167 *)
Definition needPreemption (f : Z) : bool := Z.land f DONT_PREEMPT =? 0.

Definition has_flag (f b : Z) : bool := negb (Z.land f b =? 0).

(** ** Registers *)

(** [cpu::ThreadState], cpu/kernel-entry-amd64/cpu/kernel_entry.hh:45-60 *)
Record ThreadState := mkTS {
  rip : Z; rflags : Z; rsp : Z; rbp : Z; rbx : Z; r12 : Z; r13 : Z; r14 : Z; r15 : Z;
  fs_base : Z; gs_base : Z; rax : Z; rcx : Z; rdx : Z; rdi : Z; rsi : Z;
  r8 : Z; r9 : Z; r10 : Z; r11 : Z; irq : Z; error : Z; cr2 : Z; maySysret : Z }.

(** [ThreadState::clear], cpu/kernel-entry-amd64/cpu/kernel_entry.hh:48 *)
Definition TS_clear : ThreadState := mkTS 0 0 0 0 0 0 0 0 0 0 0 0 0 0 0 0 0 0 0 0 0 0 0 0.

Definition with_rdi (v : Z) (t : ThreadState) : ThreadState :=
  mkTS (rip t) (rflags t) (rsp t) (rbp t) (rbx t) (r12 t) (r13 t) (r14 t) (r15 t) (fs_base t)
    (gs_base t) (rax t) (rcx t) (rdx t) v (rsi t) (r8 t) (r9 t) (r10 t) (r11 t) (irq t) (error t)
    (cr2 t) (maySysret t).
Definition with_rsi (v : Z) (t : ThreadState) : ThreadState :=
  mkTS (rip t) (rflags t) (rsp t) (rbp t) (rbx t) (r12 t) (r13 t) (r14 t) (r15 t) (fs_base t)
    (gs_base t) (rax t) (rcx t) (rdx t) (rdi t) v (r8 t) (r9 t) (r10 t) (r11 t) (irq t) (error t)
    (cr2 t) (maySysret t).
Definition with_rip (v : Z) (t : ThreadState) : ThreadState :=
  mkTS v (rflags t) (rsp t) (rbp t) (rbx t) (r12 t) (r13 t) (r14 t) (r15 t) (fs_base t)
    (gs_base t) (rax t) (rcx t) (rdx t) (rdi t) (rsi t) (r8 t) (r9 t) (r10 t) (r11 t) (irq t)
    (error t) (cr2 t) (maySysret t).
Definition with_rflags (v : Z) (t : ThreadState) : ThreadState :=
  mkTS (rip t) v (rsp t) (rbp t) (rbx t) (r12 t) (r13 t) (r14 t) (r15 t) (fs_base t)
    (gs_base t) (rax t) (rcx t) (rdx t) (rdi t) (rsi t) (r8 t) (r9 t) (r10 t) (r11 t) (irq t)
    (error t) (cr2 t) (maySysret t).
Definition with_bases (fs gs : Z) (t : ThreadState) : ThreadState :=
  mkTS (rip t) (rflags t) (rsp t) (rbp t) (rbx t) (r12 t) (r13 t) (r14 t) (r15 t) fs gs (rax t)
    (rcx t) (rdx t) (rdi t) (rsi t) (r8 t) (r9 t) (r10 t) (r11 t) (irq t) (error t) (cr2 t)
    (maySysret t).

(** [Amd64Registers], mythos/invocation/mythos/protocol/ExecutionContext.hh:78-102 *)
Record Amd64Registers := mkRegs {
  g_rax : Z; g_rbx : Z; g_rcx : Z; g_rdx : Z; g_rdi : Z; g_rsi : Z; g_r8 : Z; g_r9 : Z;
  g_r10 : Z; g_r11 : Z; g_r12 : Z; g_r13 : Z; g_r14 : Z; g_r15 : Z; g_rip : Z; g_rsp : Z;
  g_rbp : Z; g_fs_base : Z; g_gs_base : Z; g_irq : Z; g_error : Z; g_cr2 : Z }.

(** The assignments of [ExecutionContext::setRegisters],
    objects/execution-context/objects/ExecutionContext.cc:284-300 *)
Definition copy_registers (g : Amd64Registers) (t : ThreadState) : ThreadState :=
  mkTS (g_rip g) (rflags t) (g_rsp g) (g_rbp g) (g_rbx g) (g_r12 g) (g_r13 g) (g_r14 g) (g_r15 g)
    (fs_base t) (gs_base t) (g_rax g) (g_rcx g) (g_rdx g) (g_rdi g) (g_rsi g) (g_r8 g) (g_r9 g)
    (g_r10 g) (g_r11 g) (irq t) (error t) (cr2 t) (maySysret t).

(** The registers of the message that [ExecutionContext::readThreadRegisters]
    writes; the members it does not assign keep the 0 of the constructor,
    objects/execution-context/objects/ExecutionContext.cc:223-243 *)
Definition response_registers (t : ThreadState) : Amd64Registers :=
  mkRegs (rax t) (rbx t) (rcx t) (rdx t) (rdi t) (rsi t) (r8 t) (r9 t) (r10 t) 0 0 (r13 t) (r14 t)
    (r15 t) (rip t) (rsp t) (rbp t) (fs_base t) (gs_base t) (irq t) (error t) (cr2 t).

(** [x86::FLAG_IF], cpu/ctrlregs-amd64/cpu/ctrlregs.hh:186 *)
Definition FLAG_IF : Z := Z.shiftl 1 9.

(** [KEvent], mythos/invocation/mythos/KEvent.hh:35-54 *)
Record KEvent := mkKEvent { user : Z; ev_state : Z }.

(** ** State *)

(** The members of [ExecutionContext] that are not capability references,
    objects/execution-context/objects/ExecutionContext.hh:170-194 *)
Record EC (Q : Type) := mkEC {
  flags : Z; threadState : ThreadState; fpuState : Z; currentPlace : Z;
  eventQueue : Q; _sinkList : Q; msg : Z }.
Arguments mkEC {Q}. Arguments flags {Q}. Arguments threadState {Q}. Arguments fpuState {Q}.
Arguments currentPlace {Q}. Arguments eventQueue {Q}. Arguments _sinkList {Q}. Arguments msg {Q}.

(** [SchedulingContext], objects/scheduling-context/objects/SchedulingContext.hh:98-100 *)
Record SC (Q : Type) := mkSC { home : Z; readyQueue : Q; current_handle : Z }.
Arguments mkSC {Q}. Arguments home {Q}. Arguments readyQueue {Q}. Arguments current_handle {Q}.

(** What a hardware thread has loaded: [current_ec], [cpu::thread_state], the
    contents of the floating point registers and the page table register with
    its copy in the place, objects/common/objects/ISchedulable.hh:85 *)
Record Cpu := mkCpu { current_ec : Z; thread_state : Z; fpu : Z; cr3 : Z; threadID : Z }.

(** The closures that are sent to another hardware thread. *)
Inductive Task :=
  | SaveAndSetSched (ec msg : Z) (sce : Z)
  | ReadResponse (ec : Z)
  | WriteResponse (ec : Z)
  | SleepResponse (ec : Z).

Inductive Event :=
  | Preempt (place : Z)
  | Synchronous (place : Z)
  | RunAt (place : Z) (t : Task)
  | IdleSC (tid : Z)
  | LoadPageTable (place value : Z)
  | WroteRegisters (msg : Z) (resume : bool) (regs : Amd64Registers)
  | RequestDone (object : Z)
  | DeleteObject (object : Z)
  | DoDelete (object : Z)
  | UserOutput (addr copied written : Z).

Record Threads (Q : Type) := mkThreads {
  ecs : gmap Z (EC Q); scs : gmap Z (SC Q); cpus : gmap Z Cpu; localPlace : Z;
  events : list Event }.
Arguments mkThreads {Q}. Arguments ecs {Q}. Arguments scs {Q}. Arguments cpus {Q}.
Arguments localPlace {Q}. Arguments events {Q}.

(** A state that holds threads; the other parts of the state are independent. *)
Class HasThreads (Q S : Type) `{HasRefs S} := {
  threads : S → Threads Q;
  set_threads : Threads Q → S → S;
  threads_set t s : threads (set_threads t s) = t;
  set_threads_set t t' s : set_threads t (set_threads t' s) = set_threads t s;
  set_threads_id s : set_threads (threads s) s = s;
  threads_set_entries m s : threads (set_entries m s) = threads s;
  threads_set_orig r v s : threads (set_orig r v s) = threads s;
  orig_set_threads t s r : orig (set_threads t s) r = orig s r;
  entries_set_threads t s : entries (set_threads t s) = entries s;
  set_threads_entries t m s : set_threads t (set_entries m s) = set_entries m (set_threads t s)
}.

(** Addresses of the members of an execution context: its capability
    references and its list handle; [handle_ec] is [Queueable::get],
    objects/execution-context/objects/ExecutionContext.hh:173-180 *)
Class ThreadLayout := {
  as_ref : Z → Z; cs_ref : Z → Z; sched_ref : Z → Z;
  ec_handle : Z → Z; handle_ec : Z → Z;
  handle_ec_handle e : handle_ec (ec_handle e) = e;
  ec_handle_nonzero e : ec_handle e ≠ 0
}.

(** [IInvocation]: the reply, the lookup of a capability for the message and the
    text of [writeDebugInfo] in the message,
    objects/common/objects/IInvocation.hh:50-51 *)
Class Invocations (S : Type) := {
  replyResponse : Z → optional unit → kernel S unit;
  lookupEntry : Z → Z → kernel S (optional Z);
  writeDebugInfo : Z → Z → kernel S Error
}.

(** [IKEventSource], [ISignalSink], [IPortal] and [ISignalable] by the address of
    a list handle or an object, objects/common/objects/kevent.hh:48-54 *)
Class KEventSources (S : Type) := { deliverKEvent : Z → kernel S KEvent }.
Class SignalSinks (S : Type) := { signalChanged : Z → Z → kernel S unit }.
Class Portals (S : Type) := {
  castPortal : Z → kernel S (optional Z);
  sendInvocation : Z → Z → Z → Z → kernel S (optional unit)
}.

Section threads.
Context {Q S : Type} `{Fifo Q} `{HasPageMaps S} `{KernelObjects S} `{HasCapMaps S}
  `{!HasRefs S} `{RefSubjects S} `{!HasThreads Q S} `{ThreadLayout}.

(** ** Access *)

Definition set_ecs (m : gmap Z (EC Q)) (t : Threads Q) : Threads Q :=
  mkThreads m (scs t) (cpus t) (localPlace t) (events t).
Definition set_scs (m : gmap Z (SC Q)) (t : Threads Q) : Threads Q :=
  mkThreads (ecs t) m (cpus t) (localPlace t) (events t).
Definition set_cpus (m : gmap Z Cpu) (t : Threads Q) : Threads Q :=
  mkThreads (ecs t) (scs t) m (localPlace t) (events t).
Definition set_local (p : Z) (t : Threads Q) : Threads Q :=
  mkThreads (ecs t) (scs t) (cpus t) p (events t).
Definition add_event (e : Event) (t : Threads Q) : Threads Q :=
  mkThreads (ecs t) (scs t) (cpus t) (localPlace t) (events t ++ [e]).

Definition modify (f : Threads Q → Threads Q) : kernel S unit :=
  kmodify (λ s, set_threads (f (threads s)) s).

Definition get_ec (e : Z) : kernel S (EC Q) := λ s,
  match ecs (threads s) !! e with Some c => Done c s | None => AssertFail end.
Definition put_ec (e : Z) (c : EC Q) : kernel S unit :=
  modify (λ t, set_ecs (<[e := c]> (ecs t)) t).
Definition get_sc (a : Z) : kernel S (SC Q) := λ s,
  match scs (threads s) !! a with Some c => Done c s | None => AssertFail end.
Definition put_sc (a : Z) (c : SC Q) : kernel S unit :=
  modify (λ t, set_scs (<[a := c]> (scs t)) t).
Definition get_cpu (p : Z) : kernel S Cpu := λ s,
  match cpus (threads s) !! p with Some c => Done c s | None => AssertFail end.
Definition put_cpu (p : Z) (c : Cpu) : kernel S unit :=
  modify (λ t, set_cpus (<[p := c]> (cpus t)) t).
Definition getLocalPlace : kernel S Z := s <-- kget;; kret (localPlace (threads s)).
Definition emit (e : Event) : kernel S unit := modify (add_event e).

Definition with_flags (f : Z) (c : EC Q) : EC Q :=
  mkEC f (threadState c) (fpuState c) (currentPlace c) (eventQueue c) (_sinkList c) (msg c).
Definition with_threadState (t : ThreadState) (c : EC Q) : EC Q :=
  mkEC (flags c) t (fpuState c) (currentPlace c) (eventQueue c) (_sinkList c) (msg c).
Definition with_fpuState (v : Z) (c : EC Q) : EC Q :=
  mkEC (flags c) (threadState c) v (currentPlace c) (eventQueue c) (_sinkList c) (msg c).
Definition with_place (p : Z) (c : EC Q) : EC Q :=
  mkEC (flags c) (threadState c) (fpuState c) p (eventQueue c) (_sinkList c) (msg c).
Definition with_eventQueue (q : Q) (c : EC Q) : EC Q :=
  mkEC (flags c) (threadState c) (fpuState c) (currentPlace c) q (_sinkList c) (msg c).
Definition with_sinkList (q : Q) (c : EC Q) : EC Q :=
  mkEC (flags c) (threadState c) (fpuState c) (currentPlace c) (eventQueue c) q (msg c).
Definition with_msg (m : Z) (c : EC Q) : EC Q :=
  mkEC (flags c) (threadState c) (fpuState c) (currentPlace c) (eventQueue c) (_sinkList c) m.

Definition upd_ec (e : Z) (f : EC Q → EC Q) : kernel S unit := c <-- get_ec e;; put_ec e (f c).

(** Queue operations; the removal from a corrupted list does not end. *)
Definition k_push (x : Z) (q : Q) : kernel S Q :=
  match q_push x q with Some q => kret q | None => λ _, AssertFail end.
Definition k_remove (x : Z) (q : Q) : kernel S Q :=
  match q_remove x q with Some (_, q) => kret q | None => spin end.

(** [TypedCap] of a capability and of an optional entry,
    objects/capability-utils/objects/TypedCap.hh:89-94,110-120 *)
Definition typedCap {A} (castObj : Z → kernel S (optional A)) (c : Z)
    : kernel S (optional (Z * A)) :=
  if negb (isUsable c) then kret (THROW INVALID_CAPABILITY) else
  o <-- castObj (getPtr c);;
  match o with THROW e => kret (THROW e) | OK a => kret (OK (c, a)) end.

Definition typedEntry {A} (castObj : Z → kernel S (optional A)) (e : optional Z)
    : kernel S (optional (Z * A)) :=
  match e with THROW err => kret (THROW err) | OK a => c <-- cap a;; typedCap castObj c end.

Definition castPageMap (o : Z) : kernel S (optional Z) :=
  s <-- kget;; kret (match asPageMap s o with Some p => OK p | None => THROW TYPE_MISMATCH end).

(** [SchedulingContext::vcast], objects/scheduling-context/objects/SchedulingContext.hh:92-95 *)
Definition castScheduler (o : Z) : kernel S (optional Z) :=
  s <-- kget;;
  kret (match scs (threads s) !! o with Some _ => OK o | None => THROW TYPE_MISMATCH end).

(** ** Scheduling context *)

(** [SchedulingContext::unbind],
    objects/scheduling-context/objects/SchedulingContext.cc:43-55 *)
Definition SC_unbind (this h : Z) : kernel S unit :=
  kassert (negb (h =? 0));;;
  c <-- get_sc this;;
  q <-- k_remove h (readyQueue c);;
  put_sc this (mkSC (home c) q 0);;;
  if q_empty q then cpu <-- get_cpu (home c);; emit (IdleSC (threadID cpu)) else kret tt.

(** [SchedulingContext::ready],
    objects/scheduling-context/objects/SchedulingContext.cc:57-75 *)
Definition SC_ready (this h : Z) : kernel S unit :=
  kassert (negb (h =? 0));;;
  c <-- get_sc this;;
  let current := current_handle c in
  q <-- k_remove h (readyQueue c);;
  q <-- k_push h q;;
  put_sc this (mkSC (home c) q current);;;
  if (current =? 0) || (current =? h) then emit (Preempt (home c)) else kret tt.

(** ** Execution context: flags *)

(** [ExecutionContext::setFlags], objects/execution-context/objects/ExecutionContext.hh:162 *)
Definition setFlags (e f : Z) : kernel S Z :=
  c <-- get_ec e;; put_ec e (with_flags (Z.lor (flags c) f) c);;; kret (flags c).

(** [ExecutionContext::clearFlags], objects/execution-context/objects/ExecutionContext.hh:163 *)
Definition clearFlags (e f : Z) : kernel S Z :=
  c <-- get_ec e;; put_ec e (with_flags (Z.land (flags c) (inv_flags f)) c);;; kret (flags c).

(** [ExecutionContext::isReady], objects/execution-context/objects/ExecutionContext.hh:101 *)
Definition isReady (e : Z) : kernel S bool := c <-- get_ec e;; kret (negb (isBlocked (flags c))).

(** [SynchronousTask::atomic]: a closure for another place runs there while the
    sender waits, async/synchronous-task/async/SynchronousTask.hh:40-67 *)
Definition synchronousAt (place : Z) (fn : kernel S unit) : kernel S unit :=
  kassert (negb (place =? 0));;;
  me <-- getLocalPlace;;
  if place =? me then fn
  else
    emit (Synchronous place);;;
    modify (set_local place);;;
    fn;;;
    modify (set_local me).

(** [ExecutionContext::setFlagsSuspend],
    objects/execution-context/objects/ExecutionContext.cc:52-64 *)
Definition setFlagsSuspend (e f : Z) : kernel S unit :=
  prev <-- setFlags e (Z.lor f DONT_PREEMPT);;
  r <-- isReady e;;
  if needPreemption prev && negb r then
    c <-- get_ec e;;
    if negb (currentPlace c =? 0) then synchronousAt (currentPlace c) (kret tt) else kret tt
  else kret tt.

(** [ExecutionContext::clearFlagsResume],
    objects/execution-context/objects/ExecutionContext.cc:66-76 *)
Definition clearFlagsResume (e f : Z) : kernel S unit :=
  prev <-- clearFlags e f;;
  r <-- isReady e;;
  if isBlocked prev && r then
    c <-- CapRef_cap (sched_ref e);;
    if isUsable c then
      sched <-- castScheduler (getPtr c);;
      match sched with OK sc => SC_ready sc (ec_handle e) | THROW _ => kret tt end
    else kret tt
  else kret tt.

(** ** Address space, capability space and scheduler *)

(** [ExecutionContext::setAddressSpace],
    objects/execution-context/objects/ExecutionContext.cc:78-85 *)
Definition setAddressSpace (e : Z) (pme : optional Z) : kernel S (optional unit) :=
  obj <-- typedEntry castPageMap pme;;
  match obj, pme with
  | OK (c, p), OK entry =>
    info <-- getPageMapInfo p c;;
    if negb (i_level info =? 4) then kret (THROW INVALID_CAPABILITY)
    else CapRef_set (as_ref e) e entry c
  | THROW err, _ | _, THROW err => kret (THROW err)
  end.

(** [ExecutionContext::bind] and [unbind] of the address space,
    objects/execution-context/objects/ExecutionContext.cc:87-97 *)
Definition bind_as (e : Z) : kernel S unit := clearFlagsResume e NO_AS.
Definition unbind_as (e : Z) : kernel S unit := setFlagsSuspend e NO_AS.

(** [ExecutionContext::bind] of the scheduler,
    objects/execution-context/objects/ExecutionContext.cc:142-146 *)
Definition bind_sched (e : Z) : kernel S unit := clearFlagsResume e NO_SCHED.

(** [ExecutionContext::unbind] of the scheduler,
    objects/execution-context/objects/ExecutionContext.cc:148-154 *)
Definition unbind_sched (e : Z) (sched : optional Z) : kernel S unit :=
  match sched with
  | OK sc => setFlagsSuspend e NO_SCHED;;; SC_unbind sc (ec_handle e)
  | THROW _ => λ _, AssertFail
  end.

(** [ExecutionContext::setSchedulingContext] for the initial setup,
    objects/execution-context/objects/ExecutionContext.cc:99-106 *)
Definition setSchedulingContext_init (e : Z) (sce : optional Z) : kernel S (optional unit) :=
  c <-- get_ec e;;
  kassert (currentPlace c =? 0);;;
  obj <-- typedEntry castScheduler sce;;
  match obj, sce with
  | OK (c, _), OK entry => CapRef_set (sched_ref e) e entry c
  | THROW err, _ | _, THROW err => kret (THROW err)
  end.

(** [ExecutionContext::setSchedulingContext],
    objects/execution-context/objects/ExecutionContext.cc:108-134 *)
Definition setSchedulingContext (e msg : Z) (sce : optional Z) : kernel S (optional unit) :=
  obj <-- typedEntry castScheduler sce;;
  match obj, sce with
  | OK (c, _), OK entry =>
    ec <-- get_ec e;;
    let place := currentPlace ec in
    put_ec e (with_place 0 ec);;;
    if negb (place =? 0) then
      emit (RunAt place (SaveAndSetSched e msg entry));;;
      kret (THROW INHIBIT)
    else CapRef_set (sched_ref e) e entry c
  | THROW err, _ | _, THROW err => kret (THROW err)
  end.

(** [ExecutionContext::unsetSchedulingContext],
    objects/execution-context/objects/ExecutionContext.cc:136-140 *)
Definition unsetSchedulingContext (e : Z) : kernel S Error :=
  CapRef_reset (sched_ref e);;; kret SUCCESS.

(** [ExecutionContext::setCapSpace],
    objects/execution-context/objects/ExecutionContext.cc:156-163 *)
Definition setCapSpace (e : Z) (cse : optional Z) : kernel S (optional unit) :=
  obj <-- typedEntry castCapMap cse;;
  match obj, cse with
  | OK (c, _), OK entry => CapRef_set (cs_ref e) e entry c
  | THROW err, _ | _, THROW err => kret (THROW err)
  end.

(** [ExecutionContext::setEntryPoint],
    objects/execution-context/objects/ExecutionContext.cc:165-169 *)
Definition setEntryPoint (e v : Z) : kernel S unit :=
  upd_ec e (λ c, with_threadState (with_rip v (threadState c)) c).

(** [ExecutionContext::lookupRef]; 17 nested maps are enough for every lookup,
    objects/execution-context/objects/ExecutionContext.cc:171-176 *)
Definition EC_lookupRef (e ptr ptrDepth : Z) (writable : bool)
    : kernel S (optional CapEntryRef) :=
  c <-- CapRef_cap (cs_ref e);;
  cs <-- typedCap castCapMap c;;
  match cs with
  | THROW err => kret (THROW err)
  | OK (c, m) => lookup 17 m c ptr ptrDepth writable
  end.

(** ** Events and signals *)

(** [ExecutionContext::attachKEvent],
    objects/execution-context/objects/ExecutionContext.cc:365-370 *)
Definition attachKEvent (e event : Z) : kernel S unit :=
  c <-- get_ec e;;
  q <-- k_push event (eventQueue c);;
  put_ec e (with_eventQueue q c);;;
  clearFlagsResume e IS_WAITING.

(** [ExecutionContext::detachKEvent],
    objects/execution-context/objects/ExecutionContext.cc:372-375 *)
Definition detachKEvent (e event : Z) : kernel S unit :=
  c <-- get_ec e;;
  q <-- k_remove event (eventQueue c);;
  put_ec e (with_eventQueue q c).

(** [ExecutionContext::signal],
    objects/execution-context/objects/ExecutionContext.cc:485-491 *)
Definition EC_signal (e data : Z) : kernel S (optional unit) :=
  setFlags e IS_NOTIFIED;;;
  clearFlagsResume e IS_WAITING;;;
  kret (OK tt).

(** [ExecutionContext::attachSignalSink],
    objects/execution-context/objects/ExecutionContext.cc:493-496 *)
Definition attachSignalSink (e h : Z) : kernel S unit :=
  c <-- get_ec e;;
  q <-- k_push h (_sinkList c);;
  put_ec e (with_sinkList q c).

(** [ExecutionContext::detachSignalSink],
    objects/execution-context/objects/ExecutionContext.cc:498-501 *)
Definition detachSignalSink (e h : Z) : kernel S unit :=
  c <-- get_ec e;;
  q <-- k_remove h (_sinkList c);;
  put_ec e (with_sinkList q c).

Section sinks.
Context `{SignalSinks S}.

Fixpoint signal_all (signal : Z) (l : list Z) : kernel S unit :=
  match l with
  | [] => kret tt
  | h :: l => signalChanged h signal;;; signal_all signal l
  end.

(** [ExecutionContext::changeSignal],
    objects/execution-context/objects/ExecutionContext.cc:503-509 *)
Definition changeSignal (e signal : Z) : kernel S unit :=
  c <-- get_ec e;;
  match q_items (_sinkList c) with
  | Some l => signal_all signal l
  | None => spin
  end.

(** [ExecutionContext::handleTrap],
    objects/execution-context/objects/ExecutionContext.cc:377-398 *)
Definition handleTrap (e : Z) : kernel S unit :=
  setFlags e (Z.lor IS_TRAPPED NOT_RUNNING);;;
  c <-- get_ec e;;
  if irq (threadState c) <=? 0x1F then changeSignal e (Z.shiftl 1 (irq (threadState c)))
  else kret tt.

End sinks.

(** [ExecutionContext::handleInterrupt],
    objects/execution-context/objects/ExecutionContext.hh:104 *)
Definition handleInterrupt (e : Z) : kernel S unit := setFlags e NOT_RUNNING;;; kret tt.

(** ** Registers *)

(** [ExecutionContext::setBaseRegisters],
    objects/execution-context/objects/ExecutionContext.cc:304-314 *)
Definition setBaseRegisters (e fs gs : Z) : kernel S (optional unit) :=
  if negb (canonical fs) || negb (canonical gs) then kret (THROW NON_CANONICAL_ADDRESS)
  else
    upd_ec e (λ c, with_threadState (with_bases fs gs (threadState c)) c);;;
    kret (OK tt).

(** [ExecutionContext::setRegisters],
    objects/execution-context/objects/ExecutionContext.cc:282-302 *)
Definition setRegisters (e : Z) (regs : Amd64Registers) : kernel S (optional unit) :=
  upd_ec e (λ c, with_threadState (copy_registers regs (threadState c)) c);;;
  setBaseRegisters e (g_fs_base regs) (g_gs_base regs).

(** ** Loading and resuming *)

(** [ExecutionContext::loadState],
    objects/execution-context/objects/ExecutionContext.cc:577-598 *)
Definition loadState (e : Z) : kernel S unit :=
  place <-- getLocalPlace;;
  c <-- get_ec e;;
  put_ec e (with_place place c);;;
  kassert (currentPlace c =? 0);;;
  prev <-- clearFlags e NOT_LOADED;;
  kassert (has_flag prev NOT_LOADED);;;
  cpu <-- get_cpu place;;
  kassert (thread_state cpu =? 0);;;
  c <-- get_ec e;;
  put_cpu place (mkCpu (current_ec cpu) e (fpuState c) (cr3 cpu) (threadID cpu));;;
  kassert (current_ec cpu =? 0);;;
  put_cpu place (mkCpu e e (fpuState c) (cr3 cpu) (threadID cpu)).

(** [ExecutionContext::saveState],
    objects/execution-context/objects/ExecutionContext.cc:600-618 *)
Definition saveState (e : Z) : kernel S unit :=
  prev <-- setFlags e NOT_LOADED;;
  kassert (negb (has_flag prev NOT_LOADED));;;
  place <-- getLocalPlace;;
  c <-- get_ec e;;
  put_ec e (with_place 0 c);;;
  kassert (currentPlace c =? place);;;
  cpu <-- get_cpu place;;
  kassert (thread_state cpu =? e);;;
  c <-- get_ec e;;
  put_ec e (with_fpuState (fpu cpu) c);;;
  put_cpu place (mkCpu (current_ec cpu) 0 (fpu cpu) (cr3 cpu) (threadID cpu));;;
  kassert (current_ec cpu =? e);;;
  put_cpu place (mkCpu 0 0 (fpu cpu) (cr3 cpu) (threadID cpu)).

(** [Place::setCR3], async/monitor-common/async/Place.cc:72-79 *)
Definition setCR3 (place value : Z) : kernel S unit :=
  me <-- getLocalPlace;;
  kassert (place =? me);;;
  cpu <-- get_cpu place;;
  if negb (cr3 cpu =? value) then
    put_cpu place (mkCpu (current_ec cpu) (thread_state cpu) (fpu cpu) value (threadID cpu));;;
    emit (LoadPageTable place value)
  else kret tt.

(** How an attempt to run a thread ends: control comes back, or the hardware
    thread is in user mode. *)
Inductive resumed := Returned | InUserMode (ec : Z) (sysret : bool).

(** [cpu::return_to_user], cpu/kernel-entry-amd64/cpu/kernel_entry.hh:84-88 *)
Definition return_to_user (e : Z) : kernel S resumed :=
  place <-- getLocalPlace;;
  cpu <-- get_cpu place;;
  c <-- get_ec (thread_state cpu);;
  kret (InUserMode (thread_state cpu)
          (negb (maySysret (threadState c) =? 0) && (rip (threadState c) <? 0x7FFFFFFFFFFF))).

Section running.
Context `{KEventSources S}.

(** The part of [ExecutionContext::resume] that returns one event to a thread
    that waited, objects/execution-context/objects/ExecutionContext.cc:540-559 *)
Definition return_event (e : Z) : kernel S unit :=
  prevWait <-- clearFlags e IN_WAIT;;
  if has_flag prevWait IN_WAIT then
    clearFlags e IS_NOTIFIED;;;
    c <-- get_ec e;;
    let '(ev, q) := q_pull (eventQueue c) in
    put_ec e (with_eventQueue q c);;;
    ke <-- (if negb (ev =? 0) then deliverKEvent ev else kret (mkKEvent 0 (Error_code NO_MESSAGE)));;
    upd_ec e (λ c, with_threadState (with_rdi (ev_state ke) (with_rsi (user ke) (threadState c))) c)
  else kret tt.

(** [ExecutionContext::resume],
    objects/execution-context/objects/ExecutionContext.cc:520-575 *)
Definition resume (e : Z) : kernel S resumed :=
  c <-- get_ec e;;
  let prev := flags c in
  if isBlocked prev then kret Returned
  else
    put_ec e (with_flags (Z.land prev (inv_flags (NOT_RUNNING + DONT_PREEMPT))) c);;;
    kassert (negb (has_flag prev NOT_LOADED));;;
    place <-- getLocalPlace;;
    kassert (currentPlace c =? place);;;
    return_event e;;;
    a <-- CapRef_cap (as_ref e);;
    as_ <-- typedCap castPageMap a;;
    match as_ with
    | THROW _ => kret Returned
    | OK (a, p) =>
      info <-- getPageMapInfo p a;;
      setCR3 place (i_table info);;;
      return_to_user e
    end.

(** The search for a ready context in [SchedulingContext::tryRunUser],
    objects/scheduling-context/objects/SchedulingContext.cc:95-96 *)
Fixpoint next_ready (fuel : nat) (q : Q) : kernel S (Z * Q) :=
  match fuel with
  | O => spin
  | Datatypes.S fuel =>
    let '(h, q) := q_pull q in
    if h =? 0 then kret (0, q)
    else r <-- isReady (handle_ec h);; if r then kret (h, q) else next_ready fuel q
  end.

(** The attempt to run the selected context,
    objects/scheduling-context/objects/SchedulingContext.cc:82-92 *)
Definition try_current (this : Z) : kernel S resumed :=
  c <-- get_sc this;;
  if current_handle c =? 0 then kret Returned
  else
    let e := handle_ec (current_handle c) in
    cpu <-- get_cpu (home c);;
    (if negb (current_ec cpu =? e) then
       (if negb (current_ec cpu =? 0) then saveState (current_ec cpu) else kret tt);;;
       loadState e
     else kret tt);;;
    r <-- resume e;;
    match r with
    | InUserMode _ _ => kret r
    | Returned =>
      c <-- get_sc this;;
      put_sc this (mkSC (home c) (readyQueue c) 0);;;
      kret Returned
    end.

(** [SchedulingContext::tryRunUser],
    objects/scheduling-context/objects/SchedulingContext.cc:77-105 *)
Fixpoint tryRunUser (fuel : nat) (this : Z) : kernel S resumed :=
  match fuel with
  | O => spin
  | Datatypes.S fuel' =>
    place <-- getLocalPlace;;
    c <-- get_sc this;;
    kassert (place =? home c);;;
    r <-- try_current this;;
    match r with
    | InUserMode _ _ => kret r
    | Returned =>
      c <-- get_sc this;;
      nq <-- next_ready fuel (readyQueue c);;
      let '(next, q) := nq in
      put_sc this (mkSC (home c) q next);;;
      if next =? 0 then kret Returned else tryRunUser fuel' this
    end
  end.

End running.

(** ** System calls *)

(** [SyscallCode], mythos/invocation/mythos/syscall.hh:35-44 *)
Definition SYSCALL_EXIT : Z := 0.
Definition SYSCALL_POLL : Z := 1.
Definition SYSCALL_WAIT : Z := 2.
Definition SYSCALL_INVOKE : Z := 3.
Definition SYSCALL_INVOKE_POLL : Z := 4.
Definition SYSCALL_INVOKE_WAIT : Z := 5.
Definition SYSCALL_DEBUG : Z := 6.
Definition SYSCALL_SIGNAL : Z := 7.

(** [protocol::ExecutionContext::TRAP_EXIT],
    mythos/invocation/mythos/protocol/ExecutionContext.hh:59 *)
Definition TRAP_EXIT : Z := Z.shiftl 1 32.

Section syscalls.
Context `{SignalSinks S} `{Portals S}.

(** [ExecutionContext::vcast] to [ISignalable],
    objects/execution-context/objects/ExecutionContext.hh:126-133 *)
Definition castSignalable (o : Z) : kernel S (optional Z) :=
  s <-- kget;;
  kret (match ecs (threads s) !! o with Some _ => OK o | None => THROW TYPE_MISMATCH end).

(** [ExecutionContext::syscallInvoke],
    objects/execution-context/objects/ExecutionContext.cc:511-518 *)
Definition syscallInvoke (e portal dest userctx : Z) : kernel S (optional unit) :=
  c <-- CapRef_cap (cs_ref e);;
  cs <-- typedCap castCapMap c;;
  match cs with
  | THROW err => kret (THROW err)
  | OK (c, m) =>
    ref <-- lookup 17 m c portal 32 false;;
    p <-- typedEntry castPortal (match ref with OK r => OK (ref_entry r) | THROW err => THROW err end);;
    match p with
    | THROW err => kret (THROW err)
    | OK (pc, po) => sendInvocation po pc dest userctx
    end
  end.

Definition set_code (e v : Z) : kernel S unit :=
  upd_ec e (λ c, with_threadState (with_rdi v (threadState c)) c).

(** The blocking part of the system calls WAIT and INVOKE_WAIT,
    objects/execution-context/objects/ExecutionContext.cc:426-434 *)
Definition enter_wait (e : Z) : kernel S unit :=
  prevState <-- setFlags e (Z.lor IN_WAIT IS_WAITING);;
  c <-- get_ec e;;
  if negb (q_empty (eventQueue c)) || has_flag prevState IS_NOTIFIED
  then clearFlags e IS_WAITING;;; kret tt
  else kret tt.

(** The system call SIGNAL,
    objects/execution-context/objects/ExecutionContext.cc:469-478 *)
Definition syscall_signal (e portal : Z) : kernel S Z :=
  c <-- CapRef_cap (cs_ref e);;
  cs <-- typedCap castCapMap c;;
  match cs with
  | THROW err => kret (Error_code err)
  | OK (c, m) =>
    ref <-- lookup 17 m c portal 32 false;;
    th <-- typedEntry castSignalable
             (match ref with OK r => OK (ref_entry r) | THROW err => THROW err end);;
    match th with
    | THROW err => kret (Error_code err)
    | OK (tc, to) => EC_signal to (f_data tc);;; kret (Error_code SUCCESS)
    end
  end.

(** [ExecutionContext::handleSyscall]; the conversion of the code to
    [SyscallCode] keeps its lower 32 bits,
    objects/execution-context/objects/ExecutionContext.cc:400-483 *)
Definition handleSyscall (e : Z) : kernel S unit :=
  setFlags e NOT_RUNNING;;;
  c <-- get_ec e;;
  let ctx := threadState c in
  let code := u32 (rdi ctx) in
  let userctx := rsi ctx in
  let portal := rdx ctx in
  let kobj := r10 ctx in
  let invoke := syscallInvoke e (u32 portal) (u32 kobj) userctx in
  if code =? SYSCALL_EXIT then
    setFlags e IS_TRAPPED;;; changeSignal e TRAP_EXIT
  else if code =? SYSCALL_POLL then setFlags e IN_WAIT;;; kret tt
  else if code =? SYSCALL_WAIT then enter_wait e
  else if code =? SYSCALL_INVOKE then
    res <-- invoke;; set_code e (Error_code (state res))
  else if code =? SYSCALL_INVOKE_POLL then
    res <-- invoke;;
    set_code e (Error_code (state res));;;
    if decide (state res = SUCCESS) then setFlags e IN_WAIT;;; kret tt else kret tt
  else if code =? SYSCALL_INVOKE_WAIT then
    res <-- invoke;;
    set_code e (Error_code (state res));;;
    if decide (state res = SUCCESS) then enter_wait e else kret tt
  else if code =? SYSCALL_DEBUG then
    emit (UserOutput userctx (if portal <? 300 then portal else 300) portal);;;
    set_code e (Error_code SUCCESS)
  else if code =? SYSCALL_SIGNAL then
    r <-- syscall_signal e (u32 portal);; set_code e r
  else kret tt.

(** [ec_handle_trap], [ec_handle_syscall] and [ec_interrupted] on the local
    hardware thread, objects/common/objects/ISchedulable.hh:90-93 *)
Definition ec_handle_trap : kernel S unit :=
  p <-- getLocalPlace;; cpu <-- get_cpu p;;
  kassert (negb (current_ec cpu =? 0));;; handleTrap (current_ec cpu).

(** [ec_handle_syscall], objects/common/objects/ISchedulable.hh:98-101 *)
Definition ec_handle_syscall : kernel S unit :=
  p <-- getLocalPlace;; cpu <-- get_cpu p;;
  kassert (negb (current_ec cpu =? 0));;; handleSyscall (current_ec cpu).

(** [ec_interrupted], objects/common/objects/ISchedulable.hh:103-106 *)
Definition ec_interrupted : kernel S unit :=
  p <-- getLocalPlace;; cpu <-- get_cpu p;;
  if current_ec cpu =? 0 then kret tt else handleInterrupt (current_ec cpu).

End syscalls.

(** ** Invocations *)

Section invocations.
Context `{Invocations S}.

(** [delete_cap], mythos/caps/mythos/caps.hh:40 *)
Definition delete_cap : Z := u32 (-2).

(** [ExecutionContext::invokeConfigure]; [as_], [cs] and [sched] are the
    capability pointers of the message,
    objects/execution-context/objects/ExecutionContext.cc:178-200 *)
Definition invokeConfigure (e m as_ cs sched : Z) : kernel S Error :=
  r1 <-- (if as_ =? delete_cap then CapRef_reset (as_ref e);;; kret (OK tt)
          else if negb (as_ =? null_cap) then
            entry <-- lookupEntry m as_;; setAddressSpace e entry
          else kret (OK tt));;
  match r1 with
  | THROW err => kret err
  | OK _ =>
    r2 <-- (if cs =? delete_cap then CapRef_reset (cs_ref e);;; kret (OK tt)
            else if negb (cs =? null_cap) then
              entry <-- lookupEntry m cs;; setCapSpace e entry
            else kret (OK tt));;
    match r2 with
    | THROW err => kret err
    | OK _ =>
      if sched =? delete_cap then unsetSchedulingContext e
      else if negb (sched =? null_cap) then
        entry <-- lookupEntry m sched;;
        res <-- setSchedulingContext e m entry;;
        kret (state res)
      else kret SUCCESS
    end
  end.

(** [ExecutionContext::readThreadRegisters]; [suspend] is read from the message
    again, objects/execution-context/objects/ExecutionContext.cc:218-249 *)
Definition readThreadRegisters (e : Z) (suspend : bool) : kernel S unit :=
  c <-- get_ec e;;
  kassert (negb (msg c =? 0));;;
  emit (WroteRegisters (msg c) (negb suspend) (response_registers (threadState c)));;;
  clearFlagsResume e REGISTER_ACCESS;;;
  replyResponse (msg c) (OK tt);;;
  upd_ec e (with_msg 0);;;
  emit (RequestDone e).

(** [ExecutionContext::invokeReadRegisters],
    objects/execution-context/objects/ExecutionContext.cc:202-216 *)
Definition invokeReadRegisters (e m : Z) (suspend : bool) : kernel S Error :=
  upd_ec e (with_msg m);;;
  setFlags e (Z.lor (Z.lor REGISTER_ACCESS DONT_PREEMPT) (if suspend then IS_TRAPPED else 0));;;
  c <-- get_ec e;;
  (if negb (currentPlace c =? 0) then emit (RunAt (currentPlace c) (ReadResponse e))
   else readThreadRegisters e suspend);;;
  kret INHIBIT.

(** [ExecutionContext::writeThreadRegisters],
    objects/execution-context/objects/ExecutionContext.cc:268-280 *)
Definition writeThreadRegisters (e : Z) (regs : Amd64Registers) : kernel S unit :=
  c <-- get_ec e;;
  kassert (negb (msg c =? 0));;;
  res <-- setRegisters e regs;;
  (if isOK res then kret tt else setFlags e IS_TRAPPED;;; kret tt);;;
  clearFlagsResume e REGISTER_ACCESS;;;
  replyResponse (msg c) res;;;
  upd_ec e (with_msg 0);;;
  emit (RequestDone e).

(** [ExecutionContext::invokeWriteRegisters],
    objects/execution-context/objects/ExecutionContext.cc:251-266 *)
Definition invokeWriteRegisters (e m : Z) (resume : bool) (regs : Amd64Registers) : kernel S Error :=
  upd_ec e (with_msg m);;;
  setFlags e REGISTER_ACCESS;;;
  (if resume then clearFlags e IS_TRAPPED;;; kret tt else kret tt);;;
  c <-- get_ec e;;
  (if negb (currentPlace c =? 0) then emit (RunAt (currentPlace c) (WriteResponse e))
   else writeThreadRegisters e regs);;;
  kret INHIBIT.

(** [ExecutionContext::invokeResume],
    objects/execution-context/objects/ExecutionContext.cc:316-320 *)
Definition invokeResume (e : Z) : kernel S Error := clearFlagsResume e IS_TRAPPED;;; kret SUCCESS.

(** [ExecutionContext::setTrapped],
    objects/execution-context/objects/ExecutionContext.cc:322-326 *)
Definition setTrapped (e : Z) (val : bool) : kernel S unit :=
  if val then setFlagsSuspend e IS_TRAPPED else clearFlagsResume e IS_TRAPPED.

(** [ExecutionContext::suspendThread],
    objects/execution-context/objects/ExecutionContext.cc:343-351 *)
Definition suspendThread (e : Z) : kernel S unit :=
  c <-- get_ec e;;
  kassert (negb (msg c =? 0));;;
  replyResponse (msg c) (OK tt);;;
  upd_ec e (with_msg 0);;;
  emit (RequestDone e).

(** [ExecutionContext::invokeSuspend],
    objects/execution-context/objects/ExecutionContext.cc:328-341 *)
Definition invokeSuspend (e m : Z) : kernel S Error :=
  upd_ec e (with_msg m);;;
  setFlags e (IS_TRAPPED + DONT_PREEMPT);;;
  c <-- get_ec e;;
  (if negb (currentPlace c =? 0) then emit (RunAt (currentPlace c) (SleepResponse e))
   else suspendThread e);;;
  kret INHIBIT.

(** [ExecutionContext::invokeSetFSGS],
    objects/execution-context/objects/ExecutionContext.cc:353-363 *)
Definition invokeSetFSGS (e fs gs : Z) : kernel S Error :=
  res <-- setBaseRegisters e fs gs;;
  (if isOK res then setFlagsSuspend e IS_TRAPPED;;; clearFlagsResume e IS_TRAPPED else kret tt);;;
  kret (state res).

(** The closure of [ExecutionContext::setSchedulingContext]: after the reply for
    an invalid capability it goes on to [obj.cap()], whose assertion fails then,
    objects/execution-context/objects/ExecutionContext.cc:119-129 *)
Definition saveAndSetSched (e m sce : Z) : kernel S unit :=
  p <-- getLocalPlace;;
  cpu <-- get_cpu p;;
  upd_ec e (with_fpuState (fpu cpu));;;
  obj <-- typedEntry castScheduler (OK sce);;
  match obj with
  | THROW err => replyResponse m (THROW err);;; emit (RequestDone e);;; λ _, AssertFail
  | OK (c, _) =>
    res <-- CapRef_set (sched_ref e) e sce c;;
    replyResponse m res;;;
    emit (RequestDone e)
  end.

(** A request, with the data of its message. *)
Inductive Request :=
  | Configure (as_ cs sched : Z)
  | ReadRegisters (suspend : bool)
  | WriteRegisters (resume : bool) (regs : Amd64Registers)
  | SetFSGS (fs gs : Z)
  | Resume
  | Suspend
  | GetDebugInfo
  | OtherRequest.

(** [protocol::ExecutionContext::dispatchRequest],
    mythos/invocation/mythos/protocol/ExecutionContext.hh:152-163 *)
Definition EC_dispatch (e m : Z) (r : Request) : kernel S Error :=
  match r with
  | Configure as_ cs sched => invokeConfigure e m as_ cs sched
  | ReadRegisters suspend => invokeReadRegisters e m suspend
  | WriteRegisters resume regs => invokeWriteRegisters e m resume regs
  | SetFSGS fs gs => invokeSetFSGS e fs gs
  | Resume => invokeResume e
  | Suspend => invokeSuspend e m
  | GetDebugInfo | OtherRequest => kret NOT_IMPLEMENTED
  end.

(** [ExecutionContext::getDebugInfo],
    objects/execution-context/objects/ExecutionContext.cc:664-667 *)
Definition EC_getDebugInfo (self m : Z) : kernel S Error := writeDebugInfo self m.

(** [ExecutionContext::invoke] when the monitor runs the request,
    objects/execution-context/objects/ExecutionContext.cc:645-662 *)
Definition EC_invoke (e self m : Z) (r : Request) : kernel S unit :=
  err <-- match r with GetDebugInfo => EC_getDebugInfo self m | _ => EC_dispatch e m r end;;
  if decide (err = INHIBIT) then kret tt
  else
    replyResponse m (if decide (err = SUCCESS) then OK tt else THROW err);;;
    emit (RequestDone e).

(** [ExecutionContext::deleteCap],
    objects/execution-context/objects/ExecutionContext.cc:620-638 *)
Definition EC_deleteCap (e self : Z) : kernel S (optional unit) :=
  (if isOriginal self then
     setFlags e (NO_AS + NO_SCHED);;;
     c <-- get_ec e;;
     (if negb (currentPlace c =? 0) then
        synchronousAt (currentPlace c) (saveState e;;; CapRef_reset (sched_ref e))
      else kret tt);;;
     CapRef_reset (as_ref e);;;
     CapRef_reset (cs_ref e);;;
     CapRef_reset (sched_ref e);;;
     emit (DeleteObject e)
   else kret tt);;;
  kret (OK tt).

(** [ExecutionContext::deleteObject],
    objects/execution-context/objects/ExecutionContext.cc:640-643 *)
Definition EC_deleteObject (e : Z) : kernel S unit := emit (DoDelete e).

(** The constructor of [ExecutionContext],
    objects/execution-context/objects/ExecutionContext.cc:41-50 *)
Definition EC_init (e : Z) : kernel S unit :=
  put_ec e (mkEC 0 (with_rflags FLAG_IF TS_clear) 0 0 q_new q_new 0);;;
  setFlags e (IS_TRAPPED + NO_AS + NO_SCHED + DONT_PREEMPT + NOT_LOADED + NOT_RUNNING);;;
  kret tt.

(** The members of the message [protocol::ExecutionContext::Create],
    mythos/invocation/mythos/protocol/ExecutionContext.hh:138-150 *)
Record Create := mkCreate {
  cr_regs : Amd64Registers; cr_start : bool; cr_as : Z; cr_cs : Z; cr_sched : Z }.

(** The configuration in [ExecutionContextFactory::factory],
    objects/execution-context/objects/ExecutionContext.cc:684-702 *)
Definition EC_configure (obj m : Z) (data : Create) : kernel S (optional unit) :=
  let get ptr set := if ptr =? 0 then kret (OK tt)
                     else entry <-- lookupEntry m ptr;; set obj entry in
  r <-- setRegisters obj (cr_regs data);;
  if negb (isOK r) then kret r else
  r <-- get (cr_as data) setAddressSpace;;
  if negb (isOK r) then kret r else
  r <-- get (cr_cs data) setCapSpace;;
  if negb (isOK r) then kret r else
  r <-- get (cr_sched data) setSchedulingContext_init;;
  if negb (isOK r) then kret r else
  setEntryPoint obj (g_rip (cr_regs data));;;
  (if cr_start data then setTrapped obj false else kret tt);;;
  kret (OK tt).

(** [ExecutionContextFactory::factory]; [sizeof] is the size of an execution
    context, objects/execution-context/objects/ExecutionContext.cc:669-704 *)
Definition EC_factory `{HasMemory S} (sizeof dstEntry memEntry memCap m : Z) (data : option Create)
    : kernel S (optional Z) :=
  obj <-- create sizeof;;
  match obj with
  | THROW err => reset dstEntry;;; kret (THROW err)
  | OK obj =>
    EC_init obj;;;
    res <-- inherit memEntry memCap dstEntry (mkCap obj 0 NOFLAG) (kret tt);;
    match res with
    | THROW err => km_free obj sizeof;;; kret (THROW err)
    | OK _ =>
      match data with
      | None => kret (OK obj)
      | Some data =>
        r <-- EC_configure obj m data;;
        match r with THROW err => kret (THROW err) | OK _ => kret (OK obj) end
      end
    end
  end.

End invocations.

End threads.
