(* ===== verification/Scheduling.v ===== *)
(** * Scheduling of threads

    Proves the scheduler of Threads.v correct: the scheduler runs the first ready
    thread in FIFO order, idles only when nothing is ready, and the registers of
    hardware threads are always those of the thread they run. *)

From stdpp Require Import base tactics numbers list gmap.
From Stdlib Require Import ZArith Lia.
From S2P Require Import Prelude Ranges Bitfield Cap CapEntry CapRing CapSteps CapOps Heap KernelMemory CapMap Frame PageTable PageMap LinkedList Threads.

Local Open Scope Z_scope.
Import PhysPtr.

(** ** Flags as bits *)

Lemma has_flag_bit f i : 0 ≤ i → has_flag f (Z.shiftl 1 i) = Z.testbit f i.
Proof.
  intros Hi. unfold has_flag. rewrite Z.shiftl_1_l.
  destruct (Z.testbit f i) eqn:Hb.
  - apply negb_true_iff, Z.eqb_neq. intros Hz.
    assert (Ht : Z.testbit (Z.land f (2 ^ i)) i = true)
      by (rewrite Z.land_spec, Hb, Z.pow2_bits_eqb, Z.eqb_refl by lia; done).
    by rewrite Hz, Z.bits_0 in Ht.
  - apply negb_false_iff, Z.eqb_eq. bits. rewrite Z.pow2_bits_eqb, Z.bits_0 by lia.
    destruct (Z.eqb_spec i i0) as [<-|]; [by rewrite Hb | apply andb_false_r].
Qed.

Lemma inv_flags_bit f b i :
  0 ≤ i < 16 → Z.testbit (Z.land f (inv_flags b)) i = Z.testbit f i && negb (Z.testbit b i).
Proof.
  intros Hi. unfold inv_flags. rewrite Z.land_spec, wrap_testbit, Z.lnot_spec by lia.
  by rewrite (proj2 (Z.ltb_lt i 16)) by lia.
Qed.

Lemma isBlocked_bits f :
  isBlocked f = Z.testbit f 0 || Z.testbit f 1 || Z.testbit f 2 || Z.testbit f 3 || Z.testbit f 7.
Proof.
  unfold isBlocked. change BLOCK_MASK with 143.
  destruct (Z.eqb_spec (Z.land f 143) 0) as [Hz|Hz]; cbn [negb].
  - assert (Hb : ∀ i, Z.testbit f i && Z.testbit 143 i = false)
      by (intros i; by rewrite <- Z.land_spec, Hz, Z.bits_0).
    pose proof (Hb 0) as H0. pose proof (Hb 1) as H1. pose proof (Hb 2) as H2.
    pose proof (Hb 3) as H3. pose proof (Hb 7) as H7.
    change (Z.testbit 143 0) with true in H0. change (Z.testbit 143 1) with true in H1.
    change (Z.testbit 143 2) with true in H2. change (Z.testbit 143 3) with true in H3.
    change (Z.testbit 143 7) with true in H7. rewrite andb_true_r in *.
    by rewrite H0, H1, H2, H3, H7.
  - symmetry. apply not_false_iff_true. intros Hb. apply Hz.
    repeat (apply orb_false_iff in Hb as [Hb ?]). bits. rewrite Z.bits_0.
    destruct (Z.le_gt_cases 8 i) as [Hl|Hl].
    { rewrite (Z.bits_above_log2 143) by (cbn; lia). by rewrite andb_false_r. }
    assert (i = 0 ∨ i = 1 ∨ i = 2 ∨ i = 3 ∨ i = 4 ∨ i = 5 ∨ i = 6 ∨ i = 7)
      as [->|[->|[->|[->|[->|[->|[->| ->]]]]]]] by lia;
      rewrite ?Hb, ?H, ?H0, ?H1, ?H2; cbn; rewrite ?andb_false_r; done.
Qed.

Lemma not_loaded_bit f : has_flag f NOT_LOADED = Z.testbit f 8.
Proof. by apply has_flag_bit. Qed.

Lemma in_wait_bit f : has_flag f IN_WAIT = Z.testbit f 5.
Proof. by apply has_flag_bit. Qed.

Lemma clear_bit f b i j :
  0 ≤ i < 16 → 0 ≤ j → b = Z.shiftl 1 j →
  Z.testbit (Z.land f (inv_flags b)) i = Z.testbit f i && negb (j =? i).
Proof. intros Hi Hj ->. by rewrite inv_flags_bit, Z.shiftl_1_l, Z.pow2_bits_eqb by lia. Qed.

Lemma set_bit f b i j :
  0 ≤ i → 0 ≤ j → b = Z.shiftl 1 j → Z.testbit (Z.lor f b) i = Z.testbit f i || (j =? i).
Proof. intros Hi Hj ->. by rewrite Z.lor_spec, Z.shiftl_1_l, Z.pow2_bits_eqb by lia. Qed.

(** Projects the members of an updated thread. *)
Ltac ec_simpl :=
  cbn [flags threadState fpuState currentPlace eventQueue _sinkList msg with_flags with_threadState
       with_fpuState with_place with_eventQueue with_sinkList with_msg rsi rdi with_rsi with_rdi
       ecs scs cpus localPlace events set_ecs set_scs set_cpus current_ec thread_state fpu cr3
       threadID home readyQueue current_handle] in *.

(** The page maps do not depend on the threads. *)
Class ThreadsApart (Q S : Type) `{HasPageMaps S} `{!HasRefs S} `{!HasThreads Q S} := {
  asPageMap_set_threads t s : asPageMap (set_threads t s) = asPageMap s;
  pagemap_set_threads t s : pagemap (set_threads t s) = pagemap s
}.

Section runs.
Context {Q S : Type} `{Fifo Q} `{HasPageMaps S} `{KernelObjects S} `{HasCapMaps S}
  `{!HasRefs S} `{RefSubjects S} `{!HasThreads Q S} `{ThreadLayout}.
Context (s0 : S).
Implicit Types (t : Threads Q).

Local Notation st t := (set_threads t s0).

(** ** Single steps on a state that differs from [s0] in its threads *)

Lemma bind_ret {A B} (a : A) (k : A → kernel S B) (s : S) : kbind (kret a) k s = k a s.
Proof. done. Qed.

Lemma bind_assert {B} b (k : unit → kernel S B) (s : S) :
  b = true → kbind (kassert b) k s = k tt s.
Proof. by intros ->. Qed.

Lemma bind_assert_fail {B} b (k : unit → kernel S B) (s : S) :
  b = false → kbind (kassert b) k s = AssertFail.
Proof. by intros ->. Qed.

Lemma modify_run f t : modify f (st t) = Done tt (st (f t)).
Proof. unfold modify, kmodify. by rewrite threads_set, set_threads_set. Qed.

Lemma bind_modify {B} f (k : unit → kernel S B) t : kbind (modify f) k (st t) = k tt (st (f t)).
Proof. unfold kbind. by rewrite modify_run. Qed.

Lemma bind_get_ec {B} e c (k : EC Q → kernel S B) t :
  ecs t !! e = Some c → kbind (get_ec e) k (st t) = k c (st t).
Proof. intros He. unfold kbind, get_ec. by rewrite threads_set, He. Qed.

Lemma bind_put_ec {B} e (c : EC Q) (k : unit → kernel S B) t :
  kbind (put_ec e c) k (st t) = k tt (st (set_ecs (<[e := c]> (ecs t)) t)).
Proof. unfold put_ec, put_sc, put_cpu. by rewrite bind_modify. Qed.

Lemma put_ec_run e (c : EC Q) t : put_ec e c (st t) = Done tt (st (set_ecs (<[e := c]> (ecs t)) t)).
Proof. unfold put_ec, put_cpu. by rewrite modify_run. Qed.

Lemma bind_get_sc {B} a (c : SC Q) (k : SC Q → kernel S B) t :
  scs t !! a = Some c → kbind (get_sc a) k (st t) = k c (st t).
Proof. intros He. unfold kbind, get_sc. by rewrite threads_set, He. Qed.

Lemma bind_put_sc {B} a (c : SC Q) (k : unit → kernel S B) t :
  kbind (put_sc a c) k (st t) = k tt (st (set_scs (<[a := c]> (scs t)) t)).
Proof. unfold put_ec, put_sc, put_cpu. by rewrite bind_modify. Qed.

Lemma bind_get_cpu {B} p c (k : Cpu → kernel S B) t :
  cpus t !! p = Some c → kbind (get_cpu p) k (st t) = k c (st t).
Proof. intros He. unfold kbind, get_cpu. by rewrite threads_set, He. Qed.

Lemma bind_put_cpu {B} p c (k : unit → kernel S B) t :
  kbind (put_cpu p c) k (st t) = k tt (st (set_cpus (<[p := c]> (cpus t)) t)).
Proof. unfold put_ec, put_sc, put_cpu. by rewrite bind_modify. Qed.

Lemma put_cpu_run p c t : put_cpu p c (st t) = Done tt (st (set_cpus (<[p := c]> (cpus t)) t)).
Proof. unfold put_ec, put_cpu. by rewrite modify_run. Qed.

Lemma bind_local {B} (k : Z → kernel S B) t : kbind getLocalPlace k (st t) = k (localPlace t) (st t).
Proof. unfold kbind, getLocalPlace, kget, kret. cbn. by rewrite threads_set. Qed.

Lemma bind_assoc {A B C} (m : kernel S A) (f : A → kernel S B) (g : B → kernel S C) s :
  kbind (kbind m f) g s = kbind m (λ a, kbind (f a) g) s.
Proof. unfold kbind. by destruct (m s). Qed.

Lemma setFlags_run e f c t :
  ecs t !! e = Some c →
  setFlags e f (st t) =
    Done (flags c) (st (set_ecs (<[e := with_flags (Z.lor (flags c) f) c]> (ecs t)) t)).
Proof. intros He. unfold setFlags. by rewrite (bind_get_ec _ _ _ _ He), bind_put_ec. Qed.

Lemma clearFlags_run e f c t :
  ecs t !! e = Some c →
  clearFlags e f (st t) =
    Done (flags c) (st (set_ecs (<[e := with_flags (Z.land (flags c) (inv_flags f)) c]> (ecs t)) t)).
Proof. intros He. unfold clearFlags. by rewrite (bind_get_ec _ _ _ _ He), bind_put_ec. Qed.

Lemma isReady_run e c t :
  ecs t !! e = Some c → isReady e (st t) = Done (negb (isBlocked (flags c))) (st t).
Proof. intros He. unfold isReady. by rewrite (bind_get_ec _ _ _ _ He). Qed.

Lemma upd_ec_run e f c t :
  ecs t !! e = Some c → upd_ec e f (st t) = Done tt (st (set_ecs (<[e := f c]> (ecs t)) t)).
Proof. intros He. unfold upd_ec. by rewrite (bind_get_ec _ _ _ _ He), put_ec_run. Qed.

(** ** Loading and saving *)

(** The thread [e] is loaded at [p], with the contents of its registers. *)
Definition put_loaded (p e : Z) (c : EC Q) (cpu : Cpu) (t : Threads Q) : Threads Q :=
  mkThreads (<[e := with_flags (Z.land (flags c) (inv_flags NOT_LOADED)) (with_place p c)]> (ecs t))
    (scs t) (<[p := mkCpu e e (fpuState c) (cr3 cpu) (threadID cpu)]> (cpus t)) (localPlace t)
    (events t).

Definition put_saved (p e : Z) (c : EC Q) (cpu : Cpu) (t : Threads Q) : Threads Q :=
  mkThreads (<[e := with_fpuState (fpu cpu) (with_place 0 (with_flags (Z.lor (flags c) NOT_LOADED) c))]>
               (ecs t))
    (scs t) (<[p := mkCpu 0 0 (fpu cpu) (cr3 cpu) (threadID cpu)]> (cpus t)) (localPlace t)
    (events t).

Lemma loadState_run e c cpu t :
  ecs t !! e = Some c → currentPlace c = 0 → Z.testbit (flags c) 8 = true →
  cpus t !! localPlace t = Some cpu → thread_state cpu = 0 → current_ec cpu = 0 →
  loadState e (st t) = Done tt (st (put_loaded (localPlace t) e c cpu t)).
Proof.
  intros He Hp Hf Hc Ht Hce. unfold loadState.
  rewrite bind_local, (bind_get_ec _ _ _ _ He), bind_put_ec, bind_assert by (by rewrite Hp).
  assert (He' : ecs (set_ecs (<[e := with_place (localPlace t) c]> (ecs t)) t) !! e =
                Some (with_place (localPlace t) c)) by apply lookup_insert_eq.
  rewrite (kbind_run _ _ _ _ _ (clearFlags_run _ _ _ _ He')).
  rewrite bind_assert by (by rewrite not_loaded_bit).
  erewrite bind_get_cpu by (cbn; exact Hc). rewrite bind_assert by (by rewrite Ht).
  erewrite bind_get_ec by (cbn; apply lookup_insert_eq).
  rewrite bind_put_cpu, bind_assert by (by rewrite Hce). rewrite put_cpu_run.
  unfold put_loaded. do 2 f_equal. cbn. by rewrite !insert_insert_eq.
Qed.

Lemma saveState_run e c cpu t :
  ecs t !! e = Some c → currentPlace c = localPlace t → Z.testbit (flags c) 8 = false →
  cpus t !! localPlace t = Some cpu → thread_state cpu = e → current_ec cpu = e →
  saveState e (st t) = Done tt (st (put_saved (localPlace t) e c cpu t)).
Proof.
  intros He Hp Hf Hc Ht Hce. unfold saveState.
  rewrite (kbind_run _ _ _ _ _ (setFlags_run _ _ _ _ He)).
  rewrite bind_assert by (by rewrite not_loaded_bit, Hf). rewrite bind_local.
  erewrite bind_get_ec by (cbn; apply lookup_insert_eq). rewrite bind_put_ec.
  rewrite bind_assert by (cbn; by rewrite Hp, Z.eqb_refl).
  erewrite bind_get_cpu by (cbn; exact Hc). rewrite bind_assert by (by rewrite Ht, Z.eqb_refl).
  erewrite bind_get_ec by (cbn; apply lookup_insert_eq).
  rewrite bind_put_ec, bind_put_cpu, bind_assert by (by rewrite Hce, Z.eqb_refl).
  rewrite put_cpu_run. unfold put_saved. do 2 f_equal. cbn. by rewrite !insert_insert_eq.
Qed.

End runs.

Section events.
Context {Q S : Type} `{Fifo Q} `{HasPageMaps S} `{KernelObjects S} `{HasCapMaps S}
  `{!HasRefs S} `{RefSubjects S} `{!HasThreads Q S} `{ThreadLayout} `{!ThreadsApart Q S}
  `{KEventSources S}.
Implicit Types (t : Threads Q) (s : S) (c : EC Q).

(** ** Events *)

(** What the threads do not hold is the same in both states. *)
Definition same s s' : Prop :=
  (∀ r, orig s' r = orig s r) ∧ asPageMap s' = asPageMap s ∧ pagemap s' = pagemap s.

Lemma same_threads t s : same s (set_threads t s).
Proof.
  split; [intros r; apply orig_set_threads|].
  split; [apply asPageMap_set_threads | apply pagemap_set_threads].
Qed.

Lemma same_trans s1 s2 s3 : same s1 s2 → same s2 s3 → same s1 s3.
Proof.
  intros (Ho & Ha & Hp) (Ho' & Ha' & Hp'). split; [intros r; by rewrite Ho', Ho|].
  by rewrite Ha', Hp'.
Qed.

(** The event source behind a handle delivers an event without touching the
    threads. *)
Definition delivers s (h : Z) : Prop := ∀ t,
  ∃ ev s', deliverKEvent h (set_threads t s) = Done ev s' ∧ threads s' = t ∧ same s s'.

(** The event that a thread with the event queue [l] gets. *)
Definition first_event s (l : list Z) (ev : KEvent) : Prop :=
  match l with
  | [] => ev = mkKEvent 0 (Error_code NO_MESSAGE)
  | h :: _ => ∃ t s', deliverKEvent h (set_threads t s) = Done ev s'
  end.

(** The thread [c] after the return of an event: nothing happens unless it
    waited; then it gets the event of the first source, or NO_MESSAGE. *)
Definition event_returned s c (l : list Z) (c' : EC Q) : Prop :=
  currentPlace c' = currentPlace c ∧ Z.testbit (flags c') 5 = false ∧
  (∀ i, 0 ≤ i < 16 → i ≠ 5 → i ≠ 6 → Z.testbit (flags c') i = Z.testbit (flags c) i) ∧
  (Z.testbit (flags c) 5 = false → contents (eventQueue c') l ∧ threadState c' = threadState c) ∧
  (Z.testbit (flags c) 5 = true → contents (eventQueue c') (tl l) ∧ Z.testbit (flags c') 6 = false ∧
     ∃ ev, first_event s l ev ∧ rsi (threadState c') = user ev ∧ rdi (threadState c') = ev_state ev).

Lemma pull_run l (q : Q) :
  contents q l → ∃ q', q_pull q = (hd 0 l, q') ∧ contents q' (tl l).
Proof.
  intros Hq. destruct l as [|h l]; [exists q; by rewrite contents_pull_nil|].
  destruct (contents_pull q l h Hq) as (q' & -> & ?). by exists q'.
Qed.

Lemma next_event_run (q : Q) l s t :
  contents q l → Forall (delivers s) (take 1 l) →
  ∃ ev s', (if negb (hd 0 l =? 0) then deliverKEvent (hd 0 l)
            else kret (mkKEvent 0 (Error_code NO_MESSAGE))) (set_threads t s) = Done ev s' ∧
           threads s' = t ∧ same s s' ∧ first_event s l ev.
Proof.
  intros Hq Hd. destruct l as [|h l]; cbn [hd].
  - eexists _, _. split; [reflexivity|]. rewrite threads_set. split; [done|].
    split; [apply same_threads | done].
  - destruct (contents_nodup _ _ Hq) as [_ H0'].
    rewrite (proj2 (Z.eqb_neq h 0)) by set_solver. cbn [negb].
    apply Forall_cons in Hd as [Hd _]. destruct (Hd t) as (ev & s' & He & Ht & Hs).
    exists ev, s'. split; [done|]. split; [done|]. split; [done|]. by exists t, s'.
Qed.

Lemma clear_5_6 f i :
  0 ≤ i < 16 → i ≠ 5 → i ≠ 6 →
  Z.testbit (Z.land (Z.land f (inv_flags IN_WAIT)) (inv_flags IS_NOTIFIED)) i = Z.testbit f i.
Proof.
  intros Hi H5' H6'. rewrite (clear_bit _ _ _ 6), (clear_bit _ _ _ 5) by (done || lia).
  rewrite (proj2 (Z.eqb_neq 5 i)), (proj2 (Z.eqb_neq 6 i)) by lia. by rewrite !andb_true_r.
Qed.

Lemma return_event_run e c l s t :
  ecs t !! e = Some c → contents (eventQueue c) l → Forall (delivers s) (take 1 l) →
  ∃ s' c', return_event e (set_threads t s) = Done tt s' ∧ same s s' ∧
    threads s' = set_ecs (<[e := c']> (ecs t)) t ∧ event_returned s c l c'.
Proof.
  intros He Hq Hd. unfold return_event.
  rewrite (kbind_run _ _ _ _ _ (clearFlags_run _ _ _ _ _ He)).
  rewrite in_wait_bit.
  destruct (Z.testbit (flags c) 5) eqn:H5'.
  - erewrite kbind_run by (apply clearFlags_run; cbn; apply lookup_insert_eq).
    erewrite bind_get_ec by (cbn; apply lookup_insert_eq). cbn [eventQueue with_flags].
    destruct (pull_run l (eventQueue c) Hq) as (q' & -> & Hq').
    rewrite bind_put_ec. set (t1 := set_ecs _ _).
    destruct (next_event_run _ l s t1 Hq Hd) as (ev & s1 & Hrun & Ht1 & Hs1 & Hev).
    rewrite (kbind_run _ _ _ _ _ Hrun). rewrite <- (set_threads_id s1), Ht1.
    erewrite upd_ec_run by (cbn; apply lookup_insert_eq).
    eexists _, _. split; [reflexivity|]. split; [eapply same_trans; [done|apply same_threads]|].
    rewrite threads_set. cbn. rewrite !insert_insert_eq. split; [reflexivity|].
    split; [done|]. split; [|split; [|split; [by rewrite H5'|]]]; ec_simpl.
    + by rewrite (clear_bit _ _ _ 6), (clear_bit _ _ _ 5), andb_false_r.
    + apply clear_5_6.
    + intros _. split; [done|]. split; [by rewrite (clear_bit _ _ _ 6), andb_false_r|]. by exists ev.
  - eexists _, _. split; [reflexivity|]. split; [apply same_threads|]. rewrite threads_set.
    split; [reflexivity|]. split; [done|]. ec_simpl. rewrite (clear_bit _ _ _ 5), andb_false_r by done.
    split; [done|]. split; [|split; [done|by rewrite H5']]. intros i Hi Hi5 Hi6.
    rewrite (clear_bit _ _ _ 5) by (done || lia). rewrite (proj2 (Z.eqb_neq 5 i)) by lia.
    by rewrite andb_true_r.
Qed.

(** ** Resuming *)

(** The thread has an address space whose root table is at [table]. *)
Definition has_as s (e table : Z) : Prop :=
  ∃ p pm, isUsable (orig s (as_ref e)) = true ∧ asPageMap s (getPtr (orig s (as_ref e))) = Some p ∧
    pagemap s p = Some pm ∧ isKernelAddress (_table pm) = true ∧ table = fromKernel (_table pm).

Lemma has_as_same s s' e table : same s s' → has_as s e table → has_as s' e table.
Proof. intros (Ho & Ha & Hp). unfold has_as. by rewrite Ho, Ha, Hp. Qed.

Lemma resume_blocked e c s t :
  ecs t !! e = Some c → isBlocked (flags c) = true →
  resume e (set_threads t s) = Done Returned (set_threads t s).
Proof. intros He Hb. unfold resume. by rewrite (bind_get_ec _ _ _ _ _ He), Hb. Qed.

Lemma typed_as_run s e table :
  has_as s e table →
  ∃ a p info, kbind (CapRef_cap (as_ref e)) (typedCap castPageMap) s = Done (OK (a, p)) s ∧
    getPageMapInfo p a s = Done info s ∧ i_table info = table.
Proof.
  intros (p & pm & Hu & Ha & Hp & Hk & ->). eexists _, p, _.
  unfold CapRef_cap, typedCap, castPageMap, getPageMapInfo, getPageMap, _pm_table, kget, kret, kbind.
  cbn. rewrite Hu. cbn. rewrite Ha. split; [reflexivity|]. rewrite Hp. cbn.
  rewrite Z.add_0_r, Hk. cbn. by split.
Qed.

Lemma setCR3_run value cpu s t :
  cpus t !! localPlace t = Some cpu →
  ∃ evs, setCR3 (localPlace t) value (set_threads t s) =
    Done tt (set_threads (mkThreads (ecs t) (scs t)
      (<[localPlace t := mkCpu (current_ec cpu) (thread_state cpu) (fpu cpu) value (threadID cpu)]> (cpus t))
      (localPlace t) (events t ++ evs)) s).
Proof.
  intros Hc. unfold setCR3.
  rewrite bind_local, bind_assert by apply Z.eqb_refl. rewrite (bind_get_cpu _ _ _ _ _ Hc).
  destruct (Z.eqb_spec (cr3 cpu) value) as [<-|]; cbn [negb].
  - exists []. rewrite app_nil_r. destruct cpu. cbn. rewrite insert_id by done. by destruct t.
  - exists [LoadPageTable (localPlace t) value]. rewrite bind_put_cpu. unfold emit.
    by rewrite modify_run.
Qed.

(** The flags of a thread that enters user mode. *)
Definition running_flags (f : Z) : Z := Z.land f (inv_flags (NOT_RUNNING + DONT_PREEMPT)).

Lemma running_flags_bit f i :
  0 ≤ i < 16 → Z.testbit (running_flags f) i = Z.testbit f i && negb (9 =? i) && negb (10 =? i).
Proof.
  intros Hi. unfold running_flags. rewrite inv_flags_bit by done.
  change (NOT_RUNNING + DONT_PREEMPT) with (Z.lor (2 ^ 9) (2 ^ 10)).
  rewrite Z.lor_spec, !Z.pow2_bits_eqb by lia. by rewrite negb_orb, andb_assoc.
Qed.

Lemma resume_run e c l cpu table s t :
  ecs t !! e = Some c → isBlocked (flags c) = false → Z.testbit (flags c) 8 = false →
  currentPlace c = localPlace t → cpus t !! localPlace t = Some cpu → thread_state cpu = e →
  contents (eventQueue c) l → Forall (delivers s) (take 1 l) → has_as s e table →
  ∃ s' c' sr evs, resume e (set_threads t s) = Done (InUserMode e sr) s' ∧ same s s' ∧
    threads s' = mkThreads (<[e := c']> (ecs t)) (scs t)
      (<[localPlace t := mkCpu (current_ec cpu) e (fpu cpu) table (threadID cpu)]> (cpus t))
      (localPlace t) evs ∧
    event_returned s (with_flags (running_flags (flags c)) c) l c'.
Proof.
  intros He Hb Hl Hp Hc Ht Hq Hd Has. unfold resume.
  rewrite (bind_get_ec _ _ _ _ _ He), Hb, bind_put_ec.
  rewrite bind_assert by (by rewrite not_loaded_bit, Hl). rewrite bind_local.
  rewrite bind_assert by (by rewrite Hp, Z.eqb_refl).
  set (c1 := with_flags _ _). set (t1 := set_ecs _ _).
  destruct (return_event_run e c1 l s t1) as (s1 & c2 & Hr & Hs1 & Ht1 & Hev); [apply lookup_insert_eq|done|done|].
  rewrite (kbind_run _ _ _ _ _ Hr).
  destruct (typed_as_run s1 e table (has_as_same _ _ _ _ Hs1 Has)) as (a & p & info & Hty & Hinfo & Htab).
  rewrite <- bind_assoc, (kbind_run _ _ _ _ _ Hty), (kbind_run _ _ _ _ _ Hinfo), Htab.
  rewrite <- (set_threads_id s1), Ht1. change (localPlace t1) with (localPlace (set_ecs (<[e := c2]> (ecs t1)) t1)).
  destruct (setCR3_run table cpu s1 (set_ecs (<[e := c2]> (ecs t1)) t1)) as (evs & Hcr); [done|].
  rewrite (kbind_run _ _ _ _ _ Hcr). ec_simpl. unfold return_to_user.
  rewrite bind_local. erewrite bind_get_cpu by apply lookup_insert_eq. ec_simpl. rewrite Ht.
  erewrite bind_get_ec by apply lookup_insert_eq.
  eexists _, c2, _, _. split; [reflexivity|]. split; [eapply same_trans; [done|apply same_threads]|].
  rewrite threads_set. split; [|done]. unfold t1. ec_simpl. by rewrite insert_insert_eq.
Qed.

End events.

(** ** What is loaded where *)

Section switching.
Context {Q S : Type} `{Fifo Q} `{HasPageMaps S} `{KernelObjects S} `{HasCapMaps S}
  `{!HasRefs S} `{RefSubjects S} `{!HasThreads Q S} `{ThreadLayout}.
Implicit Types (t : Threads Q) (s : S) (c : EC Q).

(** A hardware thread and the thread it has loaded refer to each other; a thread
    that is not loaded has the flag NOT_LOADED. *)
Definition loaded_ok t : Prop :=
  (cpus t !! 0 = None ∧ ecs t !! 0 = None) ∧
  (∀ p cpu, cpus t !! p = Some cpu → thread_state cpu = current_ec cpu ∧
     (current_ec cpu ≠ 0 → ∃ c, ecs t !! current_ec cpu = Some c ∧ currentPlace c = p)) ∧
  (∀ e c, ecs t !! e = Some c → Z.testbit (flags c) 8 = bool_decide (currentPlace c = 0) ∧
     (currentPlace c ≠ 0 → ∃ cpu, cpus t !! currentPlace c = Some cpu ∧ current_ec cpu = e)).

(** The contents of the floating point registers of a thread: in the hardware
    thread that has loaded it, or saved. *)
Definition fpu_of t (e : Z) : option Z :=
  c ← ecs t !! e;
  if currentPlace c =? 0 then Some (fpuState c) else cpu ← cpus t !! currentPlace c; Some (fpu cpu).

(** Only what loading and saving changes is different. *)
Definition reloaded c c' : Prop :=
  (∀ i, 0 ≤ i < 16 → i ≠ 8 → Z.testbit (flags c') i = Z.testbit (flags c) i) ∧
  eventQueue c' = eventQueue c ∧ threadState c' = threadState c.

Lemma reloaded_refl c : reloaded c c.
Proof. done. Qed.

Lemma reloaded_trans c1 c2 c3 : reloaded c1 c2 → reloaded c2 c3 → reloaded c1 c3.
Proof.
  intros (Hf & Hq & Ht) (Hf' & Hq' & Ht'). split; [|by rewrite Hq', Ht'].
  intros i Hi H8. by rewrite Hf', Hf.
Qed.

Lemma reloaded_blocked c c' : reloaded c c' → isBlocked (flags c') = isBlocked (flags c).
Proof. intros (Hf & _). rewrite !isBlocked_bits, !Hf by lia. done. Qed.

Definition switched (p : Z) t t' : Prop :=
  scs t' = scs t ∧ localPlace t' = localPlace t ∧
  (∀ e, fpu_of t' e = fpu_of t e) ∧
  ∀ e c, ecs t !! e = Some c → ∃ c', ecs t' !! e = Some c' ∧ reloaded c c' ∧
    (currentPlace c' = currentPlace c ∨ currentPlace c' = 0 ∨ currentPlace c' = p).

Lemma switched_refl p t : switched p t t.
Proof. split; [done|]. split; [done|]. split; [done|]. eauto using reloaded_refl. Qed.

Lemma switched_trans p t1 t2 t3 : switched p t1 t2 → switched p t2 t3 → switched p t1 t3.
Proof.
  intros (Hs & Hl & Hf & He) (Hs' & Hl' & Hf' & He').
  split; [by rewrite Hs'|]. split; [by rewrite Hl'|]. split; [intros; by rewrite Hf'|].
  intros e c Hc. destruct (He e c Hc) as (c1 & Hc1 & Hr1 & Hp1).
  destruct (He' e c1 Hc1) as (c2 & Hc2 & Hr2 & Hp2). exists c2.
  split; [done|]. split; [by eapply reloaded_trans|]. naive_solver congruence.
Qed.

Lemma put_saved_ok e c cpu t :
  loaded_ok t → ecs t !! e = Some c → currentPlace c = localPlace t → localPlace t ≠ 0 →
  cpus t !! localPlace t = Some cpu → current_ec cpu = e →
  loaded_ok (put_saved (localPlace t) e c cpu t) ∧
  switched (localPlace t) t (put_saved (localPlace t) e c cpu t).
Proof.
  intros ((H0' & H0e) & Hcpu & Hec) He Hp Hp0 Hc Hce. set (p := localPlace t) in *.
  assert (Hother : ∀ e' c', e' ≠ e → ecs t !! e' = Some c' → currentPlace c' ≠ p).
  { intros e' c' Hne He' Hp'. destruct (Hec e' c' He') as [_ Hx].
    destruct Hx as (cpu' & Hc' & Hce'); [congruence|]. rewrite Hp', Hc in Hc'. congruence. }
  split.
  - split; [|split]; unfold put_saved; ec_simpl.
    + rewrite !lookup_insert_ne by (intros ->; congruence). done.
    + intros p' cpu' Hl. apply lookup_insert_Some in Hl as [(<- & <-)|(Hne & Hl)]; [done|].
      destruct (Hcpu p' cpu' Hl) as (? & Hx). split; [done|]. intros Hn.
      destruct (Hx Hn) as (c' & Hc' & Hp'). exists c'. split; [|done].
      rewrite lookup_insert_ne; [done|]. intros Heq. rewrite <- Heq in Hc'. congruence.
    + intros e' c' Hl. apply lookup_insert_Some in Hl as [(<- & <-)|(Hne & Hl)]; ec_simpl.
      * split; [|done]. by rewrite (set_bit _ _ _ 8), orb_true_r.
      * destruct (Hec e' c' Hl) as (? & Hx). split; [done|]. intros Hn.
        destruct (Hx Hn) as (cpu' & ? & ?). exists cpu'. split; [|done].
        rewrite lookup_insert_ne; [done|]. intros Hpp. by apply (Hother e' c').
  - split; [done|]. split; [done|]. split.
    + intros e'. unfold fpu_of, put_saved. ec_simpl.
      destruct (decide (e' = e)) as [->|Hne].
      * rewrite lookup_insert_eq, He. cbn. rewrite Hp.
        rewrite (proj2 (Z.eqb_neq _ _) Hp0). fold p. by rewrite Hc.
      * rewrite lookup_insert_ne by done. destruct (ecs t !! e') as [c'|] eqn:He'; [|done]. cbn.
        rewrite lookup_insert_ne; [done|]. intros Hpp. by apply (Hother e' c').
    + intros e' c' Hl. unfold put_saved. ec_simpl. destruct (decide (e' = e)) as [->|Hne].
      * rewrite lookup_insert_eq. eexists. split; [done|]. ec_simpl. split; [|by right; left].
        assert (c' = c) as -> by congruence. split; [|done]. ec_simpl. intros i Hi H8.
        rewrite (set_bit _ _ _ 8) by (done || lia). by rewrite (proj2 (Z.eqb_neq 8 i)), orb_false_r by lia.
      * rewrite lookup_insert_ne by done. eauto using reloaded_refl.
Qed.

Lemma put_loaded_ok e c cpu t :
  loaded_ok t → ecs t !! e = Some c → currentPlace c = 0 → localPlace t ≠ 0 →
  cpus t !! localPlace t = Some cpu → current_ec cpu = 0 →
  loaded_ok (put_loaded (localPlace t) e c cpu t) ∧
  switched (localPlace t) t (put_loaded (localPlace t) e c cpu t).
Proof.
  intros ((H0' & H0e) & Hcpu & Hec) He Hp Hp0 Hc Hce. set (p := localPlace t) in *.
  assert (Hother : ∀ e' c', e' ≠ e → ecs t !! e' = Some c' → currentPlace c' ≠ p).
  { intros e' c' Hne He' Hp'. destruct (Hec e' c' He') as [_ Hx].
    destruct Hx as (cpu' & Hc' & Hce'); [congruence|]. rewrite Hp', Hc in Hc'. congruence. }
  split.
  - split; [|split]; unfold put_loaded; ec_simpl.
    + rewrite !lookup_insert_ne by (intros ->; congruence). done.
    + intros p' cpu' Hl. apply lookup_insert_Some in Hl as [(<- & <-)|(Hne & Hl)]; ec_simpl.
      { split; [done|]. intros _. rewrite lookup_insert_eq. by eexists. }
      destruct (Hcpu p' cpu' Hl) as (? & Hx). split; [done|]. intros Hn.
      destruct (Hx Hn) as (c' & Hc' & Hp'). exists c'. split; [|done].
      rewrite lookup_insert_ne; [done|]. intros Heq. rewrite <- Heq in Hc'. congruence.
    + intros e' c' Hl. apply lookup_insert_Some in Hl as [(<- & <-)|(Hne & Hl)]; ec_simpl.
      * rewrite (clear_bit _ _ _ 8), andb_false_r by done. rewrite bool_decide_false by done.
        split; [done|]. intros _. rewrite lookup_insert_eq. by eexists.
      * destruct (Hec e' c' Hl) as (? & Hx). split; [done|]. intros Hn.
        destruct (Hx Hn) as (cpu' & ? & ?). exists cpu'. split; [|done].
        rewrite lookup_insert_ne; [done|]. intros Hpp. by apply (Hother e' c').
  - split; [done|]. split; [done|]. split.
    + intros e'. unfold fpu_of, put_loaded. ec_simpl.
      destruct (decide (e' = e)) as [->|Hne].
      * rewrite lookup_insert_eq, He. cbn. rewrite Hp, (proj2 (Z.eqb_neq _ _) Hp0).
        by rewrite lookup_insert_eq.
      * rewrite lookup_insert_ne by done. destruct (ecs t !! e') as [c'|] eqn:He'; [|done]. cbn.
        rewrite lookup_insert_ne; [done|]. intros Hpp. by apply (Hother e' c').
    + intros e' c' Hl. unfold put_loaded. ec_simpl. destruct (decide (e' = e)) as [->|Hne].
      * rewrite lookup_insert_eq. eexists. split; [done|]. ec_simpl. split; [|by right; right].
        assert (c' = c) as -> by congruence. split; [|done]. ec_simpl. intros i Hi H8.
        rewrite (clear_bit _ _ _ 8) by (done || lia).
        by rewrite (proj2 (Z.eqb_neq 8 i)), andb_true_r by lia.
      * rewrite lookup_insert_ne by done. eauto using reloaded_refl.
Qed.

(** The switch to a thread that is loaded nowhere else. *)
Definition switch_to (e : Z) (cpu : Cpu) : kernel S unit :=
  if negb (current_ec cpu =? e) then
    (if negb (current_ec cpu =? 0) then saveState (current_ec cpu) else kret tt);;;
    loadState e
  else kret tt.

(** The first part: whatever was loaded is saved. *)
Lemma unload_run e c cpu s t :
  loaded_ok t → localPlace t ≠ 0 → cpus t !! localPlace t = Some cpu → ecs t !! e = Some c →
  currentPlace c = 0 → current_ec cpu ≠ e →
  ∃ t1 cpu1, (if negb (current_ec cpu =? 0) then saveState (current_ec cpu) else kret tt)
      (set_threads t s) = Done tt (set_threads t1 s) ∧ loaded_ok t1 ∧
    switched (localPlace t) t t1 ∧ ecs t1 !! e = Some c ∧
    cpus t1 !! localPlace t = Some cpu1 ∧ current_ec cpu1 = 0.
Proof.
  intros Hok Hp0 Hc He Hcp Hne. pose proof Hok as (_ & Hcpu & Hec).
  destruct (Z.eqb_spec (current_ec cpu) 0) as [Hz|Hnz]; cbn [negb].
  - exists t, cpu. split; [done|]. split; [done|]. split; [apply switched_refl | done].
  - destruct (Hcpu _ _ Hc) as (Hts & Hx). destruct (Hx Hnz) as (c0 & Hc0 & Hp0').
    destruct (Hec _ _ Hc0) as (H8 & _). rewrite bool_decide_false in H8 by congruence.
    eexists _, _. split; [by apply saveState_run|].
    destruct (put_saved_ok _ c0 cpu t Hok Hc0 Hp0' Hp0 Hc eq_refl) as [Hok1 Hsw1].
    split; [exact Hok1|]. split; [exact Hsw1|]. unfold put_saved. ec_simpl.
    by rewrite lookup_insert_ne, lookup_insert_eq.
Qed.

Lemma switch_run e c cpu s t :
  loaded_ok t → localPlace t ≠ 0 → cpus t !! localPlace t = Some cpu → ecs t !! e = Some c →
  currentPlace c = 0 ∨ currentPlace c = localPlace t →
  ∃ t' c' cpu', switch_to e cpu (set_threads t s) = Done tt (set_threads t' s) ∧
    loaded_ok t' ∧ switched (localPlace t) t t' ∧
    ecs t' !! e = Some c' ∧ currentPlace c' = localPlace t ∧ Z.testbit (flags c') 8 = false ∧
    reloaded c c' ∧ cpus t' !! localPlace t = Some cpu' ∧
    current_ec cpu' = e ∧ thread_state cpu' = e.
Proof.
  intros Hok Hp0 Hc He Hp. pose proof Hok as ((_ & H0e) & Hcpu & Hec). unfold switch_to.
  destruct (Z.eqb_spec (current_ec cpu) e) as [Hce|Hne]; cbn [negb].
  - destruct (Hcpu _ _ Hc) as (Hts & Hx). destruct (Hec e c He) as (H8 & _).
    destruct Hx as (c' & Hc' & Hcp); [congruence|]. assert (c' = c) as -> by congruence.
    exists t, c, cpu. split; [done|]. split; [done|]. split; [apply switched_refl|].
    split; [done|]. split; [done|]. split; [by rewrite H8, bool_decide_false by congruence|].
    split; [done|]. split; [done|]. split; [done | congruence].
  - assert (Hcp : currentPlace c = 0).
    { destruct Hp as [?|Hp]; [done|]. destruct (Hec e c He) as (_ & Hx).
      destruct Hx as (cpu' & Hc' & ?); [congruence|]. rewrite Hp, Hc in Hc'. congruence. }
    destruct (unload_run e c cpu s t Hok Hp0 Hc He Hcp Hne) as (t1 & cpu1 & Hrun & Hok1 & Hsw1 & He1 & Hc1 & Hce1).
    pose proof Hsw1 as (_ & Hloc & _). pose proof Hok1 as (_ & H1b & H1c).
    destruct (H1b _ _ Hc1) as (Hts1 & _). destruct (H1c _ _ He1) as (H81 & _).
    rewrite bool_decide_true in H81 by done. rewrite <- Hloc in Hc1, Hp0, Hsw1 |- *.
    destruct (put_loaded_ok e c cpu1 t1 Hok1 He1 Hcp Hp0 Hc1 Hce1) as [Hok2 Hsw2].
    eexists _, _, _. rewrite (kbind_run _ _ _ _ _ Hrun).
    split; [apply (loadState_run s e c cpu1 t1); congruence || done|].
    split; [exact Hok2|]. split; [eapply switched_trans; [exact Hsw1|exact Hsw2]|].
    unfold put_loaded. ec_simpl. rewrite !lookup_insert_eq.
    split; [done|]. split; [done|]. ec_simpl.
    split; [by rewrite (clear_bit _ _ _ 8), andb_false_r|]. split; [|done].
    split; [|done]. ec_simpl. intros i Hi H8.
    rewrite (clear_bit _ _ _ 8) by (done || lia). by rewrite (proj2 (Z.eqb_neq 8 i)), andb_true_r by lia.
Qed.

End switching.

(** ** The scheduler *)

Section scheduler.
Context {Q S : Type} `{Fifo Q} `{HasPageMaps S} `{KernelObjects S} `{HasCapMaps S}
  `{!HasRefs S} `{RefSubjects S} `{!HasThreads Q S} `{ThreadLayout} `{!ThreadsApart Q S}
  `{KEventSources S}.
Implicit Types (t : Threads Q) (s : S) (c : EC Q).

(** The contexts the scheduler will try, in order. *)
Definition pending (sc : SC Q) (l : list Z) : list Z :=
  (if current_handle sc =? 0 then [] else [current_handle sc]) ++ l.

Definition blocked t (h : Z) : Prop :=
  ∃ c, ecs t !! handle_ec h = Some c ∧ isBlocked (flags c) = true.

(** A handle belongs to a thread that is loaded nowhere else, whose event
    sources deliver, and that has an address space unless it is blocked. *)
Definition schedulable s t (h : Z) : Prop :=
  ∃ e c l, h = ec_handle e ∧ ecs t !! e = Some c ∧
    (currentPlace c = 0 ∨ currentPlace c = localPlace t) ∧
    contents (eventQueue c) l ∧ Forall (delivers s) (take 1 l) ∧
    (isBlocked (flags c) = false → ∃ table, has_as s e table).

Lemma schedulable_switched s t t' h :
  switched (localPlace t) t t' → schedulable s t h → schedulable s t' h.
Proof.
  intros (_ & Hl & _ & He) (e & c & l & -> & Hc & Hp & Hq & Hd & Has).
  destruct (He e c Hc) as (c' & Hc' & Hre & Hp'). exists e, c', l.
  pose proof (reloaded_blocked _ _ Hre) as Hb. destruct Hre as (_ & Hq' & _).
  rewrite Hq', Hb, Hl. split_and!; [done..| |done|done|done]. naive_solver congruence.
Qed.

Lemma blocked_switched p t t' h : switched p t t' → blocked t h → blocked t' h.
Proof.
  intros (_ & _ & _ & He) (c & Hc & Hb). destruct (He _ _ Hc) as (c' & Hc' & Hre & _).
  exists c'. split; [done|]. by rewrite (reloaded_blocked _ _ Hre).
Qed.

(** The thread [e] runs in user mode at the local place. *)
Definition runs_user s t (e : Z) : Prop :=
  ∃ c cpu, ecs t !! e = Some c ∧ isBlocked (flags c) = false ∧ currentPlace c = localPlace t ∧
    Z.testbit (flags c) 5 = false ∧ Z.testbit (flags c) 8 = false ∧
    Z.testbit (flags c) 9 = false ∧ Z.testbit (flags c) 10 = false ∧
    cpus t !! localPlace t = Some cpu ∧ current_ec cpu = e ∧ thread_state cpu = e ∧
    has_as s e (cr3 cpu).

(** Updates of a thread and of the hardware thread that has loaded it. *)
Lemma update_ok e c c2 p cpu cpu2 ss evs t :
  loaded_ok t → ecs t !! e = Some c → currentPlace c ≠ 0 → currentPlace c2 = currentPlace c →
  Z.testbit (flags c2) 8 = Z.testbit (flags c) 8 → cpus t !! p = Some cpu →
  current_ec cpu2 = current_ec cpu → thread_state cpu2 = thread_state cpu → fpu cpu2 = fpu cpu →
  let t' := mkThreads (<[e := c2]> (ecs t)) ss (<[p := cpu2]> (cpus t)) (localPlace t) evs in
  loaded_ok t' ∧ ∀ x, fpu_of t' x = fpu_of t x.
Proof.
  intros ((H0c & H0e) & Hcpu & Hec) He Hne Hp H8 Hc Hce Hts Hf t'.
  assert (Hlc : ∀ q, (fpu <$> cpus t' !! q) = (fpu <$> cpus t !! q) ∧
                     (current_ec <$> cpus t' !! q) = (current_ec <$> cpus t !! q)).
  { intros q. unfold t'. cbn. destruct (decide (q = p)) as [->|Hq].
    - rewrite lookup_insert_eq, Hc. cbn. by rewrite Hf, Hce.
    - by rewrite lookup_insert_ne. }
  split; [split; [|split]|]; unfold t' in *; ec_simpl.
  - rewrite !lookup_insert_ne by (intros ->; congruence). done.
  - intros q cpu' Hl.
    assert (∃ cpu0, cpus t !! q = Some cpu0 ∧ current_ec cpu' = current_ec cpu0 ∧
                    thread_state cpu' = thread_state cpu0) as (cpu0 & Hl0 & -> & ->).
    { apply lookup_insert_Some in Hl as [(<- & <-)|(Hn & Hl)]; eauto. }
    destruct (Hcpu q cpu0 Hl0) as (? & Hx). split; [done|]. intros Hn.
    destruct (Hx Hn) as (c' & Hc' & Hp'). destruct (decide (current_ec cpu0 = e)) as [Heq|Hne'].
    + rewrite Heq in Hc' |- *. rewrite lookup_insert_eq. exists c2. split; [done|]. congruence.
    + rewrite lookup_insert_ne by done. eauto.
  - intros e' c' Hl.
    assert (∃ c0, ecs t !! e' = Some c0 ∧ currentPlace c' = currentPlace c0 ∧
                  Z.testbit (flags c') 8 = Z.testbit (flags c0) 8) as (c0 & Hl0 & -> & ->).
    { apply lookup_insert_Some in Hl as [(<- & <-)|(Hn & Hl)]; eauto. }
    destruct (Hec e' c0 Hl0) as (? & Hx). split; [done|]. intros Hn.
    destruct (Hx Hn) as (cpu0 & Hc0 & <-). destruct (Hlc (currentPlace c0)) as (_ & Hl2).
    rewrite Hc0 in Hl2. destruct (<[p := cpu2]> (cpus t) !! currentPlace c0) as [x|]; [|done]. cbn in Hl2.
    exists x. split; [done|]. congruence.
  - intros x. unfold fpu_of. cbn. destruct (decide (x = e)) as [->|Hx].
    + rewrite lookup_insert_eq, He. cbn. rewrite Hp, (proj2 (Z.eqb_neq _ _) Hne).
      destruct (Hlc (currentPlace c)) as (Hl1 & _).
      destruct (<[p := cpu2]> (cpus t) !! currentPlace c), (cpus t !! currentPlace c); cbn in *; congruence.
    + rewrite lookup_insert_ne by done. destruct (ecs t !! x) as [c0|]; [|done]. cbn.
      destruct (currentPlace c0 =? 0); [done|]. destruct (Hlc (currentPlace c0)) as (Hl1 & _).
      destruct (<[p := cpu2]> (cpus t) !! currentPlace c0), (cpus t !! currentPlace c0); cbn in *; congruence.
Qed.

(** Running the selected thread when it is not blocked. *)
Lemma run_selected a sc e c cpu s t :
  loaded_ok t → localPlace t ≠ 0 → scs t !! a = Some sc → home sc = localPlace t →
  cpus t !! localPlace t = Some cpu → current_handle sc = ec_handle e →
  schedulable s t (ec_handle e) → ecs t !! e = Some c → isBlocked (flags c) = false →
  ∃ sr s', try_current a (set_threads t s) = Done (InUserMode e sr) s' ∧
    loaded_ok (threads s') ∧ scs (threads s') = scs t ∧
    (∀ x, fpu_of (threads s') x = fpu_of t x) ∧ runs_user s (threads s') e.
Proof.
  intros Hok Hp0 Ha Hh Hc Hcur Hs He Hb. unfold try_current.
  rewrite (bind_get_sc _ _ _ _ _ Ha), Hcur, (proj2 (Z.eqb_neq _ _) (ec_handle_nonzero e)), Hh.
  rewrite (bind_get_cpu _ _ _ _ _ Hc), handle_ec_handle.
  destruct Hs as (e' & c0 & l & Heq & He' & Hp & Hq & Hd & Has).
  assert (e' = e) as -> by (by rewrite <- (handle_ec_handle e'), <- Heq, handle_ec_handle).
  assert (c0 = c) as -> by congruence. destruct (Has Hb) as (table & Htab).
  destruct (switch_run e c cpu s t Hok Hp0 Hc He Hp)
    as (t1 & c1 & cpu1 & Hsw & Hok1 & Hsws & He1 & Hp1 & H81 & Hre & Hc1 & Hce1 & Hts1).
  rewrite (kbind_run _ _ _ _ _ Hsw). pose proof Hsws as (Hscs & Hloc & Hfpu & _).
  pose proof (reloaded_blocked _ _ Hre) as Hb1. destruct Hre as (Hfl & Hq1 & _).
  rewrite <- Hloc in Hc1, Hp1, Hp0. rewrite <- Hq1 in Hq. rewrite Hb in Hb1.
  destruct (resume_run e c1 l cpu1 table s t1) as (s' & c' & sr & evs & Hrun & Hsame & Hth & Hev); try done.
  rewrite (kbind_run _ _ _ _ _ Hrun). exists sr, s'. split; [done|].
  destruct Hev as (Hpl & H5' & Hbits & _). ec_simpl.
  assert (Hbit : ∀ i, 0 ≤ i < 16 → i ≠ 5 → i ≠ 6 →
    Z.testbit (flags c') i = Z.testbit (flags c1) i && negb (9 =? i) && negb (10 =? i)).
  { intros i Hi Hi5 Hi6. by rewrite (Hbits i Hi Hi5 Hi6), running_flags_bit. }
  destruct (update_ok e c1 c' (localPlace t1) cpu1
              (mkCpu (current_ec cpu1) e (fpu cpu1) table (threadID cpu1)) (scs t1) evs t1)
    as [Hok2 Hf2]; [done|done|congruence|done|by rewrite Hbit, !andb_true_r|done..|].
  rewrite Hth. split; [exact Hok2|]. split; [done|]. split; [intros x; by rewrite Hf2|].
  exists c', (mkCpu (current_ec cpu1) e (fpu cpu1) table (threadID cpu1)). ec_simpl.
  rewrite !lookup_insert_eq, !isBlocked_bits in *.
  rewrite (Hbit 0), (Hbit 1), (Hbit 2), (Hbit 3), (Hbit 7), (Hbit 8), (Hbit 9), (Hbit 10) by lia.
  cbn [Z.eqb Pos.eqb negb]. rewrite !andb_true_r, ?andb_false_r.
  split_and!; done || congruence.
Qed.

Lemma scs_ok (m : gmap Z (SC Q)) t : loaded_ok t → loaded_ok (set_scs m t).
Proof. done. Qed.

(** When nothing is selected, or a blocked thread, nothing is selected
    afterwards. *)
Lemma deselect a sc cpu s t :
  loaded_ok t → localPlace t ≠ 0 → scs t !! a = Some sc → home sc = localPlace t →
  cpus t !! localPlace t = Some cpu →
  current_handle sc = 0 ∨ schedulable s t (current_handle sc) ∧ blocked t (current_handle sc) →
  ∃ t1 cpu1, try_current a (set_threads t s) =
      Done Returned (set_threads (set_scs (<[a := mkSC (home sc) (readyQueue sc) 0]> (scs t)) t1) s) ∧
    loaded_ok t1 ∧ switched (localPlace t) t t1 ∧ cpus t1 !! localPlace t = Some cpu1.
Proof.
  intros Hok Hp0 Ha Hh Hc Hcur. unfold try_current. rewrite (bind_get_sc _ _ _ _ _ Ha).
  destruct (Z.eqb_spec (current_handle sc) 0) as [Hz|Hz].
  - exists t, cpu. split; [|split; [done|]; split; [apply switched_refl|done]].
    rewrite insert_id by (rewrite Ha; f_equal; destruct sc; cbn in *; congruence). by destruct t.
  - destruct Hcur as [?|[(e & c & l & Heq & He & Hp & _) (c' & Hc' & Hb)]]; [done|].
    rewrite Heq in Hc' |- *. rewrite handle_ec_handle in Hc' |- *. simplify_eq.
    rewrite Hh, (bind_get_cpu _ _ _ _ _ Hc).
    destruct (switch_run e c cpu s t Hok Hp0 Hc He Hp)
      as (t1 & c1 & cpu1 & Hsw & Hok1 & Hsws & He1 & _ & _ & Hre & Hc1 & _).
    rewrite (kbind_run _ _ _ _ _ Hsw). pose proof Hsws as (Hscs & _).
    rewrite (kbind_run _ _ _ _ _ (resume_blocked e c1 s t1 He1 ltac:(by rewrite (reloaded_blocked _ _ Hre)))).
    rewrite <- Hscs in Ha. rewrite (bind_get_sc _ _ _ _ _ Ha), bind_put_sc.
    exists t1, cpu1. by rewrite Hscs, Hh.
Qed.

(** The search skips blocked threads. *)
Lemma next_ready_run s t l : ∀ fuel (q : Q),
  contents q l → Forall (schedulable s t) l → (length l < fuel)%nat →
  ∃ h q' l1 l2, next_ready fuel q (set_threads t s) = Done (h, q') (set_threads t s) ∧
    Forall (blocked t) l1 ∧ contents q' l2 ∧
    (h = 0 ∧ l = l1 ∧ l2 = [] ∨
     l = l1 ++ h :: l2 ∧ schedulable s t h ∧ h ≠ 0 ∧
       ∃ c, ecs t !! handle_ec h = Some c ∧ isBlocked (flags c) = false).
Proof.
  induction l as [|h l IH]; intros fuel q Hq Hs Hf; (destruct fuel as [|fuel]; [lia|]); cbn [next_ready].
  - rewrite (contents_pull_nil q Hq). exists 0, q, [], []. by repeat split; auto.
  - destruct (contents_nodup _ _ Hq) as [_ H0']. destruct (contents_pull q l h Hq) as (q1 & -> & Hq1).
    rewrite (proj2 (Z.eqb_neq h 0)) by set_solver. apply Forall_cons in Hs as [Hh Hs].
    pose proof Hh as (e & c & ll & -> & He & _). rewrite handle_ec_handle.
    rewrite (kbind_run _ _ _ _ _ (isReady_run s e c t He)).
    destruct (isBlocked (flags c)) eqn:Hb; cbn [negb].
    + destruct (IH fuel q1 Hq1 Hs ltac:(cbn in Hf; lia)) as (h' & q' & l1 & l2 & Hr & Hbl & Hq' & Hcase).
      exists h', q', (ec_handle e :: l1), l2. split; [done|].
      split; [constructor; [exists c; by rewrite handle_ec_handle|done]|]. split; [done|].
      destruct Hcase as [(-> & -> & ->)|(-> & ?)]; [by left | by right].
    + exists (ec_handle e), q1, [], l. split; [done|]. split; [done|]. split; [done|]. right.
      split; [done|]. split; [done|]. split; [apply ec_handle_nonzero|].
      rewrite handle_ec_handle. eauto.
Qed.

(** What the scheduler achieves from a state [t] in which it has [ps] to try. *)
Definition scheduled s t a (ps : list Z) (r : resumed) (s' : S) : Prop :=
  loaded_ok (threads s') ∧ (∀ x, fpu_of (threads s') x = fpu_of t x) ∧
  ∃ p q, scs (threads s') !! a = Some (mkSC p q (match r with Returned => 0 | InUserMode e _ => ec_handle e end)) ∧
  match r with
  | Returned => Forall (blocked t) ps ∧ contents q []
  | InUserMode e _ => ∃ l1 l2 c, ps = l1 ++ ec_handle e :: l2 ∧ Forall (blocked t) l1 ∧
      ecs t !! e = Some c ∧ isBlocked (flags c) = false ∧ contents q l2 ∧
      runs_user s (threads s') e
  end.

(** A round with a selected thread that is not blocked. *)
Lemma round_selected n a sc l e c cpu s t :
  loaded_ok t → localPlace t ≠ 0 → scs t !! a = Some sc → home sc = localPlace t →
  cpus t !! localPlace t = Some cpu → current_handle sc = ec_handle e →
  contents (readyQueue sc) l → schedulable s t (ec_handle e) →
  ecs t !! e = Some c → isBlocked (flags c) = false →
  ∃ sr s', tryRunUser (Datatypes.S n) a (set_threads t s) = Done (InUserMode e sr) s' ∧
    scheduled s t a (ec_handle e :: l) (InUserMode e sr) s'.
Proof.
  intros Hok Hp0 Ha Hh Hc Hcur Hq Hs He Hb. cbn [tryRunUser].
  rewrite bind_local, (bind_get_sc _ _ _ _ _ Ha), bind_assert by (by rewrite Hh, Z.eqb_refl).
  destruct (run_selected a sc e c cpu s t Hok Hp0 Ha Hh Hc Hcur Hs He Hb)
    as (sr & s' & Hr & Hok' & Hscs & Hf & Hru).
  rewrite (kbind_run _ _ _ _ _ Hr). exists sr, s'. split; [done|].
  split; [done|]. split; [done|]. exists (home sc), (readyQueue sc).
  rewrite Hscs, Ha. split; [by destruct sc; cbn in *; subst|].
  exists [], l, c. by repeat split.
Qed.

(** Blocked threads in front of the others do not matter, nor what a switch
    changes. *)
Lemma scheduled_skip p s t t1 a l1 ps r s' :
  switched p t t1 → Forall (blocked t) l1 → Forall (schedulable s t) ps →
  scheduled s t1 a ps r s' → scheduled s t a (l1 ++ ps) r s'.
Proof.
  intros (_ & _ & Hfp & Hsw) Hl1 Hps (Hok & Hf & q & rq & Ha & Hr).
  assert (Hback : ∀ h, h ∈ ps → blocked t1 h → blocked t h).
  { intros h Hh (c1 & Hc1 & Hb1). rewrite Forall_forall in Hps.
    destruct (Hps h Hh) as (e & c & ll & -> & He & _). rewrite handle_ec_handle in Hc1.
    destruct (Hsw e c He) as (c' & Hc' & Hre & _). exists c. rewrite handle_ec_handle.
    split; [done|]. rewrite <- (reloaded_blocked _ _ Hre). congruence. }
  split; [done|]. split; [intros x; by rewrite Hf|]. exists q, rq. split; [done|]. destruct r as [|e sr].
  - destruct Hr as [Hb Hq]. split; [|done]. apply Forall_app. split; [done|].
    apply Forall_forall. intros h Hh. apply Hback; [done|]. rewrite Forall_forall in Hb. auto.
  - destruct Hr as (m1 & m2 & c & -> & Hb & He & Hbc & Hq & Hru).
    rewrite Forall_app, Forall_cons in Hps. destruct Hps as (_ & (e' & c0 & ll & Heq & He0 & _) & _).
    assert (e' = e) as -> by (by rewrite <- (handle_ec_handle e'), <- Heq, handle_ec_handle).
    destruct (Hsw e c0 He0) as (c' & Hc' & Hre & _).
    exists (l1 ++ m1), m2, c0. rewrite <- app_assoc. split; [done|].
    split; [|split; [done|]; split; [rewrite <- (reloaded_blocked _ _ Hre); congruence|done]].
    apply Forall_app. split; [done|]. rewrite Forall_forall in Hb |- *. intros h Hh.
    apply Hback; [set_solver|auto].
Qed.

(** A round in which nothing, or a blocked thread, is selected. *)
Lemma round_search n a sc l cpu s t :
  loaded_ok t → localPlace t ≠ 0 → scs t !! a = Some sc → home sc = localPlace t →
  cpus t !! localPlace t = Some cpu → contents (readyQueue sc) l → Forall (schedulable s t) l →
  current_handle sc = 0 ∨ schedulable s t (current_handle sc) ∧ blocked t (current_handle sc) →
  (length l < Datatypes.S (Datatypes.S n))%nat →
  ∃ r s', tryRunUser (Datatypes.S (Datatypes.S n)) a (set_threads t s) = Done r s' ∧
          scheduled s t a l r s'.
Proof.
  intros Hok Hp0 Ha Hh Hc Hq Hl Hcur Hf.
  destruct (deselect a sc cpu s t Hok Hp0 Ha Hh Hc Hcur) as (t1 & cpu1 & Hr1 & Hok1 & Hsw1 & Hc1).
  pose proof Hsw1 as (Hscs1 & Hloc1 & _).
  set (fuel := Datatypes.S n) in *. cbn [tryRunUser].
  rewrite bind_local, (bind_get_sc _ _ _ _ _ Ha), bind_assert by (by rewrite Hh, Z.eqb_refl).
  rewrite (kbind_run _ _ _ _ _ Hr1). erewrite bind_get_sc by (cbn; apply lookup_insert_eq).
  ec_simpl. set (t2 := set_scs _ t1).
  assert (Hl2 : Forall (schedulable s t2) l).
  { eapply Forall_impl; [exact Hl|]. intros h Hs. by apply (schedulable_switched s t t1 h). }
  destruct (next_ready_run s t2 l (Datatypes.S fuel) (readyQueue sc) Hq Hl2 Hf)
    as (h & q' & l1 & l2 & Hnr & Hb & Hq' & Hcase).
  rewrite (kbind_run _ _ _ _ _ Hnr), bind_put_sc.
  destruct Hcase as [(-> & -> & ->)|(-> & Hs & Hne & c & He & Hbc)].
  - eexists Returned, _. split; [reflexivity|].
    apply (scheduled_skip (localPlace t) s t t1 a [] l1); [done|constructor|done|].
    split; [by rewrite threads_set|]. split; [by rewrite threads_set|].
    exists (home sc), q'. rewrite threads_set. split; [apply lookup_insert_eq|]. done.
  - pose proof Hs as (e & c' & ll & -> & He' & _). rewrite (proj2 (Z.eqb_neq _ _) Hne).
    rewrite handle_ec_handle in He. set (t3 := set_scs _ t2).
    apply (Forall_app (schedulable s t2)) in Hl2 as Hl3. destruct Hl3 as [_ Hl3].
    destruct (round_selected n a (mkSC (home sc) q' (ec_handle e)) l2 e c cpu1 s t3)
      as (sr & s' & Hr & Hsch); try done.
    { cbn. by rewrite Hloc1. }
    { apply lookup_insert_eq. }
    { cbn. by rewrite Hloc1. }
    { cbn. by rewrite Hloc1. }
    eexists _, s'. split; [exact Hr|].
    apply (scheduled_skip (localPlace t) s t t1 a [] _ _ _ Hsw1 (Forall_nil_2 _) Hl).
    apply (scheduled_skip (localPlace t) s t3 t3 a l1); [apply switched_refl|done..].
Qed.

(** C4: the scheduler runs the first ready thread.  [tryRunUser] tries the
    selected context and then the ready queue in order: it enters user mode with
    the first one that is not blocked, with that thread's registers, floating
    point contents and address space loaded, or returns, and then all of them are
    blocked and the queue is empty.  No assertion fails, the floating point
    contents of all threads are kept, and two rounds with one pull per waiting
    context are enough. *)
Theorem tryRunUser_correct fuel a sc l cpu s :
  let t := threads s in
  loaded_ok t → localPlace t ≠ 0 → scs t !! a = Some sc → home sc = localPlace t →
  cpus t !! localPlace t = Some cpu → contents (readyQueue sc) l →
  Forall (schedulable s t) (pending sc l) → (length l + 2 ≤ fuel)%nat →
  ∃ r s', tryRunUser fuel a s = Done r s' ∧ scheduled s t a (pending sc l) r s'.
Proof.
  intros t Hok Hp0 Ha Hh Hc Hq Hps Hf.
  enough (Hgoal : ∃ r s', tryRunUser fuel a (set_threads t s) = Done r s' ∧
                          scheduled s t a (pending sc l) r s')
    by (unfold t in Hgoal at 1; by rewrite set_threads_id in Hgoal).
  destruct fuel as [|[|n]]; [lia..|]. unfold pending in *.
  destruct (Z.eqb_spec (current_handle sc) 0) as [Hz|Hz]; cbn [app] in *.
  - apply (round_search n a sc l cpu s t); auto. lia.
  - apply Forall_cons in Hps as [Hs Hps]. pose proof Hs as (e & c & ll & Heq & He & _).
    destruct (isBlocked (flags c)) eqn:Hb.
    + assert (Hbl : blocked t (current_handle sc))
        by (exists c; by rewrite Heq, handle_ec_handle).
      destruct (round_search n a sc l cpu s t) as (r & s' & Hr & Hsch); auto; [lia|].
      exists r, s'. split; [done|].
      apply (scheduled_skip (localPlace t) s t t a [current_handle sc] l r s'); auto.
      apply switched_refl.
    + rewrite Heq in Hs |- *.
      destruct (round_selected (Datatypes.S n) a sc l e c cpu s t) as (sr & s' & ? & ?); eauto.
Qed.

End scheduler.

(** ** Becoming ready *)

Section ready.
Context {Q S : Type} `{Fifo Q} `{HasPageMaps S} `{KernelObjects S} `{HasCapMaps S}
  `{!HasRefs S} `{RefSubjects S} `{!HasThreads Q S} `{ThreadLayout}.
Implicit Types (t : Threads Q) (s : S) (c : EC Q).

(** The scheduler of a thread. *)
Definition scheduler_of s t (e : Z) : option Z :=
  if isUsable (orig s (sched_ref e)) then
    match scs t !! getPtr (orig s (sched_ref e)) with
    | Some _ => Some (getPtr (orig s (sched_ref e)))
    | None => None
    end
  else None.

Definition queues_ok t : Prop := ∀ a sc, scs t !! a = Some sc → ∃ l, contents (readyQueue sc) l.

(** The thread is the last one in the ready queue of its scheduler, and the
    hardware thread gets a wakeup unless it runs another thread. *)
Definition queued_last t t' (a h : Z) : Prop :=
  ∃ sc sc' l, scs t !! a = Some sc ∧ contents (readyQueue sc) l ∧
    scs t' = <[a := sc']> (scs t) ∧ home sc' = home sc ∧ current_handle sc' = current_handle sc ∧
    contents (readyQueue sc') (filter (.≠ h) l ++ [h]) ∧
    events t' = events t ++
      (if (current_handle sc =? 0) || (current_handle sc =? h) then [Preempt (home sc)] else []).

Lemma SC_ready_run a sc l h s t :
  scs t !! a = Some sc → contents (readyQueue sc) l → h ≠ 0 →
  ∃ t', SC_ready a h (set_threads t s) = Done tt (set_threads t' s) ∧
    ecs t' = ecs t ∧ cpus t' = cpus t ∧ localPlace t' = localPlace t ∧ queued_last t t' a h.
Proof.
  intros Ha Hq Hh. unfold SC_ready, k_remove, k_push.
  rewrite bind_assert by (by rewrite (proj2 (Z.eqb_neq h 0))).
  rewrite (bind_get_sc _ _ _ _ _ Ha).
  destruct (contents_remove _ _ h Hq Hh) as (q1 & -> & Hq1). rewrite bind_ret.
  destruct (contents_push q1 _ h Hq1 Hh) as (q2 & -> & Hq2).
  { rewrite list_elem_of_filter. by intros [[] _]. }
  rewrite bind_ret, bind_put_sc. unfold emit.
  destruct ((current_handle sc =? 0) || (current_handle sc =? h)) eqn:Hw;
    [rewrite modify_run|]; eexists; (split; [reflexivity|]); do 3 (split; [done|]);
    exists sc, (mkSC (home sc) q2 (current_handle sc)), l; rewrite Hw; cbn; by rewrite ?app_nil_r.
Qed.

Lemma queued_last_ok t t' a h : queues_ok t → queued_last t t' a h → queues_ok t'.
Proof.
  intros Hq (sc & sc' & l & _ & _ & Hscs & _ & _ & Hl & _) a' x. rewrite Hscs. intros Hx.
  apply lookup_insert_Some in Hx as [(<- & <-)|(_ & Hx)]; eauto.
Qed.

(** The context with the handle [h] waits for its turn at the scheduler [a]. *)
Definition queued t (a h : Z) : Prop :=
  ∃ sc l, scs t !! a = Some sc ∧ contents (readyQueue sc) l ∧ h ∈ l.

Lemma queued_last_queued t t' a h : queued_last t t' a h → queued t' a h.
Proof.
  intros (sc & sc' & l & _ & _ & Hscs & _ & _ & Hl & _). exists sc', (filter (.≠ h) l ++ [h]).
  rewrite Hscs, lookup_insert_eq. split; [done|]. split; [done|]. apply elem_of_app. right. by left.
Qed.

Lemma queued_last_keeps t t' a h a' h' : queued_last t t' a h → queued t a' h' → queued t' a' h'.
Proof.
  intros (sc & sc' & l & Ha & Hq & Hscs & _ & _ & Hl & _) (sc1 & l1 & Ha1 & Hq1 & Hin).
  destruct (decide (a' = a)) as [->|Hne].
  - rewrite Ha in Ha1. injection Ha1 as <-. pose proof (contents_items _ _ Hq) as Hi.
    rewrite (contents_items _ _ Hq1) in Hi. injection Hi as ->.
    exists sc', (filter (.≠ h) l ++ [h]). rewrite Hscs, lookup_insert_eq. split; [done|]. split; [done|].
    destruct (decide (h' = h)) as [->|Hn]; apply elem_of_app; [right; by left|].
    left. by apply list_elem_of_filter.
  - exists sc1, l1. by rewrite Hscs, lookup_insert_ne.
Qed.

Lemma clearFlagsResume_run e f c s t :
  ecs t !! e = Some c → queues_ok t →
  ∃ t', clearFlagsResume e f (set_threads t s) = Done tt (set_threads t' s) ∧
    ecs t' = <[e := with_flags (Z.land (flags c) (inv_flags f)) c]> (ecs t) ∧
    cpus t' = cpus t ∧ localPlace t' = localPlace t ∧ queues_ok t' ∧
    if isBlocked (flags c) && negb (isBlocked (Z.land (flags c) (inv_flags f)))
    then match scheduler_of s t e with
         | Some a => queued_last t t' a (ec_handle e)
         | None => scs t' = scs t ∧ events t' = events t
         end
    else scs t' = scs t ∧ events t' = events t.
Proof.
  intros He Hqs. unfold clearFlagsResume.
  rewrite (kbind_run _ _ _ _ _ (clearFlags_run s e f c t He)).
  erewrite kbind_run by (apply isReady_run; cbn; apply lookup_insert_eq).
  set (t1 := set_ecs _ t). cbn [flags with_flags].
  destruct (isBlocked (flags c) && _); [|by exists t1].
  unfold CapRef_cap, castScheduler, kbind, kget, kret. rewrite orig_set_threads.
  unfold scheduler_of. destruct (isUsable (orig s (sched_ref e))); [|by exists t1].
  rewrite threads_set. change (scs t1) with (scs t).
  destruct (scs t !! getPtr (orig s (sched_ref e))) as [sc|] eqn:Ha; [|by exists t1].
  destruct (Hqs _ _ Ha) as [l Hq].
  destruct (SC_ready_run _ sc l (ec_handle e) s t1 Ha Hq (ec_handle_nonzero e))
    as (t' & Hr & Hecs & Hcp & Hl & Hlast).
  exists t'. split; [done|]. split; [done|]. split; [done|]. split; [done|].
  split; [by apply (queued_last_ok t1 t' _ _ Hqs Hlast) | done].
Qed.

(** C15: a thread that becomes ready is scheduled.  Clearing flags with
    [clearFlagsResume] changes nothing but the flags unless it removes the last
    reason to be blocked; then the thread is put at the end of the ready queue of
    its scheduler, once, and the scheduler's hardware thread is woken up unless
    another thread is selected there. *)
Theorem clearFlagsResume_schedules e f c s :
  let t := threads s in
  ecs t !! e = Some c → queues_ok t →
  ∃ s' t', clearFlagsResume e f s = Done tt s' ∧ s' = set_threads t' s ∧
    ecs t' = <[e := with_flags (Z.land (flags c) (inv_flags f)) c]> (ecs t) ∧
    cpus t' = cpus t ∧ localPlace t' = localPlace t ∧
    if isBlocked (flags c) && negb (isBlocked (Z.land (flags c) (inv_flags f)))
    then match scheduler_of s t e with
         | Some a => queued_last t t' a (ec_handle e)
         | None => scs t' = scs t ∧ events t' = events t
         end
    else scs t' = scs t ∧ events t' = events t.
Proof.
  intros t He Hqs. destruct (clearFlagsResume_run e f c s t He Hqs) as (t' & Hr & He' & Hc & Hl & _ & Hrest).
  unfold t in Hr. rewrite set_threads_id in Hr. by exists (set_threads t' s), t'.
Qed.

(** Whatever happens to one thread, the others keep their turn. *)
Lemma clearFlagsResume_keeps e f c s t t' :
  ecs t !! e = Some c → queues_ok t →
  clearFlagsResume e f (set_threads t s) = Done tt (set_threads t' s) →
  ∀ a h, queued t a h → queued t' a h.
Proof.
  intros He Hqs Hr a h Hin. destruct (clearFlagsResume_run e f c s t He Hqs) as (t1 & Hr1 & _ & _ & _ & _ & Hrest).
  rewrite Hr in Hr1. injection Hr1 as Heq. apply (f_equal threads) in Heq. rewrite !threads_set in Heq. subst t1.
  destruct (isBlocked (flags c) && _); [destruct (scheduler_of s t e); [by eapply queued_last_keeps|]|];
    destruct Hrest as [Hscs _]; unfold queued; by rewrite Hscs.
Qed.

(** An event is queued and ends the waiting of the thread. *)
Lemma attachKEvent_run e h c l s t :
  ecs t !! e = Some c → contents (eventQueue c) l → h ≠ 0 → h ∉ l → queues_ok t →
  ∃ t' c', attachKEvent e h (set_threads t s) = Done tt (set_threads t' s) ∧
    ecs t' = <[e := c']> (ecs t) ∧ contents (eventQueue c') (l ++ [h]) ∧
    flags c' = Z.land (flags c) (inv_flags IS_WAITING) ∧ currentPlace c' = currentPlace c ∧
    cpus t' = cpus t ∧ localPlace t' = localPlace t ∧ queues_ok t' ∧
    ∀ a x, queued t a x → queued t' a x.
Proof.
  intros He Hq Hh Hl Hqs. unfold attachKEvent, k_push. rewrite (bind_get_ec _ _ _ _ _ He).
  destruct (contents_push _ _ h Hq Hh Hl) as (q' & -> & Hq'). rewrite bind_ret, bind_put_ec.
  destruct (clearFlagsResume_run e IS_WAITING (with_eventQueue q' c) s
              (set_ecs (<[e := with_eventQueue q' c]> (ecs t)) t)) as (t' & Hr & Hecs & Hcp & Hloc & Hqs' & _);
    [apply lookup_insert_eq | done |].
  eexists t', _. split; [exact Hr|]. cbn in Hecs. rewrite insert_insert_eq in Hecs.
  split; [exact Hecs|]. do 5 (split; [done|]). split; [done|].
  exact (clearFlagsResume_keeps e IS_WAITING (with_eventQueue q' c) s
           (set_ecs (<[e := with_eventQueue q' c]> (ecs t)) t) t' (lookup_insert_eq _ _ _) Hqs Hr).
Qed.

Lemma detachKEvent_run e h c l s t :
  ecs t !! e = Some c → contents (eventQueue c) l → h ≠ 0 →
  ∃ q', detachKEvent e h (set_threads t s) =
      Done tt (set_threads (set_ecs (<[e := with_eventQueue q' c]> (ecs t)) t) s) ∧
    contents q' (filter (.≠ h) l).
Proof.
  intros He Hq Hh. unfold detachKEvent, k_remove. rewrite (bind_get_ec _ _ _ _ _ He).
  destruct (contents_remove _ _ h Hq Hh) as (q' & -> & Hq'). exists q'.
  by rewrite bind_ret, put_ec_run.
Qed.

End ready.
