(* ===== verification/Portal.v ===== *)
(** * Portals

    Models objects/portal/objects/Portal.hh and .cc with the message of
    mythos/invocation/mythos/protocol/Portal.hh: the object through which a
    thread sends an invocation to a kernel object and gets the reply back as an
    event.

    The owner of a portal is any event sink with a capability space: the class
    [PortalUsers], which execution contexts implement.  The invoked object is the
    class [Invocables]; the reference counts of capability maps and the
    revocations a portal starts are recorded as events of the portals. *)

From stdpp Require Import base tactics numbers list gmap.
From Stdlib Require Import ZArith Lia.
From S2P Require Import Prelude Ranges Bitfield Cap CapEntry CapRing CapSteps CapOps Heap KernelMemory CapMap Frame PageTable PageMap LinkedList Threads Scheduling.

Local Open Scope Z_scope.
Import PhysPtr.

(** [Portal::State], objects/portal/objects/Portal.hh:80 *)
Inductive PortalState := OPEN | INVOKING | REPLYING.

#[global] Instance PortalState_eq_dec : EqDecision PortalState.
Proof. solve_decision. Defined.

(** The members of [Portal] that are not capability references or handles,
    objects/portal/objects/Portal.hh:141-152 *)
Record Portal := mkPortal {
  ib : Z; ibNew : Z; uctx : Z; portalState : PortalState; replyError : Error;
  currentDest : CapEntryRef; destCap : Z }.

Definition with_ib (v : Z) (p : Portal) : Portal :=
  mkPortal v (ibNew p) (uctx p) (portalState p) (replyError p) (currentDest p) (destCap p).
Definition with_ibNew (v : Z) (p : Portal) : Portal :=
  mkPortal (ib p) v (uctx p) (portalState p) (replyError p) (currentDest p) (destCap p).
Definition with_uctx (v : Z) (p : Portal) : Portal :=
  mkPortal (ib p) (ibNew p) v (portalState p) (replyError p) (currentDest p) (destCap p).
Definition with_state (v : PortalState) (p : Portal) : Portal :=
  mkPortal (ib p) (ibNew p) (uctx p) v (replyError p) (currentDest p) (destCap p).
Definition with_replyError (v : Error) (p : Portal) : Portal :=
  mkPortal (ib p) (ibNew p) (uctx p) (portalState p) v (currentDest p) (destCap p).
Definition with_dest (r : CapEntryRef) (c : Z) (p : Portal) : Portal :=
  mkPortal (ib p) (ibNew p) (uctx p) (portalState p) (replyError p) r c.

Inductive PortalEvent :=
  | AcquireRef (container : Z)
  | ReleaseRef (container : Z)
  | StartDelete (portal entry : Z)
  | StartRevoke (portal entry : Z)
  | DeletePortal (portal : Z)
  | PortalRequestDone (portal : Z).

Record PortalStore := mkPortals { portals : gmap Z Portal; pevents : list PortalEvent }.

Class HasPortals (Q S : Type) `{HasThreads Q S} := {
  pstore : S → PortalStore;
  set_pstore : PortalStore → S → S;
  pstore_set v s : pstore (set_pstore v s) = v;
  set_pstore_set v v' s : set_pstore v (set_pstore v' s) = set_pstore v s;
  set_pstore_id s : set_pstore (pstore s) s = s;
  pstore_set_threads t s : pstore (set_threads t s) = pstore s;
  threads_set_pstore v s : threads (set_pstore v s) = threads s;
  orig_set_pstore v s r : orig (set_pstore v s) r = orig s r;
  entries_set_pstore v s : entries (set_pstore v s) = entries s
}.

(** Addresses of the members of a portal and the portal of a list handle,
    objects/portal/objects/Portal.hh:140-145 *)
Class PortalLayout := {
  ib_ref : Z → Z; owner_ref : Z → Z;
  keventSinkHandle : Z → Z; handle_portal : Z → Z;
  handle_portal_handle p : handle_portal (keventSinkHandle p) = p;
  keventSinkHandle_nonzero p : keventSinkHandle p ≠ 0
}.

(** [IPortalUser], objects/common/objects/IPortal.hh:57-64 *)
Class PortalUsers (S : Type) := {
  castUser : Z → kernel S (optional Z);
  user_attachKEvent : Z → Z → kernel S unit;
  user_detachKEvent : Z → Z → kernel S unit;
  user_lookupRef : Z → Z → Z → bool → kernel S (optional CapEntryRef)
}.

(** [IKernelObject::invoke] with a portal as message. *)
Class Invocables (S : Type) := { invoke : Z → Z → Z → kernel S unit }.

Section portal.
Context {Q S : Type} `{Fifo Q} `{HasPageMaps S} `{KernelObjects S} `{!HasRefs S} `{RefSubjects S}
  `{!HasThreads Q S} `{!HasPortals Q S} `{PortalLayout} `{PortalUsers S}.

Definition get_portal (p : Z) : kernel S Portal := λ s,
  match portals (pstore s) !! p with Some v => Done v s | None => AssertFail end.
Definition upd_portal (p : Z) (f : Portal → Portal) : kernel S unit := λ s,
  match portals (pstore s) !! p with
  | Some v => Done tt (set_pstore (mkPortals (<[p := f v]> (portals (pstore s))) (pevents (pstore s))) s)
  | None => AssertFail
  end.
Definition pemit (e : PortalEvent) : kernel S unit :=
  kmodify (λ s, set_pstore (mkPortals (portals (pstore s)) (pevents (pstore s) ++ [e])) s).

(** [CapEntryRef::acquire], objects/common/objects/ICapMap.hh:68 *)
Definition ref_acquire (r : CapEntryRef) : kernel S unit := pemit (AcquireRef (ref_container r)).

(** [CapEntryRef::release] of [currentDest], objects/common/objects/ICapMap.hh:69-73 *)
Definition release_dest (p : Z) : kernel S unit :=
  v <-- get_portal p;;
  (if ref_container (currentDest v) =? 0 then kret tt
   else pemit (ReleaseRef (ref_container (currentDest v))));;;
  upd_portal p (with_dest (mkEntryRef 0 0) (destCap v)).

(** The object behind a reference, as in [CapRef::get]. *)
Definition ref_get {A} (castObj : Z → kernel S (optional A)) (r : Z) : kernel S (optional A) :=
  c <-- CapRef_cap r;;
  if isUsable c then castObj (getPtr c) else kret (THROW GENERIC_ERROR).

(** ** Configuration *)

Definition castFrame (o : Z) : kernel S (optional MemoryRegion.MemoryRegion) :=
  s <-- kget;; kret (match asFrame s o with Some f => OK f | None => THROW TYPE_MISMATCH end).

(** [sizeof(InvocationBuf)], mythos/invocation/mythos/InvocationBuf.hh:97 *)
Definition sizeof_InvocationBuf : Z := 512.

(** [Portal::setInvocationBuf], objects/portal/objects/Portal.cc:35-45 *)
Definition setInvocationBuf (p : Z) (fe : optional Z) (offset : Z) : kernel S (optional unit) :=
  frame <-- typedEntry castFrame fe;;
  match frame, fe with
  | OK (c, f), OK entry =>
    let info := MemoryRegion.getFrameInfo f c in
    if MemoryRegion.i_device info || negb (MemoryRegion.i_writable info)
    then kret (THROW INVALID_CAPABILITY)
    else if MemoryRegion.i_size info <=? u64 (offset + sizeof_InvocationBuf)
    then kret (THROW INSUFFICIENT_RESOURCES)
    else
      kassert (kernelmem (MemoryRegion.i_start info));;;
      upd_portal p (with_ibNew (u64 (logint (MemoryRegion.i_start info) + offset)));;;
      CapRef_set (ib_ref p) p entry c
  | THROW err, _ | _, THROW err => kret (THROW err)
  end.

(** [Portal::bind] of the frame, objects/portal/objects/Portal.cc:47-51 *)
Definition bind_ib (p : Z) (obj : optional Z) : kernel S unit :=
  if isOK obj then v <-- get_portal p;; upd_portal p (with_ib (ibNew v)) else kret tt.

(** [Portal::unbind] of the frame, objects/portal/objects/Portal.cc:53-57 *)
Definition unbind_ib (p : Z) : kernel S unit := upd_portal p (with_ib 0).

(** [Portal::setOwner], objects/portal/objects/Portal.cc:59-65 *)
Definition setOwner (p : Z) (ece : optional Z) : kernel S (optional unit) :=
  ec <-- typedEntry castUser ece;;
  match ec, ece with
  | OK (c, _), OK entry => CapRef_set (owner_ref p) p entry c
  | THROW err, _ | _, THROW err => kret (THROW err)
  end.

(** [Portal::unbind] of the owner, objects/portal/objects/Portal.cc:67-71 *)
Definition unbind_owner (p : Z) (obj : optional Z) : kernel S unit :=
  match obj with
  | OK o => user_detachKEvent o (keventSinkHandle p)
  | THROW _ => kret tt
  end.

(** ** Invocations *)

(** [Portal::lookupRef], objects/portal/objects/Portal.cc:73-78 *)
Definition lookupRef (p ptr ptrDepth : Z) (writable : bool) : kernel S (optional CapEntryRef) :=
  owner <-- ref_get castUser (owner_ref p);;
  match owner with
  | THROW err => kret (THROW err)
  | OK o => user_lookupRef o ptr ptrDepth writable
  end.

(** [Portal::lookupEntry], objects/portal/objects/Portal.cc:80-85 *)
Definition portal_lookupEntry (p ptr ptrDepth : Z) (writable : bool) : kernel S (optional Z) :=
  ref <-- lookupRef p ptr ptrDepth writable;;
  kret (match ref with OK r => OK (ref_entry r) | THROW err => THROW err end).

(** [Portal::sendInvocation], objects/portal/objects/Portal.cc:87-105 *)
Definition portal_send `{Invocables S} (p self dest u : Z) : kernel S (optional unit) :=
  c <-- CapRef_cap (owner_ref p);;
  owner <-- typedCap castUser c;;
  match owner with
  | THROW err => kret (THROW err)
  | OK (_, o) =>
    dref <-- user_lookupRef o dest 32 false;;
    match dref with
    | THROW err => kret (THROW err)
    | OK ref =>
      d <-- cap (ref_entry ref);;
      upd_portal p (with_dest ref d);;;
      if negb (isUsable d) then kret (THROW NO_LOOKUP)
      else
        v <-- get_portal p;;
        if decide (portalState v = OPEN) then
          upd_portal p (with_state INVOKING);;;
          ref_acquire ref;;;
          upd_portal p (with_uctx u);;;
          invoke (getPtr d) d p;;;
          kret (OK tt)
        else kret (THROW PORTAL_NOT_OPEN)
    end
  end.

(** The reply to the owner that [replyResponse] and [response] share,
    objects/portal/objects/Portal.cc:112-117 *)
Definition reply_owner (p : Z) (err : Error) : kernel S unit :=
  upd_portal p (with_state REPLYING);;;
  owner <-- ref_get castUser (owner_ref p);;
  match owner with
  | THROW _ => kret tt
  | OK o => upd_portal p (with_replyError err);;; user_attachKEvent o (keventSinkHandle p)
  end.

(** [Portal::replyResponse], objects/portal/objects/Portal.cc:107-118 *)
Definition portal_replyResponse (p : Z) (err : optional unit) : kernel S unit :=
  v <-- get_portal p;;
  kassert (bool_decide (portalState v = INVOKING));;;
  release_dest p;;;
  reply_owner p (state err).

(** [Portal::deletionResponse], objects/portal/objects/Portal.cc:120-130 *)
Definition deletionResponse (p entry : Z) (delRoot : bool) : kernel S unit :=
  v <-- get_portal p;;
  kassert (bool_decide (portalState v = INVOKING));;;
  release_dest p;;;
  pemit (if delRoot then StartDelete p entry else StartRevoke p entry).

(** [Portal::response], objects/portal/objects/Portal.cc:132-142 *)
Definition portal_response (p : Z) (res : optional unit) : kernel S unit :=
  v <-- get_portal p;;
  kassert (bool_decide (portalState v = INVOKING));;;
  reply_owner p (state res).

(** [Portal::deliverKEvent], objects/portal/objects/Portal.hh:91-96 *)
Definition portal_deliverKEvent (p : Z) : kernel S KEvent :=
  v <-- get_portal p;;
  kassert (bool_decide (portalState v = REPLYING));;;
  upd_portal p (with_state OPEN);;;
  kret (mkKEvent (uctx v) (Error_code (replyError v))).

(** [Portal::getLabel]; [label] is the tag in the buffer,
    objects/portal/objects/Portal.hh:111 *)
Definition getLabel (v : Portal) (label : Z) : Z := if ib v =? 0 then u16 (-1) else u16 label.

(** [Portal::deleteCap]; [revokeOp_acquire] is the lock of the portal's
    revocation, objects/portal/objects/Portal.cc:144-159 *)
Definition portal_deleteCap (revokeOp_acquire : kernel S bool) (p self : Z)
    : kernel S (optional unit) :=
  if isOriginal self then
    a <-- revokeOp_acquire;;
    if negb a then kret (THROW RETRY)
    else
      CapRef_reset (ib_ref p);;;
      CapRef_reset (owner_ref p);;;
      pemit (DeletePortal p);;;
      kret (OK tt)
  else kret (OK tt).

Section invocations.
Context `{Invocations S}.

(** [Portal::invokeBind]; [ib_], [offset] and [owner] are the message,
    objects/portal/objects/Portal.cc:181-197 *)
Definition invokeBind (p m ib_ offset owner : Z) : kernel S Error :=
  r1 <-- (if ib_ =? delete_cap then CapRef_reset (ib_ref p);;; kret (OK tt)
          else if negb (ib_ =? null_cap) then
            e <-- Threads.lookupEntry m ib_;; setInvocationBuf p e offset
          else kret (OK tt));;
  match r1 with
  | THROW err => kret err
  | OK _ =>
    r2 <-- (if owner =? delete_cap then CapRef_reset (owner_ref p);;; kret (OK tt)
            else if negb (owner =? null_cap) then
              e <-- Threads.lookupEntry m owner;; setOwner p e
            else kret (OK tt));;
    kret (state r2)
  end.

(** [Portal::invoke] when the monitor runs the request; [bind] holds the data of
    a message BIND, objects/portal/objects/Portal.cc:161-179 *)
Definition portal_invoke (p m : Z) (bind : option (Z * Z * Z)) : kernel S unit :=
  err <-- match bind with
          | Some (ib_, offset, owner) => invokeBind p m ib_ offset owner
          | None => kret NOT_IMPLEMENTED
          end;;
  if decide (err = INHIBIT) then kret tt
  else
    replyResponse m (if decide (err = SUCCESS) then OK tt else THROW err);;;
    pemit (PortalRequestDone p).

End invocations.

(** The constructor of [Portal], objects/portal/objects/Portal.hh:141-152 *)
Definition newPortal : Portal := mkPortal 0 0 0 OPEN SUCCESS (mkEntryRef 0 0) 0.

(** [PortalFactory::factory]; [sizeof] is the size of a portal,
    objects/portal/objects/Portal.cc:199-214 *)
Definition portal_factory `{HasMemory S} (sizeof dstEntry memEntry memCap : Z) : kernel S (optional Z) :=
  obj <-- create sizeof;;
  match obj with
  | THROW err => reset dstEntry;;; kret (THROW err)
  | OK obj =>
    kmodify (λ s, set_pstore (mkPortals (<[obj := newPortal]> (portals (pstore s))) (pevents (pstore s))) s);;;
    res <-- inherit memEntry memCap dstEntry (mkCap obj 0 NOFLAG) (kret tt);;
    match res with
    | THROW err => km_free obj sizeof;;; kret (THROW err)
    | OK _ => kret (OK obj)
    end
  end.

End portal.

(** Execution contexts use portals, objects/execution-context/objects/ExecutionContext.hh:52 *)
Section user.
Context {Q S : Type} `{Fifo Q} `{HasPageMaps S} `{KernelObjects S} `{HasCapMaps S}
  `{!HasRefs S} `{RefSubjects S} `{!HasThreads Q S} `{ThreadLayout}.

#[export] Instance EC_users : PortalUsers S := {
  castUser := castSignalable;
  user_attachKEvent := attachKEvent;
  user_detachKEvent := detachKEvent;
  user_lookupRef := EC_lookupRef
}.
End user.

(** ** The life of an invocation *)

Section protocol.
Context {Q S : Type} `{Fifo Q} `{HasPageMaps S} `{KernelObjects S} `{HasCapMaps S}
  `{!HasRefs S} `{RefSubjects S} `{!HasThreads Q S} `{ThreadLayout} `{!HasPortals Q S}
  `{PortalLayout}.
Implicit Types (s : S) (v : Portal).

(** The portal [p] belongs to the thread [e]. *)
Definition owned_by s (p e : Z) : Prop :=
  isUsable (orig s (owner_ref p)) = true ∧ getPtr (orig s (owner_ref p)) = e.

Lemma bind_get_portal {B} p v (k : Portal → kernel S B) s :
  portals (pstore s) !! p = Some v → kbind (get_portal p) k s = k v s.
Proof. intros Hp. unfold kbind, get_portal. by rewrite Hp. Qed.

(** The state with another value of the portal [p] and more events. *)
Definition at_portal (p : Z) v (evs : list PortalEvent) s : S :=
  set_pstore (mkPortals (<[p := v]> (portals (pstore s))) evs) s.

Lemma at_portal_lookup p v evs s : portals (pstore (at_portal p v evs s)) !! p = Some v.
Proof. unfold at_portal. rewrite pstore_set. apply lookup_insert_eq. Qed.

Lemma bind_upd_portal {B} p v f (k : unit → kernel S B) s :
  portals (pstore s) !! p = Some v →
  kbind (upd_portal p f) k s = k tt (at_portal p (f v) (pevents (pstore s)) s).
Proof. intros Hp. unfold kbind, upd_portal. by rewrite Hp. Qed.

Lemma at_portal_at p v v' evs evs' s : at_portal p v evs (at_portal p v' evs' s) = at_portal p v evs s.
Proof. unfold at_portal. rewrite set_pstore_set, pstore_set. cbn. by rewrite insert_insert_eq. Qed.

Lemma pevents_at p v evs s : pevents (pstore (at_portal p v evs s)) = evs.
Proof. unfold at_portal. by rewrite pstore_set. Qed.

Lemma release_dest_run p v s :
  portals (pstore s) !! p = Some v →
  ∃ evs, release_dest p s = Done tt (at_portal p (with_dest (mkEntryRef 0 0) (destCap v) v) evs s) ∧
    evs = pevents (pstore s) ++
      (if ref_container (currentDest v) =? 0 then [] else [ReleaseRef (ref_container (currentDest v))]).
Proof.
  intros Hp. unfold release_dest. rewrite (bind_get_portal _ _ _ _ Hp).
  destruct (ref_container (currentDest v) =? 0); eexists; (split; [|done]).
  - rewrite bind_ret. unfold upd_portal. rewrite Hp. by rewrite app_nil_r.
  - unfold kbind, pemit, kmodify, upd_portal. rewrite pstore_set. cbn. rewrite Hp.
    unfold at_portal. by rewrite set_pstore_set.
Qed.

Lemma owner_run p e s :
  owned_by s p e → (∃ c, ecs (threads s) !! e = Some c) →
  ref_get castUser (owner_ref p) s = Done (OK e) s.
Proof.
  intros [Hu Hg] [c Hc]. unfold ref_get, CapRef_cap, castUser, EC_users, castSignalable, kbind, kget, kret.
  rewrite Hu, Hg. cbn. by rewrite Hc.
Qed.

Lemma typed_owner_run p e c s :
  owned_by s p e → ecs (threads s) !! e = Some c →
  kbind (CapRef_cap (owner_ref p)) (typedCap castUser) s = Done (OK (orig s (owner_ref p), e)) s.
Proof.
  intros Ho He. unfold kbind, CapRef_cap, typedCap, castUser, EC_users, castSignalable, kget, kret. cbn.
  destruct Ho as [-> ->]. unfold kbind. cbn. by rewrite He.
Qed.

Lemma reply_owner_run p v e c l err s :
  portals (pstore s) !! p = Some v → owned_by s p e → ecs (threads s) !! e = Some c →
  contents (eventQueue c) l → keventSinkHandle p ∉ l → queues_ok (threads s) →
  ∃ s' c', reply_owner p err s = Done tt s' ∧
    portals (pstore s') !! p = Some (with_replyError err (with_state REPLYING v)) ∧
    ecs (threads s') = <[e := c']> (ecs (threads s)) ∧
    contents (eventQueue c') (l ++ [keventSinkHandle p]) ∧
    flags c' = Z.land (flags c) (inv_flags IS_WAITING) ∧ pevents (pstore s') = pevents (pstore s) ∧
    ∀ a h, queued (threads s) a h → queued (threads s') a h.
Proof.
  intros Hp Ho He Hq Hh Hqs. unfold reply_owner. rewrite (bind_upd_portal _ _ _ _ _ Hp).
  set (s1 := at_portal _ _ _ s).
  assert (Ht1 : threads s1 = threads s) by apply threads_set_pstore.
  assert (Ho1 : owned_by s1 p e) by (unfold owned_by, s1, at_portal; by rewrite orig_set_pstore).
  rewrite (kbind_run _ _ _ _ _ (owner_run p e s1 Ho1 ltac:(rewrite Ht1; eauto))).
  erewrite bind_upd_portal by apply at_portal_lookup. unfold s1. rewrite at_portal_at, pevents_at.
  set (s2 := at_portal _ _ _ s).
  assert (Ht2 : threads s2 = threads s) by apply threads_set_pstore.
  rewrite <- (set_threads_id s2), Ht2.
  destruct (attachKEvent_run e (keventSinkHandle p) c l s2 (threads s))
    as (t' & c' & Hr & Hecs & Hq' & Hfl & _ & _ & _ & _ & Hkeep); try done; [apply keventSinkHandle_nonzero|].
  exists (set_threads t' s2), c'. rewrite threads_set, pstore_set_threads.
  split; [exact Hr|]. split; [apply at_portal_lookup|]. unfold s2. by rewrite pevents_at.
Qed.

(** What a release of [currentDest] records. *)
Definition released v : list PortalEvent :=
  if ref_container (currentDest v) =? 0 then [] else [ReleaseRef (ref_container (currentDest v))].

(** The portal after the reply. *)
Definition replied (err : Error) v : Portal :=
  with_replyError err (with_state REPLYING (with_dest (mkEntryRef 0 0) (destCap v) v)).

Lemma portal_reply_run p v e c l err s :
  portals (pstore s) !! p = Some v → portalState v = INVOKING → owned_by s p e →
  ecs (threads s) !! e = Some c → contents (eventQueue c) l → keventSinkHandle p ∉ l →
  queues_ok (threads s) →
  ∃ s' c', portal_replyResponse p err s = Done tt s' ∧
    ecs (threads s') = <[e := c']> (ecs (threads s)) ∧
    contents (eventQueue c') (l ++ [keventSinkHandle p]) ∧ Z.testbit (flags c') 0 = false ∧
    pevents (pstore s') = pevents (pstore s) ++ released v ∧
    portals (pstore s') !! p = Some (replied (state err) v) ∧
    ∀ a h, queued (threads s) a h → queued (threads s') a h.
Proof.
  intros Hp Hst Ho He Hq Hh Hqs. unfold portal_replyResponse.
  rewrite (bind_get_portal _ _ _ _ Hp), bind_assert by (by rewrite bool_decide_true).
  destruct (release_dest_run p v s Hp) as (evs & Hrel & Hevs). rewrite (kbind_run _ _ _ _ _ Hrel).
  set (s1 := at_portal _ _ _ s).
  assert (Ht1 : threads s1 = threads s) by apply threads_set_pstore.
  destruct (reply_owner_run p (with_dest (mkEntryRef 0 0) (destCap v) v) e c l (state err) s1)
    as (s' & c' & Hr & Hp' & Hecs & Hq' & Hfl & Hpe & Hkeep); rewrite ?Ht1; try done.
  { apply at_portal_lookup. }
  { unfold owned_by, s1, at_portal. by rewrite orig_set_pstore. }
  exists s', c'. split; [exact Hr|]. split; [by rewrite Hecs, Ht1|]. split; [done|].
  split; [by rewrite Hfl, (clear_bit _ _ _ 0), andb_false_r|].
  split; [by rewrite Hpe; unfold s1; rewrite pevents_at|]. split; [done|]. by rewrite <- Ht1.
Qed.

Lemma portal_deliver_run p v err s :
  portals (pstore s) !! p = Some (replied err v) →
  ∃ s' v', portal_deliverKEvent p s = Done (mkKEvent (uctx v) (Error_code err)) s' ∧
    portals (pstore s') !! p = Some v' ∧ portalState v' = OPEN.
Proof.
  intros Hp. unfold portal_deliverKEvent.
  rewrite (bind_get_portal _ _ _ _ Hp), bind_assert by done.
  rewrite (bind_upd_portal _ _ _ _ _ Hp). eexists _, _. split; [reflexivity|].
  split; [apply at_portal_lookup | done].
Qed.

(** An invocation is answered.  When the invoked object replies, the portal's
    event is queued at the thread that owns the portal and the thread does not
    wait any longer; when the thread takes the event out of its queue, it gets
    the context of its invocation and the error code of the reply, and the portal
    is open for the next invocation.  The reference on the capability map that
    holds the target is released once. *)
Theorem portal_reply_delivered p v e c l err s :
  portals (pstore s) !! p = Some v → portalState v = INVOKING → owned_by s p e →
  ecs (threads s) !! e = Some c → contents (eventQueue c) l → keventSinkHandle p ∉ l →
  queues_ok (threads s) →
  ∃ s' c', portal_replyResponse p err s = Done tt s' ∧
    ecs (threads s') = <[e := c']> (ecs (threads s)) ∧
    contents (eventQueue c') (l ++ [keventSinkHandle p]) ∧ Z.testbit (flags c') 0 = false ∧
    pevents (pstore s') = pevents (pstore s) ++ released v ∧
    ∀ s1, portals (pstore s1) !! p = portals (pstore s') !! p →
    ∃ s2 v2, portal_deliverKEvent p s1 = Done (mkKEvent (uctx v) (Error_code (state err))) s2 ∧
      portals (pstore s2) !! p = Some v2 ∧ portalState v2 = OPEN.
Proof.
  intros Hp Hst Ho He Hq Hh Hqs.
  destruct (portal_reply_run p v e c l err s) as (s' & c' & Hr & Hecs & Hq' & Hfl & Hpe & Hp' & _); [done..|].
  exists s', c'. do 5 (split; [done|]). intros s1 Hs1. rewrite Hp' in Hs1. by apply portal_deliver_run.
Qed.

(** The portal while its invocation runs. *)
Definition sent (ref : CapEntryRef) (d u : Z) (v : Portal) : Portal :=
  with_uctx u (with_state INVOKING (with_dest ref d v)).

(** Up to the call of the object, [sendInvocation] changes nothing but the
    portal. *)
Lemma portal_send_run `{Invocables S} p v e c self dest u ref t s :
  portals (pstore s) !! p = Some v → portalState v = OPEN → owned_by s p e →
  ecs (threads s) !! e = Some c → user_lookupRef e dest 32 false s = Done (OK ref) s →
  entries s !! ref_entry ref = Some t → isUsable (_cap t) = true →
  portal_send p self dest u s =
    kbind (invoke (getPtr (_cap t)) (_cap t) p) (λ _, kret (OK tt))
      (at_portal p (sent ref (_cap t) u v) (pevents (pstore s) ++ [AcquireRef (ref_container ref)]) s).
Proof.
  intros Hp Hst Ho He Hl Ht Hu. unfold portal_send.
  rewrite <- bind_assoc, (kbind_run _ _ _ _ _ (typed_owner_run _ _ _ _ Ho He)), (kbind_run _ _ _ _ _ Hl).
  assert (Hcap : cap (ref_entry ref) s = Done (_cap t) s)
    by (unfold cap, rd, kbind, kret; by rewrite Ht).
  rewrite (kbind_run _ _ _ _ _ Hcap), (bind_upd_portal _ _ _ _ _ Hp), Hu. cbn [negb].
  erewrite bind_get_portal by apply at_portal_lookup. cbn [portalState with_dest]. rewrite Hst.
  rewrite decide_True by done. erewrite bind_upd_portal by apply at_portal_lookup.
  rewrite at_portal_at, pevents_at.
  set (s1 := at_portal _ _ _ s). set (v1 := with_state INVOKING _) in s1.
  assert (Hacq : ref_acquire ref s1 = Done tt (at_portal p v1 (pevents (pstore s) ++ [AcquireRef (ref_container ref)]) s)).
  { unfold ref_acquire, pemit, kmodify, s1, at_portal. by rewrite pstore_set, set_pstore_set. }
  rewrite (kbind_run _ _ _ _ _ Hacq). erewrite bind_upd_portal by apply at_portal_lookup.
  by rewrite at_portal_at, pevents_at.
Qed.

(** A portal without owner stays closed.  When the owner is gone at the time of
    the reply, no thread gets an event, but the portal is left in the state
    REPLYING, which only the delivery of that event would end. *)
Theorem portal_reply_without_owner p v err s :
  portals (pstore s) !! p = Some v → portalState v = INVOKING →
  isUsable (orig s (owner_ref p)) = false →
  ∃ s' v', portal_replyResponse p err s = Done tt s' ∧ threads s' = threads s ∧
    portals (pstore s') !! p = Some v' ∧ portalState v' = REPLYING ∧ uctx v' = uctx v.
Proof.
  intros Hp Hst Hu. unfold portal_replyResponse.
  rewrite (bind_get_portal _ _ _ _ Hp), bind_assert by (by rewrite bool_decide_true).
  destruct (release_dest_run p v s Hp) as (evs & Hrel & _). rewrite (kbind_run _ _ _ _ _ Hrel).
  unfold reply_owner. erewrite bind_upd_portal by apply at_portal_lookup.
  rewrite at_portal_at, pevents_at. set (s1 := at_portal _ _ _ s).
  assert (Ho : orig s1 (owner_ref p) = orig s (owner_ref p)) by apply orig_set_pstore.
  unfold kbind at 1. unfold ref_get, CapRef_cap, kbind, kget, kret. rewrite Ho, Hu.
  eexists s1, _. split; [reflexivity|]. split; [apply threads_set_pstore|].
  split; [apply at_portal_lookup | done].
Qed.

(** C35: a refused invocation changes the target of the running one.  [sendInvocation]
    on a portal that is not open answers PORTAL_NOT_OPEN, but it has stored the new
    target before the test: the message that is being processed refers to the new
    entry and capability from then on, and its reply releases a reference on the
    new capability map that was never taken, instead of the one it holds. *)
Theorem portal_send_busy `{Invocables S} p v e c self dest u ref t s :
  portals (pstore s) !! p = Some v → portalState v = INVOKING → owned_by s p e →
  ecs (threads s) !! e = Some c → user_lookupRef e dest 32 false s = Done (OK ref) s →
  entries s !! ref_entry ref = Some t → isUsable (_cap t) = true → ref_container ref ≠ 0 →
  ∃ s1 v1, portal_send p self dest u s = Done (THROW PORTAL_NOT_OPEN) s1 ∧
    portals (pstore s1) !! p = Some v1 ∧ portalState v1 = INVOKING ∧
    currentDest v1 = ref ∧ destCap v1 = _cap t ∧ pevents (pstore s1) = pevents (pstore s) ∧
    released v1 = [ReleaseRef (ref_container ref)].
Proof.
  intros Hp Hst Ho He Hl Ht Hu Hc. unfold portal_send.
  rewrite <- bind_assoc, (kbind_run _ _ _ _ _ (typed_owner_run _ _ _ _ Ho He)), (kbind_run _ _ _ _ _ Hl).
  assert (Hcap : cap (ref_entry ref) s = Done (_cap t) s)
    by (unfold cap, rd, kbind, kret; by rewrite Ht).
  rewrite (kbind_run _ _ _ _ _ Hcap), (bind_upd_portal _ _ _ _ _ Hp), Hu. cbn [negb].
  erewrite bind_get_portal by apply at_portal_lookup. cbn [portalState with_dest]. rewrite Hst.
  rewrite decide_False by done. eexists _, _. split; [reflexivity|].
  split; [apply at_portal_lookup|]. rewrite pevents_at. split; [done|]. split; [done|].
  split; [done|]. split; [done|]. unfold released. cbn. by rewrite (proj2 (Z.eqb_neq _ _) Hc).
Qed.

End protocol.
