(* ===== verification/SignalListener.v ===== *)
(** * Signal listeners

    Models objects/signal-listener/objects/SignalListener.hh and .cc with the
    messages of objects/signal-listener/mythos/protocol/SignalListener.hh: an
    object that collects the signals of a thread under a mask and reports them as
    one event to another thread.

    The bodies under [_mutex] are atomic; source and sink are execution contexts,
    through the operations of Threads.v. *)

From stdpp Require Import base tactics numbers list gmap.
From Stdlib Require Import ZArith Lia.
From S2P Require Import Prelude Ranges Bitfield Cap CapEntry CapRing CapSteps CapOps Heap KernelMemory CapMap Frame PageTable PageMap LinkedList Threads Scheduling Portal.

Local Open Scope Z_scope.
Import PhysPtr.

(** The members of [SignalListener] under its mutex,
    objects/signal-listener/objects/SignalListener.hh:112-115 *)
Record SignalListener := mkListener {
  _eventAttached : bool; _mask : Z; _signal : Z; _context : Z }.

Inductive ListenerEvent :=
  | DeleteListener (l : Z)
  | DoDeleteListener (l : Z)
  | ListenerRequestDone (l : Z).

Record ListenerStore := mkListeners { listeners : gmap Z SignalListener; levents : list ListenerEvent }.

Class HasListeners (Q S : Type) `{HasThreads Q S} := {
  lstore : S → ListenerStore;
  set_lstore : ListenerStore → S → S;
  lstore_set v s : lstore (set_lstore v s) = v;
  set_lstore_set v v' s : set_lstore v (set_lstore v' s) = set_lstore v s;
  set_lstore_id s : set_lstore (lstore s) s = s;
  lstore_set_threads t s : lstore (set_threads t s) = lstore s;
  threads_set_lstore v s : threads (set_lstore v s) = threads s;
  orig_set_lstore v s r : orig (set_lstore v s) r = orig s r
}.

(** Addresses of the members of a listener,
    objects/signal-listener/objects/SignalListener.hh:81-99 *)
Class ListenerLayout := {
  source_ref : Z → Z; sink_ref : Z → Z; listenerHandle : Z → Z; eventHandle : Z → Z;
  eventHandle_nonzero l : eventHandle l ≠ 0
}.

(** [protocol::SignalListener::RESET_ALL],
    objects/signal-listener/mythos/protocol/SignalListener.hh:41 *)
Definition RESET_ALL : Z := u64 (Z.lnot 0).

Section listener.
Context {Q S : Type} `{Fifo Q} `{HasPageMaps S} `{KernelObjects S} `{HasCapMaps S}
  `{!HasRefs S} `{RefSubjects S} `{!HasThreads Q S} `{ThreadLayout} `{!HasListeners Q S}
  `{ListenerLayout}.

Definition get_listener (l : Z) : kernel S SignalListener := λ s,
  match listeners (lstore s) !! l with Some v => Done v s | None => AssertFail end.
Definition put_listener (l : Z) (v : SignalListener) : kernel S unit :=
  kmodify (λ s, set_lstore (mkListeners (<[l := v]> (listeners (lstore s))) (levents (lstore s))) s).
Definition lemit (e : ListenerEvent) : kernel S unit :=
  kmodify (λ s, set_lstore (mkListeners (listeners (lstore s)) (levents (lstore s) ++ [e])) s).

(** The sink behind [_sink], as [TypedCap] of the reference. *)
Definition typedSink (l : Z) : kernel S (optional (Z * Z)) :=
  c <-- CapRef_cap (sink_ref l);; typedCap castSignalable c.

(** [SignalListener::resetWithMask],
    objects/signal-listener/objects/SignalListener.cc:136-155 *)
Definition resetWithMask (l resetMask : Z) : kernel S unit :=
  v <-- get_listener l;;
  let signal := Z.land (_signal v) resetMask in
  put_listener l (mkListener (_eventAttached v) (_mask v) signal (_context v));;;
  sink <-- typedSink l;;
  match sink with
  | THROW _ => kret tt
  | OK (_, o) =>
    if negb (signal =? 0) && negb (_eventAttached v) then
      attachKEvent o (eventHandle l);;;
      put_listener l (mkListener true (_mask v) signal (_context v))
    else if (signal =? 0) && _eventAttached v then
      detachKEvent o (eventHandle l);;;
      put_listener l (mkListener false (_mask v) signal (_context v))
    else kret tt
  end.

(** [SignalListener::signalChanged],
    objects/signal-listener/objects/SignalListener.cc:221-235 *)
Definition listener_signalChanged (l newValue : Z) : kernel S unit :=
  v <-- get_listener l;;
  let signal := Z.lor (_signal v) (Z.land newValue (_mask v)) in
  put_listener l (mkListener (_eventAttached v) (_mask v) signal (_context v));;;
  if negb (signal =? 0) then
    sink <-- typedSink l;;
    match sink with
    | THROW _ => kret tt
    | OK (_, o) =>
      if negb (_eventAttached v) then
        attachKEvent o (eventHandle l);;;
        put_listener l (mkListener true (_mask v) signal (_context v))
      else kret tt
    end
  else kret tt.

(** [SignalListener::deliverKEvent],
    objects/signal-listener/objects/SignalListener.cc:206-219 *)
Definition listener_deliverKEvent (l : Z) : kernel S KEvent :=
  v <-- get_listener l;;
  put_listener l (mkListener false (_mask v) 0 (_context v));;;
  kret (mkKEvent (_context v) (_signal v)).

(** [SignalListener::setSource],
    objects/signal-listener/objects/SignalListener.cc:159-164 *)
Definition setSource (l : Z) (entry : optional Z) : kernel S (optional unit) :=
  src <-- typedEntry castSignalable entry;;
  match src, entry with
  | OK (c, _), OK e => CapRef_set (source_ref l) l e c
  | THROW err, _ | _, THROW err => kret (THROW err)
  end.

(** [SignalListener::bind] of the source,
    objects/signal-listener/objects/SignalListener.cc:166-170 *)
Definition bind_source (l : Z) (source : optional Z) : kernel S unit :=
  match source with OK o => attachSignalSink o (listenerHandle l) | THROW _ => λ _, AssertFail end.

(** [SignalListener::unbind] of the source,
    objects/signal-listener/objects/SignalListener.cc:172-176 *)
Definition unbind_source (l : Z) (source : optional Z) : kernel S unit :=
  match source with OK o => detachSignalSink o (listenerHandle l) | THROW _ => λ _, AssertFail end.

(** [SignalListener::setSink],
    objects/signal-listener/objects/SignalListener.cc:178-183 *)
Definition setSink (l : Z) (entry : optional Z) : kernel S (optional unit) :=
  sink <-- typedEntry castSignalable entry;;
  match sink, entry with
  | OK (c, _), OK e => CapRef_set (sink_ref l) l e c
  | THROW err, _ | _, THROW err => kret (THROW err)
  end.

(** [SignalListener::bind] of the sink,
    objects/signal-listener/objects/SignalListener.cc:185-191 *)
Definition bind_sink (l : Z) (sink : optional Z) : kernel S unit := kassert (isOK sink).

(** [SignalListener::unbind] of the sink,
    objects/signal-listener/objects/SignalListener.cc:193-204 *)
Definition unbind_sink (l : Z) (sink : optional Z) : kernel S unit :=
  match sink with
  | THROW _ => λ _, AssertFail
  | OK o =>
    v <-- get_listener l;;
    if _eventAttached v then
      detachKEvent o (eventHandle l);;;
      put_listener l (mkListener false (_mask v) (_signal v) (_context v))
    else kret tt
  end.

(** [SignalListener::deleteCap],
    objects/signal-listener/objects/SignalListener.cc:47-55 *)
Definition listener_deleteCap (l self : Z) : kernel S (optional unit) :=
  (if isOriginal self then
     CapRef_reset (sink_ref l);;; CapRef_reset (source_ref l);;; lemit (DeleteListener l)
   else kret tt);;;
  kret (OK tt).

(** [SignalListener::deleteObject],
    objects/signal-listener/objects/SignalListener.cc:57-62 *)
Definition listener_deleteObject (l : Z) : kernel S unit := lemit (DoDeleteListener l).

Section invocations.
Context `{Invocations S}.

(** [protocol::SignalListener::Bind],
    objects/signal-listener/mythos/protocol/SignalListener.hh:48-70 *)
Record BindMsg := mkBind {
  b_source : Z; b_mask : Z; b_resetMask : Z; b_context : Z; b_sink : Z }.

(** The assignment of [_mask] under the mutex,
    objects/signal-listener/objects/SignalListener.cc:92 *)
Definition clear_mask (l : Z) : kernel S unit :=
  v <-- get_listener l;;
  put_listener l (mkListener (_eventAttached v) 0 (_signal v) (_context v)).

(** [SignalListener::invokeBind],
    objects/signal-listener/objects/SignalListener.cc:83-127 *)
Definition listener_invokeBind (l m : Z) (data : BindMsg) : kernel S Error :=
  r1 <-- (if b_source data =? delete_cap then
            clear_mask l;;; CapRef_reset (source_ref l);;; kret (OK tt)
          else if negb (b_source data =? null_cap) then
            clear_mask l;;; e <-- lookupEntry m (b_source data);; setSource l e
          else kret (OK tt));;
  match r1 with
  | THROW err => kret err
  | OK _ =>
    v <-- get_listener l;;
    put_listener l (mkListener (_eventAttached v) (b_mask data) (_signal v) (b_context data));;;
    r2 <-- (if b_sink data =? delete_cap then CapRef_reset (sink_ref l);;; kret (OK tt)
            else if negb (b_sink data =? null_cap) then
              e <-- lookupEntry m (b_sink data);; setSink l e
            else kret (OK tt));;
    match r2 with
    | THROW err => kret err
    | OK _ => resetWithMask l (b_resetMask data);;; kret SUCCESS
    end
  end.

(** [SignalListener::invokeReset],
    objects/signal-listener/objects/SignalListener.cc:129-134 *)
Definition invokeReset (l resetMask : Z) : kernel S Error :=
  resetWithMask l resetMask;;; kret SUCCESS.

Inductive ListenerRequest :=
  | LBind (data : BindMsg) | LReset (resetMask : Z) | LDebugInfo | LOther.

(** [protocol::SignalListener::dispatchRequest],
    objects/signal-listener/mythos/protocol/SignalListener.hh:87-94 *)
Definition listener_dispatch (l m : Z) (r : ListenerRequest) : kernel S Error :=
  match r with
  | LBind data => listener_invokeBind l m data
  | LReset mask => invokeReset l mask
  | LDebugInfo | LOther => kret NOT_IMPLEMENTED
  end.

(** [SignalListener::invoke] when the monitor runs the request,
    objects/signal-listener/objects/SignalListener.cc:64-81 *)
Definition listener_invoke (l self m : Z) (r : ListenerRequest) : kernel S unit :=
  err <-- match r with LDebugInfo => writeDebugInfo self m | _ => listener_dispatch l m r end;;
  if decide (err = INHIBIT) then kret tt
  else
    replyResponse m (if decide (err = SUCCESS) then OK tt else THROW err);;;
    lemit (ListenerRequestDone l).

End invocations.

(** The constructor of [SignalListener],
    objects/signal-listener/objects/SignalListener.hh:112-115 *)
Definition newListener : SignalListener := mkListener false 0 0 0.

(** [SignalListenerFactory::factory]; [sizeof] is the size of a listener,
    objects/signal-listener/objects/SignalListener.cc:242-258 *)
Definition listener_factory `{HasMemory S} (sizeof dstEntry memEntry memCap : Z)
    : kernel S (optional Z) :=
  obj <-- create sizeof;;
  match obj with
  | THROW err => reset dstEntry;;; kret (THROW err)
  | OK obj =>
    put_listener obj newListener;;;
    res <-- inherit memEntry memCap dstEntry (mkCap obj 0 NOFLAG) (kret tt);;
    match res with
    | THROW err => km_free obj sizeof;;; kret (THROW err)
    | OK _ => kret (OK obj)
    end
  end.

End listener.

(** ** The protocol with a bound sink *)

Section protocol.
Context {Q S : Type} `{Fifo Q} `{HasPageMaps S} `{KernelObjects S} `{HasCapMaps S}
  `{!HasRefs S} `{RefSubjects S} `{!HasThreads Q S} `{ThreadLayout} `{!HasListeners Q S}
  `{ListenerLayout}.
Context (l e : Z).
Implicit Types (s : S) (v : SignalListener).

(** The listener [l] has the members [v] and is bound to the thread [e]; its
    handle is in the event queue exactly when a signal is pending. *)
Definition listener_inv s v : Prop :=
  listeners (lstore s) !! l = Some v ∧ queues_ok (threads s) ∧
  (isUsable (orig s (sink_ref l)) = true ∧ getPtr (orig s (sink_ref l)) = e) ∧
  _eventAttached v = negb (_signal v =? 0) ∧
  ∃ c q, ecs (threads s) !! e = Some c ∧ contents (eventQueue c) q ∧
         _eventAttached v = bool_decide (eventHandle l ∈ q).

Definition at_listener v s : S :=
  set_lstore (mkListeners (<[l := v]> (listeners (lstore s))) (levents (lstore s))) s.

Lemma bind_get_listener {B} v (k : SignalListener → kernel S B) s :
  listeners (lstore s) !! l = Some v → kbind (get_listener l) k s = k v s.
Proof. intros Hl. unfold kbind, get_listener. by rewrite Hl. Qed.

Lemma bind_put_listener {B} v (k : unit → kernel S B) s :
  kbind (put_listener l v) k s = k tt (at_listener v s).
Proof. done. Qed.

Lemma at_listener_lookup v s : listeners (lstore (at_listener v s)) !! l = Some v.
Proof. unfold at_listener. rewrite lstore_set. apply lookup_insert_eq. Qed.

Lemma threads_at_listener v s : threads (at_listener v s) = threads s.
Proof. apply threads_set_lstore. Qed.

Lemma orig_at_listener v s r : orig (at_listener v s) r = orig s r.
Proof. apply orig_set_lstore. Qed.

Lemma at_listener_at v v' s : at_listener v (at_listener v' s) = at_listener v s.
Proof. unfold at_listener. rewrite set_lstore_set, lstore_set. cbn. by rewrite insert_insert_eq. Qed.

Lemma typedSink_run s c :
  isUsable (orig s (sink_ref l)) = true → getPtr (orig s (sink_ref l)) = e →
  ecs (threads s) !! e = Some c → typedSink l s = Done (OK (orig s (sink_ref l), e)) s.
Proof.
  intros Hu Hg He. unfold typedSink, typedCap, castSignalable, CapRef_cap, kbind, kget, kret.
  rewrite Hu, Hg. cbn. by rewrite He.
Qed.

(** Attaching or detaching the handle changes only the threads. *)
Definition requeued s s' (q : list Z) : Prop :=
  queues_ok (threads s') ∧ (∀ r, orig s' r = orig s r) ∧
  ∃ c, ecs (threads s') !! e = Some c ∧ contents (eventQueue c) q.

Lemma attach_run s c q :
  queues_ok (threads s) → ecs (threads s) !! e = Some c → contents (eventQueue c) q →
  eventHandle l ∉ q →
  ∃ s', attachKEvent e (eventHandle l) s = Done tt s' ∧ requeued s s' (q ++ [eventHandle l]).
Proof.
  intros Hqs He Hq Hl.
  destruct (attachKEvent_run e (eventHandle l) c q s (threads s) He Hq (eventHandle_nonzero l) Hl Hqs)
    as (t' & c' & Hr & Hecs & Hq' & _ & _ & _ & _ & Hqs' & _).
  rewrite set_threads_id in Hr. exists (set_threads t' s). split; [done|].
  unfold requeued. rewrite threads_set, Hecs, lookup_insert_eq.
  split; [done|]. split; [intros r; apply orig_set_threads|]. eauto.
Qed.

Lemma detach_run s c q :
  queues_ok (threads s) → ecs (threads s) !! e = Some c → contents (eventQueue c) q →
  ∃ s', detachKEvent e (eventHandle l) s = Done tt s' ∧ requeued s s' (filter (.≠ eventHandle l) q).
Proof.
  intros Hqs He Hq.
  destruct (detachKEvent_run e (eventHandle l) c q s (threads s) He Hq (eventHandle_nonzero l))
    as (q' & Hr & Hq'). rewrite set_threads_id in Hr. eexists. split; [exact Hr|].
  unfold requeued. rewrite threads_set. cbn. rewrite lookup_insert_eq.
  split; [done|]. split; [intros r; apply orig_set_threads|]. eauto.
Qed.

Lemma requeued_inv s s' v v' q :
  listener_inv s v → requeued s s' q →
  _eventAttached v' = negb (_signal v' =? 0) → _eventAttached v' = bool_decide (eventHandle l ∈ q) →
  listener_inv (at_listener v' s') v'.
Proof.
  intros (_ & _ & (Hu & Hg) & _) (Hqs & Ho & c & He & Hq) Ha Hb. unfold listener_inv.
  rewrite threads_at_listener, orig_at_listener, Ho. split; [apply at_listener_lookup|].
  split; [done|]. split; [done|]. split; [done|]. eauto.
Qed.

(** ** Sequences of operations *)

(** What happens to the listener: its source signals, a user resets, the sink
    takes the event. *)
Inductive listenerOp := OSignal (x : Z) | OReset (m : Z) | ODeliver.

(** One operation and the events it delivers: the sink delivers the event of a
    handle that it has taken out of its queue. *)
Definition listener_run (op : listenerOp) : kernel S (list KEvent) :=
  match op with
  | OSignal x => listener_signalChanged l x;;; kret []
  | OReset m => resetWithMask l m;;; kret []
  | ODeliver =>
    c <-- get_ec e;;
    match q_items (eventQueue c) with
    | None => spin
    | Some q =>
      if decide (eventHandle l ∈ q) then
        detachKEvent e (eventHandle l);;; ev <-- listener_deliverKEvent l;; kret [ev]
      else kret []
    end
  end.

Fixpoint listener_runs (ops : list listenerOp) : kernel S (list KEvent) :=
  match ops with
  | [] => kret []
  | op :: ops => evs <-- listener_run op;; evs' <-- listener_runs ops;; kret (evs ++ evs')
  end.

(** The contract: the signals under the mask are collected until they are
    delivered together. *)
Definition listener_spec (mask context : Z) (op : listenerOp) (signal : Z) : list KEvent * Z :=
  match op with
  | OSignal x => ([], Z.lor signal (Z.land x mask))
  | OReset m => ([], Z.land signal m)
  | ODeliver => if signal =? 0 then ([], 0) else ([mkKEvent context signal], 0)
  end.

Fixpoint listener_specs (mask context : Z) (ops : list listenerOp) (signal : Z) : list KEvent * Z :=
  match ops with
  | [] => ([], signal)
  | op :: ops =>
    let '(evs, signal) := listener_spec mask context op signal in
    let '(evs', signal) := listener_specs mask context ops signal in (evs ++ evs', signal)
  end.

(** A write to the listener, then a change of its queue at the sink. *)
Lemma requeued_at s v s' q : requeued (at_listener v s) s' q → requeued s s' q.
Proof.
  intros (Hqs & Ho & Hq). split; [done|]. split; [|done].
  intros r. by rewrite Ho, orig_at_listener.
Qed.

Lemma requeued_refl s c q :
  queues_ok (threads s) → ecs (threads s) !! e = Some c → contents (eventQueue c) q → requeued s s q.
Proof. intros ? ? ?. split; [done|]. split; [done|]. eauto. Qed.

Lemma sink_run {B} v1 v (k : optional (Z * Z) → kernel S B) s :
  listener_inv s v →
  kbind (typedSink l) k (at_listener v1 s) = k (OK (orig s (sink_ref l), e)) (at_listener v1 s).
Proof.
  intros (_ & _ & (Hu & Hg) & _ & c & q & He & _).
  assert (Ho : orig (at_listener v1 s) (sink_ref l) = orig s (sink_ref l)) by apply orig_at_listener.
  erewrite kbind_run by (apply (typedSink_run _ c); rewrite ?Ho, ?threads_at_listener; done).
  by rewrite Ho.
Qed.

(** The handle is attached when it is not in the queue yet, and detached. *)
Lemma attach_at {B} v1 v s (k : unit → kernel S B) :
  listener_inv s v → _eventAttached v = false →
  ∃ s' q, kbind (attachKEvent e (eventHandle l)) k (at_listener v1 s) = k tt s' ∧ requeued s s' q ∧
          eventHandle l ∈ q.
Proof.
  intros (_ & Hqs & _ & _ & c & q & He & Hq & Hb) Hv. rewrite Hv in Hb.
  destruct (attach_run (at_listener v1 s) c q) as (s' & Hr & Hre);
    rewrite ?threads_at_listener; try done.
  { by apply eq_sym, bool_decide_eq_false in Hb. }
  exists s', (q ++ [eventHandle l]). rewrite (kbind_run _ _ _ _ _ Hr).
  split; [done|]. split; [by eapply requeued_at | set_solver].
Qed.

Lemma detach_at {B} v1 v s (k : unit → kernel S B) :
  listener_inv s v →
  ∃ s' q, kbind (detachKEvent e (eventHandle l)) k (at_listener v1 s) = k tt s' ∧ requeued s s' q ∧
          eventHandle l ∉ q.
Proof.
  intros (_ & Hqs & _ & _ & c & q & He & Hq & Hb).
  destruct (detach_run (at_listener v1 s) c q) as (s' & Hr & Hre);
    rewrite ?threads_at_listener; try done.
  exists s', (filter (.≠ eventHandle l) q). rewrite (kbind_run _ _ _ _ _ Hr).
  split; [done|]. split; [by eapply requeued_at|]. rewrite list_elem_of_filter. by intros [[] _].
Qed.

Lemma signal_refines s v x :
  listener_inv s v →
  ∃ s' v', listener_signalChanged l x s = Done tt s' ∧ listener_inv s' v' ∧
    _mask v' = _mask v ∧ _context v' = _context v ∧ _signal v' = Z.lor (_signal v) (Z.land x (_mask v)).
Proof.
  intros Hinv. pose proof Hinv as (Hl & Hqs & _ & Hat & c & q & He & Hq & Hb).
  unfold listener_signalChanged. rewrite (bind_get_listener _ _ _ Hl), bind_put_listener.
  set (sg := Z.lor _ _). set (v1 := mkListener (_eventAttached v) _ sg _).
  pose proof (requeued_refl s c q Hqs He Hq) as Hkeep.
  destruct (Z.eqb_spec sg 0) as [Hz|Hz]; cbn [negb].
  - eexists _, v1. split; [reflexivity|]. split; [|done]. eapply requeued_inv; [done..| |done].
    cbn. rewrite Hz, Hat. by apply Z.lor_eq_0_iff in Hz as [-> _].
  - rewrite (sink_run v1 v _ s Hinv). destruct (_eventAttached v) eqn:Hv; cbn [negb].
    + eexists _, v1. split; [reflexivity|]. split; [|done]. eapply requeued_inv; [done..| |].
      * cbn. by rewrite (proj2 (Z.eqb_neq _ _) Hz).
      * done.
    + destruct (attach_at v1 v s (λ _, put_listener l (mkListener true (_mask v) sg (_context v))) Hinv Hv)
        as (s' & q' & -> & Hre & Hin).
      eexists _, _. split; [reflexivity|]. split; [eapply requeued_inv; [done..| |]|done]; cbn.
      * by rewrite (proj2 (Z.eqb_neq _ _) Hz).
      * by rewrite bool_decide_true.
Qed.

Lemma reset_refines s v m :
  listener_inv s v →
  ∃ s' v', resetWithMask l m s = Done tt s' ∧ listener_inv s' v' ∧
    _mask v' = _mask v ∧ _context v' = _context v ∧ _signal v' = Z.land (_signal v) m.
Proof.
  intros Hinv. pose proof Hinv as (Hl & Hqs & _ & Hat & c & q & He & Hq & Hb).
  unfold resetWithMask. rewrite (bind_get_listener _ _ _ Hl), bind_put_listener.
  set (sg := Z.land _ _). set (v1 := mkListener (_eventAttached v) _ sg _).
  pose proof (requeued_refl s c q Hqs He Hq) as Hkeep.
  rewrite (sink_run v1 v _ s Hinv). destruct (Z.eqb_spec sg 0) as [Hz|Hz]; cbn [negb andb].
  - destruct (_eventAttached v) eqn:Hv.
    + destruct (detach_at v1 v s (λ _, put_listener l (mkListener false (_mask v) sg (_context v))) Hinv)
        as (s' & q' & -> & Hre & Hin).
      eexists _, _. split; [reflexivity|]. split; [eapply requeued_inv; [done..| |]|done]; cbn.
      * by rewrite Hz.
      * by rewrite bool_decide_false.
    + eexists _, v1. split; [reflexivity|]. split; [|done]. eapply requeued_inv; [done..| |done].
      cbn. by rewrite Hz.
  - assert (Hs : _signal v ≠ 0) by (intros Hs; apply Hz; unfold sg; by rewrite Hs).
    rewrite Hat, (proj2 (Z.eqb_neq _ _) Hs). cbn [negb].
    eexists _, v1. split; [reflexivity|]. split; [|done]. eapply requeued_inv; [done..| |done].
    cbn. by rewrite Hat, (proj2 (Z.eqb_neq _ _) Hs), (proj2 (Z.eqb_neq _ _) Hz).
Qed.

Lemma deliver_refines s v :
  listener_inv s v →
  ∃ evs s' v', listener_run ODeliver s = Done evs s' ∧ listener_inv s' v' ∧
    _mask v' = _mask v ∧ _context v' = _context v ∧
    (evs, _signal v') = listener_spec (_mask v) (_context v) ODeliver (_signal v).
Proof.
  intros Hinv. pose proof Hinv as (Hl & Hqs & Hbd & Hat & c & q & He & Hq & Hb).
  cbn [listener_run listener_spec]. unfold kbind at 1, get_ec. rewrite He.
  rewrite (contents_items _ _ Hq). destruct (decide (eventHandle l ∈ q)) as [Hin|Hin].
  - rewrite bool_decide_true in Hb by done. rewrite Hb in Hat.
    destruct (detach_run s c q Hqs He Hq) as (s1 & Hr & Hre). rewrite (kbind_run _ _ _ _ _ Hr).
    assert (Hl1 : listeners (lstore s1) !! l = Some v).
    { rewrite <- (set_threads_id s) in Hr.
      destruct (detachKEvent_run e (eventHandle l) c q s (threads s) He Hq (eventHandle_nonzero l))
        as (q' & Hr' & _). rewrite Hr' in Hr. injection Hr as <-. by rewrite lstore_set_threads. }
    unfold listener_deliverKEvent.
    rewrite bind_assoc, (bind_get_listener _ _ _ Hl1), bind_assoc, bind_put_listener, bind_ret.
    eexists _, _, _. split; [reflexivity|]. split; [eapply requeued_inv; [done..| |]|]; cbn.
    + done.
    + rewrite bool_decide_false; [done|]. rewrite list_elem_of_filter. by intros [[] _].
    + split; [done|]. split; [done|]. by destruct (Z.eqb_spec (_signal v) 0).
  - rewrite bool_decide_false in Hb by done. rewrite Hb in Hat.
    exists [], s, v. split; [done|]. split; [done|]. split; [done|]. split; [done|].
    by destruct (Z.eqb_spec (_signal v) 0) as [->|].
Qed.

Lemma listener_run_refines op s v :
  listener_inv s v →
  ∃ evs s' v', listener_run op s = Done evs s' ∧ listener_inv s' v' ∧
    _mask v' = _mask v ∧ _context v' = _context v ∧
    (evs, _signal v') = listener_spec (_mask v) (_context v) op (_signal v).
Proof.
  intros Hinv. destruct op as [x|m|]; [| |by apply deliver_refines].
  - destruct (signal_refines s v x Hinv) as (s' & v' & Hr & Hi & Hm & Hc & Hs).
    exists [], s', v'. cbn [listener_run listener_spec]. rewrite (kbind_run _ _ _ _ _ Hr), Hs. done.
  - destruct (reset_refines s v m Hinv) as (s' & v' & Hr & Hi & Hm & Hc & Hs).
    exists [], s', v'. cbn [listener_run listener_spec]. rewrite (kbind_run _ _ _ _ _ Hr), Hs. done.
Qed.


(** A reset keeps what it should clear.  The header says that [resetWithMask]
    resets the bits that are set in the mask, and RESET_ALL has all bits set; the
    code keeps exactly those bits, so a reset with RESET_ALL leaves every pending
    signal pending. *)
Theorem reset_all_keeps s v :
  listener_inv s v → fits 64 (_signal v) →
  ∃ s' v', resetWithMask l RESET_ALL s = Done tt s' ∧ listener_inv s' v' ∧
           _signal v' = _signal v.
Proof.
  intros Hinv Hf. destruct (reset_refines s v RESET_ALL Hinv) as (s' & v' & Hr & Hi & _ & _ & Hs).
  exists s', v'. split; [done|]. split; [done|]. rewrite Hs.
  change RESET_ALL with (Z.ones 64). rewrite Z.land_ones by done. by apply Z.mod_small.
Qed.

End protocol.
