(* ===== verification/ThreadProps.v ===== *)
(** * Registers, schedulers and waiting

    Further properties of the execution contexts of Threads.v: the round trip of
    registers through invocations, what changing the scheduler of a loaded thread
    leads to, and the race between a waiting thread and its events, where each
    atomic access is a step. *)

From stdpp Require Import base tactics numbers list gmap relations.
From Stdlib Require Import ZArith Lia.
From S2P Require Import Prelude Ranges Bitfield Cap CapEntry CapRing CapSteps CapOps Heap KernelMemory CapMap Frame PageTable PageMap LinkedList Threads Scheduling.

Local Open Scope Z_scope.
Import PhysPtr.

Section props.
Context {Q S : Type} `{Fifo Q} `{HasPageMaps S} `{KernelObjects S} `{HasCapMaps S}
  `{!HasRefs S} `{RefSubjects S} `{!HasThreads Q S} `{ThreadLayout}.
Implicit Types (t : Threads Q) (s : S) (c : EC Q).

(** ** Registers *)

Section registers.
Context `{Invocations S}.

(** The reply to the message [m] completes without touching the thread [e]. *)
Definition reply_keeps (e m : Z) : Prop :=
  ∀ r s, ∃ s', replyResponse m r s = Done tt s' ∧
    ecs (threads s') !! e = ecs (threads s) !! e ∧
    ∀ ev, ev ∈ events (threads s) → ev ∈ events (threads s').

(** A trapped thread that no hardware thread has loaded. *)
Definition at_rest (c : EC Q) (r : ThreadState) : Prop :=
  currentPlace c = 0 ∧ Z.testbit (flags c) 1 = true ∧ threadState c = r.

Lemma trapped_kept f i :
  i ≠ 1 → 0 ≤ i → Z.testbit f 1 = true → Z.testbit (Z.land f (inv_flags (Z.shiftl 1 i))) 1 = true.
Proof.
  intros Hi H0' Hf. rewrite (clear_bit _ _ _ i), Hf by (done || lia).
  by rewrite (proj2 (Z.eqb_neq i 1)).
Qed.

Lemma clear_access_run e c r s t :
  ecs t !! e = Some c → at_rest c r →
  ∃ c', clearFlagsResume e REGISTER_ACCESS (set_threads t s) =
      Done tt (set_threads (set_ecs (<[e := c']> (ecs t)) t) s) ∧ at_rest c' r ∧ msg c' = msg c.
Proof.
  intros He (Hp & Ht & Hr).
  assert (Ht' : Z.testbit (Z.land (flags c) (inv_flags REGISTER_ACCESS)) 1 = true)
    by (apply (trapped_kept _ 7); [lia|lia|done]).
  exists (with_flags (Z.land (flags c) (inv_flags REGISTER_ACCESS)) c). split; [|done].
  unfold clearFlagsResume. rewrite (kbind_run _ _ _ _ _ (clearFlags_run s e _ c t He)).
  erewrite kbind_run by (apply isReady_run; cbn; apply lookup_insert_eq). cbn [flags with_flags].
  rewrite (isBlocked_bits (Z.land _ _)), Ht', orb_true_r. cbn [orb negb]. by rewrite andb_false_r.
Qed.

(** The reply and what follows it in both invocations. *)
Lemma reply_done_run e m r c x s t :
  reply_keeps e m → ecs t !! e = Some c → at_rest c r →
  ∃ s' c', kbind (replyResponse m x) (λ _, kbind (upd_ec e (with_msg 0)) (λ _, emit (RequestDone e)))
      (set_threads t s) = Done tt s' ∧
    ecs (threads s') !! e = Some c' ∧ at_rest c' r ∧ ∀ ev, ev ∈ events t → ev ∈ events (threads s').
Proof.
  intros Hk He Hc. destruct (Hk x (set_threads t s)) as (s1 & Hr & He1 & Hev).
  rewrite threads_set, He in He1. rewrite threads_set in Hev.
  rewrite (kbind_run _ _ _ _ _ Hr), <- (set_threads_id s1).
  rewrite (kbind_run _ _ _ _ _ (upd_ec_run s1 e (with_msg 0) c _ He1)). unfold emit. rewrite modify_run.
  eexists _, (with_msg 0 c). rewrite threads_set. split; [done|]. split; [apply lookup_insert_eq|].
  split; [exact Hc|]. intros ev Hin. apply elem_of_app. left. by apply Hev.
Qed.

Lemma writeThreadRegisters_run e m c r g s t :
  reply_keeps e m → ecs t !! e = Some c → at_rest c r → msg c = m → m ≠ 0 →
  canonical (g_fs_base g) = true → canonical (g_gs_base g) = true →
  ∃ s' c', writeThreadRegisters e g (set_threads t s) = Done tt s' ∧
    ecs (threads s') !! e = Some c' ∧
    at_rest c' (with_bases (g_fs_base g) (g_gs_base g) (copy_registers g r)).
Proof.
  intros Hk He (Hp & Ht & <-) Hm Hm0 Hfs Hgs. unfold writeThreadRegisters.
  rewrite (bind_get_ec _ _ _ _ _ He), Hm, bind_assert by by rewrite (proj2 (Z.eqb_neq _ _) Hm0).
  unfold setRegisters, setBaseRegisters. rewrite Hfs, Hgs. cbn [negb orb]. rewrite !bind_assoc.
  rewrite (kbind_run _ _ _ _ _ (upd_ec_run s e _ c t He)), bind_assoc.
  erewrite kbind_run by (apply upd_ec_run; cbn; apply lookup_insert_eq). rewrite !bind_ret.
  set (t1 := set_ecs _ _). set (r' := with_bases _ _ _).
  assert (He1 : ecs t1 !! e = Some (with_threadState r' c)) by apply lookup_insert_eq.
  destruct (clear_access_run e _ r' s t1 He1) as (c2 & Hrun & Hc2 & _); [done|]. cbn [isOK].
  rewrite bind_ret, (kbind_run _ _ _ _ _ Hrun).
  destruct (reply_done_run e m r' c2 (OK tt) s (set_ecs (<[e := c2]> (ecs t1)) t1) Hk
    (lookup_insert_eq _ _ _) Hc2) as (s' & c' & Hd & He' & Hc' & _).
  by exists s', c'.
Qed.

Lemma readThreadRegisters_run e m c r b s t :
  reply_keeps e m → ecs t !! e = Some c → at_rest c r → msg c = m → m ≠ 0 →
  ∃ s', readThreadRegisters e b (set_threads t s) = Done tt s' ∧
    WroteRegisters m (negb b) (response_registers r) ∈ events (threads s').
Proof.
  intros Hk He Hc Hm Hm0. pose proof Hc as (_ & _ & Hr). unfold readThreadRegisters.
  rewrite (bind_get_ec _ _ _ _ _ He), Hm, bind_assert by by rewrite (proj2 (Z.eqb_neq _ _) Hm0).
  unfold emit at 1. rewrite bind_modify, Hr. set (t1 := add_event _ t).
  destruct (clear_access_run e c r s t1 He Hc) as (c2 & Hrun & Hc2 & _).
  rewrite (kbind_run _ _ _ _ _ Hrun).
  destruct (reply_done_run e m r c2 (OK tt) s (set_ecs (<[e := c2]> (ecs t1)) t1) Hk
    (lookup_insert_eq _ _ _) Hc2) as (s' & c' & Hd & _ & _ & Hev).
  exists s'. split; [done|]. apply Hev. cbn. apply elem_of_app. right. by apply list_elem_of_singleton.
Qed.

Lemma invokeWriteRegisters_run e m c r g s :
  reply_keeps e m → ecs (threads s) !! e = Some c → at_rest c r → m ≠ 0 →
  canonical (g_fs_base g) = true → canonical (g_gs_base g) = true →
  ∃ s' c', invokeWriteRegisters e m false g s = Done INHIBIT s' ∧
    ecs (threads s') !! e = Some c' ∧
    at_rest c' (with_bases (g_fs_base g) (g_gs_base g) (copy_registers g r)).
Proof.
  intros Hk He (Hp & Ht & Hr) Hm0 Hfs Hgs. rewrite <- (set_threads_id s). unfold invokeWriteRegisters.
  rewrite (kbind_run _ _ _ _ _ (upd_ec_run s e _ c _ He)).
  erewrite kbind_run by (apply setFlags_run; cbn; apply lookup_insert_eq). rewrite bind_ret.
  set (t1 := set_ecs _ _). set (c1 := with_flags _ _) in t1.
  assert (He1 : ecs t1 !! e = Some c1) by apply lookup_insert_eq.
  rewrite (bind_get_ec _ _ _ _ _ He1). cbn [c1 with_flags with_msg currentPlace]. rewrite Hp. cbn [Z.eqb negb].
  destruct (writeThreadRegisters_run e m c1 r g s t1) as (s' & c' & Hrun & ?); [done..| |done|done|done|done|].
  { split; [done|]. split; [|done]. subst c1. ec_simpl. by rewrite Z.lor_spec, Ht. }
  rewrite (kbind_run _ _ _ _ _ Hrun). by exists s', c'.
Qed.

Lemma invokeReadRegisters_run e m c r b s :
  reply_keeps e m → ecs (threads s) !! e = Some c → at_rest c r → m ≠ 0 →
  ∃ s', invokeReadRegisters e m b s = Done INHIBIT s' ∧
    WroteRegisters m (negb b) (response_registers r) ∈ events (threads s').
Proof.
  intros Hk He (Hp & Ht & Hr) Hm0. rewrite <- (set_threads_id s). unfold invokeReadRegisters.
  rewrite (kbind_run _ _ _ _ _ (upd_ec_run s e _ c _ He)).
  erewrite kbind_run by (apply setFlags_run; cbn; apply lookup_insert_eq).
  set (t1 := set_ecs _ _). set (c1 := with_flags _ _) in t1.
  assert (He1 : ecs t1 !! e = Some c1) by apply lookup_insert_eq.
  rewrite (bind_get_ec _ _ _ _ _ He1). cbn [c1 with_flags with_msg currentPlace]. rewrite Hp. cbn [Z.eqb negb].
  destruct (readThreadRegisters_run e m c1 r b s t1) as (s' & Hrun & ?); [done..| |done|done|].
  { split; [done|]. split; [|done]. subst c1. ec_simpl. by rewrite Z.lor_spec, Ht. }
  rewrite (kbind_run _ _ _ _ _ Hrun). by exists s'.
Qed.

(** Registers survive the round trip through invocations.  When the registers
    of a trapped thread that is not loaded are written by an invocation and read
    by another one, the second reply holds the general purpose registers, the
    instruction and stack pointers and the segment bases that were written, and
    the thread's own interrupt number, error code and fault address; r11 and r12
    are not part of the reply and are 0. *)
Theorem registers_roundtrip e m1 m2 c g b s :
  reply_keeps e m1 → reply_keeps e m2 → m1 ≠ 0 → m2 ≠ 0 →
  ecs (threads s) !! e = Some c → currentPlace c = 0 → Z.testbit (flags c) 1 = true →
  canonical (g_fs_base g) = true → canonical (g_gs_base g) = true →
  ∃ s1 s2, invokeWriteRegisters e m1 false g s = Done INHIBIT s1 ∧
    invokeReadRegisters e m2 b s1 = Done INHIBIT s2 ∧
    let r := threadState c in
    WroteRegisters m2 (negb b)
      (mkRegs (g_rax g) (g_rbx g) (g_rcx g) (g_rdx g) (g_rdi g) (g_rsi g) (g_r8 g) (g_r9 g) (g_r10 g)
         0 0 (g_r13 g) (g_r14 g) (g_r15 g) (g_rip g) (g_rsp g) (g_rbp g) (g_fs_base g) (g_gs_base g)
         (irq r) (error r) (cr2 r)) ∈ events (threads s2).
Proof.
  intros Hk1 Hk2 Hm1 Hm2 He Hp Ht Hfs Hgs.
  destruct (invokeWriteRegisters_run e m1 c (threadState c) g s) as (s1 & c1 & Hw & He1 & Hc1); [done..|].
  destruct (invokeReadRegisters_run e m2 c1 _ b s1 Hk2 He1 Hc1 Hm2) as (s2 & Hr & Hev).
  by exists s1, s2.
Qed.

End registers.

(** ** Schedulers *)

(** Removing a thread from its scheduler forgets the running one.  When a
    thread [e2] is unbound from a scheduler that has selected another thread [e1],
    which therefore is not in the ready queue, [e1] is neither selected nor queued
    afterwards, although nothing blocks it: it is lost at its next kernel entry. *)
Theorem unbind_forgets_current a sc l cpu e1 e2 s :
  let t := threads s in
  scs t !! a = Some sc → contents (readyQueue sc) l → cpus t !! home sc = Some cpu →
  current_handle sc = ec_handle e1 → ec_handle e1 ∉ l → e1 ≠ e2 →
  ∃ s' q l', SC_unbind a (ec_handle e2) s = Done tt s' ∧
    scs (threads s') !! a = Some (mkSC (home sc) q 0) ∧ contents q l' ∧ ec_handle e1 ∉ l' ∧
    ecs (threads s') = ecs t.
Proof.
  intros t Ha Hq Hc Hcur Hn Hne. rewrite <- (set_threads_id s). fold t.
  unfold SC_unbind, k_remove.
  rewrite bind_assert by (by rewrite (proj2 (Z.eqb_neq _ 0) (ec_handle_nonzero e2))).
  rewrite (bind_get_sc _ _ _ _ _ Ha).
  destruct (contents_remove _ _ (ec_handle e2) Hq (ec_handle_nonzero e2)) as (q' & -> & Hq').
  rewrite bind_ret, bind_put_sc.
  assert (Hn' : ec_handle e1 ∉ filter (.≠ ec_handle e2) l) by (rewrite list_elem_of_filter; tauto).
  destruct (q_empty q'); [erewrite bind_get_cpu by (cbn; exact Hc); unfold emit; rewrite modify_run|];
    eexists _, q', _; (split; [reflexivity|]); rewrite threads_set; cbn; rewrite lookup_insert_eq; done.
Qed.

(** Changing the scheduler of a loaded thread leaves it half loaded.  The
    invocation clears [currentPlace] but neither the flag NOT_LOADED nor what the
    hardware thread has loaded: every later attempt to load or to save the thread,
    at any place, fails an assertion. *)
Theorem setSchedulingContext_half_loaded e m entry ce c s :
  let t := threads s in
  ecs t !! e = Some c → currentPlace c ≠ 0 → Z.testbit (flags c) 8 = false →
  entries s !! entry = Some ce → isUsable (_cap ce) = true → is_Some (scs t !! getPtr (_cap ce)) →
  ∃ s', setSchedulingContext e m (OK entry) s = Done (THROW INHIBIT) s' ∧
    ∀ place, place ≠ 0 →
      let s1 := set_threads (set_local place (threads s')) s' in
      loadState e s1 = AssertFail ∧ saveState e s1 = AssertFail.
Proof.
  intros t He Hp H8 Hce Hu [sc Hsc]. unfold setSchedulingContext.
  assert (Hty : typedEntry castScheduler (OK entry) s = Done (OK (_cap ce, getPtr (_cap ce))) s).
  { unfold typedEntry, cap, rd, typedCap, castScheduler, kbind, kget, kret. rewrite Hce, Hu. cbn.
    fold t. by rewrite Hsc. }
  rewrite (kbind_run _ _ _ _ _ Hty). rewrite <- (set_threads_id s). fold t.
  rewrite (bind_get_ec _ _ _ _ _ He), bind_put_ec, (proj2 (Z.eqb_neq _ _) Hp). cbn [negb].
  unfold emit. rewrite bind_modify. eexists. split; [reflexivity|]. intros place Hpl.
  rewrite threads_set. set (t1 := set_local _ _). rewrite set_threads_set.
  assert (He1 : ecs t1 !! e = Some (with_place 0 c)) by apply lookup_insert_eq. split.
  - unfold loadState. rewrite bind_local, (bind_get_ec _ _ _ _ _ He1), bind_put_ec, bind_assert by done.
    erewrite kbind_run by (apply clearFlags_run; cbn; apply lookup_insert_eq).
    apply bind_assert_fail. by rewrite not_loaded_bit.
  - unfold saveState. rewrite (kbind_run _ _ _ _ _ (setFlags_run _ _ _ _ _ He1)).
    rewrite bind_assert by (rewrite not_loaded_bit; ec_simpl; by rewrite H8). rewrite bind_local.
    erewrite bind_get_ec by (cbn; apply lookup_insert_eq). rewrite bind_put_ec.
    apply bind_assert_fail. by apply Z.eqb_neq.
Qed.

End props.

(** ** Waiting for events

    The thread in the system call WAIT and the senders of events and signals run
    on different hardware threads; each atomic access to the flags or the event
    queue is one step, and any number of senders are between their two
    accesses. *)

Module Waiting.

Inductive pc := Running | Check (prev : Z) | Clear | InKernel | ReturnClear | ReturnPull.

Record wait_state := mkWait { w_flags : Z; w_queue : list Z; w_pc : pc; w_senders : nat }.

(** The thread enters the system call: [setFlags(IN_WAIT | IS_WAITING)],
    objects/execution-context/objects/ExecutionContext.cc:426-427 *)
Definition wait_enter (st : wait_state) : wait_state :=
  mkWait (Z.lor (w_flags st) (Z.lor IN_WAIT IS_WAITING)) (w_queue st) (Check (w_flags st))
    (w_senders st).

(** The test for pending events,
    objects/execution-context/objects/ExecutionContext.cc:429 *)
Definition wait_check (prev : Z) (st : wait_state) : wait_state :=
  mkWait (w_flags st) (w_queue st)
    (if negb (bool_decide (w_queue st = [])) || has_flag prev IS_NOTIFIED then Clear else InKernel)
    (w_senders st).

(** [clearFlags(IS_WAITING)] of the thread itself,
    objects/execution-context/objects/ExecutionContext.cc:431 *)
Definition wait_clear (st : wait_state) : wait_state :=
  mkWait (Z.land (w_flags st) (inv_flags IS_WAITING)) (w_queue st) InKernel (w_senders st).

(** The first access of [ExecutionContext::signal],
    objects/execution-context/objects/ExecutionContext.cc:487 *)
Definition signal_set (st : wait_state) : wait_state :=
  mkWait (Z.lor (w_flags st) IS_NOTIFIED) (w_queue st) (w_pc st) (S (w_senders st)).

(** The first access of [ExecutionContext::attachKEvent],
    objects/execution-context/objects/ExecutionContext.cc:368 *)
Definition attach_push (h : Z) (st : wait_state) : wait_state :=
  mkWait (w_flags st) (w_queue st ++ [h]) (w_pc st) (S (w_senders st)).

(** The second access of both, the [clearFlags] of [clearFlagsResume(IS_WAITING)],
    objects/execution-context/objects/ExecutionContext.cc:68 *)
Definition sender_clear (st : wait_state) : wait_state :=
  mkWait (Z.land (w_flags st) (inv_flags IS_WAITING)) (w_queue st) (w_pc st) (pred (w_senders st)).

(** The thread is resumed: [clearFlags(IN_WAIT)],
    objects/execution-context/objects/ExecutionContext.cc:541 *)
Definition return_unwait (st : wait_state) : wait_state :=
  mkWait (Z.land (w_flags st) (inv_flags IN_WAIT)) (w_queue st)
    (if has_flag (w_flags st) IN_WAIT then ReturnClear else Running) (w_senders st).

(** [clearFlags(IS_NOTIFIED)], objects/execution-context/objects/ExecutionContext.cc:542-545 *)
Definition return_clear (st : wait_state) : wait_state :=
  mkWait (Z.land (w_flags st) (inv_flags IS_NOTIFIED)) (w_queue st) ReturnPull (w_senders st).

(** One event is taken to user mode, [eventQueue.pull()],
    objects/execution-context/objects/ExecutionContext.cc:547-548 *)
Definition return_pull (st : wait_state) : wait_state :=
  mkWait (w_flags st) (tl (w_queue st)) Running (w_senders st).

Inductive wait_step : wait_state → wait_state → Prop :=
  | step_enter st : w_pc st = Running → wait_step st (wait_enter st)
  | step_check st prev : w_pc st = Check prev → wait_step st (wait_check prev st)
  | step_clear st : w_pc st = Clear → wait_step st (wait_clear st)
  | step_signal st : wait_step st (signal_set st)
  | step_attach st h : wait_step st (attach_push h st)
  | step_sender st : (0 < w_senders st)%nat → wait_step st (sender_clear st)
  | step_unwait st : w_pc st = InKernel → isBlocked (w_flags st) = false → wait_step st (return_unwait st)
  | step_return_clear st : w_pc st = ReturnClear → wait_step st (return_clear st)
  | step_return_pull st : w_pc st = ReturnPull → wait_step st (return_pull st).

Definition waiting (st : wait_state) : bool := Z.testbit (w_flags st) 0.
Definition notified (st : wait_state) : bool := Z.testbit (w_flags st) 6.

Definition in_wait (p : pc) : bool :=
  match p with Check _ | Clear | InKernel => true | _ => false end.

(** The flag IS_WAITING is set only inside the system call; while it is set and something is pending, somebody is going
    to clear the flag. *)
Definition wait_inv (st : wait_state) : Prop :=
  waiting st = true →
  in_wait (w_pc st) = true ∧
  (w_queue st ≠ [] → (0 < w_senders st)%nat ∨ w_pc st = Clear ∨ ∃ prev, w_pc st = Check prev) ∧
  (notified st = true → (0 < w_senders st)%nat ∨ w_pc st = Clear ∨
     ∃ prev, w_pc st = Check prev ∧ Z.testbit prev 6 = true).

Lemma notified_bit f : has_flag f IS_NOTIFIED = Z.testbit f 6.
Proof. by apply has_flag_bit. Qed.

Lemma cleared_not_waiting f : Z.testbit (Z.land f (inv_flags IS_WAITING)) 0 = false.
Proof. by rewrite (clear_bit _ _ _ 0), andb_false_r. Qed.

Lemma cleared_other j f :
  0 < j → Z.testbit (Z.land f (inv_flags (Z.shiftl 1 j))) 0 = Z.testbit f 0.
Proof.
  intros Hj. rewrite (clear_bit _ _ _ j) by (done || lia).
  rewrite (proj2 (Z.eqb_neq j 0)) by lia. apply andb_true_r.
Qed.

Lemma wait_step_inv st st' : wait_inv st → wait_step st st' → wait_inv st'.
Proof.
  intros Hinv Hstep.
  destruct Hstep as [st Hp|st prev Hp|st Hp|st|st h|st Hs|st Hp Hb|st Hp|st Hp]; intros Hw;
    unfold waiting, notified in *.
  - cbn [wait_enter w_flags w_queue w_senders w_pc] in *. split_and!; [done|eauto|].
    rewrite Z.lor_spec, (set_bit _ _ _ 0) by done. intros Hn. right. right.
    eexists. split; [done|]. by rewrite orb_false_r in Hn.
  - specialize (Hinv Hw) as (Hk & Hq & Hn). cbn [wait_check w_flags w_queue w_senders w_pc] in *.
    rewrite notified_bit. destruct (decide (w_queue st = [])) as [He|He].
    + rewrite bool_decide_true by done. cbn [negb orb].
      split_and!; [by destruct (Z.testbit prev 6)|done|]. intros H6.
      destruct (Hn H6) as [?|[Hc|(prev' & Hc & Hb)]]; [by left|congruence|].
      rewrite Hp in Hc. injection Hc as ->. rewrite Hb. auto.
    + rewrite bool_decide_false by done. cbn [negb orb]. auto.
  - cbn [wait_clear w_flags] in Hw. by rewrite cleared_not_waiting in Hw.
  - cbn [signal_set w_senders w_flags w_pc] in *. rewrite Z.lor_spec in Hw.
    change (Z.testbit IS_NOTIFIED 0) with false in Hw. rewrite orb_false_r in Hw.
    split; [by apply Hinv|]. split; intros _; left; lia.
  - cbn [attach_push w_senders w_pc]. split; [by apply Hinv|]. split; intros _; left; lia.
  - cbn [sender_clear w_flags] in Hw. by rewrite cleared_not_waiting in Hw.
  - cbn [return_unwait w_flags] in Hw. rewrite (cleared_other 5) in Hw by lia.
    rewrite isBlocked_bits, Hw in Hb. done.
  - cbn [return_clear w_flags] in Hw. rewrite (cleared_other 6) in Hw by lia.
    destruct (Hinv Hw) as [Hk _]. by rewrite Hp in Hk.
  - destruct (Hinv Hw) as [Hk _]. by rewrite Hp in Hk.
Qed.

Lemma wait_reach_inv st st' : wait_inv st → rtc wait_step st st' → wait_inv st'.
Proof. intros Hinv Hr. induction Hr; eauto using wait_step_inv. Qed.

Lemma sender_clear_iter n st :
  (0 < n)%nat → waiting (Nat.iter n sender_clear st) = false.
Proof.
  intros Hn. destruct n as [|n]; [lia|]. cbn [Nat.iter]. unfold waiting, sender_clear. cbn [w_flags].
  apply cleared_not_waiting.
Qed.

(** C10: no wakeup is lost.  However the steps of a waiting thread, of signals and
    of events interleave: once the thread is through the system call, it is only
    kept waiting by pending events or signals as long as one of their senders has
    not made its second access; when all senders have, the flag IS_WAITING is
    clear.  In particular a thread that waits with no sender active has nothing to
    receive. *)
Theorem no_lost_wakeup st0 st :
  waiting st0 = false → rtc wait_step st0 st → w_pc st = InKernel →
  w_queue st ≠ [] ∨ notified st = true →
  waiting (Nat.iter (w_senders st) sender_clear st) = false.
Proof.
  intros H0 Hr Hp Hpend.
  assert (Hinv : wait_inv st).
  { eapply wait_reach_inv; [|done]. intros Hw. congruence. }
  destruct (decide (0 < w_senders st)%nat) as [Hs|Hs]; [by apply sender_clear_iter|].
  replace (w_senders st) with 0%nat by lia. cbn [Nat.iter]. apply not_true_is_false. intros Hw.
  destruct (Hinv Hw) as (_ & Hq & Hn). rewrite Hp in Hq, Hn.
  destruct Hpend as [Hx|Hx]; [destruct (Hq Hx) as [?|[?|(? & ?)]]|destruct (Hn Hx) as [?|[?|(? & ? & ?)]]];
    congruence || lia.
Qed.

End Waiting.
