(* ===== verification/Processors.v ===== *)
(** * The processor allocator

    Models objects/processor-allocator/objects/ProcessorAllocator.hh and .cc with
    the messages of objects/processor-allocator/mythos/protocol/ProcessorAllocator.hh:
    the object that hands out the scheduling contexts of hardware threads and takes
    them back when they become idle.

    The answers written into message buffers are recorded in order; an access
    outside of [freeList] is undefined in C++ and [AssertFail] here. *)

From stdpp Require Import base tactics numbers list gmap relations.
From Stdlib Require Import ZArith Lia.
From S2P Require Import Prelude Ranges Bitfield Cap CapEntry CapRing CapSteps CapOps Revoke Heap KernelMemory CapMap Creation Frame PageTable PageMap LinkedList Threads Scheduling.

Local Open Scope Z_scope.
Import PhysPtr.

(** [init::SCHEDULERS_START], mythos/init/mythos/init.hh:54 *)
Definition SCHEDULERS_START : Z := 217.

(** The members of [LiFoProcessorAllocator], with the answers to ALLOC,
    objects/processor-allocator/objects/ProcessorAllocator.hh:82-85 *)
Record Processors := mkProcs {
  nFree : nat; freeList : list Z; toBeFreed : Z; answers : list (Z * Z) }.

Definition with_toBeFreed (id : Z) (p : Processors) : Processors :=
  mkProcs (nFree p) (freeList p) id (answers p).
Definition answer (msg c : Z) (p : Processors) : Processors :=
  mkProcs (nFree p) (freeList p) (toBeFreed p) (answers p ++ [(msg, c)]).

(** [LiFoProcessorAllocator::alloc]; [None] outside of [freeList],
    objects/processor-allocator/objects/ProcessorAllocator.cc:164-171 *)
Definition lifo_alloc (p : Processors) : option (optional Z * Processors) :=
  match nFree p with
  | O => Some (THROW UNSET, p)
  | S n => id ← freeList p !! n; Some (OK id, mkProcs n (freeList p) (toBeFreed p) (answers p))
  end.

(** [LiFoProcessorAllocator::free]; [None] outside of [freeList],
    objects/processor-allocator/objects/ProcessorAllocator.cc:173-176 *)
Definition lifo_free (id : Z) (p : Processors) : option Processors :=
  if (nFree p <? length (freeList p))%nat
  then Some (mkProcs (S (nFree p)) (<[nFree p := id]> (freeList p)) (toBeFreed p) (answers p))
  else None.

Class HasProcessors (S : Type) `{HasEntries S} := {
  procs : S → Processors;
  set_procs : Processors → S → S;
  procs_set p s : procs (set_procs p s) = p;
  set_procs_set p p' s : set_procs p (set_procs p' s) = set_procs p s;
  set_procs_id s : set_procs (procs s) s = s;
  entries_set_procs p s : entries (set_procs p s) = entries s;
  procs_set_entries m s : procs (set_entries m s) = procs s
}.

(** [ProcessorAllocator::mySC] at its kernel address,
    objects/processor-allocator/objects/ProcessorAllocator.hh:69-70 *)
Class ProcessorLayout := { mySC : Z }.

Section processors.
Context {S : Type} `{HasEntries S} `{KernelObjects S} `{HasCapMaps S} `{!HasProcessors S}
  `{!ProcessorLayout} `{!EntryLookups S}.

(** [sc[id]]: an entry has 16 bytes. *)
Definition sc_entry (id : Z) : Z := mySC + 16 * id.

Definition modify_procs (f : Processors → Processors) : kernel S unit :=
  kmodify (λ s, set_procs (f (procs s)) s).

Definition pa_alloc : kernel S (optional Z) := λ s,
  match lifo_alloc (procs s) with
  | Some (r, p) => Done r (set_procs p s)
  | None => AssertFail
  end.

Definition pa_free (id : Z) : kernel S unit := λ s,
  match lifo_free id (procs s) with
  | Some p => Done tt (set_procs p s)
  | None => AssertFail
  end.

(** [ProcessorAllocator::init] from the hardware thread [id] on; [scheduler] is the
    address of a scheduling context,
    objects/processor-allocator/objects/ProcessorAllocator.cc:74-80 *)
Fixpoint pa_init (scheduler : Z → Z) (n : nat) (id : Z) : kernel S unit :=
  match n with
  | O => kret tt
  | Datatypes.S n =>
    initRoot (sc_entry id) (mkCap (scheduler id) 0 NOFLAG);;;
    pa_free id;;;
    pa_init scheduler n (id + 1)
  end.

(** The entry for the new capability: found directly or through the capability map
    [dstSpace], objects/processor-allocator/objects/ProcessorAllocator.cc:91-117 *)
Definition pa_destination (msg dstSpace id : Z) : kernel S (optional Z) :=
  dst_lookup msg dstSpace (SCHEDULERS_START + id) 32.

(** [ProcessorAllocator::invokeAlloc],
    objects/processor-allocator/objects/ProcessorAllocator.cc:82-134 *)
Definition invokeAlloc (msg dstSpace : Z) : kernel S Error :=
  id <-- pa_alloc;;
  match id with
  | OK id =>
    dst <-- pa_destination msg dstSpace id;;
    match dst with
    | THROW err => pa_free id;;; kret err
    | OK dstEntry =>
      c <-- cap (sc_entry id);;
      res <-- reference (sc_entry id) dstEntry c 0;;
      match res with
      | OK _ => modify_procs (answer msg (SCHEDULERS_START + id))
      | THROW _ => pa_free id;;; modify_procs (answer msg null_cap)
      end;;;
      kret SUCCESS
    end
  | THROW _ => modify_procs (answer msg null_cap);;; kret SUCCESS
  end.

(** [ProcessorAllocator::invokeFree],
    objects/processor-allocator/objects/ProcessorAllocator.cc:137-147 *)
Definition invokeFree : kernel S Error := kret SUCCESS.

(** [ProcessorAllocator::deleteCap],
    objects/processor-allocator/objects/ProcessorAllocator.cc:34-38 *)
Definition pa_deleteCap (entry self : Z) : kernel S (optional unit) := kret (OK tt).

(** The messages of the protocol,
    objects/processor-allocator/mythos/protocol/ProcessorAllocator.hh:36-61 *)
Inductive ProcessorRequest := ALLOC (dstSpace : Z) | FREE | OTHER.

(** [ProcessorAllocator::invoke] when the monitor runs the request, up to the reply
    of the result, objects/processor-allocator/objects/ProcessorAllocator.cc:45-60 *)
Definition pa_invoke (msg : Z) (r : ProcessorRequest) : kernel S Error :=
  match r with
  | ALLOC dstSpace => invokeAlloc msg dstSpace
  | FREE => invokeFree
  | OTHER => kret NOT_IMPLEMENTED
  end.

(** [ProcessorAllocator::response] to the revocation,
    objects/processor-allocator/objects/ProcessorAllocator.cc:63-67 *)
Definition pa_response (res : Error) : kernel S unit :=
  s <-- kget;; pa_free (toBeFreed (procs s));;; modify_procs (with_toBeFreed 0).

(** [ProcessorAllocator::freeSC] when the monitor runs the request,
    objects/processor-allocator/objects/ProcessorAllocator.cc:149-157 *)
Definition freeSC `{!HasRevokeOp S} (fuel wfuel : nat) (this id : Z) : kernel S unit :=
  modify_procs (with_toBeFreed id);;;
  _revokeRequest fuel wfuel (sc_entry id) this.

End processors.

(** ** Free processors *)

(** The processors in the order in which they are handed out. *)
Definition free_ids (p : Processors) : list Z := reverse (take (nFree p) (freeList p)).

Definition procs_ok (p : Processors) : Prop := (nFree p ≤ length (freeList p))%nat.

(** [alloc] hands out the first free processor, and [free] of it restores the state. *)
Lemma lifo_alloc_first p id rest :
  procs_ok p → free_ids p = id :: rest →
  ∃ p1, lifo_alloc p = Some (OK id, p1) ∧ lifo_free id p1 = Some p ∧ procs_ok p1 ∧
        free_ids p1 = rest ∧ answers p1 = answers p ∧ toBeFreed p1 = toBeFreed p.
Proof.
  unfold free_ids, lifo_alloc, lifo_free, procs_ok. destruct p as [n fl tb an].
  cbn [nFree freeList toBeFreed answers]. intros Hok Hf. destruct n as [|n]; [done|].
  destruct (lookup_lt_is_Some_2 fl n) as [x Ex]; [lia|].
  rewrite (take_S_r _ _ _ Ex), reverse_app in Hf. injection Hf as -> Hr.
  rewrite Ex. exists (mkProcs n fl tb an). cbn [nFree freeList toBeFreed answers].
  rewrite (proj2 (Nat.ltb_lt _ _)), list_insert_id by (done || lia). split_and!; done || lia.
Qed.

Lemma lifo_alloc_none p : free_ids p = [] → procs_ok p → lifo_alloc p = Some (THROW UNSET, p).
Proof.
  unfold free_ids, lifo_alloc, procs_ok. intros Hf Hok. destruct (nFree p) as [|n] eqn:En; [done|].
  apply (f_equal length) in Hf. rewrite length_reverse, length_take in Hf. cbn [length] in Hf. lia.
Qed.

Lemma lifo_free_first p id :
  (nFree p < length (freeList p))%nat →
  ∃ p1, lifo_free id p = Some p1 ∧ procs_ok p1 ∧ free_ids p1 = id :: free_ids p ∧
        length (freeList p1) = length (freeList p) ∧ answers p1 = answers p.
Proof.
  intros Hlt. unfold lifo_free, free_ids, procs_ok. rewrite (proj2 (Nat.ltb_lt _ _)) by done.
  eexists. split; [reflexivity|]. cbn [nFree freeList answers]. rewrite length_insert.
  rewrite (take_S_r _ _ id) by (by apply list_lookup_insert_eq).
  rewrite reverse_app, take_insert_ge by lia. split_and!; done || lia.
Qed.

(** ** Allocation *)

Section allocation.
Context {S : Type} `{HasEntries S} `{KernelObjects S} `{HasCapMaps S} `{!HasProcessors S}
  `{!ProcessorLayout} `{!EntryLookups S}.

Lemma pa_alloc_run p r p1 (s : S) :
  procs s = p → lifo_alloc p = Some (r, p1) → pa_alloc s = Done r (set_procs p1 s).
Proof. unfold pa_alloc. by intros -> ->. Qed.

Lemma pa_free_run id p p1 (s : S) :
  procs s = p → lifo_free id p = Some p1 → pa_free id s = Done tt (set_procs p1 s).
Proof. unfold pa_free. by intros -> ->. Qed.

(** An entry that is not empty is not overwritten. *)
Lemma reference_occupied pe d c request minted t (s : S) :
  isUsable c = true → mint (getPtr c) pe c request false s = Done (OK minted) s →
  entries s !! d = Some t → _cap t ≠ asEmpty →
  reference pe d c request s = Done (THROW LOST_RACE) s.
Proof.
  intros Hu Hm Hd Ht. unfold reference. rewrite Hu. cbn [negb]. rewrite (kbind_run _ _ _ _ _ Hm).
  unfold acquire, tryAcquire, kbind, rd. rewrite Hd, (proj2 (Z.eqb_neq _ _) Ht). done.
Qed.

(** The scheduling context of the processor [id] is in the resource list, and a
    reference to it can be minted for the entry [d]. *)
Record grantable (s : S) (id : Z) (l1 : list node) (n : node) (l2 : list node) (d c : Z) : Prop := {
  g_ring : Ring (entries s) (l1 ++ n :: l2);
  g_addr : n_addr n = sc_entry id;
  g_usable : isUsable (n_cap n) = true;
  g_unlocked : n_locked n = false;
  g_target : d ∉ addrs (l1 ++ n :: l2) ∧ capPointer d = true;
  g_mint : mint (getPtr (n_cap n)) (n_addr n) (n_cap n) 0 false s = Done (OK c) s;
  g_derived : isDerived c = isDerived (n_cap n);
  g_range : ∃ r, hasRange s (n_addr n) (n_cap n) r ∧ hasRange s d (asReference c) r
}.

Lemma sc_cap_run (s : S) l1 n l2 :
  Ring (entries s) (l1 ++ n :: l2) → cap (n_addr n) s = Done (n_cap n) s.
Proof.
  intros (_ & _ & Hs). apply seg_app in Hs as [_ [Hn _]].
  pose proof (cap_run _ s _ _ Hn) as Hr. by rewrite set_entries_id in Hr.
Qed.

(** What the request ALLOC does when the entry [d] was found for the processor [id]
    and the other free processors are [rest]: the reference is inserted behind the
    scheduling context and the processor leaves the free ones, or the entry is
    occupied and nothing changes but the answer. *)
Definition granted (s : S) (msg id : Z) (rest : list Z) l1 n l2 (d c : Z) (r : outcome S Error) : Prop :=
  ∀ t, entries s !! d = Some t →
  if decide (_cap t = asEmpty) then
    ∃ s', r = Done SUCCESS s' ∧ free_ids (procs s') = rest ∧
      answers (procs s') = answers (procs s) ++ [(msg, SCHEDULERS_START + id)] ∧
      Ring (entries s') (l1 ++ n :: fresh d (asReference c) :: l2)
  else r = Done SUCCESS (set_procs (answer msg null_cap (procs s)) s).

(** C17: a request for a processor is a transaction.  Without a free processor the
    answer is the null capability.  Otherwise the first free processor [id] is
    taken, and when no entry is found for its capability, the error is reported and
    the allocator is as before; when the entry is occupied, the answer is the null
    capability and the processor is free again; and when the entry is empty, it
    becomes a reference to the scheduling context of the processor in the resource
    list, exactly that processor is not free any more, and the answer names it. *)
Theorem invokeAlloc_correct msg dstSpace (s : S) :
  procs_ok (procs s) →
  match free_ids (procs s) with
  | [] => invokeAlloc msg dstSpace s = Done SUCCESS (set_procs (answer msg null_cap (procs s)) s)
  | id :: rest =>
    ∃ p1, let s1 := set_procs p1 s in free_ids p1 = rest ∧
    ∀ r, pa_destination msg dstSpace id s1 = Done r s1 →
    match r with
    | THROW err => invokeAlloc msg dstSpace s = Done err s
    | OK d => ∀ l1 n l2 c, grantable s1 id l1 n l2 d c →
        granted s msg id rest l1 n l2 d c (invokeAlloc msg dstSpace s)
    end
  end.
Proof.
  intros Hok. destruct (free_ids (procs s)) as [|id rest] eqn:Ef.
  { unfold invokeAlloc. rewrite (kbind_run _ _ _ _ _ (pa_alloc_run _ _ _ s eq_refl (lifo_alloc_none _ Ef Hok))).
    unfold modify_procs, kbind, kmodify. by rewrite set_procs_id. }
  destruct (lifo_alloc_first _ _ _ Hok Ef) as (p1 & Ha & Hfr & Hok1 & Ef1 & Han & _).
  exists p1. split; [done|]. intros r Hd.
  unfold granted, invokeAlloc.
  rewrite (kbind_run _ _ _ _ _ (pa_alloc_run _ _ _ s eq_refl Ha)), (kbind_run _ _ _ _ _ Hd).
  pose proof (pa_free_run id p1 _ (set_procs p1 s) (procs_set _ _) Hfr) as Hfree.
  rewrite set_procs_set, set_procs_id in Hfree.
  destruct r as [d|err]; [|by rewrite (kbind_run _ _ _ _ _ Hfree)].
  intros l1 n l2 c [HR Hadr Hu Hl [Ht Hcp] Hm Hde (rg & Hr1 & Hr2)] t Et.
  pose proof (sc_cap_run _ _ _ _ HR) as Hcap. rewrite Hadr in Hcap. rewrite (kbind_run _ _ _ _ _ Hcap).
  rewrite <- (entries_set_procs p1 s) in Et. destruct (decide (_cap t = asEmpty)) as [He|He].
  - rewrite <- (set_entries_id (set_procs p1 s)) in Hm at 1 2. 
    destruct (reference_inserts _ (set_procs p1 s) l1 n l2 d t 0 c rg HR Hu Hl Ht Hcp Et He Hm Hde Hr1 Hr2)
      as (m' & Hrun & HR' & _).
    rewrite set_entries_id, Hadr in Hrun. rewrite (kbind_run _ _ _ _ _ Hrun).
    unfold modify_procs, kmodify, kbind. rewrite procs_set_entries, procs_set.
    eexists. split; [reflexivity|]. rewrite procs_set, entries_set_procs, entries_set. cbn. by rewrite Han.
  - rewrite <- Hadr. rewrite (kbind_run _ _ _ _ _ (reference_occupied _ _ _ _ _ _ _ Hu Hm Et He)).
    unfold kbind. rewrite Hfree. done.
Qed.

End allocation.

(** ** Processors are handed out once *)

(** The allocator after [init] for [n] hardware threads. *)
Fixpoint init_ids (ids : list Z) (p : Processors) : option Processors :=
  match ids with [] => Some p | id :: ids => p ← lifo_free id p; init_ids ids p end.

(** Requests and returns; the second component is the list of processors in use. *)
Inductive pstep : Processors * list Z → Processors * list Z → Prop :=
  | p_alloc p id p' g : lifo_alloc p = Some (OK id, p') → pstep (p, g) (p', id :: g)
  | p_free p id p' g1 g2 : lifo_free id p = Some p' → pstep (p, g1 ++ id :: g2) (p', g1 ++ g2).

Definition shared_out (ids : list Z) (max : nat) (x : Processors * list Z) : Prop :=
  procs_ok x.1 ∧ length (freeList x.1) = max ∧ free_ids x.1 ++ x.2 ≡ₚ ids.

Lemma length_free_ids p : procs_ok p → length (free_ids p) = nFree p.
Proof. unfold procs_ok, free_ids. intros Hok. rewrite length_reverse, length_take. lia. Qed.

Lemma lifo_free_inv id p p' :
  lifo_free id p = Some p' →
  procs_ok p' ∧ free_ids p' = id :: free_ids p ∧ length (freeList p') = length (freeList p).
Proof.
  intros Hf. assert (Hlt : (nFree p < length (freeList p))%nat).
  { unfold lifo_free in Hf. case_match eqn:E; [by apply Nat.ltb_lt|done]. }
  destruct (lifo_free_first p id Hlt) as (p1 & E & Hok & Hids & Hlen & _). by simplify_eq.
Qed.

Lemma init_ids_spec ids : ∀ p,
  procs_ok p → (nFree p + length ids ≤ length (freeList p))%nat →
  ∃ p', init_ids ids p = Some p' ∧ procs_ok p' ∧ free_ids p' = reverse ids ++ free_ids p ∧
        length (freeList p') = length (freeList p).
Proof.
  induction ids as [|id ids IH]; intros p Hok Hlen; [by exists p|]. cbn [length] in Hlen.
  destruct (lifo_free_first p id) as (p1 & E & Hok1 & Hids & Hlen1 & _); [lia|].
  destruct (IH p1 Hok1) as (p' & E' & Hok' & Hids' & Hlen').
  - rewrite <- (length_free_ids p1 Hok1), Hids, Hlen1. cbn [length].
    rewrite (length_free_ids p Hok). lia.
  - exists p'. cbn [init_ids]. rewrite E. cbn [mbind option_bind].
    rewrite E', Hids', Hids, reverse_cons, <- app_assoc. split_and!; congruence || done.
Qed.

Lemma pstep_shared ids max x x' : shared_out ids max x → pstep x x' → shared_out ids max x'.
Proof.
  intros (Hok & Hlen & Hp) Hs. destruct Hs as [p id p' g E|p id p' g1 g2 E]; cbn in *.
  - assert (Hne : free_ids p ≠ []) by (intros Hn; by rewrite (lifo_alloc_none p Hn Hok) in E).
    destruct (free_ids p) as [|x rest] eqn:Ef; [done|].
    destruct (lifo_alloc_first p x rest Hok Ef) as (p1 & E1 & Hf & Hok1 & Ef1 & _ & _).
    simplify_eq. destruct (lifo_free_inv _ _ _ Hf) as (_ & _ & Hl). split_and!; cbn; [done|congruence|].
    by rewrite <- Permutation_middle.
  - destruct (lifo_free_inv _ _ _ E) as (Hok' & Hids & Hl). split_and!; cbn; [done|congruence|].
    rewrite Hids. etransitivity; [|exact Hp]. by rewrite <- Permutation_middle, <- !Permutation_middle.
Qed.

Section initialisation.
Context {S : Type} `{HasEntries S} `{!HasProcessors S} `{!ProcessorLayout}.

Lemma wr_procs e f (s s' : S) u : wr e f s = Done u s' → procs s' = procs s.
Proof. unfold wr. case_match; [|done]. intros [= _ <-]. apply procs_set_entries. Qed.

Lemma initRoot_procs e c (s s' : S) u : initRoot e c s = Done u s' → procs s' = procs s.
Proof.
  intros Hr. unfold initRoot in Hr.
  repeat match goal with
    | H : kbind _ _ _ = Done _ _ |- _ => apply kbind_Done in H as (? & ? & ? & ?)
    | H : kassert _ _ = Done _ _ |- _ => apply kassert_Done in H as [_ ->]
    | H : wr _ _ _ = Done _ _ |- _ => apply wr_procs in H
    | H : kret _ _ = Done _ _ |- _ => injection H as <- <-
    | H : cap _ _ = Done _ _ |- _ => unfold cap, rd in H
    | H : mkLink _ _ _ = Done _ _ |- _ => unfold mkLink in H
    | H : context [match ?x with _ => _ end] |- _ => destruct x; [|discriminate]
    | H : Done _ _ = Done _ _ |- _ => injection H as <- <-
    end; congruence.
Qed.

(** [init] marks the hardware threads as free one after the other. *)
Lemma pa_init_ids sched n : ∀ id (s s' : S) u,
  pa_init sched n id s = Done u s' → init_ids (seqZ id (Z.of_nat n)) (procs s) = Some (procs s').
Proof.
  induction n as [|n IH]; intros id s s' u; cbn [pa_init]; [by intros [= _ <-]|].
  rewrite kbind_Done. intros (? & s1 & H1 & (? & s2 & H2 & Hr)%kbind_Done).
  rewrite seqZ_cons by lia. cbn [init_ids]. apply initRoot_procs in H1. rewrite <- H1.
  unfold pa_free in H2. destruct (lifo_free id (procs s1)) as [p|]; [|done]. injection H2 as _ <-.
  cbn. apply IH in Hr. rewrite procs_set in Hr. rewrite <- Hr.
  replace (Z.succ id) with (id + 1) by lia. by replace (Z.pred (Z.of_nat (Datatypes.S n))) with (Z.of_nat n) by lia.
Qed.

End initialisation.


(** ** Idle events *)

Section idle.
Context {Q S : Type} `{Fifo Q} `{HasPageMaps S} `{KernelObjects S} `{HasCapMaps S}
  `{!HasRefs S} `{RefSubjects S} `{!HasThreads Q S} `{ThreadLayout}.

(** A thread that is not in the ready queue is unbound from an idle scheduler. *)
Lemma SC_unbind_idle a (sc : SC Q) cpu h s :
  h ≠ 0 → scs (threads s) !! a = Some sc → contents (readyQueue sc) [] →
  cpus (threads s) !! home sc = Some cpu →
  ∃ s' sc', SC_unbind a h s = Done tt s' ∧ scs (threads s') !! a = Some sc' ∧
    contents (readyQueue sc') [] ∧ home sc' = home sc ∧ cpus (threads s') = cpus (threads s) ∧
    events (threads s') = events (threads s) ++ [IdleSC (threadID cpu)].
Proof.
  remember (threads s) as t eqn:Et. intros Hh Ha Hq Hc. rewrite <- (set_threads_id s), <- Et.
  unfold SC_unbind, k_remove.
  rewrite bind_assert by (by rewrite (proj2 (Z.eqb_neq _ 0) Hh)).
  rewrite (bind_get_sc _ _ _ _ _ Ha).
  destruct (contents_remove _ _ h Hq Hh) as (q' & -> & Hq').
  rewrite bind_ret, bind_put_sc, (contents_empty _ _ Hq'), bool_decide_eq_true_2 by done.
  erewrite bind_get_cpu by (cbn; exact Hc). unfold emit. rewrite modify_run.
  eexists _, _. split; [reflexivity|]. rewrite threads_set. cbn. by rewrite lookup_insert_eq.
Qed.

End idle.

Section twice.
Context {S : Type} `{HasEntries S} `{!HasProcessors S}.

(** How the allocator handles an idle event: [freeSC] and, when the revocation has
    answered, [response]. *)
Definition taken_back (id : Z) (res : Error) : kernel S unit :=
  modify_procs (with_toBeFreed id);;; pa_response res.

Lemma taken_back_run id res (s : S) :
  (nFree (procs s) < length (freeList (procs s)))%nat →
  ∃ s', taken_back id res s = Done tt s' ∧ procs_ok (procs s') ∧
    free_ids (procs s') = id :: free_ids (procs s) ∧
    length (freeList (procs s')) = length (freeList (procs s)).
Proof.
  intros Hlt. unfold taken_back, pa_response, modify_procs, kmodify, pa_free, kbind, kget.
  rewrite !procs_set. cbn [toBeFreed with_toBeFreed].
  destruct (lifo_free_first (with_toBeFreed id (procs s)) id Hlt) as (p1 & -> & Hok & Hids & Hlen & _).
  eexists. split; [reflexivity|]. rewrite !procs_set. by destruct p1.
Qed.

End twice.

(** A processor can be handed out twice.  When two threads that are not ready
    leave a scheduler with an empty ready queue one after the other, each departure
    reports the processor as idle.  The allocator takes it back for each of these
    events, and the next two requests get the same processor. *)
Theorem processor_handed_out_twice {Q S P : Type} `{Fifo Q} `{HasPageMaps S} `{KernelObjects S}
    `{HasCapMaps S} `{!HasRefs S} `{RefSubjects S} `{!HasThreads Q S} `{ThreadLayout}
    `{HasEntries P} `{!HasProcessors P} a (sc : SC Q) cpu h1 h2 (s : S) (p : P) :
  h1 ≠ 0 → h2 ≠ 0 → scs (threads s) !! a = Some sc → contents (readyQueue sc) [] →
  cpus (threads s) !! home sc = Some cpu → (nFree (procs p) + 2 ≤ length (freeList (procs p)))%nat →
  let id := threadID cpu in
  ∃ s1 s2 p1 p2,
    SC_unbind a h1 s = Done tt s1 ∧ SC_unbind a h2 s1 = Done tt s2 ∧
    events (threads s2) = events (threads s) ++ [IdleSC id; IdleSC id] ∧
    taken_back id SUCCESS p = Done tt p1 ∧ taken_back id SUCCESS p1 = Done tt p2 ∧
    ∃ p3 p4, lifo_alloc (procs p2) = Some (OK id, p3) ∧ lifo_alloc p3 = Some (OK id, p4).
Proof.
  intros Hh1 Hh2 Ha Hq Hc Hlt id.
  destruct (SC_unbind_idle a sc cpu h1 s Hh1 Ha Hq Hc) as (s1 & sc1 & E1 & Ha1 & Hq1 & Hm1 & Hc1 & Hev1).
  rewrite <- Hm1, <- Hc1 in Hc.
  destruct (SC_unbind_idle a sc1 cpu h2 s1 Hh2 Ha1 Hq1 Hc) as (s2 & sc2 & E2 & _ & _ & _ & _ & Hev2).
  destruct (taken_back_run id SUCCESS p) as (p1 & F1 & Hok1 & Hids1 & Hlen1); [lia|].
  destruct (taken_back_run id SUCCESS p1) as (p2 & F2 & Hok2 & Hids2 & Hlen2).
  { rewrite <- (length_free_ids _ Hok1), Hids1, Hlen1. cbn [length]. unfold free_ids.
    rewrite length_reverse, length_take. lia. }
  rewrite Hids1 in Hids2. destruct (lifo_alloc_first _ _ _ Hok2 Hids2) as (p3 & G1 & _ & Hok3 & Hids3 & _).
  destruct (lifo_alloc_first _ _ _ Hok3 Hids3) as (p4 & G2 & _).
  exists s1, s2, p1, p2. split_and!; [done..| |done|done|eauto].
  by rewrite Hev2, Hev1, <- app_assoc.
Qed.

(** ** An allocator with two processors *)

Record allocator := mkAllocator { al_entries : gmap Z CapEntry; al_procs : Processors }.

#[export] Instance allocator_entries : HasEntries allocator.
Proof.
  refine (Build_HasEntries allocator al_entries (λ m s, mkAllocator m (al_procs s)) _ _ _);
    by intros; try destruct s.
Defined.

#[export] Instance allocator_procs : HasProcessors allocator.
Proof.
  refine (Build_HasProcessors allocator _ al_procs (λ p s, mkAllocator (al_entries s) p) _ _ _ _ _);
    by intros; try destruct s.
Defined.

#[local] Instance allocator_objects : KernelObjects allocator := {|
  addressRange := default_addressRange; mint := default_mint; deleteCap := λ _ _ _, kret (OK tt) |}.
#[local] Instance allocator_capmaps : HasCapMaps allocator := {| capmap := λ _ _, None; caps_offset := 0 |}.
#[local] Instance allocator_layout : ProcessorLayout := {| mySC := wa 0 |}.
#[local] Instance allocator_lookups : EntryLookups allocator := {|
  lookupEntryAt := λ _ ptr _ _, kret (if ptr =? 218 then OK (wa 3) else THROW NO_LOOKUP) |}.

Definition w_procs : Processors := mkProcs 2 [0; 1; 0; 0] 0 [].
Definition w_node : node := fresh (sc_entry 1) wcap.
Definition w_allocator : allocator :=
  mkAllocator (<[wa 3 := mkEntry asEmpty 0 0]> (store_of [w_node])) w_procs.

Lemma invokeAlloc_correct_witness :
  ∃ s', invokeAlloc 5 null_cap w_allocator = Done SUCCESS s' ∧ free_ids (procs s') = [0] ∧
    answers (procs s') = [(5, 218)] ∧ Ring (entries s') [w_node; fresh (wa 3) (asReference wcap)].
Proof.
  destruct (invokeAlloc_correct 5 null_cap w_allocator) as (p1 & Hf & Hd); [vm_compute; lia|].
  refine (Hd (OK (wa 3)) _ [] w_node [] wcap _ (mkEntry asEmpty 0 0) _); [reflexivity| |reflexivity].
  split; [computes|reflexivity..| |reflexivity|reflexivity|].
  - split; computes.
  - exists (Intervals.bySize 0x2000 1). split; (split; [computes|intros; reflexivity]).
Defined.

