(* ===== verification/Interrupts.v ===== *)
(** * Interrupt control

    Models objects/interrupt-control/objects/InterruptControl.hh and .cc with the
    messages of mythos/invocation/mythos/protocol/InterruptControl.hh: threads
    register for the interrupts of a hardware thread and are notified by a signal.

    The accesses to the interrupt controller of the processor and the warnings for
    masking, which no driver supports, are recorded in order. *)

From stdpp Require Import base tactics numbers list gmap.
From Stdlib Require Import ZArith Lia.
From S2P Require Import Prelude Ranges Bitfield Cap CapEntry CapRing CapSteps CapOps Heap KernelMemory CapMap Frame PageTable PageMap LinkedList Threads Scheduling.

Local Open Scope Z_scope.

Inductive IrqEvent := EndOfInterrupt | CanNotMask (interrupt : Z) | CanNotUnmask (interrupt : Z).

Class HasInterrupts (Q S : Type) `{HasThreads Q S} := {
  irqs : S → list IrqEvent;
  set_irqs : list IrqEvent → S → S;
  irqs_set v s : irqs (set_irqs v s) = v;
  threads_set_irqs v s : threads (set_irqs v s) = threads s;
  orig_set_irqs v s r : orig (set_irqs v s) r = orig s r;
  irqs_set_threads t s : irqs (set_threads t s) = irqs s
}.

(** [InterruptControl::destinations]: the reference for an interrupt,
    objects/interrupt-control/objects/InterruptControl.hh:71-71 *)
Class InterruptLayout := { destination_ref : Z → Z → Z }.

Section interrupts.
Context {Q S : Type} `{Fifo Q} `{HasPageMaps S} `{KernelObjects S} `{HasCapMaps S}
  `{!HasRefs S} `{RefSubjects S} `{!HasThreads Q S} `{ThreadLayout} `{!Invocations S}
  `{!HasInterrupts Q S} `{!InterruptLayout}.

Definition irq_emit (e : IrqEvent) : kernel S unit := kmodify (λ s, set_irqs (irqs s ++ [e]) s).

(** [InterruptControl::isValid], objects/interrupt-control/objects/InterruptControl.hh:64-64 *)
Definition isValid (interrupt : Z) : bool := (interrupt <? 256) && (31 <? interrupt).

(** [InterruptControl::maskIRQ], objects/interrupt-control/objects/InterruptControl.cc:126-130 *)
Definition maskIRQ (interrupt : Z) : kernel S unit :=
  kassert (isValid interrupt);;; irq_emit (CanNotMask interrupt).

(** [InterruptControl::unmaskIRQ], objects/interrupt-control/objects/InterruptControl.cc:132-136 *)
Definition unmaskIRQ (interrupt : Z) : kernel S unit :=
  kassert (isValid interrupt);;; irq_emit (CanNotUnmask interrupt).

(** [InterruptControl::registerForInterrupt]: the result of [set] is not used,
    objects/interrupt-control/objects/InterruptControl.cc:74-88 *)
Definition registerForInterrupt (this m interrupt ec : Z) : kernel S Error :=
  if negb (isValid interrupt) then kret INVALID_ARGUMENT
  else
    taken <-- CapRef_isUsable (destination_ref this interrupt);;
    if taken then kret REQUEST_DENIED
    else
      capEntry <-- Threads.lookupEntry m ec;;
      obj <-- typedEntry castSignalable capEntry;;
      match obj, capEntry with
      | OK (c, _), OK entry =>
        CapRef_set (destination_ref this interrupt) this entry c;;;
        kret SUCCESS
      | _, _ => kret INVALID_CAPABILITY
      end.

(** [InterruptControl::unregisterInterrupt],
    objects/interrupt-control/objects/InterruptControl.cc:90-97 *)
Definition unregisterInterrupt (this interrupt : Z) : kernel S Error :=
  if negb (isValid interrupt) then kret INVALID_ARGUMENT
  else
    CapRef_reset (destination_ref this interrupt);;;
    usable <-- CapRef_isUsable (destination_ref this interrupt);;
    kassert (negb usable);;;
    kret SUCCESS.

(** The invocation [InterruptControl::maskIRQ],
    objects/interrupt-control/objects/InterruptControl.cc:99-104 *)
Definition invokeMaskIRQ (interrupt : Z) : kernel S Error :=
  if negb (isValid interrupt) then kret INVALID_ARGUMENT else maskIRQ interrupt;;; kret SUCCESS.

(** The invocation [InterruptControl::unmaskIRQ],
    objects/interrupt-control/objects/InterruptControl.cc:106-111 *)
Definition invokeUnmaskIRQ (interrupt : Z) : kernel S Error :=
  if negb (isValid interrupt) then kret INVALID_ARGUMENT else unmaskIRQ interrupt;;; kret SUCCESS.

(** The messages of the protocol,
    mythos/invocation/mythos/protocol/InterruptControl.hh:37-78 *)
Inductive InterruptRequest :=
  | REGISTER (ec interrupt : Z) | UNREGISTER (interrupt : Z)
  | MASK_IRQ (interrupt : Z) | UNMASK_IRQ (interrupt : Z)
  | IC_DEBUG (self : Z) | IC_OTHER.

(** [InterruptControl::invoke] when the monitor runs the request, up to the reply of
    the result, objects/interrupt-control/objects/InterruptControl.cc:45-62 *)
Definition ic_invoke (this m : Z) (r : InterruptRequest) : kernel S Error :=
  match r with
  | REGISTER ec interrupt => registerForInterrupt this m interrupt ec
  | UNREGISTER interrupt => unregisterInterrupt this interrupt
  | MASK_IRQ interrupt => invokeMaskIRQ interrupt
  | UNMASK_IRQ interrupt => invokeUnmaskIRQ interrupt
  | IC_DEBUG self => writeDebugInfo m self
  | IC_OTHER => kret NOT_IMPLEMENTED
  end.

(** [InterruptControl::deleteCap]: whether the object is queued for deletion,
    objects/interrupt-control/objects/InterruptControl.cc:33-38 *)
Definition ic_deleteCap (self : Z) : bool := isOriginal self.

(** [InterruptControl::handleInterrupt],
    objects/interrupt-control/objects/InterruptControl.cc:113-124 *)
Definition handleInterrupt (this interrupt : Z) : kernel S unit :=
  kassert (isValid interrupt);;;
  usable <-- CapRef_isUsable (destination_ref this interrupt);;
  if usable then
    maskIRQ interrupt;;;
    irq_emit EndOfInterrupt;;;
    c <-- CapRef_cap (destination_ref this interrupt);;
    signalable <-- typedCap castSignalable c;;
    match signalable with
    | OK (c, o) => EC_signal o (f_data c);;; kret tt
    | THROW _ => kret tt
    end
  else irq_emit EndOfInterrupt.

(** *** An interrupt notifies the registered thread *)

Lemma irq_emit_run e s : irq_emit e s = Done tt (set_irqs (irqs s ++ [e]) s).
Proof. done. Qed.

(** A signal sets the flag and ends the waiting. *)
Lemma EC_signal_run e data c s :
  ecs (threads s) !! e = Some c → queues_ok (threads s) →
  let f := Z.lor (flags c) IS_NOTIFIED in
  let f' := Z.land f (inv_flags IS_WAITING) in
  ∃ t', EC_signal e data s = Done (OK tt) (set_threads t' s) ∧
    ecs t' = <[e := with_flags f' c]> (ecs (threads s)) ∧
    (isBlocked f = true → isBlocked f' = false →
       ∀ a, scheduler_of s (threads s) e = Some a → queued t' a (ec_handle e)).
Proof.
  remember (threads s) as t eqn:Et. intros He Hqs f f'. rewrite <- (set_threads_id s), <- Et.
  unfold EC_signal. rewrite (kbind_run _ _ _ _ _ (setFlags_run s e IS_NOTIFIED c t He)).
  set (t1 := set_ecs _ t).
  destruct (clearFlagsResume_run e IS_WAITING (with_flags f c) s t1) as (t' & Hr & He' & _ & _ & _ & Hq).
  { apply lookup_insert_eq. }
  { exact Hqs. }
  rewrite (kbind_run _ _ _ _ _ Hr). exists t'. rewrite set_threads_set. split; [done|]. split.
  - rewrite He'. unfold t1. cbn. by rewrite insert_insert_eq.
  - intros Hb Hb' a Ha. cbn in Hq. rewrite Hb in Hq. fold f' in Hq. rewrite Hb' in Hq. cbn in Hq.
    assert (Hs : scheduler_of s t1 e = Some a).
    { revert Ha. unfold scheduler_of. by rewrite orig_set_threads. }
    rewrite Hs in Hq. by eapply queued_last_queued.
Qed.

(** The interrupt is acknowledged once, after the attempt to mask it, and the
    registered thread has the flag of a signal and does not wait any more; it is put
    at the end of the ready queue when waiting was all that blocked it. *)
Theorem handleInterrupt_notifies this interrupt e c s :
  isValid interrupt = true →
  isUsable (orig s (destination_ref this interrupt)) = true →
  getPtr (orig s (destination_ref this interrupt)) = e →
  ecs (threads s) !! e = Some c → queues_ok (threads s) →
  let f := Z.lor (flags c) IS_NOTIFIED in
  let f' := Z.land f (inv_flags IS_WAITING) in
  ∃ s', handleInterrupt this interrupt s = Done tt s' ∧
    irqs s' = irqs s ++ [CanNotMask interrupt; EndOfInterrupt] ∧
    ecs (threads s') = <[e := with_flags f' c]> (ecs (threads s)) ∧
    (isBlocked f = true → isBlocked f' = false →
       ∀ a, scheduler_of s (threads s) e = Some a → queued (threads s') a (ec_handle e)).
Proof.
  intros Hv Hu Hp He Hqs f f'. unfold handleInterrupt, maskIRQ, CapRef_isUsable, CapRef_cap.
  unfold kassert. rewrite Hv. unfold kbind at 1 2 3 4 5 6, kget, kret. rewrite Hu.
  unfold kbind at 1 2 3, irq_emit, kmodify. rewrite irqs_set. set (s1 := set_irqs _ (set_irqs _ s)).
  assert (Ht1 : threads s1 = threads s) by (unfold s1; by rewrite !threads_set_irqs).
  assert (Ho1 : ∀ r, orig s1 r = orig s r) by (intros r; unfold s1; by rewrite !orig_set_irqs).
  destruct (EC_signal_run e (f_data (orig s (destination_ref this interrupt))) c s1)
    as (t' & Hs & He' & Hq); [by rewrite Ht1..|].
  exists (set_threads t' s1). rewrite threads_set, irqs_set_threads.
  unfold typedCap, castSignalable, kbind. rewrite Ho1, Hu. cbn [negb]. unfold kget, kret.
  rewrite Hp, Ht1, He, Hs. split_and!; [done| |by rewrite <- Ht1|].
  - unfold s1. by rewrite irqs_set, <- app_assoc.
  - intros Hb Hb' a Ha. apply Hq; [done|done|]. rewrite Ht1. revert Ha. unfold scheduler_of. by rewrite Ho1.
Qed.

End interrupts.
