(* ===== verification/Traces.v ===== *)
(** * Executions of concurrent components

    A concurrent component is a relation between its states in which every access
    to an atomic variable is one step; a step may be the one in which an operation
    takes effect, and then carries the operation as its label.  The component
    implements a sequential contract when the labels of every execution are a run
    of the contract. *)

From stdpp Require Import base tactics list.
From S2P Require Import Prelude.

Section traces.
Context {A E L : Type} (step : A → option E → A → Prop) (effect : E → L → option L).

(** Executions from a state, with the operations in the order in which they take
    effect. *)
Inductive execution (a0 : A) : list E → A → Prop :=
  | x_refl : execution a0 [] a0
  | x_step evs a e a' : execution a0 evs a → step a e a' → execution a0 (evs ++ option_list e) a'.

(** The run of the contract; [None] when an operation has no such result. *)
Fixpoint replay (evs : list E) (l : L) : option L :=
  match evs with
  | [] => Some l
  | e :: evs => l ← effect e l; replay evs l
  end.

Lemma replay_app evs evs' l : replay (evs ++ evs') l = (l' ← replay evs l; replay evs' l').
Proof. revert l. induction evs as [|e evs IH]; intros l; [done|]. cbn. destruct (effect e l); cbn; auto. Qed.

Lemma execution_step a0 evs a e a' evs' :
  execution a0 evs a → step a e a' → evs' = evs ++ option_list e → execution a0 evs' a'.
Proof. intros Hx Hs ->. by econstructor. Qed.

Lemma execution_prepend a0 e a1 evs a :
  step a0 e a1 → execution a1 evs a → execution a0 (option_list e ++ evs) a.
Proof.
  intros Hs Hx. induction Hx as [|evs a e' a' Hx IH Hs'].
  - rewrite app_nil_r. by apply (execution_step a0 [] a0 e); [constructor| |].
  - rewrite app_assoc. by econstructor.
Qed.

(** A relation that every step keeps connects all executions with the contract. *)
Lemma execution_simulates (R : A → L → Prop) a0 l0 evs a :
  (∀ a e a' l, R a l → step a e a' → ∃ l', R a' l' ∧ replay (option_list e) l = Some l') →
  R a0 l0 → execution a0 evs a → ∃ l, R a l ∧ replay evs l0 = Some l.
Proof.
  intros Hstep H0 Hx. induction Hx as [|evs a e a' Hx (l & Hl & Hr) Hs]; [by exists l0|].
  destruct (Hstep a e a' l Hl Hs) as (l' & Hl' & He). exists l'. split; [done|].
  by rewrite replay_app, Hr.
Qed.

End traces.

(** Goes back one step of a concrete execution. *)
Ltac last_step evs s :=
  eapply (execution_step _ _ evs); [|s; repeat split; try reflexivity; try discriminate|reflexivity].
