(* ===== verification/Broadcasts.v ===== *)
(** * Broadcasts to the hardware threads

    Models objects/memory-amd64/objects/PML4InvalidationBroadcastAmd64.cc, with the
    accesses of [Place] to the register cr3 (async/monitor-common/async/Place.cc),
    and objects/capability-utils/objects/DeleteBroadcast.cc.  In both a task goes
    around the ring of hardware threads and skips those that it need not visit.
    Before the memory of a root page map is freed, each hardware thread that uses
    the table loads the page table of the kernel instead.  Before a deleted object
    is freed, each hardware thread that is in the kernel finishes what it does.

    The task runs while the other hardware threads go on: every access to the
    state of another hardware thread is one step. *)

From stdpp Require Import base tactics numbers list.
From Stdlib Require Import ZArith Lia.
From S2P Require Import Prelude Traces.

Local Open Scope nat_scope.

(** ** The ring of hardware threads *)

Module Ring.

(** [PML4InvalidationBroadcast] and [DeleteBroadcast]: hardware threads and their
    places are numbers; [None] is a null pointer,
    objects/memory-amd64/objects/PML4InvalidationBroadcastAmd64.hh:36-50 *)
Record Node := mkNode { next : option nat; home : option nat }.

(** [nodes] after the construction,
    objects/memory-amd64/objects/PML4InvalidationBroadcastAmd64.cc:34 *)
Definition fresh_nodes (max_threads : nat) : list Node := replicate max_threads (mkNode None None).

(** The loop of [PML4InvalidationBroadcast::init] for [n] more nodes,
    objects/memory-amd64/objects/PML4InvalidationBroadcastAmd64.cc:38-42 *)
Fixpoint init_loop (numThreads n id : nat) (l : list Node) : list Node :=
  match n with
  | O => l
  | S n => init_loop numThreads n (S id) (<[id := mkNode (Some ((id + 1) mod numThreads)) (Some id)]> l)
  end.

(** [PML4InvalidationBroadcast::init],
    objects/memory-amd64/objects/PML4InvalidationBroadcastAmd64.cc:36-43 *)
Definition init (numThreads : nat) (l : list Node) : list Node := init_loop numThreads numThreads 0 l.

Section ring.
Context (N max_threads : nat).

Lemma init_loop_lookup n id l j :
  id + n ≤ length l →
  init_loop N n id l !! j =
    if decide (id ≤ j < id + n) then Some (mkNode (Some ((j + 1) mod N)) (Some j)) else l !! j.
Proof using.
  revert id l. induction n as [|n IH]; intros id l Hl; cbn.
  { destruct (decide _); [lia|done]. }
  rewrite IH by (rewrite length_insert; lia).
  destruct (decide (S id ≤ j < S id + n)), (decide (id ≤ j < id + S n)); try lia; try done.
  - assert (j = id) as -> by lia. apply list_lookup_insert_eq. lia.
  - apply list_lookup_insert_ne. lia.
Qed.

Lemma init_lookup j :
  N ≤ max_threads → j < N → init N (fresh_nodes max_threads) !! j = Some (mkNode (Some ((j + 1) mod N)) (Some j)).
Proof using.
  intros HM Hj. unfold init. rewrite init_loop_lookup by (unfold fresh_nodes; rewrite length_replicate; lia).
  destruct (decide _); [done|lia].
Qed.

Context (HN : 0 < N).

(** The [d]-th hardware thread after the first one. *)
Definition nth_thread (start d : nat) : nat := (start + d) mod N.

Lemma nth_thread_lt start d : nth_thread start d < N.
Proof using HN. apply Nat.mod_upper_bound. lia. Qed.

Lemma nth_thread_0 start : start < N → nth_thread start 0 = start.
Proof using. intros Hs. unfold nth_thread. rewrite Nat.add_0_r. by apply Nat.mod_small. Qed.

Lemma nth_thread_S start d : (nth_thread start d + 1) mod N = nth_thread start (S d).
Proof using HN. unfold nth_thread. rewrite Nat.Div0.add_mod_idemp_l. f_equal. lia. Qed.

Lemma nth_thread_start start d : start < N → 0 < d ≤ N → nth_thread start d = start → d = N.
Proof using HN.
  intros Hs Hd E. unfold nth_thread in E.
  destruct (decide (start + d < N)) as [Hl|Hl]; [rewrite Nat.mod_small in E by done; lia|].
  replace (start + d) with ((start + d - N) + 1 * N) in E by lia.
  rewrite Nat.Div0.mod_add in E. destruct (decide (d = N)) as [|Hne]; [done|].
  rewrite Nat.mod_small in E by lia. lia.
Qed.

Lemma nth_thread_all start j : start < N → j < N → ∃ e, e < N ∧ nth_thread start e = j.
Proof using HN.
  intros Hs Hj. unfold nth_thread. destruct (decide (start ≤ j)).
  - exists (j - start). split; [lia|]. rewrite Nat.mod_small; lia.
  - exists (N + j - start). split; [lia|]. replace (start + (N + j - start)) with (j + 1 * N) by lia.
    rewrite Nat.Div0.mod_add. by apply Nat.mod_small.
Qed.


(** ** The walk around the ring *)

(** [visit p l]: what the task does at the place [p]; [test self p l]: whether the
    task has to go to [p], asked by the place [self].  [None] is a failed assertion. *)
Context {L : Type} (visit : nat → L → option L) (test : nat → nat → L → option bool).

(** Where the task is: [Task this p start] will call [this->broadcast] at the place
    [p]; [Search p pnext start] is in the loop of [broadcast]. *)
Inductive phase :=
  | Task (this p start : nat)
  | Search (p : nat) (pnext : option nat) (start : nat)
  | Responded
  | Fault.

Record world := mkWorld { nodes : list Node; places : L; task : phase }.

Definition with_task (t : phase) (w : world) : world := mkWorld (nodes w) (places w) t.

(** [PML4InvalidationBroadcast::run] at the hardware thread [id],
    objects/memory-amd64/objects/PML4InvalidationBroadcastAmd64.cc:45-50 *)
Definition run (id : nat) (w : world) : world := with_task (Task id id id) w.

(** [broadcast] up to the loop,
    objects/memory-amd64/objects/PML4InvalidationBroadcastAmd64.cc:52-60 *)
Definition broadcast_local (this p start : nat) (w : world) : world :=
  match visit p (places w), nodes w !! this with
  | Some l, Some n => mkWorld (nodes w) l (Search p (next n) start)
  | _, _ => with_task Fault w
  end.

(** One test of the loop of [broadcast] and what follows it,
    objects/memory-amd64/objects/PML4InvalidationBroadcastAmd64.cc:61-68 *)
Definition broadcast_next (p : nat) (pnext : option nat) (start : nat) (w : world) : world :=
  match pnext with
  | None => with_task Fault w
  | Some j =>
    if j =? start then with_task Responded w
    else
      match nodes w !! j with
      | Some (mkNode nx (Some h)) =>
        match test p h (places w) with
        | None => with_task Fault w
        | Some v => with_task (if v then Task j h start else Search p nx start) w
        end
      | _ => with_task Fault w
      end
  end.

Definition broadcast_step (w : world) : option world :=
  match task w with
  | Task this p start => Some (broadcast_local this p start w)
  | Search p pnext start => Some (broadcast_next p pnext start w)
  | Responded | Fault => None
  end.

(** The steps of the broadcast, which are counted, and those of the other hardware
    threads. *)
Context (other : L → L → Prop).

Inductive step : world → option unit → world → Prop :=
  | s_broadcast w w' : broadcast_step w = Some w' → step w (Some tt) w'
  | s_other w l : other (places w) l → step w None (mkWorld (nodes w) l (task w)).

(** [good l j]: the broadcast need not visit the hardware thread [j] any more. *)
Context (ok : L → Prop) (good : L → nat → Prop).
Context (Hvisit : ∀ p l, ok l → p < N →
  ∃ l', visit p l = Some l' ∧ ok l' ∧ good l' p ∧ ∀ j, good l j → good l' j).
Context (Htest : ∀ self p l, ok l → p < N → ∃ v, test self p l = Some v ∧ (v = false → good l p)).
Context (Hother : ∀ l l', other l l' → ok l → ok l' ∧ ∀ j, good l j → good l' j).
Context (HM : N ≤ max_threads).

Record inv (start : nat) (w : world) (n : nat) : Prop := mkInv {
  inv_nodes : nodes w = init N (fresh_nodes max_threads);
  inv_start : start < N;
  inv_ok : ok (places w);
  inv_task : match task w with
    | Task this p st => st = start ∧ this = p ∧
      ∃ d, d < N ∧ p = nth_thread start d ∧ n ≤ 2 * d ∧ ∀ e, e < d → good (places w) (nth_thread start e)
    | Search p pn st => st = start ∧
      ∃ d, 0 < d ≤ N ∧ pn = Some (nth_thread start d) ∧ n < 2 * d ∧
        ∀ e, e < d → good (places w) (nth_thread start e)
    | Responded => n ≤ 2 * N ∧ ∀ j, j < N → good (places w) j
    | Fault => False
    end
}.

Lemma inv_other start w n l :
  other (places w) l → inv start w n → inv start (mkWorld (nodes w) l (task w)) n.
Proof using Hother.
  intros Ho [I1 I2 I3 I4]. destruct (Hother _ _ Ho I3) as [Hok Hg].
  split; cbn [nodes places task]; try done. destruct (task w); [naive_solver..|done].
Qed.

(** The part of [broadcast] before the loop. *)
Lemma inv_local start w n this p st :
  task w = Task this p st → inv start w n → inv start (broadcast_local this p st w) (S n).
Proof using HN HM Hvisit.
  intros Ht [I1 I2 I3 I4]. rewrite Ht in I4. destruct I4 as (-> & -> & d & Hd & -> & Hn & Hc).
  set (p := nth_thread start d). assert (p < N) as Hp by apply nth_thread_lt.
  destruct (Hvisit p (places w) I3 Hp) as (l & El & Hok & Hgp & Hg).
  unfold broadcast_local. rewrite I1, El, (init_lookup p HM Hp).
  split; cbn [nodes places task next]; try done. split; [done|]. exists (S d).
  split_and!; [lia|lia|by rewrite <-nth_thread_S|lia|].
  intros e He'. destruct (decide (e = d)) as [->|]; [done|]. apply Hg, Hc. lia.
Qed.

(** A test in the loop. *)
Lemma inv_next start w n p pn st :
  task w = Search p pn st → inv start w n → inv start (broadcast_next p pn st w) (S n).
Proof using HN HM Htest.
  intros Ht [I1 I2 I3 I4]. rewrite Ht in I4. destruct I4 as (-> & d & Hd & -> & Hn & Hc).
  unfold broadcast_next. destruct (Nat.eqb_spec (nth_thread start d) start) as [E|E].
  - apply nth_thread_start in E as ->; [|done..]. split; cbn; try done. split; [lia|].
    intros j Hj. destruct (nth_thread_all start j I2 Hj) as (e & He & <-). by apply Hc.
  - set (j := nth_thread start d) in *. assert (j < N) as Hj by apply nth_thread_lt.
    assert (d < N) as HdN.
    { destruct (decide (d = N)) as [->|]; [|lia]. destruct E. unfold j, nth_thread.
      replace (start + N) with (start + 1 * N) by lia. rewrite Nat.Div0.mod_add. by apply Nat.mod_small. }
    destruct (Htest p j (places w) I3 Hj) as (v & Ev & Hv).
    rewrite I1, (init_lookup j HM Hj), Ev.
    destruct v; (split; cbn [nodes places task with_task]; [done..|]).
    + split_and!; [done..|]. exists d. split_and!; [done..|lia|done].
    + split; [done|]. exists (S d). split_and!; [lia|lia|by rewrite <-nth_thread_S|lia|].
      intros e He'. destruct (decide (e = d)) as [->|]; [by apply Hv|]. apply Hc. lia.
Qed.

Lemma broadcast_execution_inv start w0 evs w :
  inv start w0 0 → execution step w0 evs w → inv start w (length evs).
Proof using HN HM Hvisit Htest Hother.
  intros H0 Hx. induction Hx as [|evs w e w' Hx IH Hs]; [done|]. rewrite length_app.
  destruct Hs as [w w' Hb|w l Ho]; cbn [length option_list].
  - rewrite Nat.add_1_r. unfold broadcast_step in Hb. destruct (task w) eqn:Et; try done; injection Hb as <-.
    + by apply inv_local.
    + by apply inv_next.
  - rewrite Nat.add_0_r. by apply inv_other.
Qed.

(** A broadcast over initialised nodes visits all hardware threads that need it. *)
Lemma broadcast_complete id l evs w :
  id < N → ok l → execution step (run id (mkWorld (init N (fresh_nodes max_threads)) l Responded)) evs w →
  length evs ≤ 2 * N ∧ task w ≠ Fault ∧ ok (places w) ∧
  (task w ≠ Responded → ∃ w', broadcast_step w = Some w') ∧
  (task w = Responded → ∀ j, j < N → good (places w) j).
Proof using HN HM Hvisit Htest Hother.
  intros Hid Hl Hx. apply (broadcast_execution_inv id) in Hx as [I1 I2 I3 I4].
  - destruct (task w) as [this p st|p pn st| |] eqn:Et; [| | |done].
    + destruct I4 as (_ & _ & d & ? & _ & ? & _). split_and!; [lia|done..| |done].
      intros _. eexists. unfold broadcast_step. by rewrite Et.
    + destruct I4 as (_ & d & ? & _ & ? & _). split_and!; [lia|done..| |done].
      intros _. eexists. unfold broadcast_step. by rewrite Et.
    + destruct I4 as [Hn Hc]. by split_and!.
  - split; cbn; try done. split_and!; [done..|]. exists 0. rewrite nth_thread_0 by done.
    split_and!; [lia|done|lia|lia].
Qed.
End ring.
End Ring.

(** ** Deletion of address spaces *)

Module Invalidation.
Import Ring.

(** The register cr3 of a hardware thread and the copy in its place,
    async/monitor-common/async/Place.hh:133-138 *)
Record Regs := mkRegs { _cr3 : Z; register : Z }.

(** [Place::setCR3] of the local place, async/monitor-common/async/Place.cc:72-79 *)
Definition setCR3 (p : nat) (value : Z) (l : list Regs) : list Regs :=
  match l !! p with
  | Some r => if (_cr3 r =? value)%Z then l else <[p := mkRegs value value]> l
  | None => l
  end.

(** [Place::getCR3] of the place [p] by the hardware thread of the place [self];
    [None] when its assertion fails, async/monitor-common/async/Place.cc:81-85 *)
Definition getCR3 (self p : nat) (l : list Regs) : option Z :=
  r ← l !! p;
  if implb (p =? self) (register r =? _cr3 r)%Z then Some (_cr3 r) else None.

Section broadcast.
Context (kernel_pml4 pml4 : Z).

(** The invalidation in [PML4InvalidationBroadcast::broadcast],
    objects/memory-amd64/objects/PML4InvalidationBroadcastAmd64.cc:54-58 *)
Definition invalidate (p : nat) (l : list Regs) : option (list Regs) :=
  v ← getCR3 p p l;
  Some (if (v =? pml4)%Z then setCR3 p kernel_pml4 l else l).

(** The test of the loop in [PML4InvalidationBroadcast::broadcast],
    objects/memory-amd64/objects/PML4InvalidationBroadcastAmd64.cc:61 *)
Definition uses_table (self p : nat) (l : list Regs) : option bool :=
  v ← getCR3 self p l; Some (v =? pml4)%Z.

(** The other hardware threads load other address spaces: nothing refers to the
    deleted one any more. *)
Inductive switches : list Regs → list Regs → Prop :=
  | switch l p v : v ≠ pml4 → switches l (setCR3 p v l).

Definition invalidation := step invalidate uses_table switches.

Context (N max_threads : nat).

Definition regs_ok (l : list Regs) : Prop := ∀ j, j < N → ∃ r, l !! j = Some r ∧ register r = _cr3 r.

(** The hardware thread does not use the table any more. *)
Definition clean (l : list Regs) (j : nat) : Prop :=
  ∃ r, l !! j = Some r ∧ _cr3 r ≠ pml4 ∧ register r = _cr3 r.

Lemma setCR3_lookup p v l j r :
  l !! j = Some r → register r = _cr3 r →
  ∃ r', setCR3 p v l !! j = Some r' ∧ register r' = _cr3 r' ∧ (_cr3 r' = _cr3 r ∨ _cr3 r' = v) ∧
    (j = p → _cr3 r' = v).
Proof using.
  intros Hj Hr. unfold setCR3. destruct (l !! p) as [rp|] eqn:Hp; [|exists r; split_and!; auto; congruence].
  destruct (Z.eqb_spec (_cr3 rp) v) as [Hv|Hv].
  - exists r. split_and!; auto. intros ->. congruence.
  - destruct (decide (j = p)) as [->|Hne].
    + exists (mkRegs v v). rewrite list_lookup_insert_eq by (by eapply lookup_lt_Some). auto.
    + exists r. rewrite list_lookup_insert_ne by done. split_and!; auto. congruence.
Qed.

Lemma setCR3_clean p v l j : v ≠ pml4 → clean l j → clean (setCR3 p v l) j.
Proof using.
  intros Hv (r & Hj & Hn & Hr). destruct (setCR3_lookup p v l j r Hj Hr) as (r' & Hj' & Hr' & Hc & _).
  exists r'. split_and!; [done| |done]. destruct Hc as [->| ->]; done.
Qed.

Lemma setCR3_regs p v l : regs_ok l → regs_ok (setCR3 p v l).
Proof using.
  intros Hl j Hj. destruct (Hl j Hj) as (r & Hr & He).
  destruct (setCR3_lookup p v l j r Hr He) as (r' & ? & ? & _). by exists r'.
Qed.

Lemma getCR3_run self p l : regs_ok l → p < N → ∃ r, l !! p = Some r ∧ register r = _cr3 r ∧ getCR3 self p l = Some (_cr3 r).
Proof using.
  intros Hl Hp. destruct (Hl p Hp) as (r & Hr & He). exists r. split_and!; [done..|].
  unfold getCR3. rewrite Hr. cbn. by rewrite He, Z.eqb_refl, Bool.implb_true_r.
Qed.

End broadcast.

(** Three hardware threads, two of them with the deleted table 0x5000. *)
Definition three : list Regs := [mkRegs 0x5000 0x5000; mkRegs 0x7000 0x7000; mkRegs 0x5000 0x5000].

Lemma three_ok : regs_ok 3 three.
Proof. intros j Hj. destruct j as [|[|[|j]]]; [eexists; split; reflexivity..|lia]. Qed.


(** Nothing calls [init].  Without it the first test of the broadcast follows a
    null pointer. *)
Lemma broadcast_without_init kernel_pml4 pml4 id l max_threads r :
  id < max_threads → l !! id = Some r → register r = _cr3 r →
  let w0 := run id (mkWorld (fresh_nodes max_threads) l Responded) in
  ∃ w w', broadcast_step (invalidate kernel_pml4 pml4) (uses_table pml4) w0 = Some w ∧
    broadcast_step (invalidate kernel_pml4 pml4) (uses_table pml4) w = Some w' ∧ task w' = Fault.
Proof.
  intros Hid Hl Hr w0.
  assert (∃ w, broadcast_step (invalidate kernel_pml4 pml4) (uses_table pml4) w0 = Some w ∧
    ∃ p, task w = Search p None id) as (w & E & p & Hw).
  { eexists. split; [reflexivity|]. exists id. unfold broadcast_local, invalidate, getCR3. cbn. rewrite Hl. cbn.
    rewrite Hr, Z.eqb_refl, Bool.implb_true_r. cbn. unfold fresh_nodes. by rewrite lookup_replicate_2. }
  exists w, (with_task Fault w). split_and!; [done| |done]. unfold broadcast_step. by rewrite Hw.
Qed.

(** A place that has not loaded an address space has 0 in its copy, but the
    register holds the page table of the kernel: the assertion of [getCR3] fails
    when a broadcast starts there. *)
Lemma getCR3_before_first_load p l kernel_pml4 :
  l !! p = Some (mkRegs 0 kernel_pml4) → kernel_pml4 ≠ 0%Z → getCR3 p p l = None.
Proof.
  intros Hl Hk. unfold getCR3. rewrite Hl. cbn. rewrite Nat.eqb_refl.
  by rewrite (proj2 (Z.eqb_neq _ _)) by done.
Qed.
End Invalidation.

(** ** Deletion of objects *)

Module DeleteBroadcast.
Import Ring.

(** What matters of a place: [Place::isActive], and whether its hardware thread has
    been outside of every kernel operation since the broadcast began. *)
Record Activity := mkActivity { isActive : bool; quiet : bool }.

(** The task of the broadcast runs at the place: the operation that was running
    there is over, objects/capability-utils/objects/DeleteBroadcast.cc:51 *)
Definition arrive (p : nat) (l : list Activity) : option (list Activity) :=
  a ← l !! p; Some (<[p := mkActivity (isActive a) true]> l).

(** The test of the loop in [DeleteBroadcast::broadcast],
    objects/capability-utils/objects/DeleteBroadcast.cc:54 *)
Definition in_kernel (self p : nat) (l : list Activity) : option bool := isActive <$> l !! p.

(** [DeleteBroadcast::init], which is that of [PML4InvalidationBroadcast],
    objects/capability-utils/objects/DeleteBroadcast.cc:35-42 *)
Definition delete_init : nat → list Node → list Node := init.

(** [DeleteBroadcast::run], objects/capability-utils/objects/DeleteBroadcast.cc:44-49 *)
Definition delete_run (id : nat) : world → world := run (L := list Activity) id.

(** [DeleteBroadcast::broadcast], objects/capability-utils/objects/DeleteBroadcast.cc:51-62 *)
Definition broadcast : world → option world := broadcast_step arrive in_kernel.

(** The other hardware threads enter the kernel, and leave it when their
    operations are over. *)
Inductive works : list Activity → list Activity → Prop :=
  | w_enter l p a : l !! p = Some a → works l (<[p := mkActivity true (quiet a)]> l)
  | w_leave l p a : l !! p = Some a → works l (<[p := mkActivity false true]> l).

Definition deletion := step arrive in_kernel works.

Section grace.
Context (N max_threads : nat).

(** A hardware thread outside of the kernel is outside of every operation. *)
Definition places_ok (l : list Activity) : Prop :=
  ∀ j, j < N → ∃ a, l !! j = Some a ∧ (isActive a = false → quiet a = true).
Definition is_quiet (l : list Activity) (j : nat) : Prop := ∃ a, l !! j = Some a ∧ quiet a = true.

Lemma activity_insert l p a a' :
  l !! p = Some a → (quiet a = true → quiet a' = true) → (isActive a' = false → quiet a' = true) → places_ok l →
  places_ok (<[p := a']> l) ∧ ∀ j, is_quiet l j → is_quiet (<[p := a']> l) j.
Proof using.
  intros Hp Hq Ha Hl. pose proof (lookup_lt_Some _ _ _ Hp) as Hlt. split.
  - intros j Hj. destruct (decide (j = p)) as [->|Hne].
    + exists a'. by rewrite list_lookup_insert_eq.
    + rewrite list_lookup_insert_ne by done. by apply Hl.
  - intros j (b & Hb & Hbq). destruct (decide (j = p)) as [->|Hne].
    + exists a'. rewrite list_lookup_insert_eq by done. split; [done|]. apply Hq. congruence.
    + exists b. by rewrite list_lookup_insert_ne.
Qed.

End grace.

(** Of three hardware threads the last one is in the kernel. *)
Definition one_active : list Activity := [mkActivity true false; mkActivity false true; mkActivity true false].

End DeleteBroadcast.
