(* ===== verification/TidexMutex.v ===== *)
(** * The mutex

    Models util/tidex-mutex/util/TidexMutex.hh, the mutex of the linked lists, the
    signal listeners and the log.  A thread puts its identifier into [ingress] and
    waits until [egress] holds the identifier it found there; it uses the
    complement of its identifier when it was itself the last one to unlock.

    Each access to an atomic variable is one step of one thread.  The mutex is
    shown to admit one thread at a time, in the order of the exchanges of
    [ingress], and never to let the first waiting thread wait for nothing. *)

From stdpp Require Import base tactics numbers list gmap relations.
From Stdlib Require Import ZArith Lia.
From S2P Require Import Prelude Traces.

Local Open Scope Z_scope.

Module Tidex.

(** [INVALID_THREAD_ID], util/tidex-mutex/util/TidexMutex.hh:43 *)
Definition INVALID_THREAD_ID : Z := 0xFF00.

(** Where a thread is in [lock], with the identifier it uses. *)
Inductive position := HasId (id : Z) | Waiting (id prevtid : Z) | Critical (id : Z).

(** [TidexMutex] with the threads that use it; a thread that is not listed does
    not use the mutex, util/tidex-mutex/util/TidexMutex.hh:46-47 *)
Record mutex := mkMutex { ingress : Z; egress : Z; users : gmap Z position }.

Section mutex.
(** The width of [ThreadID]: 16 bits in the kernel, 64 bits in user mode. *)
Context (w : Z).

(** [ThreadID(~mytid)], util/tidex-mutex/util/TidexMutex.hh:82 *)
Definition complement (t : Z) : Z := wrap w (Z.lnot t).

(** The choice of the identifier, util/tidex-mutex/util/TidexMutex.hh:78-82 *)
Definition lock_begin (t : Z) (m : mutex) : mutex :=
  mkMutex (ingress m) (egress m)
    (<[t := HasId (if egress m =? t then complement t else t)]> (users m)).

(** The exchange, util/tidex-mutex/util/TidexMutex.hh:85 *)
Definition lock_exchange (t id : Z) (m : mutex) : mutex :=
  mkMutex id (egress m) (<[t := Waiting id (ingress m)]> (users m)).

(** One test of the waiting loop, util/tidex-mutex/util/TidexMutex.hh:88-93 *)
Definition lock_test (t id prevtid : Z) (m : mutex) : mutex :=
  if egress m =? prevtid then mkMutex (ingress m) (egress m) (<[t := Critical id]> (users m)) else m.

(** [TidexMutex::unlock], util/tidex-mutex/util/TidexMutex.hh:96 *)
Definition unlock (t id : Z) (m : mutex) : mutex :=
  mkMutex (ingress m) id (delete t (users m)).

Inductive event := EQueue (t : Z) | EEnter (t : Z) | ELeave (t : Z).

(** Threads have identifiers that leave the highest bit free. *)
Definition is_thread (t : Z) : Prop := 0 ≤ t < 2 ^ (w - 1).

Inductive step : mutex → option event → mutex → Prop :=
  | s_begin m t : is_thread t → users m !! t = None → step m None (lock_begin t m)
  | s_exchange m t id : users m !! t = Some (HasId id) → step m (Some (EQueue t)) (lock_exchange t id m)
  | s_test m t id prevtid : users m !! t = Some (Waiting id prevtid) →
      step m (if egress m =? prevtid then Some (EEnter t) else None) (lock_test t id prevtid m)
  | s_unlock m t id : users m !! t = Some (Critical id) → step m (Some (ELeave t)) (unlock t id m).

Definition newMutex : mutex := mkMutex INVALID_THREAD_ID INVALID_THREAD_ID ∅.

(** The contract: the threads that want the mutex in the order of their requests;
    the first one enters and leaves before the next one. *)
Definition effect (e : event) (l : list Z) : option (list Z) :=
  match e, l with
  | EQueue t, _ => Some (l ++ [t])
  | EEnter t, x :: _ => if t =? x then Some l else None
  | ELeave t, x :: l => if t =? x then Some l else None
  | _, [] => None
  end.

(** ** Identifiers *)

(** The two identifiers of a thread. *)
Definition id_of (t id : Z) : Prop := id = t ∨ id = complement t.

Lemma complement_eq t : is_thread t → complement t = 2 * 2 ^ (w - 1) - 1 - t.
Proof.
  intros [Ht0 Ht]. assert (0 ≤ w - 1) by (apply Z.le_ngt; intros Hw; rewrite Z.pow_neg_r in Ht; lia).
  unfold complement, wrap, Z.lnot. replace (2 ^ w) with (2 * 2 ^ (w - 1)).
  - rewrite <- (Z.mod_add _ 1) by lia. rewrite Z.mod_small by lia. lia.
  - rewrite <- Z.pow_succ_r by done. f_equal. lia.
Qed.

Lemma ids_apart t t' id id' :
  is_thread t → is_thread t' → t ≠ t' → id_of t id → id_of t' id' → id ≠ id'.
Proof.
  intros Ht Ht' Hne. pose proof (complement_eq t Ht). pose proof (complement_eq t' Ht').
  unfold id_of, is_thread in *. lia.
Qed.

Lemma lock_id t e :
  is_thread t → let id := if e =? t then complement t else t in id_of t id ∧ id ≠ e.
Proof.
  intros Ht. pose proof (complement_eq t Ht). unfold id_of, is_thread in *.
  destruct (Z.eqb_spec e t); lia.
Qed.

(** ** The invariant *)

Definition pos_id (p : position) : Z :=
  match p with HasId id | Waiting id _ | Critical id => id end.
Definition queued (p : position) : bool := match p with HasId _ => false | _ => true end.

(** The threads [l] wait behind the identifier [prev]; [last] is the identifier of
    the last one. *)
Fixpoint waits (us : gmap Z position) (prev : Z) (l : list Z) (last : Z) : Prop :=
  match l with
  | [] => prev = last
  | t :: l => ∃ id, us !! t = Some (Waiting id prev) ∧ waits us id l last
  end.

Definition line (m : mutex) (l : list Z) : Prop :=
  match l with
  | [] => egress m = ingress m
  | t :: l => ∃ id, (users m !! t = Some (Critical id) ∨ users m !! t = Some (Waiting id (egress m))) ∧
                    waits (users m) id l (ingress m)
  end.

Record mutex_inv (m : mutex) (l : list Z) : Prop := {
  i_line : line m l;
  i_nodup : NoDup l;
  i_users : ∀ t p, users m !! t = Some p → is_thread t ∧ id_of t (pos_id p) ∧ pos_id p ≠ egress m;
  i_queued : ∀ t p, users m !! t = Some p → queued p = bool_decide (t ∈ l)
}.

Lemma waits_ext us us' prev l last :
  (∀ t, t ∈ l → us' !! t = us !! t) → waits us prev l last → waits us' prev l last.
Proof.
  revert prev. induction l as [|t l IH]; intros prev Hext; [done|]. cbn. intros (id & Ht & Hw).
  exists id. split; [by rewrite Hext by left|]. apply IH; [|done]. intros x Hx. apply Hext. by right.
Qed.

Lemma waits_snoc us prev l last t id :
  us !! t = Some (Waiting id last) → waits us prev l last → waits us prev (l ++ [t]) id.
Proof.
  intros Ht. revert prev. induction l as [|x l IH]; intros prev; cbn; [intros ->; by exists id|].
  intros (i & Hx & Hw). exists i. auto.
Qed.

(** A thread that waits behind the first one waits for an identifier in use. *)
Lemma waits_prev us prev l last t id p :
  waits us prev l last → t ∈ l → us !! t = Some (Waiting id p) →
  p = prev ∨ ∃ x px, us !! x = Some px ∧ pos_id px = p.
Proof.
  revert prev. induction l as [|x l IH]; intros prev; [by intros _ ?%elem_of_nil|].
  cbn. intros (i & Hx & Hw) Hin Ht. apply elem_of_cons in Hin as [->|Hin].
  - left. congruence.
  - destruct (IH i Hw Hin Ht) as [->|?]; [right; by exists x, (Waiting i prev)|by right].
Qed.

Lemma waits_not_critical us prev l last t id :
  waits us prev l last → t ∈ l → us !! t ≠ Some (Critical id).
Proof.
  revert prev. induction l as [|x l IH]; intros prev; [by intros _ ?%elem_of_nil|].
  cbn. intros (i & Hx & Hw) Hin. apply elem_of_cons in Hin as [->|Hin]; [congruence|eauto].
Qed.

Lemma waits_users us prev l last t :
  waits us prev l last → t ∈ l → ∃ id p, us !! t = Some (Waiting id p).
Proof.
  revert prev. induction l as [|x l IH]; intros prev; [by intros _ ?%elem_of_nil|].
  cbn. intros (i & Hx & Hw) Hin. apply elem_of_cons in Hin as [->|Hin]; eauto.
Qed.

Lemma line_member m l t : line m l → t ∈ l → ∃ p, users m !! t = Some p ∧ queued p = true.
Proof.
  destruct l as [|x l]; [by intros _ ?%elem_of_nil|]. intros (i & Hx & Hw) Hin.
  apply elem_of_cons in Hin as [->|Hin]; [destruct Hx; eauto|].
  destruct (waits_users _ _ _ _ _ Hw Hin) as (id & p & Ht). eauto.
Qed.

(** Only the first thread can be in the critical section or find its turn. *)
Lemma critical_first m l t id :
  mutex_inv m l → users m !! t = Some (Critical id) → ∃ l', l = t :: l'.
Proof.
  intros [Hl Hnd Hu Hq] Ht. specialize (Hq t _ Ht). symmetry in Hq. apply bool_decide_eq_true in Hq.
  destruct l as [|x l]; [by apply elem_of_nil in Hq|]. destruct Hl as (i & _ & Hw).
  apply elem_of_cons in Hq as [->|Hin]; [eauto|]. by destruct (waits_not_critical _ _ _ _ _ id Hw Hin).
Qed.

Lemma turn_first m l t id :
  mutex_inv m l → users m !! t = Some (Waiting id (egress m)) → ∃ l', l = t :: l'.
Proof.
  intros [Hl Hnd Hu Hq] Ht. specialize (Hq t _ Ht). symmetry in Hq. apply bool_decide_eq_true in Hq.
  destruct l as [|x l]; [by apply elem_of_nil in Hq|]. destruct Hl as (i & Hx & Hw).
  apply elem_of_cons in Hq as [->|Hin]; [eauto|].
  destruct (waits_prev _ _ _ _ _ _ _ Hw Hin Ht) as [He|(y & py & Hy & He)].
  - destruct Hx as [Hx|Hx]; destruct (Hu x _ Hx) as (_ & _ & Hne); by cbn in Hne.
  - by destruct (Hu y py Hy) as (_ & _ & Hne).
Qed.

(** ** Steps *)

Lemma line_users m m' l :
  ingress m' = ingress m → egress m' = egress m →
  (∀ t, t ∈ l → users m' !! t = users m !! t) → line m l → line m' l.
Proof.
  intros Ei Ee Hu. destruct l as [|t l]; cbn; rewrite Ei, Ee; [done|]. intros (id & Ht & Hw).
  exists id. rewrite Hu by left. split; [done|]. eapply waits_ext; [|done]. intros x Hx. apply Hu. by right.
Qed.

Lemma begin_inv m t l :
  mutex_inv m l → is_thread t → users m !! t = None → mutex_inv (lock_begin t m) l.
Proof.
  intros [Hl Hnd Hu Hq] Ht Hn.
  assert (Hout : t ∉ l).
  { intros Hin. destruct (line_member m l t Hl Hin) as (p & Hp & _). congruence. }
  split.
  - apply (line_users m); [done..| |exact Hl]. intros x Hx. cbn. rewrite lookup_insert_ne; [done|]. by intros ->.
  - done.
  - intros x p. cbn. intros [[<- <-]|[_ Hx]]%lookup_insert_Some; [|auto].
    destruct (lock_id t (egress m) Ht). auto.
  - intros x p. cbn. intros [[<- <-]|[_ Hx]]%lookup_insert_Some; [|auto]. by rewrite bool_decide_false.
Qed.

Lemma exchange_inv m t id l :
  mutex_inv m l → users m !! t = Some (HasId id) → mutex_inv (lock_exchange t id m) (l ++ [t]).
Proof.
  intros [Hl Hnd Hu Hq] Ht. destruct (Hu t _ Ht) as (Htt & Hid & Hne).
  assert (Hout : t ∉ l) by (apply (bool_decide_eq_false (t ∈ l)); symmetry; exact (Hq t _ Ht)).
  assert (Hus : ∀ x, x ∈ l → users (lock_exchange t id m) !! x = users m !! x).
  { intros x Hx. cbn. rewrite lookup_insert_ne; [done|]. by intros ->. }
  assert (Htn : users (lock_exchange t id m) !! t = Some (Waiting id (ingress m))) by apply lookup_insert_eq.
  split.
  - destruct l as [|x l]; cbn [app line] in *.
    + exists id. rewrite Htn. cbn [egress lock_exchange]. rewrite Hl. by split; [right|].
    + destruct Hl as (i & Hx & Hw). exists i. rewrite Hus by left. split; [exact Hx|].
      apply (waits_snoc _ _ _ (ingress m)); [done|]. eapply waits_ext; [|done]. intros y Hy. apply Hus. by right.
  - apply NoDup_app. split; [done|]. split; [|apply NoDup_singleton].
    intros x Hx Hx'. apply list_elem_of_singleton in Hx' as ->. done.
  - intros x p. cbn. intros [[<- <-]|[_ Hx]]%lookup_insert_Some; auto.
  - intros x p. cbn. intros [[<- <-]|[Hxt Hx]]%lookup_insert_Some.
    + rewrite bool_decide_true; [done|]. apply elem_of_app. right. by left.
    + rewrite (Hq x p Hx). apply bool_decide_ext. rewrite elem_of_app, list_elem_of_singleton. naive_solver.
Qed.

Lemma enter_inv m t id l :
  mutex_inv m (t :: l) → users m !! t = Some (Waiting id (egress m)) →
  mutex_inv (mkMutex (ingress m) (egress m) (<[t := Critical id]> (users m))) (t :: l).
Proof.
  intros [Hl Hnd Hu Hq] Ht. apply NoDup_cons in Hnd as [Hn Hnd]. split.
  - destruct Hl as (i & Hx & Hw). exists id. cbn. rewrite lookup_insert_eq. split; [by left|].
    assert (i = id) as -> by (destruct Hx; congruence).
    eapply waits_ext; [|exact Hw]. intros x Hx'. rewrite lookup_insert_ne; [done|]. by intros ->.
  - by constructor.
  - intros x p. cbn. intros [[<- <-]|[_ Hx]]%lookup_insert_Some; [|auto]. exact (Hu t _ Ht).
  - intros x p. cbn. intros [[<- <-]|[_ Hx]]%lookup_insert_Some; [|auto]. exact (Hq t _ Ht).
Qed.

Lemma unlock_inv m t id l :
  mutex_inv m (t :: l) → users m !! t = Some (Critical id) → mutex_inv (unlock t id m) l.
Proof.
  intros [Hl Hnd Hu Hq] Ht. apply NoDup_cons in Hnd as [Hn Hnd]. destruct (Hu t _ Ht) as (Htt & Hid & _).
  assert (Hus : ∀ x, x ∈ l → users (unlock t id m) !! x = users m !! x).
  { intros x Hx. cbn. rewrite lookup_delete_ne; [done|]. by intros ->. }
  destruct Hl as (i & Hx & Hw). assert (i = id) as -> by (destruct Hx; congruence). split.
  - destruct l as [|y l]; [done|]. destruct Hw as (j & Hy & Hw). exists j. rewrite Hus by left.
    split; [by right|]. eapply waits_ext; [|exact Hw]. intros z Hz. apply Hus. by right.
  - done.
  - intros x p. cbn. intros [Hxt Hx']%lookup_delete_Some. destruct (Hu x p Hx') as (Hxx & Hxid & _).
    split; [done|]. split; [done|]. by apply (ids_apart x t).
  - intros x p. cbn. intros [Hxt Hx']%lookup_delete_Some. rewrite (Hq x p Hx').
    apply bool_decide_ext. rewrite elem_of_cons. naive_solver.
Qed.

Lemma mutex_step m e m' l :
  mutex_inv m l → step m e m' → ∃ l', mutex_inv m' l' ∧ replay effect (option_list e) l = Some l'.
Proof.
  intros Hi Hs. destruct Hs as [m t Ht Hn|m t id Ht|m t id p Ht|m t id Ht].
  - exists l. split; [by apply begin_inv|done].
  - exists (l ++ [t]). split; [by apply exchange_inv|done].
  - unfold lock_test. destruct (Z.eqb_spec (egress m) p) as [<-|Hne]; [|by exists l].
    destruct (turn_first m l t id Hi Ht) as [l' ->]. exists (t :: l'). split; [by apply enter_inv|].
    cbn. by rewrite Z.eqb_refl.
  - destruct (critical_first m l t id Hi Ht) as [l' ->]. exists l'. split; [by apply unlock_inv|].
    cbn. by rewrite Z.eqb_refl.
Qed.

Lemma newMutex_inv : mutex_inv newMutex [].
Proof. split; [done|by apply NoDup_nil|done..]. Qed.

(** C13: the mutex admits one thread at a time in the order of the requests.  In
    every interleaving, threads enter and leave the critical section in the order
    in which they exchanged [ingress], each one after its predecessor has left; two
    threads are never in the critical section together; and as long as nobody is,
    the test of the first waiting thread succeeds. *)
Theorem tidex_mutex_fair evs m :
  execution step newMutex evs m →
  ∃ l, replay effect evs [] = Some l ∧
    (∀ t t' id id', users m !! t = Some (Critical id) → users m !! t' = Some (Critical id') → t = t') ∧
    (∀ t l', l = t :: l' → ∃ id, users m !! t = Some (Critical id) ∨
                                 users m !! t = Some (Waiting id (egress m))) ∧
    (∀ t id p, users m !! t = Some (Waiting id p) → t ∈ l).
Proof.
  intros Hx. destruct (execution_simulates step effect mutex_inv newMutex [] evs m) as (l & Hi & Hr);
    [apply mutex_step|apply newMutex_inv|done|].
  exists l. split; [done|]. split; [|split].
  - intros t t' id id' Ht Ht'. destruct (critical_first m l t id Hi Ht) as [l1 ->].
    destruct (critical_first m _ t' id' Hi Ht') as [l2 Heq]. congruence.
  - intros t l' ->. destruct (i_line _ _ Hi) as (id & Ht & _). by exists id.
  - intros t id p Ht. pose proof (i_queued _ _ Hi t _ Ht) as Hq. symmetry in Hq.
    by apply bool_decide_eq_true in Hq.
Qed.

End mutex.

(** Two threads of the kernel: the second one waits while the first one is in the
    critical section, enters after it, and is overtaken by nobody. *)
Definition w_mutex : mutex :=
  lock_test 2 2 1 (unlock 1 1 (lock_test 2 2 1 (lock_exchange 2 2 (lock_test 1 1 0xFF00
    (lock_exchange 1 1 (lock_begin 16 2 (lock_begin 16 1 newMutex))))))).

Lemma w_mutex_execution :
  execution (step 16) newMutex [EQueue 1; EEnter 1; EQueue 2; ELeave 1; EEnter 2] w_mutex.
Proof.
  unfold w_mutex.
  last_step [EQueue 1; EEnter 1; EQueue 2; ELeave 1] ltac:(eapply (s_test 16)).
  last_step [EQueue 1; EEnter 1; EQueue 2] ltac:(eapply s_unlock).
  last_step [EQueue 1; EEnter 1; EQueue 2] ltac:(eapply (s_test 16)).
  last_step [EQueue 1; EEnter 1] ltac:(eapply s_exchange).
  last_step [EQueue 1] ltac:(eapply (s_test 16)).
  last_step (@nil event) ltac:(eapply s_exchange).
  last_step (@nil event) ltac:(eapply s_begin).
  last_step (@nil event) ltac:(eapply s_begin).
  apply x_refl.
Qed.

Lemma tidex_mutex_fair_witness :
  ∃ l, replay effect [EQueue 1; EEnter 1; EQueue 2; ELeave 1; EEnter 2] [] = Some l ∧
    users w_mutex !! 2 = Some (Critical 2).
Proof.
  destruct (tidex_mutex_fair 16 _ w_mutex w_mutex_execution) as (l & Hr & _).
  exists l. split; [exact Hr|reflexivity].
Defined.

End Tidex.
