(* ===== verification/TaskletQueue.v ===== *)
(** * The queue of tasklets

    Models async/monitor-common/async/TaskletQueue.hh and the states of a task of
    async/monitor-common/async/Tasklet.hh: the queue through which hardware
    threads send tasks to a place or a monitor.  Any number of threads push; the
    thread whose push or [tryAcquire] found the queue free owns it until it
    releases it, and only the owner pulls.

    Each access to an atomic variable is one step, so all interleavings of the
    pushes with the owner's operations are executions of the model.  The queue is
    shown to be linearizable: the tasks leave it as they leave a sequence to which
    [push] appends and [pushPrivate] prepends. *)

From stdpp Require Import base tactics numbers functions relations list gmap.
From Stdlib Require Import ZArith Lia.
From S2P Require Import Prelude Traces.

Local Open Scope Z_scope.

Module Tasklets.

(** ** State *)

(** [Chainable], async/monitor-common/async/Tasklet.hh:40-45 *)
Definition FREE : Z := 0.
Definition INCOMPLETE : Z := 1.
Definition LOCKED : Z := 2.
Definition UNUSED : Z := 3.
Definition INIT : Z := 4.
Definition INIT_HANDOVER : Z := 5.

(** [Chainable::isInit], async/monitor-common/async/Tasklet.hh:60 *)
Definition isInit (n : Z) : bool := (n =? INIT) || (n =? INIT_HANDOVER).

(** The values of [next] of a task that is in no queue. *)
Definition idle (n : Z) : bool := isInit n || (n =? UNUSED).

(** No task lies in the first bytes of memory, so that its address is none of the
    values above. *)
Definition is_task (t : Z) : bool := 64 <=? t.

(** Where a thread is in [push] of a task. *)
Inductive pusher := AtExchange | AtStore (oldtail : Z).

(** Where the owner is.  A [Ready] owner is outside of the queue; [sure] records
    that a push of its own or a failed release tells it that there is a task. *)
Inductive position :=
  | Nobody
  | Pushing (t : Z)
  | Ready (sure : bool)
  | Empty
  | TakeNext (t : Z)
  | TakeRest (t n : Z)
  | Detach (sure : bool)
  | Walk (t : Z)
  | MovePrivate (t n : Z)
  | MoveNext (t n oldtail : Z)
  | Last (t : Z)
  | PrivateNext (t oldtail : Z).

(** [ChainFIFO] with the [next] fields of all tasks,
    async/monitor-common/async/TaskletQueue.hh:36-44 *)
Record queue := mkQueue {
  sharedTail : Z; privateTail : Z; next : Z → Z; pushers : gmap Z pusher; owner : position }.

Definition with_next (f : Z → Z) (q : queue) : queue :=
  mkQueue (sharedTail q) (privateTail q) f (pushers q) (owner q).
Definition with_owner (o : position) (q : queue) : queue :=
  mkQueue (sharedTail q) (privateTail q) (next q) (pushers q) o.
Definition with_private (v : Z) (q : queue) : queue :=
  mkQueue (sharedTail q) v (next q) (pushers q) (owner q).
Definition set_next (t v : Z) (q : queue) : queue := with_next (<[t := v]> (next q)) q.

(** The task of a position that its thread has not handed over yet. *)
Definition held (o : position) : option Z :=
  match o with TakeRest t _ | PrivateNext t _ => Some t | _ => None end.

(** A task that its owner may use: it is in no queue and in no operation. *)
Definition available (q : queue) (t : Z) : Prop :=
  is_task t = true ∧ idle (next q t) = true ∧ pushers q !! t = None ∧ held (owner q) ≠ Some t.

(** ** Steps of [push] *)

(** The mark of an incomplete push,
    async/monitor-common/async/TaskletQueue.hh:110-115 *)
Definition push_mark (t : Z) (q : queue) : queue :=
  mkQueue (sharedTail q) (privateTail q) (<[t := INCOMPLETE]> (next q))
    (<[t := AtExchange]> (pushers q)) (owner q).

(** The exchange of the tail; the push that found FREE owns the queue,
    async/monitor-common/async/TaskletQueue.hh:117-119 *)
Definition push_exchange (t : Z) (q : queue) : queue :=
  mkQueue t (privateTail q) (next q) (<[t := AtStore (sharedTail q)]> (pushers q))
    (if sharedTail q =? FREE then Pushing t else owner q).

(** The completion and the result,
    async/monitor-common/async/TaskletQueue.hh:121-126 *)
Definition push_store (t oldtail : Z) (q : queue) : queue :=
  mkQueue (sharedTail q) (privateTail q) (<[t := oldtail]> (next q)) (delete t (pushers q))
    (if oldtail =? FREE then Ready true else owner q).

(** ** Steps of the owner *)

(** [ChainFIFO::tryAcquire] when it succeeds,
    async/monitor-common/async/TaskletQueue.hh:102-107 *)
Definition tryAcquire (q : queue) : queue :=
  mkQueue LOCKED (privateTail q) (next q) (pushers q) (Ready false).

(** [ChainFIFO::tryRelease], async/monitor-common/async/TaskletQueue.hh:173-178 *)
Definition tryRelease (q : queue) : queue :=
  if sharedTail q =? LOCKED then mkQueue FREE (privateTail q) (next q) (pushers q) Nobody
  else with_owner (Ready true) q.

(** [ChainFIFO::pull]: the exchange of the private tail,
    async/monitor-common/async/TaskletQueue.hh:132-137 *)
Definition pull_private (sure : bool) (q : queue) : queue :=
  if negb (privateTail q =? FREE)
  then with_owner (TakeNext (privateTail q)) (with_private FREE q)
  else with_owner (Detach sure) q.

(** The first task of the private queue is taken,
    async/monitor-common/async/TaskletQueue.hh:139 *)
Definition take_next (t : Z) (q : queue) : queue :=
  with_owner (TakeRest t (next q t)) (set_next t INIT q).

(** async/monitor-common/async/TaskletQueue.hh:140-141 *)
Definition take_rest (n : Z) (q : queue) : queue :=
  with_owner (Ready false) (with_private n q).

(** The shared queue is detached,
    async/monitor-common/async/TaskletQueue.hh:144-149 *)
Definition detach (q : queue) : queue :=
  mkQueue LOCKED (privateTail q) (next q) (pushers q)
    (if (sharedTail q =? FREE) || (sharedTail q =? LOCKED) then Empty else Walk (sharedTail q)).

(** One exchange of the waiting loop and what follows it,
    async/monitor-common/async/TaskletQueue.hh:152-161 *)
Definition walk (t : Z) (q : queue) : queue :=
  let n := next q t in
  with_owner
    (if n =? INCOMPLETE then Walk t
     else if (n =? FREE) || (n =? LOCKED) then Last t
     else MovePrivate t n)
    (set_next t INCOMPLETE q).

(** The task becomes the first of the private queue,
    async/monitor-common/async/TaskletQueue.hh:163 *)
Definition move_private (t n : Z) (q : queue) : queue :=
  with_owner (MoveNext t n (privateTail q)) (with_private t q).

(** async/monitor-common/async/TaskletQueue.hh:164-165 *)
Definition move_next (t n oldtail : Z) (q : queue) : queue :=
  with_owner (Walk n) (set_next t oldtail q).

(** The oldest task is returned,
    async/monitor-common/async/TaskletQueue.hh:167-169 *)
Definition return_last (t : Z) (q : queue) : queue :=
  with_owner (Ready false) (set_next t INIT q).

(** [ChainFIFO::pushPrivate]: the exchange and the store,
    async/monitor-common/async/TaskletQueue.hh:181-185 *)
Definition private_exchange (t : Z) (q : queue) : queue :=
  with_owner (PrivateNext t (privateTail q)) (with_private t q).

(** async/monitor-common/async/TaskletQueue.hh:186-187 *)
Definition private_store (t oldtail : Z) (q : queue) : queue :=
  with_owner (Ready false) (set_next t oldtail q).

(** ** Executions *)

Inductive event := EPush (t : Z) | EPushPrivate (t : Z) | EPull (r : option Z).

Definition sharedFree (q : queue) : bool := (sharedTail q =? FREE) || (sharedTail q =? LOCKED).

(** A step, with the operation that takes effect in it. *)
Inductive step : queue → option event → queue → Prop :=
  | s_mark q t : available q t → isInit (next q t) = true → step q None (push_mark t q)
  | s_exchange q t : pushers q !! t = Some AtExchange → step q (Some (EPush t)) (push_exchange t q)
  | s_store q t old : pushers q !! t = Some (AtStore old) → step q None (push_store t old q)
  | s_acquire q : sharedTail q = FREE → step q None (tryAcquire q)
  | s_release q : owner q = Empty → step q None (tryRelease q)
  | s_again q : owner q = Empty → step q None (with_owner (Ready false) q)
  | s_pull q sure : owner q = Ready sure → step q None (pull_private sure q)
  | s_take_next q t : owner q = TakeNext t → step q (Some (EPull (Some t))) (take_next t q)
  | s_take_rest q t n : owner q = TakeRest t n → step q None (take_rest n q)
  | s_detach q sure : owner q = Detach sure →
      step q (if sharedFree q then Some (EPull None) else None) (detach q)
  | s_walk q t : owner q = Walk t → step q None (walk t q)
  | s_move_private q t n : owner q = MovePrivate t n → step q None (move_private t n q)
  | s_move_next q t n old : owner q = MoveNext t n old → step q None (move_next t n old q)
  | s_last q t : owner q = Last t → step q (Some (EPull (Some t))) (return_last t q)
  | s_private q t sure : owner q = Ready sure → available q t → isInit (next q t) = true →
      step q None (private_exchange t q)
  | s_private_store q t old : owner q = PrivateNext t old →
      step q (Some (EPushPrivate t)) (private_store t old q)
  | s_use q t v : available q t → idle v = true → step q None (set_next t v q).

(** The constructor; all tasks are unused. *)
Definition newQueue : queue := mkQueue FREE FREE (λ _, UNUSED) ∅ Nobody.

(** The contract: a sequence of tasks. *)
Definition effect (e : event) (l : list Z) : option (list Z) :=
  match e, l with
  | EPush t, _ => Some (l ++ [t])
  | EPushPrivate t, _ => Some (t :: l)
  | EPull None, [] => Some []
  | EPull (Some t), x :: l => if t =? x then Some l else None
  | EPull _, _ => None
  end.

(** ** The invariant *)

(** The predecessor of a task in the shared queue, also while its push is not
    complete. *)
Definition link (q : queue) (t : Z) : Z :=
  match pushers q !! t with Some (AtStore old) => old | _ => next q t end.

(** A shared chain, newest task first, and a private one, oldest task first. *)
Fixpoint shared_chain (lk : Z → Z) (p : Z) (l : list Z) : Prop :=
  match l with [] => p = FREE ∨ p = LOCKED | t :: l => p = t ∧ shared_chain lk (lk t) l end.
Fixpoint private_chain (nx : Z → Z) (p : Z) (l : list Z) : Prop :=
  match l with [] => p = FREE | t :: l => p = t ∧ private_chain nx (nx t) l end.

(** [det] are the tasks of the detached chain that [pull] has not moved yet. *)
Definition owner_inv (q : queue) (det priv : list Z) : Prop :=
  let nx := next q in
  match owner q with
  | Nobody => sharedTail q = FREE ∧ det = [] ∧ priv = [] ∧ privateTail q = FREE
  | Pushing t => det = [] ∧ priv = [] ∧ privateTail q = FREE ∧ pushers q !! t = Some (AtStore FREE)
  | Ready _ => det = [] ∧ private_chain nx (privateTail q) priv
  | Empty | Detach _ => det = [] ∧ priv = [] ∧ privateTail q = FREE
  | TakeNext t => det = [] ∧ privateTail q = FREE ∧ ∃ l, priv = t :: l ∧ private_chain nx (nx t) l
  | TakeRest t n => det = [] ∧ privateTail q = FREE ∧ private_chain nx n priv
  | Walk t => det ≠ [] ∧ shared_chain (link q) t det ∧ private_chain nx (privateTail q) priv
  | MovePrivate t n => pushers q !! t = None ∧ private_chain nx (privateTail q) priv ∧
      ∃ d, det = t :: d ∧ d ≠ [] ∧ shared_chain (link q) n d
  | MoveNext t n old => det ≠ [] ∧ shared_chain (link q) n det ∧ privateTail q = t ∧
      pushers q !! t = None ∧ ∃ l, priv = t :: l ∧ private_chain nx old l
  | Last t => det = [t] ∧ pushers q !! t = None ∧ private_chain nx (privateTail q) priv
  | PrivateNext t old => det = [] ∧ privateTail q = t ∧ private_chain nx old priv ∧ is_task t = true
  end.

Definition sure (o : position) : bool :=
  match o with Ready b | Detach b => b | _ => false end.

Definition pusher_inv (q : queue) (det priv sh : list Z) (t : Z) (p : pusher) : Prop :=
  is_task t = true ∧ next q t = INCOMPLETE ∧
  match p with
  | AtExchange => t ∉ det ++ priv ++ sh
  | AtStore old => t ∈ det ++ sh ∧ t ∉ priv ∧ idle old = false ∧ (old = FREE → owner q = Pushing t)
  end.

Record queue_inv (q : queue) (det priv sh : list Z) : Prop := {
  i_owner : owner_inv q det priv;
  i_shared : shared_chain (link q) (sharedTail q) sh;
  i_free : sharedTail q = FREE → owner q = Nobody;
  i_nodup : NoDup (det ++ priv ++ sh);
  i_tasks : ∀ t, t ∈ det ++ priv ++ sh → is_task t = true ∧ idle (next q t) = false;
  i_push : ∀ t p, pushers q !! t = Some p → pusher_inv q det priv sh t p;
  i_held : ∀ t, held (owner q) = Some t → t ∉ det ++ priv ++ sh ∧ pushers q !! t = None;
  i_sure : sure (owner q) = true → det ++ priv ++ sh ≠ []
}.

(** The tasks in the queue, oldest first. *)
Definition tasks (det priv sh : list Z) : list Z := rev det ++ priv ++ rev sh.

(** Membership in concatenations. *)
Local Ltac mem :=
  intros;
  repeat match goal with
    | H : context [_ ∈ _ ++ _] |- _ => first [ rewrite !elem_of_app in H | clear H ]
    | H : context [_ ∈ _ :: _] |- _ => first [ rewrite !elem_of_cons in H | clear H ]
    | H : context [_ ∈ []] |- _ => first [ rewrite !elem_of_nil in H | clear H ]
    end;
  rewrite ?elem_of_app, ?elem_of_cons, ?elem_of_nil; first [tauto | intuition congruence].

Lemma shared_chain_ext lk lk' p l :
  (∀ x, x ∈ l → lk' x = lk x) → shared_chain lk p l → shared_chain lk' p l.
Proof.
  revert p. induction l as [|t l IH]; intros p Hext; [done|]. cbn. intros [-> Hc].
  split; [done|]. rewrite (Hext t) by set_solver. apply IH; [set_solver|done].
Qed.

Lemma private_chain_ext nx nx' p l :
  (∀ x, x ∈ l → nx' x = nx x) → private_chain nx p l → private_chain nx' p l.
Proof.
  revert p. induction l as [|t l IH]; intros p Hext; [done|]. cbn. intros [-> Hc].
  split; [done|]. rewrite (Hext t) by set_solver. apply IH; [set_solver|done].
Qed.

(** The values a complete task of a shared chain can have. *)
Lemma shared_chain_not_idle lk p l :
  (∀ t, t ∈ l → is_task t = true) → shared_chain lk p l → idle p = false ∧ p ≠ INCOMPLETE.
Proof.
  intros Ht Hc. destruct l as [|t l]; cbn in Hc; [by destruct Hc as [->| ->]|].
  destruct Hc as [-> _]. assert (Hk : is_task t = true) by (apply Ht; left). unfold is_task in Hk.
  apply Z.leb_le in Hk. unfold idle, isInit, INIT, INIT_HANDOVER, UNUSED, INCOMPLETE.
  split; [|lia]. by rewrite !(proj2 (Z.eqb_neq _ _)) by lia.
Qed.

Lemma shared_chain_end lk p l :
  (∀ t, t ∈ l → is_task t = true) → shared_chain lk p l →
  (p =? FREE) || (p =? LOCKED) = bool_decide (l = []).
Proof.
  intros Ht Hc. destruct l as [|t l]; cbn in Hc.
  - by destruct Hc as [->| ->].
  - destruct Hc as [-> _]. assert (Hk : is_task t = true) by (apply Ht; left). unfold is_task in Hk.
    apply Z.leb_le in Hk. rewrite bool_decide_false by done. unfold FREE, LOCKED.
    by rewrite !(proj2 (Z.eqb_neq _ _)) by lia.
Qed.

Lemma task_not_free t : is_task t = true → t ≠ FREE ∧ t ≠ LOCKED.
Proof. unfold is_task, FREE, LOCKED. rewrite Z.leb_le. lia. Qed.

(** What the owner relies on. *)
Lemma owner_inv_frame q q' det priv :
  owner q' = owner q → privateTail q' = privateTail q →
  (owner q = Nobody → sharedTail q' = sharedTail q) →
  (∀ x, x ∈ det → link q' x = link q x) → (∀ x, x ∈ priv → next q' x = next q x) →
  (∀ x, pushers q !! x = Some (AtStore FREE) → owner q = Pushing x → pushers q' !! x = Some (AtStore FREE)) →
  (∀ x, x ∈ det ++ priv → pushers q !! x = None → pushers q' !! x = None) →
  owner_inv q det priv → owner_inv q' det priv.
Proof.
  intros Eo Ep Es Hlk Hnx Hps Hpn. unfold owner_inv. rewrite Eo, Ep.
  assert (Hlc : ∀ p l, (∀ x, x ∈ l → x ∈ det) → shared_chain (link q) p l → shared_chain (link q') p l)
    by (intros p l Hl; apply shared_chain_ext; auto).
  assert (Hpc : ∀ p l, (∀ x, x ∈ l → x ∈ priv) → private_chain (next q) p l → private_chain (next q') p l)
    by (intros p l Hl; apply private_chain_ext; auto).
  destruct (owner q) as [|t|b| |t|t n|b|t|t n|t n old|t|t old].
  - rewrite Es by done. done.
  - intros (? & ? & ? & ?). auto.
  - intros (? & ?). auto.
  - done.
  - intros (? & ? & l & -> & ?). split; [done|]. split; [done|]. exists l. split; [done|].
    rewrite (Hnx t) by set_solver. apply Hpc; [set_solver|done].
  - intros (? & ? & ?). auto.
  - done.
  - intros (? & ? & ?). auto.
  - intros (Hn & ? & d & -> & ? & ?). split; [apply Hpn; [set_solver|done]|]. split; [auto|].
    exists d. split; [done|]. split; [done|]. apply Hlc; [set_solver|done].
  - intros (? & ? & ? & Hn & l & -> & ?). split; [done|]. split; [auto|]. split; [done|].
    split; [apply Hpn; [set_solver|done]|]. exists l. split; [done|]. apply Hpc; [set_solver|done].
  - intros (-> & Hn & ?). split; [done|]. split; [apply Hpn; [set_solver|done]|auto].
  - intros (? & ? & ? & ?). auto.
Qed.

(** A change of a task that is in no queue. *)
Lemma outside_inv q q' t det priv sh :
  queue_inv q det priv sh → t ∉ det ++ priv ++ sh → held (owner q) ≠ Some t → pushers q !! t = None →
  sharedTail q' = sharedTail q → privateTail q' = privateTail q → owner q' = owner q →
  (∀ x, x ≠ t → next q' x = next q x ∧ pushers q' !! x = pushers q !! x) →
  (∀ p, pushers q' !! t = Some p → p = AtExchange ∧ is_task t = true ∧ next q' t = INCOMPLETE) →
  queue_inv q' det priv sh.
Proof.
  intros [Ho Hs Hf Hnd Ht Hp Hh Hsu] Hout Hheld Hnone Es Ep Eo Hoth Hnew.
  assert (Hne : ∀ x, x ∈ det ++ priv ++ sh → x ≠ t) by (by intros x Hx ->).
  assert (Hlk : ∀ x, x ∈ det ++ priv ++ sh → link q' x = link q x).
  { intros x Hx. unfold link. by destruct (Hoth x (Hne x Hx)) as [-> ->]. }
  assert (Hnx : ∀ x, x ∈ det ++ priv ++ sh → next q' x = next q x)
    by (intros x Hx; by destruct (Hoth x (Hne x Hx)) as [-> _]).
  split; rewrite ?Eo, ?Es; try done.
  - apply (owner_inv_frame q); auto; try (intros x Hx; (apply Hlk || apply Hnx); set_solver).
    + intros x Hx _. rewrite (proj2 (Hoth x ltac:(congruence))). done.
    + intros x Hx Hn. rewrite (proj2 (Hoth x (Hne x ltac:(set_solver)))). done.
  - eapply shared_chain_ext; [|done]. intros x Hx. apply Hlk. set_solver.
  - intros x Hx. rewrite (Hnx x Hx). auto.
  - intros x p Hx. destruct (decide (x = t)) as [->|Hxt].
    + destruct (Hnew p Hx) as (-> & Hk & Hn). by split; [|split].
    + destruct (Hoth x Hxt) as [En Ex]. rewrite Ex in Hx. unfold pusher_inv. rewrite En, Eo. by apply Hp.
  - intros x Hx. destruct (Hh x Hx) as [H1 H2]. split; [done|].
    destruct (decide (x = t)) as [->|Hxt]; [by destruct Hheld|]. by rewrite (proj2 (Hoth x Hxt)).
Qed.

(** ** Steps of the pushing threads *)

Lemma available_outside q t det priv sh :
  queue_inv q det priv sh → available q t → t ∉ det ++ priv ++ sh.
Proof.
  intros Hi (_ & Hid & _) Hin. destruct (i_tasks _ _ _ _ Hi t Hin) as [_ Hn]. congruence.
Qed.

Lemma push_mark_inv q t det priv sh :
  queue_inv q det priv sh → available q t → queue_inv (push_mark t q) det priv sh.
Proof.
  intros Hi Ha. pose proof (available_outside q t det priv sh Hi Ha) as Hout. destruct Ha as (Hk & _ & Hn & Hh).
  apply (outside_inv q _ t); try done.
  - intros x Hx. cbn. by rewrite fn_lookup_insert_ne, lookup_insert_ne by done.
  - cbn. rewrite lookup_insert_eq, fn_lookup_insert. by intros p [= <-].
Qed.

Lemma set_next_inv q t v det priv sh :
  queue_inv q det priv sh → available q t → queue_inv (set_next t v q) det priv sh.
Proof.
  intros Hi Ha. pose proof (available_outside q t det priv sh Hi Ha) as Hout. destruct Ha as (Hk & _ & Hn & Hh).
  apply (outside_inv q _ t); try done.
  - intros x Hx. cbn. by rewrite fn_lookup_insert_ne by done.
  - cbn. congruence.
Qed.

Lemma link_exchange q t x : x ≠ t → link (push_exchange t q) x = link q x.
Proof. intros Hx. unfold link. cbn. by rewrite lookup_insert_ne by done. Qed.

Lemma push_exchange_inv q t det priv sh :
  queue_inv q det priv sh → pushers q !! t = Some AtExchange →
  queue_inv (push_exchange t q) det priv (t :: sh).
Proof.
  intros [Ho Hs Hf Hnd Ht Hp Hh Hsu] Hx. destruct (Hp t AtExchange Hx) as (Hk & Hn & Hout).
  destruct (task_not_free t Hk) as [Hf1 _].
  assert (Hid : idle (sharedTail q) = false)
    by (apply (shared_chain_not_idle (link q) _ sh); [intros x Hin; apply Ht; mem|done]).
  assert (Hne : ∀ x, x ∈ det ++ priv ++ sh → x ≠ t) by (by intros x Hin ->).
  assert (Hsh : shared_chain (link (push_exchange t q)) t (t :: sh)).
  { split; [done|]. unfold link at 2. cbn. rewrite lookup_insert_eq.
    eapply shared_chain_ext; [|exact Hs]. intros x Hin. apply link_exchange, Hne. mem. }
  assert (Hall : ∀ x, x ∈ det ++ priv ++ t :: sh → x = t ∨ x ∈ det ++ priv ++ sh) by mem.
  destruct (Z.eqb_spec (sharedTail q) FREE) as [Hfree|Hfree].
  - specialize (Hf Hfree). unfold owner_inv in Ho. rewrite Hf in Ho. destruct Ho as (_ & -> & -> & Hpr).
    assert (Eo : owner (push_exchange t q) = Pushing t) by (cbn; by rewrite Hfree).
    split; rewrite ?Eo; try done.
    + unfold owner_inv. rewrite Eo. cbn. rewrite lookup_insert_eq, Hfree. done.
    + constructor; [mem|done].
    + intros x [->|Hin]%Hall; [split; [done|]; cbn; by rewrite Hn | by apply Ht].
    + intros x p Hxp. cbn in Hxp. apply lookup_insert_Some in Hxp as [[<- <-]|[Hxt Hxp]].
      * split; [done|]. split; [done|]. split; [mem|]. split; [mem|]. split; [done|]. by rewrite Eo.
      * destruct (Hp x p Hxp) as (? & ? & Hrest). split; [done|]. split; [done|].
        destruct p as [|old]; [mem|]. destruct Hrest as (? & ? & ? & Hold).
        split; [mem|]. split; [done|]. split; [done|]. intros Ho. specialize (Hold Ho). congruence.
  - assert (Eo : owner (push_exchange t q) = owner q) by (cbn; by rewrite (proj2 (Z.eqb_neq _ _) Hfree)).
    split; rewrite ?Eo; try done.
    + apply (owner_inv_frame q); try done.
      * intros Hno. unfold owner_inv in Ho. rewrite Hno in Ho. by destruct Ho as (? & _).
      * intros x Hin. apply link_exchange, Hne. mem.
      * intros x Hxs _. cbn. rewrite lookup_insert_ne; [done|]. congruence.
      * intros x Hin Hxn. cbn. rewrite lookup_insert_ne; [done|]. intros ->. congruence.
    + rewrite app_assoc, <- Permutation_middle, <- app_assoc. by constructor.
    + intros x [->|Hin]%Hall; [split; [done|]; cbn; by rewrite Hn | by apply Ht].
    + intros x p Hxp. cbn in Hxp. apply lookup_insert_Some in Hxp as [[<- <-]|[Hxt Hxp]].
      * split; [done|]. split; [done|]. split; [mem|]. split; [mem|]. split; [done|]. done.
      * destruct (Hp x p Hxp) as (? & ? & Hrest). split; [done|]. split; [done|]. rewrite Eo.
        destruct p as [|old]; [mem|]. mem.
    + intros x Hxh. destruct (Hh x Hxh) as [Hxo Hxn].
      assert (x ≠ t) by (intros ->; congruence). cbn. rewrite lookup_insert_ne by done. mem.
    + intros _. by destruct det, priv.
Qed.

Lemma link_store q t old x :
  pushers q !! t = Some (AtStore old) → link (push_store t old q) x = link q x.
Proof.
  intros Hx. unfold link. cbn. destruct (decide (x = t)) as [->|Hxt].
  - by rewrite lookup_delete_eq, fn_lookup_insert, Hx.
  - by rewrite lookup_delete_ne, fn_lookup_insert_ne by done.
Qed.

Lemma push_store_inv q t old det priv sh :
  queue_inv q det priv sh → pushers q !! t = Some (AtStore old) →
  queue_inv (push_store t old q) det priv sh.
Proof.
  intros [Ho Hs Hf Hnd Ht Hp Hh Hsu] Hx. destruct (Hp t _ Hx) as (Hk & Hn & Hin & Hpr & Hid & Hold).
  assert (Hsh : shared_chain (link (push_store t old q)) (sharedTail q) sh)
    by (eapply shared_chain_ext; [|exact Hs]; intros x _; by apply link_store).
  assert (Hts : ∀ x, x ∈ det ++ priv ++ sh → is_task x = true ∧ idle (next (push_store t old q) x) = false).
  { intros x Hxin. cbn. destruct (decide (x = t)) as [->|Hxt].
    - by rewrite fn_lookup_insert.
    - rewrite fn_lookup_insert_ne by done. auto. }
  assert (Hps : ∀ x p, pushers (push_store t old q) !! x = Some p →
                  pusher_inv q det priv sh x p ∧ next (push_store t old q) x = next q x ∧ x ≠ t).
  { intros x p Hxp. cbn in Hxp. apply lookup_delete_Some in Hxp as [Hxt Hxp]. split; [by apply Hp|].
    cbn. by rewrite fn_lookup_insert_ne. }
  destruct (Z.eqb_spec old FREE) as [->|Hof].
  - specialize (Hold eq_refl). unfold owner_inv in Ho. rewrite Hold in Ho. destruct Ho as (-> & -> & Hpt & _).
    split; try done.
    + intros Hfr. specialize (Hf Hfr). congruence.
    + intros x p Hxp. destruct (Hps x p Hxp) as ((? & ? & Hrest) & En & Hxt).
      split; [done|]. rewrite En. split; [done|]. destruct p as [|o]; [done|].
      destruct Hrest as (? & ? & ? & Hown). split; [done|]. split; [done|]. split; [done|].
      intros ->. specialize (Hown eq_refl). congruence.
    + intros _ Hnil. cbn in Hnil. subst sh. mem.
  - assert (Eo : owner (push_store t old q) = owner q) by (cbn; by rewrite (proj2 (Z.eqb_neq _ _) Hof)).
    split; rewrite ?Eo; try done.
    + apply (owner_inv_frame q); try done.
      * intros x _. by apply link_store.
      * intros x Hxin. cbn. rewrite fn_lookup_insert_ne; [done|]. congruence.
      * intros x Hxs _. cbn. rewrite lookup_delete_ne; congruence.
      * intros x _ Hxn. cbn. destruct (decide (x = t)) as [->|]; [by rewrite lookup_delete_eq|].
        by rewrite lookup_delete_ne.
    + intros x p Hxp. destruct (Hps x p Hxp) as (Hpi & En & Hxt). unfold pusher_inv. rewrite En, Eo. exact Hpi.
    + intros x Hxh. destruct (Hh x Hxh) as [Hxo Hxn]. split; [done|]. cbn.
      destruct (decide (x = t)) as [->|]; [by rewrite lookup_delete_eq|]. by rewrite lookup_delete_ne.
Qed.

(** ** Steps of the owner *)

Lemma private_no_pusher q det priv sh x :
  queue_inv q det priv sh → x ∈ priv → pushers q !! x = None.
Proof.
  intros Hi Hx. destruct (pushers q !! x) as [p|] eqn:Hp; [|done].
  destruct (i_push _ _ _ _ Hi x p Hp) as (_ & _ & Hr). destruct p; [|tauto]. exfalso. mem.
Qed.

(** A step of the owner that leaves the shared queue alone and changes the [next]
    field of at most one task. *)
Lemma owner_step q q' ot det priv sh det' priv' :
  queue_inv q det priv sh →
  sharedTail q' = sharedTail q → sharedTail q ≠ FREE → pushers q' = pushers q →
  (∀ x, ot ≠ Some x → next q' x = next q x) →
  (∀ t, ot = Some t → t ∉ sh ∧ pushers q !! t = None) → (∀ t, owner q ≠ Pushing t) →
  owner_inv q' det' priv' → NoDup (det' ++ priv' ++ sh) →
  (∀ x, x ∈ det' ++ priv' → (x ∈ det ++ priv ∨ ot = Some x ∧ is_task x = true) ∧ idle (next q' x) = false) →
  (∀ x, x ∈ det → x ∈ det' ∨ pushers q !! x = None) → (∀ x, x ∈ priv' → pushers q !! x = None) →
  (∀ t, held (owner q') = Some t → t ∉ det' ++ priv' ++ sh ∧ pushers q !! t = None) →
  (sure (owner q') = true → det' ++ priv' ++ sh ≠ []) →
  queue_inv q' det' priv' sh.
Proof.
  intros [Ho Hs Hf Hnd Ht Hp Hh Hsu] Es Hfr Eps Hnx Hot Hnp Ho' Hnd' Hin Hdet Hpriv Hh' Hsu'.
  assert (Hsh : ∀ x, x ∈ sh → next q' x = next q x)
    by (intros x Hx; apply Hnx; intros Hx'; by destruct (Hot x Hx')).
  split; rewrite ?Es, ?Eps; try done.
  - eapply shared_chain_ext; [|exact Hs]. intros x Hx. unfold link. by rewrite Eps, Hsh.
  - intros x Hx. rewrite app_assoc in Hx. apply elem_of_app in Hx as [Hx|Hx].
    + destruct (Hin x Hx) as [[Hx'|[_ Hk]] Hid]; split; try done. apply Ht. mem.
    + rewrite Hsh by done. apply Ht. mem.
  - intros x p Hx. destruct (Hp x p Hx) as (Hk & Hn & Hr). split; [done|].
    rewrite Hnx by (intros Hx'; destruct (Hot x Hx'); congruence). split; [done|]. destruct p as [|old].
    + intros Hx'. rewrite app_assoc in Hx'. apply elem_of_app in Hx' as [Hx'|Hx'].
      * destruct (Hin x Hx') as [[?|[Hx'' _]] _]; [mem|]. destruct (Hot x Hx''). congruence.
      * mem.
    + destruct Hr as (Hd & _ & Hid & Hown). assert (Hx' : x ∉ priv') by (intros Hx'; specialize (Hpriv x Hx'); congruence).
      split; [|split; [done|split; [done|]]].
      * apply elem_of_app in Hd as [Hd|Hd]; [|mem]. destruct (Hdet x Hd); [mem|congruence].
      * intros ->. specialize (Hown eq_refl). by destruct (Hnp x).
Qed.

Lemma owned_not_free q det priv sh :
  queue_inv q det priv sh → owner q ≠ Nobody → sharedTail q ≠ FREE.
Proof. intros Hi Hn Hf. by apply Hn, (i_free _ _ _ _ Hi). Qed.

Lemma shared_is_task q det priv sh t :
  queue_inv q det priv sh → t ∈ sh → is_task t = true.
Proof. intros Hi Hin. apply (i_tasks _ _ _ _ Hi). mem. Qed.

(** Reads the position of the owner out of the invariant. *)
Local Ltac position Hi Hown :=
  let Ho := fresh "Ho" in
  pose proof (i_owner _ _ _ _ Hi) as Ho; unfold owner_inv in Ho; rewrite Hown in Ho;
  assert (sharedTail _ ≠ FREE) as Hfr by (eapply owned_not_free; [exact Hi|congruence]);
  repeat match goal with
    | H : _ ∧ _ |- _ => destruct H
    | H : ∃ _, _ |- _ => destruct H
    end; subst.

Local Ltac trivial_side := try done; try (intros ? Hx; by apply elem_of_nil in Hx).

Lemma release_inv q sh :
  queue_inv q [] [] sh → owner q = Empty → queue_inv (tryRelease q) [] [] sh.
Proof.
  intros Hi Hown. position Hi Hown. unfold tryRelease.
  pose proof (shared_chain_end _ _ _ (λ t, shared_is_task _ _ _ _ t Hi) (i_shared _ _ _ _ Hi)) as Hend.
  destruct (Z.eqb_spec (sharedTail q) LOCKED) as [Hl|Hl].
  - rewrite Hl in Hend. symmetry in Hend. apply bool_decide_eq_true in Hend as ->.
    destruct Hi as [_ _ _ Hnd Ht Hp _ _]. split; cbn; try done.
    + by left.
    + intros x p Hx. destruct (Hp x p Hx) as (? & ? & Hr). split; [done|]. split; [done|].
      destruct p; [done|]. destruct Hr as (Hr & _). cbn in Hr. by apply elem_of_nil in Hr.
  - apply (owner_step q _ None [] []); trivial_side.
    + intros t. by rewrite Hown.
    + apply (i_nodup _ _ _ _ Hi).
    + intros _ Hnil. cbn in Hnil. subst sh. rewrite bool_decide_true in Hend by done.
      rewrite (proj2 (Z.eqb_neq _ _) Hfr) in Hend. done.
Qed.

Lemma again_inv q sh :
  queue_inv q [] [] sh → owner q = Empty → queue_inv (with_owner (Ready false) q) [] [] sh.
Proof.
  intros Hi Hown. position Hi Hown. apply (owner_step q _ None [] []); trivial_side.
  - intros t. by rewrite Hown.
  - apply (i_nodup _ _ _ _ Hi).
Qed.

Lemma pull_private_inv q b priv sh :
  queue_inv q [] priv sh → owner q = Ready b → queue_inv (pull_private b q) [] priv sh.
Proof.
  intros Hi Hown. position Hi Hown. unfold pull_private.
  assert (Hpn : ∀ x, x ∈ priv → pushers q !! x = None) by (intros x; by apply (private_no_pusher q [] priv sh)).
  assert (Htk : ∀ x, x ∈ priv → is_task x = true ∧ idle (next q x) = false)
    by (intros x Hx; apply (i_tasks _ _ _ _ Hi); mem).
  destruct priv as [|t l].
  - cbn in *. replace (privateTail q) with FREE by done. cbn.
    apply (owner_step q _ None [] []); trivial_side.
    + intros t. by rewrite Hown.
    + apply (i_nodup _ _ _ _ Hi).
    + intros Hb. apply (i_sure _ _ _ _ Hi). by rewrite Hown.
  - cbn in *. destruct H0 as [Hp Hc]. rewrite Hp.
    destruct (task_not_free t (proj1 (Htk t ltac:(left)))) as [Hne _].
    rewrite (proj2 (Z.eqb_neq _ _) Hne). cbn.
    apply (owner_step q _ None [] (t :: l)); trivial_side.
    + intros x. by rewrite Hown.
    + split; [done|]. split; [done|]. by exists l.
    + apply (i_nodup _ _ _ _ Hi).
    + intros x Hx. split; [by left|]. by apply Htk.
Qed.

Lemma take_next_inv q t l sh :
  queue_inv q [] (t :: l) sh → owner q = TakeNext t → queue_inv (take_next t q) [] l sh.
Proof.
  intros Hi Hown. position Hi Hown. simplify_eq.
  pose proof (i_nodup _ _ _ _ Hi) as Hnd. cbn in Hnd. apply NoDup_cons in Hnd as [Hn Hnd].
  assert (Htn : pushers q !! t = None) by (apply (private_no_pusher q [] (t :: x) sh); [done|left]).
  assert (Hnx : ∀ y, y ≠ t → next (take_next t q) y = next q y)
    by (intros y Hy; cbn; by rewrite fn_lookup_insert_ne).
  apply (owner_step q _ (Some t) [] (t :: x)); trivial_side.
  - intros y Hy. apply Hnx. congruence.
  - intros y [= <-]. split; [mem|done].
  - intros y. by rewrite Hown.
  - split; [done|]. split; [done|]. eapply private_chain_ext; [|done]. intros y Hy. apply Hnx. intros ->. mem.
  - intros y Hy. assert (y ≠ t) by (intros ->; mem). split; [left; mem|]. rewrite Hnx by done.
    apply (i_tasks _ _ _ _ Hi). mem.
  - intros y Hy. apply (private_no_pusher q [] (t :: x) sh); [done|mem].
  - cbn. intros y [= <-]. split; [mem|done].
Qed.

Lemma take_rest_inv q t n priv sh :
  queue_inv q [] priv sh → owner q = TakeRest t n → queue_inv (take_rest n q) [] priv sh.
Proof.
  intros Hi Hown. position Hi Hown. apply (owner_step q _ None [] priv); trivial_side.
  - intros y. by rewrite Hown.
  - apply (i_nodup _ _ _ _ Hi).
  - intros y Hy. split; [by left|]. apply (i_tasks _ _ _ _ Hi). mem.
  - intros y Hy. by apply (private_no_pusher q [] priv sh).
Qed.

(** The shared tasks become the detached ones. *)
Lemma detach_inv q b sh :
  queue_inv q [] [] sh → owner q = Detach b → queue_inv (detach q) sh [] [].
Proof.
  intros Hi Hown. position Hi Hown.
  pose proof (shared_chain_end _ _ _ (λ t, shared_is_task _ _ _ _ t Hi) (i_shared _ _ _ _ Hi)) as Hend.
  assert (Eo : owner (detach q) = if bool_decide (sh = []) then Empty else Walk (sharedTail q)).
  { cbn. by rewrite Hend. }
  destruct Hi as [_ Hs _ Hnd Ht Hp _ _]. cbn [app] in *. rewrite <- (app_nil_r sh) in Hnd.
  assert (Hin : ∀ x, x ∈ sh ++ [] ++ [] → x ∈ sh) by (intros x; rewrite app_nil_r; auto).
  split; rewrite ?Eo; try done.
  - unfold owner_inv. rewrite Eo. case_bool_decide as Hsh; [done|]. split; [done|]. split; [|done].
    eapply shared_chain_ext; [|exact Hs]. done.
  - right. done.
  - intros x Hx. apply Ht. auto.
  - intros x p Hx. destruct (Hp x p Hx) as (? & ? & Hr). split; [done|]. split; [done|].
    destruct p as [|old]; [rewrite app_nil_r; exact Hr|]. destruct Hr as (? & ? & ? & Hold).
    rewrite app_nil_r. split; [done|]. split; [done|]. split; [done|]. intros ->. specialize (Hold eq_refl). congruence.
  - case_bool_decide; done.
  - case_bool_decide; done.
Qed.

Lemma walk_inv q t det priv sh :
  queue_inv q det priv sh → owner q = Walk t → queue_inv (walk t q) det priv sh.
Proof.
  intros Hi Hown. position Hi Hown. destruct det as [|x d]; [done|].
  match goal with H : shared_chain _ t _ |- _ => destruct H as [<- Hc] end.
  pose proof (i_nodup _ _ _ _ Hi) as Hnd.
  assert (Htk : ∀ y, y ∈ (t :: d) ++ priv ++ sh → is_task y = true ∧ idle (next q y) = false)
    by apply (i_tasks _ _ _ _ Hi).
  assert (Hpn : ∀ y, y ∈ priv → pushers q !! y = None) by (intros y; by apply (private_no_pusher q (t :: d) priv sh)).
  assert (Hnx : ∀ y, y ≠ t → next (walk t q) y = next q y)
    by (intros y Hy; cbn; by rewrite fn_lookup_insert_ne).
  assert (Htn : next (walk t q) t = INCOMPLETE) by (cbn; by rewrite fn_lookup_insert).
  assert (Hpr : private_chain (next (walk t q)) (privateTail q) priv).
  { eapply private_chain_ext; [|done]. intros y Hy. apply Hnx. intros ->. cbn in Hnd. inv Hnd. mem. }
  assert (Hid : ∀ y, y ∈ (t :: d) ++ priv → idle (next (walk t q) y) = false).
  { intros y Hy. destruct (decide (y = t)) as [->|Hyt]; [by rewrite Htn|]. rewrite Hnx by done. apply Htk. mem. }
  destruct (Z.eqb_spec (next q t) INCOMPLETE) as [Hinc|Hinc].
  - assert (Eo : owner (walk t q) = Walk t) by (cbn; by rewrite Hinc).
    assert (Hsame : ∀ y, next (walk t q) y = next q y)
      by (intros y; destruct (decide (y = t)) as [->|]; [congruence|by apply Hnx]).
    apply (owner_step q _ None (t :: d) priv); trivial_side.
    + intros y. by rewrite Hown.
    + unfold owner_inv. rewrite Eo. split; [done|]. split; [|done].
      eapply shared_chain_ext; [|split; [done|exact Hc]]. intros y _. unfold link. by rewrite Hsame.
    + intros y Hy. split; [by left|auto].
    + auto.
    + intros y. by rewrite Eo.
  - assert (Hpt : pushers q !! t = None).
    { destruct (pushers q !! t) as [p|] eqn:Hp; [|done].
      destruct (i_push _ _ _ _ Hi t p Hp) as (_ & Hn & _). congruence. }
    assert (Hlt : link q t = next q t) by (unfold link; by rewrite Hpt).
    rewrite Hlt in Hc. cbn in Hnd. apply NoDup_cons in Hnd as [Hnt Hnd].
    assert (Hend : (next q t =? FREE) || (next q t =? LOCKED) = bool_decide (d = []))
      by (apply (shared_chain_end (link q)); [intros y Hy; apply Htk; mem|done]).
    assert (Eo : owner (walk t q) = if bool_decide (d = []) then Last t else MovePrivate t (next q t)).
    { cbn. by rewrite (proj2 (Z.eqb_neq _ _) Hinc), Hend. }
    apply (owner_step q _ (Some t) (t :: d) priv); trivial_side.
    + intros y Hy. apply Hnx. congruence.
    + intros y [= <-]. split; [mem|done].
    + intros y. by rewrite Hown.
    + unfold owner_inv. rewrite Eo. case_bool_decide as Hd; [by subst d|]. split; [done|]. split; [done|].
      exists d. split; [done|]. split; [done|]. eapply shared_chain_ext; [|exact Hc].
      intros y Hy. unfold link. rewrite Hnx; [done|]. intros ->. mem.
    + apply (i_nodup _ _ _ _ Hi).
    + intros y Hy. split; [by left|auto].
    + auto.
    + intros y. rewrite Eo. by case_bool_decide.
Qed.

Lemma move_private_inv q t n d priv sh :
  queue_inv q (t :: d) priv sh → owner q = MovePrivate t n →
  queue_inv (move_private t n q) d (t :: priv) sh.
Proof.
  intros Hi Hown. position Hi Hown. simplify_eq.
  apply (owner_step q _ None (t :: x) priv); trivial_side.
  - intros y. by rewrite Hown.
  - split; [done|]. split; [done|]. split; [done|]. split; [done|]. by exists priv.
  - rewrite <- app_comm_cons, <- Permutation_middle. apply (i_nodup _ _ _ _ Hi).
  - intros y Hy. split; [left; mem|]. apply (i_tasks _ _ _ _ Hi). mem.
  - intros y [->|Hy]%elem_of_cons; auto.
  - intros y [->|Hy]%elem_of_cons; [done|]. by apply (private_no_pusher q (t :: x) priv sh).
Qed.

Lemma move_next_inv q t n old det l sh :
  queue_inv q det (t :: l) sh → owner q = MoveNext t n old →
  queue_inv (move_next t n old q) det (t :: l) sh.
Proof.
  intros Hi Hown. position Hi Hown. simplify_eq.
  pose proof (i_nodup _ _ _ _ Hi) as Hnd. rewrite <- app_comm_cons, <- Permutation_middle in Hnd.
  apply NoDup_cons in Hnd as [Hn Hnd].
  assert (Hnx : ∀ y, y ≠ privateTail q → next (move_next (privateTail q) n old q) y = next q y)
    by (intros y Hy; cbn; by rewrite fn_lookup_insert_ne).
  assert (Hidl : idle old = false).
  { match goal with H : private_chain _ old _ |- _ => destruct x as [|y x]; cbn in H; [by subst old|destruct H as [-> _]] end.
    apply (shared_chain_not_idle (λ _, FREE) y [y]); [|split; [done|by left]].
    intros z Hz. apply (i_tasks _ _ _ _ Hi). mem. }
  apply (owner_step q _ (Some (privateTail q)) det (privateTail q :: x)); trivial_side.
  - intros y Hy. apply Hnx. congruence.
  - intros y [= <-]. split; [mem|done].
  - intros y. by rewrite Hown.
  - split; [done|]. split.
    + eapply shared_chain_ext; [|done]. intros y Hy. unfold link. rewrite Hnx; [done|]. intros ->. mem.
    + split; [done|]. cbn. rewrite fn_lookup_insert. eapply private_chain_ext; [|done].
      intros y Hy. apply Hnx. intros ->. mem.
  - apply (i_nodup _ _ _ _ Hi).
  - intros y Hy. split; [left; mem|]. destruct (decide (y = privateTail q)) as [->|Hy'].
    + cbn. by rewrite fn_lookup_insert.
    + rewrite Hnx by done. apply (i_tasks _ _ _ _ Hi). mem.
  - auto.
  - intros y Hy. by apply (private_no_pusher q det (privateTail q :: x) sh).
Qed.

Lemma return_last_inv q t priv sh :
  queue_inv q [t] priv sh → owner q = Last t → queue_inv (return_last t q) [] priv sh.
Proof.
  intros Hi Hown. position Hi Hown.
  pose proof (i_nodup _ _ _ _ Hi) as Hnd. cbn in Hnd. apply NoDup_cons in Hnd as [Hn Hnd].
  assert (Hnx : ∀ y, y ≠ t → next (return_last t q) y = next q y)
    by (intros y Hy; cbn; by rewrite fn_lookup_insert_ne).
  apply (owner_step q _ (Some t) [t] priv); trivial_side.
  - intros y Hy. apply Hnx. congruence.
  - intros y [= <-]. split; [mem|done].
  - intros y. by rewrite Hown.
  - split; [done|]. eapply private_chain_ext; [|done]. intros y Hy. apply Hnx. intros ->. mem.
  - intros y Hy. assert (y ≠ t) by (intros ->; mem). split; [left; mem|]. rewrite Hnx by done.
    apply (i_tasks _ _ _ _ Hi). mem.
  - intros y [->|Hy]%elem_of_cons; [by right|]. by apply elem_of_nil in Hy.
  - intros y Hy. by apply (private_no_pusher q [t] priv sh).
Qed.

Lemma private_exchange_inv q t b priv sh :
  queue_inv q [] priv sh → owner q = Ready b → available q t →
  queue_inv (private_exchange t q) [] priv sh.
Proof.
  intros Hi Hown Ha. pose proof (available_outside q t [] priv sh Hi Ha) as Hout.
  destruct Ha as (Hk & _ & Hn & _). position Hi Hown.
  apply (owner_step q _ None [] priv); trivial_side.
  - intros y. by rewrite Hown.
  - apply (i_nodup _ _ _ _ Hi).
  - intros y Hy. split; [by left|]. apply (i_tasks _ _ _ _ Hi). mem.
  - intros y Hy. by apply (private_no_pusher q [] priv sh).
  - intros y [= <-]. done.
Qed.

Lemma private_store_inv q t old priv sh :
  queue_inv q [] priv sh → owner q = PrivateNext t old →
  queue_inv (private_store t old q) [] (t :: priv) sh.
Proof.
  intros Hi Hown. destruct (i_held _ _ _ _ Hi t ltac:(by rewrite Hown)) as [Hout Hn].
  position Hi Hown. set (t := privateTail q) in *.
  assert (Hnx : ∀ y, y ≠ t → next (private_store t old q) y = next q y)
    by (intros y Hy; cbn; by rewrite fn_lookup_insert_ne).
  assert (Hidl : idle old = false).
  { match goal with H : private_chain _ old _ |- _ => destruct priv as [|y l]; cbn in H; [by subst old|destruct H as [-> _]] end.
    apply (shared_chain_not_idle (λ _, FREE) y [y]); [|split; [done|by left]].
    intros z Hz. apply (i_tasks _ _ _ _ Hi). mem. }
  apply (owner_step q _ (Some t) [] priv); trivial_side.
  - intros y Hy. apply Hnx. congruence.
  - intros y [= <-]. split; [mem|done].
  - intros y. by rewrite Hown.
  - split; [done|]. split; [done|]. cbn. rewrite fn_lookup_insert. eapply private_chain_ext; [|done].
    intros y Hy. apply Hnx. intros ->. mem.
  - constructor; [done|]. apply (i_nodup _ _ _ _ Hi).
  - intros y [->|Hy]%elem_of_cons.
    + split; [by right|]. cbn. by rewrite fn_lookup_insert.
    + assert (y ≠ t) by (intros ->; mem). split; [by left|]. rewrite Hnx by done. apply (i_tasks _ _ _ _ Hi). mem.
  - intros y [->|Hy]%elem_of_cons; [done|]. by apply (private_no_pusher q [] priv sh).
Qed.

Lemma acquire_inv q det priv sh :
  queue_inv q det priv sh → sharedTail q = FREE →
  det = [] ∧ priv = [] ∧ sh = [] ∧ queue_inv (tryAcquire q) [] [] [].
Proof.
  intros Hi Hfr. pose proof (i_free _ _ _ _ Hi Hfr) as Hown.
  pose proof (i_owner _ _ _ _ Hi) as Ho. unfold owner_inv in Ho. rewrite Hown in Ho.
  destruct Ho as (_ & -> & -> & Hpt).
  pose proof (shared_chain_end _ _ _ (λ t, shared_is_task _ _ _ _ t Hi) (i_shared _ _ _ _ Hi)) as Hend.
  rewrite Hfr in Hend. symmetry in Hend. apply bool_decide_eq_true in Hend as ->.
  do 3 (split; [done|]). destruct Hi as [_ _ _ Hnd Ht Hp _ _]. split; cbn; try done.
  - by right.
  - intros x p Hx. destruct (Hp x p Hx) as (? & ? & Hr). split; [done|]. split; [done|].
    destruct p; [done|]. destruct Hr as (Hr & _). cbn in Hr. by apply elem_of_nil in Hr.
Qed.

Lemma newQueue_inv : queue_inv newQueue [] [] [].
Proof. split; try done; [by left|constructor|intros t Ht; by apply elem_of_nil in Ht]. Qed.

(** ** Linearizability *)

(** Every step keeps the invariant and has the effect of its operation. *)
Lemma step_inv q e q' det priv sh :
  queue_inv q det priv sh → step q e q' →
  ∃ det' priv' sh', queue_inv q' det' priv' sh' ∧
    replay effect (option_list e) (tasks det priv sh) = Some (tasks det' priv' sh').
Proof.
  intros Hi Hstep. pose proof (i_owner _ _ _ _ Hi) as Ho. unfold owner_inv in Ho.
  destruct Hstep as [q t Ha _|q t Hx|q t old Hx|q Hf|q Hown|q Hown|q b Hown|q t Hown|q t n Hown|q b Hown
                    |q t Hown|q t n Hown|q t n old Hown|q t Hown|q t b Hown Ha _|q t old Hown|q t v Ha _];
    try rewrite Hown in Ho.
  - exists det, priv, sh. split; [by apply push_mark_inv|done].
  - exists det, priv, (t :: sh). split; [by apply push_exchange_inv|]. unfold tasks. cbn.
    by rewrite <- !app_assoc.
  - exists det, priv, sh. split; [by apply push_store_inv|done].
  - destruct (acquire_inv q det priv sh Hi Hf) as (-> & -> & -> & Hi'). by exists [], [], [].
  - destruct Ho as (-> & -> & _). exists [], [], sh. split; [by apply release_inv|done].
  - destruct Ho as (-> & -> & _). exists [], [], sh. split; [by apply again_inv|done].
  - destruct Ho as (-> & _). exists [], priv, sh. split; [by apply pull_private_inv|done].
  - destruct Ho as (-> & _ & l & -> & _). exists [], l, sh. split; [by apply take_next_inv|].
    unfold tasks. cbn. by rewrite Z.eqb_refl.
  - destruct Ho as (-> & _). exists [], priv, sh. split; [by eapply take_rest_inv|done].
  - destruct Ho as (-> & -> & _). exists sh, [], []. split; [by eapply detach_inv|].
    unfold sharedFree.
    rewrite (shared_chain_end _ _ _ (λ t, shared_is_task _ _ _ _ t Hi) (i_shared _ _ _ _ Hi)).
    unfold tasks. case_bool_decide as Hsh; [by subst sh|]. cbn. by rewrite app_nil_r.
  - exists det, priv, sh. split; [by apply walk_inv|done].
  - destruct Ho as (_ & _ & d & -> & _). exists d, (t :: priv), sh. split; [by apply move_private_inv|].
    unfold tasks. cbn. by rewrite <- app_assoc.
  - destruct Ho as (_ & _ & _ & _ & l & -> & _). exists det, (t :: l), sh. split; [by apply move_next_inv|done].
  - destruct Ho as (-> & _). exists [], priv, sh. split; [by apply return_last_inv|].
    unfold tasks. cbn. by rewrite Z.eqb_refl.
  - destruct Ho as (-> & _). exists [], priv, sh. split; [by eapply private_exchange_inv|done].
  - destruct Ho as (-> & _). exists [], (t :: priv), sh. split; [by apply private_store_inv|done].
  - exists det, priv, sh. split; [by apply set_next_inv|done].
Qed.

Lemma execution_inv evs q :
  execution step newQueue evs q →
  ∃ det priv sh, queue_inv q det priv sh ∧ replay effect evs [] = Some (tasks det priv sh).
Proof.
  intros Hx.
  destruct (execution_simulates step effect
    (λ q l, ∃ det priv sh, queue_inv q det priv sh ∧ l = tasks det priv sh) newQueue [] evs q)
    as (l & (det & priv & sh & Hi & ->) & Hr); [| |done|by exists det, priv, sh].
  - intros q1 e q2 l (det & priv & sh & Hi & ->) Hs.
    destruct (step_inv q1 e q2 det priv sh Hi Hs) as (det' & priv' & sh' & Hi' & Hr). eauto 10.
  - exists [], [], []. split; [apply newQueue_inv|done].
Qed.

(** C5: the queue of tasklets is linearizable and loses no task.  In every
    interleaving of any number of pushing threads with the owner's operations, the
    tasks leave the queue as they leave the sequence to which [push] appends and
    [pushPrivate] prepends, and [pull] finds nothing exactly when that sequence is
    empty; a queue nobody owns is free and holds no task; the pull after an
    acquiring push or a failed release finds a task; and the owner waits only for
    a push that is about to complete. *)
Theorem tasklet_queue_linearizable evs q :
  execution step newQueue evs q →
  ∃ l, replay effect evs [] = Some l ∧
    (sharedTail q = FREE ↔ owner q = Nobody) ∧ (owner q = Nobody → l = []) ∧
    (owner q = Detach true → is_task (sharedTail q) = true) ∧
    (∀ t, owner q = Walk t → next q t = INCOMPLETE → ∃ old, pushers q !! t = Some (AtStore old)).
Proof.
  intros Hx. destruct (execution_inv evs q Hx) as (det & priv & sh & Hi & Hr).
  exists (tasks det priv sh). split; [done|].
  pose proof (i_owner _ _ _ _ Hi) as Ho. unfold owner_inv in Ho.
  assert (Hno : owner q = Nobody → sharedTail q = FREE ∧ tasks det priv sh = []).
  { intros Hown. rewrite Hown in Ho. destruct Ho as (Hf & _). split; [done|].
    by destruct (acquire_inv q det priv sh Hi Hf) as (-> & -> & -> & _). }
  split; [split; [apply (i_free _ _ _ _ Hi)|intros Hown; by apply Hno]|]. split; [intros Hown; by apply Hno|].
  split.
  - intros Hown. rewrite Hown in Ho. destruct Ho as (-> & -> & _).
    pose proof (i_sure _ _ _ _ Hi ltac:(by rewrite Hown)) as Hne. cbn in Hne.
    pose proof (i_shared _ _ _ _ Hi) as Hs. destruct sh as [|t sh]; [done|]. destruct Hs as [-> _].
    apply (shared_is_task _ _ _ _ t Hi). left.
  - intros t Hown Hinc. rewrite Hown in Ho. destruct Ho as (Hne & Hc & _).
    destruct det as [|x d]; [done|]. destruct Hc as [<- Hc].
    apply shared_chain_not_idle in Hc as [_ Hc]; [|intros y Hy; apply (i_tasks _ _ _ _ Hi); mem].
    unfold link in Hc. destruct (pushers q !! t) as [[|old]|]; eauto; congruence.
Qed.

(** A task is pushed, which acquires the queue, while the push of another one has
    not made its last step; the owner waits for it, moves it to the private queue
    and returns the first task. *)
Definition w_queue : queue :=
  return_last 64 (walk 64 (move_next 128 64 FREE (move_private 128 64 (walk 128 (push_store 128 64
    (walk 128 (detach (pull_private true (push_exchange 128 (push_store 64 FREE (push_exchange 64
      (push_mark 128 (push_mark 64 (set_next 128 INIT (set_next 64 INIT newQueue))))))))))))))).

Lemma w_execution : execution step newQueue [EPush 64; EPush 128; EPull (Some 64)] w_queue.
Proof.
  unfold w_queue.
  last_step [EPush 64; EPush 128] ltac:(eapply s_last).
  last_step [EPush 64; EPush 128] ltac:(eapply s_walk).
  last_step [EPush 64; EPush 128] ltac:(eapply s_move_next).
  last_step [EPush 64; EPush 128] ltac:(eapply s_move_private).
  last_step [EPush 64; EPush 128] ltac:(eapply s_walk).
  last_step [EPush 64; EPush 128] ltac:(eapply s_store).
  last_step [EPush 64; EPush 128] ltac:(eapply s_walk).
  last_step [EPush 64; EPush 128] ltac:(eapply (s_detach _ true)).
  last_step [EPush 64; EPush 128] ltac:(eapply s_pull).
  last_step [EPush 64] ltac:(eapply s_exchange).
  last_step [EPush 64] ltac:(eapply s_store).
  last_step (@nil event) ltac:(eapply s_exchange).
  last_step (@nil event) ltac:(eapply s_mark).
  last_step (@nil event) ltac:(eapply s_mark).
  last_step (@nil event) ltac:(eapply s_use).
  last_step (@nil event) ltac:(eapply s_use).
  apply x_refl.
Qed.

Lemma tasklet_queue_linearizable_witness :
  ∃ l, replay effect [EPush 64; EPush 128; EPull (Some 64)] [] = Some l ∧ owner w_queue = Ready false.
Proof.
  destruct (tasklet_queue_linearizable _ w_queue w_execution) as (l & Hr & _).
  exists l. split; [exact Hr|reflexivity].
Defined.

End Tasklets.
