(* ===== verification/Places.v ===== *)
(** * Places: tasks for one hardware thread

    Models async/monitor-common/async/Place.hh and Place.cc with the kernel entry
    of boot/kernel-main/boot/kernel.cc: a place has a queue of tasks and one of
    urgent tasks, which other hardware threads fill; the sender that finds a queue
    free wakes the hardware thread up with an interrupt.

    The two queues are those of TaskletQueue.v by their contract: an operation on a
    queue is one step.  It is shown that no task is left behind when a hardware
    thread leaves the kernel. *)

From stdpp Require Import base tactics numbers list gmap relations.
From Stdlib Require Import ZArith Lia.
From S2P Require Import Prelude.

Module Places.

(** ** Queues by their contract *)

(** Whether the queue is acquired, and its tasks. *)
Record taskQueue := mkTasks { locked : bool; tasks : list Z }.

(** [push] returns whether the queue was free. *)
Definition q_push (t : Z) (q : taskQueue) : bool * taskQueue :=
  (negb (locked q), mkTasks true (tasks q ++ [t])).
Definition q_pushPrivate (t : Z) (q : taskQueue) : taskQueue := mkTasks (locked q) (t :: tasks q).
Definition q_pull (q : taskQueue) : option Z * taskQueue :=
  (head (tasks q), mkTasks true (tail (tasks q))).
Definition q_tryAcquire (q : taskQueue) : bool * taskQueue :=
  (negb (locked q), mkTasks true (tasks q)).
Definition q_tryRelease (q : taskQueue) : bool * taskQueue :=
  if locked q && bool_decide (tasks q = []) then (true, mkTasks false []) else (false, q).

(** A free queue is empty. *)
Definition queue_ok (q : taskQueue) : Prop := locked q = false → tasks q = [].

Lemma q_tryRelease_spec q :
  queue_ok q → let '(ok, q') := q_tryRelease q in queue_ok q' ∧ (ok = true → locked q' = false).
Proof. unfold q_tryRelease. by destruct (locked q && _). Qed.

(** ** Places *)

(** Where the hardware thread is: outside of the kernel, in [enterKernel], or at
    an access of [processTasks]. *)
Inductive position :=
  | Outside | EnterQueue | EnterSync | PullSync | Pull | Release | ReleaseSync | Leave.

(** [Place], with the number of senders that are between an operation on a queue
    and its consequence, and whether an interrupt is pending,
    async/monitor-common/async/Place.hh:128-141 *)
Record place := mkPlace {
  queue : taskQueue; queueSync : taskQueue; nestingMonitor : bool;
  pos : position; wakers : nat; preempters : nat; interrupt : bool }.

Definition with_queue (q : taskQueue) (p : place) : place :=
  mkPlace q (queueSync p) (nestingMonitor p) (pos p) (wakers p) (preempters p) (interrupt p).
Definition with_sync (q : taskQueue) (p : place) : place :=
  mkPlace (queue p) q (nestingMonitor p) (pos p) (wakers p) (preempters p) (interrupt p).
Definition at_pos (o : position) (p : place) : place :=
  mkPlace (queue p) (queueSync p) (nestingMonitor p) o (wakers p) (preempters p) (interrupt p).
Definition with_monitor (b : bool) (p : place) : place :=
  mkPlace (queue p) (queueSync p) b (pos p) (wakers p) (preempters p) (interrupt p).
Definition add_waker (b : bool) (p : place) : place :=
  mkPlace (queue p) (queueSync p) (nestingMonitor p) (pos p) (Nat.b2n b + wakers p) (preempters p) (interrupt p).
Definition add_preempter (b : bool) (p : place) : place :=
  mkPlace (queue p) (queueSync p) (nestingMonitor p) (pos p) (wakers p) (Nat.b2n b + preempters p) (interrupt p).

(** [Place::pushShared], async/monitor-common/async/Place.hh:73-77 *)
Definition pushShared (t : Z) (p : place) : place :=
  let '(first, q) := q_push t (queue p) in add_waker first (with_queue q p).

(** [Place::pushSync], async/monitor-common/async/Place.hh:79-83 *)
Definition pushSync (t : Z) (p : place) : place :=
  let '(first, q) := q_push t (queueSync p) in add_preempter first (with_sync q p).

(** [Place::preempt] of a sender, async/monitor-common/async/Place.hh:94-100 *)
Definition preempt (p : place) : place :=
  let '(free, q) := q_tryAcquire (queue p) in
  add_waker free (mkPlace q (queueSync p) (nestingMonitor p) (pos p) (wakers p) (pred (preempters p)) (interrupt p)).

(** [Place::wakeup], async/monitor-common/async/Place.hh:125 *)
Definition wakeup (p : place) : place :=
  mkPlace (queue p) (queueSync p) (nestingMonitor p) (pos p) (pred (wakers p)) (preempters p) true.

(** The hardware thread enters the kernel: by the interrupt that is pending, or by
    a system call, a trap or another interrupt,
    boot/kernel-main/boot/kernel.cc:148-172 *)
Definition enter (byInterrupt : bool) (p : place) : place :=
  mkPlace (queue p) (queueSync p) (nestingMonitor p) EnterQueue (wakers p) (preempters p)
    (interrupt p && negb byInterrupt).

(** The two accesses of [Place::enterKernel],
    async/monitor-common/async/Place.hh:86-91 *)
Definition enterKernel_queue (p : place) : place :=
  at_pos EnterSync (with_queue (q_tryAcquire (queue p)).2 p).
Definition enterKernel_sync (p : place) : place :=
  at_pos PullSync (with_monitor true (with_sync (q_tryAcquire (queueSync p)).2 p)).

(** [Place::processSyncTasks]: one iteration,
    async/monitor-common/async/Place.cc:46-53 *)
Definition processSyncTasks (p : place) : place :=
  let '(msg, q) := q_pull (queueSync p) in
  at_pos (match msg with Some _ => PullSync | None => Pull end) (with_sync q p).

(** The pull of [Place::processTasks],
    async/monitor-common/async/Place.cc:61-62 *)
Definition process_pull (p : place) : place :=
  let '(msg, q) := q_pull (queue p) in
  at_pos (match msg with Some _ => PullSync | None => Release end) (with_queue q p).

(** The release of the queue, async/monitor-common/async/Place.cc:63-67 *)
Definition process_release (p : place) : place :=
  let '(ok, q) := q_tryRelease (queue p) in
  at_pos (if ok then ReleaseSync else PullSync) (with_queue q p).

(** The release of the urgent queue, async/monitor-common/async/Place.cc:67-68 *)
Definition process_releaseSync (p : place) : place :=
  let '(ok, q) := q_tryRelease (queueSync p) in
  at_pos (if ok then Leave else PullSync) (with_sync q p).

(** The end of [Place::processTasks], async/monitor-common/async/Place.cc:69-70 *)
Definition leave (p : place) : place := at_pos Outside (with_monitor false p).

(** [Place::runLocal] of a task that is processed,
    async/monitor-common/async/Place.hh:58-66 *)
Definition runLocal (t : Z) (p : place) : place := with_queue (q_pushPrivate t (queue p)) p.

(** [Place::init], async/monitor-common/async/Place.cc:35-44 *)
Definition init : place :=
  mkPlace (q_tryAcquire (mkTasks false [])).2 (q_tryAcquire (mkTasks false [])).2 true PullSync 0 0 false.

Inductive step : place → place → Prop :=
  | s_pushShared t p : step p (pushShared t p)
  | s_pushSync t p : step p (pushSync t p)
  | s_preempt p : preempters p ≠ 0%nat → step p (preempt p)
  | s_wakeup p : wakers p ≠ 0%nat → step p (wakeup p)
  | s_enter b p : pos p = Outside → (b = true → interrupt p = true) → step p (enter b p)
  | s_enterKernel_queue p : pos p = EnterQueue → step p (enterKernel_queue p)
  | s_enterKernel_sync p : pos p = EnterSync → step p (enterKernel_sync p)
  | s_processSyncTasks p : pos p = PullSync → step p (processSyncTasks p)
  | s_process_pull p : pos p = Pull → step p (process_pull p)
  | s_runLocal t p : pos p = PullSync → step p (runLocal t p)
  | s_process_release p : pos p = Release → step p (process_release p)
  | s_process_releaseSync p : pos p = ReleaseSync → step p (process_releaseSync p)
  | s_leave p : pos p = Leave → step p (leave p).

(** ** The invariant *)

(** The hardware thread will get an interrupt. *)
Definition alerted (p : place) : Prop := interrupt p = true ∨ wakers p ≠ 0%nat.

(** While the hardware thread does not process tasks, a queue that is not free has
    somebody who wakes the hardware thread up. *)
Definition place_inv (p : place) : Prop :=
  queue_ok (queueSync p) ∧
  match pos p with
  | PullSync | Pull => True
  | EnterQueue | EnterSync | Release => queue_ok (queue p)
  | ReleaseSync => queue_ok (queue p) ∧ (locked (queue p) = true → alerted p)
  | Leave | Outside =>
      queue_ok (queue p) ∧ (locked (queue p) = true → alerted p) ∧
      (locked (queueSync p) = true → preempters p ≠ 0%nat ∨ alerted p)
  end.

(** Splits an invariant goal by the position of the hardware thread. *)
Local Ltac by_position := unfold place_inv, alerted, queue_ok in *; cbn in *; intuition (congruence || lia || auto).

Lemma pushShared_inv t p : place_inv p → place_inv (pushShared t p).
Proof. unfold pushShared, q_push. destruct p as [[[] l] qs nm [] w pr i]; by_position. Qed.

Lemma pushSync_inv t p : place_inv p → place_inv (pushSync t p).
Proof. unfold pushSync, q_push. destruct p as [q [[] l] nm [] w pr i]; by_position. Qed.

Lemma preempt_inv p : place_inv p → place_inv (preempt p).
Proof. unfold preempt, q_tryAcquire. destruct p as [[[] l] qs nm [] w pr i]; by_position. Qed.

Lemma wakeup_inv p : place_inv p → place_inv (wakeup p).
Proof. destruct p as [q qs nm [] w pr i]; by_position. Qed.

Lemma step_place_inv p p' : place_inv p → step p p' → place_inv p'.
Proof.
  intros Hi Hs. destruct Hs as [t p|t p|p _|p _|b p Hp _|p Hp|p Hp|p Hp|p Hp|t p Hp|p Hp|p Hp|p Hp];
    [by apply pushShared_inv|by apply pushSync_inv|by apply preempt_inv|by apply wakeup_inv|..];
    destruct p as [q qs nm o w pr i]; cbn in Hp; subst o.
  - by_position.
  - by_position.
  - by_position.
  - unfold processSyncTasks, q_pull. cbn. destruct (head (tasks qs)); by_position.
  - unfold process_pull, q_pull. cbn. destruct (head (tasks q)); by_position.
  - by_position.
  - destruct Hi as [Hs Hq]. pose proof (q_tryRelease_spec q Hq) as Hr. unfold process_release. cbn.
    destruct (q_tryRelease q) as [[] q']; by_position.
  - destruct Hi as [Hs Hq]. pose proof (q_tryRelease_spec qs Hs) as Hr. unfold process_releaseSync. cbn.
    destruct (q_tryRelease qs) as [[] q']; by_position.
  - by_position.
Qed.

(** C9: no task is left behind at a place.  In every interleaving of senders of
    tasks and urgent tasks with the hardware thread: when the hardware thread is
    outside of the kernel, no interrupt is pending and no sender is about to send
    one, both queues are empty. *)
Theorem place_no_task_left p :
  rtc step init p → pos p = Outside → interrupt p = false → wakers p = 0%nat → preempters p = 0%nat →
  tasks (queue p) = [] ∧ tasks (queueSync p) = [].
Proof.
  intros Hr Hp Hi Hw Hpr.
  assert (Hinv : place_inv p).
  { assert (H0 : place_inv init) by by_position.
    clear Hp Hi Hw Hpr. induction Hr as [|p1 p2 p3 Hs Hr IH]; eauto using step_place_inv. }
  unfold place_inv, alerted in Hinv. rewrite Hp in Hinv. destruct Hinv as (Hs & Hq & Hql & Hsl).
  split; [apply Hq|apply Hs]; apply not_true_is_false; intros Hl.
  - destruct (Hql Hl); congruence.
  - destruct (Hsl Hl) as [?|[?|?]]; congruence.
Qed.

(** The hardware thread leaves the kernel, an urgent task arrives, the sender
    acquires the queue and sends the interrupt, and the task is processed. *)
Definition w_idle (p : place) : place :=
  leave (process_releaseSync (process_release (process_pull (processSyncTasks p)))).
Definition w_place : place :=
  w_idle (processSyncTasks (enterKernel_sync (enterKernel_queue (enter true
    (wakeup (preempt (pushSync 64 (w_idle init)))))))).

Lemma w_place_reachable : rtc step init w_place.
Proof.
  unfold w_place, w_idle.
  eapply rtc_l; [apply s_processSyncTasks; reflexivity|]. eapply rtc_l; [apply s_process_pull; reflexivity|].
  eapply rtc_l; [apply s_process_release; reflexivity|]. eapply rtc_l; [apply s_process_releaseSync; reflexivity|].
  eapply rtc_l; [apply s_leave; reflexivity|]. eapply rtc_l; [apply (s_pushSync 64)|].
  eapply rtc_l; [apply s_preempt; discriminate|]. eapply rtc_l; [apply s_wakeup; discriminate|].
  eapply rtc_l; [apply (s_enter true); reflexivity|]. eapply rtc_l; [apply s_enterKernel_queue; reflexivity|].
  eapply rtc_l; [apply s_enterKernel_sync; reflexivity|].
  eapply rtc_l; [apply s_processSyncTasks; reflexivity|].
  eapply rtc_l; [apply s_processSyncTasks; reflexivity|]. eapply rtc_l; [apply s_process_pull; reflexivity|].
  eapply rtc_l; [apply s_process_release; reflexivity|]. eapply rtc_l; [apply s_process_releaseSync; reflexivity|].
  eapply rtc_l; [apply s_leave; reflexivity|]. apply rtc_refl.
Qed.

Lemma place_no_task_left_witness : tasks (queue w_place) = [] ∧ tasks (queueSync w_place) = [].
Proof. apply (place_no_task_left w_place w_place_reachable); reflexivity. Defined.

End Places.
