(* ===== verification/Monitors.v ===== *)
(** * Monitors

    Models the monitors of async: DeletionMonitor.hh, which deletes an object after
    its last user has left (Module [Deletion]), NestedMonitorDelegating, which runs
    the requests of a kernel object one after the other ([Nested]), and
    MutexDelegating, whose owner runs the critical sections of the threads that wait
    ([Delegated]).

    The accesses to atomic variables and the operations on the queue of requests,
    which is that of TaskletQueue.v by its contract, are single steps. *)

From stdpp Require Import base tactics numbers list gmap relations.
From Stdlib Require Import ZArith Lia.
From S2P Require Import Prelude TaskletQueue Places.

(** ** Deletion *)

Module Deletion.

(** Where the thread is that deletes the object. *)
Inductive position := NotStarted | Counted | TaskSet | Unused | Finished.

(** [DeletionMonitor], with the number of references that are held, the threads
    that have released the last reference and not yet looked for the delete task,
    and how often the task was scheduled,
    async/monitor-common/async/DeletionMonitor.hh:62-63 *)
Record monitor := mkMonitor {
  refcount : nat; deleteTask : bool; deleting : position;
  refs : nat; releasing : nat; scheduled : nat }.

(** [DeletionMonitor::acquireRef], async/monitor-common/async/DeletionMonitor.hh:41 *)
Definition acquireRef (m : monitor) : monitor :=
  mkMonitor (S (refcount m)) (deleteTask m) (deleting m) (S (refs m)) (releasing m) (scheduled m).

(** [DeletionMonitor::releaseRef]: the decrement,
    async/monitor-common/async/DeletionMonitor.hh:43-44 *)
Definition releaseRef_count (m : monitor) : monitor :=
  mkMonitor (pred (refcount m)) (deleteTask m) (deleting m) (pred (refs m))
    (if pred (refcount m) =? 0 then S (releasing m) else releasing m) (scheduled m).

(** The test for the delete task, async/monitor-common/async/DeletionMonitor.hh:45-48 *)
Definition releaseRef_test (m : monitor) : monitor :=
  mkMonitor (refcount m) (deleteTask m) (deleting m) (refs m) (pred (releasing m))
    (if deleteTask m then S (scheduled m) else scheduled m).

(** [DeletionMonitor::doDelete]: the four accesses,
    async/monitor-common/async/DeletionMonitor.hh:52-53 *)
Definition doDelete_count (m : monitor) : monitor :=
  mkMonitor (S (refcount m)) (deleteTask m) Counted (refs m) (releasing m) (scheduled m).

(** async/monitor-common/async/DeletionMonitor.hh:54 *)
Definition doDelete_set (m : monitor) : monitor :=
  mkMonitor (refcount m) true TaskSet (refs m) (releasing m) (scheduled m).

(** async/monitor-common/async/DeletionMonitor.hh:55 *)
Definition doDelete_drop (m : monitor) : monitor :=
  mkMonitor (pred (refcount m)) (deleteTask m) (if pred (refcount m) =? 0 then Unused else Finished)
    (refs m) (releasing m) (scheduled m).

(** async/monitor-common/async/DeletionMonitor.hh:56-58 *)
Definition doDelete_push (m : monitor) : monitor :=
  mkMonitor (refcount m) (deleteTask m) Finished (refs m) (releasing m) (S (scheduled m)).

(** The steps.  With [quiet], the deletion starts when no thread is in the middle
    of a release, and no reference is taken afterwards. *)
Inductive step (quiet : bool) : monitor → monitor → Prop :=
  | s_acquire m : (quiet = true → deleting m = NotStarted) → step quiet m (acquireRef m)
  | s_release m : refs m ≠ 0 → step quiet m (releaseRef_count m)
  | s_test m : releasing m ≠ 0 → step quiet m (releaseRef_test m)
  | s_count m : deleting m = NotStarted → (quiet = true → releasing m = 0) → step quiet m (doDelete_count m)
  | s_set m : deleting m = Counted → step quiet m (doDelete_set m)
  | s_drop m : deleting m = TaskSet → step quiet m (doDelete_drop m)
  | s_push m : deleting m = Unused → step quiet m (doDelete_push m).

(** async/monitor-common/async/DeletionMonitor.hh:39 *)
Definition newMonitor : monitor := mkMonitor 0 false NotStarted 0 0 0.

Definition own_ref (p : position) : nat := match p with Counted | TaskSet => 1 | _ => 0 end.
Definition task_set (p : position) : bool :=
  match p with NotStarted | Counted => false | _ => true end.

Definition monitor_inv (m : monitor) : Prop :=
  refcount m = refs m + own_ref (deleting m) ∧ deleteTask m = task_set (deleting m) ∧
  (deleting m = Finished → refs m = 0 → releasing m + scheduled m ≠ 0).

(** With a quiet start, the counter reaches zero once. *)
Definition once_inv (m : monitor) : Prop :=
  match deleting m with
  | NotStarted => scheduled m = 0
  | Counted | TaskSet => releasing m + scheduled m = 0
  | Unused => releasing m + scheduled m = 0 ∧ refs m = 0
  | Finished => releasing m + scheduled m = if refs m =? 0 then 1 else 0
  end.

Lemma monitor_step quiet m m' : monitor_inv m → step quiet m m' → monitor_inv m'.
Proof.
  intros Hi Hs. destruct Hs; destruct m as [rc dt p r rl sc]; unfold monitor_inv in *; cbn in *;
    try (subst p; cbn in * ); destruct Hi as (-> & -> & Hf);
    repeat match goal with |- context [?x =? 0] => destruct (Nat.eqb_spec x 0) end;
    cbn in *; split_and!; intros; try lia; try done.
  all: destruct p; cbn in *; try done; try lia.
Qed.

Lemma once_step m m' : monitor_inv m → once_inv m → step true m m' → once_inv m'.
Proof.
  intros Hi Ho Hs. destruct Hs; destruct m as [rc dt p r rl sc]; unfold monitor_inv, once_inv in *; cbn in *;
    try (subst p; cbn in * ); destruct Hi as (-> & -> & Hf).
  - by rewrite (H eq_refl) in *.
  - destruct p; cbn in *; repeat case_match; repeat match goal with
      | H : (_ =? _) = true |- _ => apply Nat.eqb_eq in H
      | H : (_ =? _) = false |- _ => apply Nat.eqb_neq in H end; lia.
  - destruct p; cbn in *; repeat case_match; lia.
  - specialize (H0 eq_refl). lia.
  - lia.
  - destruct (Nat.eqb_spec (pred (r + 1)) 0); [|destruct (Nat.eqb_spec r 0)]; lia.
  - destruct Ho as [Ho ->]. cbn. lia.
Qed.

Lemma reach_inv quiet m : rtc (step quiet) newMonitor m → monitor_inv m ∧ (quiet = true → once_inv m).
Proof.
  intros Hr. assert (H0 : monitor_inv newMonitor ∧ (quiet = true → once_inv newMonitor)) by done.
  revert H0. induction Hr as [|m1 m2 m3 Hs Hr IH]; [done|]. intros [Hi Ho]. apply IH.
  split; [by eapply monitor_step|]. intros ->. by eapply once_step; eauto.
Qed.

(** The deletion of an object is not lost, and not early.  In every
    interleaving, when the deletion was requested, all references are released and
    no thread is in the middle of it, the delete task was scheduled; if in
    addition the deletion started while no thread was in the middle of a release
    and no reference was taken afterwards, it was scheduled exactly once, and
    never while references were held. *)
Theorem deletion_scheduled quiet m :
  rtc (step quiet) newMonitor m → deleting m = Finished → releasing m = 0 →
  (refs m = 0 → scheduled m ≠ 0) ∧
  (quiet = true → scheduled m = if refs m =? 0 then 1 else 0).
Proof.
  intros Hr Hd Hrl. destruct (reach_inv quiet m Hr) as [(_ & _ & Hf) Ho]. split.
  - intros Hz. specialize (Hf Hd Hz). lia.
  - intros Hq. specialize (Ho Hq). unfold once_inv in Ho. rewrite Hd, Hrl in Ho. done.
Qed.

Definition w_monitor : monitor :=
  releaseRef_test (releaseRef_count (doDelete_drop (doDelete_set (doDelete_count (acquireRef newMonitor))))).

Lemma w_monitor_reachable : rtc (step true) newMonitor w_monitor.
Proof.
  eapply rtc_l; [by apply s_acquire|]. eapply rtc_l; [by apply s_count|]. eapply rtc_l; [by apply s_set|].
  eapply rtc_l; [by apply s_drop|]. eapply rtc_l; [by apply s_release|]. eapply rtc_l; [by apply s_test|].
  apply rtc_refl.
Qed.

Lemma deletion_scheduled_witness : refs w_monitor = 0 ∧ scheduled w_monitor = 1.
Proof.
  split; [reflexivity|]. exact (proj2 (deletion_scheduled true w_monitor w_monitor_reachable eq_refl eq_refl) eq_refl).
Defined.

(** The deletion of an object can be scheduled twice.  A thread that releases
    the last reference and is delayed before it looks for the delete task finds
    the task that was set and scheduled in the meantime, and schedules it again. *)
Theorem deletion_twice :
  ∃ m, rtc (step false) newMonitor m ∧ deleting m = Finished ∧ refs m = 0 ∧ scheduled m = 2.
Proof.
  exists (releaseRef_test (doDelete_push (doDelete_drop (doDelete_set (doDelete_count
            (releaseRef_count (acquireRef newMonitor))))))).
  split; [|done].
  eapply rtc_l; [by apply s_acquire|]. eapply rtc_l; [by apply s_release|]. eapply rtc_l; [by apply s_count|].
  eapply rtc_l; [by apply s_set|]. eapply rtc_l; [by apply s_drop|]. eapply rtc_l; [by apply s_push|].
  eapply rtc_l; [by apply s_test|]. apply rtc_refl.
Qed.

End Deletion.

(** ** Requests to a kernel object *)

Module Nested.
Import Places.

(** Who owns the queue of requests and where it is in [request] or
    [requestDone]; [Failed] when an assertion fails. *)
Inductive owner :=
  | Nobody
  | Acquired (h : Z) | Counted (h : Z) | Homed (h : Z)
  | Running (h t : Z)
  | Pulling (h : Z) | Releasing (h : Z) | Retry (h : Z)
  | Failed.

#[local] Instance owner_eq_dec : EqDecision owner.
Proof. solve_decision. Defined.

(** [NestedMonitorDelegating] with its reference count.  Further: the places that
    have released the queue and not yet reset [home], how many of them have not
    released their reference, all requests and those that were started,
    async/nested-monitor-delegating/async/NestedMonitorDelegating.hh:63-66 *)
Record nestedMonitor := mkMonitor {
  waitq : taskQueue; home : option Z; who : owner; refcount : nat;
  leaving : list Z; left : nat; requested : list Z; served : list Z }.

Definition with_who (o : owner) (m : nestedMonitor) : nestedMonitor :=
  mkMonitor (waitq m) (home m) o (refcount m) (leaving m) (left m) (requested m) (served m).
Definition with_waitq (q : taskQueue) (m : nestedMonitor) : nestedMonitor :=
  mkMonitor q (home m) (who m) (refcount m) (leaving m) (left m) (requested m) (served m).
Definition serve (t : Z) (m : nestedMonitor) : nestedMonitor :=
  mkMonitor (waitq m) (home m) (who m) (refcount m) (leaving m) (left m) (requested m) (served m ++ [t]).

(** [NestedMonitorDelegating::request] at the place [h]: the push,
    async/nested-monitor-delegating/async/NestedMonitorDelegating.cc:33-35 *)
Definition request (h t : Z) (m : nestedMonitor) : nestedMonitor :=
  let '(first, q) := q_push t (waitq m) in
  mkMonitor q (home m) (if first then Acquired h else who m) (refcount m) (leaving m) (left m)
    (requested m ++ [t]) (served m).

(** async/nested-monitor-delegating/async/NestedMonitorDelegating.cc:36-36 *)
Definition request_count (h : Z) (m : nestedMonitor) : nestedMonitor :=
  mkMonitor (waitq m) (home m) (Counted h) (S (refcount m)) (leaving m) (left m) (requested m) (served m).

(** async/nested-monitor-delegating/async/NestedMonitorDelegating.cc:37-39 *)
Definition request_home (h : Z) (m : nestedMonitor) : nestedMonitor :=
  mkMonitor (waitq m) (Some h) (Homed h) (refcount m) (leaving m) (left m) (requested m) (served m).

(** The pull and the start of the task, or the failed assertion,
    async/nested-monitor-delegating/async/NestedMonitorDelegating.cc:40-44 *)
Definition request_pull (h : Z) (m : nestedMonitor) : nestedMonitor :=
  let '(tsk, q) := q_pull (waitq m) in
  match tsk with
  | Some t => with_who (Running h t) (serve t (with_waitq q m))
  | None => with_who Failed (with_waitq q m)
  end.

(** [NestedMonitorDelegating::requestDone] at the place [h]: the assertion,
    async/nested-monitor-delegating/async/NestedMonitorDelegating.cc:46-48 *)
Definition requestDone (h : Z) (m : nestedMonitor) : nestedMonitor :=
  with_who (if bool_decide (home m = Some h) then Pulling h else Failed) m.

(** async/nested-monitor-delegating/async/NestedMonitorDelegating.cc:49-53 *)
Definition requestDone_pull (h : Z) (m : nestedMonitor) : nestedMonitor :=
  let '(tsk, q) := q_pull (waitq m) in
  match tsk with
  | Some t => with_who (Running h t) (serve t (with_waitq q m))
  | None => with_who (Releasing h) (with_waitq q m)
  end.

(** The test of [tryRelease],
    async/nested-monitor-delegating/async/NestedMonitorDelegating.cc:54-54 *)
Definition requestDone_release (h : Z) (m : nestedMonitor) : nestedMonitor :=
  let '(ok, q) := q_tryRelease (waitq m) in
  if ok then mkMonitor q (home m) Nobody (refcount m) (h :: leaving m) (left m) (requested m) (served m)
  else with_who (Retry h) (with_waitq q m).

(** The reset of [home] unless another place has set it,
    async/nested-monitor-delegating/async/NestedMonitorDelegating.cc:55-55 *)
Definition reset_home (h : Z) (m : nestedMonitor) : nestedMonitor :=
  mkMonitor (waitq m) (if bool_decide (home m = Some h) then None else home m) (who m) (refcount m)
    (filter (.≠ h) (leaving m)) (S (left m)) (requested m) (served m).

(** async/nested-monitor-delegating/async/NestedMonitorDelegating.cc:56-56 *)
Definition release_ref (m : nestedMonitor) : nestedMonitor :=
  mkMonitor (waitq m) (home m) (who m) (pred (refcount m)) (leaving m) (pred (left m)) (requested m) (served m).

(** async/nested-monitor-delegating/async/NestedMonitorDelegating.cc:57-63 *)
Definition requestDone_retry (h : Z) (m : nestedMonitor) : nestedMonitor :=
  let '(tsk, q) := q_pull (waitq m) in
  match tsk with
  | Some t => with_who (Running h t) (serve t (with_waitq q m))
  | None => with_who Failed (with_waitq q m)
  end.

(** A place that still has to reset [home] executes that before it makes another
    request.  The handler of a request calls [requestDone] at the place that runs
    it. *)
Inductive step : nestedMonitor → nestedMonitor → Prop :=
  | s_request h t m : h ∉ leaving m → step m (request h t m)
  | s_request_count h m : who m = Acquired h → step m (request_count h m)
  | s_request_home h m : who m = Counted h → step m (request_home h m)
  | s_request_pull h m : who m = Homed h → step m (request_pull h m)
  | s_requestDone h t m : who m = Running h t → step m (requestDone h m)
  | s_requestDone_pull h m : who m = Pulling h → step m (requestDone_pull h m)
  | s_requestDone_release h m : who m = Releasing h → step m (requestDone_release h m)
  | s_requestDone_retry h m : who m = Retry h → step m (requestDone_retry h m)
  | s_reset_home h m : h ∈ leaving m → step m (reset_home h m)
  | s_release_ref m : left m ≠ 0%nat → step m (release_ref m).

Definition newMonitor : nestedMonitor := mkMonitor (mkTasks false []) None Nobody 0 [] 0 [] [].

(** *** The invariant *)

Definition place_of (o : owner) : option Z :=
  match o with
  | Nobody | Failed => None
  | Acquired h | Counted h | Homed h | Running h _ | Pulling h | Releasing h | Retry h => Some h
  end.

(** The owner has stored its place; it holds a reference; its pull will succeed. *)
Definition homed (o : owner) : bool :=
  match o with Nobody | Acquired _ | Counted _ | Failed => false | _ => true end.
Definition counted (o : owner) : nat := match o with Nobody | Acquired _ | Failed => 0 | _ => 1 end.
Definition certain (o : owner) : bool :=
  match o with Acquired _ | Counted _ | Homed _ | Retry _ => true | _ => false end.

Record monitor_inv (m : nestedMonitor) : Prop := {
  i_locked : locked (waitq m) = bool_decide (who m ≠ Nobody);
  i_queue : queue_ok (waitq m);
  i_sound : who m ≠ Failed;
  i_certain : certain (who m) = true → tasks (waitq m) ≠ [];
  i_home : homed (who m) = true → home m = place_of (who m);
  i_leaving : ∀ h, place_of (who m) = Some h → h ∉ leaving m;
  i_nodup : NoDup (leaving m);
  i_refs : refcount m = (counted (who m) + length (leaving m) + left m)%nat;
  i_order : requested m = served m ++ tasks (waitq m)
}.

Lemma newMonitor_inv : monitor_inv newMonitor.
Proof. by split; cbn; intros; try constructor. Qed.

(** A pull that succeeds starts the next request in order. *)
Lemma pulled_inv h t q m :
  monitor_inv m → place_of (who m) = Some h → counted (who m) = 1%nat → homed (who m) = true →
  tasks (waitq m) = t :: q →
  monitor_inv (with_who (Running h t) (serve t (with_waitq (mkTasks true q) m))).
Proof.
  intros [Hl Hq Hs Hc Hh Hlv Hn Hr Ho] Hp Hcount Hhm E.
  split; cbn; intros; try done; try congruence.
  - rewrite Hh by done. done.
  - apply Hlv. congruence.
  - lia.
  - by rewrite Ho, E, <- app_assoc.
Qed.


Lemma request_inv h t m : h ∉ leaving m → monitor_inv m → monitor_inv (request h t m).
Proof.
  intros Hh [Hl Hq Hs Hc Hhm Hlv Hn Hr Ho]. unfold request, q_push.
  destruct (locked (waitq m)) eqn:El; cbn.
  - split; cbn; try done.
    + intros E. by destruct (tasks (waitq m)).
    + by rewrite Ho, <- app_assoc.
  - symmetry in Hl. rewrite bool_decide_eq_false in Hl. apply dec_stable in Hl. rewrite Hl in Hr.
    split; cbn; try done.
    + intros _ E. by destruct (tasks (waitq m)).
    + intros h' [= ->]. done.
    + by rewrite Ho, <- app_assoc.
Qed.

Lemma reset_home_inv h m : h ∈ leaving m → monitor_inv m → monitor_inv (reset_home h m).
Proof.
  intros Hh [Hl Hq Hs Hc Hhm Hlv Hn Hr Ho]. unfold reset_home. split; cbn; try done.
  - intros E. rewrite bool_decide_eq_false_2; [by apply Hhm|]. rewrite Hhm by done.
    intros Ep. by apply (Hlv h).
  - intros h' Ep. rewrite list_elem_of_filter. intros [_ Hi]. by apply (Hlv h').
  - by apply NoDup_filter.
  - rewrite Hr. enough (length (leaving m) = S (length (filter (.≠ h) (leaving m)))) by lia.
    by apply filter_one.
Qed.

Lemma released_inv h m :
  who m = Releasing h → monitor_inv m → monitor_inv (requestDone_release h m).
Proof.
  intros E [Hl Hq Hs Hc Hhm Hlv Hn Hr Ho]. rewrite E in *. cbn in *.
  unfold requestDone_release, q_tryRelease. rewrite Hl, bool_decide_eq_true_2 by done. cbn.
  destruct (bool_decide_reflect (tasks (waitq m) = [])) as [Et|Et]; cbn.
  - split; cbn; try done.
    + constructor; eauto.
    + by rewrite Ho, Et.
  - by split; cbn; rewrite ?Hl.
Qed.

Lemma nested_step_inv m m' : step m m' → monitor_inv m → monitor_inv m'.
Proof.
  intros [h t ? Hh|h ? E|h ? E|h ? E|h t ? E|h ? E|h ? E|h ? E|h ? Hh|? Hl] I; subst.
  - by apply request_inv.
  - destruct I. rewrite E in *. by split; cbn in *; eauto; lia.
  - destruct I. rewrite E in *. by split; cbn in *; eauto.
  - unfold request_pull, q_pull. pose proof (i_certain _ I) as Hc.
    destruct (tasks (waitq _)) as [|t q] eqn:Et; rewrite E in Hc; [by destruct Hc|].
    by apply pulled_inv; rewrite ?E.
  - unfold requestDone. pose proof (i_home _ I) as Hh. rewrite E in Hh.
    rewrite bool_decide_eq_true_2 by (by apply Hh).
    destruct I. rewrite E in *. by split; cbn in *; eauto.
  - unfold requestDone_pull, q_pull.
    destruct (tasks (waitq _)) as [|t q] eqn:Et; cbn; [|by apply pulled_inv; rewrite ?E].
    destruct I. rewrite E in *. split; cbn in *; rewrite <- ?Et; done || eauto.
  - by apply released_inv.
  - unfold requestDone_retry, q_pull. pose proof (i_certain _ I) as Hc.
    destruct (tasks (waitq _)) as [|t q] eqn:Et; rewrite E in Hc; [by destruct Hc|].
    by apply pulled_inv; rewrite ?E.
  - by apply reset_home_inv.
  - destruct I. split; cbn; eauto. lia.
Qed.

Lemma reachable_inv m : rtc step newMonitor m → monitor_inv m.
Proof.
  pose proof newMonitor_inv as H0. revert H0. generalize newMonitor. intros m0 H0 H.
  induction H; eauto using nested_step_inv.
Qed.

(** C11: the requests to a kernel object are served one after the other and in the
    order in which they were made, however the places interleave: no assertion of
    the monitor fails, every request that was made is started or waits in the
    queue, and a request waits only while the monitor is owned.  While a request
    runs, the monitor holds a reference to the object, and [home] is the place that
    runs it, so responses go there. *)
Theorem nested_monitor_serves m :
  rtc step newMonitor m →
  who m ≠ Failed ∧
  requested m = served m ++ tasks (waitq m) ∧
  (tasks (waitq m) ≠ [] → who m ≠ Nobody) ∧
  (∀ h t, who m = Running h t → home m = Some h ∧ (1 ≤ refcount m)%nat).
Proof.
  intros H. destruct (reachable_inv m H) as [Hl Hq Hs Hc Hhm Hlv Hn Hr Ho].
  split_and!; [done|done| |].
  - intros Ht Hw. apply Ht, Hq. by rewrite Hl, Hw.
  - intros h t E. rewrite E in *. split; [by apply Hhm|]. cbn in Hr. lia.
Qed.

(** Place 1 runs request 7, place 2 makes request 8 meanwhile; place 1 runs it
    afterwards and releases the monitor; place 2 acquires the monitor for request 9
    before place 1 resets [home]. *)
Lemma nested_monitor_serves_witness :
  ∃ m, rtc step newMonitor m ∧ who m = Running 2 9 ∧ served m = [7; 8; 9]%Z ∧ leaving m = [1]%Z ∧
       home m = Some 2%Z ∧ (1 ≤ refcount m)%nat.
Proof.
  assert (Hr : ∃ m, rtc step newMonitor m ∧ who m = Running 2 9 ∧ served m = [7; 8; 9]%Z ∧ leaving m = [1]%Z).
  { eexists. split.
    - eapply rtc_l; [apply (s_request 1 7); apply not_elem_of_nil|].
      eapply rtc_l; [apply (s_request_count 1); reflexivity|].
      eapply rtc_l; [apply (s_request_home 1); reflexivity|].
      eapply rtc_l; [apply (s_request_pull 1); reflexivity|].
      eapply rtc_l; [apply (s_request 2 8); apply not_elem_of_nil|].
      eapply rtc_l; [apply (s_requestDone 1 7); reflexivity|].
      eapply rtc_l; [apply (s_requestDone_pull 1); reflexivity|].
      eapply rtc_l; [apply (s_requestDone 1 8); reflexivity|].
      eapply rtc_l; [apply (s_requestDone_pull 1); reflexivity|].
      eapply rtc_l; [apply (s_requestDone_release 1); reflexivity|].
      eapply rtc_l; [apply (s_request 2 9); vm_compute; set_solver|].
      eapply rtc_l; [apply (s_request_count 2); reflexivity|].
      eapply rtc_l; [apply (s_request_home 2); reflexivity|].
      eapply rtc_l; [apply (s_request_pull 2); reflexivity|].
      apply rtc_refl.
    - vm_compute. done. }
  destruct Hr as (m & Hr & Hw & Hs & Hl). exists m.
  destruct (nested_monitor_serves m Hr) as (_ & _ & _ & Hrun). destruct (Hrun 2 9 Hw)%Z. auto 7.
Defined.

End Nested.

(** ** Critical sections that the owner of the mutex executes *)

Module Delegated.
Import Places.

(** The states of a tasklet that is not in a queue,
    async/monitor-common/async/Tasklet.hh:43-45 *)
Inductive chainable := UNUSED | INIT | INIT_HANDOVER.

(** [MutexDelegating::DoneFlags], async/mutex-delegating/async/MutexDelegating.hh:38-38 *)
Inductive doneFlags := PENDING | DONE | HANDOVER.

#[local] Instance chainable_eq_dec : EqDecision chainable.
Proof. solve_decision. Defined.
#[local] Instance doneFlags_eq_dec : EqDecision doneFlags.
Proof. solve_decision. Defined.

(** Where a thread is in [push], [process] or [wait]; [process] with its
    [handoverCount]. *)
Inductive phase := Processing (handoverCount : nat) | Releasing (handoverCount : nat) | Waiting.

#[local] Instance phase_eq_dec : EqDecision phase.
Proof. solve_decision. Defined.

(** [MutexDelegating] with the threads in [atomic], their position and flag, all
    critical sections and those that were executed, and whether an assertion failed
    or a flag was written whose thread had left.  The tasklet of a thread has the
    name of the thread, async/mutex-delegating/async/MutexDelegating.hh:67-69 *)
Record delegating := mkDelegating {
  queue : taskQueue; threads : gmap Z (phase * doneFlags);
  calls : list Z; executed : list Z; failed : bool }.

Definition with_tasks (q : taskQueue) (m : delegating) : delegating :=
  mkDelegating q (threads m) (calls m) (executed m) (failed m).
Definition at_phase (t : Z) (ph : phase) (m : delegating) : delegating :=
  mkDelegating (queue m) (alter (λ x, (ph, x.2)) t (threads m)) (calls m) (executed m) (failed m).

(** Whether the kernel is built without assertions. *)
Section Build.
Context (NDEBUG : bool).

(** [Chainable::setHandover] of a tasklet that was pulled,
    async/monitor-common/async/Tasklet.hh:63-63 *)
Definition setHandover (next : chainable) : chainable := INIT_HANDOVER.
(** [Chainable::isHandover], async/monitor-common/async/Tasklet.hh:62-62 *)
Definition isHandover (next : chainable) : bool := bool_decide (next = INIT_HANDOVER).

(** [Chainable::setUnused], async/monitor-common/async/Tasklet.hh:58-65 *)
Definition setUnused (next : chainable) : chainable := if NDEBUG then next else UNUSED.

(** [TaskletBase::run]: the state in which the handler finds the tasklet,
    async/monitor-common/async/Tasklet.hh:85-91 *)
Definition run (next : chainable) : chainable := setUnused next.

(** The handler of a critical section: what it stores into the flag,
    async/mutex-delegating/async/MutexDelegating.hh:49-53 *)
Definition handler (next : chainable) : doneFlags := if isHandover next then HANDOVER else DONE.

(** Executes the tasklet of the thread [x] with the given state. *)
Definition execute (x : Z) (next : chainable) (m : delegating) : delegating :=
  mkDelegating (queue m) (alter (λ p, (p.1, handler (run next))) x (threads m)) (calls m) (executed m ++ [x])
    (failed m || bool_decide (threads m !! x = None)).

(** [MutexDelegating::atomic] and [push] by the thread [t],
    async/mutex-delegating/async/MutexDelegating.cc:33-37 *)
Definition push (t : Z) (m : delegating) : delegating :=
  let '(first, q) := q_push t (queue m) in
  mkDelegating q (<[t := (if first then Processing 100 else Waiting, PENDING)]> (threads m))
    (calls m ++ [t]) (executed m) (failed m).

(** The end of [MutexDelegating::process] with its assertion,
    async/mutex-delegating/async/MutexDelegating.cc:58-59 *)
Definition process_end (t : Z) (m : delegating) : delegating :=
  mkDelegating (queue m) (delete t (threads m)) (calls m) (executed m)
    (failed m || bool_decide (snd <$> threads m !! t = Some PENDING)).

(** [MutexDelegating::process]: the pull and the execution,
    async/mutex-delegating/async/MutexDelegating.cc:42-52 *)
Definition process (t : Z) (handoverCount : nat) (m : delegating) : delegating :=
  let '(msg, q) := q_pull (queue m) in
  let m := with_tasks q m in
  match msg, handoverCount with
  | Some x, 0%nat => process_end t (execute x (setHandover INIT) m)
  | Some x, S n => at_phase t (Processing n) (execute x INIT m)
  | None, _ => at_phase t (Releasing handoverCount) m
  end.

(** async/mutex-delegating/async/MutexDelegating.cc:53-56 *)
Definition process_tryRelease (t : Z) (handoverCount : nat) (m : delegating) : delegating :=
  let '(ok, q) := q_tryRelease (queue m) in
  let m := with_tasks q m in
  if ok then process_end t m else at_phase t (Processing handoverCount) m.

(** [MutexDelegating::wait]: one iteration,
    async/mutex-delegating/async/MutexDelegating.cc:61-71 *)
Definition wait (t : Z) (done : doneFlags) (m : delegating) : delegating :=
  match done with
  | HANDOVER => at_phase t (Processing 100) m
  | DONE => mkDelegating (queue m) (delete t (threads m)) (calls m) (executed m) (failed m)
  | PENDING => m
  end.

(** The next access of the thread [t]. *)
Definition advance (t : Z) (m : delegating) : delegating :=
  match threads m !! t with
  | None => push t m
  | Some (Processing n, _) => process t n m
  | Some (Releasing n, _) => process_tryRelease t n m
  | Some (Waiting, done) => wait t done m
  end.

Definition step (m m' : delegating) : Prop := ∃ t, m' = advance t m.

End Build.

Definition newMutex : delegating := mkDelegating (mkTasks false []) ∅ [] [] false.

(** *** Release builds *)

(** The thread [h] processes the queue or is told to take over. *)
Record mutex_inv (h : option Z) (m : delegating) : Prop := {
  d_locked : locked (queue m) = bool_decide (h ≠ None);
  d_queue : queue_ok (queue m);
  d_holder : ∀ t ph f, threads m !! t = Some (ph, f) → (ph ≠ Waiting ∨ f = HANDOVER) ↔ h = Some t;
  d_there : ∀ t, h = Some t → threads m !! t ≠ None;
  d_pending : ∀ t, t ∈ tasks (queue m) ↔ ∃ ph, threads m !! t = Some (ph, PENDING);
  d_first : ∀ t ph, h = Some t → threads m !! t = Some (ph, PENDING) →
    ph = Processing 100 ∧ head (tasks (queue m)) = Some t;
  d_nodup : NoDup (tasks (queue m));
  d_order : calls m = executed m ++ tasks (queue m);
  d_failed : failed m = false
}.

Lemma newDelegating_inv : mutex_inv None newMutex.
Proof. split; cbn; try done; try constructor; set_solver. Qed.

Lemma push_keeps h t m :
  mutex_inv h m → threads m !! t = None → ∃ h', mutex_inv h' (push t m).
Proof.
  intros [Hl Hq Hh Ht Hp Hf Hn Ho Hd] Et.
  assert (Htask : t ∉ tasks (queue m)) by (rewrite Hp; intros [? ?]; congruence).
  assert (Hnew : ∀ u ph, u ∈ tasks (queue m) ++ [t] ↔
    ∃ ph', <[t := (ph, PENDING)]> (threads m) !! u = Some (ph', PENDING)).
  { intros u ph. rewrite elem_of_app, list_elem_of_singleton, Hp. destruct (decide (t = u)) as [->|Hu].
    - rewrite lookup_insert_eq. naive_solver.
    - rewrite lookup_insert_ne by done. naive_solver. }
  assert (Hnodup : NoDup (tasks (queue m) ++ [t])).
  { apply NoDup_app. split_and!; [done| |by apply NoDup_singleton]. set_solver. }
  unfold push, q_push. destruct h as [h|].
  - rewrite Hl, bool_decide_eq_true_2 by done. exists (Some h). split; cbn; try done.
    + intros u ph f. rewrite lookup_insert_Some. intros [[-> [= <- <-]]|[Hu E]]; [|by eapply Hh].
      split; [naive_solver|]. intros [= ->]. by destruct (Ht u).
    + intros u [= ->]. rewrite lookup_insert_None. intros [? _]. by apply (Ht u).
    + intros u ph [= ->]. rewrite lookup_insert_Some. intros [[-> _]|[Hu E]]; [by destruct (Ht u)|].
      destruct (Hf u ph eq_refl E) as [-> Hhd]. by destruct (tasks (queue m)).
    + by rewrite Ho, <- app_assoc.
  - rewrite Hl, bool_decide_eq_false_2 by naive_solver. exists (Some t).
    assert (Hnil : tasks (queue m) = []) by (apply Hq; rewrite Hl; by rewrite bool_decide_eq_false_2 by naive_solver).
    split; cbn; try done.
    + intros u ph f. rewrite lookup_insert_Some. intros [[-> [= <- <-]]|[Hu E]]; [naive_solver|].
      rewrite (Hh _ _ _ E). naive_solver.
    + intros u [= ->]. by rewrite lookup_insert_eq.
    + intros u ph [= ->]. rewrite lookup_insert_eq, Hnil. naive_solver.
    + by rewrite Ho, <- app_assoc.
Qed.

(** The thread that processes the queue is the holder, and a task that it finds is
    its own only at the first pull. *)
Lemma processing_holder h t ph f m :
  mutex_inv h m → threads m !! t = Some (ph, f) → ph ≠ Waiting → h = Some t.
Proof. intros I E Hp. apply (d_holder _ _ I t ph f); auto. Qed.

Lemma head_pending h x q m :
  mutex_inv h m → tasks (queue m) = x :: q → ∃ ph, threads m !! x = Some (ph, PENDING).
Proof. intros I E. apply (d_pending _ _ I). rewrite E. left. Qed.

(** A task is executed and the holder goes on. *)
Lemma execute_keeps t n n' f x q m :
  mutex_inv (Some t) m → threads m !! t = Some (Processing n, f) → tasks (queue m) = x :: q →
  mutex_inv (Some t) (at_phase t (Processing n') (execute true x INIT (with_tasks (mkTasks true q) m))).
Proof.
  intros I Et Eq. destruct (head_pending _ _ _ _ I Eq) as [px Ex].
  destruct I as [Hl Hq Hh Ht Hp Hf Hn Ho Hd]. rewrite Eq in *.
  apply NoDup_cons in Hn as [Hx Hn].
  split; cbn; rewrite ?Ex; try done.
  - intros u ph g. rewrite !lookup_alter. destruct (decide (t = u)) as [<-|Hu].
    + case_decide; subst; rewrite Et; naive_solver.
    + case_decide as Hxu; [subst u; rewrite Ex|apply Hh]. cbn. intros [= <- <-]. rewrite <- (Hh _ _ _ Ex). naive_solver.
  - intros u [= <-]. rewrite !lookup_alter, decide_True by done. case_decide; subst; by rewrite Et.
  - intros u. rewrite !lookup_alter. specialize (Hp u). rewrite elem_of_cons in Hp.
    destruct (decide (t = u)) as [<-|Hu]; case_decide as Hxu; subst.
    + rewrite Et in *. naive_solver.
    + rewrite Et in *. naive_solver.
    + rewrite Ex in *. naive_solver.
    + naive_solver.
  - intros u ph [= <-]. rewrite !lookup_alter, decide_True by done. case_decide as Hxu.
    + subst. rewrite Et. naive_solver.
    + rewrite Et. cbn. intros [= <- ->]. destruct (Hf t _ eq_refl Et) as [_ [= ->]]. done.
  - by rewrite Ho, <- app_assoc.
  - rewrite Hd. done.
Qed.

(** The holder executes a task, leaves, and the thread of the task takes over. *)
Lemma handover_keeps t f x q m :
  mutex_inv (Some t) m → threads m !! t = Some (Processing 0, f) → tasks (queue m) = x :: q →
  mutex_inv (Some x) (process_end t (execute true x (setHandover INIT) (with_tasks (mkTasks true q) m))).
Proof.
  intros I Et Eq. destruct (head_pending _ _ _ _ I Eq) as [px Ex].
  destruct I as [Hl Hq Hh Ht Hp Hf Hn Ho Hd]. rewrite Eq in *.
  apply NoDup_cons in Hn as [Hx Hn].
  assert (Hne : t ≠ x) by (intros <-; destruct (Hf t px eq_refl Ex); congruence).
  assert (Hfp : f ≠ PENDING) by (intros ->; destruct (Hf t _ eq_refl Et); congruence).
  split; cbn; rewrite ?Ex; try done.
  - intros u ph g. rewrite lookup_delete, !lookup_alter. case_decide as Hu; [done|].
    case_decide as Hxu; [subst u; rewrite Ex; cbn; naive_solver|].
    intros E. rewrite (Hh _ _ _ E). naive_solver.
  - intros u [= <-]. by rewrite lookup_delete_ne, lookup_alter, decide_True, Ex by done.
  - intros u. rewrite lookup_delete, !lookup_alter. specialize (Hp u). rewrite elem_of_cons in Hp.
    case_decide as Hu; [subst u; rewrite Et in *; naive_solver|].
    case_decide as Hxu; [subst u; rewrite Ex; naive_solver|naive_solver].
  - intros u ph [= <-]. rewrite lookup_delete_ne, lookup_alter, decide_True, Ex by done. naive_solver.
  - by rewrite Ho, <- app_assoc.
  - rewrite Hd, lookup_alter, decide_False, Et by done. cbn. by rewrite bool_decide_eq_false_2 by naive_solver.
Qed.

(** The holder moves to another access. *)
Lemma phase_keeps t ph ph' f m :
  mutex_inv (Some t) m → threads m !! t = Some (ph, f) → f ≠ PENDING → ph' ≠ Waiting →
  mutex_inv (Some t) (at_phase t ph' m).
Proof.
  intros [Hl Hq Hh Ht Hp Hf Hn Ho Hd] Et Hfp Hph.
  split; cbn; try done.
  - intros u ph0 g. rewrite lookup_alter. case_decide as Hu; [subst u; rewrite Et; naive_solver|apply Hh].
  - intros u [= <-]. by rewrite lookup_alter, decide_True, Et.
  - intros u. rewrite lookup_alter, Hp. case_decide as Hu; [subst u; rewrite Et; naive_solver|done].
  - intros u ph0 [= <-]. rewrite lookup_alter, decide_True, Et by done. naive_solver.
Qed.

Lemma none_pending h t ph f m :
  mutex_inv h m → threads m !! t = Some (ph, f) → tasks (queue m) = [] → f ≠ PENDING.
Proof.
  intros I Et Eq ->. apply (not_elem_of_nil t). rewrite <- Eq. apply (d_pending _ _ I). eauto.
Qed.

(** A thread that is done leaves; the mutex is free when it was the holder. *)
Lemma leave_keeps t ph f m :
  mutex_inv (Some t) m → threads m !! t = Some (ph, f) → tasks (queue m) = [] →
  mutex_inv None (process_end t (with_tasks (mkTasks false []) m)).
Proof.
  intros I Et Eq. pose proof (none_pending _ _ _ _ _ I Et Eq) as Hfp.
  destruct I as [Hl Hq Hh Ht Hp Hf Hn Ho Hd]. rewrite Eq in *.
  split; cbn; try done.
  - intros u ph0 g. rewrite lookup_delete. case_decide as Hu; [done|].
    intros E. rewrite (Hh _ _ _ E). naive_solver.
  - intros u. rewrite lookup_delete, Hp. case_decide as Hu; [subst u; rewrite Et; naive_solver|done].
  - rewrite Hd, Et. cbn. by rewrite bool_decide_eq_false_2 by naive_solver.
Qed.

Lemma wait_keeps h t f m :
  mutex_inv h m → threads m !! t = Some (Waiting, f) → mutex_inv h (wait t f m).
Proof.
  intros I Et. destruct f; cbn; [done| |].
  - assert (Hne : h ≠ Some t) by (rewrite <- (d_holder _ _ I _ _ _ Et); naive_solver).
    destruct I as [Hl Hq Hh Ht Hp Hf Hn Ho Hd]. split; cbn; try done.
    + intros u ph g. rewrite lookup_delete. case_decide as Hu; [done|apply Hh].
    + intros u Eh. rewrite lookup_delete_ne by congruence. by apply Ht.
    + intros u. rewrite lookup_delete, Hp. case_decide as Hu; [subst u; rewrite Et; naive_solver|done].
    + intros u ph Eh. rewrite lookup_delete_ne by congruence. by apply Hf.
  - assert (Eh : h = Some t) by (apply (d_holder _ _ I _ _ _ Et); auto). subst h.
    by eapply phase_keeps.
Qed.

Lemma process_keeps h t n f m :
  mutex_inv h m → threads m !! t = Some (Processing n, f) → ∃ h', mutex_inv h' (process true t n m).
Proof.
  intros I Et. assert (h = Some t) as -> by (by eapply processing_holder).
  unfold process, q_pull. destruct (tasks (queue m)) as [|x q] eqn:Eq; cbn.
  - exists (Some t). pose proof (none_pending _ _ _ _ _ I Et Eq) as Hfp.
    assert (with_tasks (mkTasks true []) m = m) as ->; [|by eapply phase_keeps].
    pose proof (d_locked _ _ I) as Hl. rewrite bool_decide_eq_true_2 in Hl by done.
    destruct m as [[l ts] th c e fl]. cbn in *. by subst.
  - destruct n as [|n]; [exists (Some x); by eapply handover_keeps|exists (Some t); by eapply execute_keeps].
Qed.

Lemma process_tryRelease_keeps h t n f m :
  mutex_inv h m → threads m !! t = Some (Releasing n, f) → ∃ h', mutex_inv h' (process_tryRelease t n m).
Proof.
  intros I Et. assert (h = Some t) as -> by (by eapply processing_holder).
  unfold process_tryRelease, q_tryRelease. rewrite (d_locked _ _ I), bool_decide_eq_true_2 by done. cbn.
  destruct (bool_decide_reflect (tasks (queue m) = [])) as [Eq|Eq].
  - exists None. by eapply leave_keeps.
  - exists (Some t). assert (with_tasks (queue m) m = m) as -> by (by destruct m).
    eapply phase_keeps; [done|done| |done]. intros ->.
    by destruct (d_first _ _ I t _ eq_refl Et).
Qed.

Lemma advance_keeps t h m : mutex_inv h m → ∃ h', mutex_inv h' (advance true t m).
Proof.
  intros I. unfold advance. destruct (threads m !! t) as [[[n|n|] f]|] eqn:Et.
  - by eapply process_keeps.
  - by eapply process_tryRelease_keeps.
  - exists h. by apply wait_keeps.
  - by eapply push_keeps.
Qed.

Lemma reachable_keeps m : rtc (step true) newMutex m → ∃ h, mutex_inv h m.
Proof.
  assert (H0 : ∃ h, mutex_inv h newMutex) by (exists None; apply newDelegating_inv). revert H0.
  generalize newMutex. intros m0 H0 H. induction H as [|m1 m2 m3 [t ->] _ IH]; [done|].
  destruct H0 as [h I]. apply IH. by eapply advance_keeps.
Qed.

(** The holder executes the first task of the queue by its next access or the one
    after that. *)
Lemma holder_executes h x q m :
  mutex_inv h m → tasks (queue m) = x :: q →
  ∃ t, h = Some t ∧ (executed (advance true t m) = executed m ++ [x] ∨
                     executed (advance true t (advance true t m)) = executed m ++ [x]).
Proof.
  intros I Eq. pose proof (d_queue _ _ I) as Hq. pose proof (d_locked _ _ I) as Hl.
  unfold queue_ok in Hq. rewrite Eq in Hq.
  destruct h as [t|]; [|rewrite bool_decide_eq_false_2 in Hl by naive_solver; by apply Hq in Hl].
  rewrite bool_decide_eq_true_2 in Hl by done.
  exists t. split; [done|]. pose proof (d_there _ _ I t eq_refl) as Ht.
  destruct (threads m !! t) as [[[n|n|] f]|] eqn:Et; [| | |done].
  - left. unfold advance, process, q_pull. rewrite Et, Eq. by destruct n.
  - right. unfold advance at 2. rewrite Et. unfold process_tryRelease, q_tryRelease.
    rewrite Hl, bool_decide_eq_false_2 by (by rewrite Eq). cbn.
    unfold advance, process, q_pull. cbn. rewrite lookup_alter, decide_True, Et by done. cbn.
    rewrite Eq. by destruct n.
  - right. unfold advance at 2. rewrite Et.
    destruct (proj2 (d_holder _ _ I _ _ _ Et) eq_refl) as [Hx| ->]; [done|]. cbn.
    unfold advance, process, q_pull. cbn. rewrite lookup_alter, decide_True, Et by done. cbn.
    by rewrite Eq.
Qed.

(** C12: the delegating mutex of a release build, for any number of threads that
    enter and leave it in any interleaving: critical sections are executed one
    after the other in the order of the calls, at most one thread executes them,
    no assertion fails and no flag is written after its thread has left.  Nothing
    is stuck: while a section waits there is a thread that executes the first one
    by its next access to the mutex or the one after that, also after the
    processing was handed over. *)
Theorem mutex_delegating_executes m :
  rtc (step true) newMutex m →
  failed m = false ∧ calls m = executed m ++ tasks (queue m) ∧
  (∀ t u n k f g, threads m !! t = Some (Processing n, f) → threads m !! u = Some (Processing k, g) → t = u) ∧
  (∀ x q, tasks (queue m) = x :: q → ∃ t, threads m !! t ≠ None ∧
     (executed (advance true t m) = executed m ++ [x] ∨
      executed (advance true t (advance true t m)) = executed m ++ [x])).
Proof.
  intros [h I]%reachable_keeps. split_and!; [apply I|apply I| |].
  - intros t u n k f g Et Eu. enough (Some t = Some u) by congruence.
    by rewrite <- (processing_holder _ _ _ _ _ I Et), (processing_holder _ _ _ _ _ I Eu).
  - intros x q Eq. destruct (holder_executes _ _ _ _ I Eq) as (t & -> & Hx).
    exists t. split; [by apply (d_there _ _ I)|done].
Qed.

(** *** Builds with assertions *)

(** Every thread waits and none is told to take over. *)
Definition abandoned (m : delegating) : Prop :=
  locked (queue m) = true ∧ map_Forall (λ _ x, x.1 = Waiting ∧ x.2 ≠ HANDOVER) (threads m).

#[local] Instance abandoned_dec m : Decision (abandoned m).
Proof. unfold abandoned. apply _. Defined.

Lemma abandoned_forever b m m' :
  rtc (step b) m m' → abandoned m → executed m' = executed m.
Proof.
  induction 1 as [|m1 m2 m3 [t ->] _ IH]; [done|]. intros [Hl Hw].
  enough (abandoned (advance b t m1) ∧ executed (advance b t m1) = executed m1) as [Ha <-] by auto.
  unfold advance. destruct (threads m1 !! t) as [[ph f]|] eqn:Et.
  - destruct (Hw _ _ Et) as [Hp Hf]. cbn in *. subst ph. destruct f; [done| |done].
    split; [|done]. split; [done|]. by apply map_Forall_delete.
  - split; [|done]. unfold push, q_push. rewrite Hl. split; [done|]. by apply map_Forall_insert_2.
Qed.

Definition run_threads (b : bool) (ts : list Z) (m : delegating) : delegating :=
  foldl (λ m t, advance b t m) m ts.

Lemma run_threads_reachable b ts m : rtc (step b) m (run_threads b ts m).
Proof.
  revert m. induction ts as [|t ts IH]; intros m; [apply rtc_refl|].
  eapply rtc_l; [by exists t|]. apply IH.
Qed.

(** In a build with assertions the delegating mutex can stop for good: the
    tasklet is marked as unused before its handler asks for the handover, so the
    thread that hands over after 100 sections leaves, but no thread takes over.
    The mutex stays locked, a critical section stays in the queue, and no section
    is ever executed again whatever the threads do. *)
Theorem mutex_delegating_stops :
  ∃ m, rtc (step false) newMutex m ∧ tasks (queue m) ≠ [] ∧
       ∀ m', rtc (step false) m m' → executed m' = executed m.
Proof.
  exists (run_threads false (seqZ 0 102 ++ replicate 101 0%Z) newMutex).
  split; [apply run_threads_reachable|]. split; [vm_compute; discriminate|].
  intros m' H. apply (abandoned_forever _ _ _ H).
  apply (bool_decide_eq_true_1 _). vm_compute. reflexivity.
Qed.

(** Thread 1 executes its section and that of thread 2; thread 3 waits. *)
Lemma mutex_delegating_executes_witness :
  let m := run_threads true [1; 2; 1; 1; 3]%Z newMutex in
  executed m = [1; 2]%Z ∧ failed m = false ∧
  ∃ t, threads m !! t ≠ None ∧
    (executed (advance true t m) = [1; 2; 3]%Z ∨ executed (advance true t (advance true t m)) = [1; 2; 3]%Z).
Proof.
  intros m. split; [vm_compute; reflexivity|].
  destruct (mutex_delegating_executes m (run_threads_reachable _ _ _)) as (Hf & _ & _ & Hx).
  split; [exact Hf|]. apply (Hx 3%Z []). vm_compute. reflexivity.
Defined.

End Delegated.
