(* ===== verification/System.v ===== *)
(** * The kernel objects together

    A state that holds capability entries, page tables, capability maps, threads,
    portals and signal listeners, and the objects of Threads.v, Portal.v and
    SignalListener.v connected the way the kernel connects them: references call
    the [bind] and [unbind] of the object they belong to, list handles lead to the
    event sources and signal sinks behind them, a portal invokes the object of the
    target capability, and that object replies to the portal.  The interfaces the
    other files are proved against are discharged here. *)

From stdpp Require Import base tactics numbers list gmap relations.
From Stdlib Require Import ZArith Lia.
From S2P Require Import Prelude Ranges Bitfield Cap CapEntry CapRing CapSteps CapOps Heap KernelMemory CapMap Frame PageTable PageMap LinkedList Threads Scheduling Portal SignalListener ThreadProps Processors.

Local Open Scope Z_scope.
Import PhysPtr FifoList.

(** ** State *)

(** The content of the invocation buffer of a portal. *)
Inductive Message :=
  | ToThread (r : Request)
  | ToPortal (bind : option (Z * Z * Z))
  | ToListener (r : ListenerRequest).

Record system := mkSystem {
  sy_entries : gmap Z CapEntry; sy_ptes : gmap Z Z; sy_orig : gmap Z Z;
  sy_threads : Threads LinkedList; sy_portals : PortalStore; sy_listeners : ListenerStore;
  sy_capmaps : gmap Z CapMap; sy_pagemaps : gmap Z PageMap; sy_aspm : gmap Z Z;
  sy_frames : gmap Z MemoryRegion.MemoryRegion; sy_messages : gmap Z Message }.

Definition set_sy_entries v s := mkSystem v (sy_ptes s) (sy_orig s) (sy_threads s) (sy_portals s)
  (sy_listeners s) (sy_capmaps s) (sy_pagemaps s) (sy_aspm s) (sy_frames s) (sy_messages s).
Definition set_sy_ptes v s := mkSystem (sy_entries s) v (sy_orig s) (sy_threads s) (sy_portals s)
  (sy_listeners s) (sy_capmaps s) (sy_pagemaps s) (sy_aspm s) (sy_frames s) (sy_messages s).
Definition set_sy_orig v s := mkSystem (sy_entries s) (sy_ptes s) v (sy_threads s) (sy_portals s)
  (sy_listeners s) (sy_capmaps s) (sy_pagemaps s) (sy_aspm s) (sy_frames s) (sy_messages s).
Definition set_sy_threads v s := mkSystem (sy_entries s) (sy_ptes s) (sy_orig s) v (sy_portals s)
  (sy_listeners s) (sy_capmaps s) (sy_pagemaps s) (sy_aspm s) (sy_frames s) (sy_messages s).
Definition set_sy_portals v s := mkSystem (sy_entries s) (sy_ptes s) (sy_orig s) (sy_threads s) v
  (sy_listeners s) (sy_capmaps s) (sy_pagemaps s) (sy_aspm s) (sy_frames s) (sy_messages s).
Definition set_sy_listeners v s := mkSystem (sy_entries s) (sy_ptes s) (sy_orig s) (sy_threads s)
  (sy_portals s) v (sy_capmaps s) (sy_pagemaps s) (sy_aspm s) (sy_frames s) (sy_messages s).

Local Ltac fields := intros; repeat match goal with s : system |- _ => destruct s end; reflexivity.

#[export] Instance system_entries : HasEntries system.
Proof. refine (Build_HasEntries system sy_entries set_sy_entries _ _ _); fields. Defined.

#[export] Instance system_tables : HasPageTables system.
Proof. refine (Build_HasPageTables system _ sy_ptes set_sy_ptes _ _ _ _ _); fields. Defined.

#[export] Instance system_maps : HasPageMaps system.
Proof.
  refine (Build_HasPageMaps system _ _ (λ s p, sy_pagemaps s !! p) (λ s p, sy_aspm s !! p)
    (λ s p, sy_frames s !! p) _ _ _ _ _ _); fields.
Defined.

#[export] Instance system_capmaps : HasCapMaps system :=
  {| capmap s p := sy_capmaps s !! p; caps_offset := 0x40 |}.

(** ** Addresses

    Objects are at multiples of 4096; the reference with number [k] of an object is
    [32 * k] bytes behind its start and has its entry at offset 8.  List handles
    are [4 * o] plus the kind of the object at [o]. *)

Definition ref_object (r : Z) : Z := r / 4096 * 4096.
Definition ref_kind (r : Z) : Z := r mod 4096 / 32.
Definition handle_object (h : Z) : Z := h / 4.
Definition handle_kind (h : Z) : Z := h mod 4.

#[export] Instance system_refs : HasRefs system.
Proof.
  refine (Build_HasRefs system _ (λ r, r + 8)
    (λ s r, default asEmpty (sy_orig s !! r)) (λ r v s, set_sy_orig (<[r := v]> (sy_orig s)) s) _ _ _).
  - intros r v s. cbn. by rewrite lookup_insert_eq.
  - intros r r' v s Hr. cbn. by rewrite lookup_insert_ne.
  - fields.
Defined.

#[export] Instance system_threads : HasThreads LinkedList system.
Proof. refine (Build_HasThreads LinkedList system _ _ sy_threads set_sy_threads _ _ _ _ _ _ _ _); fields. Defined.

#[export] Instance system_apart : ThreadsApart LinkedList system.
Proof. split; fields. Qed.

#[export] Instance system_portals : HasPortals LinkedList system.
Proof. refine (Build_HasPortals LinkedList system _ _ _ sy_portals set_sy_portals _ _ _ _ _ _ _); fields. Defined.

#[export] Instance system_listeners : HasListeners LinkedList system.
Proof. refine (Build_HasListeners LinkedList system _ _ _ sy_listeners set_sy_listeners _ _ _ _ _ _); fields. Defined.

#[export] Instance system_layout : ThreadLayout.
Proof.
  refine (Build_ThreadLayout (λ e, e + 32) (λ e, e + 64) (λ e, e + 96) (λ e, 4 * e + 1)
    handle_object _ _); intros e; unfold handle_object; [|lia].
  rewrite Z.mul_comm, Z.div_add_l by lia. change (1 / 4) with 0. lia.
Defined.

#[export] Instance system_portal_layout : PortalLayout.
Proof.
  refine (Build_PortalLayout (λ p, p + 128) (λ p, p + 160) (λ p, 4 * p + 2) handle_object _ _);
    intros p; unfold handle_object; [|lia].
  rewrite Z.mul_comm, Z.div_add_l by lia. change (2 / 4) with 0. lia.
Defined.

#[export] Instance system_listener_layout : ListenerLayout.
Proof.
  refine (Build_ListenerLayout (λ l, l + 192) (λ l, l + 224) (λ l, 4 * l) (λ l, 4 * l + 3) _).
  intros l. lia.
Defined.

(** ** Objects *)

(** [CapRef::binding] and [CapRef::unbinding]: the assertion, the cast of the
    object and the [bind] or [unbind] of the subject that overloading selects,
    objects/capability-utils/objects/CapRef.hh:118-126 *)
Definition on_object {A} (castObj : Z → kernel system (optional A))
    (f : optional A → kernel system unit) (c : Z) : kernel system unit :=
  kassert (isUsable c);;; obj <-- castObj (getPtr c);; f obj.

Definition any {A} (o : optional A) : optional Z :=
  match o with OK _ => OK 0 | THROW err => THROW err end.

#[export] Instance system_subjects : RefSubjects system := {|
  binding r subject c :=
    let k := ref_kind r in
    if k =? 1 then on_object castPageMap (λ _, bind_as subject) c
    else if k =? 2 then on_object castCapMap (λ _, kret tt) c
    else if k =? 3 then on_object castScheduler (λ _, bind_sched subject) c
    else if k =? 4 then on_object castFrame (λ o, bind_ib subject (any o)) c
    else if k =? 5 then on_object castSignalable (λ _, kret tt) c
    else if k =? 6 then on_object castSignalable (bind_source subject) c
    else on_object castSignalable (bind_sink subject) c;
  unbinding r subject c :=
    let k := ref_kind r in
    if k =? 1 then on_object castPageMap (λ _, unbind_as subject) c
    else if k =? 2 then on_object castCapMap (λ _, kret tt) c
    else if k =? 3 then on_object castScheduler (unbind_sched subject) c
    else if k =? 4 then on_object castFrame (λ _, unbind_ib subject) c
    else if k =? 5 then
      on_object castSignalable
        (λ o, match o with OK e => detachKEvent e (keventSinkHandle subject) | THROW _ => kret tt end) c
    else if k =? 6 then on_object castSignalable (unbind_source subject) c
    else on_object castSignalable (unbind_sink subject) c
|}.

(** The virtual methods of the object at [p]. *)
#[export] Instance system_objects : KernelObjects system := {|
  addressRange p e c := λ s,
    let range o c := match sy_frames s !! o with
                     | Some f => kret (MemoryRegion.addressRange f c)
                     | None => match sy_aspm s !! o with
                               | Some p => PageMap_addressRange p e c
                               | None => default_addressRange o e c
                               end
                     end in
    if ref_kind p =? 0 then range p c s
    else (obj <-- CapRef_cap p;; kassert (isUsable obj);;; range (getPtr obj) obj) s;
  mint := default_mint;
  deleteCap p e c := λ s,
    if negb (ref_kind p =? 0) then CapRef_deleteCap p e c s
    else if bool_decide (is_Some (ecs (sy_threads s) !! p)) then EC_deleteCap p c s
    else if bool_decide (is_Some (portals (sy_portals s) !! p)) then
      portal_deleteCap (kret true) p c s
    else if bool_decide (is_Some (listeners (sy_listeners s) !! p)) then listener_deleteCap p c s
    else Done (OK tt) s
|}.

(** ** Events, signals and invocations *)

#[export] Instance system_sources : KEventSources system := {|
  deliverKEvent h :=
    if handle_kind h =? 2 then portal_deliverKEvent (handle_portal h)
    else listener_deliverKEvent (handle_object h) |}.

#[export] Instance system_sinks : SignalSinks system := {|
  signalChanged h := listener_signalChanged (handle_object h) |}.

Lemma portal_handle_kind p : (handle_kind (keventSinkHandle p) =? 2) = true.
Proof.
  apply Z.eqb_eq. unfold handle_kind. cbn [keventSinkHandle system_portal_layout].
  by rewrite Z.add_comm, Z.mul_comm, Z.mod_add.
Qed.

(** A message is identified with the portal it comes from. *)
#[export] Instance system_invocations : Invocations system := {|
  replyResponse := portal_replyResponse;
  lookupEntry m ptr := portal_lookupEntry m ptr 32 false;
  writeDebugInfo self m := kret SUCCESS |}.

#[export] Instance system_invocables : Invocables system := {|
  invoke o self m := λ s,
    match sy_messages s !! m with
    | Some (ToThread r) =>
      if bool_decide (is_Some (ecs (sy_threads s) !! o)) then EC_invoke o self m r s else AssertFail
    | Some (ToPortal b) =>
      if bool_decide (is_Some (portals (sy_portals s) !! o)) then portal_invoke o m b s else AssertFail
    | Some (ToListener r) =>
      if bool_decide (is_Some (listeners (sy_listeners s) !! o)) then listener_invoke o self m r s
      else AssertFail
    | None => AssertFail
    end |}.

#[export] Instance system_send : Portals system := {|
  castPortal o := λ s,
    Done (if bool_decide (is_Some (portals (sy_portals s) !! o)) then OK o else THROW TYPE_MISMATCH) s;
  sendInvocation := portal_send |}.

(** ** An invocation from end to end *)

(** The invocation RESUME of the thread [f] through the portal [p] of the thread
    [e], from the call of the object on. *)
Lemma invoke_resume_run p v e c l f d self (s : system) :
  portals (pstore s) !! p = Some v → portalState v = INVOKING → owned_by s p e →
  ecs (threads s) !! e = Some c → contents (eventQueue c) l → keventSinkHandle p ∉ l →
  queues_ok (threads s) → ecs (threads s) !! f = Some d → f ≠ e →
  sy_messages s !! p = Some (ToThread Resume) →
  ∃ s' c', invoke f self p s = Done tt s' ∧
    ecs (threads s') = <[e := c']> (<[f := with_flags (Z.land (flags d) (inv_flags IS_TRAPPED)) d]> (ecs (threads s))) ∧
    contents (eventQueue c') (l ++ [keventSinkHandle p]) ∧ Z.testbit (flags c') 0 = false ∧
    pevents (pstore s') = pevents (pstore s) ++ released v ∧
    portals (pstore s') !! p = Some (replied SUCCESS v) ∧
    (isBlocked (flags d) = true → isBlocked (Z.land (flags d) (inv_flags IS_TRAPPED)) = false →
     ∀ a, scheduler_of s (threads s) f = Some a → queued (threads s') a (ec_handle f)).
Proof.
  intros Hp Hst Ho He Hq Hh Hqs Hf Hne Hm. unfold invoke, system_invocables. rewrite Hm.
  rewrite bool_decide_true by (eexists; exact Hf).
  unfold EC_invoke, EC_dispatch, invokeResume. rewrite bind_assoc.
  destruct (clearFlagsResume_run f IS_TRAPPED d s (threads s) Hf Hqs)
    as (t2 & Hr & Hecs & _ & _ & Hqs2 & Hsch).
  rewrite set_threads_id in Hr. rewrite (kbind_run _ _ _ _ _ Hr), bind_ret, decide_False by done.
  destruct (portal_reply_run p v e c l (OK tt) (set_threads t2 s))
    as (s' & c' & Hrep & Hecs' & Hq' & Hb & Hpe & Hp' & Hkeep);
    [done|done|done|by rewrite threads_set, Hecs, lookup_insert_ne|done|done|done|].
  rewrite decide_True by done. rewrite (kbind_run _ _ _ _ _ Hrep), <- (set_threads_id s').
  unfold emit. rewrite modify_run. eexists _, c'. split; [reflexivity|]. rewrite threads_set.
  cbn [ecs add_event]. rewrite Hecs', threads_set, Hecs. do 5 (split; [done|]).
  intros Hb1 Hb2 a Ha. rewrite Hb1, Hb2, Ha in Hsch. cbn [negb andb] in Hsch.
  apply (Hkeep a). rewrite threads_set. by apply queued_last_queued in Hsch.
Qed.


(** ** A running system

    One hardware thread, two threads that share it, two portals and a listener. *)

(** The queue with the given contents. *)
Definition queue_of (l : list Z) : LinkedList := foldl (λ q h, default q (push h q)) newList l.

Lemma queue_of_contents l :
  NoDup l → Forall (λ h, h ≠ 0) l → contents (queue_of l) l.
Proof.
  induction l as [|h l IH] using rev_ind; intros Hnd Hnz; [exact repr_new|].
  apply NoDup_app in Hnd as (Hnd & Hd & _). apply Forall_app in Hnz as (Hnz & Hh).
  apply Forall_cons in Hh as [Hh _].
  destruct (contents_push _ _ h (IH Hnd Hnz) Hh) as (q & Hq & Hc).
  - intros Hin. by apply (Hd h Hin), list_elem_of_singleton.
  - unfold queue_of. rewrite foldl_app. cbn. fold (queue_of l). cbn in Hq. by rewrite Hq.
Qed.

Definition obj (n : Z) : Z := KERNELMEM_ADDR + 4096 * n.
Definition w_ec1 : Z := obj 16.
Definition w_ec2 : Z := obj 17.
Definition w_sc : Z := obj 18.
Definition w_portal1 : Z := obj 19.
Definition w_portal2 : Z := obj 20.
Definition w_listener : Z := obj 21.
Definition w_pm : Z := obj 22.
Definition w_map : Z := obj 24.

Definition w_events2 : list Z := [keventSinkHandle w_portal1].

(** The first thread is trapped; the second one has waited for its portal, which
    has replied. *)
Definition w_thread1 : EC LinkedList :=
  mkEC (IS_TRAPPED + NOT_LOADED + NOT_RUNNING) TS_clear 11 0 (queue_of []) (queue_of []) 0.
Definition w_thread2 : EC LinkedList :=
  mkEC (IN_WAIT + NOT_LOADED + NOT_RUNNING) TS_clear 22 0 (queue_of w_events2) (queue_of []) 0.

Definition w_ready : list Z := [ec_handle w_ec1; ec_handle w_ec2].

Definition w_threads : Threads LinkedList :=
  mkThreads {[w_ec1 := w_thread1; w_ec2 := w_thread2]} {[w_sc := mkSC 1 (queue_of w_ready) 0]}
    {[1 := mkCpu 0 0 0 0 7]} 1 [].

Definition w_p1 : Portal := mkPortal 0 0 77 REPLYING SUCCESS (mkEntryRef 0 0) 0.
Definition w_sel : SC LinkedList := mkSC 1 (queue_of [ec_handle w_ec1]) (ec_handle w_ec2).
Definition original (o : Z) : Z := mkCap o 0 NOFLAG.

Definition w_p2 : Portal :=
  mkPortal 0 0 88 INVOKING SUCCESS (mkEntryRef (w_map + 0x70) w_map) (original w_ec1).

Definition w_state : system :=
  mkSystem {[w_map + 0x40 + 16 * 3 := mkEntry (original w_ec1) 0 0]} ∅
    {[ as_ref w_ec2 := asReference (original w_pm); sched_ref w_ec1 := asReference (original w_sc);
       cs_ref w_ec2 := asReference (original w_map);
       owner_ref w_portal2 := asReference (original w_ec2);
       sink_ref w_listener := asReference (original w_ec1) ]}
    w_threads
    (mkPortals {[w_portal1 := w_p1; w_portal2 := w_p2]} [])
    (mkListeners {[w_listener := mkListener false 0xF 0 99]} [])
    {[w_map := mkCapMap 5 27 0]} {[w_pm := mkPageMap 4 (obj 23) 0 0 0]} {[w_pm := w_pm]} ∅
    {[w_portal2 := ToThread Resume]}.

Lemma lookup_two {A} (i j k : Z) (x y z : A) :
  ({[i := x; j := y]} : gmap Z A) !! k = Some z → (k = i ∧ z = x) ∨ (k = j ∧ z = y).
Proof.
  rewrite lookup_insert_Some, lookup_singleton_Some. intros [(<- & <-)|(_ & <- & <-)]; auto.
Qed.

Lemma w_scs a sc :
  scs (threads w_state) !! a = Some sc → a = w_sc ∧ sc = mkSC 1 (queue_of w_ready) 0.
Proof.
  change (scs (threads w_state)) with ({[w_sc := mkSC 1 (queue_of w_ready) 0]} : gmap Z (SC LinkedList)).
  intros [<- <-]%lookup_singleton_Some. auto.
Qed.

Lemma w_ecs e c :
  ecs (threads w_state) !! e = Some c → (e = w_ec1 ∧ c = w_thread1) ∨ (e = w_ec2 ∧ c = w_thread2).
Proof. apply lookup_two. Qed.

Lemma w_cpus p cpu : cpus (threads w_state) !! p = Some cpu → p = 1 ∧ cpu = mkCpu 0 0 0 0 7.
Proof.
  change (cpus (threads w_state)) with ({[1 := mkCpu 0 0 0 0 7]} : gmap Z Cpu).
  intros [<- <-]%lookup_singleton_Some. auto.
Qed.

Lemma w_ready_contents : contents (queue_of w_ready) w_ready.
Proof. apply queue_of_contents; computes. Qed.

Lemma w_events2_contents : contents (queue_of w_events2) w_events2.
Proof. apply queue_of_contents; computes. Qed.

Lemma w_nil_contents : contents (queue_of []) [].
Proof. apply queue_of_contents; constructor. Qed.

Lemma w_queues_ok : queues_ok (threads w_state).
Proof. intros a sc [-> ->]%w_scs. exists w_ready. apply w_ready_contents. Qed.

Lemma w_loaded_ok : loaded_ok (threads w_state).
Proof.
  split; [|split].
  - split; reflexivity.
  - intros p cpu [-> ->]%w_cpus. split; [reflexivity|]. intros Hne. by destruct (Hne eq_refl).
  - intros e c [[-> ->]|[-> ->]]%w_ecs; (split; [reflexivity|]); intros Hne; by destruct (Hne eq_refl).
Qed.

(** The portal behind the event of the second thread delivers. *)
Lemma w_delivers : delivers w_state (keventSinkHandle w_portal1).
Proof.
  intros t. eexists _, _. split; [reflexivity|]. split; [reflexivity|].
  split; [intros r; reflexivity|split; reflexivity].
Qed.

Lemma w_schedulable h : h ∈ w_ready → schedulable w_state (threads w_state) h.
Proof.
  intros [->|[->|[]%elem_of_nil]%elem_of_cons]%elem_of_cons.
  - exists w_ec1, w_thread1, []. split; [reflexivity|]. split; [reflexivity|]. split; [by left|].
    split; [apply w_nil_contents|]. split; [constructor|]. intros Hb. discriminate Hb.
  - exists w_ec2, w_thread2, w_events2. split; [reflexivity|]. split; [reflexivity|]. split; [by left|].
    split; [apply w_events2_contents|]. split; [constructor; [apply w_delivers|constructor]|].
    intros _. exists (fromKernel (obj 23)), w_pm, (mkPageMap 4 (obj 23) 0 0 0).
    split; [reflexivity|]. split; [reflexivity|]. split; [reflexivity|]. split; reflexivity.
Qed.

(** ** The theorems of the other files in this system *)

Lemma tryRunUser_correct_witness :
  ∃ r s', tryRunUser 4 w_sc w_state = Done r s' ∧
          scheduled w_state (threads w_state) w_sc w_ready r s'.
Proof.
  apply (tryRunUser_correct 4 w_sc (mkSC 1 (queue_of w_ready) 0) w_ready (mkCpu 0 0 0 0 7) w_state
           w_loaded_ok).
  - discriminate.
  - reflexivity.
  - reflexivity.
  - reflexivity.
  - apply w_ready_contents.
  - apply Forall_forall. intros h. apply w_schedulable.
  - vm_compute. repeat constructor.
Defined.

Lemma clearFlagsResume_schedules_witness :
  ∃ s' t', clearFlagsResume w_ec1 IS_TRAPPED w_state = Done tt s' ∧ s' = set_threads t' w_state ∧
    queued_last (threads w_state) t' w_sc (ec_handle w_ec1).
Proof.
  destruct (clearFlagsResume_schedules w_ec1 IS_TRAPPED w_thread1 w_state)
    as (s' & t' & Hr & Hs & _ & _ & _ & Hq); [reflexivity|exact w_queues_ok|].
  exists s', t'. split; [exact Hr|]. split; [exact Hs|]. exact Hq.
Defined.

Lemma w_owned : owned_by w_state w_portal2 w_ec2.
Proof. split; reflexivity. Qed.

Lemma portal_reply_delivered_witness :
  ∃ s' c', portal_replyResponse w_portal2 (THROW NOT_IMPLEMENTED) w_state = Done tt s' ∧
    contents (eventQueue c') (w_events2 ++ [keventSinkHandle w_portal2]).
Proof.
  destruct (portal_reply_delivered w_portal2 w_p2 w_ec2 w_thread2 w_events2 (THROW NOT_IMPLEMENTED) w_state) as (s' & c' & Hr & _ & Hc & _);
    [reflexivity|reflexivity|exact w_owned|reflexivity|exact w_events2_contents| |exact w_queues_ok|].
  - computes.
  - exists s', c'. split; [exact Hr|exact Hc].
Defined.

(** The same system after the owner of the portal was deleted. *)
Definition w_ownerless : system := set_orig (owner_ref w_portal2) asEmpty w_state.

Lemma portal_reply_without_owner_witness :
  ∃ s' v', portal_replyResponse w_portal2 (OK tt) w_ownerless = Done tt s' ∧
    portals (pstore s') !! w_portal2 = Some v' ∧ portalState v' = REPLYING.
Proof.
  destruct (portal_reply_without_owner w_portal2 w_p2 (OK tt) w_ownerless) as (s' & v' & Hr & _ & Hp & Hs & _);
    [reflexivity..|].
  exists s', v'. split; [exact Hr|]. split; [exact Hp|exact Hs].
Defined.

Lemma portal_send_busy_witness :
  ∃ s1, portal_send w_portal2 0 3 5 w_state = Done (THROW PORTAL_NOT_OPEN) s1.
Proof.
  destruct (portal_send_busy w_portal2 w_p2 w_ec2 w_thread2 0 3 5
    (mkEntryRef (w_map + 0x70) w_map) (mkEntry (original w_ec1) 0 0) w_state) as (s1 & v1 & Hr & _);
    [reflexivity|reflexivity|exact w_owned|reflexivity|vm_compute; reflexivity|reflexivity|reflexivity
    |discriminate|].
  exists s1. exact Hr.
Defined.

Lemma w_listener_inv : listener_inv w_listener w_ec1 w_state (mkListener false 0xF 0 99).
Proof.
  split; [reflexivity|]. split; [exact w_queues_ok|]. split; [split; reflexivity|]. split; [reflexivity|].
  exists w_thread1, []. split; [reflexivity|]. split; [exact w_nil_contents|]. reflexivity.
Qed.


Lemma reset_all_keeps_witness :
  ∃ s' v', resetWithMask w_listener RESET_ALL w_state = Done tt s' ∧
    listener_inv w_listener w_ec1 s' v' ∧ _signal v' = 0.
Proof.
  apply (reset_all_keeps w_listener w_ec1 w_state (mkListener false 0xF 0 99) w_listener_inv).
  split; [discriminate|reflexivity].
Defined.

(** The same system with the second thread selected. *)
Definition w_selected : system :=
  set_threads (set_scs {[w_sc := w_sel]} w_threads) w_state.

Lemma unbind_forgets_current_witness :
  ∃ s' q l', SC_unbind w_sc (ec_handle w_ec1) w_selected = Done tt s' ∧
    scs (threads s') !! w_sc = Some (mkSC 1 q 0) ∧ contents q l' ∧ ec_handle w_ec2 ∉ l'.
Proof.
  destruct (unbind_forgets_current w_sc w_sel [ec_handle w_ec1] (mkCpu 0 0 0 0 7) w_ec2 w_ec1 w_selected)
    as (s' & q & l' & Hr & Hs & Hc & Hn & _);
    [reflexivity|apply queue_of_contents; computes|reflexivity|reflexivity|computes|discriminate|].
  exists s', q, l'. split; [exact Hr|]. split; [exact Hs|]. split; [exact Hc|exact Hn].
Defined.

(** The same system with an empty ready queue. *)
Definition w_idle : system :=
  set_threads (set_scs {[w_sc := mkSC 1 (queue_of []) 0]} w_threads) w_state.

Lemma processor_handed_out_twice_witness :
  ∃ s1 s2 p1 p2,
    SC_unbind w_sc (ec_handle w_ec1) w_idle = Done tt s1 ∧
    SC_unbind w_sc (ec_handle w_ec2) s1 = Done tt s2 ∧
    events (threads s2) = [IdleSC 7; IdleSC 7] ∧
    taken_back 7 SUCCESS w_allocator = Done tt p1 ∧ taken_back 7 SUCCESS p1 = Done tt p2 ∧
    ∃ p3 p4, lifo_alloc (procs p2) = Some (OK 7, p3) ∧ lifo_alloc p3 = Some (OK 7, p4).
Proof.
  refine (processor_handed_out_twice w_sc (mkSC 1 (queue_of []) 0) (mkCpu 0 0 0 0 7)
    (ec_handle w_ec1) (ec_handle w_ec2) w_idle w_allocator _ _ _ _ _ _);
    [discriminate|discriminate|reflexivity|apply queue_of_contents; computes|reflexivity|vm_compute; lia].
Defined.

(** The same system with the second thread loaded and a capability for the
    scheduler. *)
Definition w_loaded : system :=
  set_entries {[obj 25 := mkEntry (original w_sc) 0 0]}
    (set_threads (mkThreads {[w_ec1 := w_thread1; w_ec2 := with_flags IN_WAIT (with_place 1 w_thread2)]}
       (scs w_threads) {[1 := mkCpu w_ec2 w_ec2 22 0 7]} 1 []) w_state).

Lemma setSchedulingContext_half_loaded_witness :
  ∃ s', setSchedulingContext w_ec2 w_portal2 (OK (obj 25)) w_loaded = Done (THROW INHIBIT) s' ∧
    loadState w_ec2 (set_threads (set_local 1 (threads s')) s') = AssertFail.
Proof.
  destruct (setSchedulingContext_half_loaded w_ec2 w_portal2 (obj 25) (mkEntry (original w_sc) 0 0)
    (with_flags IN_WAIT (with_place 1 w_thread2)) w_loaded) as (s' & Hr & Hl);
    [reflexivity|discriminate|reflexivity|reflexivity|reflexivity|eexists; reflexivity|].
  exists s'. split; [exact Hr|]. apply (Hl 1). discriminate.
Defined.

(** The same system with the second portal open. *)
Definition w_open : system :=
  set_pstore (mkPortals {[w_portal2 := with_state OPEN w_p2]} []) w_state.


Module Registers.

(** Messages whose sender does not wait for the answer. *)
#[local] Instance quiet_invocations : Invocations system := {|
  replyResponse m r := kret tt; lookupEntry m ptr := kret (THROW NO_LOOKUP);
  writeDebugInfo self m := kret SUCCESS |}.

Lemma quiet_keeps e m : reply_keeps e m.
Proof. intros r s. exists s. split; [reflexivity|]. split; [reflexivity|]. auto. Qed.

Definition w_regs : Amd64Registers :=
  mkRegs 1 2 3 4 5 6 7 8 9 10 11 12 13 14 0x1000 0x2000 17 0x3000 0x4000 0 0 0.

Lemma registers_roundtrip_witness :
  ∃ s1 s2, invokeWriteRegisters w_ec1 7 false w_regs w_state = Done INHIBIT s1 ∧
    invokeReadRegisters w_ec1 8 true s1 = Done INHIBIT s2 ∧
    WroteRegisters 8 false (mkRegs 1 2 3 4 5 6 7 8 9 0 0 12 13 14 0x1000 0x2000 17 0x3000 0x4000 0 0 0)
      ∈ events (threads s2).
Proof.
  apply (registers_roundtrip w_ec1 7 8 w_thread1 w_regs true w_state
           (quiet_keeps _ _) (quiet_keeps _ _));
    [discriminate|discriminate|reflexivity|reflexivity|reflexivity|reflexivity|reflexivity].
Defined.

End Registers.

Import Waiting.

(** A thread starts to wait, an event comes after it has found the queue empty,
    and the sender has not yet cleared the flag. *)
Lemma no_lost_wakeup_witness :
  waiting (Nat.iter 1 sender_clear (mkWait (IN_WAIT + IS_WAITING) [5] InKernel 1)) = false.
Proof.
  apply (no_lost_wakeup (mkWait 0 [] Running 0) (mkWait (IN_WAIT + IS_WAITING) [5] InKernel 1));
    [reflexivity| |reflexivity|left; discriminate].
  eapply rtc_l; [apply (step_enter (mkWait 0 [] Running 0)); reflexivity|].
  eapply rtc_l; [apply step_check; reflexivity|].
  eapply rtc_l; [apply (step_attach _ 5)|]. apply rtc_refl.
Defined.
