(* ===== verification/Futex.v ===== *)
(** * Futexes of the user-space runtime

    Models runtime/cxx/runtime/futex.cc, on which the mutexes and condition
    variables of user programs rest, and the hash of util/fnv-1a that selects the
    queue of a futex.  A queue is a linked list of elements on the stacks of the
    waiting threads; its tail is the address of the pointer to write next, which is
    either the head of the queue or the [queueNext] field of an element.

    The part of an operation under the lock of its queue is one function from state
    to state.  The operations are shown to implement operations on sequences of
    waiters, and the threads that interleave them to neither lose a waiter nor touch
    the element of a thread that has left; requeueing to a futex with another queue
    is the exception that loses one. *)

From stdpp Require Import functions base tactics numbers list gmap relations.
From Stdlib Require Import ZArith Lia.
From S2P Require Import Prelude.

Local Open Scope Z_scope.

(** ** The hash *)

(** [fnv1a] for a [w]-bit type, util/fnv-1a/util/hash.hh:36-45 *)
Definition fnv1a (w base prime : Z) (buf : list Z) : Z :=
  foldl (λ hash it, wrap w (Z.lxor hash it * prime)) base buf.

(** [hash32], util/fnv-1a/util/hash.hh:50-53 *)
Definition hash32 (buf : list Z) : Z := fnv1a 32 2166136261 16777619 buf.

(** [hash16], util/fnv-1a/util/hash.hh:58-62 *)
Definition hash16 (buf : list Z) : Z :=
  let hash := hash32 buf in u16 (Z.lxor (Z.shiftr hash 16) hash).

(** [hash64], util/fnv-1a/util/hash.hh:67-70 *)
Definition hash64 (buf : list Z) : Z := fnv1a 64 14695981039346656037 2166136261 buf.

(** The bytes of an integer of [n] bytes in memory. *)
Definition object_bytes (n : Z) (v : Z) : list Z :=
  (λ i, Z.land (Z.shiftr v (8 * i)) 0xff) <$> seqZ 0 n.

(** [hash_futex], runtime/cxx/runtime/futex.cc:64-71 *)
Definition hash_futex (uaddr : Z) : Z := hash32 (object_bytes 8 uaddr) mod 256.

(** The multiplication by an odd number modulo [2 ^ w] can be undone. *)
Lemma fnv_step_inj w prime inv x y :
  0 ≤ w → wrap w (prime * inv) = 1 → fits w x → fits w y →
  wrap w (x * prime) = wrap w (y * prime) → x = y.
Proof.
  intros Hw Hinv Hx Hy He. rewrite <- (wrap_small w x Hx), <- (wrap_small w y Hy).
  assert (∀ z, wrap w z = wrap w (wrap w (z * prime) * inv)) as Hz; [|by rewrite Hz, He, <- Hz].
  intros z. unfold wrap in *. rewrite Z.mul_mod_idemp_l, <- Z.mul_assoc, <- Z.mul_mod_idemp_r by lia.
  by rewrite Hinv, Z.mul_1_r.
Qed.

Lemma lxor_fits w x y : 0 ≤ w → fits w x → fits w y → fits w (Z.lxor x y).
Proof.
  intros Hw Hx Hy. apply fits_bits; [done| |].
  - apply Z.lxor_nonneg. destruct Hx, Hy. tauto.
  - intros i Hi. by rewrite Z.lxor_spec, (fits_testbit w x), (fits_testbit w y).
Qed.

Section fnv.
Context (w base prime inv : Z) (Hw : 8 ≤ w) (Hinv : wrap w (prime * inv) = 1) (Hbase : fits w base).

Lemma byte_fits b : fits 8 b → fits w b.
Proof. unfold fits. pose proof (Z.pow_le_mono_r 2 8 w). lia. Qed.

Lemma fnv1a_fits buf : Forall (fits 8) buf → fits w (fnv1a w base prime buf).
Proof.
  intros _. induction buf as [|b buf _] using rev_ind; [done|].
  unfold fnv1a. rewrite foldl_app. cbn. apply wrap_fits. lia.
Qed.

(** The rest of the buffer keeps hashes apart. *)
Lemma fnv1a_tail buf : ∀ x y, Forall (fits 8) buf → fits w x → fits w y → x ≠ y →
  foldl (λ hash it, wrap w (Z.lxor hash it * prime)) x buf ≠
  foldl (λ hash it, wrap w (Z.lxor hash it * prime)) y buf.
Proof.
  induction buf as [|b buf IH]; intros x y; [done|]. intros [Hb Hbuf]%Forall_cons Hx Hy Hne. cbn.
  apply IH; [done|apply wrap_fits; lia|apply wrap_fits; lia|]. intros He.
  apply (fnv_step_inj w prime inv) in He; [|lia|done|apply lxor_fits; (lia || auto using byte_fits)..].
  apply Hne. rewrite <- (Z.lxor_0_r x), <- (Z.lxor_0_r y), <- (Z.lxor_nilpotent b), <- !Z.lxor_assoc. by rewrite He.
Qed.

Lemma fnv1a_one_byte pre x y post :
  Forall (fits 8) (pre ++ x :: post) → fits 8 y → x ≠ y →
  fnv1a w base prime (pre ++ x :: post) ≠ fnv1a w base prime (pre ++ y :: post).
Proof.
  intros [Hpre [Hx Hpost]%Forall_cons]%Forall_app Hy Hne. unfold fnv1a. rewrite !foldl_app. cbn.
  pose proof (fnv1a_fits pre Hpre) as Hh. unfold fnv1a in Hh.
  apply fnv1a_tail; [done|apply wrap_fits; lia|apply wrap_fits; lia|]. intros He.
  apply (fnv_step_inj w prime inv) in He; [|lia|done|apply lxor_fits; (lia || auto using byte_fits)..].
  apply Hne. set (h := foldl _ base pre) in *.
  rewrite <- (Z.lxor_0_l x), <- (Z.lxor_0_l y), <- (Z.lxor_nilpotent h), !Z.lxor_assoc. by rewrite He.
Qed.

End fnv.

(** Buffers that differ in one byte have different 32-bit hashes. *)
Theorem hash32_one_byte pre x y post :
  Forall (fits 8) (pre ++ x :: post) → fits 8 y → x ≠ y →
  hash32 (pre ++ x :: post) ≠ hash32 (pre ++ y :: post).
Proof. apply (fnv1a_one_byte 32 _ _ 899433627); [lia|vm_compute; reflexivity|split; vm_compute; congruence]. Qed.

(** ** State *)

Module Futex.

(** [FutexQueueElem], runtime/cxx/runtime/futex.cc:38-46 *)
Record FutexQueueElem := mkElem { ec : Z; uaddr : Z; queueNext : Z }.

(** The address of a pointer to an element: the [queueHead] of a queue or the
    [queueNext] of an element. *)
Inductive slot := Head (h : Z) | Next (e : Z).

#[global] Instance slot_eq_dec : EqDecision slot.
Proof. solve_decision. Defined.

(** [FutexQueue], runtime/cxx/runtime/futex.cc:48-53 *)
Record FutexQueue := mkQueue { queueHead : Z; queueTail : slot }.

(** The elements that exist, the queues, the words of the program at the addresses
    of futexes and the signals sent to threads. *)
Record futexes := mkF {
  elems : gmap Z FutexQueueElem; queues : gmap Z FutexQueue;
  words : gmap Z Z; signals : list Z }.

(** [queue], runtime/cxx/runtime/futex.cc:60 *)
Definition queue (s : futexes) (h : Z) : FutexQueue :=
  default (mkQueue 0 (Head h)) (queues s !! h).

(** The value of [queueNext] that marks an element as removed,
    runtime/cxx/runtime/futex.cc:163 *)
Definition REMOVED : Z := 1.

(** [EAGAIN] and [ENOSYS] of errno.h. *)
Definition EAGAIN : Z := 11.
Definition ENOSYS : Z := 38.

Definition set_elems (m : gmap Z FutexQueueElem) (s : futexes) : futexes :=
  mkF m (queues s) (words s) (signals s).
Definition set_queue (h : Z) (q : FutexQueue) (s : futexes) : futexes :=
  mkF (elems s) (<[h := q]> (queues s)) (words s) (signals s).
Definition set_words (m : gmap Z Z) (s : futexes) : futexes :=
  mkF (elems s) (queues s) m (signals s).
Definition with_next (n : Z) (e : FutexQueueElem) : FutexQueueElem := mkElem (ec e) (uaddr e) n.
Definition with_uaddr (a : Z) (e : FutexQueueElem) : FutexQueueElem := mkElem (ec e) a (queueNext e).

(** Access to an element; an element that no longer exists is undefined. *)
Definition get_elem (e : Z) : kernel futexes FutexQueueElem := λ s,
  match elems s !! e with Some x => Done x s | None => AssertFail end.
Definition put_elem (e : Z) (x : FutexQueueElem) : kernel futexes unit :=
  kmodify (λ s, set_elems (<[e := x]> (elems s)) s).

(** [curr->load()]. *)
Definition load (c : slot) : kernel futexes Z :=
  match c with
  | Head h => s <-- kget;; kret (queueHead (queue s h))
  | Next e => x <-- get_elem e;; kret (queueNext x)
  end.

(** [curr->store(v)]. *)
Definition store (c : slot) (v : Z) : kernel futexes unit :=
  match c with
  | Head h => kmodify (λ s, set_queue h (mkQueue v (queueTail (queue s h))) s)
  | Next e => x <-- get_elem e;; put_elem e (with_next v x)
  end.

Definition get_tail (h : Z) : kernel futexes slot := s <-- kget;; kret (queueTail (queue s h)).
Definition set_tail (h : Z) (t : slot) : kernel futexes unit :=
  kmodify (λ s, set_queue h (mkQueue (queueHead (queue s h)) t) s).

(** [syscall_signal], mythos/invocation/mythos/syscall.hh:103-108 *)
Definition syscall_signal (ec : Z) : kernel futexes unit :=
  kmodify (λ s, mkF (elems s) (queues s) (words s) (signals s ++ [ec])).

(** ** Operations *)

(** The lines that append an element, runtime/cxx/runtime/futex.cc:99-100 *)
Definition append (h qe : Z) : kernel futexes unit :=
  t <-- get_tail h;; store t qe;;; set_tail h (Next qe).

(** The lines that take out the element [curr] points to,
    runtime/cxx/runtime/futex.cc:153-161 *)
Definition take_out (h : Z) (curr : slot) : kernel futexes Z :=
  entry <-- load curr;;
  t <-- get_tail h;;
  (if decide (t = Next entry) then set_tail h curr else kret tt);;;
  n <-- load (Next entry);;
  store curr n;;;
  kret entry.

(** [futex_wait] until the thread suspends; the result is the error it returns at
    once, runtime/cxx/runtime/futex.cc:77-101 *)
Definition wait_enqueue (qe self ua val : Z) : kernel futexes (option Z) :=
  let hash := hash_futex ua in
  put_elem qe (mkElem self ua 0);;;
  s <-- kget;;
  if negb (val =? default 0 (words s !! ua)) then
    kput (set_elems (delete qe (elems s)) s);;; kret (Some (- EAGAIN))
  else append hash qe;;; kret None.

(** The test whether another thread removed the element,
    runtime/cxx/runtime/futex.cc:108 *)
Definition removed (qe : Z) : kernel futexes bool :=
  n <-- load (Next qe);; kret (n =? REMOVED).

(** The search for the own element, runtime/cxx/runtime/futex.cc:113-128 *)
Fixpoint wait_search (fuel : nat) (hash qe : Z) (curr : slot) : kernel futexes unit :=
  p <-- load curr;;
  if p =? 0 then kret tt
  else match fuel with
       | O => λ _, SpinsForever
       | S fuel =>
         r <-- removed qe;;
         kassert (negb r);;;
         if p =? qe then take_out hash curr;;; kret tt
         else wait_search fuel hash qe (Next p)
       end.

(** [futex_wait] under the lock after it was suspended,
    runtime/cxx/runtime/futex.cc:110-129 *)
Definition wait_locked (fuel : nat) (qe ua : Z) : kernel futexes unit :=
  let hash := hash_futex ua in
  r <-- removed qe;;
  if r then kret tt else wait_search fuel hash qe (Head hash).

(** The end of [futex_wait] and of the lifetime of its element,
    runtime/cxx/runtime/futex.cc:133-134 *)
Definition wait_return (qe : Z) : kernel futexes Z :=
  kmodify (λ s, set_elems (delete qe (elems s)) s);;; kret 0.

(** [futex_wait] after it was suspended, without interference,
    runtime/cxx/runtime/futex.cc:107-133 *)
Definition wait_leave (fuel : nat) (qe ua : Z) : kernel futexes Z :=
  r <-- removed qe;;
  (if r then kret tt else wait_locked fuel qe ua);;;
  wait_return qe.

(** The search for the next waiter on an address,
    runtime/cxx/runtime/futex.cc:145-149 *)
Fixpoint next_waiter (fuel : nat) (ua : Z) (curr : slot) : kernel futexes slot :=
  p <-- load curr;;
  if p =? 0 then kret curr
  else
    x <-- get_elem p;;
    if uaddr x =? ua then kret curr
    else match fuel with
         | O => λ _, SpinsForever
         | S fuel => next_waiter fuel ua (Next p)
         end.

(** Wakes up to [nr - i] waiters; the result tells where the search stopped and
    whether it reached the end of the queue,
    runtime/cxx/runtime/futex.cc:144-167 *)
Fixpoint wake_loop (fuel : nat) (h ua i nr : Z) (curr : slot) : kernel futexes (slot * bool) :=
  if i <? nr then
    match fuel with
    | O => λ _, SpinsForever
    | S fuel =>
      curr <-- next_waiter fuel ua curr;;
      p <-- load curr;;
      if p =? 0 then kret (curr, true)
      else
        entry <-- take_out h curr;;
        x <-- get_elem entry;;
        put_elem entry (with_next REMOVED x);;;
        syscall_signal (ec x);;;
        wake_loop fuel h ua (i + 1) nr curr
    end
  else kret (curr, false).

(** [futex_wake], runtime/cxx/runtime/futex.cc:136-170 *)
Definition futex_wake (fuel : nat) (ua nr_wake : Z) : kernel futexes Z :=
  let hash := hash_futex ua in
  wake_loop fuel hash ua 0 nr_wake (Head hash);;; kret 0.

(** Moves up to [nr - i] waiters, runtime/cxx/runtime/futex.cc:224-254 *)
Fixpoint requeue_loop (fuel : nat) (from to ua ua2 i nr : Z) (curr : slot) : kernel futexes unit :=
  if i <? nr then
    match fuel with
    | O => λ _, SpinsForever
    | S fuel =>
      curr <-- next_waiter fuel ua curr;;
      p <-- load curr;;
      if p =? 0 then kret tt
      else
        entry <-- take_out from curr;;
        store (Next entry) 0;;;
        x <-- get_elem entry;;
        put_elem entry (with_uaddr ua2 x);;;
        append to entry;;;
        requeue_loop fuel from to ua ua2 (i + 1) nr curr
    end
  else kret tt.

(** [futex_requeue], runtime/cxx/runtime/futex.cc:172-259 *)
Definition futex_requeue (fuel : nat) (ua ua2 val val2 : Z) : kernel futexes Z :=
  let hashFrom := hash_futex ua in
  r <-- wake_loop fuel hashFrom ua 0 val (Head hashFrom);;
  let '(curr, ended) := r in
  if (ended : bool) then kret 0
  else
    let hashTo := hash_futex ua2 in
    requeue_loop fuel hashFrom hashTo ua ua2 0 val2 curr;;; kret 0.

(** The operations of [do_futex], runtime/cxx/runtime/futex.hh:5-17 *)
Definition FUTEX_WAIT : Z := 0.
Definition FUTEX_WAKE : Z := 1.
Definition FUTEX_REQUEUE : Z := 3.
Definition FUTEX_WAIT_BITSET : Z := 9.
Definition FUTEX_WAKE_BITSET : Z := 10.
Definition FUTEX_WAIT_REQUEUE_PI : Z := 11.
Definition FUTEX_PRIVATE_FLAG : Z := 128.
Definition FUTEX_CLOCK_REALTIME : Z := 256.
Definition FUTEX_CMD_MASK : Z := Z.lnot (Z.lor FUTEX_PRIVATE_FLAG FUTEX_CLOCK_REALTIME).

(** What a call of [do_futex] leads to: the thread suspends in [futex_wait], or the
    call returns. *)
Inductive result := Suspends | Returns (r : Z).

(** The conversion of a 32-bit value to [int], for [nr_wake]. *)
Definition to_int (v : Z) : Z := if v <? 2 ^ 31 then v else v - 2 ^ 32.

(** [do_futex]; [qe] is the place of the element on the stack and [self] the thread,
    runtime/cxx/runtime/futex.cc:261-322 *)
Definition do_futex (fuel : nat) (qe self ua op val ua2 val2 : Z) : kernel futexes result :=
  let cmd := Z.land op FUTEX_CMD_MASK in
  if negb (Z.land op FUTEX_CLOCK_REALTIME =? 0)
     && negb (cmd =? FUTEX_WAIT) && negb (cmd =? FUTEX_WAIT_BITSET)
     && negb (cmd =? FUTEX_WAIT_REQUEUE_PI)
  then kret (Returns (- ENOSYS))
  else if (cmd =? FUTEX_WAIT) || (cmd =? FUTEX_WAIT_BITSET) then
    r <-- wait_enqueue qe self ua val;;
    kret (match r with Some e => Returns e | None => Suspends end)
  else if (cmd =? FUTEX_WAKE) || (cmd =? FUTEX_WAKE_BITSET) then
    r <-- futex_wake fuel ua (to_int val);; kret (Returns r)
  else if cmd =? FUTEX_REQUEUE then
    r <-- futex_requeue fuel ua ua2 val val2;; kret (Returns r)
  else kret (Returns (- ENOSYS)).

(** ** Queues as sequences *)

(** The pointer behind the elements [l] of a queue. *)
Definition behind (h : Z) (l : list Z) : slot :=
  match last l with None => Head h | Some e => Next e end.

Definition value (s : futexes) (c : slot) : option Z :=
  match c with
  | Head h => Some (queueHead (queue s h))
  | Next e => queueNext <$> elems s !! e
  end.

(** The queue [h] holds [l]: the pointer behind each prefix points to the next
    element. *)
Definition holds (s : futexes) (h : Z) (l : list Z) : Prop :=
  (∀ l1 l2, l = l1 ++ l2 → value s (behind h l1) = Some (hd 0 l2)) ∧
  queueTail (queue s h) = behind h l ∧ NoDup l ∧ 0 ∉ l.

(** What does not change while an element is in use. *)
Definition static (s : futexes) (x : Z) : option (Z * Z) := (λ e, (ec e, uaddr e)) <$> elems s !! x.

(** All queues; an element is in one queue at most, the one of its address. *)
Definition lists (s : futexes) (Q : Z → list Z) : Prop :=
  (∀ h, holds s h (Q h)) ∧
  (∀ h x, x ∈ Q h → ∃ p, static s x = Some p ∧ hash_futex p.2 = h).

Definition waits_on (s : futexes) (ua x : Z) : bool :=
  match static s x with Some p => p.2 =? ua | None => false end.

(** The first [n] elements that satisfy [P], and the others. *)
Fixpoint pick (P : Z → bool) (n : Z) (l : list Z) : list Z * list Z :=
  match l with
  | [] => ([], [])
  | x :: l => if (0 <? n) && P x
              then let '(t, r) := pick P (n - 1) l in (x :: t, r)
              else let '(t, r) := pick P n l in (t, x :: r)
  end.

Lemma behind_app h l1 l2 : l2 ≠ [] → behind h (l1 ++ l2) = behind h l2.
Proof. unfold behind. intros Hl. destruct l2 as [|y l2 _] using rev_ind; [done|]. by rewrite app_assoc, !last_snoc. Qed.

Lemma behind_snoc h l x : behind h (l ++ [x]) = Next x.
Proof. by rewrite behind_app. Qed.

Lemma behind_cons h x y l : behind h (x :: y :: l) = behind h (y :: l).
Proof. by apply (behind_app h [x]). Qed.

Lemma behind_in h l : behind h l = Head h ∧ l = [] ∨ ∃ e, e ∈ l ∧ behind h l = Next e.
Proof.
  destruct l as [|y l _] using rev_ind; [by left|]. right. exists y.
  rewrite behind_snoc. split; [set_solver | done].
Qed.

Lemma behind_out h l x : x ∉ l → Next x ≠ behind h l.
Proof. intros Hx E. destruct (behind_in h l) as [[E' _]|(e & He & E')]; congruence. Qed.

(** Different prefixes of a queue end in different pointers. *)
Lemma behind_inj h l1 m1 l2 m2 :
  NoDup (l1 ++ l2) → l1 ++ l2 = m1 ++ m2 → behind h l1 = behind h m1 → l1 = m1.
Proof.
  revert m1. induction l1 as [|x l1 IH]; intros [|y m1]; cbn [app]; [done| | |].
  - intros _ _ H. destruct (behind_in h (y :: m1)) as [[_ ?]|(e & _ & He)]; [done|].
    rewrite He in H. discriminate.
  - intros _ _ H. destruct (behind_in h (x :: l1)) as [[_ ?]|(e & _ & He)]; [done|].
    rewrite He in H. discriminate.
  - intros [Hx Hnd]%NoDup_cons [= -> Heq] Hb. f_equal.
    destruct l1 as [|x1 l1], m1 as [|y1 m1]; [done| | |].
    + destruct (behind_in h (y1 :: m1)) as [[_ ?]|(e & Hin & He)]; [done|].
      rewrite behind_cons, He in Hb. injection Hb as <-.
      cbn [app] in Heq, Hx. rewrite Heq in Hx. set_solver.
    + destruct (behind_in h (x1 :: l1)) as [[_ ?]|(e & Hin & He)]; [done|].
      rewrite behind_cons, He in Hb. injection Hb as ->.
      set_solver.
    + apply IH; [done..|]. by rewrite !behind_cons in Hb.
Qed.

(** *** Changes of one queue *)

Lemma holds_frame s s' h l :
  holds s h l → (∀ c, c = Head h ∨ (∃ e, e ∈ l ∧ c = Next e) → value s' c = value s c) →
  queueTail (queue s' h) = queueTail (queue s h) → holds s' h l.
Proof.
  intros (Hv & Ht & Hn & Hz) Hc Ht'. split; [|by rewrite Ht'].
  intros l1 l2 ->. rewrite Hc; [by apply Hv|].
  destruct (behind_in h l1) as [[-> _]|(e & He & ->)]; [by left|]. right. exists e. set_solver.
Qed.

Lemma holds_remove s s' h l1 x l2 :
  holds s h (l1 ++ x :: l2) →
  (∀ c, c ≠ behind h l1 → c ≠ Next x → value s' c = value s c) →
  value s' (behind h l1) = Some (hd 0 l2) →
  queueTail (queue s' h) = behind h (l1 ++ l2) → holds s' h (l1 ++ l2).
Proof.
  intros (Hv & Ht & Hn & Hz) Hc Hb Ht'. assert (NoDup (l1 ++ l2)) as Hn'.
  { apply NoDup_app in Hn as (? & ? & ?%NoDup_cons). apply NoDup_app. set_solver. }
  split; [|split; [done|split; [done|set_solver]]].
  intros m1 m2 Heq. destruct (decide (m1 = l1)) as [->|Hne].
  { apply app_inv_head in Heq as ->. done. }
  assert (behind h m1 ≠ behind h l1) as Hbne.
  { intros E. apply Hne. symmetry. by eapply behind_inj; [..|symmetry]. }
  apply app_eq_app in Heq as (k & [[-> ->]|[-> ->]]).
  - destruct k as [|y k]; [by rewrite app_nil_r in Hne|].
    rewrite Hc; [by rewrite (Hv m1 (y :: k ++ x :: l2)) by (by rewrite <- app_assoc)|done|].
    apply not_eq_sym, behind_out. apply NoDup_app in Hn. set_solver.
  - destruct k as [|y k]; [by rewrite app_nil_r in Hne|].
    rewrite Hc; [|done|].
    + rewrite behind_app by done. rewrite <- (behind_app h (l1 ++ [x]) (y :: k)) by done.
      apply Hv. by rewrite <- !app_assoc.
    + rewrite behind_app by done. apply not_eq_sym, behind_out.
      apply NoDup_app in Hn as (_ & _ & Hn). apply NoDup_cons in Hn. set_solver.
Qed.

Lemma holds_append s s' h l x :
  holds s h l → x ∉ l → x ≠ 0 →
  (∀ c, c ≠ behind h l → c ≠ Next x → value s' c = value s c) →
  value s' (behind h l) = Some x → value s' (Next x) = Some 0 →
  queueTail (queue s' h) = Next x → holds s' h (l ++ [x]).
Proof.
  intros (Hv & Ht & Hn & Hz) Hx Hx0 Hc Hb Hx' Ht'. split.
  - intros m1 m2 Heq. destruct m2 as [|y m2 _] using rev_ind.
    { rewrite app_nil_r in Heq. subst m1. by rewrite behind_snoc. }
    rewrite app_assoc in Heq. apply app_inj_tail in Heq as [-> <-].
    destruct m2 as [|z m2]; [by rewrite app_nil_r in Hb|].
    rewrite Hc; [by rewrite (Hv m1 (z :: m2))| |].
    + intros E. assert (m1 = m1 ++ z :: m2) as E'%(f_equal length).
      { eapply (behind_inj h m1 _ (z :: m2) []); [done|by rewrite app_nil_r|done]. }
      rewrite length_app in E'. cbn in E'. lia.
    + apply not_eq_sym, behind_out. set_solver.
  - rewrite behind_snoc. split; [done|]. split; [|set_solver].
    apply NoDup_app. split; [done|]. split; [set_solver|apply NoDup_singleton].
Qed.

(** *** Steps of the operations as changes of what can be observed *)

(** The state after a store. *)
Definition upd (c : slot) (v : Z) (s : futexes) : futexes :=
  match c with
  | Head h => set_queue h (mkQueue v (queueTail (queue s h))) s
  | Next e => set_elems (alter (with_next v) e (elems s)) s
  end.
Definition retail (h : Z) (t : slot) (s : futexes) : futexes :=
  set_queue h (mkQueue (queueHead (queue s h)) t) s.

Lemma queue_set h q s h' : queue (set_queue h q s) h' = if decide (h' = h) then q else queue s h'.
Proof.
  unfold queue. cbn. destruct (decide (h' = h)) as [->|Hne].
  - by rewrite lookup_insert_eq.
  - by rewrite lookup_insert_ne.
Qed.

Lemma value_upd c v s c' :
  is_Some (value s c) → value (upd c v s) c' = if decide (c' = c) then Some v else value s c'.
Proof.
  intros [v0 Hv0]. destruct c as [h|e], c' as [h'|e']; cbn [upd value].
  - rewrite queue_set. repeat case_decide; simplify_eq; done.
  - by rewrite decide_False.
  - by rewrite decide_False.
  - cbn. destruct (decide (e' = e)) as [->|Hne].
    + cbn in Hv0. rewrite decide_True, lookup_alter_eq by done. by destruct (elems s !! e).
    + by rewrite decide_False, lookup_alter_ne by congruence.
Qed.

Lemma tail_upd c v s h : queueTail (queue (upd c v s) h) = queueTail (queue s h).
Proof. destruct c; [|done]. cbn [upd]. rewrite queue_set. by case_decide; subst. Qed.

Lemma static_upd c v s x : static (upd c v s) x = static s x.
Proof.
  destruct c as [h|e]; [done|]. unfold static. cbn. destruct (decide (x = e)) as [->|Hne].
  - rewrite lookup_alter_eq. by destruct (elems s !! e).
  - by rewrite lookup_alter_ne.
Qed.

Lemma others_upd c v s : (signals (upd c v s), words (upd c v s)) = (signals s, words s).
Proof. by destruct c. Qed.

Lemma value_retail h t s c : value (retail h t s) c = value s c.
Proof. destruct c as [h'|e]; [|done]. cbn. unfold retail. rewrite queue_set. by case_decide; subst. Qed.

Lemma tail_retail h t s h' :
  queueTail (queue (retail h t s) h') = if decide (h' = h) then t else queueTail (queue s h').
Proof. unfold retail. rewrite queue_set. by case_decide. Qed.

Lemma static_retail h t s x : static (retail h t s) x = static s x.
Proof. done. Qed.

Create Rewrite HintDb futex.
#[export] Hint Rewrite tail_upd static_upd value_retail tail_retail static_retail : futex.

Lemma load_run c s v : value s c = Some v → load c s = Done v s.
Proof.
  destruct c as [h|e]; cbn; [by intros [= <-]|]. unfold kbind, get_elem.
  destruct (elems s !! e) as [x|]; [by intros [= <-]|done].
Qed.

Lemma store_run c v s : is_Some (value s c) → store c v s = Done tt (upd c v s).
Proof.
  destruct c as [h|e]; cbn; [done|]. intros [w Hw]. unfold kbind, get_elem.
  destruct (elems s !! e) as [x|] eqn:E; [|done]. cbn. unfold put_elem, kmodify. do 2 f_equal.
  symmetry. apply map_eq. intros i. destruct (decide (i = e)) as [->|Hne].
  - by rewrite lookup_alter_eq, lookup_insert_eq, E.
  - by rewrite lookup_alter_ne, lookup_insert_ne.
Qed.

Lemma get_elem_static x s p : static s x = Some p →
  ∃ n, get_elem x s = Done (mkElem p.1 p.2 n) s ∧ elems s !! x = Some (mkElem p.1 p.2 n).
Proof.
  unfold static, get_elem. destruct (elems s !! x) as [[e u n]|]; [|done]. intros [= <-]. by exists n.
Qed.

Lemma holds_value s h l1 l2 : holds s h (l1 ++ l2) → value s (behind h l1) = Some (hd 0 l2).
Proof. intros (Hv & _). by apply Hv. Qed.

Lemma holds_next s h l1 x l2 : holds s h (l1 ++ x :: l2) → value s (Next x) = Some (hd 0 l2).
Proof.
  intros (Hv & _). specialize (Hv (l1 ++ [x]) l2). rewrite behind_snoc in Hv. apply Hv. by rewrite <- app_assoc.
Qed.

(** The state after taking out the element behind [l1]. *)
Definition taken (h : Z) (l1 l2 : list Z) (s : futexes) : futexes :=
  upd (behind h l1) (hd 0 l2) (if decide (l2 = []) then retail h (behind h l1) s else s).

Lemma take_out_run s h l1 x l2 :
  holds s h (l1 ++ x :: l2) → take_out h (behind h l1) s = Done x (taken h l1 l2 s).
Proof.
  intros Hh. pose proof (holds_value _ _ _ _ Hh) as Hb. pose proof (holds_next _ _ _ _ _ Hh) as Hx.
  destruct Hh as (_ & Ht & Hn & _). unfold take_out, taken.
  rewrite (kbind_run _ _ _ _ _ (load_run _ _ _ Hb)). cbn [hd].
  rewrite (kbind_run (get_tail h) _ s (queueTail (queue s h)) s) by done. rewrite Ht.
  assert (behind h (l1 ++ x :: l2) = Next x ↔ l2 = []) as Hlast.
  { split; [|intros ->; by rewrite behind_snoc]. intros E. destruct l2 as [|y l2]; [done|].
    rewrite behind_app, behind_cons in E by done.
    symmetry in E. apply behind_out in E as []. apply NoDup_app in Hn as (_ & _ & Hn).
    apply NoDup_cons in Hn. tauto. }
  set (s1 := if decide (l2 = []) then retail h (behind h l1) s else s).
  assert (∀ c, value s1 c = value s c) as Hs1.
  { intros c. unfold s1. case_decide; [apply value_retail|done]. }
  rewrite (kbind_run _ _ s tt s1).
  2:{ unfold s1. destruct (decide (l2 = [])), (decide (behind h (l1 ++ x :: l2) = Next x)); tauto || done. }
  rewrite (kbind_run _ _ s1 (hd 0 l2) s1) by (apply load_run; by rewrite Hs1).
  rewrite (kbind_run _ _ s1 tt _ (store_run _ _ _ ltac:(by rewrite Hs1, Hb))). done.
Qed.

Lemma append_run s h l x :
  holds s h l → append h x s = Done tt (retail h (Next x) (upd (behind h l) x s)).
Proof.
  intros Hh. pose proof (holds_value s h l []) as Hb. rewrite app_nil_r in Hb. specialize (Hb Hh).
  destruct Hh as (_ & Ht & _). unfold append.
  rewrite (kbind_run (get_tail h) _ s (queueTail (queue s h)) s) by done. rewrite Ht.
  rewrite (kbind_run _ _ s tt _ (store_run _ _ _ ltac:(by rewrite Hb))). done.
Qed.

(** *** Changes of all queues *)

Lemma lists_unique s Q h h' x : lists s Q → x ∈ Q h → x ∈ Q h' → h = h'.
Proof. intros [_ Hu] (p & Hp & <-)%Hu (p' & Hp' & <-)%Hu. congruence. Qed.

Lemma lists_behind s Q h h' l1 l2 :
  lists s Q → h' ≠ h → Q h = l1 ++ l2 →
  ∀ c, c = Head h' ∨ (∃ e, e ∈ Q h' ∧ c = Next e) → c ≠ behind h l1.
Proof.
  intros HQ Hne Hh c Hc ->. destruct (behind_in h l1) as [[E _]|(e & He & E)]; rewrite E in Hc.
  - destruct Hc as [[= ->]|(e' & _ & ?)]; [done|discriminate].
  - destruct Hc as [?|(e' & He' & [= <-])]; [discriminate|]. apply Hne.
    eapply (lists_unique s Q h' h e); [done..|]. rewrite Hh. set_solver.
Qed.

Lemma value_taken s h l1 x l2 c :
  holds s h (l1 ++ x :: l2) →
  value (taken h l1 l2 s) c = if decide (c = behind h l1) then Some (hd 0 l2) else value s c.
Proof.
  intros Hh%holds_value. unfold taken. rewrite value_upd.
  - repeat case_decide; autorewrite with futex; done.
  - case_decide; autorewrite with futex; by rewrite Hh.
Qed.

Lemma others_taken s h l1 l2 :
  (signals (taken h l1 l2 s), words (taken h l1 l2 s)) = (signals s, words s).
Proof. unfold taken. rewrite others_upd. by case_decide. Qed.

Lemma static_taken s h l1 l2 x : static (taken h l1 l2 s) x = static s x.
Proof. unfold taken. rewrite static_upd. by case_decide. Qed.

Lemma lists_taken s Q h l1 x l2 :
  lists s Q → Q h = l1 ++ x :: l2 → lists (taken h l1 l2 s) (<[h := l1 ++ l2]> Q).
Proof.
  intros HQ Hh. pose proof (proj1 HQ h) as Hq. rewrite Hh in Hq. split.
  - intros h'. destruct (decide (h' = h)) as [->|Hne].
    + rewrite fn_lookup_insert. eapply holds_remove; [exact Hq|..].
      * intros c Hc _. rewrite (value_taken _ _ _ _ _ _ Hq). by rewrite decide_False.
      * rewrite (value_taken _ _ _ _ _ _ Hq). by rewrite decide_True.
      * unfold taken. rewrite tail_upd. destruct (decide (l2 = [])) as [->|Hl2].
        -- by rewrite tail_retail, decide_True, app_nil_r.
        -- destruct Hq as (_ & -> & _). destruct l2 as [|y l2]; [done|].
           by rewrite !behind_app, behind_cons by done.
    + rewrite fn_lookup_insert_ne by done. eapply holds_frame; [apply HQ|..].
      * intros c Hc. rewrite (value_taken _ _ _ _ _ _ Hq), decide_False; [done|].
        by eapply lists_behind; [..|exact Hh|exact Hc].
      * unfold taken. rewrite tail_upd. case_decide; [|done]. by rewrite tail_retail, decide_False.
  - intros h' y. rewrite static_taken. destruct (decide (h' = h)) as [->|Hne].
    + rewrite fn_lookup_insert. intros Hy. apply HQ. rewrite Hh. set_solver.
    + rewrite fn_lookup_insert_ne by done. apply HQ.
Qed.

Lemma taken_gone s Q h l1 x l2 :
  lists s Q → Q h = l1 ++ x :: l2 → ∀ h', x ∉ (<[h := l1 ++ l2]> Q : Z → list Z) h'.
Proof.
  intros HQ Hh h'. destruct (decide (h' = h)) as [->|Hne].
  - rewrite fn_lookup_insert. destruct (proj1 HQ h) as (_ & _ & Hn & _). rewrite Hh in Hn.
    apply NoDup_app in Hn as (_ & Hd & [Hx _]%NoDup_cons). set_solver.
  - rewrite fn_lookup_insert_ne by done. intros Hx. apply Hne.
    eapply (lists_unique s Q h' h x); [done..|]. rewrite Hh. set_solver.
Qed.

Lemma lists_mark s Q x v :
  lists s Q → (∀ h, x ∉ Q h) → is_Some (value s (Next x)) → lists (upd (Next x) v s) Q.
Proof.
  intros HQ Hx Hv. split.
  - intros h. eapply holds_frame; [apply HQ| |by rewrite tail_upd].
    intros c Hc. rewrite value_upd by done. rewrite decide_False; [done|].
    intros ->. destruct Hc as [?|(e & He & [= ->])]; [done|]. by eapply Hx.
  - intros h y. rewrite static_upd. apply HQ.
Qed.

Lemma lists_append s Q h x p :
  lists s Q → (∀ h, x ∉ Q h) → x ≠ 0 → static s x = Some p → hash_futex p.2 = h →
  value s (Next x) = Some 0 →
  lists (retail h (Next x) (upd (behind h (Q h)) x s)) (<[h := Q h ++ [x]]> Q).
Proof.
  intros HQ Hx Hx0 Hp Hh Hv. pose proof (holds_value s h (Q h) []) as Hb. rewrite app_nil_r in Hb.
  specialize (Hb (proj1 HQ h)). assert (Next x ≠ behind h (Q h)) as Hne.
  { intros E. destruct (behind_in h (Q h)) as [[E' _]|(e & He & E')]; [congruence|].
    rewrite E' in E. injection E as ->. by eapply Hx. }
  split.
  - intros h'. destruct (decide (h' = h)) as [->|Hh'].
    + rewrite fn_lookup_insert. eapply holds_append; [apply HQ|done|done|..].
      * intros c Hc _. rewrite value_retail, value_upd, decide_False by done || by rewrite Hb. done.
      * by rewrite value_retail, value_upd, decide_True by done || by rewrite Hb.
      * by rewrite value_retail, value_upd, decide_False by done || by rewrite Hb.
      * by rewrite tail_retail, decide_True.
    + rewrite fn_lookup_insert_ne by done. eapply holds_frame; [apply HQ|..].
      * intros c Hc. rewrite value_retail, value_upd, decide_False; [done| |by rewrite Hb].
        eapply (lists_behind s Q h h' (Q h) []); [done|done|by rewrite app_nil_r|done].
      * by rewrite tail_retail, decide_False, tail_upd.
  - intros h' y. rewrite static_retail, static_upd. destruct (decide (h' = h)) as [->|Hh'].
    + rewrite fn_lookup_insert. intros [Hy| ->%list_elem_of_singleton]%elem_of_app; [by apply HQ|by exists p].
    + rewrite fn_lookup_insert_ne by done. apply HQ.
Qed.

Lemma lists_ext s Q Q' : (∀ h, Q h = Q' h) → lists s Q → lists s Q'.
Proof. intros He [Hh Hu]. split; intros h; rewrite <- He; auto. Qed.

Lemma fn_insert_twice (Q : Z → list Z) h l l' h' :
  (<[h := l']> (<[h := l]> Q) : Z → list Z) h' = (<[h := l']> Q : Z → list Z) h'.
Proof.
  destruct (decide (h' = h)) as [->|]; [by rewrite !fn_lookup_insert|by rewrite !fn_lookup_insert_ne].
Qed.

(** *** Searching *)

Lemma next_waiter_run s Q h ua l : ∀ fuel pre,
  lists s Q → Q h = pre ++ l → (length l ≤ fuel)%nat →
  ∃ sk l', l = sk ++ l' ∧ Forall (λ x, waits_on s ua x = false) sk ∧
    match l' with [] => True | x :: _ => waits_on s ua x = true end ∧
    next_waiter fuel ua (behind h pre) s = Done (behind h (pre ++ sk)) s.
Proof.
  induction l as [|x l IH]; intros fuel pre HQ Hh Hf.
  - pose proof (proj1 HQ h) as Hq. rewrite Hh in Hq. apply holds_value in Hq.
    exists [], []. split; [done|]. split; [done|]. split; [done|].
    rewrite app_nil_r. destruct fuel; cbn [next_waiter]; by rewrite (kbind_run _ _ _ _ _ (load_run _ _ _ Hq)).
  - pose proof (proj1 HQ h) as Hq. pose proof Hq as (_ & _ & _ & H0). rewrite Hh in Hq, H0.
    apply holds_value in Hq.
    destruct (proj2 HQ h x) as (p & Hp & _); [rewrite Hh; set_solver|].
    destruct (get_elem_static _ _ _ Hp) as (n & Hget & _). assert (x ≠ 0) as Hx0 by set_solver.
    assert (waits_on s ua x = (p.2 =? ua)) as Hw by (unfold waits_on; by rewrite Hp).
    destruct (waits_on s ua x) eqn:Ew.
    + exists [], (x :: l). split; [done|]. split; [done|]. split; [done|].
      rewrite app_nil_r. destruct fuel; cbn [next_waiter]; rewrite (kbind_run _ _ _ _ _ (load_run _ _ _ Hq)); cbn [hd];
        rewrite (proj2 (Z.eqb_neq x 0) Hx0), (kbind_run _ _ _ _ _ Hget); cbn; by rewrite <- Hw.
    + destruct fuel as [|fuel]; [cbn in Hf; lia|].
      destruct (IH fuel (pre ++ [x])) as (sk & l' & -> & Hsk & Hl' & Hrun);
        [done|by rewrite Hh, <- app_assoc|cbn in Hf; lia|].
      exists (x :: sk), l'. split; [done|]. split; [by constructor|]. split; [done|].
      rewrite behind_snoc, <- app_assoc in Hrun. cbn [next_waiter].
      rewrite (kbind_run _ _ _ _ _ (load_run _ _ _ Hq)). cbn [hd].
      rewrite (proj2 (Z.eqb_neq x 0) Hx0), (kbind_run _ _ _ _ _ Hget). cbn. by rewrite <- Hw.
Qed.

Lemma pick_skip P n sk l :
  Forall (λ x, P x = false) sk → pick P n (sk ++ l) = let '(t, r) := pick P n l in (t, sk ++ r).
Proof.
  induction 1 as [|x sk Hx Hsk IH]; cbn [app pick]; [by destruct (pick P n l)|].
  rewrite Hx, andb_false_r, IH. by destruct (pick P n l).
Qed.

Lemma pick_none P n l : n ≤ 0 → pick P n l = ([], l).
Proof.
  intros Hn. induction l as [|x l IH]; cbn [pick]; [done|].
  rewrite (proj2 (Z.ltb_ge 0 n) Hn). cbn. by rewrite IH.
Qed.

Lemma pick_ext P P' n l : (∀ x, x ∈ l → P x = P' x) → pick P n l = pick P' n l.
Proof.
  revert n. induction l as [|x l IH]; intros n HP; cbn [pick]; [done|].
  rewrite HP, !IH by set_solver. done.
Qed.

Lemma pick_snoc P n l x :
  P x = false → pick P n (l ++ [x]) = let '(t, r) := pick P n l in (t, r ++ [x]).
Proof.
  intros Hx. revert n. induction l as [|y l IH]; intros n; cbn [app pick].
  - by rewrite Hx, andb_false_r.
  - rewrite !IH. destruct ((0 <? n) && P y); by destruct (pick _ _ l).
Qed.

Lemma pick_parts P n l t r : pick P n l = (t, r) → l ≡ₚ t ++ r ∧ Forall (λ x, P x = true) t.
Proof.
  revert n t r. induction l as [|x l IH]; intros n t r; cbn [pick]; [by intros [= <- <-]|].
  destruct (0 <? n), (P x) eqn:HP; cbn [andb]; destruct (pick P _ l) as [t' r'] eqn:E;
    intros [= <- <-]; apply IH in E as [-> Ht]; cbn [app]; split; try done; try (by constructor);
    by rewrite Permutation_middle.
Qed.

Definition ecs (s : futexes) (t : list Z) : list Z := (λ x, from_option fst 0 (static s x)) <$> t.

(** The waiters [t] were woken and [rest] is left of the queue [h]. *)
Definition woken (s : futexes) (Q : Z → list Z) (h : Z) (t rest : list Z) (s' : futexes) : Prop :=
  lists s' (<[h := rest]> Q) ∧
  signals s' = signals s ++ ecs s t ∧
  (∀ x, x ∈ t → value s' (Next x) = Some REMOVED) ∧
  (∀ x, static s' x = static s x) ∧
  (∀ x, (∀ h, x ∉ Q h) → value s' (Next x) = value s (Next x)) ∧ words s' = words s.

(** One waiter is woken. *)
Definition woke_one (h : Z) (l1 l2 : list Z) (x e : Z) (s : futexes) : futexes :=
  let s := upd (Next x) REMOVED (taken h l1 l2 s) in
  mkF (elems s) (queues s) (words s) (signals s ++ [e]).

Lemma lists_signal s Q sg : lists s Q → lists (mkF (elems s) (queues s) (words s) sg) Q.
Proof. done. Qed.

Lemma next_taken s Q h l1 x l2 y :
  lists s Q → Q h = l1 ++ x :: l2 → y = x ∨ (∀ h, y ∉ Q h) →
  value (taken h l1 l2 s) (Next y) = value s (Next y).
Proof.
  intros HQ Hh Hy. pose proof (proj1 HQ h) as Hq. rewrite Hh in Hq.
  rewrite (value_taken _ _ _ _ _ _ Hq), decide_False; [done|]. apply behind_out. intros He.
  destruct Hy as [->|Hy]; [|apply (Hy h); rewrite Hh; set_solver].
  destruct Hq as (_ & _ & Hn & _). apply NoDup_app in Hn as (_ & Hd & _). set_solver.
Qed.

Lemma woken_one s Q h l1 x l2 p :
  lists s Q → Q h = l1 ++ x :: l2 → static s x = Some p →
  woken s Q h [x] (l1 ++ l2) (woke_one h l1 l2 x p.1 s).
Proof.
  intros HQ Hh Hp. pose proof (proj1 HQ h) as Hq. rewrite Hh in Hq.
  assert (is_Some (value (taken h l1 l2 s) (Next x))) as Hx.
  { erewrite next_taken by (try done; by left). by rewrite (holds_next _ _ _ _ _ Hq). }
  assert (∀ c, value (woke_one h l1 l2 x p.1 s) c = value (upd (Next x) REMOVED (taken h l1 l2 s)) c) as Hval
    by (by intros []).
  pose proof (others_taken s h l1 l2) as [= Hsg Hw].
  split; [|split; [|split; [|split; [|split]]]].
  - apply lists_signal, lists_mark; [by eapply lists_taken|by eapply taken_gone|done].
  - cbn. unfold ecs. cbn. by rewrite Hp, Hsg.
  - intros y ->%list_elem_of_singleton. by rewrite Hval, value_upd, decide_True.
  - intros y. change (static (upd (Next x) REMOVED (taken h l1 l2 s)) y = static s y).
    by rewrite static_upd, static_taken.
  - intros y Hy. rewrite Hval, value_upd, decide_False by (done || (intros [= ->]; eapply Hy; rewrite Hh; set_solver)).
    eapply next_taken; eauto.
  - done.
Qed.

Lemma ecs_ext s s' t : (∀ x, static s' x = static s x) → ecs s' t = ecs s t.
Proof. intros He. apply list_fmap_ext. intros i x _. by rewrite He. Qed.

Lemma woken_trans s Q h t r s1 t' r' s' :
  (∀ x, x ∈ t → ∀ h', x ∉ (<[h := r]> Q : Z → list Z) h') → (∀ x h', x ∈ (<[h := r]> Q : Z → list Z) h' → x ∈ Q h') →
  woken s Q h t r s1 → woken s1 (<[h := r]> Q) h t' r' s' → woken s Q h (t ++ t') r' s'.
Proof.
  intros Hgone Hsub (HQ1 & Hs1 & Hm1 & Hst1 & Hv1 & Hw1) (HQ2 & Hs2 & Hm2 & Hst2 & Hv2 & Hw2).
  split; [|split; [|split; [|split; [|split]]]].
  - eapply lists_ext; [|exact HQ2]. apply fn_insert_twice.
  - rewrite Hs2, Hs1, (ecs_ext s s1), <- app_assoc by done. f_equal. unfold ecs. by rewrite fmap_app.
  - intros x [Hx|Hx]%elem_of_app; [|by apply Hm2]. rewrite Hv2 by (by apply Hgone). by apply Hm1.
  - intros x. by rewrite Hst2, Hst1.
  - intros x Hx. rewrite Hv2, Hv1 by (intros h' ?%Hsub || idtac; by eapply Hx). done.
  - congruence.
Qed.

Lemma woken_none s Q h : lists s Q → woken s Q h [] (Q h) s.
Proof.
  intros HQ. split; [|split; [|split; [|done]]].
  - eapply lists_ext; [|exact HQ]. intros h'.
    destruct (decide (h' = h)) as [->|]; [by rewrite fn_lookup_insert|by rewrite fn_lookup_insert_ne].
  - unfold ecs. cbn. by rewrite app_nil_r.
  - intros x Hx. by apply not_elem_of_nil in Hx.
Qed.

Lemma wake_one_run {B} s Q h l1 x l2 (k : kernel futexes B) :
  lists s Q → Q h = l1 ++ x :: l2 →
  ∃ s1, woken s Q h [x] (l1 ++ l2) s1 ∧
    (entry <-- take_out h (behind h l1);; y <-- get_elem entry;;
     put_elem entry (with_next REMOVED y);;; syscall_signal (ec y);;; k) s = k s1.
Proof.
  intros HQ Hh. pose proof (proj1 HQ h) as Hq. rewrite Hh in Hq.
  destruct (proj2 HQ h x) as (p & Hp & _); [rewrite Hh; set_solver|].
  exists (woke_one h l1 l2 x p.1 s). split; [by apply woken_one|].
  rewrite (kbind_run _ _ _ _ _ (take_out_run _ _ _ _ _ Hq)).
  destruct (get_elem_static x (taken h l1 l2 s) p) as (n & Hget & He); [by rewrite static_taken|].
  rewrite (kbind_run _ _ _ _ _ Hget).
  rewrite (kbind_run _ _ _ tt (upd (Next x) REMOVED (taken h l1 l2 s))); [done|].
  rewrite <- (store_run (Next x)) by (cbn; by rewrite He). cbn. unfold kbind. by rewrite Hget.
Qed.

(** What is left of the queues after an element was taken out. *)
Lemma insert_sub (Q : Z → list Z) h l1 x l2 y h' :
  Q h = l1 ++ x :: l2 → y ∈ (<[h := l1 ++ l2]> Q : Z → list Z) h' → y ∈ Q h'.
Proof.
  intros Hh. destruct (decide (h' = h)) as [->|Hne].
  - rewrite fn_lookup_insert, Hh. set_solver.
  - by rewrite fn_lookup_insert_ne.
Qed.

(** Waking continues behind the elements [pre] with the elements [l]. *)
Lemma wake_loop_run h ua nr : ∀ fuel pre l i s Q,
  lists s Q → Q h = pre ++ l → (length l < fuel)%nat →
  let '(t, r) := pick (waits_on s ua) (nr - i) l in
  ∃ sk l' ended s', r = sk ++ l' ∧ Forall (λ x, waits_on s ua x = false) sk ∧
    (ended = true → l' = []) ∧
    wake_loop fuel h ua i nr (behind h pre) s = Done (behind h (pre ++ sk), ended) s' ∧
    woken s Q h t (pre ++ r) s'.
Proof.
  induction fuel as [|fuel IH]; intros pre l i s Q HQ Hh Hf; [lia|]. cbn [wake_loop].
  destruct (Z.ltb_spec i nr) as [Hi|Hi].
  2:{ rewrite pick_none by lia. exists [], l, false, s. rewrite app_nil_r, <- Hh.
      split; [done|]. split; [done|]. split; [done|]. split; [done|]. by apply woken_none. }
  destruct (next_waiter_run s Q h ua l fuel pre) as (sk & l' & -> & Hsk & Hl' & Hrun); [done|done|lia|].
  rewrite pick_skip by done. rewrite (kbind_run _ _ _ _ _ Hrun).
  pose proof (proj1 HQ h) as Hq. rewrite Hh, app_assoc in Hq.
  rewrite (kbind_run _ _ _ _ _ (load_run _ _ _ (holds_value _ _ _ _ Hq))).
  destruct l' as [|x l']; cbn [hd].
  { exists sk, [], true, s. rewrite !app_nil_r in *. split; [done|]. split; [done|]. split; [done|].
    split; [done|]. rewrite <- Hh. by apply woken_none. }
  assert (x ≠ 0) as Hx0 by (destruct Hq as (_ & _ & _ & Hz); set_solver).
  rewrite (proj2 (Z.eqb_neq x 0) Hx0). rewrite app_assoc in Hh.
  destruct (wake_one_run s Q h (pre ++ sk) x l'
    (wake_loop fuel h ua (i + 1) nr (behind h (pre ++ sk)))) as (s1 & Hone & ->); [done..|].
  assert (∀ y, waits_on s1 ua y = waits_on s ua y) as Hwait.
  { intros y. unfold waits_on. destruct Hone as (_ & _ & _ & -> & _). done. }
  specialize (IH (pre ++ sk) l' (i + 1) s1 (<[h := (pre ++ sk) ++ l']> Q) (proj1 Hone)).
  rewrite fn_lookup_insert, length_app in *. specialize (IH eq_refl ltac:(cbn in Hf; lia)).
  cbn [pick]. rewrite Hl', (proj2 (Z.ltb_lt 0 (nr - i))) by lia. cbn [andb].
  rewrite (pick_ext (waits_on s1 ua) (waits_on s ua)) in IH by done.
  replace (nr - (i + 1)) with (nr - i - 1) in IH by lia.
  destruct (pick (waits_on s ua) (nr - i - 1) l') as [t r].
  destruct IH as (sk' & l2 & ended & s' & -> & Hsk' & He' & -> & Hw').
  exists (sk ++ sk'), l2, ended, s'. rewrite !app_assoc in *.
  split; [done|]. split.
  { apply Forall_app. split; [done|]. eapply Forall_impl; [exact Hsk'|]. intros y. cbn. by rewrite Hwait. }
  split; [done|]. split; [done|].
  eapply (woken_trans _ _ _ [x] _ s1 t); [| |exact Hone|exact Hw'].
  - intros y ->%list_elem_of_singleton. by eapply taken_gone.
  - intros y h'. by eapply insert_sub.
Qed.

(** *** Requeueing *)

(** The queues after [t] moved from one to the other and [rest] stayed. *)
Definition move (Q : Z → list Z) (from to : Z) (rest t : list Z) : Z → list Z :=
  let Q1 := <[from := rest]> Q in <[to := Q1 to ++ t]> Q1.

Definition moved (s : futexes) (Q : Z → list Z) (from to ua2 : Z) (t rest : list Z) (s' : futexes) : Prop :=
  lists s' (move Q from to rest t) ∧
  signals s' = signals s ∧ words s' = words s ∧
  (∀ x, static s' x = if decide (x ∈ t) then (λ p, (p.1, ua2)) <$> static s x else static s x) ∧
  (∀ x, (∀ h, x ∉ Q h) → value s' (Next x) = value s (Next x)).

Definition readdr (x a : Z) (s : futexes) : futexes := set_elems (alter (with_uaddr a) x (elems s)) s.

Lemma value_readdr x a s c : value (readdr x a s) c = value s c.
Proof.
  destruct c as [h|e]; [done|]. cbn. destruct (decide (e = x)) as [->|Hne].
  - rewrite lookup_alter_eq. by destruct (elems s !! x).
  - by rewrite lookup_alter_ne.
Qed.

Lemma static_readdr x a s y :
  static (readdr x a s) y = if decide (y = x) then (λ p, (p.1, a)) <$> static s y else static s y.
Proof.
  unfold static. cbn. destruct (decide (y = x)) as [->|Hne].
  - rewrite lookup_alter_eq. by destruct (elems s !! x).
  - by rewrite lookup_alter_ne.
Qed.

Lemma lists_readdr s Q x a : lists s Q → (∀ h, x ∉ Q h) → lists (readdr x a s) Q.
Proof.
  intros HQ Hx. split.
  - intros h. eapply holds_frame; [apply HQ|intros; apply value_readdr|done].
  - intros h y Hy. rewrite static_readdr, decide_False by (intros ->; by eapply Hx). by apply HQ.
Qed.

Lemma readdr_run x a s : is_Some (static s x) →
  (y <-- get_elem x;; put_elem x (with_uaddr a y)) s = Done tt (readdr x a s).
Proof.
  intros [p Hp]. destruct (get_elem_static _ _ _ Hp) as (n & Hget & He).
  rewrite (kbind_run _ _ _ _ _ Hget). unfold put_elem, kmodify, readdr. do 2 f_equal.
  apply map_eq. intros i. destruct (decide (i = x)) as [->|Hne].
  - by rewrite lookup_alter_eq, lookup_insert_eq, He.
  - by rewrite lookup_alter_ne, lookup_insert_ne.
Qed.

(** The element [x] is out of the queue and has its new address. *)
Definition detached (from : Z) (l1 : list Z) (x : Z) (l2 : list Z) (a : Z) (s : futexes) : futexes :=
  readdr x a (upd (Next x) 0 (taken from l1 l2 s)).

Lemma detached_lists s Q from l1 x l2 a p :
  lists s Q → Q from = l1 ++ x :: l2 → static s x = Some p →
  let s2 := detached from l1 x l2 a s in
  lists s2 (<[from := l1 ++ l2]> Q) ∧ value s2 (Next x) = Some 0 ∧
  (∀ y, static s2 y = if decide (y = x) then Some (p.1, a) else static s y) ∧
  (∀ y, (∀ h, y ∉ Q h) → value s2 (Next y) = value s (Next y)).
Proof.
  intros HQ Hh Hp. pose proof (proj1 HQ from) as Hq. rewrite Hh in Hq.
  assert (is_Some (value (taken from l1 l2 s) (Next x))) as Hx.
  { erewrite next_taken by (try done; by left). by rewrite (holds_next _ _ _ _ _ Hq). }
  pose proof (taken_gone s Q from l1 x l2 HQ Hh). unfold detached. split; [|split; [|split]].
  - apply lists_readdr; [|done]. apply lists_mark; [by eapply lists_taken|done|done].
  - by rewrite value_readdr, value_upd, decide_True.
  - intros y. rewrite static_readdr, static_upd, static_taken. case_decide; [|done]. subst. by rewrite Hp.
  - intros y Hy. assert (y ≠ x) by (intros ->; eapply Hy; rewrite Hh; set_solver).
    rewrite value_readdr, value_upd, decide_False by congruence || done. eapply next_taken; eauto.
Qed.

Lemma futex_detach_run {B} s Q from a l1 x l2 (k : Z → kernel futexes B) :
  lists s Q → Q from = l1 ++ x :: l2 →
  (entry <-- take_out from (behind from l1);; store (Next entry) 0;;;
   y <-- get_elem entry;; put_elem entry (with_uaddr a y);;; k entry) s
  = k x (detached from l1 x l2 a s).
Proof.
  intros HQ Hh. pose proof (proj1 HQ from) as Hq. rewrite Hh in Hq.
  destruct (proj2 HQ from x) as (p & Hp & _); [rewrite Hh; set_solver|].
  assert (is_Some (value (taken from l1 l2 s) (Next x))) as Hx.
  { erewrite next_taken by (try done; by left). by rewrite (holds_next _ _ _ _ _ Hq). }
  rewrite (kbind_run _ _ _ _ _ (take_out_run _ _ _ _ _ Hq)), (kbind_run _ _ _ _ _ (store_run _ _ _ Hx)).
  destruct (get_elem_static x (upd (Next x) 0 (taken from l1 l2 s)) p) as (n & Hget & _).
  { by rewrite static_upd, static_taken. }
  pose proof (readdr_run x a (upd (Next x) 0 (taken from l1 l2 s))) as Hre.
  rewrite static_upd, static_taken, Hp in Hre. specialize (Hre ltac:(done)).
  rewrite (kbind_run _ _ _ _ _ Hget). rewrite (kbind_run _ _ _ _ _ Hget) in Hre.
  by rewrite (kbind_run _ _ _ _ _ Hre).
Qed.

Lemma move_one_run {B} s Q from to ua2 l1 x l2 (k : kernel futexes B) :
  lists s Q → Q from = l1 ++ x :: l2 → hash_futex ua2 = to →
  ∃ s1, moved s Q from to ua2 [x] (l1 ++ l2) s1 ∧
    (entry <-- take_out from (behind from l1);; store (Next entry) 0;;;
     y <-- get_elem entry;; put_elem entry (with_uaddr ua2 y);;; append to entry;;; k) s = k s1.
Proof.
  intros HQ Hh Hto. pose proof (proj1 HQ from) as (_ & _ & _ & Hz). rewrite Hh in Hz.
  destruct (proj2 HQ from x) as (p & Hp & _); [rewrite Hh; set_solver|].
  destruct (detached_lists s Q from l1 x l2 ua2 p HQ Hh Hp) as (HQ2 & Hv2 & Hs2 & Ho2).
  pose proof (taken_gone s Q from l1 x l2 HQ Hh) as Hgone.
  rewrite (futex_detach_run _ _ _ _ _ _ _ (λ entry, append to entry;;; k) HQ Hh).
  set (s2 := detached from l1 x l2 ua2 s) in *. set (Q1 := <[from := l1 ++ l2]> Q) in *.
  exists (retail to (Next x) (upd (behind to (Q1 to)) x s2)).
  rewrite (kbind_run _ _ _ _ _ (append_run _ _ _ x (proj1 HQ2 to))). split; [|done].
  assert (signals s2 = signals s ∧ words s2 = words s) as [Hsg Hw].
  { pose proof (others_taken s from l1 l2) as [= E1 E2]. split; [exact E1|exact E2]. }
  pose proof (others_upd (behind to (Q1 to)) x s2) as [= Hsg' Hw'].
  split; [|split; [|split; [|split]]].
  - eapply (lists_append _ _ _ _ (p.1, ua2)); [done|done|set_solver| |done|done]. by rewrite Hs2, decide_True.
  - transitivity (signals (upd (behind to (Q1 to)) x s2)); [done|]. by rewrite Hsg'.
  - transitivity (words (upd (behind to (Q1 to)) x s2)); [done|]. by rewrite Hw'.
  - intros y. rewrite static_retail, static_upd, Hs2. destruct (decide (y = x)) as [->|Hne].
    + rewrite decide_True by set_solver. by rewrite Hp.
    + by rewrite decide_False by set_solver.
  - intros y Hy. rewrite value_retail, value_upd, decide_False; [by apply Ho2| |].
    + apply behind_out. intros He. eapply Hy, insert_sub; [exact Hh|exact He].
    + pose proof (holds_value s2 to (Q1 to) []) as Hb. rewrite app_nil_r in Hb. by rewrite Hb by apply HQ2.
Qed.

Lemma move_nil Q from to h : move Q from to (Q from) [] h = Q h.
Proof.
  unfold move. rewrite app_nil_r. destruct (decide (h = to)) as [->|Hne].
  - rewrite fn_lookup_insert. destruct (decide (to = from)) as [->|]; [by rewrite fn_lookup_insert|by rewrite fn_lookup_insert_ne].
  - rewrite fn_lookup_insert_ne by done.
    destruct (decide (h = from)) as [->|]; [by rewrite fn_lookup_insert|by rewrite fn_lookup_insert_ne].
Qed.

Lemma move_at Q from to rest t h :
  move Q from to rest t h =
    if decide (h = to) then (if decide (to = from) then rest else Q to) ++ t
    else if decide (h = from) then rest else Q h.
Proof.
  unfold move. destruct (decide (h = to)) as [->|Hne].
  - rewrite fn_lookup_insert. f_equal. case_decide; subst; [apply fn_lookup_insert|by apply fn_lookup_insert_ne].
  - rewrite fn_lookup_insert_ne by done. case_decide; subst; [apply fn_lookup_insert|by apply fn_lookup_insert_ne].
Qed.

Lemma move_in Q from to rest t x h :
  x ∈ move Q from to rest t h → x ∈ t ∨ x ∈ rest ∨ x ∈ Q h.
Proof. rewrite move_at. repeat case_decide; subst; set_solver. Qed.

Lemma moved_none s Q from to ua2 : lists s Q → moved s Q from to ua2 [] (Q from) s.
Proof.
  intros HQ. split; [|split; [done|split; [done|split; [|done]]]].
  - eapply lists_ext; [|exact HQ]. intros h. by rewrite move_nil.
  - intros x. rewrite decide_False by apply not_elem_of_nil. done.
Qed.

(** Moving one element and then the elements of [t]. *)
Lemma moved_cons s Q from to ua2 pre x l r s1 t s' :
  Q from = pre ++ x :: l →
  moved s Q from to ua2 [x] (pre ++ l) s1 →
  moved s1 (move Q from to (pre ++ l) [x]) from to ua2 t
    (if decide (from = to) then r ++ [x] else r) s' →
  moved s Q from to ua2 (x :: t) r s'.
Proof.
  intros Hh (HQ1 & Hs1 & Hw1 & Hst1 & Hv1) (HQ2 & Hs2 & Hw2 & Hst2 & Hv2).
  split; [|split; [congruence|split; [congruence|split]]].
  - eapply lists_ext; [|exact HQ2]. intros h. rewrite !move_at.
    repeat case_decide; subst; try done; try (by rewrite <- app_assoc).
    all: by rewrite ?move_at, ?decide_True, ?decide_False, <- ?app_assoc by done.
  - intros y. rewrite Hst2, Hst1. clear.
    repeat case_decide; destruct (static s y); done || set_solver.
  - intros y Hy. rewrite Hv2; [by apply Hv1|]. intros h [?|[?|?]]%move_in; [| |by eapply Hy].
    + eapply Hy. rewrite Hh. set_solver.
    + eapply Hy. rewrite Hh. set_solver.
Qed.

Definition matching (s : futexes) (ua : Z) (l : list Z) : nat :=
  length (filter (λ x, waits_on s ua x = true) l).

Lemma matching_app s ua l1 l2 : matching s ua (l1 ++ l2) = (matching s ua l1 + matching s ua l2)%nat.
Proof. unfold matching. by rewrite filter_app, length_app. Qed.

Lemma matching_cons s ua x l :
  matching s ua (x :: l) = ((if waits_on s ua x then 1 else 0) + matching s ua l)%nat.
Proof. unfold matching. rewrite filter_cons. by destruct (waits_on s ua x). Qed.

Lemma matching_ext s s' ua l :
  (∀ x, x ∈ l → waits_on s' ua x = waits_on s ua x) → matching s' ua l = matching s ua l.
Proof. induction l as [|x l IH]; intros He; [done|]. rewrite !matching_cons, He, IH; set_solver. Qed.

Lemma requeue_loop_run from to ua ua2 nr : ∀ fuel pre l i s Q,
  ua ≠ ua2 → hash_futex ua2 = to →
  lists s Q → Q from = pre ++ l → (length l + matching s ua l < fuel)%nat →
  let '(t, r) := pick (waits_on s ua) (nr - i) l in
  ∃ s', requeue_loop fuel from to ua ua2 i nr (behind from pre) s = Done tt s' ∧
        moved s Q from to ua2 t (pre ++ r) s'.
Proof.
  intros fuel. induction fuel as [|fuel IH]; intros pre l i s Q Hne Hto HQ Hh Hf; [lia|]. cbn [requeue_loop].
  destruct (Z.ltb_spec i nr) as [Hi|Hi].
  2:{ rewrite pick_none by lia. exists s. split; [done|]. rewrite <- Hh. by apply moved_none. }
  destruct (next_waiter_run s Q from ua l fuel pre) as (sk & l' & -> & Hsk & Hl' & Hrun); [done|done|lia|].
  rewrite pick_skip by done. rewrite (kbind_run _ _ _ _ _ Hrun).
  pose proof (proj1 HQ from) as Hq. rewrite Hh, app_assoc in Hq.
  rewrite (kbind_run _ _ _ _ _ (load_run _ _ _ (holds_value _ _ _ _ Hq))).
  destruct l' as [|x l']; cbn [hd].
  { exists s. split; [done|]. cbn [pick]. rewrite <- Hh. by apply moved_none. }
  pose proof Hq as (_ & _ & Hnd & Hz). assert (x ≠ 0) as Hx0 by set_solver.
  rewrite (proj2 (Z.eqb_neq x 0) Hx0). rewrite app_assoc in Hh.
  destruct (move_one_run s Q from to ua2 (pre ++ sk) x l'
    (requeue_loop fuel from to ua ua2 (i + 1) nr (behind from (pre ++ sk)))) as (s1 & Hone & ->); [done..|].
  assert (∀ y, waits_on s1 ua y = if decide (y = x) then false else waits_on s ua y) as Hwait.
  { intros y. unfold waits_on. destruct Hone as (_ & _ & _ & -> & _). unfold waits_on in Hl'.
    destruct (decide (y = x)) as [->|Hy]; [|by rewrite decide_False by set_solver].
    rewrite decide_True by set_solver. destruct (static s x); [|done]. cbn. by apply Z.eqb_neq. }
  assert (x ∉ l') as Hxl by (apply NoDup_app in Hnd as (_ & _ & ?%NoDup_cons); tauto).
  assert (∀ y, y ∈ l' → waits_on s1 ua y = waits_on s ua y) as Hwl
    by (intros y Hy; rewrite Hwait, decide_False by (intros ->; done); done).
  set (ln := if decide (from = to) then l' ++ [x] else l').
  specialize (IH (pre ++ sk) ln (i + 1) s1 (move Q from to ((pre ++ sk) ++ l') [x]) Hne Hto (proj1 Hone)).
  rewrite length_app, matching_app, matching_cons, Hl' in Hf. cbn [length] in Hf.
  assert (length ln + matching s1 ua ln < fuel)%nat as Hf'.
  { unfold ln. case_decide; rewrite ?length_app, ?matching_app, ?matching_cons, (matching_ext s s1), ?Hwait by done; cbn [length matching filter list_filter];
      [|lia]. rewrite decide_True by done. cbn. lia. }
  specialize (IH ltac:(rewrite move_at; unfold ln; repeat case_decide; subst; done || by rewrite app_assoc) Hf').
  cbn [pick]. rewrite Hl', (proj2 (Z.ltb_lt 0 (nr - i))) by lia. cbn [andb].
  assert (pick (waits_on s1 ua) (nr - (i + 1)) ln =
    let '(t, r) := pick (waits_on s ua) (nr - i - 1) l' in (t, if decide (from = to) then r ++ [x] else r)) as Hp.
  { replace (nr - (i + 1)) with (nr - i - 1) by lia. rewrite <- (pick_ext (waits_on s1 ua) (waits_on s ua)) by done.
    unfold ln. case_decide; [|by destruct (pick _ _ l')]. rewrite pick_snoc; [done|]. by rewrite Hwait, decide_True. }
  rewrite Hp in IH. destruct (pick (waits_on s ua) (nr - i - 1) l') as [t r].
  destruct IH as (s' & -> & Hm). exists s'. split; [done|].
  eapply (moved_cons _ _ _ _ _ (pre ++ sk) x l'); [done|exact Hone|].
  rewrite app_assoc. replace (if decide (from = to) then ((pre ++ sk) ++ r) ++ [x] else (pre ++ sk) ++ r)
    with ((pre ++ sk) ++ if decide (from = to) then r ++ [x] else r); [done|].
  case_decide; by rewrite ?app_assoc.
Qed.

(** *** Waiting *)

Definition newElem (qe : Z) (x : FutexQueueElem) (s : futexes) : futexes :=
  set_elems (<[qe := x]> (elems s)) s.

Lemma lists_new s Q qe x : lists s Q → (∀ h, qe ∉ Q h) → lists (newElem qe x s) Q.
Proof.
  intros HQ Hq. assert (∀ h y, y ∈ Q h → elems (newElem qe x s) !! y = elems s !! y) as Hl.
  { intros h y Hy. cbn. rewrite lookup_insert_ne; [done|]. intros ->. by eapply Hq. }
  split.
  - intros h. eapply holds_frame; [apply HQ| |done]. intros c [->|(e & He & ->)]; [done|].
    cbn [value]. by rewrite (Hl h e He).
  - intros h y Hy. unfold static. rewrite (Hl h y Hy). by apply HQ.
Qed.

Lemma lists_dead s Q qe : lists s Q → (∀ h, qe ∉ Q h) → lists (set_elems (delete qe (elems s)) s) Q.
Proof.
  intros HQ Hq. assert (∀ h y, y ∈ Q h → delete qe (elems s) !! y = elems s !! y) as Hl.
  { intros h y Hy. rewrite lookup_delete_ne; [done|]. intros ->. by eapply Hq. }
  split.
  - intros h. eapply holds_frame; [apply HQ| |done]. intros c [->|(e & He & ->)]; [done|].
    cbn [value set_elems elems]. by rewrite (Hl h e He).
  - intros h y Hy. unfold static. cbn [set_elems elems]. rewrite (Hl h y Hy). by apply HQ.
Qed.

Lemma wait_enqueue_run s Q qe self ua val :
  lists s Q → elems s !! qe = None → qe ≠ 0 →
  let h := hash_futex ua in
  if val =? default 0 (words s !! ua) then
    ∃ s', wait_enqueue qe self ua val s = Done None s' ∧ lists s' (<[h := Q h ++ [qe]]> Q) ∧
      words s' = words s ∧ signals s' = signals s ∧
      (∀ x, static s' x = if decide (x = qe) then Some (self, ua) else static s x) ∧
      (∀ x, (∀ h, x ∉ Q h) → x ≠ qe → value s' (Next x) = value s (Next x))
  else wait_enqueue qe self ua val s = Done (Some (- EAGAIN)) s.
Proof.
  intros HQ Hqe H0 h. assert (∀ h, qe ∉ Q h) as Hout.
  { intros h' (p & Hp & _)%HQ. unfold static in Hp. by rewrite Hqe in Hp. }
  unfold wait_enqueue. fold h. set (s1 := newElem qe (mkElem self ua 0) s).
  rewrite (kbind_run _ _ s tt s1) by done. rewrite (kbind_run kget _ s1 s1 s1) by done.
  assert (default 0 (words s1 !! ua) = default 0 (words s !! ua)) as -> by done.
  destruct (Z.eqb_spec val (default 0 (words s !! ua))); cbn [negb].
  2:{ unfold kbind, kput, kret. f_equal. unfold s1, newElem, set_elems. cbn.
      rewrite delete_insert_id by done. by destruct s. }
  assert (lists s1 Q) as HQ1 by (by apply lists_new).
  rewrite (kbind_run _ _ _ _ _ (append_run _ _ _ qe (proj1 HQ1 h))).
  pose proof (holds_value s1 h (Q h) []) as Hb. rewrite app_nil_r in Hb. specialize (Hb (proj1 HQ1 h)).
  eexists. split; [done|].
  assert (elems s1 !! qe = Some (mkElem self ua 0)) as He by (cbn; by rewrite lookup_insert_eq).
  pose proof (others_upd (behind h (Q h)) qe s1) as [= Hsg Hw].
  split; [|split; [exact Hw|split; [exact Hsg|split]]].
  - eapply (lists_append _ _ _ _ (self, ua)); [done|done|done| |done|].
    + unfold static. by rewrite He.
    + cbn [value]. by rewrite He.
  - intros x. rewrite static_retail, static_upd. unfold static. cbn. destruct (decide (x = qe)) as [->|Hne].
    + by rewrite lookup_insert_eq.
    + by rewrite lookup_insert_ne.
  - intros x Hx Hne. rewrite value_retail, value_upd, decide_False by (by apply behind_out || by rewrite Hb).
    cbn. by rewrite lookup_insert_ne.
Qed.

Lemma removed_run qe s n : value s (Next qe) = Some n → removed qe s = Done (n =? REMOVED) s.
Proof. intros Hn. unfold removed. by rewrite (kbind_run _ _ _ _ _ (load_run _ _ _ Hn)). Qed.

Lemma removed_Done qe s r s' :
  removed qe s = Done r s' → s' = s ∧ ∃ n, value s (Next qe) = Some n ∧ r = (n =? REMOVED).
Proof.
  destruct (value s (Next qe)) as [n|] eqn:E.
  - rewrite (removed_run _ _ _ E). intros [= <- <-]. eauto.
  - cbn in E. unfold removed, load, get_elem, kbind. by destruct (elems s !! qe).
Qed.

(** The search takes out the element when the queue holds it. *)
Lemma wait_search_run s Q h qe n l : ∀ fuel pre,
  lists s Q → Q h = pre ++ l → qe ∉ pre → (length l ≤ fuel)%nat →
  value s (Next qe) = Some n → n ≠ REMOVED →
  ∃ s', wait_search fuel h qe (behind h pre) s = Done tt s' ∧
    (qe ∉ l ∧ s' = s ∨ ∃ l1 l2, l = l1 ++ qe :: l2 ∧ s' = taken h (pre ++ l1) l2 s).
Proof.
  induction l as [|x l IH]; intros fuel pre HQ Hh Hpre Hf Hn Hr;
    pose proof (proj1 HQ h) as Hq; rewrite Hh in Hq; pose proof (load_run _ _ _ (holds_value _ _ _ _ Hq)) as Hl.
  - exists s. split; [|left; split; [apply not_elem_of_nil|done]].
    destruct fuel; cbn [wait_search]; by rewrite (kbind_run _ _ _ _ _ Hl).
  - destruct fuel as [|fuel]; [cbn in Hf; lia|]. cbn [wait_search]. rewrite (kbind_run _ _ _ _ _ Hl). cbn [hd].
    assert (x ≠ 0) as Hx0 by (destruct Hq as (_ & _ & _ & ?); set_solver).
    rewrite (proj2 (Z.eqb_neq x 0) Hx0), (kbind_run _ _ _ _ _ (removed_run _ _ _ Hn)).
    rewrite (proj2 (Z.eqb_neq n REMOVED) Hr). rewrite (kbind_run (kassert (negb false)) _ s tt s) by done.
    destruct (Z.eqb_spec x qe) as [->|Hne].
    + rewrite (kbind_run _ _ _ _ _ (take_out_run _ _ _ _ _ Hq)). eexists. split; [done|].
      right. exists [], l. by rewrite app_nil_r.
    + destruct (IH fuel (pre ++ [x])) as (s' & Hs' & Hcase);
        [done|by rewrite Hh, <- app_assoc|set_solver|cbn in Hf; lia|done|done|].
      rewrite behind_snoc in Hs'. exists s'. split; [done|].
      destruct Hcase as [[? ->]|(l1 & l2 & -> & ->)]; [left; set_solver|].
      right. exists (x :: l1), l2. by rewrite <- app_assoc.
Qed.

(** ** The operations on sequences of waiters *)

Lemma futex_wake_run s Q fuel ua nr :
  lists s Q → (length (Q (hash_futex ua)) < fuel)%nat →
  let '(t, r) := pick (waits_on s ua) nr (Q (hash_futex ua)) in
  ∃ s', futex_wake fuel ua nr s = Done 0 s' ∧ woken s Q (hash_futex ua) t r s'.
Proof.
  intros HQ Hf. unfold futex_wake. set (h := hash_futex ua) in *.
  pose proof (wake_loop_run h ua nr fuel [] (Q h) 0 s Q HQ eq_refl Hf) as Hw.
  rewrite Z.sub_0_r in Hw. destruct (pick (waits_on s ua) nr (Q h)) as [t r].
  destruct Hw as (sk & l' & ended & s' & _ & _ & _ & Hrun & Hw). exists s'. split; [|done].
  by rewrite (kbind_run _ _ _ _ _ Hrun).
Qed.

(** C23: futex_wake terminates and wakes exactly the first [nr] threads that wait on
    the address, in the order in which they came: each of them is signalled and its
    element marked as removed, and the queue keeps all others in their order with a
    correct tail. *)
Theorem futex_wake_refines s Q fuel ua nr :
  lists s Q → (length (Q (hash_futex ua)) < fuel)%nat →
  let '(t, r) := pick (waits_on s ua) nr (Q (hash_futex ua)) in
  ∃ s', futex_wake fuel ua nr s = Done 0 s' ∧ woken s Q (hash_futex ua) t r s'.
Proof. apply futex_wake_run. Qed.

Lemma futex_requeue_run s Q fuel ua ua2 val val2 :
  lists s Q → ua ≠ ua2 → (2 * length (Q (hash_futex ua)) < fuel)%nat →
  let '(t, r) := pick (waits_on s ua) val (Q (hash_futex ua)) in
  let '(t2, r2) := pick (waits_on s ua) val2 r in
  ∃ s1 s', futex_requeue fuel ua ua2 val val2 s = Done 0 s' ∧
    woken s Q (hash_futex ua) t r s1 ∧
    moved s1 (<[hash_futex ua := r]> Q) (hash_futex ua) (hash_futex ua2) ua2 t2 r2 s'.
Proof.
  intros HQ Hne Hf. unfold futex_requeue. set (h := hash_futex ua) in *.
  pose proof (wake_loop_run h ua val fuel [] (Q h) 0 s Q HQ eq_refl ltac:(lia)) as Hw.
  rewrite Z.sub_0_r in Hw. destruct (pick (waits_on s ua) val (Q h)) as [t r] eqn:Ep.
  destruct Hw as (sk & l' & ended & s1 & -> & Hsk & Hend & Hrun & Hw). cbn [app] in Hw.
  rewrite pick_skip by done. assert (∀ y, waits_on s1 ua y = waits_on s ua y) as Hwait.
  { intros y. unfold waits_on. destruct Hw as (_ & _ & _ & -> & _). done. }
  destruct ended.
  { rewrite Hend in * by done. cbn [pick]. exists s1, s1. split; [by rewrite (kbind_run _ _ _ _ _ Hrun)|].
    split; [done|]. pose proof (moved_none s1 (<[h := sk ++ []]> Q) h (hash_futex ua2) ua2 (proj1 Hw)) as Hm.
    by rewrite fn_lookup_insert in Hm. }
  assert (length l' + matching s1 ua l' < fuel)%nat as Hf'.
  { assert (length l' ≤ length (Q h))%nat.
    { apply pick_parts in Ep as [-> _]. rewrite !length_app. lia. }
    assert (matching s1 ua l' ≤ length l')%nat by apply length_filter. lia. }
  pose proof (requeue_loop_run h (hash_futex ua2) ua ua2 val2 fuel sk l' 0 s1 (<[h := sk ++ l']> Q)
    Hne eq_refl (proj1 Hw) ltac:(by rewrite fn_lookup_insert) Hf') as Hr.
  rewrite Z.sub_0_r, (pick_ext _ (waits_on s ua)) in Hr by done.
  destruct (pick (waits_on s ua) val2 l') as [t2 r2]. destruct Hr as (s' & Hrun' & Hm).
  exists s1, s'. split; [|done]. rewrite (kbind_run _ _ _ _ _ Hrun). cbn [app].
  by rewrite (kbind_run _ _ _ _ _ Hrun').
Qed.

(** Futex_requeue terminates and wakes the first [val] threads that wait on the
    source address; of those that remain, the first [val2] move in their order to the
    end of the queue of the target address, which may be the same queue, and wait
    for the target address from then on; all others stay in order. *)
Theorem futex_requeue_refines s Q fuel ua ua2 val val2 :
  lists s Q → ua ≠ ua2 → (2 * length (Q (hash_futex ua)) < fuel)%nat →
  let '(t, r) := pick (waits_on s ua) val (Q (hash_futex ua)) in
  let '(t2, r2) := pick (waits_on s ua) val2 r in
  ∃ s1 s', futex_requeue fuel ua ua2 val val2 s = Done 0 s' ∧
    woken s Q (hash_futex ua) t r s1 ∧
    moved s1 (<[hash_futex ua := r]> Q) (hash_futex ua) (hash_futex ua2) ua2 t2 r2 s'.
Proof. apply futex_requeue_run. Qed.

(** ** Threads that interleave the operations

    A thread in [futex_wait] is known by its element.  [mythos_wait] returns for
    signals and for any other reason, so a suspended thread may continue at any
    time. *)

Inductive phase := Suspended | Awake | Locking.

Record config := mkC { fx : futexes; waiting : gmap Z (Z * phase) }.

Definition store_word (a v : Z) (s : futexes) : futexes := set_words (<[a := v]> (words s)) s.

(** Enough fuel for every loop. *)
Definition bound (s : futexes) : nat := S (2 * size (elems s)).

Inductive cstep : config → config → Prop :=
  | c_enqueue c qe self ua val s' :
      waiting c !! qe = None → 1 < qe → wait_enqueue qe self ua val (fx c) = Done None s' →
      cstep c (mkC s' (<[qe := (ua, Suspended)]> (waiting c)))
  | c_again c qe self ua val e s' :
      waiting c !! qe = None → 1 < qe → wait_enqueue qe self ua val (fx c) = Done (Some e) s' →
      cstep c (mkC s' (waiting c))
  | c_resume c qe ua :
      waiting c !! qe = Some (ua, Suspended) →
      cstep c (mkC (fx c) (<[qe := (ua, Awake)]> (waiting c)))
  | c_test c qe ua s' :
      waiting c !! qe = Some (ua, Awake) → removed qe (fx c) = Done false s' →
      cstep c (mkC s' (<[qe := (ua, Locking)]> (waiting c)))
  | c_return c qe ua s' s'' :
      waiting c !! qe = Some (ua, Awake) → removed qe (fx c) = Done true s' →
      wait_return qe s' = Done 0 s'' → cstep c (mkC s'' (delete qe (waiting c)))
  | c_locked c qe ua s' s'' :
      waiting c !! qe = Some (ua, Locking) → wait_locked (bound (fx c)) qe ua (fx c) = Done tt s' →
      wait_return qe s' = Done 0 s'' → cstep c (mkC s'' (delete qe (waiting c)))
  | c_wake c ua n s' :
      futex_wake (bound (fx c)) ua n (fx c) = Done 0 s' → cstep c (mkC s' (waiting c))
  | c_requeue c ua ua2 val val2 s' :
      ua ≠ ua2 → hash_futex ua = hash_futex ua2 →
      futex_requeue (bound (fx c)) ua ua2 val val2 (fx c) = Done 0 s' → cstep c (mkC s' (waiting c))
  | c_store c a v : cstep c (mkC (store_word a v (fx c)) (waiting c)).

Definition initial (w : gmap Z Z) : config := mkC (mkF ∅ ∅ w []) ∅.

(** A thread waits on an address: it is in [futex_wait] and nobody removed it. *)
Definition waits_for (c : config) (ua qe : Z) : Prop :=
  is_Some (waiting c !! qe) ∧ waits_on (fx c) ua qe = true ∧ value (fx c) (Next qe) ≠ Some REMOVED.

(** Every thread in [futex_wait] is in the queue of its address or marked as removed,
    and nothing else is in the queues. *)
Definition cinv (c : config) (Q : Z → list Z) : Prop :=
  lists (fx c) Q ∧
  (∀ h x, x ∈ Q h → 1 < x ∧ is_Some (waiting c !! x)) ∧
  (∀ x, is_Some (static (fx c) x) → is_Some (waiting c !! x)) ∧
  (∀ x ua ph, waiting c !! x = Some (ua, ph) → 1 < x ∧
     ∃ p, static (fx c) x = Some p ∧ hash_futex p.2 = hash_futex ua ∧
          (value (fx c) (Next x) = Some REMOVED ∨ x ∈ Q (hash_futex ua))).

Lemma cinv_initial w : cinv (initial w) (λ _, []).
Proof.
  split; [|split; [|split]].
  - split; [|intros h x Hx; by apply not_elem_of_nil in Hx]. intros h. split.
    + intros l1 l2 [-> ->]%eq_sym%app_eq_nil. done.
    + split; [done|]. split; [apply NoDup_nil_2|apply not_elem_of_nil].
  - intros h x Hx. by apply not_elem_of_nil in Hx.
  - intros x [p Hp]. done.
  - intros x ua ph Hx. done.
Qed.

Lemma queued_next s Q h x : lists s Q → x ∈ Q h → ∃ n, value s (Next x) = Some n ∧ (n = 0 ∨ n ∈ Q h).
Proof.
  intros HQ Hx. pose proof (proj1 HQ h) as Hq. apply list_elem_of_split in Hx as (l1 & l2 & Hh).
  rewrite Hh in Hq. exists (hd 0 l2). split; [by eapply holds_next|].
  destruct l2; [by left|right]. rewrite Hh. set_solver.
Qed.

Lemma queued_not_removed c Q h x : cinv c Q → x ∈ Q h → value (fx c) (Next x) ≠ Some REMOVED.
Proof.
  intros (HQ & Hin & _) Hx. destruct (queued_next _ _ _ _ HQ Hx) as (n & -> & [->|Hn]); [done|].
  apply Hin in Hn as [Hn _]. intros [= ->]. done.
Qed.

(** Changes of the queues that keep the threads. *)
Lemma cinv_same c Q s' Q' :
  cinv c Q → lists s' Q' →
  (∀ h x, x ∈ Q' h → ∃ h', x ∈ Q h') →
  (∀ x, (λ p, (p.1, hash_futex p.2)) <$> static s' x = (λ p, (p.1, hash_futex p.2)) <$> static (fx c) x) →
  (∀ h x, x ∈ Q h → value s' (Next x) = Some REMOVED ∨ x ∈ Q' h) →
  (∀ x, (∀ h, x ∉ Q h) → value s' (Next x) = value (fx c) (Next x)) →
  cinv (mkC s' (waiting c)) Q'.
Proof.
  intros (HQ & Hin & Hall & Hw) HQ' Hsub Hst Hq Hout. split; [done|]. split; [|split].
  - intros h x (h' & Hx)%Hsub. by apply Hin in Hx.
  - intros x [p Hp]. cbn in Hp |- *. apply Hall. specialize (Hst x). rewrite Hp in Hst.
    destruct (static (fx c) x); [done|discriminate].
  - intros x ua ph Hx. destruct (Hw x ua ph Hx) as (Hx1 & p & Hp & Hh & Hcase). specialize (Hst x). rewrite Hp in Hst.
    cbn in Hst. split; [done|]. destruct (static s' x) as [p'|] eqn:Hp'; [|discriminate]. cbn in Hst. injection Hst as _ Hh'.
    exists p'. split; [done|]. split; [congruence|]. cbn [fx].
    destruct (decide (x ∈ Q (hash_futex ua))) as [Hi|Hi]; [by apply Hq in Hi|].
    destruct Hcase as [Hr|]; [|done]. left. rewrite Hout; [done|]. intros h Hi'.
    by apply (queued_not_removed c Q h x) in Hi'.
Qed.

Lemma queue_bound s Q h : lists s Q → (length (Q h) ≤ size (elems s))%nat.
Proof.
  intros HQ. rewrite <- size_dom. pose proof (proj1 HQ h) as (_ & _ & Hn & _).
  rewrite <- (size_list_to_set (C := gset Z) (Q h)) by done. apply subseteq_size. intros x Hx.
  apply elem_of_list_to_set in Hx. destruct (proj2 HQ h x Hx) as (p & Hp & _).
  apply elem_of_dom. unfold static in Hp. by destruct (elems s !! x).
Qed.

(** The thread [qe] leaves. *)
Lemma cinv_leave c Q s' qe :
  cinv c Q → lists s' (λ h, filter (.≠ qe) (Q h)) →
  (∀ x, static s' x = static (fx c) x) →
  (∀ x, (∀ h, x ∉ Q h) → value s' (Next x) = value (fx c) (Next x)) →
  cinv (mkC (set_elems (delete qe (elems s')) s') (delete qe (waiting c))) (λ h, filter (.≠ qe) (Q h)).
Proof.
  intros (HQ & Hin & Hall & Hw) HQ' Hst Hout.
  assert (∀ x, x ≠ qe → delete qe (elems s') !! x = elems s' !! x) as Hd by (intros; by rewrite lookup_delete_ne).
  split; [|split; [|split]].
  - apply lists_dead; [done|]. intros h [? _]%list_elem_of_filter. done.
  - intros h x [Hne Hx]%list_elem_of_filter. apply Hin in Hx as [? ?]. cbn. by rewrite lookup_delete_ne.
  - intros x Hx. cbn in *. destruct (decide (x = qe)) as [->|Hne].
    + unfold static in Hx. cbn in Hx. rewrite lookup_delete_eq in Hx. by destruct Hx.
    + rewrite lookup_delete_ne by done. apply Hall. rewrite <- Hst. unfold static in Hx |- *. cbn in Hx.
      by rewrite Hd in Hx.
  - intros x ua ph. cbn. destruct (decide (x = qe)) as [->|Hne]; [by rewrite lookup_delete_eq|].
    rewrite lookup_delete_ne by done. intros Hx. destruct (Hw x ua ph Hx) as (Hx1 & p & Hp & Hh & Hcase). split; [done|].
    exists p. unfold static. cbn. rewrite !Hd by done. split; [rewrite <- Hp; apply Hst|]. split; [done|].
    destruct (decide (x ∈ Q (hash_futex ua))) as [Hi|Hi].
    + right. by apply list_elem_of_filter.
    + destruct Hcase as [Hr|]; [|done]. left. rewrite <- Hr. apply Hout. intros h Hx'.
      destruct (proj2 HQ h x Hx') as (p' & Hp' & <-). rewrite Hp in Hp'. injection Hp' as <-. by rewrite Hh in Hx'.
Qed.

(** Under the lock the thread takes its element out of its queue. *)
Lemma wait_locked_run c Q qe ua ph :
  cinv c Q → waiting c !! qe = Some (ua, ph) →
  ∃ s', wait_locked (bound (fx c)) qe ua (fx c) = Done tt s' ∧
    lists s' (λ h, filter (.≠ qe) (Q h)) ∧ (∀ x, static s' x = static (fx c) x) ∧
    (∀ x, (∀ h, x ∉ Q h) → value s' (Next x) = value (fx c) (Next x)).
Proof.
  intros Hc Hqe. pose proof Hc as (HQ & Hin & Hall & Hw).
  destruct (Hw qe ua ph Hqe) as (_ & p & Hp & Hh & Hcase). set (h := hash_futex ua) in *.
  assert (∃ n, value (fx c) (Next qe) = Some n) as [n Hn].
  { unfold static in Hp. cbn. destruct (elems (fx c) !! qe); [eauto|done]. }
  assert (∀ h', h' ≠ h → qe ∉ Q h') as Hother.
  { intros h' Hne Hi. destruct (proj2 HQ h' qe Hi) as (p' & Hp' & <-). congruence. }
  unfold wait_locked. fold h. rewrite (kbind_run _ _ _ _ _ (removed_run _ _ _ Hn)).
  assert (∀ h', qe ∉ Q h' → filter (.≠ qe) (Q h') = Q h') as Hf by (intros; by apply filter_absent).
  destruct (Z.eqb_spec n REMOVED) as [->|Hr].
  - exists (fx c). split; [done|]. split; [|done]. eapply lists_ext; [|exact HQ]. intros h'.
    symmetry. apply Hf. intros Hi. by apply (queued_not_removed c Q h' qe) in Hi.
  - destruct Hcase as [Hr'|Hi]; [congruence|].
    destruct (wait_search_run (fx c) Q h qe n (Q h) (bound (fx c)) []) as (s' & Hs' & [[Hno _]|(l1 & l2 & Hl & ->)]);
      [done|done|apply not_elem_of_nil| |done|done|done|].
    { pose proof (queue_bound (fx c) Q h HQ). unfold bound. lia. }
    exists (taken h l1 l2 (fx c)). split; [done|]. split; [|split].
    + eapply lists_ext; [|by eapply lists_taken]. intros h'. destruct (decide (h' = h)) as [->|Hne].
      * rewrite fn_lookup_insert, Hl, filter_app, filter_cons_False by naive_solver.
        pose proof (proj1 HQ h) as (_ & _ & Hnd & _). rewrite Hl in Hnd.
        apply NoDup_app in Hnd as (_ & Hd & [Hq _]%NoDup_cons). rewrite !filter_absent by set_solver. done.
      * rewrite fn_lookup_insert_ne by done. symmetry. auto.
    + intros x. apply static_taken.
    + intros x Hx. eapply next_taken; eauto.
Qed.

Lemma pick_sub P n l t r x : pick P n l = (t, r) → x ∈ l ↔ x ∈ t ∨ x ∈ r.
Proof. intros [-> _]%pick_parts. apply elem_of_app. Qed.

Lemma cinv_woken c Q h t r s' :
  cinv c Q → (∀ x, x ∈ Q h ↔ x ∈ t ∨ x ∈ r) → woken (fx c) Q h t r s' →
  cinv (mkC s' (waiting c)) (<[h := r]> Q).
Proof.
  intros Hc Hx (HQ' & _ & Hm & Hst & Hv & _). eapply cinv_same; [exact Hc|done| | | |done].
  - intros h' x. destruct (decide (h' = h)) as [->|Hne].
    + rewrite fn_lookup_insert. intros Hr. exists h. apply Hx. by right.
    + rewrite fn_lookup_insert_ne by done. eauto.
  - intros x. by rewrite Hst.
  - intros h' x. destruct (decide (h' = h)) as [->|Hne].
    + rewrite fn_lookup_insert. intros [?|?]%Hx; [left; by apply Hm|by right].
    + rewrite fn_lookup_insert_ne by done. by right.
Qed.

Lemma cinv_moved c Q h ua2 t r s' :
  cinv c Q → (∀ x, x ∈ Q h ↔ x ∈ t ∨ x ∈ r) → hash_futex ua2 = h → moved (fx c) Q h h ua2 t r s' →
  cinv (mkC s' (waiting c)) (move Q h h r t).
Proof.
  intros Hc Hx Hh (HQ' & _ & _ & Hst & Hv). eapply cinv_same; [exact Hc|done| | | |done].
  - intros h' x [?|[?|?]]%move_in; [exists h; apply Hx; by left|exists h; apply Hx; by right|eauto].
  - intros x. rewrite Hst. case_decide as Ht; [|done].
    destruct (proj2 (proj1 Hc) h x) as (p & -> & Hp); [apply Hx; by left|]. cbn. congruence.
  - intros h' x Hi. right. rewrite move_at. repeat case_decide; subst; try done.
    apply Hx in Hi. set_solver.
Qed.

Lemma cinv_fresh c Q qe : cinv c Q → waiting c !! qe = None → elems (fx c) !! qe = None.
Proof.
  intros (_ & _ & Hall & _) Hqe. destruct (elems (fx c) !! qe) as [e|] eqn:E; [|done].
  destruct (Hall qe) as [? ?]; [unfold static; rewrite E; eauto|congruence].
Qed.

Lemma c_enqueue_inv c Q qe self ua val s' :
  cinv c Q → waiting c !! qe = None → 1 < qe → wait_enqueue qe self ua val (fx c) = Done None s' →
  ∃ Q', cinv (mkC s' (<[qe := (ua, Suspended)]> (waiting c))) Q'.
Proof.
  intros Hc Hqe Hlt He. pose proof (cinv_fresh c Q qe Hc Hqe) as Hnew. destruct Hc as (HQ & Hin & Hall & Hw).
  pose proof (wait_enqueue_run (fx c) Q qe self ua val HQ Hnew ltac:(lia)) as Hrun. cbn zeta in Hrun.
  destruct (val =? default 0 (words (fx c) !! ua)); [|rewrite He in Hrun; discriminate].
  destruct Hrun as (s'' & He' & HQ' & _ & _ & Hst & Hv). rewrite He in He'. injection He' as <-.
  set (h := hash_futex ua) in *.
  assert (∀ h' x, x ∈ (<[h := Q h ++ [qe]]> Q : Z → list Z) h' ↔ x ∈ Q h' ∨ (h' = h ∧ x = qe)) as Hins.
  { intros h' x. destruct (decide (h' = h)) as [->|Hne].
    - rewrite fn_lookup_insert, elem_of_app, list_elem_of_singleton. tauto.
    - rewrite fn_lookup_insert_ne by done. tauto. }
  exists (<[h := Q h ++ [qe]]> Q). split; [done|]. split; [|split]; cbn.
  - intros h' x [Hx|[-> ->]]%Hins; [|by rewrite lookup_insert_eq].
    apply Hin in Hx as [? [y Hy]]. split; [done|]. rewrite lookup_insert_ne by congruence. eauto.
  - intros x Hx. rewrite Hst in Hx. destruct (decide (x = qe)) as [->|Hne]; [by rewrite lookup_insert_eq|].
    rewrite lookup_insert_ne by done. auto.
  - intros x ua' ph. destruct (decide (x = qe)) as [->|Hne].
    + rewrite lookup_insert_eq. intros [= <- <-]. split; [done|]. exists (self, ua). rewrite Hst, decide_True by done.
      split; [done|]. split; [done|]. right. apply Hins. by right.
    + rewrite lookup_insert_ne by done. intros Hx. destruct (Hw x ua' ph Hx) as (Hx1 & p & Hp & Hh & Hcase).
      split; [done|]. exists p. rewrite Hst, decide_False by done. split; [done|]. split; [done|].
      destruct (decide (x ∈ Q (hash_futex ua'))) as [Hi|Hi]; [right; apply Hins; by left|].
      destruct Hcase as [Hr|]; [|done]. left. transitivity (value (fx c) (Next x)); [|done].
      apply Hv; [|done]. intros h' Hx'.
      destruct (proj2 HQ h' x Hx') as (p' & Hp' & <-). rewrite Hp in Hp'. injection Hp' as <-. by rewrite Hh in Hx'.
Qed.

Lemma cinv_phase c Q s' qe ua ph ph' :
  cinv c Q → s' = fx c → waiting c !! qe = Some (ua, ph) → cinv (mkC s' (<[qe := (ua, ph')]> (waiting c))) Q.
Proof.
  intros (HQ & Hin & Hall & Hw) -> Hqe.
  assert (∀ x, is_Some (waiting c !! x) → is_Some (<[qe := (ua, ph')]> (waiting c) !! x)) as Hs.
  { intros x [y Hy]. destruct (decide (x = qe)) as [->|]; [by rewrite lookup_insert_eq|].
    rewrite lookup_insert_ne by done. eauto. }
  split; [done|]. split; [|split]; cbn.
  - intros h x Hx. apply Hin in Hx as [? ?]. auto.
  - auto.
  - intros x ua' ph''. destruct (decide (x = qe)) as [->|Hne].
    + rewrite lookup_insert_eq. intros [= <- <-]. by eapply Hw.
    + rewrite lookup_insert_ne by done. by eapply Hw.
Qed.

Lemma c_wake_inv c Q ua n s' :
  cinv c Q → futex_wake (bound (fx c)) ua n (fx c) = Done 0 s' → ∃ Q', cinv (mkC s' (waiting c)) Q'.
Proof.
  intros Hc Hwk. pose proof (futex_wake_run (fx c) Q (bound (fx c)) ua n (proj1 Hc)) as Hrun.
  destruct (pick (waits_on (fx c) ua) n (Q (hash_futex ua))) as [t r] eqn:Ep.
  destruct Hrun as (s1 & Hwk' & Hwo).
  { pose proof (queue_bound (fx c) Q (hash_futex ua) (proj1 Hc)). unfold bound. lia. }
  rewrite Hwk in Hwk'. injection Hwk' as <-. eexists. eapply cinv_woken; [done| |exact Hwo].
  intros x. by eapply pick_sub.
Qed.

Lemma c_requeue_inv c Q ua ua2 val val2 s' :
  cinv c Q → ua ≠ ua2 → hash_futex ua = hash_futex ua2 →
  futex_requeue (bound (fx c)) ua ua2 val val2 (fx c) = Done 0 s' → ∃ Q', cinv (mkC s' (waiting c)) Q'.
Proof.
  intros Hc Hne Hh Hwk.
  pose proof (futex_requeue_run (fx c) Q (bound (fx c)) ua ua2 val val2 (proj1 Hc) Hne) as Hrun.
  destruct (pick (waits_on (fx c) ua) val (Q (hash_futex ua))) as [t r] eqn:Ep.
  destruct (pick (waits_on (fx c) ua) val2 r) as [t2 r2] eqn:Ep2.
  destruct Hrun as (s1 & s2 & Hwk' & Hwo & Hm).
  { pose proof (queue_bound (fx c) Q (hash_futex ua) (proj1 Hc)). unfold bound. lia. }
  rewrite Hwk in Hwk'. injection Hwk' as <-. rewrite <- Hh in Hm.
  pose proof (cinv_woken c Q _ t r s1 Hc ltac:(intros x; by eapply pick_sub) Hwo) as Hc1.
  eexists. eapply (cinv_moved (mkC s1 (waiting c))); [exact Hc1| |by symmetry|exact Hm].
  intros x. rewrite fn_lookup_insert. by eapply pick_sub.
Qed.

Lemma cstep_inv c Q c' : cinv c Q → cstep c c' → ∃ Q', cinv c' Q'.
Proof.
  intros Hc Hs. pose proof Hc as (HQ & _). destruct Hs as
    [c qe self ua val s' Hq Hlt He|c qe self ua val e s' Hq Hlt He|c qe ua Hq
    |c qe ua s' Hq [-> _]%removed_Done|c qe ua s' s'' Hq [-> (n & Hn & Hr)]%removed_Done Hret
    |c qe ua s' s'' Hq Hl Hret|c ua n s' Hwk|c ua ua2 val val2 s' Hne Hh Hwk|c a v].
  - by eapply c_enqueue_inv.
  - exists Q. assert (s' = fx c) as ->; [|by destruct c].
    pose proof (wait_enqueue_run (fx c) Q qe self ua val HQ (cinv_fresh c Q qe Hc Hq) ltac:(lia)) as Hrun.
    cbn zeta in Hrun.
    destruct (val =? default 0 (words (fx c) !! ua)); [destruct Hrun as (? & ? & _)|]; congruence.
  - exists Q. by eapply cinv_phase.
  - exists Q. by eapply cinv_phase.
  - symmetry in Hr. apply Z.eqb_eq in Hr as ->. injection Hret as <-.
    exists (λ h, filter (.≠ qe) (Q h)). apply cinv_leave; [done| |done|done].
    eapply lists_ext; [|exact HQ]. intros h. symmetry. apply filter_absent. intros Hi.
    by apply (queued_not_removed c Q h qe) in Hi.
  - destruct (wait_locked_run c Q qe ua Locking Hc Hq) as (s1 & Hl' & HQ' & Hst & Hv).
    rewrite Hl in Hl'. injection Hl' as <-. injection Hret as <-.
    exists (λ h, filter (.≠ qe) (Q h)). by apply cinv_leave.
  - by eapply c_wake_inv.
  - by eapply c_requeue_inv.
  - exists Q. split; [|apply Hc]. split; [|apply HQ]. intros h.
    eapply holds_frame; [apply HQ|by intros []|done].
Qed.

Lemma reachable_cinv w c : rtc cstep (initial w) c → ∃ Q, cinv c Q.
Proof.
  intros Hr. pose proof (cinv_initial w) as H0. revert H0. generalize (λ _ : Z, @nil Z).
  induction Hr as [c|c1 c2 c3 Hs _ IH]; [eauto|]. intros Q Hc.
  destruct (cstep_inv _ _ _ Hc Hs) as [Q' Hc']. by eapply IH.
Qed.

Lemma pick_all P n l : Z.of_nat (length l) ≤ n → pick P n l = (filter (λ x, P x = true) l, filter (λ x, P x ≠ true) l).
Proof.
  revert n. induction l as [|x l IH]; intros n Hn; cbn [pick length] in *; [done|].
  rewrite (proj2 (Z.ltb_lt 0 n)) by lia. cbn [andb]. rewrite !filter_cons.
  destruct (P x) eqn:HP.
  - rewrite IH by lia. rewrite decide_True, decide_False by naive_solver. done.
  - rewrite IH by lia. rewrite decide_False, decide_True by naive_solver. done.
Qed.

Lemma wake_all c Q ua n :
  cinv c Q → Z.of_nat (size (elems (fx c))) ≤ n →
  ∃ s', futex_wake (bound (fx c)) ua n (fx c) = Done 0 s' ∧
    ∀ qe, waits_for c ua qe → value s' (Next qe) = Some REMOVED ∧
      ∃ p sent, static (fx c) qe = Some p ∧ signals s' = signals (fx c) ++ sent ∧ p.1 ∈ sent.
Proof.
  intros (HQ & Hin & Hall & Hw) Hn. pose proof (queue_bound (fx c) Q (hash_futex ua) HQ) as Hb.
  pose proof (futex_wake_run (fx c) Q (bound (fx c)) ua n HQ ltac:(unfold bound; lia)) as Hrun.
  rewrite pick_all in Hrun by lia. destruct Hrun as (s' & Hrun & _ & Hsg & Hm & _).
  exists s'. split; [done|]. intros qe ([[ua' ph] Hqe] & Hon & Hr).
  destruct (Hw qe ua' ph Hqe) as (_ & p & Hp & Hh & [?|Hi]); [done|].
  assert (p.2 = ua) as Hua by (unfold waits_on in Hon; rewrite Hp in Hon; by apply Z.eqb_eq).
  assert (qe ∈ filter (λ x, waits_on (fx c) ua x = true) (Q (hash_futex ua))) as Hf.
  { apply list_elem_of_filter. split; [done|]. by rewrite <- Hua, Hh. }
  split; [by apply Hm|]. exists p. eexists. split; [done|]. split; [exact Hsg|].
  unfold ecs. apply list_elem_of_fmap. exists qe. by rewrite Hp.
Qed.

Lemma wait_leave_run c Q qe ua ph :
  cinv c Q → waiting c !! qe = Some (ua, ph) →
  ∃ s', wait_leave (bound (fx c)) qe ua (fx c) = Done 0 s' ∧
        cinv (mkC s' (delete qe (waiting c))) (λ h, filter (.≠ qe) (Q h)).
Proof.
  intros Hc Hqe. destruct (wait_locked_run c Q qe ua ph Hc Hqe) as (s1 & Hl & HQ1 & Hst & Hv).
  pose proof Hc as (_ & _ & _ & Hw). destruct (Hw _ _ _ Hqe) as (_ & p & Hp & _).
  assert (∃ n, value (fx c) (Next qe) = Some n) as [n Hn].
  { unfold static in Hp. cbn. destruct (elems (fx c) !! qe); [eauto|done]. }
  exists (set_elems (delete qe (elems s1)) s1). split; [|by apply cinv_leave].
  unfold wait_leave. rewrite (kbind_run _ _ _ _ _ (removed_run _ _ _ Hn)).
  rewrite (kbind_run _ _ (fx c) tt s1); [done|]. destruct (n =? REMOVED) eqn:En; [|done].
  unfold wait_locked in Hl. rewrite (kbind_run _ _ _ _ _ (removed_run _ _ _ Hn)), En in Hl. done.
Qed.

(** Nothing points to an element that is in no queue. *)
Lemma no_pointer c Q x p : cinv c Q → (∀ h, x ∉ Q h) → 1 < x → value (fx c) p ≠ Some x.
Proof.
  intros (HQ & Hin & Hall & Hw) Hx Hlt Hv. destruct p as [h|e].
  - pose proof (holds_value (fx c) h [] (Q h) (proj1 HQ h)) as Hh. cbn [behind last] in Hh.
    rewrite Hv in Hh. injection Hh as ->. destruct (Q h) as [|y l] eqn:E; [cbn in Hlt; lia|].
    apply (Hx h). rewrite E. set_solver.
  - destruct (Hall e) as [[ua ph] He].
    { unfold static. cbn in Hv. destruct (elems (fx c) !! e); [eauto|done]. }
    destruct (Hw e ua ph He) as (_ & p & Hp & Hh & [Hr|Hi]).
    + rewrite Hv in Hr. injection Hr as ->. unfold REMOVED in Hlt. lia.
    + destruct (queued_next _ _ _ _ HQ Hi) as (n & Hn & Hcase). rewrite Hv in Hn. injection Hn as ->.
      destruct Hcase as [->|?]; [lia|by eapply Hx].
Qed.

(** C24: However threads interleave waiting, waking, requeueing within a queue and
    changing the words, and whatever wakes a suspended thread, no operation touches
    the element of a thread that has left: a call of futex_wake for all waiters
    succeeds, marks and signals every thread that waits on the address, and a thread
    that continues returns from futex_wait without any pointer to its element left
    behind. *)
Theorem futex_threads_safe w c :
  rtc cstep (initial w) c →
  (∀ ua n, Z.of_nat (size (elems (fx c))) ≤ n →
     ∃ s', futex_wake (bound (fx c)) ua n (fx c) = Done 0 s' ∧
       ∀ qe, waits_for c ua qe → value s' (Next qe) = Some REMOVED ∧
         ∃ p sent, static (fx c) qe = Some p ∧ signals s' = signals (fx c) ++ sent ∧ p.1 ∈ sent) ∧
  (∀ qe ua ph, waiting c !! qe = Some (ua, ph) →
     ∃ s', wait_leave (bound (fx c)) qe ua (fx c) = Done 0 s' ∧ ∀ p, value s' p ≠ Some qe).
Proof.
  intros [Q Hc]%reachable_cinv. split.
  - intros ua n Hn. by apply (wake_all c Q).
  - intros qe ua ph Hqe. destruct (wait_leave_run c Q qe ua ph Hc Hqe) as (s' & Hrun & Hc').
    exists s'. split; [done|]. intros p. apply (no_pointer _ _ qe p Hc').
    + intros h [? _]%list_elem_of_filter. done.
    + destruct Hc as (_ & _ & _ & Hw). apply Hw in Hqe. lia.
Qed.

(** ** Requeueing to another queue *)

(** An element that is in another queue than the one of the address its thread
    searches in stays there when the thread leaves. *)
Lemma leave_wrong_queue s Q fuel ua h qe l n :
  lists s Q → Q h = qe :: l → hash_futex ua ≠ h → (length (Q (hash_futex ua)) ≤ fuel)%nat →
  value s (Next qe) = Some n → n ≠ REMOVED →
  wait_leave fuel qe ua s = Done 0 (set_elems (delete qe (elems s)) s) ∧
  queueHead (queue s h) = qe.
Proof.
  intros HQ Hh Hne Hf Hn Hr. split.
  - unfold wait_leave, wait_locked. rewrite !(kbind_run _ _ _ _ _ (removed_run _ _ _ Hn)).
    rewrite (proj2 (Z.eqb_neq n REMOVED) Hr).
    destruct (wait_search_run s Q (hash_futex ua) qe n (Q (hash_futex ua)) fuel []) as (s' & Hs' & Hcase);
      [done|done|apply not_elem_of_nil|done|done|done|].
    assert (qe ∉ Q (hash_futex ua)) as Hno.
    { intros Hi. apply Hne. eapply (lists_unique s Q _ _ qe); [done|done|]. rewrite Hh. set_solver. }
    destruct Hcase as [[_ ->]|(l1 & l2 & Hl & _)]; [|destruct Hno; rewrite Hl; set_solver].
    rewrite (kbind_run _ _ s tt s); [done|]. by rewrite (kbind_run _ _ _ _ _ (removed_run _ _ _ Hn)),
      (proj2 (Z.eqb_neq n REMOVED) Hr).
  - pose proof (proj1 HQ h) as (Hv & _). specialize (Hv [] (Q h) eq_refl). rewrite Hh in Hv. by injection Hv.
Qed.

Lemma wake_dead fuel ua n qe s :
  0 < n → qe ≠ 0 → queueHead (queue s (hash_futex ua)) = qe → elems s !! qe = None →
  futex_wake (S fuel) ua n s = AssertFail.
Proof.
  intros Hn H0 Hq He. unfold futex_wake. cbn [wake_loop]. rewrite (proj2 (Z.ltb_lt 0 n) Hn).
  assert (next_waiter fuel ua (Head (hash_futex ua)) s = AssertFail) as Hnw; [|unfold kbind; by rewrite Hnw].
  destruct fuel; cbn [next_waiter load]; unfold kbind, kget, kret, get_elem; rewrite Hq;
    rewrite (proj2 (Z.eqb_neq qe 0) H0), He; done.
Qed.

(** A thread that was requeued to an address with another queue and then
    continues for a reason other than a wake returns from futex_wait and leaves its
    element in the queue of the new address, since it looks only into the queue of
    the address it called with; the next wake on the new address reads the element
    of the thread that is gone. *)
Theorem requeued_waiter_dangles s Q fuel ua ua2 qe l :
  lists s Q → Q (hash_futex ua) = qe :: l → waits_on s ua qe = true →
  Q (hash_futex ua2) = [] → hash_futex ua ≠ hash_futex ua2 →
  (2 * length (Q (hash_futex ua)) < fuel)%nat →
  ∃ s1 s2, futex_requeue fuel ua ua2 0 1 s = Done 0 s1 ∧ wait_leave fuel qe ua s1 = Done 0 s2 ∧
    elems s2 !! qe = None ∧ queueHead (queue s2 (hash_futex ua2)) = qe ∧
    ∀ n, 0 < n → futex_wake fuel ua2 n s2 = AssertFail.
Proof.
  intros HQ Hh Hon Hto Hne Hf. set (h := hash_futex ua) in *. set (h2 := hash_futex ua2) in *.
  assert (ua ≠ ua2) as Hua by (intros ->; by apply Hne).
  pose proof (futex_requeue_run s Q fuel ua ua2 0 1 HQ Hua Hf) as Hrun. fold h h2 in Hrun.
  rewrite Hh, pick_none in Hrun by lia. cbn [pick] in Hrun. rewrite Hon, pick_none in Hrun by lia.
  destruct Hrun as (s0 & s1 & Hrun & Hw & Hm). pose proof Hm as (HQ1 & _).
  assert (move (<[h := qe :: l]> Q) h h2 l [qe] h2 = [qe]) as Hq2.
  { rewrite move_at, decide_True, decide_False, fn_lookup_insert_ne, Hto by congruence. done. }
  assert (move (<[h := qe :: l]> Q) h h2 l [qe] h = l) as Hq1.
  { by rewrite move_at, decide_False, decide_True. }
  pose proof (proj1 HQ1 h2) as Hq. rewrite Hq2 in Hq.
  assert (value s1 (Next qe) = Some 0) as Hn by (apply (holds_next s1 h2 [] qe []); done).
  destruct (leave_wrong_queue s1 _ fuel ua h2 qe [] 0 HQ1 Hq2 Hne) as [Hl Hhd]; [|done|done|].
  { fold h. rewrite Hq1. rewrite Hh in Hf. cbn in Hf. lia. }
  eexists _, _. split; [done|]. split; [exact Hl|].
  assert (elems (set_elems (delete qe (elems s1)) s1) !! qe = None) as Hdead by (cbn; by rewrite lookup_delete_eq).
  split; [done|]. split; [done|]. intros n Hn0. destruct fuel as [|fuel]; [lia|].
  eapply wake_dead; [done| |exact Hhd|done]. destruct Hq as (_ & _ & _ & Hz).
  intros ->. by apply Hz, elem_of_cons; left.
Qed.

(** ** Witnesses *)

(** Two threads wait on the address [0x1000]; one waits on [0x149c], which has the
    same queue.  The address [0x1004] has another queue. *)
Definition wF0 : futexes := mkF ∅ ∅ {[0x1000 := 7]} [].
Definition enqueued (qe self ua val : Z) (s : futexes) : futexes :=
  match wait_enqueue qe self ua val s with Done _ s' => s' | _ => s end.
Definition wF1 : futexes := enqueued 0x7000 101 0x1000 7 wF0.
Definition wF2 : futexes := enqueued 0x7100 102 0x149c 0 wF1.
Definition wF3 : futexes := enqueued 0x7200 103 0x1000 7 wF2.
Definition wQ (l : list Z) : Z → list Z := λ h, if h =? 181 then l else [].

Lemma enqueue_lists s Q qe self ua val s' Q' :
  wait_enqueue qe self ua val s = Done None s' → lists s Q → elems s !! qe = None → qe ≠ 0 →
  (∀ h, (<[hash_futex ua := Q (hash_futex ua) ++ [qe]]> Q : Z → list Z) h = Q' h) → lists s' Q'.
Proof.
  intros He HQ Hn H0 Hext. pose proof (wait_enqueue_run s Q qe self ua val HQ Hn H0) as Hrun. cbn zeta in Hrun.
  destruct (val =? _); [|congruence]. destruct Hrun as (s1 & He' & HQ' & _).
  rewrite He in He'. injection He' as <-. by eapply lists_ext.
Qed.

Lemma wQ_insert l l' h : (<[181 := l']> (wQ l) : Z → list Z) h = wQ l' h.
Proof.
  unfold wQ. destruct (decide (h = 181)) as [->|Hne]; [by rewrite fn_lookup_insert|].
  rewrite fn_lookup_insert_ne by done. by rewrite (proj2 (Z.eqb_neq h 181) Hne).
Qed.

Lemma wF1_lists : lists wF1 (wQ [0x7000]).
Proof.
  eapply (enqueue_lists wF0 (wQ []) 0x7000 101 0x1000 7); [vm_compute; reflexivity| |vm_compute; reflexivity|done|].
  - eapply lists_ext; [|exact (proj1 (cinv_initial {[0x1000 := 7]}))]. intros h. unfold wQ. by destruct (h =? 181).
  - intros h. replace (hash_futex 0x1000) with 181 by (vm_compute; reflexivity). apply wQ_insert.
Qed.

Lemma wF3_lists : lists wF3 (wQ [0x7000; 0x7100; 0x7200]).
Proof.
  eapply (enqueue_lists wF2 (wQ [0x7000; 0x7100]) 0x7200 103 0x1000 7);
    [vm_compute; reflexivity| |vm_compute; reflexivity|done|].
  - eapply (enqueue_lists wF1 (wQ [0x7000]) 0x7100 102 0x149c 0);
      [vm_compute; reflexivity|exact wF1_lists|vm_compute; reflexivity|done|].
    intros h. replace (hash_futex 0x149c) with 181 by (vm_compute; reflexivity). apply wQ_insert.
  - intros h. replace (hash_futex 0x1000) with 181 by (vm_compute; reflexivity). apply wQ_insert.
Qed.

(** Of three threads the second one on the address is left. *)
Lemma futex_wake_refines_witness :
  ∃ s', futex_wake 4 0x1000 1 wF3 = Done 0 s' ∧
        woken wF3 (wQ [0x7000; 0x7100; 0x7200]) (hash_futex 0x1000) [0x7000] [0x7100; 0x7200] s'.
Proof.
  apply (futex_wake_refines wF3 (wQ [0x7000; 0x7100; 0x7200]) 4 0x1000 1); [exact wF3_lists|].
  vm_compute. lia.
Defined.

Lemma futex_requeue_refines_witness :
  ∃ s1 s', futex_requeue 7 0x1000 0x1004 1 1 wF3 = Done 0 s' ∧
    woken wF3 (wQ [0x7000; 0x7100; 0x7200]) (hash_futex 0x1000) [0x7000] [0x7100; 0x7200] s1 ∧
    moved s1 (<[hash_futex 0x1000 := [0x7100; 0x7200]]> (wQ [0x7000; 0x7100; 0x7200]))
      (hash_futex 0x1000) (hash_futex 0x1004) 0x1004 [0x7200] [0x7100] s'.
Proof.
  apply (futex_requeue_refines wF3 (wQ [0x7000; 0x7100; 0x7200]) 7 0x1000 0x1004 1 1); [exact wF3_lists|done|].
  vm_compute. lia.
Defined.

Lemma futex_threads_safe_witness :
  ∃ s', wait_leave 3 0x7000 0x1000 wF1 = Done 0 s' ∧ ∀ p, value s' p ≠ Some 0x7000.
Proof.
  eapply (proj2 (futex_threads_safe {[0x1000 := 7]} (mkC wF1 {[0x7000 := (0x1000, Suspended)]}) _) 0x7000 0x1000 Suspended).
  vm_compute. reflexivity.
Unshelve.
  eapply rtc_l; [|apply rtc_refl].
  apply (c_enqueue (initial {[0x1000 := 7]}) 0x7000 101 0x1000 7); vm_compute; reflexivity.
Defined.

Lemma requeued_waiter_dangles_witness :
  ∃ s1 s2, futex_requeue 3 0x1000 0x1004 0 1 wF1 = Done 0 s1 ∧ wait_leave 3 0x7000 0x1000 s1 = Done 0 s2 ∧
    elems s2 !! 0x7000 = None ∧ queueHead (queue s2 (hash_futex 0x1004)) = 0x7000 ∧
    ∀ n, 0 < n → futex_wake 3 0x1004 n s2 = AssertFail.
Proof.
  apply (requeued_waiter_dangles wF1 (wQ [0x7000]) 3 0x1000 0x1004 0x7000 []); [exact wF1_lists|..].
  all: vm_compute; first [reflexivity|discriminate|lia].
Defined.

End Futex.
