(* ===== verification/MemMapper.v ===== *)
(** * Mapping memory for the initial program

    Models boot/init-loader-amd64/boot/CapAlloc.hh and MemMapper: the loader of the
    initial program maps frames at arbitrary addresses and creates the page maps that
    are missing on the way.  It remembers its page maps with their level and the
    addresses they cover, and uses the largest pages that fit.

    [mmap] is a client of page maps and frames through their interfaces, the class
    [MapOps]; [kernel_map_ops] connects it to the page maps of PageMap.v.  What
    it relies on is the class [MapLaws], in terms of what the tables hold.  With these
    laws, mapping changes the translation of addresses exactly as requested.  [Plain] are
    page maps that keep the laws. *)

From stdpp Require Import base tactics numbers list gmap.
From Stdlib Require Import ZArith Lia.
From S2P Require Import Prelude Ranges Bitfield Cap CapEntry CapRing CapSteps CapOps Heap KernelMemory CapMap Creation Frame PageTable PageMap.

Local Open Scope Z_scope.
Import Align FrameSize.

(** ** Capability pointers *)

(** [CapAlloc]; [cspace] is the first entry of the capability space,
    boot/init-loader-amd64/boot/CapAlloc.hh:58-60 *)
Record CapAlloc := mkCapAlloc { ca_next : Z; ca_remaining : Z; ca_cspace : Z }.

(** [CapAlloc::alloc], boot/init-loader-amd64/boot/CapAlloc.hh:45-51 *)
Definition ca_alloc (a : CapAlloc) : optional Z * CapAlloc :=
  if ca_remaining a =? 0 then (THROW INSUFFICIENT_RESOURCES, a)
  else (OK (ca_next a), mkCapAlloc (u32 (ca_next a + 1)) (u32 (ca_remaining a - 1)) (ca_cspace a)).

(** [CapMap::get], objects/capmap/objects/CapMap.hh:54 *)
Definition cs_get (caps idx : Z) : Z := caps + 16 * idx.

(** [CapAlloc::get], boot/init-loader-amd64/boot/CapAlloc.hh:53-55 *)
Definition ca_get (a : CapAlloc) (ptr : Z) : optional Z := OK (cs_get (ca_cspace a) ptr).

(** ** The page maps that were created *)

(** [MapInfo], boot/init-loader-amd64/boot/MemMapper.hh:43-47 *)
Record MapInfo := mkMap { m_vaddr : Z; m_cap : Z; m_level : Z }.

#[global] Instance MapInfo_eq_dec : EqDecision MapInfo.
Proof. solve_decision. Defined.

(** [MapInfo::size], boot/init-loader-amd64/boot/MemMapper.hh:50 *)
Definition map_size (m : MapInfo) : Z := pageLevel2Size (m_level m + 1).

(** [MapInfo::contains], boot/init-loader-amd64/boot/MemMapper.hh:51-53 *)
Definition map_contains (m : MapInfo) (ptr : Z) : bool :=
  (m_vaddr m <=? ptr) && (ptr <? u64 (m_vaddr m + map_size m)).

(** [MAX_PAGE_MAPS], boot/init-loader-amd64/boot/MemMapper.hh:40 *)
Definition MAX_PAGE_MAPS : nat := 20.

(** The members of [MemMapper], boot/init-loader-amd64/boot/MemMapper.hh:90-92 *)
Record MemMapper := mkMapper { caps : CapAlloc; kmemCap : Z; pagemaps : list MapInfo }.

Definition with_caps (c : CapAlloc) (mm : MemMapper) : MemMapper := mkMapper c (kmemCap mm) (pagemaps mm).

(** [VectorMax::push_back]; past the end of the array it is undefined,
    util/datatypes/util/VectorMax.hh:54 *)
Definition push_map {S} (m : MapInfo) (mm : MemMapper) : kernel S MemMapper :=
  kassert (bool_decide (length (pagemaps mm) < MAX_PAGE_MAPS)%nat);;;
  kret (mkMapper (caps mm) (kmemCap mm) (pagemaps mm ++ [m])).

(** ** Interfaces *)

Class MapOps (S : Type) := {
  (** [TypedCap<IPageMap>] of an entry. *)
  op_typedMap : Z → kernel S (optional Z);
  (** [TypedCap<IFrame>] of an entry and its [getFrameInfo]. *)
  op_frameInfo : Z → kernel S (optional MemoryRegion.Info);
  (** [MemMapper::createPageMap]: the entry of the new map. *)
  op_createMap : CapAlloc → Z → Z → Z → kernel S (optional Z);
  (** [IPageMap::mapTable] and [IPageMap::mapFrame] at an index. *)
  op_mapTable : Z → Z → Z → Z → kernel S (optional unit);
  op_mapFrame : Z → Z → Z → Z → Z → kernel S (optional unit)
}.

Section mmap.
Context {S : Type} `{MapOps S}.

(** The loop that finds the maps of an address: the last one of each level,
    boot/init-loader-amd64/boot/MemMapper.cc:141-144 *)
Definition find_levels (maps : list MapInfo) (addr l : Z) : option MapInfo :=
  last (filter (λ m, map_contains m addr = true ∧ m_level m = l) maps).

(** Adds the page map of level [l] below [up],
    boot/init-loader-amd64/boot/MemMapper.cc:151-169 *)
Definition add_map (curAddr l : Z) (up : MapInfo) (mm : MemMapper)
    : kernel S (optional MapInfo * MemMapper) :=
  let '(pmCap, ca) := ca_alloc (caps mm) in
  let mm := with_caps ca mm in
  match pmCap with
  | THROW e => kret (THROW e, mm)
  | OK pmCap =>
    pmEntry <-- op_createMap ca (kmemCap mm) pmCap l;;
    match pmEntry with
    | THROW e => kret (THROW e, mm)
    | OK pmEntry =>
      match ca_get ca (m_cap up) with
      | THROW e => kret (THROW e, mm)
      | OK upEntry =>
        pmlup <-- op_typedMap upEntry;;
        match pmlup with
        | THROW e => kret (THROW e, mm)
        | OK pmlup =>
          let tsize := pageLevel2Size (l + 1) in
          let idx := (curAddr / tsize) mod 512 in
          let req := bset 8 4 (bset 8 0 0 true) true in
          res <-- op_mapTable pmlup pmEntry req idx;;
          match res with
          | THROW e => kret (THROW e, mm)
          | OK _ =>
            let m := mkMap (round_down curAddr tsize) pmCap l in
            mm <-- push_map m mm;;
            kret (OK m, mm)
          end
        end
      end
    end
  end.

(** Step 2 for the levels below [n], [up] being [levels\[n\]]: the lowest map there
    is for the address, and its level,
    boot/init-loader-amd64/boot/MemMapper.cc:147-173 *)
Fixpoint add_missing (n : nat) (isAligned2M : bool) (curAddr : Z) (up : MapInfo) (mm : MemMapper)
    : kernel S (optional MapInfo * MemMapper) :=
  match n with
  | O => kret (OK up, mm)
  | Datatypes.S l =>
    match find_levels (pagemaps mm) curAddr (Z.of_nat l) with
    | Some m => add_missing l isAligned2M curAddr m mm
    | None =>
      if Nat.eqb l 0 && isAligned2M then kret (OK up, mm)
      else
        r <-- add_map curAddr (Z.of_nat l) up mm;;
        match r with
        | (THROW e, mm) => kret (THROW e, mm)
        | (OK m, mm) => add_missing l isAligned2M curAddr m mm
        end
    end
  end.

(** Where [mmap] has arrived. *)
Record cursor := mkCursor { remaining : Z; curAddr : Z; curOffset : Z }.

Definition advance (psize : Z) (c : cursor) : cursor :=
  mkCursor (u64 (remaining c - psize)) (u64 (curAddr c + psize)) (u64 (curOffset c + psize)).

(** Step 3: pages up to the end of the range or of the table, [n] indices are left,
    boot/init-loader-amd64/boot/MemMapper.cc:186-193 *)
Fixpoint map_pages (n : nat) (pagemap idx psize frameEntry flags : Z) (c : cursor)
    : kernel S (optional unit * cursor) :=
  match n with
  | O => kret (OK tt, c)
  | Datatypes.S n =>
    if psize <=? remaining c then
      res <-- op_mapFrame pagemap idx frameEntry flags (curOffset c);;
      match res with
      | THROW e => kret (THROW e, c)
      | OK _ => map_pages n pagemap (idx + 1) psize frameEntry flags (advance psize c)
      end
    else kret (OK tt, c)
  end.

(** One iteration of the loop of [MemMapper::mmap],
    boot/init-loader-amd64/boot/MemMapper.cc:134-193 *)
Definition mmap_step (info : MemoryRegion.Info) (frameEntry flags : Z) (c : cursor) (mm : MemMapper)
    : kernel S (optional unit * cursor * MemMapper) :=
  let isAligned2M := is_aligned (u64 (MemoryRegion.i_start info + curOffset c)) align2M
                     && (align2M <=? remaining c) && is_aligned (curAddr c) align2M in
  match find_levels (pagemaps mm) (curAddr c) 3 with
  | None => λ _, AssertFail
  | Some pml4 =>
    r <-- add_missing 3 isAligned2M (curAddr c) pml4 mm;;
    match r with
    | (THROW e, mm) => kret (THROW e, c, mm)
    | (OK low, mm) =>
      let psize := pageLevel2Size (m_level low) in
      match ca_get (caps mm) (m_cap low) with
      | THROW e => kret (THROW e, c, mm)
      | OK entry =>
        pagemap <-- op_typedMap entry;;
        match pagemap with
        | THROW e => kret (THROW e, c, mm)
        | OK pagemap =>
          let idx := (curAddr c / psize) mod 512 in
          r <-- map_pages (Z.to_nat (512 - idx)) pagemap idx psize frameEntry flags c;;
          kret (r.1, r.2, mm)
        end
      end
    end
  end.

(** The loop of [MemMapper::mmap], boot/init-loader-amd64/boot/MemMapper.cc:133-195 *)
Fixpoint mmap_loop (fuel : nat) (info : MemoryRegion.Info) (frameEntry flags : Z) (c : cursor)
    (mm : MemMapper) : kernel S (optional unit * MemMapper) :=
  if 0 <? remaining c then
    match fuel with
    | O => λ _, SpinsForever
    | Datatypes.S fuel =>
      r <-- mmap_step info frameEntry flags c mm;;
      match r with
      | (THROW e, _, mm) => kret (THROW e, mm)
      | (OK _, c, mm) => mmap_loop fuel info frameEntry flags c mm
      end
    end
  else kret (OK tt, mm).

(** [MemMapper::mmap], boot/init-loader-amd64/boot/MemMapper.cc:105-196 *)
Definition mmap (fuel : nat) (vaddr length : Z) (writable executable : bool) (frameCap offset : Z)
    (mm : MemMapper) : kernel S (optional unit * MemMapper) :=
  match ca_get (caps mm) frameCap with
  | THROW e => kret (THROW e, mm)
  | OK frameEntry =>
    info <-- op_frameInfo frameEntry;;
    match info with
    | THROW e => kret (THROW e, mm)
    | OK info =>
      if MemoryRegion.i_size info <? u64 (offset + length) then kret (THROW INSUFFICIENT_RESOURCES, mm)
      else if negb (is_aligned length align4K) || negb (is_aligned vaddr align4K)
              || negb (is_aligned offset align4K) then kret (THROW UNALIGNED, mm)
      else
        let flags := bset 8 1 (bset 8 0 0 (writable && MemoryRegion.i_writable info)) executable in
        mmap_loop fuel info frameEntry flags (mkCursor length vaddr offset) mm
    end
  end.

End mmap.

(** ** The mapper over the objects of the kernel *)

(** [DEVICE_MEM], after the capability pointers that [CapAlloc] hands out,
    mythos/init/mythos/init.hh:50-53 *)
Definition CAP_ALLOC_START : Z := 14.
Definition CAP_ALLOC_END : Z := CAP_ALLOC_START + 200.
Definition MSG_FRAME : Z := CAP_ALLOC_END + 1.
Definition DEVICE_MEM : Z := MSG_FRAME + 1.

(** The casts of kernel objects to an allocator and to the device memory. *)
Class MemoryCasts (S : Type) := {
  castAllocator : Z → kernel S (optional Z);
  castDeviceMemory : Z → kernel S (optional Z)
}.

Section objects.
Context {S : Type} `{HasEntries S} `{!HasPageTables S} `{!HasPageMaps S} `{KernelObjects S} `{HasMemory S}
  `{!MemoryCasts S}.
(** The sizes of page maps and memory regions, their constructors and the place of the
    regions of device memory. *)
Context (sizeofPageMap sizeofRegion : Z) (newPageMap : Z → Z → Z → Z → kernel S unit)
  (newRegion : Z → MemoryRegion.MemoryRegion → kernel S unit) (region_addr : Z → Z).

(** [TypedCap] of an entry for a cast, objects/capability-utils/objects/TypedCap.hh:89-94 *)
Definition typedEntry (castObj : Z → kernel S (optional Z)) (e : optional Z) : kernel S (optional (Z * Z)) :=
  match e with
  | THROW err => kret (THROW err)
  | OK e =>
    c <-- cap e;;
    if negb (isUsable c) then kret (THROW INVALID_CAPABILITY) else
    o <-- castObj (getPtr c);;
    kret (match o with OK o => OK (c, o) | THROW err => THROW err end)
  end.

(** [MemMapper::createPageMap], boot/init-loader-amd64/boot/MemMapper.cc:58-76 *)
Definition createPageMap (ca : CapAlloc) (kmemCap dstCap level : Z) : kernel S (optional Z) :=
  let kmemEntry := ca_get ca kmemCap in
  kmem <-- typedEntry castAllocator kmemEntry;;
  match kmem, kmemEntry with
  | THROW e, _ | _, THROW e => kret (THROW e)
  | OK (kc, _), OK kmemEntry =>
    match ca_get ca dstCap with
    | THROW e => kret (THROW e)
    | OK dstEntry =>
      a <-- acquire dstEntry;;
      if negb (isOK a) then kret (THROW LOST_RACE) else
      pagemap <-- PageMap_factory sizeofPageMap newPageMap dstEntry kmemEntry kc (level + 1);;
      match pagemap with
      | THROW e => reset dstEntry;;; kret (THROW e)
      | OK _ => kret (OK dstEntry)
      end
    end
  end.

(** [MemMapper::createFrame] at a capability pointer,
    boot/init-loader-amd64/boot/MemMapper.cc:38-56 *)
Definition createFrame (ca : CapAlloc) (kmemCap frameCap size alignment : Z) : kernel S (optional Z) :=
  let kmemEntry := ca_get ca kmemCap in
  kmem <-- typedEntry castAllocator kmemEntry;;
  match kmem, kmemEntry with
  | THROW e, _ | _, THROW e => kret (THROW e)
  | OK (kc, _), OK kmemEntry =>
    match ca_get ca frameCap with
    | THROW e => kret (THROW e)
    | OK frameEntry =>
      a <-- acquire frameEntry;;
      if negb (isOK a) then kret (THROW LOST_RACE) else
      frame <-- MemoryRegion.factory sizeofRegion newRegion frameEntry kmemEntry kc size alignment;;
      match frame with
      | THROW e => reset frameEntry;;; kret (THROW e)
      | OK _ => kret (OK frameCap)
      end
    end
  end.

(** [MemMapper::createFrame] at the next capability pointer,
    boot/init-loader-amd64/boot/MemMapper.hh:78-83 *)
Definition createNextFrame (size alignment : Z) (mm : MemMapper) : kernel S (optional Z * MemMapper) :=
  let '(frameCap, ca) := ca_alloc (caps mm) in
  let mm := with_caps ca mm in
  match frameCap with
  | THROW e => kret (THROW e, mm)
  | OK frameCap => r <-- createFrame ca (kmemCap mm) frameCap size alignment;; kret (r, mm)
  end.

(** The page maps of PageMap.v and the frames of Frame.v. *)
#[export] Instance kernel_map_ops : MapOps S := {|
  op_typedMap e := (r <-- typedPageMap e;; kret (match r with OK (_, p) => OK p | THROW e => THROW e end));
  op_frameInfo e := (r <-- typedFrame e;; kret (match r with OK (_, i) => OK i | THROW e => THROW e end));
  op_createMap := createPageMap;
  op_mapTable := mapTableAt;
  op_mapFrame := mapFrameAt |}.

(** [MemMapper::installPML4], boot/init-loader-amd64/boot/MemMapper.cc:79-85 *)
Definition installPML4 (dstCap : Z) (mm : MemMapper) : kernel S (optional unit * MemMapper) :=
  res <-- createPageMap (caps mm) (kmemCap mm) dstCap 3;;
  match res with
  | THROW e => kret (THROW e, mm)
  | OK _ => mm <-- push_map (mkMap 0 dstCap 3) mm;; kret (OK tt, mm)
  end.

(** [MemMapper::mmapDevice], boot/init-loader-amd64/boot/MemMapper.cc:87-103 *)
Definition mmapDevice (fuel : nat) (vaddr length : Z) (writable executable : bool) (physaddr : Z)
    (mm : MemMapper) : kernel S (optional unit * MemMapper) :=
  let memEntry := ca_get (caps mm) DEVICE_MEM in
  mem <-- typedEntry castDeviceMemory memEntry;;
  match mem, memEntry with
  | THROW e, _ | _, THROW e => kret (THROW e, mm)
  | OK _, OK memEntry =>
    let '(dstPtr, ca) := ca_alloc (caps mm) in
    let mm := with_caps ca mm in
    match dstPtr with
    | THROW e => kret (THROW e, mm)
    | OK dstPtr =>
      match ca_get ca dstPtr with
      | THROW e => kret (THROW e, mm)
      | OK dstEntry =>
        c <-- cap memEntry;;
        res <-- DeviceMemory.deriveFrame region_addr memEntry c dstEntry physaddr length false;;
        match res with
        | THROW e => kret (THROW e, mm)
        | OK _ => mmap fuel vaddr length writable executable dstPtr 0 mm
        end
      end
    end
  end.

End objects.

(** ** What [mmap] leaves alone *)

Section keeping.
Context {S X : Type} `{MapOps S} (obs : S → X).
Context (Htyped : ∀ e, keeps obs (op_typedMap e)) (Hinfo : ∀ e, keeps obs (op_frameInfo e))
  (Hcreate : ∀ ca km c l, keeps obs (op_createMap ca km c l))
  (Htable : ∀ p e fl i, keeps obs (op_mapTable p e fl i))
  (Hframe : ∀ p i f fl o, keeps obs (op_mapFrame p i f fl o)).
#[local] Hint Resolve Htyped Hinfo Hcreate Htable Hframe : keeps.

Lemma add_map_keeps a l up mm : keeps obs (add_map a l up mm).
Proof using Hcreate Htyped Htable. unfold add_map, push_map. keeps. Qed.
#[local] Hint Resolve add_map_keeps : keeps.

Lemma add_missing_keeps n big a : ∀ up mm, keeps obs (add_missing n big a up mm).
Proof using Hcreate Htyped Htable. induction n; intros up mm; cbn [add_missing]; keeps. Qed.
#[local] Hint Resolve add_missing_keeps : keeps.

Lemma map_pages_keeps n p P f fl : ∀ i c, keeps obs (map_pages n p i P f fl c).
Proof using Hframe. induction n; intros i c; cbn [map_pages]; keeps. Qed.
#[local] Hint Resolve map_pages_keeps : keeps.

Lemma mmap_step_keeps info f fl c mm : keeps obs (mmap_step info f fl c mm).
Proof using Hcreate Htyped Htable Hframe. unfold mmap_step. keeps. Qed.
#[local] Hint Resolve mmap_step_keeps : keeps.

Lemma mmap_loop_keeps fuel info f fl : ∀ c mm, keeps obs (mmap_loop fuel info f fl c mm).
Proof using Hcreate Htyped Htable Hframe. induction fuel; intros c mm; cbn [mmap_loop]; keeps. Qed.
#[local] Hint Resolve mmap_loop_keeps : keeps.

Lemma mmap_keeps fuel v n w x f o mm : keeps obs (mmap fuel v n w x f o mm).
Proof using Hcreate Htyped Htable Hframe Hinfo. unfold mmap. keeps. Qed.

End keeping.

(** ** Trees of page maps *)

(** What an index of a page map holds; a page with the entry of its frame, the offset
    in the frame and the flags. *)
Inductive tentry := Table (p : Z) | Page (frame off flags : Z).

(** The bytes that an index of level [l] covers, counted from 0. *)
Definition psz (l : Z) : Z := 2 ^ (12 + 9 * l).

Lemma psz_pos l : 0 ≤ l → 0 < psz l.
Proof. intros. apply Z.pow_pos_nonneg; lia. Qed.

Lemma psz_S l : 0 ≤ l → psz (l + 1) = 512 * psz l.
Proof.
  intros. unfold psz. replace (12 + 9 * (l + 1)) with (9 + (12 + 9 * l)) by lia.
  rewrite Z.pow_add_r by lia. done.
Qed.

Lemma pageLevel2Size_psz l : 0 ≤ l ≤ 4 → pageLevel2Size l = psz l.
Proof.
  intros Hl. assert (l = 0 ∨ l = 1 ∨ l = 2 ∨ l = 3 ∨ l = 4) as [->|[->|[->|[->| ->]]]] by lia; reflexivity.
Qed.

Lemma psz_le l : 0 ≤ l ≤ 4 → psz l ≤ 2 ^ 48.
Proof. intros Hl. unfold psz. apply Z.pow_le_mono_r; lia. Qed.

Lemma aligned_block_eq P x y : 0 < P → x mod P = 0 → y mod P = 0 → y ≤ x < y + P → x = y.
Proof.
  intros HP Hx Hy Hr. apply Z.mod_divide in Hx as [j ->], Hy as [k ->]; [|lia..].
  assert (j < k + 1) by (apply (Z.mul_lt_mono_pos_r P); lia).
  assert (k < j + 1) by (apply (Z.mul_lt_mono_pos_r P); lia). f_equal. lia.
Qed.

Lemma block_start P a y : 0 < P → y mod P = 0 → y ≤ a < y + P → a / P * P = y.
Proof.
  intros HP Hy Hr. apply Z.mod_divide in Hy as [k ->]; [|lia]. f_equal. symmetry.
  apply (Z.div_unique a P k (a - k * P)); lia.
Qed.

(** The index of an address. *)
Definition index (a l : Z) : Z := (a / psz l) mod 512.

Definition covers (m : MapInfo) (a : Z) : Prop := m_vaddr m ≤ a < m_vaddr m + psz (m_level m + 1).

Definition map_ok (m : MapInfo) : Prop :=
  0 ≤ m_level m ≤ 3 ∧ 0 ≤ m_vaddr m ∧ m_vaddr m mod psz (m_level m + 1) = 0 ∧
  m_vaddr m + psz (m_level m + 1) ≤ 2 ^ 48.

Lemma map_contains_covers m a : map_ok m → map_contains m a = true ↔ covers m a.
Proof.
  intros (Hl & H0 & _ & Hb). unfold map_contains, map_size, covers.
  rewrite pageLevel2Size_psz, wrap_small by (lia || (pose proof (psz_pos (m_level m + 1)); split; lia)).
  rewrite andb_true_iff, Z.leb_le, Z.ltb_lt. done.
Qed.

(** The address covered by an index of a map. *)
Lemma covers_split m a :
  map_ok m → covers m a →
  m_vaddr m + index a (m_level m) * psz (m_level m) ≤ a < m_vaddr m + (index a (m_level m) + 1) * psz (m_level m) ∧
  0 ≤ index a (m_level m) < 512.
Proof.
  intros (Hl & H0 & Hal & Hb) [Hc1 Hc2]. pose proof (psz_pos (m_level m)) as Hp. rewrite psz_S in * by lia.
  set (P := psz (m_level m)) in *. set (l := m_level m) in *. unfold index. fold P.
  apply Z.mod_divide in Hal as [k Hk]; [|lia].
  assert (a = k * 512 * P + (a - k * 512 * P)) as Ha by lia.
  assert (0 ≤ (a - k * 512 * P) / P < 512) as Hd.
  { split; [apply Z.div_pos; lia|apply Z.div_lt_upper_bound; lia]. }
  assert ((a / P) mod 512 = (a - k * 512 * P) / P) as ->.
  { rewrite Ha at 1. rewrite Z.add_comm, Z.div_add by lia. rewrite Z.mod_add by lia. by apply Z.mod_small. }
  pose proof (Z.div_mod (a - k * 512 * P) P ltac:(lia)). pose proof (Z.mod_pos_bound (a - k * 512 * P) P ltac:(lia)).
  split; [|done]. rewrite Hk. nia.
Qed.

(** Two addresses of a map with the same index lie in the same block. *)
Lemma index_block m a b :
  map_ok m → covers m a → b mod psz (m_level m) = 0 → covers m b →
  index a (m_level m) = index b (m_level m) ↔ b ≤ a < b + psz (m_level m).
Proof.
  intros Hm Ha Hb Hcb. pose proof (covers_split m a Hm Ha) as [[Ha1 Ha2] _].
  pose proof (covers_split m b Hm Hcb) as [[Hb1 Hb2] _]. destruct Hm as (Hl & H0 & Hal & Hbd).
  pose proof (psz_pos (m_level m) ltac:(lia)) as Hp. rewrite psz_S in Hal by lia.
  set (P := psz (m_level m)) in *. apply Z.mod_divide in Hal as [k Hk]; [|lia].
  apply Z.mod_divide in Hb as [j Hj]; [|lia].
  set (ia := index a (m_level m)) in *. set (ib := index b (m_level m)) in *.
  assert (j = k * 512 + ib) as ->.
  { assert (k * 512 + ib < j + 1) by (apply (Z.mul_lt_mono_pos_r P); lia).
    assert (j < k * 512 + ib + 1) by (apply (Z.mul_lt_mono_pos_r P); lia). lia. }
  split; [intros ->; lia|]. intros Hr.
  assert (ia < ib + 1) by (apply (Z.mul_lt_mono_pos_r P); lia).
  assert (ib < ia + 1) by (apply (Z.mul_lt_mono_pos_r P); lia). lia.
Qed.

(** The maps [R] with their objects form the upper part of the tree in [T]. *)
Record Reg (R : list MapInfo) (T : gmap (Z * Z) tentry) (ob : MapInfo → Z) : Prop := {
  rg_root : ∃ r, r ∈ R ∧ m_level r = 3 ∧ m_vaddr r = 0;
  rg_ok m : m ∈ R → map_ok m;
  rg_key m m' : m ∈ R → m' ∈ R → m_level m = m_level m' → m_vaddr m = m_vaddr m' → m = m';
  rg_inj m m' : m ∈ R → m' ∈ R → ob m = ob m' → m = m';
  rg_parent m : m ∈ R → m_level m < 3 → ∃ q, q ∈ R ∧ m_level q = m_level m + 1 ∧
    covers q (m_vaddr m) ∧ T !! (ob q, index (m_vaddr m) (m_level q)) = Some (Table (ob m));
  rg_table q i p : q ∈ R → T !! (ob q, i) = Some (Table p) → ∃ m, m ∈ R ∧ ob m = p ∧
    m_level q = m_level m + 1 ∧ covers q (m_vaddr m) ∧ i = index (m_vaddr m) (m_level q);
  rg_page q i f o fl : q ∈ R → T !! (ob q, i) = Some (Page f o fl) → m_level q ≤ 1
}.

(** The translation of an address by the tables below the object [p] of level [l]. *)
Fixpoint walk (T : gmap (Z * Z) tentry) (l : nat) (p a : Z) : option (Z * Z * Z) :=
  match T !! (p, index a (Z.of_nat l)) with
  | Some (Page f o fl) => Some (f, o + a mod psz (Z.of_nat l), fl)
  | Some (Table p') => match l with O => None | Datatypes.S l => walk T l p' a end
  | None => None
  end.

Section tree.
Context (R : list MapInfo) (T : gmap (Z * Z) tentry) (ob : MapInfo → Z) (Hreg : Reg R T ob).

(** The block of a map inside its parent. *)
Lemma covers_parent q m a :
  map_ok q → map_ok m → m_level q = m_level m + 1 → covers q (m_vaddr m) → covers m a →
  covers q a ∧ index a (m_level q) = index (m_vaddr m) (m_level q).
Proof.
  intros Hq Hm Hl Hcq Hca. pose proof Hm as (Hl' & _ & Hal & _). rewrite <- Hl in Hal.
  assert (m_vaddr m ≤ a < m_vaddr m + psz (m_level q)) as Hblock by (rewrite Hl; exact Hca).
  assert (covers q a) as Hqa.
  { pose proof (covers_split q _ Hq Hcq) as [[H1 H2] H3]. destruct Hq as (Hlq & H0 & Halq & Hb).
    pose proof (psz_pos (m_level q) ltac:(lia)) as Hp. unfold covers in *. rewrite psz_S in * by lia.
    set (P := psz (m_level q)) in *. apply Z.mod_divide in Hal as [j Hj]; [|lia].
    apply Z.mod_divide in Halq as [k Hk]; [|lia].
    assert (j < (k + 1) * 512) by (apply (Z.mul_lt_mono_pos_r P); lia).
    assert ((j + 1) * P ≤ (k + 1) * 512 * P) by (apply Z.mul_le_mono_nonneg_r; lia). lia. }
  split; [done|]. by apply (index_block q a).
Qed.

Lemma root_unique r m : r ∈ R → m_level r = 3 → m_vaddr r = 0 → m ∈ R → m_level m = 3 → m = r.
Proof.
  intros Hr Hr3 Hr0 Hm Hm3. apply (rg_key _ _ _ Hreg); [done|done|congruence|].
  destruct (rg_ok _ _ _ Hreg m Hm) as (_ & H0 & Hal & Hb). rewrite Hm3 in *.
  change (psz (3 + 1)) with (2 ^ 48) in *. lia.
Qed.

(** The walk from the root passes through every map that covers the address. *)
Lemma walk_down r m a :
  r ∈ R → m_level r = 3 → m_vaddr r = 0 → m ∈ R → covers m a →
  walk T 3 (ob r) a = walk T (Z.to_nat (m_level m)) (ob m) a.
Proof.
  intros Hr Hr3 Hr0. remember (Z.to_nat (3 - m_level m)) as n eqn:Hn. revert m Hn.
  induction n as [|n IH]; intros m Hn Hm Ha; pose proof (rg_ok _ _ _ Hreg m Hm) as Hok;
    pose proof Hok as (Hl & _).
  - assert (m_level m = 3) as Hm3 by lia. rewrite (root_unique r m) by done. by rewrite Hr3.
  - destruct (rg_parent _ _ _ Hreg m Hm) as (q & Hq & Hlq & Hcq & HT); [lia|].
    pose proof (rg_ok _ _ _ Hreg q Hq) as Hqok.
    destruct (covers_parent q m a) as [Hqa Hidx]; [done..|]. rewrite (IH q) by (lia || done).
    replace (Z.to_nat (m_level q)) with (Datatypes.S (Z.to_nat (m_level m))) by lia.
    cbn [walk]. replace (Z.of_nat (Datatypes.S (Z.to_nat (m_level m)))) with (m_level q) by lia.
    by rewrite Hidx, HT.
Qed.

(** The walk depends on the entries for the address only. *)
Lemma walk_frame T' m a :
  m ∈ R → covers m a →
  (∀ q, q ∈ R → covers q a → T' !! (ob q, index a (m_level q)) = T !! (ob q, index a (m_level q))) →
  walk T' (Z.to_nat (m_level m)) (ob m) a = walk T (Z.to_nat (m_level m)) (ob m) a.
Proof.
  remember (Z.to_nat (m_level m)) as n eqn:Hn. revert m Hn.
  induction n as [|n IH]; intros m Hn Hm Ha Hsame; pose proof (rg_ok _ _ _ Hreg m Hm) as Hok;
    pose proof Hok as (Hl & _); pose proof (Hsame m Hm Ha) as HT.
  - cbn [walk]. replace (Z.of_nat 0) with (m_level m) by lia. by rewrite HT.
  - cbn [walk]. replace (Z.of_nat (Datatypes.S n)) with (m_level m) by lia. rewrite HT.
    destruct (T !! (ob m, index a (m_level m))) as [[p|f o fl]|] eqn:E; [|done|done].
    destruct (rg_table _ _ _ Hreg m _ p Hm E) as (c & Hc & <- & Hlc & Hcc & Hi).
    pose proof (rg_ok _ _ _ Hreg c Hc) as (_ & _ & Halc & _).
    apply IH; [lia|done| |done].
    apply (index_block m a (m_vaddr c)) in Hi; [|done|done|by rewrite Hlc|done].
    by rewrite Hlc in Hi.
Qed.

(** A change of one entry affects the addresses of its index. *)
Lemma walk_change T' r m i a :
  r ∈ R → m_level r = 3 → m_vaddr r = 0 → 0 ≤ a < 2 ^ 48 → m ∈ R →
  (∀ k, k ≠ (ob m, i) → T' !! k = T !! k) → ¬ (covers m a ∧ index a (m_level m) = i) →
  walk T' 3 (ob r) a = walk T 3 (ob r) a.
Proof.
  intros Hr Hr3 Hr0 Ha Hm Hsame Hno. pose proof (walk_frame T' r a Hr) as Hw. rewrite Hr3 in Hw.
  apply Hw.
  - unfold covers. rewrite Hr0, Hr3. done.
  - intros q Hq Hqa. apply Hsame. intros [= Ho Hi]. apply (rg_inj _ _ _ Hreg) in Ho as ->; tauto.
Qed.

Lemma Reg_change T' m i :
  m ∈ R → (∀ k, k ≠ (ob m, i) → T' !! k = T !! k) →
  (∀ p, T !! (ob m, i) ≠ Some (Table p)) → (∀ p, T' !! (ob m, i) ≠ Some (Table p)) →
  (∀ f o fl, T' !! (ob m, i) = Some (Page f o fl) → m_level m ≤ 1) → Reg R T' ob.
Proof.
  intros Hm Hsame Hold Hnew Hpage. destruct Hreg as [Hroot Hok Hkey Hinj Hpar Htab Hpg]. split; try done.
  - intros c Hc Hl. destruct (Hpar c Hc Hl) as (q & Hq & Hlq & Hcq & HT). exists q. split_and!; try done.
    rewrite Hsame; [done|]. intros E. rewrite E in HT. by eapply Hold.
  - intros q j p Hq HT. destruct (decide ((ob q, j) = (ob m, i))) as [E|E].
    + rewrite E in HT. by apply Hnew in HT.
    + rewrite Hsame in HT by done. by eapply Htab.
  - intros q j f o fl Hq HT. destruct (decide ((ob q, j) = (ob m, i))) as [E|E].
    + injection E as Ho ->. apply Hinj in Ho as ->; [|done|done]. by eapply Hpage.
    + rewrite Hsame in HT by done. by eapply Hpg.
Qed.

(** An index of a map has one child. *)
Lemma same_child q x y :
  map_ok q → map_ok x → map_ok y → m_level q = m_level x + 1 → m_level q = m_level y + 1 →
  covers q (m_vaddr x) → covers q (m_vaddr y) →
  index (m_vaddr x) (m_level q) = index (m_vaddr y) (m_level q) → m_vaddr x = m_vaddr y.
Proof.
  intros Hq (Hl & _ & Hx & _) (_ & _ & Hy & _) Hlx Hly Hcx Hcy Ei. rewrite <- Hlx in Hx. rewrite <- Hly in Hy.
  apply (index_block q) in Ei; [|done..]. apply (aligned_block_eq (psz (m_level q))); try done.
  apply psz_pos. lia.
Qed.

(** A new map below [q]. *)
Lemma Reg_add q m p :
  q ∈ R → map_ok m → m_level q = m_level m + 1 → covers q (m_vaddr m) →
  (∀ x, x ∈ R → m_level x = m_level m → m_vaddr x ≠ m_vaddr m) →
  (∀ x, x ∈ R → ob x ≠ p) → (∀ i, T !! (p, i) = None) →
  (∀ f o fl, T !! (ob q, index (m_vaddr m) (m_level q)) ≠ Some (Page f o fl)) →
  Reg (R ++ [m]) (<[(ob q, index (m_vaddr m) (m_level q)) := Table p]> T)
    (λ x, if decide (x = m) then p else ob x).
Proof.
  intros Hq Hm Hlq Hcq Hnew Hfresh Hempty Hnopage.
  assert (∀ x, x ∈ R → x ≠ m) as Hne by (intros x Hx ->; by eapply Hnew).
  set (ob' := λ x, if decide (x = m) then p else ob x) in *.
  assert (∀ x, x ∈ R → ob' x = ob x) as Hob by (intros x Hx; unfold ob'; by rewrite decide_False by auto).
  assert (ob' m = p) as Hobm by (unfold ob'; by rewrite decide_True).
  set (k := (ob q, index (m_vaddr m) (m_level q))).
  assert (∀ x j, x ∈ R → (ob x, j) ≠ k → <[k := Table p]> T !! (ob x, j) = T !! (ob x, j)) as Hother
    by (intros; by rewrite lookup_insert_ne).
  assert (∀ j, <[k := Table p]> T !! (p, j) = None) as Hp.
  { intros j. rewrite lookup_insert_ne; [apply Hempty|]. intros [= E _]. by apply (Hfresh q). }
  destruct Hreg as [(r & Hr & Hr3 & Hr0) Hok Hkey Hinj Hpar Htab Hpg].
  split.
  - exists r. split; [set_solver|done].
  - intros x [Hx| ->%list_elem_of_singleton]%elem_of_app; auto.
  - intros x y [Hx| ->%list_elem_of_singleton]%elem_of_app [Hy| ->%list_elem_of_singleton]%elem_of_app;
      [by apply Hkey| | |done]; intros ? ?; exfalso; by eapply Hnew.
  - intros x y [Hx| ->%list_elem_of_singleton]%elem_of_app [Hy| ->%list_elem_of_singleton]%elem_of_app;
      rewrite ?Hobm, ?Hob by done; [by apply Hinj| | |done]; intros E; exfalso; by eapply Hfresh.
  - intros x [Hx| ->%list_elem_of_singleton]%elem_of_app Hl.
    + destruct (Hpar x Hx Hl) as (y & Hy & Hly & Hcy & HT). exists y. rewrite !Hob by done.
      split_and!; [set_solver|done|done|]. rewrite Hother; [done|done|]. intros E.
      unfold k in E. injection E as Eo Ei. apply Hinj in Eo as ->; [|done|done].
      exfalso. eapply (Hnew x Hx); [lia|]. eapply (same_child q); [by apply Hok|by apply Hok|..]; done || lia.
    + exists q. rewrite Hobm, Hob by done. split_and!; [set_solver|done|done|].
      by rewrite lookup_insert_eq.
  - intros x j p' [Hx| ->%list_elem_of_singleton]%elem_of_app.
    + rewrite Hob by done. destruct (decide ((ob x, j) = k)) as [E|E].
      * rewrite E, lookup_insert_eq. intros [= <-]. injection E as Eo ->.
        apply Hinj in Eo as ->; [|done|done]. exists m. rewrite Hobm. split_and!; [set_solver|done..].
      * rewrite Hother by done. intros HT. destruct (Htab x j p' Hx HT) as (c & Hc & <- & ? & ? & ?).
        exists c. rewrite Hob by done. split_and!; [set_solver|done..].
    + rewrite Hobm, Hp. done.
  - intros x j f o fl [Hx| ->%list_elem_of_singleton]%elem_of_app.
    + rewrite Hob by done. destruct (decide ((ob x, j) = k)) as [E|E].
      * rewrite E, lookup_insert_eq. done.
      * rewrite Hother by done. by apply Hpg.
    + rewrite Hobm, Hp. done.
Qed.

End tree.

(** ** What the mapper relies on

    [tables] is what the page maps hold, by the object and the index; [maps] are the
    entries with a capability to a page map, with its level counted from 1, [frames]
    those of frames, [fresh] are empty entries, and [memory] says that there is memory
    for a number of page maps.  Every operation may return an error. *)

Class MapLaws (S : Type) `{MapOps S} := {
  good : S → Prop;
  tables : S → gmap (Z * Z) tentry;
  maps : S → Z → option (Z * Z);
  frames : S → Z → option MemoryRegion.Info;
  fresh : S → Z → Prop;
  memory : S → nat → Prop;
  fresh_unused s e : fresh s e → maps s e = None;
  typedMap_law s e p l : good s → maps s e = Some (p, l) → op_typedMap e s = Done (OK p) s;
  frameInfo_law s e i : good s → frames s e = Some i → op_frameInfo e s = Done (OK i) s;
  createMap_law s ca km c l n :
    let e := cs_get (ca_cspace ca) c in
    good s → fresh s e → 0 ≤ l ≤ 3 → memory s (Datatypes.S n) →
    ∃ r s', op_createMap ca km c l s = Done r s' ∧ good s' ∧ memory s' n ∧ tables s' = tables s ∧
      (∀ x, frames s x ≠ None → frames s' x = frames s x) ∧
      (∀ x, x ≠ e → maps s' x = maps s x ∧ (fresh s x → fresh s' x)) ∧
      match r with
      | THROW _ => True
      | OK x => x = e ∧ ∃ p, maps s' e = Some (p, l + 1) ∧
          (∀ y l', maps s y ≠ Some (p, l')) ∧ (∀ i, tables s !! (p, i) = None)
      end;
  mapTable_law s u p e c l fl i :
    good s → maps s u = Some (p, l + 1) → maps s e = Some (c, l) → 0 ≤ i < num_caps (l + 1) →
    tables s !! (p, i) = None →
    ∃ r s', op_mapTable p e fl i s = Done r s' ∧ good s' ∧
      (∀ x, maps s' x = maps s x) ∧ (∀ x, frames s' x = frames s x) ∧ (∀ x, fresh s x → fresh s' x) ∧
      (∀ n, memory s n → memory s' n) ∧
      tables s' = match r with OK _ => <[(p, i) := Table c]> (tables s) | THROW _ => tables s end;
  mapFrame_law s u p l f info fl i o :
    good s → maps s u = Some (p, l) → frames s f = Some info → 0 ≤ i < num_caps l →
    ∃ r s', op_mapFrame p i f fl o s = Done r s' ∧ good s' ∧
      (∀ x, maps s' x = maps s x) ∧ (∀ x, frames s' x = frames s x) ∧ (∀ x, fresh s x → fresh s' x) ∧
      (∀ n, memory s n → memory s' n) ∧
      match r with
      | OK _ => tables s' = <[(p, i) := Page f o fl]> (tables s)
      | THROW _ => tables s' = tables s ∨ tables s' = delete (p, i) (tables s)
      end
}.

(** ** Mapping *)

Definition key (m : MapInfo) : Z * Z := (m_level m, m_vaddr m).
Definition keys (R : list MapInfo) : gset (Z * Z) := list_to_set (key <$> R).

(** The maps below the root that a range may need. *)
Definition regions_of (lo hi l : Z) : list (Z * Z) :=
  (λ k, (l, k * psz (l + 1))) <$>
    seqZ (lo / psz (l + 1)) ((hi - 1) / psz (l + 1) - lo / psz (l + 1) + 1).
Definition regions (lo hi : Z) : gset (Z * Z) :=
  list_to_set (regions_of lo hi 0 ++ regions_of lo hi 1 ++ regions_of lo hi 2).

Lemma regions_in lo hi l a :
  0 ≤ l ≤ 2 → lo ≤ a < hi → (l, a / psz (l + 1) * psz (l + 1)) ∈ regions lo hi.
Proof.
  intros Hl Ha. assert ((l, a / psz (l + 1) * psz (l + 1)) ∈ regions_of lo hi l) as Hin.
  { apply list_elem_of_fmap. exists (a / psz (l + 1)). split; [done|]. apply elem_of_seqZ.
    pose proof (psz_pos (l + 1)). assert (lo / psz (l + 1) ≤ a / psz (l + 1)) by (apply Z.div_le_mono; lia).
    assert (a / psz (l + 1) ≤ (hi - 1) / psz (l + 1)) by (apply Z.div_le_mono; lia). lia. }
  unfold regions. apply elem_of_list_to_set. rewrite !elem_of_app.
  assert (l = 0 ∨ l = 1 ∨ l = 2) as [->|[->| ->]] by lia; tauto.
Qed.

Lemma find_levels_Some R a l m :
  find_levels R a l = Some m → m ∈ R ∧ map_contains m a = true ∧ m_level m = l.
Proof.
  unfold find_levels. intros Hm%last_Some_elem_of. apply list_elem_of_filter in Hm. tauto.
Qed.

Lemma find_levels_None R a l m :
  find_levels R a l = None → m ∈ R → m_level m = l → map_contains m a ≠ true.
Proof.
  unfold find_levels. intros Hn%last_None Hm Hl Hc.
  assert (m ∈ filter (λ m, map_contains m a = true ∧ m_level m = l) R) as Hin by (by apply list_elem_of_filter).
  rewrite Hn in Hin. by apply elem_of_nil in Hin.
Qed.

Section laws.
Context {S : Type} `{MapLaws S}.

(** The object of a registered map. *)
Definition entry_of (mm : MemMapper) (m : MapInfo) : Z := cs_get (ca_cspace (caps mm)) (m_cap m).
Definition obj (s : S) (cs : Z) (m : MapInfo) : Z := from_option fst 0 (maps s (cs_get cs (m_cap m))).

(** The mapper knows its maps; [K] bounds the maps it may create. *)
Record mapper_inv (K : gset (Z * Z)) (s : S) (mm : MemMapper) : Prop := {
  mi_good : good s;
  mi_reg : Reg (pagemaps mm) (tables s) (obj s (ca_cspace (caps mm)));
  mi_maps m : m ∈ pagemaps mm →
    maps s (entry_of mm m) = Some (obj s (ca_cspace (caps mm)) m, m_level m + 1);
  mi_fresh c : ca_next (caps mm) ≤ c < ca_next (caps mm) + ca_remaining (caps mm) →
    fresh s (cs_get (ca_cspace (caps mm)) c);
  mi_caps : 0 ≤ ca_next (caps mm) ∧ 0 ≤ ca_remaining (caps mm) ∧
    ca_next (caps mm) + ca_remaining (caps mm) < 2 ^ 32;
  mi_nodup : NoDup (pagemaps mm);
  mi_keys : keys (pagemaps mm) ⊆ K ∧ (size K ≤ MAX_PAGE_MAPS)%nat
}.

Lemma Reg_ext R T ob ob' : (∀ m, m ∈ R → ob m = ob' m) → Reg R T ob → Reg R T ob'.
Proof.
  intros He [Hroot Hok Hkey Hinj Hpar Htab Hpg]. split; try done.
  - intros m m' Hm Hm'. rewrite <- !He by done. by apply Hinj.
  - intros m Hm Hl. destruct (Hpar m Hm Hl) as (q & Hq & ?). exists q. rewrite <- !He by done. by split.
  - intros q i p Hq. rewrite <- He by done. intros HT. destruct (Htab q i p Hq HT) as (m & Hm & <- & ?).
    exists m. rewrite <- He by done. by split.
  - intros q i f o fl Hq. rewrite <- He by done. by apply Hpg.
Qed.

Lemma keys_size R T ob : Reg R T ob → NoDup R → size (keys R) = length R.
Proof.
  intros HR Hn. unfold keys. rewrite size_list_to_set, length_fmap; [done|].
  apply NoDup_fmap_2_strong; [|done]. intros m m' Hm Hm' [= Hl Hv]. by apply (rg_key _ _ _ HR).
Qed.

(** There is room for a map of [K] that is not registered. *)
Lemma room_for K s mm k :
  mapper_inv K s mm → k ∈ K → k ∉ keys (pagemaps mm) →
  (length (pagemaps mm) < size K)%nat ∧ (length (pagemaps mm) < MAX_PAGE_MAPS)%nat.
Proof.
  intros HI Hk Hnot. rewrite <- (keys_size _ _ _ (mi_reg _ _ _ HI) (mi_nodup _ _ _ HI)).
  destruct (mi_keys _ _ _ HI) as [Hsub Hsz].
  assert (size (keys (pagemaps mm)) < size K)%nat; [|lia].
  apply subset_size. split; [done|]. intros HK. by apply Hnot, HK.
Qed.

(** There is memory for the maps of [K] that are missing. *)
Definition enough (K : gset (Z * Z)) (s : S) (mm : MemMapper) : Prop :=
  memory s (size K - length (pagemaps mm)).

(** The translation of an address. *)
Definition translation (s : S) (cs : Z) (r : MapInfo) (a : Z) : option (Z * Z * Z) :=
  walk (tables s) 3 (obj s cs r) a.

(** The state of the system moved on without a change of a translation. *)
Record grown (s : S) (mm : MemMapper) (s' : S) (mm' : MemMapper) : Prop := {
  gr_cspace : ca_cspace (caps mm') = ca_cspace (caps mm);
  gr_maps m : m ∈ pagemaps mm → m ∈ pagemaps mm' ∧
    obj s' (ca_cspace (caps mm)) m = obj s (ca_cspace (caps mm)) m;
  gr_frames x : frames s x ≠ None → frames s' x = frames s x;
  gr_pages m i f o fl : m ∈ pagemaps mm' →
    tables s' !! (obj s' (ca_cspace (caps mm)) m, i) = Some (Page f o fl) →
    m ∈ pagemaps mm ∧ tables s !! (obj s (ca_cspace (caps mm)) m, i) = Some (Page f o fl);
  gr_walk r a : r ∈ pagemaps mm → m_level r = 3 → m_vaddr r = 0 → 0 ≤ a < 2 ^ 48 →
    translation s' (ca_cspace (caps mm)) r a = translation s (ca_cspace (caps mm)) r a
}.

Lemma grown_refl s mm : grown s mm s mm.
Proof. by split. Qed.

Lemma grown_trans s1 mm1 s2 mm2 s3 mm3 :
  grown s1 mm1 s2 mm2 → grown s2 mm2 s3 mm3 → grown s1 mm1 s3 mm3.
Proof.
  intros [Hc1 Hm1 Hf1 Hp1 Hw1] [Hc2 Hm2 Hf2 Hp2 Hw2]. rewrite Hc1 in *. split.
  - congruence.
  - intros m Hm. destruct (Hm1 m Hm) as [Hm' E1], (Hm2 m ltac:(by apply Hm1)) as [? E2]. split; congruence.
  - intros x Hx. rewrite Hf2; [by apply Hf1|]. by rewrite Hf1.
  - intros m i f o fl Hm HT. destruct (Hp2 m i f o fl Hm HT) as [Hm' HT']. by apply Hp1.
  - intros r a Hr Hr3 Hr0 Ha. rewrite Hw2; [by apply Hw1|by apply Hm1|done..].
Qed.

(** Taking the next capability pointer. *)
Lemma caps_next K s mm :
  mapper_inv K s mm → ca_remaining (caps mm) ≠ 0 →
  ca_alloc (caps mm) = (OK (ca_next (caps mm)),
    mkCapAlloc (ca_next (caps mm) + 1) (ca_remaining (caps mm) - 1) (ca_cspace (caps mm))).
Proof.
  intros HI Hr. unfold ca_alloc. rewrite (proj2 (Z.eqb_neq _ 0) Hr). destruct (mi_caps _ _ _ HI) as (? & ? & ?).
  by rewrite !wrap_small by (split; lia).
Qed.

(** The state after a map was created, installed or not. *)
Lemma created_inv K s mm s' :
  let c := ca_next (caps mm) in let cs := ca_cspace (caps mm) in
  mapper_inv K s mm → ca_remaining (caps mm) ≠ 0 → good s' → tables s' = tables s →
  (∀ x, frames s x ≠ None → frames s' x = frames s x) →
  (∀ x, x ≠ cs_get cs c → maps s' x = maps s x ∧ (fresh s x → fresh s' x)) →
  let mm' := with_caps (mkCapAlloc (c + 1) (ca_remaining (caps mm) - 1) cs) mm in
  mapper_inv K s' mm' ∧ grown s mm s' mm' ∧ (∀ m, m ∈ pagemaps mm → entry_of mm m ≠ cs_get cs c).
Proof.
  intros c cs HI Hr Hg HT Hf Hx mm'. pose proof HI as [_ HR Hm Hfr (? & ? & ?) Hn Hk].
  assert (∀ m, m ∈ pagemaps mm → entry_of mm m ≠ cs_get cs c) as Hne.
  { intros m Hin E. pose proof (Hm m Hin) as HE. rewrite E in HE.
    rewrite (fresh_unused s (cs_get cs c)) in HE; [done|]. apply Hfr. unfold c. lia. }
  assert (∀ m, m ∈ pagemaps mm → maps s' (entry_of mm m) = maps s (entry_of mm m)) as Hsame
    by (intros m Hin; by apply Hx, Hne).
  assert (∀ m, m ∈ pagemaps mm → obj s' cs m = obj s cs m) as Hob
    by (intros m Hin; unfold obj; pose proof (Hsame m Hin) as Hs; unfold entry_of in Hs; fold cs in Hs; by rewrite Hs).
  split; [|split; [|done]].
  - split; cbn.
    + done.
    + rewrite HT. eapply Reg_ext; [|exact HR]. intros m Hin. symmetry. by apply Hob.
    + intros m Hin. unfold entry_of. cbn. fold cs. pose proof (Hsame m Hin) as Hs. unfold entry_of in Hs. fold cs in Hs.
      rewrite Hs, Hob by done. by apply Hm.
    + intros c' Hc'. destruct (Hx (cs_get cs c')) as [_ Hfx]; [unfold cs_get; fold c in Hc'; lia|].
      apply Hfx, Hfr. fold c in Hc' |- *. lia.
    + unfold c. lia.
    + done.
    + done.
  - split; cbn; try done.
    + intros m Hin. split; [done|]. by apply Hob.
    + intros m i f o fl Hin. fold cs. rewrite HT, Hob by done. done.
    + intros r a Hin _ _ _. unfold translation. fold cs. by rewrite HT, Hob.
Qed.

Lemma round_down_block a l : 0 ≤ l ≤ 2 → 0 ≤ a < 2 ^ 48 →
  round_down a (psz (l + 1)) = a / psz (l + 1) * psz (l + 1).
Proof.
  intros Hl Ha. unfold round_down. pose proof (psz_pos (l + 1) ltac:(lia)) as Hp.
  pose proof (Z.mul_div_le a (psz (l + 1)) Hp). assert (0 ≤ a / psz (l + 1)) by (apply Z.div_pos; lia).
  apply wrap_small. split; [apply Z.mul_nonneg_nonneg; lia|lia].
Qed.

(** The new map for an address below [q]. *)
Lemma new_map_ok q a l c :
  map_ok q → m_level q = l + 1 → 0 ≤ l ≤ 2 → covers q a →
  let m := mkMap (a / psz (l + 1) * psz (l + 1)) c l in
  map_ok m ∧ covers m a ∧ covers q (m_vaddr m) ∧ index (m_vaddr m) (m_level q) = index a (m_level q).
Proof.
  intros Hq Hlq Hl Ha m. pose proof (psz_pos (l + 1) ltac:(lia)) as Hp.
  pose proof (Z.mul_div_le a (psz (l + 1)) Hp). pose proof (Z.mul_succ_div_gt a (psz (l + 1)) Hp).
  assert (m_vaddr m ≤ a < m_vaddr m + psz (l + 1)) as Hblock by (cbn; lia).
  assert (m_vaddr m mod psz (l + 1) = 0) as Hal by (cbn; apply Z.mod_mul; lia).
  pose proof (covers_split q a Hq Ha) as [[Hs1 Hs2] Hs3]. pose proof Hq as (_ & Hq0 & Halq & Hqb).
  assert (m_vaddr m = m_vaddr q + index a (m_level q) * psz (m_level q)) as Hv.
  { apply block_start; [done| |rewrite Hlq in *; lia]. rewrite Hlq in *. rewrite psz_S in Halq by lia. apply Z.mod_divide in Halq as [j ->]; [|lia].
    replace (j * (512 * psz (l + 1)) + index a (l + 1) * psz (l + 1))
      with ((j * 512 + index a (l + 1)) * psz (l + 1)) by lia. apply Z.mod_mul. lia. }
  assert (covers q (m_vaddr m)) as Hcq.
  { unfold covers in *. rewrite Hv. rewrite psz_S in * by lia. nia. }
  split_and!; try done.
  - assert (0 ≤ m_vaddr m) by (destruct Hcq; lia). split; [cbn; lia|]. split; [done|]. split; [done|].
    rewrite Hv. rewrite psz_S in Hqb by lia. rewrite Hlq in *. cbn [m_level m]. nia.
  - symmetry. apply (index_block q a); [done|done|by rewrite Hlq|done|by rewrite Hlq].
Qed.

Lemma num_caps_index l a : 1 ≤ l + 1 ≤ 3 → 0 ≤ a < 2 ^ 47 → 0 ≤ index a (l + 1) < num_caps (l + 2).
Proof.
  intros Hl Ha. unfold index. pose proof (Z.mod_pos_bound (a / psz (l + 1)) 512 ltac:(lia)).
  unfold num_caps, TABLE_SIZE. destruct (Z.ltb_spec (l + 2) 4); [lia|]. assert (l = 2) as -> by lia.
  split; [lia|]. change (psz (2 + 1)) with (2 ^ 39). change (512 / 2) with 256.
  assert (0 ≤ a / 2 ^ 39 < 256) by (split; [apply Z.div_pos; lia|apply Z.div_lt_upper_bound; lia]).
  rewrite Z.mod_small; lia.
Qed.

(** The translation is the same before and after a new map was installed. *)
Lemma installed_walk R T ob q m p T' ob' r a :
  let k := (ob q, index (m_vaddr m) (m_level q)) in
  Reg R T ob → Reg (R ++ [m]) T' ob' → (∀ x, x ∈ R → ob' x = ob x) → ob' m = p →
  q ∈ R → map_ok m → m_level q = m_level m + 1 → covers q (m_vaddr m) →
  (∀ x, x ∈ R → ob x ≠ p) → (∀ i, T !! (p, i) = None) → T !! k = None → T' = <[k := Table p]> T →
  r ∈ R → m_level r = 3 → m_vaddr r = 0 → 0 ≤ a < 2 ^ 48 →
  walk T' 3 (ob r) a = walk T 3 (ob r) a.
Proof.
  intros k HR HR' Hob Hobm Hq Hm Hlq Hcq Hfresh Hempty Hnone HT Hr Hr3 Hr0 Ha.
  destruct (decide (covers m a)) as [Hma|Hma].
  - destruct (covers_parent q m a) as [Hqa Hidx]; [by apply (rg_ok _ _ _ HR)|done..|].
    rewrite (walk_down _ _ _ HR r q a) by done.
    pose proof (walk_down _ _ _ HR' r m a ltac:(set_solver) Hr3 Hr0 ltac:(set_solver) Hma) as Hw.
    rewrite Hob, Hobm in Hw by done. rewrite Hw. destruct Hm as (Hl & _).
    assert (T' !! (p, index a (m_level m)) = None) as Hp0.
    { rewrite HT, lookup_insert_ne; [apply Hempty|]. intros [= E _]. by apply (Hfresh q). }
    replace (Z.to_nat (m_level q)) with (Datatypes.S (Z.to_nat (m_level m))) by lia.
    cbn [walk]. replace (Z.of_nat (Datatypes.S (Z.to_nat (m_level m)))) with (m_level q) by lia.
    rewrite Hidx. unfold k in Hnone. rewrite Hnone.
    destruct (Z.to_nat (m_level m)) eqn:E; cbn [walk]; rewrite <- E, Z2Nat.id, Hp0 by lia; done.
  - apply (walk_change _ _ _ HR _ r q (index (m_vaddr m) (m_level q))); try done.
    { intros k' Hk'. rewrite HT. by apply lookup_insert_ne, not_eq_sym. }
    intros [Hqa Hidx]. apply Hma. apply (index_block q) in Hidx; [|by apply (rg_ok _ _ _ HR)|done| |done].
    + by rewrite Hlq in Hidx.
    + rewrite Hlq. apply Hm.
Qed.

(** A new map is installed below [q]. *)
Lemma installed_inv K s mm q m p s' :
  let cs := ca_cspace (caps mm) in
  let k := (obj s cs q, index (m_vaddr m) (m_level q)) in
  mapper_inv K s mm → q ∈ pagemaps mm → map_ok m → m_level q = m_level m + 1 → covers q (m_vaddr m) →
  (∀ x, x ∈ pagemaps mm → m_level x = m_level m → m_vaddr x ≠ m_vaddr m) → key m ∈ K →
  maps s (cs_get cs (m_cap m)) = Some (p, m_level m + 1) → (∀ x, x ∈ pagemaps mm → obj s cs x ≠ p) →
  (∀ i, tables s !! (p, i) = None) → tables s !! k = None →
  good s' → (∀ x, maps s' x = maps s x) → (∀ x, frames s' x = frames s x) → (∀ x, fresh s x → fresh s' x) →
  tables s' = <[k := Table p]> (tables s) →
  let mm' := mkMapper (caps mm) (kmemCap mm) (pagemaps mm ++ [m]) in
  mapper_inv K s' mm' ∧ grown s mm s' mm'.
Proof.
  intros cs k HI Hq Hm Hlq Hcq Hnew HkK Hmap Hfresh Hempty Hnone Hg Hmaps Hfr Hfre HT mm'.
  pose proof HI as [_ HR Hmi Hfrs Hcaps Hn [Hsub Hsz]]. fold cs in HR.
  assert (∀ x, obj s' cs x = obj s cs x) as Hob by (intros x; unfold obj; by rewrite Hmaps).
  assert (obj s cs m = p) as Hobm by (unfold obj; by rewrite Hmap).
  assert (m ∉ pagemaps mm) as Hnot by (intros Hi; by eapply Hnew).
  assert (Reg (pagemaps mm ++ [m]) (tables s') (obj s' cs)) as HR'.
  { rewrite HT. eapply Reg_ext; [|eapply Reg_add; try done; intros f o fl E; change (tables s !! k = Some (Page f o fl)) in E; congruence].
    intros x _. cbn. rewrite Hob. destruct (decide (x = m)) as [->|]; done. }
  split.
  - split; cbn; try done.
    + intros x Hx. unfold entry_of. cbn. fold cs. rewrite Hmaps, Hob.
      apply elem_of_app in Hx as [Hx| ->%list_elem_of_singleton]; [by apply Hmi|]. by rewrite Hmap, Hobm.
    + intros c Hc. by apply Hfre, Hfrs.
    + apply NoDup_app. split; [done|]. split; [set_solver|apply NoDup_singleton].
    + split; [|done]. unfold keys in *. rewrite fmap_app, list_to_set_app_L. set_solver.
  - split; cbn [caps pagemaps ca_cspace mm'] in *; try done.
    + intros x Hx. split; [set_solver|apply Hob].
    + intros x i f o fl Hx. fold cs. rewrite Hob, HT. destruct (decide ((obj s cs x, i) = k)) as [E|E].
      * rewrite E, lookup_insert_eq. done.
      * rewrite lookup_insert_ne by done. apply elem_of_app in Hx as [Hx| ->%list_elem_of_singleton]; [done|].
        by rewrite Hobm, Hempty.
    + intros r a Hr Hr3 Hr0 Ha. unfold translation. fold cs. rewrite Hob.
      apply (installed_walk (pagemaps mm) (tables s) (obj s cs) q m p (tables s') (obj s' cs)); try done.
      by rewrite Hob.
Qed.

(** Nothing the mapper knows of has changed. *)
Lemma kept_inv K s mm s' :
  mapper_inv K s mm → good s' → (∀ x, maps s' x = maps s x) → (∀ x, frames s' x = frames s x) →
  (∀ x, fresh s x → fresh s' x) → tables s' = tables s → mapper_inv K s' mm ∧ grown s mm s' mm.
Proof.
  intros [_ HR Hm Hfr ? ? ?] Hg Hmaps Hframes Hfresh HT.
  assert (∀ cs m, obj s' cs m = obj s cs m) as Ho by (intros cs m; unfold obj; by rewrite Hmaps). split.
  - split; try done.
    + rewrite HT. eapply Reg_ext; [|exact HR]. intros m _. by rewrite Ho.
    + intros m Hin. rewrite Hmaps, Ho. by apply Hm.
    + intros c Hc. by apply Hfresh, Hfr.
  - split; try done.
    + intros m i f o fl Hin. by rewrite HT, Ho.
    + intros r a _ _ _ _. unfold translation. by rewrite HT, Ho.
Qed.

(** An index without a registered child below it leads nowhere. *)
Lemma no_child K s mm q a l :
  let cs := ca_cspace (caps mm) in
  mapper_inv K s mm → q ∈ pagemaps mm → m_level q = l + 1 → covers q a →
  (∀ m, m ∈ pagemaps mm → m_level m = l → ¬ covers m a) →
  (∀ f o fl, tables s !! (obj s cs q, index a (l + 1)) ≠ Some (Page f o fl)) →
  tables s !! (obj s cs q, index a (l + 1)) = None.
Proof.
  intros cs HI Hq Hlq Hqa Hno Hnp. pose proof (mi_reg _ _ _ HI) as HR.
  destruct (tables s !! (obj s cs q, index a (l + 1))) as [[p|f o fl]|] eqn:E; [|by destruct (Hnp f o fl)|done].
  destruct (rg_table _ _ _ HR q _ p Hq E) as (c & Hc & _ & Hlc & Hcc & Hi). exfalso. apply (Hno c Hc); [lia|].
  pose proof (rg_ok _ _ _ HR c Hc) as (_ & _ & Hal & _). rewrite <- Hlq in Hi.
  apply (index_block q) in Hi; [|by apply (rg_ok _ _ _ HR)|done|by rewrite Hlc|done]. by rewrite Hlc in Hi.
Qed.

Lemma add_map_run K s mm q a l :
  let cs := ca_cspace (caps mm) in
  mapper_inv K s mm → q ∈ pagemaps mm → m_level q = l + 1 → 0 ≤ l ≤ 2 → covers q a → 0 ≤ a < 2 ^ 47 →
  (∀ m, m ∈ pagemaps mm → m_level m = l → ¬ covers m a) →
  (l, a / psz (l + 1) * psz (l + 1)) ∈ K →
  (∀ f o fl, tables s !! (obj s cs q, index a (l + 1)) ≠ Some (Page f o fl)) → enough K s mm →
  ∃ res mm' s', add_map a l q mm s = Done (res, mm') s' ∧ mapper_inv K s' mm' ∧ grown s mm s' mm' ∧
    match res with OK m => (m ∈ pagemaps mm' ∧ m_level m = l ∧ covers m a) ∧ enough K s' mm' | THROW _ => True end.
Proof.
  intros cs HI Hq Hlq Hl Hqa Ha Hno HK Hnp Hmem. pose proof (no_child K s mm q a l HI Hq Hlq Hqa Hno Hnp) as Hnone.
  fold cs in Hnone. unfold add_map. destruct (Z.eq_dec (ca_remaining (caps mm)) 0) as [Hrem|Hrem].
  { unfold ca_alloc. rewrite (proj2 (Z.eqb_eq _ 0) Hrem). eexists _, _, s. split; [done|].
    destruct mm. split; [by split; apply HI|]. split; [by split|done]. }
  rewrite (caps_next K s mm HI Hrem). set (c := ca_next (caps mm)). set (e := cs_get cs c).
  destruct (new_map_ok q a l c (rg_ok _ _ _ (mi_reg _ _ _ HI) q Hq) Hlq Hl Hqa) as (Hmok & Hma & Hqm' & Hidx).
  set (m := mkMap (a / psz (l + 1) * psz (l + 1)) c l) in *.
  assert (∀ x, x ∈ pagemaps mm → m_level x = l → m_vaddr x ≠ m_vaddr m) as Hnew.
  { intros x Hin Hlx E. apply (Hno x Hin Hlx). unfold covers in *. rewrite E, Hlx. apply Hma. }
  destruct (room_for K s mm (key m) HI HK) as [HroomK Hroom].
  { intros Hin. apply elem_of_list_to_set, list_elem_of_fmap in Hin as (x & [= Hkl Hkv] & Hxin). by apply (Hnew x). }
  destruct (createMap_law s (mkCapAlloc (c + 1) (ca_remaining (caps mm) - 1) cs) (kmemCap mm) c l
    (size K - Datatypes.S (length (pagemaps mm)))) as (r & s1 & Hrun & Hg & Hmem1 & HT & Hf & Hx & Hr);
    [apply HI| |lia| |].
  { destruct (mi_caps _ _ _ HI) as (? & ? & ?). apply (mi_fresh _ _ _ HI). unfold c. lia. }
  { unfold enough in Hmem. by replace (Datatypes.S _) with (size K - length (pagemaps mm))%nat by lia. }
  cbn [ca_cspace] in Hx, Hr. fold e in Hx, Hr.
  destruct (created_inv K s mm s1 HI Hrem Hg HT Hf Hx) as (HI1 & Hgr1 & Hne).
  set (mm1 := with_caps _ mm) in *. cbn [kmemCap with_caps]. rewrite (kbind_run _ _ _ _ _ Hrun).
  destruct r as [x|err]; [|eexists _, mm1, s1; split; [done|]; split; [done|]; by split].
  destruct Hr as (-> & p & Hp & Hpfresh & Hpempty). unfold ca_get. cbn [ca_cspace].
  assert (maps s1 (cs_get cs (m_cap q)) = Some (obj s1 cs q, l + 1 + 1)) as Hqm.
  { rewrite <- Hlq. by apply (mi_maps _ _ _ HI1 q). }
  rewrite (kbind_run _ _ _ _ _ (typedMap_law _ _ _ _ Hg Hqm)).
  destruct (gr_maps _ _ _ _ Hgr1 q Hq) as [_ Hobq]. fold cs in Hobq.
  rewrite pageLevel2Size_psz by lia. fold (index a (l + 1)).
  destruct (mapTable_law s1 _ _ e p (l + 1) (bset 8 4 (bset 8 0 0 true) true) (index a (l + 1)) Hg Hqm Hp)
    as (r & s2 & Hrun2 & Hg2 & Hm2 & Hf2 & Hfr2 & Hmem2 & HT2).
  { replace (l + 1 + 1) with (l + 2) by lia. apply num_caps_index; lia. }
  { by rewrite HT, Hobq. }
  rewrite (kbind_run _ _ _ _ _ Hrun2). destruct r as [[]|err].
  2:{ destruct (kept_inv K s1 mm1 s2) as [HI2 Hgr2]; [done..|].
      eexists _, mm1, s2. split; [done|]. split; [done|]. split; [by eapply grown_trans|done]. }
  rewrite round_down_block by lia.
  fold m. destruct (installed_inv K s1 mm1 q m p s2) as [HI2 Hgr2]; try done.
  { intros x Hin E. pose proof (mi_maps _ _ _ HI1 x Hin) as Hmx. change (ca_cspace (caps mm1)) with cs in *.
    rewrite E in Hmx. destruct (Hx (entry_of mm x)) as [Hsame _]; [by apply Hne|].
    apply (Hpfresh (entry_of mm x) (m_level x + 1)). rewrite <- Hsame. apply Hmx. }
  { intros i. by rewrite HT. }
  { rewrite Hidx, Hlq. change (ca_cspace (caps mm1)) with cs. by rewrite HT, Hobq. }
  { rewrite HT2, Hidx, Hlq. done. }
  eexists _, _, s2. unfold push_map. split; [|split; [exact HI2|split; [by eapply grown_trans|]]].
  - rewrite (kbind_run _ _ _ (mkMapper (caps mm1) (kmemCap mm1) (pagemaps mm1 ++ [m])) s2); [done|].
    rewrite bool_decide_true by done. done.
  - split; [split; [cbn; set_solver|by split]|]. unfold enough. cbn. rewrite length_app. cbn.
    apply Hmem2. by replace (length (pagemaps mm) + 1)%nat with (Datatypes.S (length (pagemaps mm))) by lia.
Qed.

(** No large page holds the address. *)
Definition nolarge (s : S) (mm : MemMapper) (a : Z) : Prop :=
  ∀ q f o fl, q ∈ pagemaps mm → m_level q = 1 → covers q a →
  tables s !! (obj s (ca_cspace (caps mm)) q, index a 1) ≠ Some (Page f o fl).

Lemma nolarge_grown s mm s' mm' a : grown s mm s' mm' → nolarge s mm a → nolarge s' mm' a.
Proof.
  intros Hg Hn q f o fl Hq Hl Hc HT. rewrite (gr_cspace _ _ _ _ Hg) in HT.
  destruct (gr_pages _ _ _ _ Hg q _ f o fl Hq HT) as [Hq' HT']. by eapply Hn.
Qed.

(** The lowest map for an address, or the one that can hold a large page. *)
Definition lowest (mm : MemMapper) (big : bool) (a : Z) (m : MapInfo) : Prop :=
  m ∈ pagemaps mm ∧ covers m a ∧
  (m_level m = 0 ∨ m_level m = 1 ∧ big = true ∧ ∀ x, x ∈ pagemaps mm → m_level x = 0 → ¬ covers x a).

Lemma add_missing_run K big a n : ∀ s mm up,
  (n ≤ 3)%nat → mapper_inv K s mm → up ∈ pagemaps mm → m_level up = Z.of_nat n → covers up a →
  0 ≤ a < 2 ^ 47 → (∀ l, 0 ≤ l ≤ 2 → (l, a / psz (l + 1) * psz (l + 1)) ∈ K) → nolarge s mm a →
  enough K s mm →
  ∃ res mm' s', add_missing n big a up mm s = Done (res, mm') s' ∧ mapper_inv K s' mm' ∧ grown s mm s' mm' ∧
    match res with OK m => lowest mm' big a m ∧ enough K s' mm' | THROW _ => True end.
Proof.
  induction n as [|n IH]; intros s mm up Hn HI Hup Hl Hc Ha HK Hnl Hmem; cbn [add_missing].
  { eexists _, mm, s. split; [done|]. split; [done|]. split; [apply grown_refl|]. split; [|done]. split_and!; [done|done|by left]. }
  destruct (find_levels (pagemaps mm) a (Z.of_nat n)) as [m|] eqn:Ef.
  { apply find_levels_Some in Ef as (Hm & Hcm & Hlm). apply (IH s mm m); try done; [lia|].
    apply map_contains_covers; [|done]. by apply (rg_ok _ _ _ (mi_reg _ _ _ HI)). }
  assert (∀ m, m ∈ pagemaps mm → m_level m = Z.of_nat n → ¬ covers m a) as Hno.
  { intros m Hm Hlm Hca. apply (find_levels_None _ _ _ m Ef Hm Hlm).
    apply map_contains_covers; [|done]. by apply (rg_ok _ _ _ (mi_reg _ _ _ HI)). }
  destruct (Nat.eqb n 0 && big) eqn:Eb.
  { apply andb_prop in Eb as [E%Nat.eqb_eq ->]. subst n. eexists _, mm, s. split; [done|]. split; [done|].
    split; [apply grown_refl|]. split; [|done]. split; [done|]. split; [done|]. right. done. }
  destruct (add_map_run K s mm up a (Z.of_nat n)) as (res & mm1 & s1 & Hrun & HI1 & Hg1 & Hres);
    [done|done|lia|lia|done|done|done|apply HK; lia| |done|].
  { intros f o fl HT. destruct (Nat.eq_dec n 0) as [->|Hn0]; [by eapply (Hnl up)|].
    apply (rg_page _ _ _ (mi_reg _ _ _ HI)) in HT; [lia|done]. }
  rewrite (kbind_run _ _ _ _ _ Hrun). destruct res as [m|e].
  2:{ eexists _, mm1, s1. split; [done|]. by split. }
  destruct Hres as [(Hm & Hlm & Hcm) Hmem1].
  destruct (IH s1 mm1 m) as (res & mm2 & s2 & Hrun2 & HI2 & Hg2 & Hres2); try done; [lia|by eapply nolarge_grown|].
  eexists _, mm2, s2. split; [exact Hrun2|]. split; [done|]. split; [by eapply grown_trans|done].
Qed.

(** The root of the tree. *)
Definition is_root (mm : MemMapper) (r : MapInfo) : Prop := r ∈ pagemaps mm ∧ m_level r = 3 ∧ m_vaddr r = 0.

(** Only the pages between [lo] and [hi] changed. *)
Record remapped (mm : MemMapper) (lo hi : Z) (s s' : S) : Prop := {
  re_obj cs m : obj s' cs m = obj s cs m;
  re_frames x : frames s' x = frames s x;
  re_memory n : memory s n → memory s' n;
  re_walk r a : is_root mm r → 0 ≤ a < 2 ^ 48 → ¬ (lo ≤ a < hi) →
    translation s' (ca_cspace (caps mm)) r a = translation s (ca_cspace (caps mm)) r a;
  re_nolarge a : 0 ≤ a < 2 ^ 48 → ¬ (lo ≤ a < hi) → nolarge s mm a → nolarge s' mm a
}.

Lemma remapped_refl mm lo hi s : remapped mm lo hi s s.
Proof. by split. Qed.

Lemma remapped_trans mm lo1 hi1 lo2 hi2 lo hi s1 s2 s3 :
  remapped mm lo1 hi1 s1 s2 → remapped mm lo2 hi2 s2 s3 →
  (∀ a, lo1 ≤ a < hi1 ∨ lo2 ≤ a < hi2 → lo ≤ a < hi) → remapped mm lo hi s1 s3.
Proof.
  intros [Ho1 Hf1 Hme1 Hw1 Hn1] [Ho2 Hf2 Hme2 Hw2 Hn2] Hsub. split.
  - intros cs m. by rewrite Ho2.
  - intros x. by rewrite Hf2.
  - intros n Hn. by apply Hme2, Hme1.
  - intros r a Hr Ha Hout. rewrite Hw2 by naive_solver. apply Hw1; naive_solver.
  - intros a Ha Hout Hn. apply Hn2; [done|naive_solver|]. apply Hn1; naive_solver.
Qed.

Lemma remapped_weaken mm lo hi lo' hi' s s' :
  remapped mm lo hi s s' → lo' ≤ lo → hi ≤ hi' → remapped mm lo' hi' s s'.
Proof. intros Hr Hlo Hhi. apply (remapped_trans _ lo hi lo hi _ _ s s); [apply remapped_refl|done|lia]. Qed.

(** The addresses from [lo] to [hi] are translated to the frame from [off] on. *)
Definition maps_to (s : S) (cs : Z) (r : MapInfo) (f fl lo hi off : Z) : Prop :=
  ∀ a, lo ≤ a < hi → translation s cs r a = Some (f, off + (a - lo), fl).

Lemma index_cap m a :
  map_ok m → covers m a → 0 ≤ a < 2 ^ 47 → 0 ≤ index a (m_level m) < num_caps (m_level m + 1).
Proof.
  intros (Hl & _) _ Ha. destruct (Z.eq_dec (m_level m) 0) as [->|Hne].
  - unfold index. apply Z.mod_pos_bound. done.
  - replace (m_level m) with (m_level m - 1 + 1) by lia.
    replace (m_level m - 1 + 1 + 1) with (m_level m - 1 + 2) by lia. apply num_caps_index; lia.
Qed.

Lemma page_start m b :
  map_ok m → covers m b → b mod psz (m_level m) = 0 → b = m_vaddr m + index b (m_level m) * psz (m_level m).
Proof.
  intros Hm Hc Hb. pose proof (covers_split m b Hm Hc) as [Hs Hi]. destruct Hm as (Hl & _ & Hal & _).
  pose proof (psz_pos (m_level m) ltac:(lia)) as HP. rewrite psz_S in Hal by lia.
  set (P := psz (m_level m)) in *. set (i := index b (m_level m)) in *. clearbody P i.
  apply Z.mod_divide in Hal as [j Hj]; [|lia]. apply Z.mod_divide in Hb as [k Hk]; [|lia].
  rewrite Hj, Hk in *. clear Hj Hk. assert (k = j * 512 + i) by nia. nia.
Qed.

Lemma page_covers m b a :
  map_ok m → covers m b → b mod psz (m_level m) = 0 → b ≤ a < b + psz (m_level m) → covers m a.
Proof.
  intros Hm Hc Hb Ha. pose proof (page_start m b Hm Hc Hb). pose proof (covers_split m b Hm Hc) as [_ Hi].
  destruct Hm as (Hl & _). pose proof (psz_pos (m_level m) ltac:(lia)). unfold covers. rewrite psz_S by lia. nia.
Qed.

(** One page is mapped. *)
Lemma page_run K s mm m b f info fl o :
  let cs := ca_cspace (caps mm) in let P := psz (m_level m) in let i := index b (m_level m) in
  mapper_inv K s mm → m ∈ pagemaps mm → m_level m ≤ 1 → covers m b → b mod P = 0 → 0 ≤ b < 2 ^ 47 →
  (∀ p, tables s !! (obj s cs m, i) ≠ Some (Table p)) → frames s f = Some info →
  ∃ r s', op_mapFrame (obj s cs m) i f fl o s = Done r s' ∧ mapper_inv K s' mm ∧ remapped mm b (b + P) s s' ∧
    match r with OK _ => ∀ r, is_root mm r → maps_to s' cs r f fl b (b + P) o | THROW _ => True end.
Proof.
  intros cs P i HI Hm Hl Hc Hb Hb47 Hnt Hf. pose proof HI as [Hg HR Hmaps Hfr Hcaps Hn Hk]. fold cs in HR.
  pose proof (rg_ok _ _ _ HR m Hm) as Hmok.
  destruct (mapFrame_law s (entry_of mm m) (obj s cs m) (m_level m + 1) f info fl i o)
    as (r & s' & Hrun & Hg' & Hm' & Hf' & Hfr' & Hme' & HT); [done|by apply Hmaps|done|by apply index_cap|].
  exists r, s'. split; [done|].
  assert (∀ k, k ≠ (obj s cs m, i) → tables s' !! k = tables s !! k) as Hsame.
  { intros k Hk'. destruct r; [rewrite HT; by apply lookup_insert_ne, not_eq_sym|].
    destruct HT as [->| ->]; [done|by apply lookup_delete_ne, not_eq_sym]. }
  assert (∀ p, tables s' !! (obj s cs m, i) ≠ Some (Table p)) as Hnt'.
  { intros p. destruct r; [by rewrite HT, lookup_insert_eq|].
    destruct HT as [->| ->]; [done|by rewrite lookup_delete_eq]. }
  assert (∀ cs x, obj s' cs x = obj s cs x) as Hob by (intros ? x; unfold obj; by rewrite Hm').
  assert (Reg (pagemaps mm) (tables s') (obj s cs)) as HR' by (by eapply (Reg_change _ _ _ HR)).
  assert (Reg (pagemaps mm) (tables s') (obj s' cs)) as HR''
    by (eapply Reg_ext; [|exact HR']; intros x _; by rewrite Hob).
  assert (∀ a, covers m a → index a (m_level m) = i ↔ b ≤ a < b + P) as Hblock
    by (intros a Ha; by apply index_block).
  split; [|split].
  - split; try done.
    + intros x Hx. fold cs. rewrite Hm', Hob. by apply Hmaps.
    + intros c Hc'. by apply Hfr', Hfr.
  - split; try done.
    + intros r' a (Hr & Hr3 & Hr0) Ha Hout. unfold translation. fold cs. rewrite Hob.
      apply (walk_change _ _ _ HR _ r' m i); try done. intros [Hca Hi]. by apply Hblock in Hi.
    + intros a Ha Hout Hnl q f' o' fl' Hq Hlq Hcq. fold cs. rewrite Hob, Hsame; [by apply Hnl|].
      intros [= Eo Ei]. apply (rg_inj _ _ _ HR) in Eo as ->; [|done|done]. rewrite <- Hlq in Ei. by apply Hblock in Ei.
  - destruct r as [u|]; [|done]. intros r' (Hr & Hr3 & Hr0) a Ha. unfold translation.
    assert (covers m a) as Hca by (by apply (page_covers m b)).
    rewrite Hob, (walk_down _ _ _ HR' r' m a) by done.
    assert (index a (m_level m) = i) as Hi by (by apply Hblock).
    assert (a mod P = a - b) as Hmod.
    { apply Z.mod_divide in Hb as [j ->]; [|unfold P; pose proof (psz_pos (m_level m)); destruct Hmok; lia].
      rewrite (Z.mod_eq a P) by (unfold P; pose proof (psz_pos (m_level m)); destruct Hmok; lia).
      rewrite (Z.div_unique a P j (a - j * P)); lia. }
    destruct (Z.to_nat (m_level m)) eqn:E; cbn [walk]; rewrite <- E, Z2Nat.id, Hi, HT, lookup_insert_eq by (destruct Hmok; lia);
      fold P; by rewrite Hmod.
Qed.

(** No page table is registered for a large page of the range. *)
Definition nosmall (mm : MemMapper) (lo hi : Z) : Prop :=
  ∀ x, x ∈ pagemaps mm → m_level x = 0 → lo ≤ m_vaddr x → m_vaddr x + psz 1 ≤ hi → False.

Lemma no_table K s mm m b hi :
  mapper_inv K s mm → m ∈ pagemaps mm → m_level m ≤ 1 → covers m b → b mod psz (m_level m) = 0 →
  (m_level m = 1 → nosmall mm b hi) → b + psz (m_level m) ≤ hi →
  ∀ p, tables s !! (obj s (ca_cspace (caps mm)) m, index b (m_level m)) ≠ Some (Table p).
Proof.
  intros HI Hm Hl Hc Hb Hns Hhi p HT. pose proof (mi_reg _ _ _ HI) as HR.
  destruct (rg_table _ _ _ HR m _ p Hm HT) as (x & Hx & _ & Hlx & Hcx & Hi).
  pose proof (rg_ok _ _ _ HR x Hx) as (Hlx' & _ & Hax & _). pose proof (rg_ok _ _ _ HR m Hm) as Hmok.
  assert (m_level m = 1 ∧ m_level x = 0) as [Hm1 Hx0] by lia. rewrite Hx0 in Hax.
  assert (b ≤ m_vaddr x < b + psz (m_level m)) by (by apply (index_block m)).
  assert (m_vaddr x ≤ b < m_vaddr x + psz (m_level m)) 
    by (apply (index_block m); [done|done|by rewrite Hm1|done|done]).
  rewrite Hm1 in *. apply (Hns eq_refl x Hx Hx0); lia.
Qed.

(** The cursor has moved on by [d]. *)
Definition moved (d : Z) (c c' : cursor) : Prop :=
  c' = mkCursor (remaining c - d) (curAddr c + d) (curOffset c + d) ∧ 0 ≤ d ≤ remaining c.

Definition cursor_ok (c : cursor) : Prop :=
  0 ≤ remaining c ∧ 0 ≤ curAddr c ∧ curAddr c + remaining c ≤ 2 ^ 47 ∧
  0 ≤ curOffset c ∧ curOffset c + remaining c < 2 ^ 64.

Lemma advance_moved P c : cursor_ok c → 0 ≤ P ≤ remaining c → moved P c (advance P c) ∧ cursor_ok (advance P c).
Proof.
  intros (H1 & H2 & H3 & H4 & H5) HP.
  assert (advance P c = mkCursor (remaining c - P) (curAddr c + P) (curOffset c + P)) as ->.
  { unfold advance. rewrite !wrap_small by (unfold fits; lia). done. }
  split; [done|]. unfold cursor_ok; cbn. lia.
Qed.

(** Step 3 maps pages until the end of the table or of the range. *)
Lemma map_pages_run K mm m f info fl n : ∀ s c idx,
  let cs := ca_cspace (caps mm) in let P := psz (m_level m) in
  mapper_inv K s mm → m ∈ pagemaps mm → m_level m ≤ 1 → frames s f = Some info → cursor_ok c →
  0 ≤ idx → idx = 512 - Z.of_nat n → curAddr c = m_vaddr m + idx * P →
  (m_level m = 1 → nosmall mm (curAddr c) (curAddr c + remaining c)) →
  ∃ r c' s', map_pages n (obj s cs m) idx P f fl c s = Done (r, c') s' ∧ mapper_inv K s' mm ∧
    match r with
    | OK _ => ∃ k, 0 ≤ k ∧ moved (k * P) c c' ∧ cursor_ok c' ∧ (remaining c' < P ∨ k = Z.of_nat n) ∧
        remapped mm (curAddr c) (curAddr c + k * P) s s' ∧
        ∀ r, is_root mm r → maps_to s' cs r f fl (curAddr c) (curAddr c + k * P) (curOffset c)
    | THROW _ => remapped mm (curAddr c) (curAddr c + remaining c) s s'
    end.
Proof.
  induction n as [|n IH]; intros s c idx cs P HI Hm Hl Hf Hcu Hi0 Hidx Hcur Hns; cbn [map_pages].
  { eexists _, c, s. split; [done|]. split; [done|]. exists 0. rewrite Z.mul_0_l, Z.add_0_r.
    split; [done|]. split; [split; [destruct c; cbn; f_equal; lia|destruct Hcu; lia]|].
    split; [done|]. split; [by right|]. split; [apply remapped_refl|]. intros r Hr a Ha. lia. }
  pose proof (rg_ok _ _ _ (mi_reg _ _ _ HI) m Hm) as Hmok. pose proof Hmok as (Hlm & _ & Hal & _).
  pose proof (psz_pos (m_level m) ltac:(lia)) as HP. fold P in HP. rewrite psz_S in Hal by lia. fold P in Hal.
  destruct (Z.leb_spec P (remaining c)) as [HPr|HPr].
  2:{ eexists _, c, s. split; [done|]. split; [done|]. exists 0. rewrite Z.mul_0_l, Z.add_0_r.
    split; [done|]. split; [split; [destruct c; cbn; f_equal; lia|destruct Hcu; lia]|].
    split; [done|]. split; [by left|]. split; [apply remapped_refl|]. intros r Hr a Ha. lia. }
  assert (covers m (curAddr c)) as Hcov by (unfold covers; rewrite psz_S by lia; fold P; nia).
  assert (curAddr c mod P = 0) as Hmod.
  { apply Z.mod_divide in Hal as [j Hj]; [|lia]. rewrite Hcur, Hj.
    replace (j * (512 * P) + idx * P) with ((j * 512 + idx) * P) by lia. apply Z.mod_mul. lia. }
  assert (idx = index (curAddr c) (m_level m)) as Hix.
  { pose proof (page_start m (curAddr c) Hmok Hcov Hmod) as Hs. fold P in Hs. nia. }
  destruct (page_run K s mm m (curAddr c) f info fl (curOffset c)) as (r & s1 & Hrun & HI1 & Hre & Hr);
    try done; [destruct Hcu; lia|eapply no_table; try done; fold P; lia|].
  fold cs P in Hrun, Hre, Hr. rewrite <- Hix in Hrun. rewrite (kbind_run _ _ _ _ _ Hrun).
  destruct r as [u|e].
  2:{ eexists _, c, s1. split; [done|]. split; [done|]. eapply remapped_weaken; [exact Hre|lia|lia]. }
  destruct (advance_moved P c Hcu ltac:(lia)) as [[Hadv HPd] Hcu1].
  destruct (IH s1 (advance P c) (idx + 1)) as (r & c' & s' & Hrun' & HI' & Hpost); try done; [by rewrite (re_frames _ _ _ _ _ Hre)|lia|lia|..].
  { rewrite Hadv; cbn. fold P. lia. }
  { intros Hl1 x Hx Hx0 Hlo Hhi. rewrite Hadv in *; cbn in *. apply (Hns Hl1 x Hx Hx0); lia. }
  rewrite (re_obj _ _ _ _ _ Hre) in Hrun'. exists r, c', s'. split; [done|]. split; [done|].
  rewrite Hadv in Hpost; cbn in Hpost. fold cs P in Hpost. destruct r as [u'|e].
  - destruct Hpost as (k & Hk & [-> Hkd] & Hcu' & Hend & Hre' & Hmt). exists (k + 1). cbn in Hkd, Hend, Hcu' |- *.
    replace (curAddr c + P + k * P) with (curAddr c + (k + 1) * P) in * by lia.
    split; [lia|]. split; [split; [f_equal; lia|lia]|]. split; [unfold cursor_ok in *; cbn in *; lia|]. split; [lia|]. split.
    + eapply remapped_trans; [exact Hre|exact Hre'|]. intros a Ha. nia.
    + intros r Hroot a Ha. destruct (Z_lt_dec a (curAddr c + P)) as [Hlt|Hge].
      * rewrite (re_walk _ _ _ _ _ Hre'); try done; [|destruct Hcu; lia|lia]. apply Hr; [done|lia].
      * rewrite (Hmt r Hroot a) by lia. do 3 f_equal. lia.
  - eapply remapped_trans; [exact Hre|exact Hpost|]. intros a Ha. lia.
Qed.

(** The maps that step 2 adds cover the address. *)
Definition adds_at (a : Z) (mm mm' : MemMapper) : Prop :=
  ∀ x, x ∈ pagemaps mm' → x ∈ pagemaps mm ∨ covers x a.

Lemma add_map_at a l up mm s res mm' s' :
  0 ≤ l ≤ 2 → 0 ≤ a < 2 ^ 47 → add_map a l up mm s = Done (res, mm') s' → adds_at a mm mm'.
Proof.
  intros Hl Ha. unfold add_map. destruct (ca_alloc (caps mm)) as [[c|e] ca]; [|intros [= _ <-]; by left].
  rewrite kbind_Done. intros ([pe|e] & s1 & _ & HE); [|injection HE as _ <-; by left].
  cbn [ca_get] in HE. unfold ca_get in HE. rewrite kbind_Done in HE.
  destruct HE as ([p|e] & s2 & _ & HE); [|injection HE as _ <-; by left].
  rewrite kbind_Done in HE. destruct HE as ([u|e] & s3 & _ & HE); [|injection HE as _ <-; by left].
  rewrite kbind_Done in HE. destruct HE as (mm1 & s4 & Hp & HE). injection HE as _ <- _.
  unfold push_map in Hp. rewrite kbind_Done in Hp. destruct Hp as ([] & s5 & _ & [= <- _]).
  intros x [Hx| ->%list_elem_of_singleton]%elem_of_app; [by left|right]. cbn.
  rewrite pageLevel2Size_psz, round_down_block by lia. pose proof (psz_pos (l + 1) ltac:(lia)) as HP. unfold covers; cbn.
  pose proof (Z.mul_div_le a (psz (l + 1)) HP). pose proof (Z.mul_succ_div_gt a (psz (l + 1)) HP). lia.
Qed.

Lemma add_missing_at big a n : ∀ s mm up res mm' s',
  (n ≤ 3)%nat → 0 ≤ a < 2 ^ 47 → add_missing n big a up mm s = Done (res, mm') s' → adds_at a mm mm'.
Proof.
  induction n as [|n IH]; intros s mm up res mm' s' Hn Ha; cbn [add_missing].
  { intros [= _ <- _]. by left. }
  destruct (find_levels _ _ _); [apply IH; [lia|done]|].
  destruct (Nat.eqb n 0 && big); [intros [= _ <- _]; by left|].
  rewrite kbind_Done. intros ([[m|e] mm1] & s1 & Hadd & HE); apply add_map_at in Hadd; try (done || lia).
  - apply IH in HE; [|lia|done]. intros x Hx. destruct (HE x Hx); [|by right]. by apply Hadd.
  - injection HE as _ <- _. done.
Qed.

(** Only the pages between [lo] and [hi] changed, and maps were added. *)
Record changed (lo hi : Z) (s : S) (mm : MemMapper) (s' : S) (mm' : MemMapper) : Prop := {
  ch_cspace : ca_cspace (caps mm') = ca_cspace (caps mm);
  ch_maps m : m ∈ pagemaps mm → m ∈ pagemaps mm';
  ch_new m : m ∈ pagemaps mm' → m ∈ pagemaps mm ∨ ∃ a, lo ≤ a < hi ∧ covers m a;
  ch_frames x : frames s x ≠ None → frames s' x = frames s x;
  ch_walk r a : is_root mm r → 0 ≤ a < 2 ^ 48 → ¬ (lo ≤ a < hi) →
    translation s' (ca_cspace (caps mm)) r a = translation s (ca_cspace (caps mm)) r a;
  ch_nolarge a : 0 ≤ a < 2 ^ 48 → ¬ (lo ≤ a < hi) → nolarge s mm a → nolarge s' mm' a
}.

Lemma is_root_changed lo hi s mm s' mm' r : changed lo hi s mm s' mm' → is_root mm r → is_root mm' r.
Proof. intros Hc (Hr & ?). split; [by eapply ch_maps|done]. Qed.

Lemma changed_grown lo hi a s mm s' mm' :
  grown s mm s' mm' → adds_at a mm mm' → lo ≤ a < hi → changed lo hi s mm s' mm'.
Proof.
  intros Hg Hadd Ha. split; [by apply Hg|by intros; eapply gr_maps| |by apply Hg| |].
  - intros m Hm. destruct (Hadd m Hm); [by left|right]. by exists a.
  - intros r a' (Hr & Hr3 & Hr0) Ha' _. by eapply gr_walk.
  - intros a' _ _. by apply nolarge_grown.
Qed.

Lemma changed_remapped lo hi s mm s' : remapped mm lo hi s s' → changed lo hi s mm s' mm.
Proof. intros [Ho Hf Hme Hw Hn]. split; try done. by left. Qed.

Lemma changed_refl lo hi s mm : changed lo hi s mm s mm.
Proof. apply changed_remapped, remapped_refl. Qed.

Lemma changed_trans lo1 hi1 lo2 hi2 lo hi s1 mm1 s2 mm2 s3 mm3 :
  changed lo1 hi1 s1 mm1 s2 mm2 → changed lo2 hi2 s2 mm2 s3 mm3 →
  (∀ a, lo1 ≤ a < hi1 ∨ lo2 ≤ a < hi2 → lo ≤ a < hi) → changed lo hi s1 mm1 s3 mm3.
Proof.
  intros Hc1 Hc2 Hsub. pose proof (λ r, is_root_changed _ _ _ _ _ _ r Hc1) as Hroot.
  destruct Hc1 as [Hcs1 Hm1 Hx1 Hf1 Hw1 Hn1], Hc2 as [Hcs2 Hm2 Hx2 Hf2 Hw2 Hn2]. rewrite Hcs1 in *. split.
  - congruence.
  - intros m Hm. by apply Hm2, Hm1.
  - intros m Hm. destruct (Hx2 m Hm) as [Hm'|(a & Ha & Hc)]; [|right; exists a; split; [by apply Hsub; right|done]].
    destruct (Hx1 m Hm') as [?|(a & Ha & Hc)]; [by left|right; exists a; split; [by apply Hsub; left|done]].
  - intros x Hx. rewrite Hf2; [by apply Hf1|]. by rewrite Hf1.
  - intros r a Hr Ha Hout. rewrite Hw2; [apply Hw1; naive_solver|by apply Hroot|done|naive_solver].
  - intros a Ha Hout Hn. apply Hn2; [done|naive_solver|]. apply Hn1; naive_solver.
Qed.

(** What the loop of [mmap] keeps while it maps the rest of the range. *)
Record mapping (K : gset (Z * Z)) (s : S) (mm : MemMapper) (f : Z) (info : MemoryRegion.Info) (c : cursor)
    : Prop := {
  mp_inv : mapper_inv K s mm;
  mp_memory : enough K s mm;
  mp_frame : frames s f = Some info;
  mp_cursor : cursor_ok c;
  mp_aligned : curAddr c mod 4096 = 0 ∧ remaining c mod 4096 = 0;
  mp_K a l : curAddr c ≤ a < curAddr c + remaining c → 0 ≤ l ≤ 2 → (l, a / psz (l + 1) * psz (l + 1)) ∈ K;
  mp_large a : curAddr c ≤ a < curAddr c + remaining c → nolarge s mm a;
  mp_small : nosmall mm (curAddr c) (curAddr c + remaining c)
}.

Lemma root_found K s mm a :
  mapper_inv K s mm → 0 ≤ a < 2 ^ 47 →
  ∃ r, find_levels (pagemaps mm) a 3 = Some r ∧ r ∈ pagemaps mm ∧ m_level r = 3 ∧ covers r a.
Proof.
  intros HI Ha. pose proof (mi_reg _ _ _ HI) as HR. destruct (find_levels (pagemaps mm) a 3) as [r|] eqn:E.
  - apply find_levels_Some in E as (Hr & Hc & Hl). exists r. split_and!; [done..|].
    apply map_contains_covers; [by apply (rg_ok _ _ _ HR)|done].
  - destruct (rg_root _ _ _ HR) as (r & Hr & Hr3 & Hr0). exfalso.
    apply (find_levels_None _ _ _ r E Hr Hr3), map_contains_covers; [by apply (rg_ok _ _ _ HR)|].
    unfold covers. rewrite Hr0, Hr3. change (psz (3 + 1)) with (2 ^ 48). lia.
Qed.

(** The size of a page divides into 4 KiB. *)
Lemma psz_4K l : 0 ≤ l ≤ 1 → psz l mod 4096 = 0.
Proof. intros Hl. assert (l = 0 ∨ l = 1) as [->| ->] by lia; reflexivity. Qed.

(** The cursor fits the pages of the map that step 2 leaves. *)
Lemma lowest_fits mm c big m :
  curAddr c mod 4096 = 0 → remaining c mod 4096 = 0 → 0 < remaining c →
  (big = true → align2M ≤ remaining c ∧ is_aligned (curAddr c) align2M = true) →
  lowest mm big (curAddr c) m → 0 ≤ m_level m ≤ 1 ∧ psz (m_level m) ≤ remaining c ∧
    curAddr c mod psz (m_level m) = 0.
Proof.
  intros Ha Hal Hr Hb (Hm & Hc & Hl).
  destruct Hl as [Hl|(Hl & Hbig & _)]; rewrite Hl; split_and!; try (done || lia).
  - apply Z.mod_divide in Hal as [k Hk]; [|lia]. change (psz 0) with 4096. lia.
  - by apply Hb.
  - destruct (Hb Hbig) as [_ E]. by apply is_aligned_spec in E.
Qed.

Lemma lowest_nosmall mm mm' big a hi m :
  nosmall mm a hi → adds_at a mm mm' → lowest mm' big a m → m_level m = 1 → nosmall mm' a hi.
Proof.
  intros Hns Hadd (Hm & Hc & [Hl|(_ & _ & Hno)]) Hl1 x Hx Hx0 Hlo Hhi; [lia|].
  destruct (Hadd x Hx) as [Hx'|Hle]; [by apply (Hns x)|]. by apply (Hno x).
Qed.

Lemma mapping_moved K s mm f info c d c' s' mm' :
  mapping K s mm f info c → moved d c c' → 0 < d → d mod 4096 = 0 → mapper_inv K s' mm' → enough K s' mm' →
  cursor_ok c' →
  changed (curAddr c) (curAddr c + d) s mm s' mm' → adds_at (curAddr c) mm mm' → mapping K s' mm' f info c'.
Proof.
  intros HM [-> Hd] Hd0 Hdm HI' Hme' Hcu Hch Hadd. destruct HM as [HI Hme Hf Hcu0 [Ha Hr] HK Hlg Hsm]. split; cbn; try done.
  - rewrite (ch_frames _ _ _ _ _ _ Hch); congruence.
  - split; [rewrite Z.add_mod, Ha, Hdm by lia|rewrite Zminus_mod, Hr, Hdm]; done.
  - intros a l Hal. apply HK. lia.
  - intros a Hal. destruct Hcu0. apply (ch_nolarge _ _ _ _ _ _ Hch); [lia|lia|]. apply Hlg. lia.
  - intros x Hx Hx0 Hlo Hhi. destruct (Hadd x Hx) as [?|[??]]; [|lia]. apply (Hsm x); try done; lia.
Qed.

(** One iteration maps at least a page. *)
Lemma mmap_step_run K s mm f info fl c :
  mapping K s mm f info c → 0 < remaining c →
  ∃ r c' mm' s', mmap_step info f fl c mm s = Done (r, c', mm') s' ∧ mapper_inv K s' mm' ∧
    match r with
    | OK _ => ∃ d, 4096 ≤ d ∧ moved d c c' ∧ mapping K s' mm' f info c' ∧
        changed (curAddr c) (curAddr c + d) s mm s' mm' ∧
        ∀ r, is_root mm r → maps_to s' (ca_cspace (caps mm)) r f fl (curAddr c) (curAddr c + d) (curOffset c)
    | THROW _ => changed (curAddr c) (curAddr c + remaining c) s mm s' mm'
    end.
Proof.
  intros HM Hr0. pose proof HM as [HI Hme Hf Hcu [Ha Hr] HK Hlg Hsm].
  assert (0 ≤ curAddr c < 2 ^ 47) as Hrange by (destruct Hcu; lia).
  unfold mmap_step. destruct (root_found K s mm (curAddr c) HI Hrange) as (rt & -> & Hrt & Hrt3 & Hrtc).
  set (big := _ && _ && _).
  destruct (add_missing_run K big (curAddr c) 3 s mm rt) as (res & mm1 & s1 & Hrun & HI1 & Hg1 & Hres);
    try done; [intros l Hl; apply HK; lia|apply Hlg; lia|].
  pose proof Hrun as Hadd. apply add_missing_at in Hadd; [|lia|done].
  rewrite (kbind_run _ _ _ _ _ Hrun). pose proof (gr_cspace _ _ _ _ Hg1) as Hcs.
  destruct res as [low|e].
  2:{ eexists _, c, mm1, s1. split; [done|]. split; [done|]. apply (changed_grown _ _ (curAddr c)); [done|done|lia]. }
  destruct Hres as [Hres Hme1].
  pose proof (lowest_fits mm1 c big low Ha Hr Hr0) as (Hl & HPr & HPa); [|done|].
  { unfold big. intros [[_ E%Z.leb_le]%andb_prop ?]%andb_prop. done. }
  destruct Hres as (Hlow & Hc & Hlv) eqn:Elow. clear Elow.
  set (P := psz (m_level low)) in *. pose proof (psz_pos (m_level low) ltac:(lia)) as HP. fold P in HP.
  pose proof (rg_ok _ _ _ (mi_reg _ _ _ HI1) low Hlow) as Hok. rewrite pageLevel2Size_psz by lia. fold P.
  pose proof (page_start low (curAddr c) Hok Hc HPa) as Hst. pose proof (covers_split low _ Hok Hc) as [_ Hidx].
  fold P in Hst. unfold ca_get. fold (entry_of mm1 low).
  rewrite (kbind_run _ _ _ _ _ (typedMap_law _ _ _ _ (mi_good _ _ _ HI1) (mi_maps _ _ _ HI1 low Hlow))).
  change ((curAddr c / P) mod 512) with (index (curAddr c) (m_level low)).
  destruct (map_pages_run K mm1 low f info fl (Z.to_nat (512 - index (curAddr c) (m_level low))) s1 c
    (index (curAddr c) (m_level low))) as (r & c' & s' & Hrun' & HI' & Hpost); try done; [lia| |lia|lia| |].
  { by rewrite (gr_frames _ _ _ _ Hg1), Hf by congruence. }
  { intros Hl1. eapply lowest_nosmall; [done..|]. done. }
  fold P in Hrun', Hpost. rewrite (kbind_run _ _ _ _ _ Hrun'). eexists _, c', mm1, s'. split; [done|]. split; [done|].
  cbn. destruct r as [u|e].
  - destruct Hpost as (k & Hk & Hmv & Hcu' & Hend & Hre & Hmt). exists (k * P).
    assert (1 ≤ k) as Hk1. { destruct Hmv as [-> ?]. cbn in Hend. nia. }
    assert (changed (curAddr c) (curAddr c + k * P) s mm s' mm1) as Hch.
    { eapply changed_trans; [apply (changed_grown (curAddr c) (curAddr c + k * P) (curAddr c)); [done|done|nia]|by apply changed_remapped|lia]. }
    assert ((k * P) mod 4096 = 0) as Hdm by (unfold P; rewrite Z.mul_mod, psz_4K, Z.mul_0_r by lia; done).
    assert (4096 ≤ k * P) as Hd. { apply Z.mod_divide in Hdm as [j Hj]; [|lia]. nia. }
    split; [done|]. split; [done|]. split; [|split; [done|]].
    { eapply mapping_moved; try done; [lia|]. by apply (re_memory _ _ _ _ _ Hre). }
    intros r Hroot. rewrite <- Hcs. apply Hmt. by eapply is_root_changed.
  - eapply changed_trans; [apply (changed_grown (curAddr c) (curAddr c + remaining c) (curAddr c)); [done|done|lia]|by apply changed_remapped|lia].
Qed.

Lemma mmap_loop_run K f info fl fuel : ∀ s mm c,
  mapping K s mm f info c → remaining c ≤ 4096 * Z.of_nat fuel →
  ∃ r mm' s', mmap_loop fuel info f fl c mm s = Done (r, mm') s' ∧ mapper_inv K s' mm' ∧
    changed (curAddr c) (curAddr c + remaining c) s mm s' mm' ∧
    match r with
    | OK _ => enough K s' mm' ∧ ∀ r, is_root mm r →
        maps_to s' (ca_cspace (caps mm)) r f fl (curAddr c) (curAddr c + remaining c) (curOffset c)
    | THROW _ => True
    end.
Proof.
  induction fuel as [|fuel IH]; intros s mm c HM Hfuel; cbn [mmap_loop];
    destruct (Z.ltb_spec 0 (remaining c)) as [Hr|Hr]; try lia.
  1,3: eexists _, mm, s; split; [done|]; split; [by eapply mp_inv|];
    (split; [apply changed_refl|]); (split; [by eapply mp_memory|]); intros r Hroot a Ha; lia.
  destruct (mmap_step_run K s mm f info fl c HM Hr) as (r & c' & mm1 & s1 & Hrun & HI1 & Hpost).
  rewrite (kbind_run _ _ _ _ _ Hrun). destruct r as [u|e]; [|by eexists _, mm1, s1].
  destruct Hpost as (d & Hd & [-> Hdr] & HM1 & Hch1 & Hmt1).
  destruct (IH s1 mm1 _ HM1) as (r & mm2 & s2 & Hrun2 & HI2 & Hch2 & Hmt2); [cbn; lia|]. cbn in *.
  replace (curAddr c + d + (remaining c - d)) with (curAddr c + remaining c) in * by lia.
  pose proof (ch_cspace _ _ _ _ _ _ Hch1) as Hcs. pose proof (mp_cursor _ _ _ _ _ _ HM) as (_ & Ha0 & Ha1 & _).
  eexists _, mm2, s2. split; [exact Hrun2|]. split; [done|]. split; [eapply changed_trans; [done..|lia]|].
  destruct r as [u'|e]; [|done]. destruct Hmt2 as [Hme2 Hmt2]. split; [done|]. intros r Hroot a Ha.
  pose proof (is_root_changed _ _ _ _ _ _ r Hch1 Hroot) as Hroot1. rewrite Hcs in *.
  destruct (Z_lt_dec a (curAddr c + d)) as [Hlt|Hge].
  - rewrite <- Hcs, (ch_walk _ _ _ _ _ _ Hch2 r a Hroot1), Hcs by lia. by apply Hmt1; [|lia].
  - rewrite (Hmt2 r Hroot1 a) by lia. do 3 f_equal. lia.
Qed.

(** The whole call. *)
Lemma mmap_run K s mm vaddr length writable executable frameCap offset info fuel :
  let cs := ca_cspace (caps mm) in let f := cs_get cs frameCap in
  let flags := bset 8 1 (bset 8 0 0 (writable && MemoryRegion.i_writable info)) executable in
  mapper_inv K s mm → frames s f = Some info →
  0 ≤ vaddr → 0 ≤ length ≤ 4096 * Z.of_nat fuel → vaddr + length ≤ 2 ^ 47 →
  0 ≤ offset → offset + length < 2 ^ 64 → regions vaddr (vaddr + length) ⊆ K →
  (∀ a, vaddr ≤ a < vaddr + length → nolarge s mm a) → nosmall mm vaddr (vaddr + length) → enough K s mm →
  ∃ r mm' s', mmap fuel vaddr length writable executable frameCap offset mm s = Done (r, mm') s' ∧
    mapper_inv K s' mm' ∧ changed vaddr (vaddr + length) s mm s' mm' ∧
    match r with
    | OK _ => offset + length ≤ MemoryRegion.i_size info ∧ length mod 4096 = 0 ∧ vaddr mod 4096 = 0 ∧ enough K s' mm' ∧
        ∀ r, is_root mm r → maps_to s' cs r f flags vaddr (vaddr + length) offset
    | THROW _ => True
    end.
Proof.
  intros cs f flags HI Hf Hv Hl Hvl Ho Hol HK Hlg Hsm Hme. unfold mmap, ca_get. fold cs. fold f.
  assert (changed vaddr (vaddr + length) s mm s mm) as Hsame by (apply changed_refl).
  rewrite (kbind_run _ _ _ _ _ (frameInfo_law s f info (mi_good _ _ _ HI) Hf)).
  rewrite (wrap_small 64 (offset + length)) by (unfold fits; lia).
  destruct (Z.ltb_spec (MemoryRegion.i_size info) (offset + length)) as [Hs|Hs]; [by eexists _, mm, s|].
  destruct (is_aligned length align4K) eqn:E1; cbn [negb orb]; [|by eexists _, mm, s].
  destruct (is_aligned vaddr align4K) eqn:E2; cbn [negb orb]; [|by eexists _, mm, s].
  destruct (is_aligned offset align4K) eqn:E3; cbn [negb orb]; [|by eexists _, mm, s].
  apply is_aligned_spec in E1, E2. fold flags.
  destruct (mmap_loop_run K f info flags fuel s mm (mkCursor length vaddr offset))
    as (r & mm' & s' & Hrun & HI' & Hch & Hmt); [|cbn; lia|].
  { split; try done; [unfold cursor_ok; cbn; lia|]. intros a l Ha Hlv. by apply HK, regions_in. }
  exists r, mm', s'. split; [exact Hrun|]. split; [done|]. split; [exact Hch|]. destruct r; [|done]. done.
Qed.


End laws.

(** ** Without memory *)

Section exhausted.
Context {S : Type} `{HasEntries S} `{KernelObjects S} `{HasMemory S} `{!MemoryApart S} `{!MemoryCasts S}.
Context (sizeof : Z) (newPageMap : Z → Z → Z → Z → kernel S unit).

Lemma mem_entries m (s : S) : mem (set_entries m s) = mem s.
Proof. by rewrite <- (set_mem_id s) at 1; rewrite <- set_mem_entries, mem_set. Qed.

Lemma reset_empty m (s : S) e : m !! e = Some (mkEntry asEmpty 0 0) → reset e (set_entries m s) = AssertFail.
Proof. intros He. unfold reset, kbind. erewrite rd_run by done. reflexivity. Qed.

(** [MemMapper::createPageMap] does not return the error when the kernel memory is
    exhausted.  [PageMapFactory::factory] has already made the entry empty, and
    [createPageMap] resets it once more, which runs into the assertion of
    [CapEntry::reset]: the kernel stops. *)
Theorem createPageMap_exhausted m s ca km c l kc o err :
  let dst := cs_get (ca_cspace ca) c in
  typedEntry castAllocator (OK (cs_get (ca_cspace ca) km)) (set_entries m s) = Done (OK (kc, o)) (set_entries m s) →
  m !! dst = Some (mkEntry asEmpty 0 0) → 0 ≤ l ≤ 3 →
  FirstFitHeap.alloc PAGE_MIN_SIZE PAGE_MIN_SIZE (heap (mem s)) = Some (THROW err) →
  createPageMap sizeof newPageMap ca km c l (set_entries m s) = AssertFail.
Proof.
  intros dst Hkm Hd Hl Hheap. unfold createPageMap. unfold ca_get at 1. cbv zeta. rewrite (kbind_run _ _ _ _ _ Hkm).
  unfold ca_get. fold dst. rewrite (kbind_run _ _ _ _ _ (acquire_run m s dst _ Hd eq_refl)). cbn [isOK negb].
  set (m1 := <[dst := _]> m).
  assert (∃ m2, PageMap_factory sizeof newPageMap dst (cs_get (ca_cspace ca) km) kc (l + 1) (set_entries m1 s) =
    Done (THROW err) (set_entries m2 s) ∧ m2 !! dst = Some (mkEntry asEmpty 0 0)) as (m2 & Hfac & Hd2).
  { unfold PageMap_factory. assert ((1 <=? l + 1) && (l + 1 <=? 4) = true) as -> by lia. cbn [negb].
    assert (km_alloc PAGE_MIN_SIZE PAGE_MIN_SIZE (set_entries m1 s) = Done (THROW err) (set_entries m1 s)) as Hal.
    { unfold km_alloc, kbind, heap_alloc. by rewrite mem_entries, Hheap. }
    rewrite (kbind_run _ _ _ _ _ Hal). eexists.
    rewrite (kbind_run _ _ _ _ _ (reset_run m1 s dst (with_cap asAllocated (mkEntry asEmpty 0 0))
      ltac:(by apply lookup_insert_eq) eq_refl)). split; [reflexivity|by apply lookup_insert_eq]. }
  rewrite (kbind_run _ _ _ _ _ Hfac). unfold kbind. by rewrite reset_empty.
Qed.

End exhausted.

(** ** Page maps as finite maps

    The simplest page maps that keep the laws, beside a memory of bytes and the next
    free address for frames; the examples use them. *)

Module Plain.

Record plain := mkPlain {
  p_tables : gmap (Z * Z) tentry; p_maps : gmap Z (Z * Z); p_frames : gmap Z MemoryRegion.Info;
  p_next : Z; p_memory : nat; p_bytes : Z → Z; p_free : Z }.

Definition with_tables (t : gmap (Z * Z) tentry) (s : plain) : plain :=
  mkPlain t (p_maps s) (p_frames s) (p_next s) (p_memory s) (p_bytes s) (p_free s).

#[export] Instance plain_ops : MapOps plain := {|
  op_typedMap e s := Done (match p_maps s !! e with Some (p, _) => OK p | None => THROW TYPE_MISMATCH end) s;
  op_frameInfo e s := Done (match p_frames s !! e with Some i => OK i | None => THROW TYPE_MISMATCH end) s;
  op_createMap ca km c l s :=
    let e := cs_get (ca_cspace ca) c in
    match p_memory s with
    | O => AssertFail
    | Datatypes.S n =>
      Done (OK e) (mkPlain (p_tables s) (<[e := (p_next s, l + 1)]> (p_maps s)) (p_frames s) (p_next s + 1) n
        (p_bytes s) (p_free s))
    end;
  op_mapTable p e fl i s :=
    match p_maps s !! e with
    | Some (c, _) => Done (OK tt) (with_tables (<[(p, i) := Table c]> (p_tables s)) s)
    | None => Done (THROW TYPE_MISMATCH) s
    end;
  op_mapFrame p i f fl o s := Done (OK tt) (with_tables (<[(p, i) := Page f o fl]> (p_tables s)) s) |}.

Definition plain_good (s : plain) : Prop :=
  (∀ e p l, p_maps s !! e = Some (p, l) → p < p_next s) ∧
  (∀ p i, p_next s ≤ p → p_tables s !! (p, i) = None).

Lemma plain_insert s e p l i x :
  plain_good s → p_maps s !! e = Some (p, l) → plain_good (with_tables (<[(p, i) := x]> (p_tables s)) s).
Proof.
  intros [Hm Ht] He. split; [done|]. intros p' i' Hp; cbn in *. apply Hm in He.
  rewrite lookup_insert_ne by (intros [= -> _]; lia). by apply Ht.
Qed.

#[export] Program Instance plain_laws : MapLaws plain := {|
  good := plain_good;
  tables := p_tables;
  maps s e := p_maps s !! e;
  frames s e := p_frames s !! e;
  fresh s e := p_maps s !! e = None;
  memory s n := (n ≤ p_memory s)%nat |}.
Next Obligation. done. Qed.
Next Obligation. intros s e p l _ E. cbn. by rewrite E. Qed.
Next Obligation. intros s e i _ E. cbn. by rewrite E. Qed.
Next Obligation.
  intros s ca km c l n e Hg He Hl Hn. cbn in *. destruct (p_memory s) as [|k]; [lia|].
  destruct Hg as [Hm Ht]. eexists _, _. split; [done|]. cbn. split_and!; try done; [|lia|..].
  - split; cbn.
    + intros x p l'. destruct (decide (x = e)) as [->|]; [rewrite lookup_insert_eq; intros [= <- _]; lia|].
      rewrite lookup_insert_ne by done. intros Hx. apply Hm in Hx. lia.
    + intros p i Hp. apply Ht. lia.
  - intros x Hx. rewrite lookup_insert_ne by done. done.
  - exists (p_next s). rewrite lookup_insert_eq. split_and!; [done|..].
    + intros y l' Hy. apply Hm in Hy. lia.
    + intros i. by apply Ht.
Qed.
Next Obligation.
  intros s u p e c l fl i Hg Hu He _ _. cbn in *. rewrite He. eexists _, _. split; [done|].
  split; [by eapply plain_insert|]. by split_and!.
Qed.
Next Obligation.
  intros s u p l f info fl i o Hg Hu _ _. cbn in *. eexists _, _. split; [done|].
  split; [by eapply plain_insert|]. by split_and!.
Qed.

(** A root map and a frame of which the second page is aligned to 2 MiB. *)
Definition ex_cspace : Z := 0x10000.
Definition ex_mapper : MemMapper := mkMapper (mkCapAlloc 20 100 ex_cspace) 1 [mkMap 0 3 3].
Definition ex_info : MemoryRegion.Info := MemoryRegion.mkInfo 0x5ff000 0x400000 false true.
Definition ex_state : plain :=
  mkPlain ∅ {[cs_get ex_cspace 3 := (7, 4)]} {[cs_get ex_cspace 15 := ex_info]} 8 6 (λ _, 0) 0x1000000.
Definition ex_regions : gset (Z * Z) := {[(3, 0)]} ∪ regions 0x1ff000 0x401000.

Lemma ex_inv : mapper_inv ex_regions ex_state ex_mapper.
Proof.
  split.
  - split; [|done]. intros e p l E. cbn [p_maps ex_state] in E. apply lookup_singleton_Some in E as [_ [= <- _]]. done.
  - split; cbn.
    + exists (mkMap 0 3 3). split; [set_solver|done].
    + intros m ->%list_elem_of_singleton. done.
    + intros m m' ->%list_elem_of_singleton ->%list_elem_of_singleton. done.
    + intros m m' ->%list_elem_of_singleton ->%list_elem_of_singleton. done.
    + intros m ->%list_elem_of_singleton. done.
    + done.
    + done.
  - intros m ->%list_elem_of_singleton. done.
  - intros c Hc. cbn in *. apply lookup_singleton_ne. unfold cs_get, ex_cspace. lia.
  - done.
  - apply NoDup_singleton.
  - split; [unfold ex_regions, keys; cbn; set_solver|]. vm_compute. lia.
Qed.

(** Two frames, the second with large pages. *)
Definition ex_two : plain :=
  mkPlain ∅ {[cs_get ex_cspace 3 := (7, 4)]}
    (<[cs_get ex_cspace 16 := MemoryRegion.mkInfo 0x800000 0x400000 false true]>
      {[cs_get ex_cspace 15 := ex_info]}) 8 6 (λ _, 0) 0x1000000.

(** A sequence of calls of [mmap] that all succeed: the address, the length and the frame. *)
Fixpoint mmaps (l : list (Z * Z * Z)) (mm : MemMapper) (s : plain) : option (MemMapper * plain) :=
  match l with
  | [] => Some (mm, s)
  | (v, n, f) :: l =>
    match mmap 600 v n true false f 0 mm s with
    | Done (OK _, mm) s => mmaps l mm s
    | _ => None
    end
  end.

(** Large pages replace a page table that lies in the range, but the table stays
    registered: a later page in its range is mapped without an error into the table
    that is no longer used, and the address still leads to the large page. *)
Lemma mmap_orphans_table :
  ∃ mm s, mmaps [(0x401000, 0x1000, 15); (0x200000, 0x400000, 16); (0x402000, 0x1000, 15)] ex_mapper ex_two =
      Some (mm, s) ∧
    translation s ex_cspace (mkMap 0 3 3) 0x402000 = Some (cs_get ex_cspace 16, 0x202000, 1).
Proof. eexists _, _. split; vm_compute; reflexivity. Qed.


End Plain.

(** A memory of half a page, a capability to it and an empty entry behind it. *)
#[local] Existing Instances memory_entries memory_mem memory_apart memory_objects.
#[local] Instance memory_casts : MemoryCasts Creation.memory := {|
  castAllocator o := kret (OK o); castDeviceMemory _ := kret (THROW TYPE_MISMATCH) |}.

Definition tight_mem : KernelMemory := mkKM [FirstFitHeap.mkFree (PhysPtr.KERNELMEM_ADDR + 0x10000) 0x800] w_pages 0.
Definition tight_entries : gmap Z CapEntry :=
  <[wa 1 := mkEntry asEmpty 0 0]> (store_of [CapRing.fresh (wa 0) wcap]).

Lemma createPageMap_exhausted_witness :
  createPageMap 128 (λ _ _ _ _, kret tt) (mkCapAlloc 1 10 (wa 0)) 0 1 2
    (set_entries tight_entries (mkMemory ∅ tight_mem)) = AssertFail.
Proof.
  apply (createPageMap_exhausted 128 (λ _ _ _ _, kret tt) tight_entries (mkMemory ∅ tight_mem) _ 0 1 2
    wcap (getPtr wcap) UNSET); [reflexivity|reflexivity|lia|reflexivity].
Defined.
