(* ===== verification/Elf.v ===== *)
(** * Memory as bytes and ELF images

    Models util/string/util/mstring.hh, the loops over bytes, and
    util/sys-structures/util/elf64.hh: the headers of an ELF image are read in place from
    the memory, in little-endian order.  Memory is a function from addresses to bytes;
    [HasBytes] is the memory of a state. *)

From stdpp Require Import base tactics numbers list.
From Stdlib Require Import ZArith Lia ZifyBool.
From S2P Require Import Prelude.

Local Open Scope Z_scope.

Class HasBytes (S : Type) := {
  bytes : S → Z → Z;
  set_bytes : (Z → Z) → S → S;
  bytes_set b s : bytes (set_bytes b s) = b
}.

Definition upd_byte (a v : Z) (b : Z → Z) : Z → Z := λ x, if x =? a then v else b x.

(** ** Loops over bytes *)

(** [memcpy] from index [index] on, util/string/util/mstring.hh:32-39 *)
Fixpoint memcpy_from (n : nat) (index dst src : Z) (b : Z → Z) : Z → Z :=
  match n with
  | O => b
  | Datatypes.S n => memcpy_from n (index + 1) dst src (upd_byte (dst + index) (b (src + index)) b)
  end.

Definition memcpy (dst src count : Z) (b : Z → Z) : Z → Z := memcpy_from (Z.to_nat count) 0 dst src b.

(** [memset] from index [index] on, util/string/util/mstring.hh:41-45 *)
Fixpoint memset_from (n : nat) (index dst value : Z) (b : Z → Z) : Z → Z :=
  match n with
  | O => b
  | Datatypes.S n => memset_from n (index + 1) dst value (upd_byte (dst + index) value b)
  end.

Definition memset (dst value count : Z) (b : Z → Z) : Z → Z := memset_from (Z.to_nat count) 0 dst value b.

(** A [char] is signed. *)
Definition char (v : Z) : Z := if v <? 128 then v else v - 256.

(** [strcmp]; [None] when there is no end within the fuel, util/string/util/mstring.hh:47-54 *)
Fixpoint strcmp (fuel : nat) (s1 s2 : Z) (b : Z → Z) : option Z :=
  match fuel with
  | O => None
  | Datatypes.S fuel =>
    if negb (b s1 =? 0) && negb (b s2 =? 0) && (b s1 =? b s2) then strcmp fuel (s1 + 1) (s2 + 1) b
    else Some (char (b s1) - char (b s2))
  end.

(** [strlen] from length [len] on, util/string/util/mstring.hh:56-61 *)
Fixpoint strlen_from (fuel : nat) (len s : Z) (b : Z → Z) : option Z :=
  match fuel with
  | O => None
  | Datatypes.S fuel => if negb (b (s + len) =? 0) then strlen_from fuel (len + 1) s b else Some len
  end.

Definition strlen (fuel : nat) (s : Z) (b : Z → Z) : option Z := if s =? 0 then Some 0 else strlen_from fuel 0 s b.

(** [memcmp] from index [i] on, util/string/util/mstring.hh:66-75 *)
Fixpoint memcmp_from (n : nat) (i p1 p2 : Z) (b : Z → Z) : Z :=
  match n with
  | O => 0
  | Datatypes.S n =>
    if negb (b (p1 + i) =? b (p2 + i)) then (if b (p1 + i) <? b (p2 + i) then -1 else 1)
    else memcmp_from n (i + 1) p1 p2 b
  end.

Definition memcmp (p1 p2 num : Z) (b : Z → Z) : Z := memcmp_from (Z.to_nat num) 0 p1 p2 b.

(** ** Headers *)

(** The little-endian word of [n] bytes at an address. *)
Fixpoint le (n : nat) (a : Z) (b : Z → Z) : Z :=
  match n with
  | O => 0
  | Datatypes.S n => b a + 256 * le n (a + 1) b
  end.

(** [elf64::Header], util/sys-structures/util/elf64.hh:39-60 *)
Record Header := mkHeader {
  magic : Z; sizeclass : Z; endianness : Z; elfversion : Z; osabi : Z; abiversion : Z;
  elftype : Z; machine : Z; version : Z; entry : Z; phoffset : Z; shoffset : Z; e_flags : Z;
  ehsize : Z; phentsize : Z; e_phnum : Z; shentsize : Z; e_shnum : Z; shstrndx : Z }.

(** [Header::isElf64Header], util/sys-structures/util/elf64.hh:62-64 *)
Definition isElf64Header (h : Header) : bool :=
  (magic h =? 0x464c457F) && (sizeclass h =? 2) && (endianness h =? 1).

(** [PT_LOAD] and the flags, util/sys-structures/util/elf64.hh:67-68 *)
Definition PT_LOAD : Z := 1.
Definition PF_X : Z := 1.
Definition PF_W : Z := 2.

(** [PHeader], util/sys-structures/util/elf64.hh:70-80 *)
Record PHeader := mkPH {
  p_type : Z; p_flags : Z; p_offset : Z; p_vaddr : Z; p_paddr : Z; p_filesize : Z; p_memsize : Z;
  p_alignment : Z }.
Definition sizeof_PHeader : Z := 56.

(** [SHeader], util/sys-structures/util/elf64.hh:82-94 *)
Record SHeader := mkSH {
  sh_name : Z; sh_type : Z; sh_flags : Z; sh_addr : Z; sh_offset : Z; sh_size : Z; sh_link : Z;
  sh_info : Z; sh_addralign : Z; sh_entsize : Z }.

(** The packed structures at an address. *)
Definition read_Header (a : Z) (b : Z → Z) : Header :=
  mkHeader (le 4 a b) (b (a + 4)) (b (a + 5)) (b (a + 6)) (b (a + 7)) (b (a + 8))
    (le 2 (a + 16) b) (le 2 (a + 18) b) (le 4 (a + 20) b) (le 8 (a + 24) b) (le 8 (a + 32) b)
    (le 8 (a + 40) b) (le 4 (a + 48) b) (le 2 (a + 52) b) (le 2 (a + 54) b) (le 2 (a + 56) b)
    (le 2 (a + 58) b) (le 2 (a + 60) b) (le 2 (a + 62) b).

Definition read_PHeader (a : Z) (b : Z → Z) : PHeader :=
  mkPH (le 4 a b) (le 4 (a + 4) b) (le 8 (a + 8) b) (le 8 (a + 16) b) (le 8 (a + 24) b)
    (le 8 (a + 32) b) (le 8 (a + 40) b) (le 8 (a + 48) b).

Definition read_SHeader (a : Z) (b : Z → Z) : SHeader :=
  mkSH (le 4 a b) (le 4 (a + 4) b) (le 8 (a + 8) b) (le 8 (a + 16) b) (le 8 (a + 24) b)
    (le 8 (a + 32) b) (le 4 (a + 40) b) (le 4 (a + 44) b) (le 8 (a + 48) b) (le 8 (a + 56) b).

(** ** [Elf64Image] at the address [start] *)

(** [Elf64Image::header], util/sys-structures/util/elf64.hh:105 *)
Definition header (start : Z) (b : Z → Z) : Header := read_Header start b.

(** [Elf64Image::isValid]; [None] is the failed assertion,
    util/sys-structures/util/elf64.hh:100-103 *)
Definition isValid (start : Z) (b : Z → Z) : option bool :=
  if sizeof_PHeader <=? phentsize (header start b) then Some (isElf64Header (header start b)) else None.

(** [Elf64Image::phnum], util/sys-structures/util/elf64.hh:106 *)
Definition phnum (start : Z) (b : Z → Z) : Z := e_phnum (header start b).

(** [Elf64Image::phdr], util/sys-structures/util/elf64.hh:108-110 *)
Definition phdr (start idx : Z) (b : Z → Z) : PHeader :=
  read_PHeader (u64 (start + phoffset (header start b) + idx * phentsize (header start b))) b.

(** [Elf64Image::shnum], util/sys-structures/util/elf64.hh:112 *)
Definition shnum (start : Z) (b : Z → Z) : Z := e_shnum (header start b).

(** [Elf64Image::shdr], util/sys-structures/util/elf64.hh:113-115 *)
Definition shdr (start idx : Z) (b : Z → Z) : SHeader :=
  read_SHeader (u64 (start + shoffset (header start b) + idx * shentsize (header start b))) b.

(** [Elf64Image::getData], util/sys-structures/util/elf64.hh:117 *)
Definition getData (start : Z) (ph : PHeader) : Z := u64 (start + p_offset ph).

(** [Elf64Image::sectionName]; 0 is the null pointer,
    util/sys-structures/util/elf64.hh:119-124 *)
Definition sectionName (start idx : Z) (b : Z → Z) : Z :=
  if shnum start b <? shstrndx (header start b) then 0
  else
    let names := shdr start (shstrndx (header start b)) b in
    if u64 (sh_size names - sh_name (shdr start idx b)) <? 1 then 0
    else u64 (start + sh_offset names + sh_name (shdr start idx b)).

(** ** What the loops do *)

Lemma memset_from_spec n : ∀ i dst v b a,
  memset_from n i dst v b a = if (dst + i <=? a) && (a <? dst + i + Z.of_nat n) then v else b a.
Proof.
  induction n as [|n IH]; intros i dst v b a; cbn [memset_from].
  - by replace ((dst + i <=? a) && (a <? dst + i + Z.of_nat 0)) with false by lia.
  - rewrite IH. unfold upd_byte. destruct (Z.eqb_spec a (dst + i)) as [->|Hne].
    + replace ((dst + (i + 1) <=? dst + i) && _) with false by lia.
      by replace ((dst + i <=? dst + i) && (dst + i <? dst + i + Z.of_nat (Datatypes.S n))) with true by lia.
    + by replace ((dst + (i + 1) <=? a) && (a <? dst + (i + 1) + Z.of_nat n))
        with ((dst + i <=? a) && (a <? dst + i + Z.of_nat (Datatypes.S n))) by lia.
Qed.

Lemma memset_spec dst v n b a :
  0 ≤ n → memset dst v n b a = if (dst <=? a) && (a <? dst + n) then v else b a.
Proof. intros Hn. unfold memset. by rewrite memset_from_spec, Z.add_0_r, Z2Nat.id. Qed.

(** A copy to lower addresses or to a place apart copies the old bytes. *)
Lemma memcpy_from_spec n : ∀ i dst src b a,
  dst ≤ src ∨ src + i + Z.of_nat n ≤ dst + i →
  memcpy_from n i dst src b a =
    if (dst + i <=? a) && (a <? dst + i + Z.of_nat n) then b (a - dst + src) else b a.
Proof.
  induction n as [|n IH]; intros i dst src b a Hd; cbn [memcpy_from].
  - by replace ((dst + i <=? a) && (a <? dst + i + Z.of_nat 0)) with false by lia.
  - rewrite IH by lia. unfold upd_byte.
    destruct ((dst + (i + 1) <=? a) && (a <? dst + (i + 1) + Z.of_nat n)) eqn:E.
    + replace ((dst + i <=? a) && (a <? dst + i + Z.of_nat (Datatypes.S n))) with true by lia.
      by replace (a - dst + src =? dst + i) with false by lia.
    + destruct (Z.eqb_spec a (dst + i)) as [->|Hne].
      * replace ((dst + i <=? dst + i) && (dst + i <? dst + i + Z.of_nat (Datatypes.S n))) with true by lia.
        f_equal. lia.
      * by replace ((dst + i <=? a) && (a <? dst + i + Z.of_nat (Datatypes.S n))) with false by lia.
Qed.

Lemma memcpy_spec dst src n b a :
  0 ≤ n → dst ≤ src ∨ src + n ≤ dst →
  memcpy dst src n b a = if (dst <=? a) && (a <? dst + n) then b (a - dst + src) else b a.
Proof. intros Hn Hd. unfold memcpy. rewrite memcpy_from_spec, Z.add_0_r, Z2Nat.id by lia. done. Qed.

Lemma memcmp_from_zero n : ∀ i p1 p2 b,
  memcmp_from n i p1 p2 b = 0 ↔ ∀ j, i ≤ j < i + Z.of_nat n → b (p1 + j) = b (p2 + j).
Proof.
  induction n as [|n IH]; intros i p1 p2 b; cbn [memcmp_from]; [split; [lia|done]|].
  destruct (Z.eqb_spec (b (p1 + i)) (b (p2 + i))) as [E|E]; cbn [negb].
  - rewrite IH. split; intros Hj j Hr; [|apply Hj; lia].
    destruct (Z.eq_dec j i) as [->|]; [done|apply Hj; lia].
  - split; [destruct (_ <? _); lia|]. intros Hj. exfalso. apply E, Hj. lia.
Qed.

Lemma memcmp_spec p1 p2 n b :
  0 ≤ n → memcmp p1 p2 n b = 0 ↔ ∀ j, 0 ≤ j < n → b (p1 + j) = b (p2 + j).
Proof. intros Hn. unfold memcmp. rewrite memcmp_from_zero, Z2Nat.id by done. done. Qed.

(** A string of [n] bytes that are not zero, and a zero. *)
Definition cstring (s n : Z) (b : Z → Z) : Prop :=
  0 ≤ n ∧ (∀ i, 0 ≤ i < n → b (s + i) ≠ 0) ∧ b (s + n) = 0.

Lemma strlen_from_spec fuel : ∀ len s n b,
  cstring s n b → 0 ≤ len ≤ n → n - len < Z.of_nat fuel → strlen_from fuel len s b = Some n.
Proof.
  induction fuel as [|fuel IH]; intros len s n b Hs Hl Hf; [lia|]. cbn [strlen_from].
  destruct (Z.eq_dec len n) as [->|Hne].
  - destruct Hs as (_ & _ & ->). done.
  - destruct (Z.eqb_spec (b (s + len)) 0) as [E|_]; [|apply IH; done || lia].
    exfalso. destruct Hs as (_ & Hs & _). apply (Hs len); [lia|done].
Qed.

Lemma strlen_spec fuel s n b :
  s ≠ 0 → cstring s n b → n < Z.of_nat fuel → strlen fuel s b = Some n.
Proof.
  intros Hs0 Hs Hf. unfold strlen. rewrite (proj2 (Z.eqb_neq s 0) Hs0).
  apply strlen_from_spec; [done|destruct Hs; lia|lia].
Qed.

Lemma char_inj x y : 0 ≤ x < 256 → 0 ≤ y < 256 → char x - char y = 0 ↔ x = y.
Proof. intros Hx Hy. unfold char. destruct (Z.ltb_spec x 128), (Z.ltb_spec y 128); lia. Qed.

(** [strcmp] ends and is 0 exactly for equal strings. *)
Lemma strcmp_spec fuel : ∀ s1 s2 n1 n2 b,
  (∀ a, 0 ≤ b a < 256) → cstring s1 n1 b → cstring s2 n2 b → Z.min n1 n2 < Z.of_nat fuel →
  ∃ r, strcmp fuel s1 s2 b = Some r ∧
    (r = 0 ↔ n1 = n2 ∧ ∀ i, 0 ≤ i < n1 → b (s1 + i) = b (s2 + i)).
Proof.
  induction fuel as [|fuel IH]; intros s1 s2 n1 n2 b Hb H1 H2 Hf; [destruct H1, H2; lia|].
  pose proof H1 as (H10 & H1n & H1z). pose proof H2 as (H20 & H2n & H2z). cbn [strcmp].
  destruct (negb (b s1 =? 0) && negb (b s2 =? 0) && (b s1 =? b s2)) eqn:E.
  - assert (b s1 ≠ 0 ∧ b s2 ≠ 0 ∧ b s1 = b s2) as (E1 & E2 & E3) by lia.
    assert (0 < n1). { destruct (Z.eq_dec n1 0) as [->|]; [rewrite Z.add_0_r in H1z|]; lia. }
    assert (0 < n2). { destruct (Z.eq_dec n2 0) as [->|]; [rewrite Z.add_0_r in H2z|]; lia. }
    assert (∀ s n, cstring s n b → 0 < n → cstring (s + 1) (n - 1) b) as Hnext.
    { intros s n (Hn & Hi & Hz) Hn0. split_and!; [lia| |].
      - intros i Hi'. replace (s + 1 + i) with (s + (i + 1)) by lia. apply Hi. lia.
      - by replace (s + 1 + (n - 1)) with (s + n) by lia. }
    destruct (IH (s1 + 1) (s2 + 1) (n1 - 1) (n2 - 1) b Hb) as (r & Hr & Hz); [by apply Hnext..|lia|].
    exists r. split; [done|]. rewrite Hz. split; intros [Hn Hi]; (split; [lia|]); intros i Hr'.
    + destruct (Z.eq_dec i 0) as [->|]; [by rewrite !Z.add_0_r|].
      specialize (Hi (i - 1) ltac:(lia)).
      by replace (s1 + 1 + (i - 1)) with (s1 + i) in Hi by lia; replace (s2 + 1 + (i - 1)) with (s2 + i) in Hi by lia.
    + replace (s1 + 1 + i) with (s1 + (i + 1)) by lia. replace (s2 + 1 + i) with (s2 + (i + 1)) by lia. apply Hi. lia.
  - eexists. split; [done|]. assert (char (b s1) - char (b s2) = 0 ↔ b s1 = b s2) as ->.
    { by apply char_inj. }
    assert (b s1 = 0 ↔ n1 = 0) as Hz1.
    { split; intros Hz; [|subst n1; by rewrite Z.add_0_r in H1z]. destruct (Z.eq_dec n1 0); [done|].
      exfalso. apply (H1n 0); [lia|by rewrite Z.add_0_r]. }
    assert (b s2 = 0 ↔ n2 = 0) as Hz2.
    { split; intros Hz; [|subst n2; by rewrite Z.add_0_r in H2z]. destruct (Z.eq_dec n2 0); [done|].
      exfalso. apply (H2n 0); [lia|by rewrite Z.add_0_r]. }
    split.
    + intros Hs. assert (b s1 = 0 ∧ b s2 = 0) by lia. split; [lia|]. intros i Hi. lia.
    + intros [-> Hi]. destruct (Z.eq_dec n2 0) as [Hn|Hn]; [lia|].
      specialize (Hi 0 ltac:(lia)). by rewrite !Z.add_0_r in Hi.
Qed.

(** ** Words *)

Lemma le_fits n : ∀ a b, (∀ i, 0 ≤ i < Z.of_nat n → 0 ≤ b (a + i) < 256) → 0 ≤ le n a b < 256 ^ Z.of_nat n.
Proof.
  induction n as [|n IH]; intros a b Hb; [cbn; lia|]. cbn [le]. rewrite Nat2Z.inj_succ, Z.pow_succ_r by lia.
  pose proof (Hb 0 ltac:(lia)) as H0. rewrite Z.add_0_r in H0.
  destruct (IH (a + 1) b) as [H1 H2]; [|lia]. intros i Hi. replace (a + 1 + i) with (a + (i + 1)) by lia. apply Hb. lia.
Qed.

Lemma le_same n : ∀ a b b', (∀ i, 0 ≤ i < Z.of_nat n → b (a + i) = b' (a + i)) → le n a b = le n a b'.
Proof.
  induction n as [|n IH]; intros a b b' Hb; [done|]. cbn [le]. f_equal.
  - specialize (Hb 0 ltac:(lia)). by rewrite Z.add_0_r in Hb.
  - f_equal. apply IH. intros i Hi. replace (a + 1 + i) with (a + (i + 1)) by lia. apply Hb. lia.
Qed.

(** Two memories with the same bytes between two addresses. *)
Definition same_bytes (lo hi : Z) (b b' : Z → Z) : Prop := ∀ a, lo ≤ a < hi → b a = b' a.

Lemma le_same_in lo hi n a b b' :
  same_bytes lo hi b b' → lo ≤ a → a + Z.of_nat n ≤ hi → le n a b = le n a b'.
Proof. intros Hs Hlo Hhi. apply le_same. intros i Hi. apply Hs. lia. Qed.

Lemma read_Header_same lo hi a b b' :
  same_bytes lo hi b b' → lo ≤ a → a + 64 ≤ hi → read_Header a b = read_Header a b'.
Proof.
  intros Hs Hlo Hhi. unfold read_Header. rewrite !(Hs (a + _)) by lia.
  rewrite !(le_same_in lo hi _ _ b b') by (done || lia). done.
Qed.

Lemma read_PHeader_same lo hi a b b' :
  same_bytes lo hi b b' → lo ≤ a → a + 56 ≤ hi → read_PHeader a b = read_PHeader a b'.
Proof.
  intros Hs Hlo Hhi. unfold read_PHeader. rewrite !(le_same_in lo hi _ _ b b') by (done || lia). done.
Qed.
