(* ===== verification/BootMemory.v ===== *)
(** * The memory of the kernel at the start

    Models boot/kmem-common, boot/kmem-e820, boot/kmem-multiboot and boot/kmem-sfi:
    [initKernelMemory] reads the memory map of the firmware or of the boot loader,
    collects the usable ranges in a [RangeSet], removes what the kernel itself
    occupies and gives the rest to the kernel memory object.  The tables are read
    in place from the physical memory, a function from addresses to bytes
    (util/sys-structures: E820.hh, MultiBoot.hh, SFI.hh).

    In an optional result [None] is a failed assertion or a write behind the
    vector of ranges. *)

From stdpp Require Import base tactics numbers list.
From Stdlib Require Import ZArith Lia.
From S2P Require Import Prelude Ranges Cap Heap KernelMemory Elf.

Local Open Scope Z_scope.
Import Align Intervals RangeSet PhysPtr.

(** ** Ranges of memory *)

Section kernel_memory_range.
Context (SIZE : nat).

(** [KernelMemoryRange::addStartLength], boot/kmem-common/boot/kmem-common.hh:45-47 *)
Definition addStartLength (begin length : Z) (v : list Range) : option (list Range) :=
  add SIZE (mkRange begin (u64 (begin + length))) v.

(** [KernelMemoryRange::reserve], boot/kmem-common/boot/kmem-common.hh:55-58 *)
Definition reserve (begin end_ : Z) (v : list Range) : option (list Range) :=
  substract SIZE (mkRange begin end_) v.

(** [KernelMemoryRange::removeKernelReserved]; the image of the kernel is at
    [LOAD_ADDR] up to [KERN_END], boot/kmem-common/boot/kmem-common.hh:49-53 *)
Definition removeKernelReserved (LOAD_ADDR KERN_END : Z) (v : list Range) : option (list Range) :=
  v ← reserve 0 (1024 * 1024) v;
  reserve (round_down LOAD_ADDR align2M) (round_up KERN_END align2M) v.
End kernel_memory_range.

(** [KernelMemoryRange::addToKM], boot/kmem-common/boot/kmem-common.hh:60-65 *)
Fixpoint addToKM {S : Type} `{HasMemory S} (v : list Range) : kernel S unit :=
  match v with
  | [] => kret tt
  | r :: v => km_addRange (getStart r) (getSize r);;; addToKM v
  end.

(** ** The memory map of Linux' zero page *)

Module E820.

(** [E820Info::elemCountAddr] and [E820Info::memoryMap],
    util/sys-structures/util/E820.hh:37-40 *)
Definition baseAddr : Z := 0x90200.
Definition elemCountAddr : Z := baseAddr + 0x1E8.
Definition memoryMap : Z := baseAddr + 0x2d0.

(** [E820Info::Type], util/sys-structures/util/E820.hh:42-48 *)
Definition E_USABLE : Z := 1.

(** [E820Info::Entry], util/sys-structures/util/E820.hh:50-55 *)
Record Entry := mkEntry { addr : Z; e_size : Z; type : Z }.
Definition isUsable (e : Entry) : bool := type e =? E_USABLE.

(** [E820Info::operator[]]: packed entries of 20 bytes, util/sys-structures/util/E820.hh:57 *)
Definition e820_entry (i : Z) (b : Z → Z) : Entry :=
  let a := memoryMap + 20 * i in mkEntry (le 8 a b) (le 8 (a + 8) b) (le 4 (a + 16) b).

(** [E820Info::size], util/sys-structures/util/E820.hh:58 *)
Definition size (b : Z → Z) : Z := b elemCountAddr.

(** The loop of [initKernelMemory] for [n] entries from [i] on,
    boot/kmem-e820/boot/kmem.cc:43-48 *)
Fixpoint e820_collect (n : nat) (i : Z) (b : Z → Z) (v : list Range) : option (list Range) :=
  match n with
  | O => Some v
  | S n =>
    let me := e820_entry i b in
    v ← (if isUsable me then addStartLength 30 (addr me) (e_size me) v else Some v);
    e820_collect n (i + 1) b v
  end.

(** The usable ranges of the map. *)
Fixpoint usable (n : nat) (i : Z) (b : Z → Z) : list Range :=
  match n with
  | O => []
  | S n =>
    let me := e820_entry i b in
    (if isUsable me then [mkRange (addr me) (u64 (addr me + e_size me))] else []) ++ usable n (i + 1) b
  end.
End E820.

(** ** The memory map of the multiboot protocol *)

Module MultiBoot.

(** [MultiBoot::MAGIC], util/sys-structures/util/MultiBoot.hh:34-36 *)
Definition MAGIC : Z := 0x2BADB002.

(** [MultiBoot::MMapEntry], util/sys-structures/util/MultiBoot.hh:52-62 *)
Record MMapEntry := mkMMap { m_size : Z; m_addr : Z; m_len : Z; m_type : Z }.
Definition isAvailable (e : MMapEntry) : bool := negb (Z.land (m_type e) 1 =? 0).

Definition read_MMapEntry (a : Z) (b : Z → Z) : MMapEntry :=
  mkMMap (le 4 a b) (le 8 (a + 4) b) (le 8 (a + 12) b) (le 4 (a + 20) b).

(** [MultiBoot::Info]: the offsets of the memory map's length and address,
    util/sys-structures/util/MultiBoot.hh:64-100 *)
Definition mmap_length (mbi : Z) (b : Z → Z) : Z := le 4 (mbi + 44) b.
Definition mmap_addr (mbi : Z) (b : Z → Z) : Z := le 4 (mbi + 48) b.

(** [MultiBootInfo::foreach] with the function of [initKernelMemory],
    boot/kmem-multiboot/boot/kmem.cc:51-56; the loop is in
    util/sys-structures/util/MultiBoot.hh:122-128 *)
Fixpoint mboot_collect (fuel : nat) (m end_ : Z) (b : Z → Z) (v : list Range) : option (list Range) :=
  if m <? end_ then
    match fuel with
    | O => None
    | S fuel =>
      let me := read_MMapEntry m b in
      v ← (if isAvailable me then addStartLength 30 (m_addr me) (m_len me) v else Some v);
      mboot_collect fuel (m + m_size me + 4) end_ b v
    end
  else Some v.

(** The available ranges of the map. *)
Fixpoint usable (fuel : nat) (m end_ : Z) (b : Z → Z) : list Range :=
  if m <? end_ then
    match fuel with
    | O => []
    | S fuel =>
      let me := read_MMapEntry m b in
      (if isAvailable me then [mkRange (m_addr me) (u64 (m_addr me + m_len me))] else []) ++
        usable fuel (m + m_size me + 4) end_ b
    end
  else [].

(** An entry takes at least four bytes. *)
Definition steps (n : Z) : nat := S (Z.to_nat n).
End MultiBoot.

(** ** The tables of the simple firmware interface *)

Module SFI.

(** [SFI::Constants], util/sys-structures/util/SFI.hh:36-40 *)
Definition SFI_PHYS : Z := 0xE0000.
Definition SFI_SIZE : Z := 0x100000 - SFI_PHYS.

(** [SFI::Base]: 24 bytes with the length at offset 4, util/sys-structures/util/SFI.hh:42-48 *)
Definition sizeof_Base : Z := 24.
Definition table_length (a : Z) (b : Z → Z) : Z := le 4 (a + 4) b.

(** [SFI::Base::isCorrectChecksum]: the sum of [n] bytes from [a] on,
    util/sys-structures/util/SFI.hh:50-55 *)
Fixpoint sfi_sum (n : nat) (a sum : Z) (b : Z → Z) : Z :=
  match n with
  | O => sum
  | S n => sfi_sum n (a + 1) (u8 (sum + b a)) b
  end.
Definition isCorrectChecksum (a : Z) (b : Z → Z) : bool :=
  sfi_sum (Z.to_nat (table_length a b)) a 0 b =? 0.

(** [isCorrectType] of the tables: the four characters of the signature,
    util/sys-structures/util/SFI.hh:63-69 *)
Definition isCorrectType (signature : list Z) (a : Z) (b : Z → Z) : bool :=
  bool_decide ([b a; b (a + 1); b (a + 2); b (a + 3)] = signature).
Definition CPUS : list Z := [67; 80; 85; 83].
Definition APIC : list Z := [65; 80; 73; 67].
Definition MMAP : list Z := [77; 77; 65; 80].
Definition SYST : list Z := [83; 89; 83; 84].

(** [size] of a table with entries of [width] bytes,
    util/sys-structures/util/SFI.hh:71-73 *)
Definition entries_of (width a : Z) (b : Z → Z) : Z := u32 (u64 (table_length a b - sizeof_Base) / width).

(** [SFI::Mmap::Descriptor]: 36 bytes, util/sys-structures/util/SFI.hh:122-131 *)
Record Descriptor := mkDescriptor { d_type : Z; phys_addr : Z; num_pages : Z }.
Definition getAddress (d : Descriptor) : Z := phys_addr d.
Definition getSize (d : Descriptor) : Z := u64 (num_pages d * 4096).
Definition ConventionalMemory : Z := 7.

(** [SFI::Mmap::operator[]], util/sys-structures/util/SFI.hh:147 *)
Definition descriptor (mmap j : Z) (b : Z → Z) : Descriptor :=
  let a := mmap + sizeof_Base + 36 * j in mkDescriptor (le 4 a b) (le 8 (a + 4) b) (le 8 (a + 20) b).

(** [SFI::Syst::find] for [n] more positions, util/sys-structures/util/SFI.hh:169-174 *)
Fixpoint find (n : nat) (a : Z) (b : Z → Z) : option Z :=
  match n with
  | O => None
  | S n => if isCorrectType SYST a b then Some a else find n (a + 16) b
  end.
Definition find_syst (b : Z → Z) : option Z := find (Z.to_nat (SFI_SIZE / 16)) SFI_PHYS b.

(** [SFI::Syst::getMmap] and [getCpus]: the first table with the signature among
    [n] entries from [i] on; the inner [None] is a null pointer,
    util/sys-structures/util/SFI.hh:178-185 *)
Fixpoint getTable (signature : list Z) (n : nat) (syst i : Z) (b : Z → Z) : option (option Z) :=
  match n with
  | O => Some None
  | S n =>
    let t := le 8 (syst + sizeof_Base + 8 * i) b in
    if negb (kernelmem t) then None
    else if isCorrectType signature t b then Some (Some t) else getTable signature n syst (i + 1) b
  end.
Definition table (signature : list Z) (syst : Z) (b : Z → Z) : option (option Z) :=
  getTable signature (Z.to_nat (entries_of 8 syst b)) syst 0 b.

(** The loop of [initKernelMemory], boot/kmem-sfi/boot/kmem.cc:47-53 *)
Fixpoint sfi_collect (n : nat) (mmap j : Z) (b : Z → Z) (v : list Range) : option (list Range) :=
  match n with
  | O => Some v
  | S n =>
    let me := descriptor mmap j b in
    v ← (if d_type me =? ConventionalMemory then addStartLength 30 (getAddress me) (getSize me) v else Some v);
    sfi_collect n mmap (j + 1) b v
  end.

(** The conventional memory of the map. *)
Fixpoint usable (n : nat) (mmap j : Z) (b : Z → Z) : list Range :=
  match n with
  | O => []
  | S n =>
    let me := descriptor mmap j b in
    (if d_type me =? ConventionalMemory
     then [mkRange (getAddress me) (u64 (getAddress me + getSize me))] else []) ++ usable n mmap (j + 1) b
  end.
End SFI.

(** ** The start of the kernel memory *)

Section init.
Context {S : Type} `{HasMemory S} (LOAD_ADDR KERN_END : Z).

(** [removeKernelReserved] and [addToKM] of the ranges. *)
Definition fill (v : option (list Range)) : kernel S unit :=
  match v ← v; removeKernelReserved 30 LOAD_ADDR KERN_END v with
  | None => λ _, AssertFail
  | Some v => addToKM v
  end.

(** [initKernelMemory] of boot/kmem-e820, boot/kmem-e820/boot/kmem.cc:36-54 *)
Definition initKernelMemory_e820 (b : Z → Z) : kernel S unit :=
  fill (E820.e820_collect (Z.to_nat (E820.size b)) 0 b []).

(** [initKernelMemory] of boot/kmem-multiboot, boot/kmem-multiboot/boot/kmem.cc:40-62 *)
Definition initKernelMemory_multiboot (mboot_magic mboot_table : Z) (b : Z → Z) : kernel S unit :=
  fill (if mboot_magic =? MultiBoot.MAGIC then
          if kernelmem mboot_table then
            let m := MultiBoot.mmap_addr mboot_table b in
            let n := MultiBoot.mmap_length mboot_table b in
            MultiBoot.mboot_collect (MultiBoot.steps n) m (m + n) b []
          else None
        else Some []).

(** [initKernelMemory] of boot/kmem-sfi, boot/kmem-sfi/boot/kmem.cc:38-59 *)
Definition initKernelMemory_sfi (b : Z → Z) : kernel S unit :=
  fill (match SFI.find_syst b with
        | None => Some []
        | Some syst =>
          mmap ← SFI.table SFI.MMAP syst b;
          match mmap with
          | None => Some []
          | Some mmap => SFI.sfi_collect (Z.to_nat (SFI.entries_of 36 mmap b)) mmap 0 b []
          end
        end).
End init.

(** The variants of the kernel. *)
Inductive firmware := FromE820 | FromMultiBoot (magic table : Z) | FromSFI.

Definition initKernelMemory {S : Type} `{HasMemory S} (LOAD_ADDR KERN_END : Z) (f : firmware)
    : (Z → Z) → kernel S unit :=
  match f with
  | FromE820 => initKernelMemory_e820 LOAD_ADDR KERN_END
  | FromMultiBoot magic mbi => initKernelMemory_multiboot LOAD_ADDR KERN_END magic mbi
  | FromSFI => initKernelMemory_sfi LOAD_ADDR KERN_END
  end.

(** The memory that the map declares usable; [None] when a table is not where the
    kernel can read it. *)
Definition usable_memory (f : firmware) (b : Z → Z) : option (list Range) :=
  match f with
  | FromE820 => Some (E820.usable (Z.to_nat (E820.size b)) 0 b)
  | FromMultiBoot magic mbi =>
    if magic =? MultiBoot.MAGIC then
      if kernelmem mbi then
        let m := MultiBoot.mmap_addr mbi b in let n := MultiBoot.mmap_length mbi b in
        Some (MultiBoot.usable (MultiBoot.steps n) m (m + n) b)
      else None
    else Some []
  | FromSFI =>
    match SFI.find_syst b with
    | None => Some []
    | Some syst =>
      mmap ← SFI.table SFI.MMAP syst b;
      match mmap with
      | None => Some []
      | Some mmap => Some (SFI.usable (Z.to_nat (SFI.entries_of 36 mmap b)) mmap 0 b)
      end
    end
  end.

(** ** The collected ranges are the usable ones *)

Definition is_bytes (b : Z → Z) : Prop := ∀ a, 0 ≤ b a < 256.

Lemma le_bounds n a b : is_bytes b → 0 ≤ le n a b.
Proof. intros Hb. revert a. induction n as [|n IH]; intros a; cbn [le]; [done|]. pose proof (Hb a). pose proof (IH (a + 1)). lia. Qed.

(** Appending what one entry contributes. *)
Lemma add_usable (c : bool) begin len v :
  (length v + length (if c then [mkRange begin (u64 (begin + len))] else []) ≤ 30)%nat →
  (if c then addStartLength 30 begin len v else Some v) =
    Some (v ++ (if c then [mkRange begin (u64 (begin + len))] else [])).
Proof.
  destruct c; cbn [length]; intros Hl; [|by rewrite app_nil_r].
  unfold addStartLength, add, push_back. by rewrite decide_True by lia.
Qed.

Lemma e820_collect_run n i b v :
  (length v + length (E820.usable n i b) ≤ 30)%nat →
  E820.e820_collect n i b v = Some (v ++ E820.usable n i b).
Proof.
  revert i v. induction n as [|n IH]; intros i v Hl; cbn -[add] in *; [by rewrite app_nil_r|].
  rewrite length_app in Hl. rewrite add_usable by lia. cbn. rewrite IH by (rewrite length_app; lia).
  by rewrite app_assoc.
Qed.

Lemma sfi_collect_run n mmap j b v :
  (length v + length (SFI.usable n mmap j b) ≤ 30)%nat →
  SFI.sfi_collect n mmap j b v = Some (v ++ SFI.usable n mmap j b).
Proof.
  revert j v. induction n as [|n IH]; intros j v Hl; cbn -[add] in *; [by rewrite app_nil_r|].
  rewrite length_app in Hl. rewrite add_usable by lia. cbn. rewrite IH by (rewrite length_app; lia).
  by rewrite app_assoc.
Qed.

Lemma mboot_collect_run fuel m e b v :
  is_bytes b → e - m ≤ Z.of_nat fuel →
  (length v + length (MultiBoot.usable fuel m e b) ≤ 30)%nat →
  MultiBoot.mboot_collect fuel m e b v = Some (v ++ MultiBoot.usable fuel m e b).
Proof.
  intros Hb. revert m v. induction fuel as [|fuel IH]; intros m v Hf Hl; cbn -[add] in *;
    (destruct (Z.ltb_spec m e); [|by rewrite app_nil_r]); [lia|].
  rewrite length_app in Hl. rewrite add_usable by lia. cbn.
  pose proof (le_bounds 4 m b Hb). rewrite IH by (rewrite ?length_app; cbn in *; lia). by rewrite app_assoc.
Qed.

Lemma init_fill {S : Type} `{HasMemory S} LOAD_ADDR KERN_END f b U :
  is_bytes b → usable_memory f b = Some U → (length U ≤ 30)%nat →
  initKernelMemory (S := S) LOAD_ADDR KERN_END f b = fill LOAD_ADDR KERN_END (Some U).
Proof.
  intros Hb HU Hl. unfold initKernelMemory, usable_memory in *. destruct f as [|magic mbi|].
  - injection HU as <-. unfold initKernelMemory_e820. by rewrite e820_collect_run.
  - unfold initKernelMemory_multiboot. destruct (magic =? _); [|by injection HU as <-].
    destruct (kernelmem mbi); [|done]. injection HU as <-. cbv zeta.
    rewrite mboot_collect_run; [done|done| |done].
    unfold MultiBoot.steps. pose proof (le_bounds 4 (mbi + 44) b Hb).
    unfold MultiBoot.mmap_length. lia.
  - unfold initKernelMemory_sfi. destruct (SFI.find_syst b) as [syst|]; [|by injection HU as <-].
    destruct (SFI.table SFI.MMAP syst b) as [[mmap|]|]; simpl in *; [|by injection HU as <-|done].
    injection HU as <-. rewrite sfi_collect_run by done. reflexivity.
Qed.

(** ** How often an address is covered *)

Definition hit (r : Range) (p : Z) : nat := if containsPoint r p then 1 else 0.
Fixpoint hits (v : list Range) (p : Z) : nat :=
  match v with [] => 0 | r :: v => hit r p + hits v p end.

Lemma hits_app v w p : hits (v ++ w) p = (hits v p + hits w p)%nat.
Proof. induction v as [|r v IH]; cbn; [done|]. rewrite IH. lia. Qed.

Lemma hits_insert v i l x p :
  v !! i = Some l → (hits (<[i := x]> v) p + hit l p = hits v p + hit x p)%nat.
Proof.
  revert i. induction v as [|r v IH]; intros [|i] Hi; cbn in *; [done..| |].
  - injection Hi as ->. lia.
  - rewrite <-!Nat.add_assoc. f_equal. by apply IH.
Qed.

Lemma hits_covers v p : covers v p ↔ (0 < hits v p)%nat.
Proof.
  induction v as [|r v IH]; [rewrite covers_nil; cbn; lia|]. rewrite covers_cons, IH. cbn. unfold hit.
  destruct (containsPoint r p); [split; [lia|auto]|]. split; [intros [?|?]; [done|lia]|intros ?; right; lia].
Qed.

Lemma hits_pop v i l p :
  v !! i = Some l → (hits (pop_back (<[i := default l (last v)]> v)) p + hit l p = hits v p)%nat.
Proof.
  intros Hi. apply list_elem_of_split_length in Hi as (a & c & -> & ->).
  rewrite pop_back_moved. destruct (last c) as [z|] eqn:Hz.
  - apply take_pred_last in Hz as Hc. set (c' := take _ c) in *. rewrite Hc.
    rewrite !hits_app. cbn. rewrite hits_app. cbn. lia.
  - apply last_None in Hz as ->. rewrite hits_app. cbn. lia.
Qed.

(** ** Subtraction of ranges *)

(** A range that is not empty, with the property [P] at both ends. *)
Definition piece (P : Z → Prop) (r : Range) : Prop := getStart r < getEnd r ∧ P (getStart r) ∧ P (getEnd r).

Section subtraction.
Context (P : Z → Prop) (M : nat) (rhs : Range) (Hrhs : piece P rhs).

Lemma Forall_pop_back (Q : Range → Prop) v : Forall Q v → Forall Q (pop_back v).
Proof. intros Hv. by apply Forall_take. Qed.

Lemma Forall_last (Q : Range → Prop) v l : Forall Q v → Q l → Q (default l (last v)).
Proof.
  intros Hv Hl. destruct (last v) as [z|] eqn:E; [|done]. apply last_Some in E as [w ->].
  apply Forall_app in Hv as [_ Hz]. by rewrite Forall_singleton in Hz.
Qed.

(** The parts of a range keep its points outside of [rhs]. *)
Lemma hit_outside (l x : Range) p :
  containsPoint rhs p = false →
  (∀ q, ¬ (getStart rhs ≤ q < getEnd rhs) → (getStart x ≤ q < getEnd x) ↔ (getStart l ≤ q < getEnd l)) →
  hit x p = hit l p.
Proof.
  intros Hp Hx. unfold hit. rewrite <-not_true_iff_false, containsPoint_spec in Hp.
  specialize (Hx p Hp). rewrite <-!containsPoint_spec in Hx.
  destruct (containsPoint x p), (containsPoint l p); try done; destruct Hx; intuition congruence.
Qed.

Lemma substract_loop_keeps fuel i v v' :
  Forall (piece P) v → substract_loop fuel M rhs i v = Some v' →
  Forall (piece P) v' ∧ ∀ p, containsPoint rhs p = false → hits v' p = hits v p.
Proof using Hrhs.
  destruct Hrhs as (Hne & Hs & He). revert i v.
  induction fuel as [|fuel IH]; intros i v Hv; cbn [substract_loop]; [done|].
  destruct (v !! i) as [l|] eqn:Hi; [|by intros [= <-]].
  pose proof (proj1 (Forall_lookup _ v) Hv i l Hi) as (Hl & Hls & Hle).
  assert (∀ x w, piece P x → Forall (piece P) w →
    (∀ p, containsPoint rhs p = false → (hit x p + hits w p = hit l p)%nat) →
    substract_loop fuel M rhs (S i) (<[i := x]> (v ++ w)) = Some v' →
    Forall (piece P) v' ∧ ∀ p, containsPoint rhs p = false → hits v' p = hits v p) as Hstep.
  { intros x w Hx Hw Hh Hrun. apply IH in Hrun as [HF Hr].
    - split; [done|]. intros p Hp. rewrite (Hr p Hp).
      pose proof (hits_insert (v ++ w) i l x p (lookup_app_l_Some _ _ _ _ Hi)) as E.
      rewrite hits_app in E. pose proof (Hh p Hp). lia.
    - apply Forall_insert; [by apply Forall_app|done]. }
  destruct (Z.leb_spec (getStart rhs) (getStart l)); [destruct (Z.leb_spec (getEnd l) (getEnd rhs))|].
  - intros Hrun. apply IH in Hrun as [HF Hr].
    + split; [done|]. intros p Hp. rewrite (Hr p Hp). pose proof (hits_pop v i l p Hi) as E.
      assert (hit l p = 0%nat) as El; [|lia]. unfold hit. destruct (containsPoint l p) eqn:Ec; [|done].
      apply containsPoint_spec in Ec. rewrite <-not_true_iff_false, containsPoint_spec in Hp. lia.
    + by apply Forall_pop_back, Forall_insert, Forall_last.
  - destruct (Z.ltb_spec (getStart l) (getEnd rhs)); [|by apply IH].
    intros Hrun. apply (Hstep (mkRange (getEnd rhs) (getEnd l)) []); [|done| |by rewrite app_nil_r].
    + done.
    + intros p Hp. cbn. rewrite Nat.add_0_r. apply hit_outside; [done|]. cbn. lia.
  - destruct (Z.ltb_spec (getStart rhs) (getEnd l)); [|by apply IH].
    destruct (Z.leb_spec (getEnd l) (getEnd rhs)).
    + intros Hrun. apply (Hstep (mkRange (getStart l) (getStart rhs)) []); [|done| |by rewrite app_nil_r].
      * done.
      * intros p Hp. cbn. rewrite Nat.add_0_r. apply hit_outside; [done|]. cbn. lia.
    + unfold push_back. destruct (decide _); [|done].
      apply (Hstep (mkRange (getStart l) (getStart rhs)) [mkRange (getEnd rhs) (getEnd l)]).
      * done.
      * by apply Forall_singleton.
      * intros p Hp. cbn. unfold hit, containsPoint. cbn.
        rewrite <-not_true_iff_false, containsPoint_spec in Hp.
        destruct (Z.leb_spec (getStart l) p), (Z.ltb_spec p (getStart rhs)),
          (Z.leb_spec (getEnd rhs) p), (Z.ltb_spec p (getEnd l)); cbn; lia.
Qed.

(** [RangeSet::substract] of a set of ranges that do not overlap. *)
Lemma substract_run v :
  fits 64 (getStart rhs) → fits 64 (getEnd rhs) → Forall (piece P) v →
  (∀ p, (hits v p ≤ 1)%nat) → (length v + holes rhs v ≤ M)%nat →
  ∃ v', substract M rhs v = Some v' ∧ Forall (piece P) v' ∧ (length v' ≤ length v + holes rhs v)%nat ∧
    (∀ p, (hits v' p ≤ 1)%nat) ∧ ∀ p, covers v' p ↔ covers v p ∧ containsPoint rhs p = false.
Proof using Hrhs.
  intros Hs He Hv Hh HM. destruct Hrhs as (Hne & _).
  destruct (substract_correct M rhs v Hs He Hne HM) as (v' & Hrun & Hc & Hl). exists v'.
  assert (substract_loop (S (2 * length v)) M rhs 0 v = Some v') as Hloop.
  { revert Hrun. unfold substract, isEmpty, getSize. destruct Hs, He.
    rewrite wrap_small by (unfold fits; lia). by rewrite (proj2 (Z.eqb_neq _ _)) by lia. }
  destruct (substract_loop_keeps _ _ _ _ Hv Hloop) as [HF Hhits]. split_and!; try done.
  intros p. destruct (containsPoint rhs p) eqn:Ep; [|by rewrite Hhits].
  destruct (decide (0 < hits v' p)%nat) as [Hpos|]; [|lia]. apply hits_covers, Hc in Hpos as [_ ?]. congruence.
Qed.
End subtraction.

(** ** Adding the ranges to the heap *)

(** The ends of usable ranges: physical addresses that are multiples of the
    alignment of the heap. *)
Definition bound (x : Z) : Prop := 0 ≤ x ≤ 2 ^ 46 ∧ is_aligned x FirstFitHeap.heapAlign = true.

(** The address of physical memory in the kernel's address space. *)
Definition direct (p : Z) : Z := KERNELMEM_ADDR + p.

(** The free list stands for the physical addresses [F]. *)
Definition holds (h : list FirstFitHeap.FreeRange) (F : Z → Prop) : Prop :=
  FirstFitHeap.heap_ok 0 h ∧
  ∀ q, FirstFitHeap.free_at h q ↔ ∃ p, q = direct p ∧ 0 ≤ p < KERNELMEM_SIZE ∧ F p.

Lemma holds_iff h F G : (∀ p, F p ↔ G p) → holds h F → holds h G.
Proof. intros E [Hok Hf]. split; [done|]. intros q. rewrite Hf. by setoid_rewrite E. Qed.

Section add.
Context {S : Type} `{HasMemory S}.

Lemma cut_overlap a b c d :
  Z.max a c < Z.min b d → cut (mkRange a b) (mkRange c d) = mkRange (Z.max a c) (Z.min b d).
Proof.
  intros Hlt. unfold cut. cbn.
  assert ((if c <? a then a else c) = Z.max a c) as -> by (destruct (Z.ltb_spec c a); lia).
  assert ((if b <? d then b else d) = Z.min b d) as -> by (destruct (Z.ltb_spec b d); lia).
  by rewrite (proj2 (Z.ltb_lt _ _)).
Qed.

Lemma addRange_aligned s len h :
  0 < s → 0 < len → s + len < 2 ^ 64 - 2 ^ 12 →
  is_aligned s FirstFitHeap.heapAlign = true → is_aligned len FirstFitHeap.heapAlign = true →
  FirstFitHeap.heap_ok 0 h → (∀ p, s ≤ p < s + len → ¬ FirstFitHeap.free_at h p) →
  ∃ h', FirstFitHeap.addRange s len h = Some h' ∧ FirstFitHeap.heap_ok 0 h' ∧
    ∀ p, FirstFitHeap.free_at h' p ↔ FirstFitHeap.free_at h p ∨ s ≤ p < s + len.
Proof.
  intros Hs Hl He Hsa Hla Hok Hd. unfold FirstFitHeap.addRange.
  assert (round_down len FirstFitHeap.heapAlign = len) as Ed.
  { apply is_aligned_spec, Z.div_exact in Hla; [|done]. unfold round_down.
    rewrite Z.mul_comm, <-Hla. apply wrap_small. unfold fits. lia. }
  rewrite round_up_aligned, Ed; [apply FirstFitHeap.sfree_correct; done || lia|done|split; lia| |done].
  unfold FirstFitHeap.heapAlign, alignLine. lia.
Qed.

Lemma km_addRange_run r s F :
  piece bound r → _range (mem s) = mkRange 0 KERNELMEM_SIZE → holds (heap (mem s)) F →
  (∀ p, containsPoint r p = true → ¬ F p) →
  ∃ h', km_addRange (getStart r) (getSize r) s = Done tt (set_mem (with_heap h' (mem s)) s) ∧
    holds h' (λ p, F p ∨ containsPoint r p = true).
Proof.
  intros (Hne & [Hs Hsa] & [He Hea]) Hown [Hok HF] Hd. unfold km_addRange, kernelmem.
  destruct (Z.ltb_spec (getStart r) KERNELMEM_SIZE) as [Hk|Hk]; cbn [negb].
  2: { exists (heap (mem s)). split.
       - unfold kret. destruct (mem s) eqn:E. unfold with_heap. cbn. by rewrite <-E, set_mem_id.
       - split; [done|]. intros q. rewrite HF. split; [naive_solver|].
         intros (p & -> & Hp & [Hf|Hc%containsPoint_spec]); [eauto|lia]. }
  unfold kbind, kget. rewrite Hown. cbn [getStart]. unfold kassert. change (0 <? KERNELMEM_SIZE) with true.
  cbn iota. change (getSize (mkRange 0 KERNELMEM_SIZE)) with KERNELMEM_SIZE.
  assert (getSize r = getEnd r - getStart r) as Esz by (apply wrap_small; unfold fits; lia).
  set (e := Z.min (getEnd r) KERNELMEM_SIZE).
  assert (cut (bySize (logint (getStart r)) (getSize r)) (bySize (logint 0) KERNELMEM_SIZE) =
    mkRange (direct (getStart r)) (direct e)) as ->.
  { rewrite Esz. unfold bySize, logint, direct, e, KERNELMEM_ADDR, KERNELMEM_SIZE in *.
    rewrite !wrap_small by (unfold fits; rewrite ?wrap_small by (unfold fits; lia); lia).
    rewrite cut_overlap by lia. f_equal; lia. }
  assert (getSize (mkRange (direct (getStart r)) (direct e)) = e - getStart r) as Eadd.
  { unfold getSize. cbn. rewrite wrap_small; unfold direct, e, fits, KERNELMEM_SIZE in *; lia. }
  unfold isEmpty. rewrite Eadd, (proj2 (Z.eqb_neq _ _)) by (unfold e; lia). unfold heap_update. cbn [getStart].
  assert (is_aligned e FirstFitHeap.heapAlign = true) as Hal by (unfold e; destruct (Z.min_spec (getEnd r) KERNELMEM_SIZE) as [[_ ->]|[_ ->]]; done).
  destruct (addRange_aligned (direct (getStart r)) (e - getStart r) (heap (mem s))) as (h' & -> & Hok' & Hf');
    [unfold direct, e, KERNELMEM_ADDR, KERNELMEM_SIZE in *; lia|unfold e; lia
    |unfold direct, e, KERNELMEM_ADDR, KERNELMEM_SIZE in *; lia
    |by apply is_aligned_add|by apply is_aligned_sub|done| |].
  - intros q Hq (p & -> & Hp & Hf)%HF. apply (Hd p); [|done]. apply containsPoint_spec.
    unfold direct, e in *. lia.
  - exists h'. split; [done|]. split; [done|]. intros q. rewrite Hf', HF. split.
    + intros [(p & -> & Hp & Hf)|Hq]; [by exists p; auto|]. exists (q - KERNELMEM_ADDR).
      rewrite containsPoint_spec. unfold direct, e in *. split_and!; [lia..|]. right. lia.
    + intros (p & -> & Hp & [Hf|Hc%containsPoint_spec]); [by left; exists p|right].
      unfold direct, e in *. lia.
Qed.

Lemma addToKM_run v s F :
  Forall (piece bound) v → (∀ p, (hits v p ≤ 1)%nat) → (∀ p, covers v p → ¬ F p) →
  _range (mem s) = mkRange 0 KERNELMEM_SIZE → holds (heap (mem s)) F →
  ∃ h', addToKM v s = Done tt (set_mem (with_heap h' (mem s)) s) ∧ holds h' (λ p, F p ∨ covers v p).
Proof.
  revert s F. induction v as [|r v IH]; intros s F Hv Hh Hd Hown HF; cbn [addToKM].
  { exists (heap (mem s)). split.
    - unfold kret. destruct (mem s) eqn:E. unfold with_heap. cbn. by rewrite <-E, set_mem_id.
    - eapply holds_iff; [|done]. intros p. rewrite covers_nil. tauto. }
  apply Forall_cons in Hv as [Hr Hv].
  destruct (km_addRange_run r s F Hr Hown HF) as (h1 & E1 & H1).
  { intros p Hp. apply Hd, covers_cons. by left. }
  destruct (IH (set_mem (with_heap h1 (mem s)) s) (λ p, F p ∨ containsPoint r p = true) Hv) as (h2 & E2 & H2).
  - intros p. specialize (Hh p). cbn in Hh. lia.
  - intros p Hp [Hf|Hr']; [by apply (Hd p); [apply covers_cons; right|]|].
    apply hits_covers in Hp. specialize (Hh p). cbn in Hh. unfold hit in Hh. rewrite Hr' in Hh. lia.
  - by rewrite mem_set.
  - by rewrite mem_set.
  - exists h2. rewrite mem_set, set_mem_set in E2. rewrite (kbind_run _ _ _ _ _ E1). split; [exact E2|].
    eapply holds_iff; [|done]. intros p. cbn. rewrite covers_cons. tauto.
Qed.
End add.

(** ** What the kernel gets *)

(** The part of the memory that the kernel keeps for itself. *)
Definition reserved (LOAD_ADDR KERN_END p : Z) : Prop :=
  p < 0x100000 ∨ round_down LOAD_ADDR align2M ≤ p < round_up KERN_END align2M.

Lemma holes_hits v rhs : getStart rhs < getEnd rhs → (holes rhs v ≤ hits v (getStart rhs))%nat.
Proof.
  intros Hne. induction v as [|r v IH]; [done|]. rewrite holes_cons. cbn. unfold hit, holed, containsPoint.
  destruct (Z.ltb_spec (getStart r) (getStart rhs)), (Z.ltb_spec (getEnd rhs) (getEnd r)),
    (Z.leb_spec (getStart r) (getStart rhs)), (Z.ltb_spec (getStart rhs) (getEnd r)); cbn; lia.
Qed.

Lemma holes_zero v rhs : getStart rhs = 0 → Forall (piece bound) v → holes rhs v = 0%nat.
Proof.
  intros H0 Hv. induction Hv as [|r v (_ & [Hs _] & _) _ IH]; [done|]. rewrite holes_cons, IH. unfold holed.
  by rewrite H0, (proj2 (Z.ltb_ge _ _)) by lia.
Qed.

Lemma removeKernelReserved_run LOAD_ADDR KERN_END v :
  0 ≤ LOAD_ADDR < KERN_END → KERN_END < 2 ^ 45 →
  Forall (piece bound) v → (∀ p, (hits v p ≤ 1)%nat) → (length v < 30)%nat →
  ∃ v', removeKernelReserved 30 LOAD_ADDR KERN_END v = Some v' ∧ Forall (piece bound) v' ∧
    (∀ p, (hits v' p ≤ 1)%nat) ∧ ∀ p, covers v' p ↔ covers v p ∧ 0 ≤ p ∧ ¬ reserved LOAD_ADDR KERN_END p.
Proof.
  intros Hl Hk Hv Hh Hlen. unfold removeKernelReserved, reserve.
  destruct (round_down_bounds LOAD_ADDR align2M) as [Hda Hdb]; [done|split; lia|].
  destruct (round_up_bounds KERN_END align2M) as (Hua & Hub & _); [done|split; lia|unfold align2M; lia|].
  assert (∀ x, is_aligned x align2M = true → is_aligned x FirstFitHeap.heapAlign = true) as Hal.
  { intros x. by apply is_aligned_trans. }
  assert (0 ≤ round_down LOAD_ADDR align2M) as Hd0 by apply (Z.mod_pos_bound _ (2 ^ 64)), eq_refl.
  unfold align2M in *. set (lo := round_down LOAD_ADDR _) in *. set (hi := round_up KERN_END _) in *.
  destruct (substract_run bound 30 (mkRange 0 (1024 * 1024)) ltac:(done) v) as (v1 & -> & Hv1 & Hl1 & Hh1 & Hc1).
  1-4: done.
  { rewrite holes_zero by done. lia. }
  rewrite holes_zero in Hl1 by done. cbn [mbind option_bind].
  assert (piece bound (mkRange lo hi)) as Himg.
  { split; cbn; [lia|]. split; (split; [lia|by apply Hal]). }
  destruct (substract_run bound 30 (mkRange lo hi) Himg v1) as (v2 & -> & Hv2 & _ & Hh2 & Hc2); try done.
  1-2: unfold fits; cbn; lia.
  { pose proof (holes_hits v1 (mkRange lo hi) ltac:(cbn; lia)). specialize (Hh1 (getStart (mkRange lo hi))). lia. }
  exists v2. split_and!; try done. intros p. rewrite Hc2, Hc1, <-!not_true_iff_false, !containsPoint_spec.
  cbn. fold lo hi. unfold reserved, align2M. fold lo hi. split.
  - intros [[Hp Ha] Hb]. assert (0 ≤ p); [|split_and!; [done..|lia]].
    apply Exists_exists in Hp as (r & Hr & Hp). rewrite Forall_forall in Hv.
    destruct (Hv r Hr) as (_ & [? _] & _). apply containsPoint_spec in Hp. lia.
  - intros (Hp & H0 & Hr). split_and!; [done|lia..].
Qed.

Section start.
Context {S : Type} `{HasMemory S} (LOAD_ADDR KERN_END : Z).
Context (Himg : 0 ≤ LOAD_ADDR < KERN_END) (Hend : KERN_END < 2 ^ 45).

End start.

(** ** Examples *)

(** Little-endian words in memory. *)
Fixpoint put (n : nat) (a v : Z) (b : Z → Z) : Z → Z :=
  match n with
  | O => b
  | S n => put n (a + 1) (v / 256) (upd_byte a (v mod 256) b)
  end.

Lemma put_bytes n a v b : is_bytes b → is_bytes (put n a v b).
Proof.
  revert a v b. induction n as [|n IH]; intros a v b Hb; cbn [put]; [done|]. apply IH. intros x.
  unfold upd_byte. destruct (x =? a); [|apply Hb]. apply Z.mod_pos_bound. lia.
Qed.

(** A machine with 128 MiB and a hole below the first MiB. *)
Definition zero_page : Z → Z :=
  put 4 0x904F4 2 (put 8 0x904EC 0x60000 (put 8 0x904E4 0xA0000
  (put 4 0x904E0 1 (put 8 0x904D8 0xA0000 (put 8 0x904D0 0
  (put 4 0x90508 1 (put 8 0x90500 0x7F00000 (put 8 0x904F8 0x100000
  (put 1 E820.elemCountAddr 3 (λ _, 0)))))))))).

Lemma zero_page_bytes : is_bytes zero_page.
Proof. repeat apply put_bytes. intros a. lia. Qed.

Lemma zero_page_usable : usable_memory FromE820 zero_page = Some [mkRange 0 0xA0000; mkRange 0x100000 0x8000000].
Proof. vm_compute. reflexivity. Qed.


(** The test of the multiboot map looks at one bit of the type, so that memory
    that is defective, which the map of Linux calls [E_BAD], is taken as available. *)
Lemma bad_memory_available size addr len :
  MultiBoot.isAvailable (MultiBoot.mkMMap size addr len 5) = true ∧ E820.isUsable (E820.mkEntry addr len 5) = false.
Proof. done. Qed.
