(* ===== verification/UserThreads.v ===== *)
(** * Threads, portals and capabilities of user programs

    Models the parts of the user-space runtime that every user program of the kernel
    rests on.  [CapAlloc] is runtime/kobject/runtime/SimpleCapAlloc.hh, which hands
    out free places of the capability map.  [Portals] is runtime/async/runtime with
    FutureBase, PortalBase and PortalLock: the futures of invocations and the locks
    on portals.  [Cleaner] is the protocol of runtime/cxx/runtime/cxxsupport.cc by
    which a thread waits for the end of another, as a step relation. *)

From stdpp Require Import base tactics numbers list gmap fin_maps fin_sets relations.
From Stdlib Require Import ZArith Lia.
From S2P Require Import Prelude.

Local Open Scope Z_scope.
Local Open Scope mythos_scope.

(** ** The allocator of capability pointers *)

Module CapAlloc.

(** [null_cap], mythos/caps/mythos/caps.hh:39 *)
Definition null_cap : Z := 0.

Section cap_alloc.
Context (START COUNT : Z).

(** The fields of [SimpleCapAlloc], runtime/kobject/runtime/SimpleCapAlloc.hh:92-95 *)
Record SimpleCapAlloc := mkAlloc { next : Z; top : nat; caps : list Z }.

(** The constructor of [SimpleCapAlloc]; the array holds any values,
    runtime/kobject/runtime/SimpleCapAlloc.hh:39-43 *)
Definition new_alloc (any : list Z) : SimpleCapAlloc := mkAlloc START 0 any.

(** [SimpleCapAlloc::alloc], runtime/kobject/runtime/SimpleCapAlloc.hh:45-68 *)
Definition alloc : kernel SimpleCapAlloc Z := λ a,
  match top a with
  | S n =>
    match caps a !! n with
    | Some c => Done c (mkAlloc (next a) n (caps a))
    | None => AssertFail
    end
  | O =>
    if next a <? u32 (START + COUNT) then
      (kassert (START <=? next a);;; kput (mkAlloc (u32 (next a + 1)) (top a) (caps a));;; kret (next a)) a
    else Done null_cap a
  end.

(** [SimpleCapAlloc::freeEmpty], runtime/kobject/runtime/SimpleCapAlloc.hh:72-78 *)
Definition freeEmpty (p : Z) : kernel SimpleCapAlloc unit := λ a,
  (kassert (Z.of_nat (top a) <? COUNT);;;
   kassert (top a <? length (caps a))%nat;;;
   kput (mkAlloc (next a) (S (top a)) (<[top a := p]> (caps a)))) a.

(** [SimpleCapAlloc::free]; [deleted] is the answer of the kernel to the deletion of
    the capability, runtime/kobject/runtime/SimpleCapAlloc.hh:80-87 *)
Definition free (p : Z) (deleted : optional unit) : kernel SimpleCapAlloc (optional unit) :=
  kassert ((START <=? p) && (p <? u32 (START + COUNT)));;;
  match deleted with
  | OK _ => freeEmpty p;;; kret (OK tt)
  | THROW e => kret (THROW e)
  end.

(** What the threads of a program do with the allocator. *)
Inductive Use := Take | Give (p : Z) (deleted : optional unit).

(** A use by a program that holds the pointers [held] and gives back only those; the
    allocator's mutex makes every use one step. *)
Definition use (u : Use) (a : SimpleCapAlloc) (held : gset Z) : option (outcome SimpleCapAlloc (gset Z)) :=
  match u with
  | Take => Some ((p <-- alloc;; kret (if p =? null_cap then held else {[p]} ∪ held)) a)
  | Give p deleted =>
    if decide (p ∈ held) then
      Some ((r <-- free p deleted;; kret (match r with OK _ => held ∖ {[p]} | THROW _ => held end)) a)
    else None
  end.

Inductive used (a0 : SimpleCapAlloc) : SimpleCapAlloc → gset Z → Prop :=
  | used_new : used a0 a0 ∅
  | used_step a held u a' held' :
    used a0 a held → use u a held = Some (Done held' a') → used a0 a' held'.

Context (Hstart : 0 < START) (Hcount : 0 ≤ COUNT) (Hend : START + COUNT < 2 ^ 32).

Lemma end_fits : u32 (START + COUNT) = START + COUNT.
Proof. apply wrap_small. unfold fits. lia. Qed.

(** The pointers on the stack, and with them every pointer given out so far. *)
Definition stack (a : SimpleCapAlloc) : list Z := take (top a) (caps a).

Record alloc_ok (a : SimpleCapAlloc) (held : gset Z) : Prop := {
  ao_next : START ≤ next a ≤ START + COUNT;
  ao_caps : Z.of_nat (length (caps a)) = COUNT;
  ao_top : (top a ≤ length (caps a))%nat;
  ao_nodup : NoDup (stack a);
  ao_apart p : p ∈ stack a → p ∉ held;
  ao_all p : p ∈ stack a ∨ p ∈ held ↔ START ≤ p < next a
}.

Lemma given_size a held : alloc_ok a held →
  Z.of_nat (top a) + Z.of_nat (size held) = next a - START.
Proof.
  intros H. assert (list_to_set (stack a) ∪ held ≡@{gset Z} list_to_set (seqZ START (next a - START))) as He.
  { intros p. rewrite elem_of_union, !elem_of_list_to_set, elem_of_seqZ, (ao_all _ _ H). lia. }
  apply set_size_proper in He. rewrite size_union, !size_list_to_set, length_seqZ in He.
  - unfold stack in He. rewrite length_take in He. pose proof (ao_top _ _ H). pose proof (ao_next _ _ H). lia.
  - apply NoDup_seqZ.
  - apply (ao_nodup _ _ H).
  - intros p. rewrite elem_of_list_to_set. apply (ao_apart _ _ H).
Qed.

Lemma new_alloc_ok any : Z.of_nat (length any) = COUNT → alloc_ok (new_alloc any) ∅.
Proof. intros Hl. split; cbn; try lia; [constructor|set_solver|]. intros p. set_solver by lia. Qed.

(** Taking: a pointer that nobody holds, or the null pointer when all are held. *)
Lemma alloc_takes a held : alloc_ok a held →
  ∃ p a', alloc a = Done p a' ∧
    (p = null_cap ∧ a' = a ∧ Z.of_nat (size held) = COUNT ∨
     START ≤ p < START + COUNT ∧ p ∉ held ∧ alloc_ok a' ({[p]} ∪ held)).
Proof.
  intros H. pose proof (given_size a held H) as Hsz. destruct H as [Hn Hc Ht Hnd Hap Hall].
  unfold alloc. destruct (top a) as [|n] eqn:Etop.
  - rewrite end_fits. destruct (next a <? START + COUNT) eqn:En.
    + exists (next a). eexists. rewrite kassert_bind by lia. split; [reflexivity|]. right.
      unfold stack in *. rewrite Etop, take_0 in *.
      assert (∀ p, p ∈ held ↔ START ≤ p < next a) as Hh
        by (intros p; rewrite <- Hall, elem_of_nil; tauto).
      split; [lia|split; [rewrite Hh; lia|]]. rewrite wrap_small by (unfold fits; lia).
      split; unfold stack; cbn; rewrite ?Etop, ?take_0; try lia; try done.
      * by intros p ?%not_elem_of_nil.
      * intros p. rewrite elem_of_nil, elem_of_union, elem_of_singleton, Hh. lia.
    + exists null_cap, a. split; [done|]. left. split; [done|]. split; [done|]. lia.
  - destruct (lookup_lt_is_Some_2 (caps a) n) as [c Ec]; [lia|]. rewrite Ec.
    exists c. eexists. split; [reflexivity|]. right. unfold stack in *. rewrite Etop, (take_S_r _ _ _ Ec) in *.
    apply NoDup_app in Hnd as (Hnd & Hdis & _).
    assert (START ≤ c < next a) by (apply Hall; left; set_solver).
    split; [lia|split; [apply Hap; set_solver|]]. split; unfold stack; cbn; try lia; try done.
    + intros p Hp. specialize (Hdis p Hp). specialize (Hap p). set_solver.
    + intros p. rewrite <- Hall. set_solver.
Qed.

(** Giving back a held pointer puts it on the stack, which has room for it. *)
Lemma free_gives a held p deleted : alloc_ok a held → p ∈ held →
  match deleted with
  | OK _ => ∃ a', free p deleted a = Done (OK tt) a' ∧ alloc_ok a' (held ∖ {[p]})
  | THROW e => free p deleted a = Done (THROW e) a
  end.
Proof.
  intros H Hp. pose proof (given_size a held H) as Hsz. destruct H as [Hn Hc Ht Hnd Hap Hall].
  assert (START ≤ p < next a) by (apply Hall; by right).
  assert (size held ≠ 0%nat) by (intros ?%size_empty_inv; set_solver).
  unfold free. rewrite end_fits. destruct deleted as [u|e]; rewrite kassert_bind by lia; [|done].
  assert (freeEmpty p a = Done tt (mkAlloc (next a) (S (top a)) (<[top a := p]> (caps a)))) as Hf
    by (unfold freeEmpty; rewrite kassert_bind, kassert_bind by (rewrite ?Nat.ltb_lt; lia); done).
  eexists. rewrite (kbind_run _ _ _ _ _ Hf). split; [reflexivity|].
  split; unfold stack in *; cbn; rewrite ?length_insert; try lia; try done;
    rewrite (take_S_r _ _ p), take_insert_ge by (lia || (apply list_lookup_insert_eq; lia)).
  - apply NoDup_app. split_and!; [done| |apply NoDup_singleton]. intros q Hq ->%list_elem_of_singleton.
    by apply (Hap p).
  - intros q. specialize (Hap q). set_solver.
  - intros q. rewrite <- Hall, elem_of_app, list_elem_of_singleton, elem_of_difference, elem_of_singleton.
    destruct (decide (q = p)) as [->|]; tauto.
Qed.

Lemma used_ok any a held :
  Z.of_nat (length any) = COUNT → used (new_alloc any) a held → alloc_ok a held.
Proof.
  intros Hl Hu. induction Hu as [|a held u a' held' Hu IH Hs]; [by apply new_alloc_ok|].
  destruct u as [|p deleted]; cbn in Hs.
  - destruct (alloc_takes a held IH) as (p & a1 & Ha & Hp). rewrite (kbind_run _ _ _ _ _ Ha) in Hs.
    injection Hs as <- <-. destruct Hp as [(-> & -> & _)|(Hr & _ & Hok)]; [done|].
    by rewrite (proj2 (Z.eqb_neq p null_cap)) by (unfold null_cap; lia).
  - destruct (decide (p ∈ held)) as [Hp|]; [|done]. pose proof (free_gives a held p deleted IH Hp) as Hf.
    destruct deleted as [[]|e]; [destruct Hf as (a1 & Hf & Hok)|]; rewrite (kbind_run _ _ _ _ _ Hf) in Hs;
      by injection Hs as <- <-.
Qed.

(** However the threads of a program take capability pointers and give back those
    they hold, the allocator fails no assertion and writes only to its array; it hands
    out a pointer of its range that nobody holds, and the null pointer only when all
    are held; a pointer whose capability could not be deleted stays held. *)
Theorem capability_pointers_exclusive any a held u o :
  Z.of_nat (length any) = COUNT → used (new_alloc any) a held → use u a held = Some o →
  ∃ held' a', o = Done held' a' ∧
    match u with
    | Take => held' = held ∧ a' = a ∧ Z.of_nat (size held) = COUNT ∨
              ∃ p, START ≤ p < START + COUNT ∧ p ∉ held ∧ held' = {[p]} ∪ held
    | Give p (OK _) => held' = held ∖ {[p]}
    | Give p (THROW _) => held' = held ∧ a' = a
    end.
Proof.
  intros Hl Hu Ho. pose proof (used_ok any a held Hl Hu) as Hok. destruct u as [|p deleted]; cbn in Ho.
  - destruct (alloc_takes a held Hok) as (p & a1 & Ha & Hp). rewrite (kbind_run _ _ _ _ _ Ha) in Ho.
    injection Ho as <-. eexists _, a1. split; [reflexivity|]. destruct Hp as [(-> & -> & Hs)|(Hr & Hn & _)].
    + by left.
    + right. exists p. by rewrite (proj2 (Z.eqb_neq p null_cap)) by (unfold null_cap; lia).
  - destruct (decide (p ∈ held)) as [Hp|]; [|done]. pose proof (free_gives a held p deleted Hok Hp) as Hf.
    destruct deleted as [[]|e]; [destruct Hf as (a1 & Hf & _)|]; rewrite (kbind_run _ _ _ _ _ Hf) in Ho;
      injection Ho as <-; eauto.
Qed.

End cap_alloc.

(** Two pointers from 256 on; both are taken, one is given back and taken again. *)
Lemma capability_pointers_exclusive_witness :
  ∃ held' a', use 256 2 Take (mkAlloc 258 1 [256; 0]) {[257]} = Some (Done held' a') ∧
    (held' = {[257]} ∧ a' = mkAlloc 258 1 [256; 0] ∧ Z.of_nat (size ({[257]} : gset Z)) = 2 ∨
     ∃ p, 256 ≤ p < 256 + 2 ∧ p ∉ ({[257]} : gset Z) ∧ held' = {[p]} ∪ {[257]}).
Proof.
  assert (∃ o, use 256 2 Take (mkAlloc 258 1 [256; 0]) {[257]} = Some o) as [o Ho] by (by eexists).
  destruct (capability_pointers_exclusive 256 2 ltac:(lia) ltac:(lia) ltac:(lia) [0; 0]
    (mkAlloc 258 1 [256; 0]) {[257]} Take o eq_refl) as (held' & a' & -> & Hp); [|done|by eauto].
  apply (used_step _ _ _ (mkAlloc 258 0 [0; 0]) {[257; 256]} (Give 256 (OK tt))); [|by vm_compute].
  apply (used_step _ _ _ (mkAlloc 257 0 [0; 0]) {[256]} Take); [|by vm_compute].
  apply (used_step _ _ _ (mkAlloc 256 0 [0; 0]) ∅ Take); [constructor|by vm_compute].
Defined.

End CapAlloc.

(** ** Waiting for the end of a thread *)

Module Cleaner.

(** [PthreadCleaner::state], runtime/cxx/runtime/cxxsupport.cc:74-79 *)
Definition UNKNOWN : Z := 0.
Definition FREE : Z := 1.
Definition EXITED : Z := 2.

(** Where the ending thread is: before [exit], behind the exchange with the value it
    got, behind [exit] on its way to the system call, and gone; [Failed] is a failed
    assertion. *)
Inductive Leaver := Running | Exchanged (ec : Z) | Leaving | Gone | Failed.

(** Where the joining thread is: before the test of the loop, before the exchange,
    in [mythos_wait] and behind [wait]. *)
Inductive Joiner := Testing | Registering | Waiting | Returned.

(** The flag of the ending thread, and whether a signal for the joining thread is
    pending in the kernel. *)
Record Join := mkJoin { flag : Z; leaver : Leaver; joiner : Joiner; notified : bool }.

Section cleaner.
Context (me : Z).

(** [syscall_signal] to the joining thread [me], runtime/cxx/runtime/cxxsupport.cc:89 *)
Definition signalled (ec : Z) (n : bool) : bool := n || (ec =? me).

(** The next step of the ending thread: [PthreadCleaner::exit] and the system call
    behind it, runtime/cxx/runtime/cxxsupport.cc:83-91 *)
Definition exit_step (j : Join) : option Join :=
  match leaver j with
  | Running => Some (mkJoin EXITED (Exchanged (flag j)) (joiner j) (notified j))
  | Exchanged ec =>
    if ec =? FREE then Some (mkJoin (flag j) Leaving (joiner j) (notified j))
    else if ec =? UNKNOWN then Some (mkJoin (flag j) Failed (joiner j) (notified j))
    else Some (mkJoin (flag j) Leaving (joiner j) (signalled ec (notified j)))
  | Leaving => Some (mkJoin (flag j) Gone (joiner j) (notified j))
  | Gone | Failed => None
  end.

(** The next step of the joining thread, [PthreadCleaner::wait]; [weak] is a
    [compare_exchange_weak] that fails although the values agree, [early] an event
    that ends [mythos_wait] without a signal,
    runtime/cxx/runtime/cxxsupport.cc:95-106 *)
Definition wait_step (weak early : bool) (j : Join) : option Join :=
  match joiner j with
  | Testing => Some (mkJoin (flag j) (leaver j) (if flag j =? EXITED then Returned else Registering) (notified j))
  | Registering =>
    if (flag j =? FREE) && negb weak
    then Some (mkJoin me (leaver j) Waiting (notified j))
    else Some (mkJoin (flag j) (leaver j) Testing (notified j))
  | Waiting => if notified j || early then Some (mkJoin (flag j) (leaver j) Testing false) else None
  | Returned => None
  end.

Inductive join_step : Join → Join → Prop :=
  | js_exit j j' : exit_step j = Some j' → join_step j j'
  | js_wait weak early j j' : wait_step weak early j = Some j' → join_step j j'.

(** The threads start with the flag of the constructor,
    runtime/cxx/runtime/cxxsupport.cc:68-72 *)
Definition join_start (pending : bool) : Join := mkJoin FREE Running Testing pending.

Context (Hme : EXITED < me).

Record join_ok (j : Join) : Prop := {
  jo_flag : match leaver j with
    | Running => flag j = me ∨ flag j = FREE ∧ (joiner j = Testing ∨ joiner j = Registering)
    | Exchanged ec => flag j = EXITED ∧ (ec = me ∨ ec = FREE ∧ joiner j ≠ Waiting)
    | Leaving | Gone => flag j = EXITED ∧ (joiner j = Waiting → notified j = true)
    | Failed => False
    end;
  jo_returned : joiner j = Returned → leaver j ≠ Running
}.

Ltac join_cases :=
  unfold EXITED, FREE, UNKNOWN in *; repeat case_match; simplify_eq; bool_hyps;
  split; cbn; unfold EXITED, FREE, signalled in *; intuition (congruence || lia || auto).

Lemma exit_step_ok j j' : join_ok j → exit_step j = Some j' → join_ok j'.
Proof.
  destruct j as [f l jn n]. intros [Hf Hr] Hs. cbn in *. destruct l as [|ec| | |]; cbn in *; join_cases.
Qed.

Lemma wait_step_ok weak early j j' : join_ok j → wait_step weak early j = Some j' → join_ok j'.
Proof.
  destruct j as [f l jn n]. intros [Hf Hr] Hs. cbn in *. destruct jn; cbn in *; join_cases.
Qed.

Lemma join_reachable_ok pending j : rtc join_step (join_start pending) j → join_ok j.
Proof.
  apply (rtc_ind_r (λ j, join_ok j)); [|intros ?? _ [] ?; eauto using exit_step_ok, wait_step_ok].
  split; [right; auto|done].
Qed.

(** The joining thread alone, for at most [n] steps. *)
Fixpoint waits (n : nat) (j : Join) : Join :=
  match n with
  | O => j
  | S n => match wait_step false false j with Some j' => waits n j' | None => j end
  end.

(** C30: in every interleaving of a thread that ends with a thread that waits for its
    end, also when exchanges fail spuriously and waiting is interrupted, waiting
    returns only after the thread has called [exit]; [exit] fails no assertion and is
    never blocked; and once it is over the waiting thread returns within three steps
    of its own, so that no wakeup is lost. *)
Theorem join_waits pending j :
  rtc join_step (join_start pending) j →
  (joiner j = Returned → leaver j ≠ Running) ∧
  leaver j ≠ Failed ∧ (leaver j ≠ Gone → is_Some (exit_step j)) ∧
  (leaver j = Leaving ∨ leaver j = Gone → joiner (waits 3 j) = Returned).
Proof.
  intros [Hf Hr]%join_reachable_ok. destruct j as [f l jn n]; cbn in *. split_and!; [done| | |].
  - intros ->. done.
  - intros Hl. unfold exit_step. cbn. destruct l; [..|done|done]; repeat case_match; eauto.
  - intros Hl. assert (f = EXITED ∧ (jn = Waiting → n = true)) as [-> Hn] by (by destruct Hl as [-> | ->]).
    destruct jn; cbn; [done|done| |done]. by rewrite Hn.
Qed.

End cleaner.

(** The joining thread 300 registers and waits, the other thread ends. *)
Lemma join_waits_witness :
  joiner (waits 300 3 (mkJoin EXITED Leaving Waiting true)) = Returned.
Proof.
  apply (join_waits 300 eq_refl false (mkJoin EXITED Leaving Waiting true)); [|by left].
  eapply rtc_l; [by apply (js_wait _ false false)|]. eapply rtc_l; [by apply (js_wait _ false false)|].
  eapply rtc_l; [by apply js_exit|]. eapply rtc_l; [by apply js_exit|]. apply rtc_refl.
Defined.

(** The joining thread can return, and its caller free the stack of the other thread,
    while that thread still has to signal and to leave [exit]. *)
Theorem join_frees_stack_in_use me pending :
  ∃ j, rtc (join_step me) (join_start pending) j ∧ joiner j = Returned ∧ leaver j = Exchanged FREE.
Proof.
  exists (mkJoin EXITED (Exchanged FREE) Returned pending). split; [|done].
  eapply rtc_l; [by apply js_exit|]. eapply rtc_l; [by apply (js_wait _ false false)|]. apply rtc_refl.
Qed.

End Cleaner.

(** ** Portals and futures *)

Module Portals.

(** The fields of [FutureBase] and [PortalBase] that change; a tasklet is its address,
    runtime/async/runtime/FutureBase.hh:68-70 *)
Record PortalBase := mkPortal { refcount : Z; _error : Error; waiting : option Z }.

(** The portals and locks of a thread by address ([Some p] is a lock on [p]), the
    tasklets that are initialised, and the results of its next system calls. *)
Record User := mkUser {
  portals : gmap Z PortalBase;
  locks : gmap Z (option Z);
  initialised : gset Z;
  sysrets : list (Z * Error)
}.

Definition upd_portal (p : Z) (f : PortalBase → PortalBase) : kernel User unit := λ s,
  match portals s !! p with
  | Some P => Done tt (mkUser (<[p := f P]> (portals s)) (locks s) (initialised s) (sysrets s))
  | None => AssertFail
  end.

Definition rd_portal (p : Z) : kernel User PortalBase := λ s,
  match portals s !! p with Some P => Done P s | None => AssertFail end.

Definition set_locks (f : gmap Z (option Z) → gmap Z (option Z)) : kernel User unit :=
  kmodify (λ s, mkUser (portals s) (f (locks s)) (initialised s) (sysrets s)).

(** A system call that returns an event: the user context and a state. *)
Definition syscall : kernel User (Z * Error) := λ s,
  match sysrets s with
  | ev :: evs => Done ev (mkUser (portals s) (locks s) (initialised s) evs)
  | [] => SpinsForever
  end.

(** *** Futures *)

Section futures.
Context (handler : Z → kernel User unit).

(** [Tasklet::operator()], runtime/async/runtime/Tasklet.hh:69-73 *)
Definition run_tasklet (t : Z) : kernel User unit :=
  s <-- kget;;
  kassert (bool_decide (t ∈ initialised s));;;
  kput (mkUser (portals s) (locks s) (initialised s ∖ {[t]}) (sysrets s));;;
  handler t.

(** [FutureBase::signal], runtime/async/runtime/FutureBase.cc:48-53 *)
Definition signal (p : Z) : kernel User unit :=
  P <-- rd_portal p;;
  match waiting P with
  | Some t => run_tasklet t;;; upd_portal p (λ P, mkPortal (refcount P) (_error P) None)
  | None => kret tt
  end.

(** [FutureBase::then], runtime/async/runtime/FutureBase.hh:56-61 *)
Definition then_ (p t : Z) : kernel User unit :=
  P <-- rd_portal p;;
  kassert (bool_decide (waiting P = None));;;
  upd_portal p (λ P, mkPortal (refcount P) (_error P) (Some t));;;
  if decide (_error P = UNSET) then kret tt else signal p.

(** [FutureBase::reset], runtime/async/runtime/FutureBase.hh:64 *)
Definition reset (p : Z) : kernel User unit :=
  upd_portal p (λ P, mkPortal (refcount P) UNSET None).

(** [FutureBase::assign], runtime/async/runtime/FutureBase.hh:65 *)
Definition assign (p : Z) (e : Error) : kernel User unit :=
  upd_portal p (λ P, mkPortal (refcount P) e (waiting P));;; signal p.

(** [ISysretHandler::handle] with [PortalBase::sysret],
    runtime/async/runtime/ISysretHandler.hh:41-43 *)
Definition handle (ev : Z * Error) : kernel User unit :=
  if ev.1 =? 0 then kret tt else assign ev.1 ev.2.

(** [FutureBase::poll], runtime/async/runtime/FutureBase.cc:32-36 *)
Definition poll (p : Z) : kernel User bool :=
  P <-- rd_portal p;;
  (if decide (_error P = UNSET) then ev <-- syscall;; handle ev else kret tt);;;
  P <-- rd_portal p;;
  kret (negb (bool_decide (_error P = UNSET))).

(** [FutureBase::wait], runtime/async/runtime/FutureBase.cc:38-46 *)
Fixpoint wait (fuel : nat) (p : Z) : kernel User bool :=
  match fuel with
  | O => λ _, SpinsForever
  | S fuel =>
    P <-- rd_portal p;;
    if decide (_error P = UNSET) then ev <-- syscall;; handle ev;;; wait fuel p
    else kret true
  end.

(** [PortalBase::invoke]; the system call returns the refusal of the invocation or
    the next event, runtime/async/runtime/PortalBase.hh:65-69 *)
Definition invoke (p : Z) : kernel User unit :=
  reset p;;; ev <-- syscall;; handle ev.

(** [PortalFuture<void>::wait] on the lock [l],
    runtime/async/runtime/PortalBase.hh:171-175 *)
Definition future_wait (fuel : nat) (l : Z) : kernel User (optional unit) :=
  s <-- kget;;
  match locks s !! l with
  | Some (Some p) =>
    w <-- wait fuel p;;
    P <-- rd_portal p;;
    kret (if w : bool then (if decide (_error P = SUCCESS) then OK tt else THROW (_error P)) else THROW UNSET)
  | _ => kret (THROW PORTAL_NOT_OPEN)
  end.

(** *** Locks *)

(** [PortalBase::acquire], runtime/async/runtime/PortalBase.hh:61 *)
Definition acquire (p : Z) : kernel User bool :=
  P <-- rd_portal p;;
  if refcount P =? 0 then upd_portal p (λ P, mkPortal 1 (_error P) (waiting P));;; kret true
  else kret false.

(** [PortalBase::incref], runtime/async/runtime/PortalBase.hh:62 *)
Definition incref (p : Z) : kernel User unit :=
  upd_portal p (λ P, mkPortal (refcount P + 1) (_error P) (waiting P)).

(** [PortalBase::release], runtime/async/runtime/PortalBase.hh:63 *)
Definition decref (p : Z) : kernel User unit :=
  upd_portal p (λ P, mkPortal (refcount P - 1) (_error P) (waiting P)).

Definition lock_portal (l : Z) : kernel User (option Z) := λ s, Done (default None (locks s !! l)) s.

(** The constructor of [PortalLock] for a portal,
    runtime/async/runtime/PortalBase.hh:86 *)
Definition PortalLock (l p : Z) : kernel User unit :=
  ok <-- acquire p;;
  set_locks <[l := if ok : bool then Some p else None]>.

(** The copy constructor of [PortalLock], runtime/async/runtime/PortalBase.hh:87 *)
Definition lock_copy (l from : Z) : kernel User unit :=
  o <-- lock_portal from;;
  set_locks <[l := o]>;;;
  match o with Some p => incref p | None => kret tt end.

(** The move constructor of [PortalLock], runtime/async/runtime/PortalBase.hh:88 *)
Definition lock_move (l from : Z) : kernel User unit :=
  o <-- lock_portal from;;
  set_locks <[l := o]>;;;
  set_locks <[from := None]>.

(** [PortalLock::release] and the destructor, runtime/async/runtime/PortalBase.hh:98 *)
Definition lock_release (l : Z) : kernel User unit :=
  o <-- lock_portal l;;
  match o with Some p => decref p | None => kret tt end;;;
  set_locks <[l := None]>.

(** [PortalLock::operator=], runtime/async/runtime/PortalBase.hh:91-96 *)
Definition lock_assign (l from : Z) : kernel User unit :=
  lock_release l;;;
  o <-- lock_portal from;;
  set_locks <[l := o]>;;;
  set_locks <[from := None]>.

(** [PortalFutureBase::then], runtime/async/runtime/PortalBase.hh:142 *)
Definition future_then (l t : Z) : kernel User unit :=
  o <-- lock_portal l;;
  match o with
  | Some p => then_ p t;;; lock_release l
  | None => λ _, AssertFail
  end.

(** *** The answer of an invocation *)

(** What an event does to the portals when no tasklet waits. *)
Definition deliver (m : gmap Z PortalBase) (ev : Z * Error) : gmap Z PortalBase :=
  if ev.1 =? 0 then m else alter (λ P, mkPortal (refcount P) ev.2 (waiting P)) ev.1 m.

(** No tasklet waits, and events are for portals of the program. *)
Definition quiet (m : gmap Z PortalBase) : Prop := map_Forall (λ _ P, waiting P = None) m.
Definition known (m : gmap Z PortalBase) (ev : Z * Error) : Prop := ev.1 = 0 ∨ is_Some (m !! ev.1).

Lemma deliver_quiet m ev : quiet m → quiet (deliver m ev).
Proof.
  intros Hq q Q. unfold deliver. destruct (ev.1 =? 0); [apply Hq|].
  rewrite lookup_alter_Some. intros [(_ & P & HP & ->)|[_ HP]]; exact (Hq _ _ HP).
Qed.

Lemma deliver_known m ev ev' : known m ev' → known (deliver m ev) ev'.
Proof.
  intros [|H]; [by left|right]. unfold deliver. destruct (ev.1 =? 0); [done|]. by rewrite lookup_alter_is_Some.
Qed.

Lemma deliver_other m p x ev :
  p ≠ ev.1 → deliver (<[p := x]> m) ev = <[p := x]> (deliver m ev).
Proof. intros Hp. unfold deliver. destruct (ev.1 =? 0); [done|]. by rewrite alter_insert_ne. Qed.

Lemma deliver_own m p e P : quiet m → p ≠ 0 → m !! p = Some P →
  deliver m (p, e) = <[p := mkPortal (refcount P) e None]> m.
Proof.
  intros Hq Hp HP. unfold deliver. cbn [fst snd]. rewrite (proj2 (Z.eqb_neq _ _) Hp), <- (Hq _ _ HP).
  apply map_eq. intros q. destruct (decide (q = p)) as [->|].
  - by rewrite lookup_insert_eq, lookup_alter_eq, HP.
  - by rewrite lookup_insert_ne, lookup_alter_ne by done.
Qed.

Lemma handle_delivers ev s : quiet (portals s) → known (portals s) ev →
  handle ev s = Done tt (mkUser (deliver (portals s) ev) (locks s) (initialised s) (sysrets s)).
Proof.
  destruct ev as [p e]. intros Hq Hk. destruct (decide (p = 0)) as [->|Hp]; [by destruct s|].
  destruct Hk as [|[P HP]]; [done|]. rewrite (deliver_own _ _ _ P) by done.
  unfold handle, assign, signal, rd_portal, kbind, upd_portal. cbn [fst snd] in *.
  rewrite (proj2 (Z.eqb_neq _ _) Hp), HP. cbn. by rewrite lookup_insert_eq, <- (Hq _ _ HP); cbn; rewrite (Hq _ _ HP).
Qed.

Lemma wait_event fuel p s P ev evs :
  quiet (portals s) → known (portals s) ev → portals s !! p = Some P → _error P = UNSET →
  sysrets s = ev :: evs →
  wait (S fuel) p s = wait fuel p (mkUser (deliver (portals s) ev) (locks s) (initialised s) evs).
Proof.
  intros Hq Hk HP HU Hs. cbn [wait].
  rewrite (kbind_run _ _ s P s), decide_True by (done || by unfold rd_portal; rewrite HP).
  rewrite (kbind_run _ _ s ev (mkUser (portals s) (locks s) (initialised s) evs)) by (unfold syscall; by rewrite Hs).
  by rewrite (kbind_run _ _ _ _ _ (handle_delivers ev (mkUser (portals s) (locks s) (initialised s) evs) Hq Hk)).
Qed.

(** Waiting takes the events up to the one for the portal. *)
Lemma wait_answer p e post : p ≠ 0 → e ≠ UNSET → ∀ pre s P fuel,
  quiet (portals s) → Forall (known (portals s)) pre → p ∉ pre.*1 →
  portals s !! p = Some P → _error P = UNSET → sysrets s = pre ++ (p, e) :: post →
  (S (length pre) < fuel)%nat →
  wait fuel p s = Done true (mkUser (<[p := mkPortal (refcount P) e None]> (foldl deliver (portals s) pre))
                               (locks s) (initialised s) post).
Proof.
  intros Hp0 He pre. induction pre as [|ev pre IH]; intros s P fuel Hq Hk Hp HP HU Hs Hf;
    cbn in Hf; (destruct fuel as [|fuel]; [lia|]).
  - rewrite (wait_event _ _ _ P (p, e) post), (deliver_own _ _ _ P) by (done || right; by eexists).
    destruct fuel as [|fuel]; [lia|]. cbn [wait foldl].
    unfold rd_portal, kbind. cbn. by rewrite lookup_insert_eq, decide_False.
  - apply Forall_cons in Hk as [Hk1 Hk]. apply not_elem_of_cons in Hp as [Hp1 Hp].
    rewrite (wait_event _ _ _ P ev (pre ++ (p, e) :: post)) by done.
    rewrite (IH (mkUser _ _ _ _) P); try done; try (cbn; lia).
    + by apply deliver_quiet.
    + eapply Forall_impl; [done|]. intros. by apply deliver_known.
    + cbn. unfold deliver. destruct (ev.1 =? 0); [done|]. by rewrite lookup_alter_ne.
Qed.

Lemma deliver_all_other p x pre : ∀ m,
  p ∉ pre.*1 → foldl deliver (<[p := x]> m) pre = <[p := x]> (foldl deliver m pre).
Proof.
  induction pre as [|ev pre IH]; intros m Hp; [done|]. rewrite fmap_cons in Hp.
  apply not_elem_of_cons in Hp as [Hp1 Hp]. cbn [foldl]. by rewrite deliver_other, IH.
Qed.

(** The system call of [invoke] is the first one of the wait behind the reset. *)
Lemma invoke_event p s P ev evs : let m := <[p := mkPortal (refcount P) UNSET None]> (portals s) in
  portals s !! p = Some P → sysrets s = ev :: evs → quiet m → known m ev →
  invoke p s = Done tt (mkUser (deliver m ev) (locks s) (initialised s) evs) ∧
  ∀ fuel, wait (S fuel) p (mkUser m (locks s) (initialised s) (sysrets s)) =
          wait fuel p (mkUser (deliver m ev) (locks s) (initialised s) evs).
Proof.
  intros m HP Hs Hq Hk. split.
  - unfold invoke, reset. rewrite (kbind_run _ _ s tt (mkUser m (locks s) (initialised s) (ev :: evs)))
      by (unfold upd_portal; by rewrite HP, <- Hs).
    rewrite (kbind_run _ _ _ ev (mkUser m (locks s) (initialised s) evs)) by done. by apply handle_delivers.
  - intros fuel. apply (wait_event _ _ (mkUser m _ _ _) (mkPortal (refcount P) UNSET None)); cbn; try done.
    unfold m. by rewrite lookup_insert_eq.
Qed.

Lemma future_wait_run fuel l p s s1 P : locks s !! l = Some (Some p) →
  wait fuel p s = Done true s1 → portals s1 !! p = Some P →
  future_wait fuel l s = Done (if decide (_error P = SUCCESS) then OK tt else THROW (_error P)) s1.
Proof.
  intros Hl Hw HP. unfold future_wait, kget, kbind at 1. rewrite Hl, (kbind_run _ _ _ _ _ Hw).
  unfold kbind, rd_portal. by rewrite HP.
Qed.


(** *** Locks count *)

(** The open locks of a portal. *)
Definition holders (p : Z) (m : gmap Z (option Z)) : Z :=
  Z.of_nat (size (filter (λ lo, lo.2 = Some p) m)).

Definition opens (p : Z) (o : option Z) : Z := if decide (o = Some p) then 1 else 0.

Lemma holders_insert_fresh p l o m : m !! l = None → holders p (<[l := o]> m) = holders p m + opens p o.
Proof.
  intros Hl. unfold holders, opens. destruct (decide (o = Some p)) as [->|Hne].
  - rewrite map_filter_insert_True, map_size_insert_None by (done || by apply map_lookup_filter_None; left). lia.
  - rewrite map_filter_insert_False, delete_id by done. lia.
Qed.

Lemma holders_insert p l o m :
  holders p (<[l := o]> m) + opens p (default None (m !! l)) = holders p m + opens p o.
Proof.
  destruct (m !! l) as [o'|] eqn:E; cbn.
  - rewrite <- (insert_delete_id m l o' E) at 2. rewrite <- insert_delete_eq.
    rewrite !holders_insert_fresh by apply lookup_delete_eq. lia.
  - rewrite holders_insert_fresh by done. unfold opens. rewrite (decide_False (P := None = Some p)) by done. lia.
Qed.

(** Every open lock is on a portal of the program, whose count is that of its locks. *)
Definition counted (s : User) : Prop :=
  (∀ l p, locks s !! l = Some (Some p) → is_Some (portals s !! p)) ∧
  (∀ p P, portals s !! p = Some P → refcount P = holders p (locks s)).

Lemma counted_next s s' : counted s →
  (∀ p, is_Some (portals s !! p) → is_Some (portals s' !! p)) →
  (∀ l p, locks s' !! l = Some (Some p) → is_Some (portals s !! p)) →
  (∀ p P, portals s' !! p = Some P → ∃ P0, portals s !! p = Some P0 ∧
     refcount P - refcount P0 = holders p (locks s') - holders p (locks s)) → counted s'.
Proof.
  intros [_ Hc] Hd Hk Hn. split; [by eauto|]. intros p P HP. destruct (Hn p P HP) as (P0 & HP0 & He).
  pose proof (Hc p P0 HP0). lia.
Qed.

Lemma opens_same p : opens p (Some p) = 1.
Proof. unfold opens. by rewrite decide_True. Qed.

Lemma opens_other p o : o ≠ Some p → opens p o = 0.
Proof. intros. unfold opens. by rewrite decide_False. Qed.

(** A change of the lock [l] with the count of one portal. *)
Lemma counted_set s s' l o p P n : counted s → portals s !! p = Some P →
  portals s' = <[p := mkPortal (refcount P + n) (_error P) (waiting P)]> (portals s) →
  locks s' = <[l := o]> (locks s) → (o = None ∨ o = Some p) →
  (default None (locks s !! l) = None ∨ default None (locks s !! l) = Some p) →
  n = opens p o - opens p (default None (locks s !! l)) → counted s'.
Proof.
  intros Hc HP Hp' Hl' Ho Hold Hn. apply (counted_next s); [done|..]; rewrite ?Hp', ?Hl'.
  - intros q ?. apply lookup_insert_is_Some'. auto.
  - intros l' q. rewrite lookup_insert_Some. intros [[_ ->]|[_ H]]; [|by apply (proj1 Hc l')].
    destruct Ho as [|Ho]; [done|]. injection Ho as ->. by eexists.
  - intros q Q. pose proof (holders_insert q l o (locks s)) as Hh.
    rewrite lookup_insert_Some. intros [[<- <-]|[Hne HQ]]; [exists P|exists Q]; (split; [done|]); cbn; [lia|].
    assert (∀ o', o' = None ∨ o' = Some p → opens q o' = 0) as Hz
      by (intros o' [-> | ->]; apply opens_other; congruence).
    rewrite !Hz in Hh by done. lia.
Qed.

Lemma decref_run p P s : portals s !! p = Some P →
  decref p s = Done tt (mkUser (<[p := mkPortal (refcount P - 1) (_error P) (waiting P)]> (portals s))
                          (locks s) (initialised s) (sysrets s)).
Proof. intros HP. unfold decref, upd_portal. by rewrite HP. Qed.

Lemma lock_release_counted l s : counted s →
  ∃ s', lock_release l s = Done tt s' ∧ counted s' ∧ locks s' = <[l := None]> (locks s) ∧
    (∀ p, is_Some (portals s !! p) → is_Some (portals s' !! p)).
Proof.
  intros Hc. unfold lock_release, lock_portal, kbind at 1.
  destruct (locks s !! l) as [[p|]|] eqn:El; cbn [default].
  { destruct (proj1 Hc l p El) as [P HP]. rewrite (kbind_run _ _ _ _ _ (decref_run p P s HP)).
    eexists. split; [reflexivity|]. split; [|split; [done|intros q ?; apply lookup_insert_is_Some'; auto]].
    eapply (counted_set s _ l None p P (-1)); rewrite ?El; cbn; rewrite ?opens_same; auto. }
  all: eexists; split; [reflexivity|]; split; [|done]; apply (counted_next s); cbn; [done|done| |].
  1, 3: intros l' p; rewrite lookup_insert_Some; intros [[_ ?]|[_ ?]]; [done|by apply (proj1 Hc l')].
  all: intros p P HP; exists P; split; [done|]; pose proof (holders_insert p l None (locks s)) as Hh;
    rewrite El in Hh; cbn in Hh; lia.
Qed.

(** Moving an open or closed lock to a variable that is closed. *)
Lemma counted_moved s s' l from : counted s → l ≠ from → default None (locks s !! l) = None →
  portals s' = portals s →
  locks s' = <[from := None]> (<[l := default None (locks s !! from)]> (locks s)) → counted s'.
Proof.
  intros Hc Hne Hl Hp Hl'. apply (counted_next s); [done|..]; rewrite ?Hp, ?Hl'; [done|..].
  - intros l' p. rewrite !lookup_insert_Some. intros [[_ ?]|[_ [[_ He]|[_ ?]]]]; [done| |by apply (proj1 Hc l')].
    destruct (locks s !! from) as [o|] eqn:E; cbn in He; [subst o|done]. by apply (proj1 Hc from).
  - intros p P HP. exists P. split; [done|].
    pose proof (holders_insert p l (default None (locks s !! from)) (locks s)).
    pose proof (holders_insert p from None (<[l := default None (locks s !! from)]> (locks s))) as H2.
    rewrite lookup_insert_ne in H2 by done. rewrite Hl in *. lia.
Qed.

(** What a program does with locks.  A constructor makes a new variable, which is not
    open yet. *)
Inductive LockOp := Open (l p : Z) | Copy (l from : Z) | Move (l from : Z) | Assign (l from : Z) | Close (l : Z).

Definition lock_op (o : LockOp) : kernel User unit :=
  match o with
  | Open l p => PortalLock l p
  | Copy l from => lock_copy l from
  | Move l from => lock_move l from
  | Assign l from => lock_assign l from
  | Close l => lock_release l
  end.

Definition allowed (o : LockOp) (s : User) : Prop :=
  match o with
  | Open l p => default None (locks s !! l) = None ∧ is_Some (portals s !! p)
  | Copy l from | Move l from => l ≠ from ∧ default None (locks s !! l) = None
  | Assign l from => l ≠ from
  | Close l => True
  end.

Lemma PortalLock_counted l p s : counted s → allowed (Open l p) s →
  ∃ s', PortalLock l p s = Done tt s' ∧ counted s' ∧
    locks s' !! l = Some (if holders p (locks s) =? 0 then Some p else None).
Proof.
  intros Hc [Hl [P HP]]. pose proof (proj2 Hc p P HP) as Hr. unfold PortalLock, acquire, rd_portal, upd_portal, kbind.
  rewrite HP, <- Hr. destruct (Z.eqb_spec (refcount P) 0) as [E|E]; [rewrite HP|]; cbn;
    eexists; (split; [reflexivity|]); (split; [|cbn; by rewrite lookup_insert_eq]).
  - eapply (counted_set s _ l (Some p) p P 1); cbn; rewrite ?E, ?Hl, ?opens_same; auto.
  - eapply (counted_set s _ l None p P 0); cbn; rewrite ?Hl; auto.
    rewrite insert_id; [done|]. by destruct P; cbn in *; rewrite Z.add_0_r.
Qed.

Lemma lock_copy_counted l from s : counted s → allowed (Copy l from) s →
  ∃ s', lock_copy l from s = Done tt s' ∧ counted s'.
Proof.
  intros Hc [Hne Hl]. unfold lock_copy, lock_portal, kbind at 1.
  destruct (default None (locks s !! from)) as [p|] eqn:E.
  - assert (is_Some (portals s !! p)) as [P HP].
    { apply (proj1 Hc from). destruct (locks s !! from); cbn in E; congruence. }
    unfold set_locks, kmodify, kbind, incref, upd_portal. cbn. rewrite HP. eexists. split; [reflexivity|].
    eapply (counted_set s _ l (Some p) p P 1); cbn; rewrite ?Hl, ?opens_same; auto.
  - eexists. split; [reflexivity|]. apply (counted_next s); cbn; [done|done| |].
    + intros l' q. rewrite lookup_insert_Some. intros [[_ ?]|[_ ?]]; [done|by apply (proj1 Hc l')].
    + intros q Q HQ. exists Q. split; [done|]. pose proof (holders_insert q l None (locks s)) as Hh.
      rewrite Hl in Hh. lia.
Qed.

(** Whatever a program does with locks, the count of a portal is the number of its
    open locks, and a lock opens exactly when no other lock of the portal is open. *)
Theorem locks_exclusive o s : counted s → allowed o s →
  ∃ s', lock_op o s = Done tt s' ∧ counted s' ∧
    match o with
    | Open l p => locks s' !! l = Some (if holders p (locks s) =? 0 then Some p else None)
    | _ => True
    end.
Proof.
  intros Hc Ha. destruct o as [l p|l from|l from|l from|l]; cbn [lock_op].
  - by apply PortalLock_counted.
  - destruct (lock_copy_counted l from s Hc Ha) as (s' & ? & ?). by eauto.
  - destruct Ha as [Hne Hl]. eexists. split; [reflexivity|]. split; [|done]. by eapply counted_moved.
  - destruct (lock_release_counted l s Hc) as (s1 & Hr & Hc1 & Hl1 & _). unfold lock_assign.
    rewrite (kbind_run _ _ _ _ _ Hr). eexists. split; [reflexivity|]. split; [|done].
    eapply (counted_moved s1 _ l from); [done|done| |done|done]. by rewrite Hl1, lookup_insert_eq.
  - destruct (lock_release_counted l s Hc) as (s1 & Hr & Hc1 & _). by eauto.
Qed.

End futures.

(** Two portals; while the thread waits for the answer to an invocation through the
    portal 1000, an empty wakeup and the answer for the portal 2000 arrive. *)
Definition two_portals : User :=
  mkUser {[1000 := mkPortal 1 SUCCESS None; 2000 := mkPortal 1 UNSET None]} {[7 := Some 1000; 8 := Some 2000]} ∅
    [(0, NO_MESSAGE); (2000, INVALID_REQUEST); (1000, LOST_RACE)].


(** The continuation of an answer that invokes the same portal again and asks for
    another continuation: the second one is dropped when the first returns, and the
    answer to the second invocation runs nothing. *)
Definition chain (t : Z) : kernel User unit :=
  if t =? 1 then invoke (λ _, kret tt) 1000;;; then_ (λ _, kret tt) 1000 2 else kret tt.

Theorem chained_continuation_lost :
  (handle chain (1000, SUCCESS);;; handle chain (1000, SUCCESS))
    (mkUser {[1000 := mkPortal 0 UNSET (Some 1)]} ∅ {[1; 2]} [(0, NO_MESSAGE)]) =
  Done tt (mkUser {[1000 := mkPortal 0 SUCCESS None]} ∅ {[2]} []).
Proof. by vm_compute. Qed.

End Portals.
