(* ===== verification/Topology.v ===== *)
(** * The hardware threads of the machine

    Models how the kernel finds the identifiers of the local interrupt controllers
    (APICs), one per hardware thread: in the tables of ACPI
    (util/sys-structures: ACPI.hh, ACPIApicTopology.cc), in those of Intel's
    multiprocessor specification (MPApicTopology.hh) and in those of the simple
    firmware interface (SFI.hh).  The tables are read in place from the physical
    memory, a function from addresses to bytes.

    In an optional result [None] is a failed assertion or a write behind an array. *)

From stdpp Require Import base tactics numbers list.
From Stdlib Require Import ZArith Lia.
From S2P Require Import Prelude Ranges Cap Heap KernelMemory Elf BootMemory.

Local Open Scope Z_scope.
Import PhysPtr.

(** The capacity of the tables of identifiers, [CPU_MAX]. *)
Definition CPU_MAX : nat := 256.

(** ** ACPI *)

Module ACPI.

(** The loop of [ACPI::sums_to_zero]; the characters are signed,
    util/sys-structures/util/ACPI.hh:38-44 *)
Fixpoint sum_chars (n : nat) (a sum : Z) (b : Z → Z) : Z :=
  match n with
  | O => sum
  | S n => sum_chars n (a + 1) (sum + char (b a)) b
  end.
Definition sums_to_zero (a len : Z) (b : Z → Z) : bool :=
  if len =? 0 then false else Z.land (sum_chars (Z.to_nat len) a 0 b) 0xff =? 0.

(** [ACPI]: the header of 36 bytes with the signature and the length,
    util/sys-structures/util/ACPI.hh:46-60 *)
Definition signature (a : Z) (b : Z → Z) : Z := le 4 a b.
Definition table_length (a : Z) (b : Z → Z) : Z := le 4 (a + 4) b.
Definition sizeof_ACPI : Z := 36.
Definition MADT_signature : Z := 0x43495041.

(** [ACPI::check_sum], util/sys-structures/util/ACPI.hh:64 *)
Definition check_sum (a : Z) (b : Z → Z) : bool := sums_to_zero a (table_length a b) b.

(** [RSDP::find] for [n] more positions, util/sys-structures/util/ACPI.hh:177-185 *)
Fixpoint find (n : nat) (search : Z) (b : Z → Z) : option Z :=
  match n with
  | O => None
  | S n =>
    if negb (le 4 search b =? 0x20445352) then find n (search + 16) b
    else if negb (le 4 (search + 4) b =? 0x20525450) then find n (search + 16) b
    else Some search
  end.

(** [RSDP::getRSDTPtr], util/sys-structures/util/ACPI.hh:195 *)
Definition getRSDTPtr (rsdp : Z) (b : Z → Z) : Z := le 4 (rsdp + 16) b.

(** [RSDT::getNumSDTPtrs], util/sys-structures/util/ACPI.hh:137 *)
Definition getNumSDTPtrs (rsdt : Z) (b : Z → Z) : Z := u64 (table_length rsdt b - sizeof_ACPI) / 4.

(** [RSDT::getSDTPtr], util/sys-structures/util/ACPI.hh:140 *)
Definition getSDTPtr (rsdt num : Z) (b : Z → Z) : Z := le 4 (rsdt + sizeof_ACPI + 4 * num) b.

(** The loop of [ACPIApicTopology] over the tables, which keeps the last MADT,
    util/sys-structures/util/ACPIApicTopology.cc:49-54 *)
Fixpoint find_madt (n : nat) (rsdt i : Z) (b : Z → Z) (madt : option Z) : option Z :=
  match n with
  | O => madt
  | S n =>
    let entry := getSDTPtr rsdt i b in
    find_madt n rsdt (i + 1) b (if signature entry b =? MADT_signature then Some entry else madt)
  end.

(** [MADT]: the flags and the entries behind 44 bytes, util/sys-structures/util/ACPI.hh:112-122 *)
Definition has_PCAT_COMPAT (madt : Z) (b : Z → Z) : bool := negb (Z.land (le 4 (madt + 40) b) 1 =? 0).
Definition madt_begin (madt : Z) : Z := madt + 44.
Definition madt_end (madt : Z) (b : Z → Z) : Z := madt + table_length madt b.

(** [APICEntry], util/sys-structures/util/ACPI.hh:67-75 *)
Definition LOCAL_APIC : Z := 0.
Definition IO_APIC : Z := 1.
Definition entry_type (e : Z) (b : Z → Z) : Z := b e.
Definition entry_length (e : Z) (b : Z → Z) : Z := b (e + 1).

(** [LAPICEntry], util/sys-structures/util/ACPI.hh:78-86 *)
Definition lapic_id (e : Z) (b : Z → Z) : Z := b (e + 3).
Definition isEnabled (e : Z) (b : Z → Z) : bool := negb (Z.land (le 4 (e + 4) b) 1 =? 0).

(** [ACPIApicTopology], util/sys-structures/util/ACPIApicTopology.hh:36-45 *)
Record ACPIApicTopology := mkTopology {
  systemDetected : bool; lapicIDs : list Z; ioApic : option Z; disablePICs : bool }.

(** The body of the loop over the entries of the MADT,
    util/sys-structures/util/ACPIApicTopology.cc:63-93 *)
Definition madt_entry (e : Z) (b : Z → Z) (t : ACPIApicTopology) : ACPIApicTopology :=
  if entry_type e b =? LOCAL_APIC then
    if negb (isEnabled e b) then t
    else if bool_decide (length (lapicIDs t) = CPU_MAX) then t
    else mkTopology (systemDetected t) (lapicIDs t ++ [lapic_id e b]) (ioApic t) (disablePICs t)
  else if entry_type e b =? IO_APIC then mkTopology (systemDetected t) (lapicIDs t) (Some e) (disablePICs t)
  else t.

(** The loop over the entries, util/sys-structures/util/ACPIApicTopology.cc:61-94 *)
Fixpoint madt_loop (fuel : nat) (e end_ : Z) (b : Z → Z) (t : ACPIApicTopology) : option ACPIApicTopology :=
  if e <? end_ then
    match fuel with
    | O => None
    | S fuel =>
      if entry_length e b =? 0 then Some t
      else madt_loop fuel (e + entry_length e b) end_ b (madt_entry e b t)
    end
  else Some t.

(** The search for the root pointer, util/sys-structures/util/ACPIApicTopology.cc:39-43 *)
Definition find_rsdp (b : Z → Z) : option Z :=
  let ebdaBase := le 2 0x040E b in
  match find (Z.to_nat ((0x100000 - 0xe0000) / 16)) 0xe0000 b with
  | Some r => Some r
  | None => find (Z.to_nat (4096 / 16)) (Z.shiftl ebdaBase 4) b
  end.

(** [ACPIApicTopology::ACPIApicTopology]; [pics] is the value of [disablePICs] before,
    util/sys-structures/util/ACPIApicTopology.cc:32-97 *)
Definition topology (b : Z → Z) (pics : bool) : option ACPIApicTopology :=
  let none := mkTopology false [] None pics in
  match find_rsdp b with
  | None => Some none
  | Some rsdp =>
    let rsdt := getRSDTPtr rsdp b in
    match find_madt (Z.to_nat (getNumSDTPtrs rsdt b)) rsdt 0 b None with
    | None => Some none
    | Some madt =>
      let t := mkTopology false [] None (has_PCAT_COMPAT madt b || pics) in
      t ← madt_loop (Z.to_nat (table_length madt b)) (madt_begin madt) (madt_end madt b) b t;
      Some (mkTopology true (lapicIDs t) (ioApic t) (disablePICs t))
    end
  end.
End ACPI.

(** ** The tables of the multiprocessor specification *)

Module MP.

(** [IntelMP::FPStructure]: the address of the configuration table,
    util/sys-structures/util/MPApicTopology.hh:41-49 *)
Definition configuration_table (fp : Z) (b : Z → Z) : Z := le 4 (fp + 4) b.

(** [IntelMP::ConfigurationTable]: 44 bytes, util/sys-structures/util/MPApicTopology.hh:51-65 *)
Definition sizeof_ConfigurationTable : Z := 44.
Definition base_table_length (t : Z) (b : Z → Z) : Z := le 2 (t + 4) b.
Definition entry_count (t : Z) (b : Z → Z) : Z := le 2 (t + 34) b.

(** [IntelMP::EntryProcessor], util/sys-structures/util/MPApicTopology.hh:78-85 *)
Definition local_apic_id (e : Z) (b : Z → Z) : Z := b (e + 1).
Definition usable_processor (e : Z) (b : Z → Z) : bool := negb (Z.land (b (e + 3)) 0x01 =? 0).

(** [IntelMP::EntryIOApic], util/sys-structures/util/MPApicTopology.hh:92-97 *)
Definition ioapic_entry_address (e : Z) (b : Z → Z) : Z := le 4 (e + 4) b.

(** [MPApicTopology::EntryTypes], util/sys-structures/util/MPApicTopology.hh:206-216 *)
Definition PROCESSOR : Z := 0.
Definition IOAPIC : Z := 2.

(** [MPApicTopology], util/sys-structures/util/MPApicTopology.hh:236-239 *)
Record MPApicTopology := mkMP { mp_lapicIDs : list Z; ioapic : Z }.

(** The body of the loop over the entries: the step to the next entry and the
    topology, util/sys-structures/util/MPApicTopology.hh:159-185 *)
Definition mp_entry (e : Z) (b : Z → Z) (t : MPApicTopology) : option (Z * MPApicTopology) :=
  if b e =? PROCESSOR then
    if usable_processor e b then
      if bool_decide (length (mp_lapicIDs t) < CPU_MAX)%nat
      then Some (20, mkMP (mp_lapicIDs t ++ [local_apic_id e b]) (ioapic t))
      else None
    else Some (20, t)
  else if b e =? IOAPIC then Some (8, mkMP (mp_lapicIDs t) (ioapic_entry_address e b))
  else Some (8, t).

(** The loop with [n] entries left, util/sys-structures/util/MPApicTopology.hh:158-186 *)
Fixpoint mp_loop (n : nat) (baseEntries pos len : Z) (b : Z → Z) (t : MPApicTopology) : option MPApicTopology :=
  match n with
  | O => Some t
  | S n =>
    if pos <? len then
      r ← mp_entry (baseEntries + pos) b t;
      mp_loop n baseEntries (pos + r.1) len b r.2
    else Some t
  end.

(** [MPApicTopology::findMP] for [n] more positions,
    util/sys-structures/util/MPApicTopology.hh:196-204 *)
Fixpoint findMP (n : nat) (search : Z) (b : Z → Z) : option Z :=
  match n with
  | O => None
  | S n => if le 4 search b =? 0x5F504D5F then Some search else findMP n (search + 16) b
  end.

(** The loop of [findMP] counts words of four bytes. *)
Definition positions (len : Z) : nat := Z.to_nat ((len + 3) / 4).

(** [MPApicTopology::MPApicTopology], util/sys-structures/util/MPApicTopology.hh:142-187 *)
Definition mp_topology (b : Z → Z) : option MPApicTopology :=
  fp ← findMP (positions (0x0fffff - 0x0f0000)) 0x0f0000 b;
  let configTable := configuration_table fp b in
  mp_loop (Z.to_nat (entry_count configTable b)) (configTable + sizeof_ConfigurationTable) 0
    (base_table_length configTable b) b (mkMP [] 0).
End MP.

(** ** The simple firmware interface *)

Module SFITopology.

(** [SFIInfo::numThreads], util/sys-structures/util/SFI.hh:247-251 *)
Definition sfi_numThreads (cpus : Z) (b : Z → Z) : Z := SFI.entries_of 4 cpus b.

(** [SFIInfo::threadID], util/sys-structures/util/SFI.hh:252-256 *)
Definition sfi_threadID (cpus idx : Z) (b : Z → Z) : Z := le 4 (cpus + SFI.sizeof_Base + 4 * idx) b.

(** [SFIInfo::SFIInfo] and the identifiers of all hardware threads; the assertion of
    [numThreads] fails without a table of processors,
    util/sys-structures/util/SFI.hh:218-226 *)
Definition sfi_topology (b : Z → Z) : option (list Z) :=
  syst ← SFI.find_syst b;
  cpus ← SFI.table SFI.CPUS syst b;
  cpus ← cpus;
  Some ((λ i, sfi_threadID cpus (Z.of_nat i) b) <$> seq 0 (Z.to_nat (sfi_numThreads cpus b))).
End SFITopology.

(** ** Tables in memory *)

(** The bytes [l] are at the address [a]. *)
Fixpoint stored (b : Z → Z) (a : Z) (l : list Z) : Prop :=
  match l with
  | [] => True
  | x :: l => b a = x ∧ stored b (a + 1) l
  end.

Lemma stored_app b a l l' : stored b a (l ++ l') ↔ stored b a l ∧ stored b (a + Z.of_nat (length l)) l'.
Proof.
  revert a. induction l as [|x l IH]; intros a; cbn [app stored length]; [by rewrite Z.add_0_r; tauto|].
  rewrite IH. replace (a + 1 + Z.of_nat (length l)) with (a + Z.of_nat (S (length l))) by lia. tauto.
Qed.

(** The little-endian bytes of a word. *)
Fixpoint word (n : nat) (v : Z) : list Z :=
  match n with
  | O => []
  | S n => v mod 256 :: word n (v / 256)
  end.

Lemma le_stored n a v b : stored b a (word n v) → 0 ≤ v < 256 ^ Z.of_nat n → le n a b = v.
Proof.
  revert a v. induction n as [|n IH]; intros a v; cbn [word stored le].
  - change (256 ^ Z.of_nat 0) with 1. lia.
  - intros [Hx Hs] Hv. rewrite Nat2Z.inj_succ, Z.pow_succ_r in Hv by lia.
    rewrite Hx, (IH (a + 1) (v / 256) Hs); [pose proof (Z.div_mod v 256); lia|].
    split; [apply Z.div_pos; lia|apply Z.div_lt_upper_bound; lia].
Qed.

Lemma length_word n v : length (word n v) = n.
Proof. revert v. induction n as [|n IH]; intros v; cbn; [done|]. by rewrite IH. Qed.

(** ** ACPI tables are read back *)

Section acpi_tables.
Import ACPI.

(** The entries of a MADT: local APICs and anything else. *)
Inductive madt_item := Local (processor apic flags : Z) | Other (type : Z) (payload : list Z).

Definition encode_madt (i : madt_item) : list Z :=
  match i with
  | Local p a f => [0; 8; p; a] ++ word 4 f
  | Other t l => [t; 2 + Z.of_nat (length l)] ++ l
  end.

Definition madt_item_ok (i : madt_item) : Prop :=
  match i with Local _ _ f => 0 ≤ f < 2 ^ 32 | Other t _ => t ≠ LOCAL_APIC end.

(** The enabled hardware threads. *)
Definition enabled (i : madt_item) : option Z :=
  match i with
  | Local _ a f => if Z.odd f then Some a else None
  | Other _ _ => None
  end.

Lemma land_1_odd f : (negb (Z.land f 1 =? 0)) = Z.odd f.
Proof.
  change 1 with (Z.ones 1). rewrite Z.land_ones by lia. change (2 ^ 1) with 2.
  rewrite Zmod_odd. by destruct (Z.odd f).
Qed.

(** One entry appends its identifier when it is enabled and there is room. *)
Lemma madt_entry_run e b t i :
  stored b e (encode_madt i) → madt_item_ok i → (length (lapicIDs t) ≤ CPU_MAX)%nat →
  ∃ io, madt_entry e b t = mkTopology (systemDetected t)
      (take CPU_MAX (lapicIDs t ++ option_list (enabled i))) io (disablePICs t) ∧
    entry_length e b = Z.of_nat (length (encode_madt i)) ∧ 0 < entry_length e b.
Proof.
  intros Hs Hok Hl. destruct t as [sd ids io pics]. cbn [lapicIDs systemDetected ioApic disablePICs] in *.
  unfold madt_entry, entry_type, entry_length. destruct i as [p a f|ty l].
  - change (encode_madt (Local p a f)) with ([0; 8; p; a] ++ word 4 f) in *.
    apply stored_app in Hs as [(H0 & H1 & _ & H3 & _) Hw]. rewrite H0, H1. cbn [Z.eqb lapicIDs].
    apply le_stored in Hw; [|done]. unfold isEnabled, lapic_id. change (Z.of_nat (length [0; 8; p; a])) with 4 in Hw.
    rewrite Hw, land_1_odd. replace (e + 3) with (e + 1 + 1 + 1) by lia. rewrite H3. exists io.
    split; [|by rewrite length_app, length_word]. cbn [enabled].
    destruct (Z.odd f); cbn [negb option_list]; [|by rewrite app_nil_r, take_ge].
    case_bool_decide as Hc; [by rewrite <-Hc, take_app_length|].
    rewrite take_ge; [done|]. rewrite length_app. cbn. lia.
  - change (encode_madt (Other ty l)) with ([ty; 2 + Z.of_nat (length l)] ++ l) in *.
    apply stored_app in Hs as [(H0 & H1 & _) _]. rewrite H0, H1. cbn in Hok.
    rewrite (proj2 (Z.eqb_neq ty LOCAL_APIC)) by done. cbn [enabled option_list]. rewrite app_nil_r, take_ge by done.
    destruct (ty =? IO_APIC); eexists; (split; [done|]); rewrite length_app; cbn [length]; lia.
Qed.

Lemma take_app_take {A} n (l l' l'' : list A) : take n (take n (l ++ l') ++ l'') = take n (l ++ l' ++ l'').
Proof.
  rewrite app_assoc. destruct (decide (length (l ++ l') ≤ n)%nat) as [Hn|Hn].
  - by rewrite (take_ge (l ++ l')).
  - rewrite (take_app_le (take n (l ++ l'))) by (rewrite length_take; lia).
    rewrite (take_app_le (l ++ l')) by lia. by rewrite take_take, Nat.min_id.
Qed.

Lemma madt_loop_run fuel e b items t :
  stored b e (concat (encode_madt <$> items)) → Forall madt_item_ok items → (length (lapicIDs t) ≤ CPU_MAX)%nat →
  (length (concat (encode_madt <$> items)) ≤ fuel)%nat →
  ∃ io, madt_loop fuel e (e + Z.of_nat (length (concat (encode_madt <$> items)))) b t =
    Some (mkTopology (systemDetected t) (take CPU_MAX (lapicIDs t ++ omap enabled items)) io (disablePICs t)).
Proof.
  revert fuel e t. induction items as [|i items IH]; intros fuel e t Hs Hok Hl Hf.
  { cbn [fmap list_fmap concat length]. exists (ioApic t). cbn [omap list_omap].
    rewrite app_nil_r, take_ge by done. destruct t. destruct fuel; cbn; by rewrite (proj2 (Z.ltb_ge _ _)) by lia. }
  cbn [fmap list_fmap concat] in *. rewrite length_app in *. apply stored_app in Hs as [Hi Hs].
  apply Forall_cons in Hok as [Hoki Hok].
  destruct (madt_entry_run e b t i Hi Hoki Hl) as (io & Et & Elen & Hpos).
  destruct fuel as [|fuel]; [lia|]. cbn [madt_loop]. rewrite (proj2 (Z.ltb_lt _ _)), (proj2 (Z.eqb_neq _ 0)), Et by lia.
  set (t' := mkTopology _ _ _ _).
  destruct (IH fuel (e + entry_length e b) t') as (io' & E'); [by rewrite Elen|done| |lia|].
  { unfold t'. cbn [lapicIDs]. rewrite length_take. lia. }
  exists io'. replace (e + Z.of_nat (length (encode_madt i) + length (concat (encode_madt <$> items))))
    with (e + entry_length e b + Z.of_nat (length (concat (encode_madt <$> items)))) by lia.
  rewrite E'. unfold t'. cbn [lapicIDs systemDetected disablePICs omap list_omap]. rewrite take_app_take.
  by destruct (enabled i).
Qed.

(** C40: [ACPIApicTopology] finds the hardware threads.  For a MADT with any entries the
    constructor terminates, and the identifiers are those of the local APICs that
    are enabled, in order, and at most 256 of them. *)
Theorem acpi_topology_roundtrip b pics rsdp madt items :
  find_rsdp b = Some rsdp →
  let rsdt := getRSDTPtr rsdp b in
  find_madt (Z.to_nat (getNumSDTPtrs rsdt b)) rsdt 0 b None = Some madt →
  Forall madt_item_ok items → stored b (madt + 44) (concat (encode_madt <$> items)) →
  table_length madt b = 44 + Z.of_nat (length (concat (encode_madt <$> items))) →
  ∃ io, topology b pics =
    Some (mkTopology true (take CPU_MAX (omap enabled items)) io (has_PCAT_COMPAT madt b || pics)).
Proof.
  intros Hr rsdt Hm Hok Hs Hl. unfold topology. rewrite Hr. fold rsdt. rewrite Hm.
  destruct (madt_loop_run (Z.to_nat (table_length madt b)) (madt_begin madt) b items
    (mkTopology false [] None (has_PCAT_COMPAT madt b || pics))) as (io & E); [done|done|cbn; lia|lia|].
  exists io. unfold madt_end. rewrite Hl.
  replace (madt + (44 + Z.of_nat (length (concat (encode_madt <$> items)))))
    with (madt_begin madt + Z.of_nat (length (concat (encode_madt <$> items)))) by (unfold madt_begin; lia).
  rewrite <-Hl, E. done.
Qed.
End acpi_tables.

(** ** Multiprocessor tables are read back *)

Section mp_tables.
Import MP.

Inductive mp_item :=
  | Processor (apic version flags : Z) (rest : list Z)
  | IoApic (id version flags address : Z)
  | Misc (type : Z) (payload : list Z).

Definition encode_mp (i : mp_item) : list Z :=
  match i with
  | Processor a v f rest => [0; a; v; f] ++ rest
  | IoApic d v f a => [2; d; v; f] ++ word 4 a
  | Misc t l => t :: l
  end.

Definition mp_item_ok (i : mp_item) : Prop :=
  match i with
  | Processor _ _ _ rest => length rest = 16%nat
  | IoApic _ _ _ a => 0 ≤ a < 2 ^ 32
  | Misc t l => t ≠ PROCESSOR ∧ t ≠ IOAPIC ∧ length l = 7%nat
  end.

(** The processors that can be used. *)
Definition mp_usable (i : mp_item) : option Z :=
  match i with Processor a _ f _ => if Z.odd f then Some a else None | _ => None end.
Definition mp_io (i : mp_item) (io : Z) : Z := match i with IoApic _ _ _ a => a | _ => io end.

Lemma mp_entry_run e b t i :
  stored b e (encode_mp i) → mp_item_ok i →
  mp_entry e b t =
    if decide (length (mp_lapicIDs t ++ option_list (mp_usable i)) ≤ CPU_MAX ∨ mp_usable i = None)%nat
    then Some (Z.of_nat (length (encode_mp i)), mkMP (mp_lapicIDs t ++ option_list (mp_usable i)) (mp_io i (ioapic t)))
    else None.
Proof.
  intros Hs Hok. destruct t as [ids io]. unfold mp_entry. cbn [mp_lapicIDs ioapic].
  destruct i as [a v f rest|d v f a|ty l]; cbn [mp_usable mp_io mp_item_ok] in *.
  - change (encode_mp (Processor a v f rest)) with ([0; a; v; f] ++ rest) in *.
    apply stored_app in Hs as [(H0 & H1 & _ & H3 & _) _]. rewrite H0. cbn [Z.eqb PROCESSOR].
    unfold usable_processor, local_apic_id. rewrite H1. replace (e + 3) with (e + 1 + 1 + 1) by lia.
    rewrite H3, land_1_odd. change (length ([0; a; v; f] ++ rest)) with (4 + length rest)%nat. rewrite Hok.
    destruct (Z.odd f); [change (option_list (Some a)) with [a]|change (option_list None) with (@nil Z)].
    + rewrite length_app. change (length [a]) with 1%nat. case_bool_decide.
      * by rewrite decide_True by (left; lia).
      * rewrite decide_False; [done|]. intros [?|?]; [lia|done].
    + rewrite app_nil_r, decide_True by auto. done.
  - change (encode_mp (IoApic d v f a)) with ([2; d; v; f] ++ word 4 a) in *.
    apply stored_app in Hs as [(H0 & _) Hw]. apply le_stored in Hw; [|done]. rewrite H0. cbn [Z.eqb].
    change (2 =? PROCESSOR) with false. change (2 =? IOAPIC) with true. cbn iota.
    unfold ioapic_entry_address. change (Z.of_nat (length [2; d; v; f])) with 4 in Hw. rewrite Hw.
    rewrite decide_True by auto. cbn [option_list]. by rewrite app_nil_r.
  - destruct Hs as [H0 _]. destruct Hok as (Hp & Hi & Hl). rewrite H0.
    rewrite (proj2 (Z.eqb_neq ty PROCESSOR)), (proj2 (Z.eqb_neq ty IOAPIC)) by done.
    rewrite decide_True by auto. cbn [option_list encode_mp length]. by rewrite app_nil_r, Hl.
Qed.

(** The loop reads all entries; it fails exactly when there are more processors than
    the array of identifiers holds. *)
Lemma mp_loop_run base pos len b items t :
  stored b (base + pos) (concat (encode_mp <$> items)) → Forall mp_item_ok items →
  (length (mp_lapicIDs t) ≤ CPU_MAX)%nat →
  pos + Z.of_nat (length (concat (encode_mp <$> items))) ≤ len →
  mp_loop (length items) base pos len b t =
    if decide (length (mp_lapicIDs t ++ omap mp_usable items) ≤ CPU_MAX)%nat
    then Some (mkMP (mp_lapicIDs t ++ omap mp_usable items) (foldl (λ io i, mp_io i io) (ioapic t) items))
    else None.
Proof.
  revert pos t. induction items as [|i items IH]; intros pos t Hs Hok Hl Hlen.
  { cbn [omap list_omap length mp_loop foldl]. rewrite app_nil_r, decide_True by done. by destruct t. }
  cbn [fmap list_fmap concat] in *. rewrite length_app in Hlen. apply stored_app in Hs as [Hi Hs].
  apply Forall_cons in Hok as [Hoki Hok]. cbn [length mp_loop foldl].
  assert (0 < length (encode_mp i))%nat by (destruct i; cbn; lia).
  rewrite (proj2 (Z.ltb_lt _ _)) by lia. rewrite (mp_entry_run _ _ _ _ Hi Hoki).
  change (omap mp_usable (i :: items)) with
    (match mp_usable i with Some y => y :: omap mp_usable items | None => omap mp_usable items end).
  assert (mp_lapicIDs t ++ match mp_usable i with Some y => y :: omap mp_usable items | None => omap mp_usable items end
    = (mp_lapicIDs t ++ option_list (mp_usable i)) ++ omap mp_usable items) as ->.
  { rewrite <-app_assoc. by destruct (mp_usable i). }
  destruct (decide (_ ∨ _)) as [Hd|Hd]; cbn [mbind option_bind fst snd].
  - rewrite IH; cbn [mp_lapicIDs ioapic]; [done| |done| |lia].
    + replace (base + (pos + Z.of_nat (length (encode_mp i)))) with (base + pos + Z.of_nat (length (encode_mp i))) by lia. done.
    + destruct Hd as [Hd|Hd]; [done|]. rewrite Hd. cbn [option_list]. by rewrite app_nil_r.
  - rewrite decide_False; [done|]. rewrite length_app. intros Hle. apply Hd. left. lia.
Qed.

(** [MPApicTopology] finds the processors that can be used and the address of the
    last interrupt controller; with more than 256 processors it writes behind its
    array. *)
Lemma mp_topology_roundtrip b fp items :
  findMP (positions (0x0fffff - 0x0f0000)) 0x0f0000 b = Some fp →
  let table := configuration_table fp b in
  Forall mp_item_ok items → stored b (table + 44) (concat (encode_mp <$> items)) →
  entry_count table b = Z.of_nat (length items) →
  Z.of_nat (length (concat (encode_mp <$> items))) ≤ base_table_length table b →
  mp_topology b =
    if decide (length (omap mp_usable items) ≤ CPU_MAX)%nat
    then Some (mkMP (omap mp_usable items) (foldl (λ io i, mp_io i io) 0 items))
    else None.
Proof.
  intros Hf table Hok Hs Hc Hl. unfold mp_topology. rewrite Hf. cbn [mbind option_bind]. fold table.
  rewrite Hc, Nat2Z.id. rewrite (mp_loop_run _ 0 _ _ items); [done| |done|cbn; lia|lia].
  by rewrite Z.add_0_r.
Qed.

(** The scan for the structure ends 192 KiB behind the area it is meant for: the
    length in bytes is added to a pointer to words. *)
Lemma findMP_overruns : 0x0f0000 + 16 * (Z.of_nat (positions (0x0fffff - 0x0f0000)) - 1) = 0x12fff0.
Proof. vm_compute. reflexivity. Qed.
End mp_tables.

(** ** An example *)

(** A machine with the APICs 0 and 2; the APIC 1 is not enabled. *)
Definition example_items : list madt_item :=
  [Local 0 0 1; Local 1 1 0; Other 1 [7; 0; 0; 0; 192; 254; 0; 0; 0; 0]; Local 2 2 1].

Fixpoint put_list (a : Z) (l : list Z) (b : Z → Z) : Z → Z :=
  match l with
  | [] => b
  | x :: l => upd_byte a x (put_list (a + 1) l b)
  end.

Definition acpi_memory : Z → Z :=
  put_list 0xe0010 (word 8 0x2052545020445352)
  (put_list 0xe0020 (word 4 0x1000)
  (put_list 0x1004 (word 4 40) (put_list 0x1024 (word 4 0x2000)
  (put_list 0x2000 (word 4 0x43495041) (put_list 0x2004 (word 4 80)
  (put_list 0x202c (concat (encode_madt <$> example_items)) (λ _, 0))))))).

Lemma acpi_topology_roundtrip_witness :
  ∃ io, ACPI.topology acpi_memory false = Some (ACPI.mkTopology true [0; 2] io false).
Proof.
  apply (acpi_topology_roundtrip acpi_memory false 0xe0010 0x2000 example_items).
  - vm_compute. reflexivity.
  - vm_compute. reflexivity.
  - repeat constructor; cbn; try lia; done.
  - vm_compute. repeat split.
  - vm_compute. reflexivity.
Defined.
