(* ===== verification/HWThreads.v ===== *)
(** * Start of the hardware threads

    Models the descriptor tables of the processor (cpu/segments-amd64 and
    IRQDescriptorAmd64.hh, IdtAmd64.cc of cpu/kernel-entry-amd64), the memory of which
    every hardware thread has its own copy (cpu/core-local-memory), and how
    boot/apboot-common and the [apboot] functions prepare the hardware threads that
    Topology.v found.

    A bit field of a descriptor is a field of a record.  The instructions that load
    the tables are the state of the hardware thread after the start; the
    configuration of the local APIC and of the system call registers is left
    out. *)

From stdpp Require Import base tactics numbers list gmap.
From Stdlib Require Import ZArith Lia.
From S2P Require Import Prelude Ranges Bitfield Cap CapEntry CapRing CapSteps CapOps Heap KernelMemory Frame PageTable PageMap PageWalk CapSlots PageMapping PageMapInit KernelSpace.

Local Open Scope Z_scope.

(** ** Segment descriptors *)

Module Segments.

(** [SegmentDescriptor], cpu/segments-amd64/cpu/SegmentDescriptor.hh:111-113 *)
Record SegmentDescriptor := mkSegment {
  limit0 : Z; base0 : Z; base16 : Z; type : Z; dpl : Z; present : Z;
  limit16 : Z; avl : Z; longmode : Z; db : Z; granularity : Z; base24 : Z }.

(** [SegmentDescriptor::setBaseAddress], cpu/segments-amd64/cpu/SegmentDescriptor.hh:99-103 *)
Definition setBaseAddress (base : Z) (d : SegmentDescriptor) : SegmentDescriptor :=
  mkSegment (limit0 d) (Z.land base 0xFFFF) (u8 (Z.shiftr base 16)) (type d) (dpl d) (present d)
    (limit16 d) (avl d) (longmode d) (db d) (granularity d) (u8 (Z.shiftr base 24)).

(** [SegmentDescriptor::setSegmentLimit], cpu/segments-amd64/cpu/SegmentDescriptor.hh:105-108 *)
Definition setSegmentLimit (limit : Z) (d : SegmentDescriptor) : SegmentDescriptor :=
  mkSegment (u16 limit) (base0 d) (base16 d) (type d) (dpl d) (present d)
    (Z.land (Z.shiftr limit 16) 0xF) (avl d) (longmode d) (db d) (granularity d) (base24 d).

(** [SegmentDescriptor::set], cpu/segments-amd64/cpu/SegmentDescriptor.hh:77-87 *)
Definition set (priv ty base limit gran : Z) (d_b code_64_bit pres : bool) (d : SegmentDescriptor)
    : SegmentDescriptor :=
  setSegmentLimit limit (setBaseAddress base
    (mkSegment (limit0 d) (base0 d) (base16 d) (Z.land ty 0x1F) (Z.land priv 0x3) (Z.b2z pres)
       (limit16 d) (avl d) (Z.b2z code_64_bit) (Z.b2z d_b) (Z.land gran 1) (base24 d))).

(** [SegmentDescriptor::getBaseAddress], cpu/segments-amd64/cpu/SegmentDescriptor.hh:94 *)
Definition getBaseAddress (d : SegmentDescriptor) : Z :=
  u32 (Z.lor (Z.lor (base0 d) (Z.shiftl (base16 d) 16)) (Z.shiftl (base24 d) 24)).

(** [SegmentDescriptor::getSegmentLimit], cpu/segments-amd64/cpu/SegmentDescriptor.hh:95 *)
Definition getSegmentLimit (d : SegmentDescriptor) : Z := u32 (Z.lor (limit0 d) (Z.shiftl (limit16 d) 16)).

(** The eight bytes of a descriptor: the bit fields in the order of their
    declaration. *)
Definition encode (d : SegmentDescriptor) : Z :=
  limit0 d + Z.shiftl (base0 d) 16 + Z.shiftl (base16 d) 32 + Z.shiftl (type d) 40 + Z.shiftl (dpl d) 45 +
  Z.shiftl (present d) 47 + Z.shiftl (limit16 d) 48 + Z.shiftl (avl d) 52 + Z.shiftl (longmode d) 53 +
  Z.shiftl (db d) 54 + Z.shiftl (granularity d) 55 + Z.shiftl (base24 d) 56.

(** A bit of the byte [k / 8] of a word, moved back to its place. *)
Lemma byte_testbit w x k i :
  0 ≤ k → 0 ≤ w → 0 ≤ i →
  Z.testbit (Z.shiftl (wrap w (Z.shiftr x k)) k) i = (k <=? i) && (i <? k + w) && Z.testbit x i.
Proof.
  intros Hk Hw Hi. rewrite Z.shiftl_spec by lia. destruct (Z.leb_spec k i); cbn [andb].
  - rewrite wrap_testbit, Z.shiftr_spec by lia. replace (i - k + k) with i by lia.
    f_equal. destruct (Z.ltb_spec (i - k) w), (Z.ltb_spec i (k + w)); lia || done.
  - apply Z.testbit_neg_r. lia.
Qed.

(** The address is read back, whatever was stored before. *)
Lemma base_roundtrip base d : fits 32 base → getBaseAddress (setBaseAddress base d) = base.
Proof.
  intros Hb. unfold getBaseAddress, setBaseAddress. cbn [base0 base16 base24].
  change 0xFFFF with (Z.ones 16). apply Z.bits_inj'. intros i Hi.
  rewrite wrap_testbit, !Z.lor_spec, Z.land_spec, Z.testbit_ones_nonneg, !byte_testbit by lia.
  destruct (Z.testbit base i) eqn:E.
  - assert (i < 32) by (destruct (Z.lt_ge_cases i 32) as [|Hge]; [done|]; by rewrite (fits_testbit 32 base i) in E).
    rewrite !andb_true_r. destruct (Z.ltb_spec i 16), (Z.leb_spec 16 i), (Z.ltb_spec i (16 + 8)), (Z.leb_spec 24 i),
      (Z.ltb_spec i (24 + 8)), (Z.ltb_spec i 32); done || lia.
  - by rewrite !andb_false_r.
Qed.

Lemma limit_roundtrip limit d : fits 20 limit → getSegmentLimit (setSegmentLimit limit d) = limit.
Proof.
  intros Hb. unfold getSegmentLimit, setSegmentLimit. cbn [limit0 limit16].
  assert (Z.land (Z.shiftr limit 16) 0xF = wrap 4 (Z.shiftr limit 16)) as ->
    by (change 0xF with (Z.ones 4); by rewrite Z.land_ones by lia).
  apply Z.bits_inj'. intros i Hi.
  rewrite wrap_testbit, Z.lor_spec, wrap_testbit, byte_testbit by lia.
  destruct (Z.testbit limit i) eqn:E.
  - assert (i < 20) by (destruct (Z.lt_ge_cases i 20) as [|Hge]; [done|]; by rewrite (fits_testbit 20 limit i) in E).
    rewrite !andb_true_r. destruct (Z.ltb_spec i 16), (Z.leb_spec 16 i), (Z.ltb_spec i (16 + 4)), (Z.ltb_spec i 32); done || lia.
  - by rewrite !andb_false_r.
Qed.

(** ** The global descriptor table *)

(** [SegmentDescriptor::PrivilegeLevel] and [SegmentDescriptor::Type],
    cpu/segments-amd64/cpu/SegmentDescriptor.hh:42-72 *)
Definition SYSTEM : Z := 0.
Definition USER : Z := 3.
Definition DATA_RWA : Z := 0x13.
Definition CODE_ERA : Z := 0x1B.
Definition SYS_TSS : Z := 0x09.
Definition BYTES : Z := 0.
Definition PAGES : Z := 1.

(** [TSS64Descriptor]: the upper half of the address, cpu/segments-amd64/cpu/tss64.hh:83-84 *)
Record TSS64Descriptor := mkTSSDesc { segment : SegmentDescriptor; base32 : Z }.

(** [TSS64Descriptor::set] with all values, cpu/segments-amd64/cpu/tss64.hh:68-73 *)
Definition tss_set (priv base limit gran : Z) (pres : bool) (d : TSS64Descriptor) : TSS64Descriptor :=
  mkTSSDesc (set priv SYS_TSS (Z.land base 0xFFFFFFFF) limit gran false false pres (segment d)) (u32 (Z.shiftr base 32)).

(** [TSS64Descriptor::set] with an object of [sizeof] bytes, cpu/segments-amd64/cpu/tss64.hh:76-80 *)
Definition tss_set_object (sizeof ptr : Z) (d : TSS64Descriptor) : TSS64Descriptor :=
  mkTSSDesc (setSegmentLimit sizeof (setBaseAddress (Z.land ptr 0xFFFFFFFF) (segment d))) (u32 (Z.shiftr ptr 32)).

(** [GdtAmd64], cpu/segments-amd64/cpu/GdtAmd64.hh:45-54 *)
Record GdtAmd64 := mkGdt {
  kernel_code : SegmentDescriptor; kernel_data : SegmentDescriptor; user_code32 : SegmentDescriptor;
  user_data : SegmentDescriptor; user_code : SegmentDescriptor; kernel_fs : SegmentDescriptor;
  kernel_gs : SegmentDescriptor; tss_kernel : TSS64Descriptor }.

(** [GdtAmd64::init], cpu/segments-amd64/cpu/GdtAmd64.hh:59-74 *)
Definition gdt_init (g : GdtAmd64) : GdtAmd64 :=
  mkGdt (set SYSTEM CODE_ERA 0 0xFFFFF PAGES false true true (kernel_code g))
    (set SYSTEM DATA_RWA 0 0xFFFFF PAGES true true true (kernel_data g))
    (user_code32 g)
    (set USER DATA_RWA 0 0xFFFFF PAGES false true true (user_data g))
    (set USER CODE_ERA 0 0xFFFFF PAGES false true true (user_code g))
    (set USER DATA_RWA 0 0xFFFFF PAGES true true true (kernel_fs g))
    (set USER DATA_RWA 0 0xFFFFF PAGES true true true (kernel_gs g))
    (tss_set USER 0 0 BYTES true (tss_kernel g)).

(** The descriptors of the code segments, bit by bit: present, executable, 64 bit,
    with privilege level 0 for the kernel and 3 for user programs. *)
Lemma gdt_init_code g :
  avl (kernel_code g) = 0 → avl (user_code g) = 0 →
  encode (kernel_code (gdt_init g)) = 0x00AF9B000000FFFF ∧ encode (user_code (gdt_init g)) = 0x00AFFB000000FFFF.
Proof. intros H1 H2. unfold encode, gdt_init. cbn [kernel_code user_code]. unfold set, setSegmentLimit, setBaseAddress. cbn [limit0 base0 base16 type dpl present limit16 avl longmode db granularity base24]. by rewrite H1, H2. Qed.
End Segments.

(** ** The interrupt descriptor table *)

Module Interrupts.

(** [IRQDescriptorAmd64], cpu/kernel-entry-amd64/cpu/IRQDescriptorAmd64.hh:90-93 *)
Record IRQDescriptorAmd64 := mkIRQ {
  offset0 : Z; csseg : Z; ist : Z; zeros : Z; irq_type : Z; irq_dpl : Z; irq_present : Z; offset16 : Z;
  offset32 : Z }.

(** [IRQDescriptorAmd64::PrivilegeLevel] and [IRQDescriptorAmd64::Type],
    cpu/kernel-entry-amd64/cpu/IRQDescriptorAmd64.hh:51-59 *)
Definition irq_SYSTEM : Z := 0.
Definition INTERRUPT_GATE : Z := 0x0E.

(** [IRQDescriptorAmd64::set], cpu/kernel-entry-amd64/cpu/IRQDescriptorAmd64.hh:67-77 *)
Definition irq_set (priv ty offset selector i : Z) : IRQDescriptorAmd64 :=
  mkIRQ (u16 offset) selector (Z.land i 7) 0 (Z.land ty 0xF) (Z.land priv 3) 1 (u16 (Z.shiftr offset 16))
    (u32 (Z.shiftr offset 32)).

(** [IRQDescriptorAmd64::setKernelIRQ], cpu/kernel-entry-amd64/cpu/IRQDescriptorAmd64.hh:63-65 *)
Definition setKernelIRQ (offset selector i : Z) : IRQDescriptorAmd64 :=
  irq_set irq_SYSTEM INTERRUPT_GATE offset selector i.

(** [IRQDescriptorAmd64::setIST], cpu/kernel-entry-amd64/cpu/IRQDescriptorAmd64.hh:79 *)
Definition setIST (i : Z) (d : IRQDescriptorAmd64) : IRQDescriptorAmd64 :=
  mkIRQ (offset0 d) (csseg d) (Z.land i 7) (zeros d) (irq_type d) (irq_dpl d) (irq_present d) (offset16 d) (offset32 d).

(** [IRQDescriptorAmd64::getOffset], cpu/kernel-entry-amd64/cpu/IRQDescriptorAmd64.hh:82-84 *)
Definition irq_getOffset (d : IRQDescriptorAmd64) : Z :=
  Z.lor (Z.lor (Z.shiftl (offset32 d) 32) (Z.shiftl (offset16 d) 16)) (offset0 d).

(** [SEGMENT_KERNEL_CS], cpu/segments-amd64/cpu/gdt-layout.h:28 *)
Definition SEGMENT_KERNEL_CS : Z := 0x10.

(** [IdtAmd64::initEarly]; the result is the whole table,
    cpu/kernel-entry-amd64/cpu/IdtAmd64.cc:36-39 *)
Definition initEarly (interrupt_entry_table : list Z) : list IRQDescriptorAmd64 :=
  (λ a, setKernelIRQ a SEGMENT_KERNEL_CS 0) <$> interrupt_entry_table.

(** [IdtAmd64::init], cpu/kernel-entry-amd64/cpu/IdtAmd64.cc:41-48 *)
Definition idt_init (interrupt_entry_table : list Z) : list IRQDescriptorAmd64 :=
  alter (setIST 1) 0xe%nat (alter (setIST 1) 8%nat (alter (setIST 1) 2%nat (initEarly interrupt_entry_table))).

Lemma offset_roundtrip offset d :
  fits 64 offset → offset0 d = u16 offset → offset16 d = u16 (Z.shiftr offset 16) →
  offset32 d = u32 (Z.shiftr offset 32) → irq_getOffset d = offset.
Proof.
  intros Hb H0 H16 H32. unfold irq_getOffset. rewrite H0, H16, H32. apply Z.bits_inj'. intros i Hi.
  rewrite !Z.lor_spec, wrap_testbit, !Segments.byte_testbit by lia.
  destruct (Z.testbit offset i) eqn:E.
  - assert (i < 64) by (destruct (Z.lt_ge_cases i 64) as [|Hge]; [done|]; by rewrite (fits_testbit 64 offset i) in E).
    rewrite !andb_true_r. destruct (Z.ltb_spec i 16), (Z.leb_spec 16 i), (Z.ltb_spec i (16 + 16)), (Z.leb_spec 32 i),
      (Z.ltb_spec i (32 + 32)); done || lia.
  - by rewrite !andb_false_r.
Qed.

(** Every interrupt enters the kernel at its own routine, cannot be raised by user
    programs, and exactly the non-maskable interrupt, double faults and page faults
    switch to the separate stack. *)
Lemma idt_init_correct handlers i a :
  handlers !! i = Some a → fits 64 a →
  ∃ d, idt_init handlers !! i = Some d ∧ irq_getOffset d = a ∧ csseg d = SEGMENT_KERNEL_CS ∧
    irq_dpl d = irq_SYSTEM ∧ irq_type d = INTERRUPT_GATE ∧ irq_present d = 1 ∧
    ist d = (if decide (i ∈ [2; 8; 14]%nat) then 1 else 0).
Proof.
  intros Hi Ha. set (d0 := setKernelIRQ a SEGMENT_KERNEL_CS 0).
  assert (initEarly handlers !! i = Some d0) as H0 by (unfold initEarly; by rewrite list_lookup_fmap, Hi).
  exists (if decide (i ∈ [2; 8; 14]%nat) then setIST 1 d0 else d0). split.
  - unfold idt_init. destruct (decide (i ∈ _)) as [Hin|Hin].
    + rewrite !elem_of_cons in Hin. destruct Hin as [->|[->|[->|Hn%elem_of_nil]]]; [..|done].
      * rewrite 2!list_lookup_alter_ne, list_lookup_alter_eq, H0 by done. done.
      * rewrite list_lookup_alter_ne, list_lookup_alter_eq, list_lookup_alter_ne, H0 by done. done.
      * rewrite list_lookup_alter_eq, 2!list_lookup_alter_ne, H0 by done. done.
    + rewrite !not_elem_of_cons in Hin. destruct Hin as (? & ? & ? & _).
      by rewrite !list_lookup_alter_ne by done.
  - destruct (decide _); (split_and!; [by apply (offset_roundtrip a)|done..]).
Qed.
End Interrupts.

(** ** Core-local memory *)

Module KernelCLM.
Section clm.
Context (blockSize : Z).

(** [KernelCLM::getOffset], cpu/core-local-memory/cpu/CoreLocal.hh:50 *)
Definition getOffset (threadID : Z) : Z := threadID * blockSize.

(** [KernelCLM::setAt]; the memory maps addresses of words to values,
    cpu/core-local-memory/cpu/CoreLocal.hh:64-67 *)
Definition setAt (threadID var value : Z) (m : gmap Z Z) : gmap Z Z := <[var + threadID * blockSize := value]> m.

(** [KernelCLM::getWord] with the base address of the segment GS,
    cpu/core-local-memory/cpu/CoreLocal.hh:93-97 *)
Definition getWord (gs var : Z) (m : gmap Z Z) : option Z := m !! (gs + var).

(** [KernelCLM::setWord], cpu/core-local-memory/cpu/CoreLocal.hh:89-91 *)
Definition setWord (gs var value : Z) (m : gmap Z Z) : gmap Z Z := <[gs + var := value]> m.

Context (CLM_ADDR : Z) (Hsize : 0 < blockSize).

(** The variables are in the block that is copied for every hardware thread. *)
Definition in_block (v : Z) : Prop := CLM_ADDR ≤ v < CLM_ADDR + blockSize.

Lemma clm_inj t t' v v' :
  in_block v → in_block v' → v + t * blockSize = v' + t' * blockSize → t = t' ∧ v = v'.
Proof using Hsize. unfold in_block. intros Hv Hv' E. assert (t = t') by nia. subst. lia. Qed.

(** Writes of variables of one hardware thread: it reads the values, and the others
    still read their own. *)
Lemma clm_writes t l m :
  NoDup l.*1 → Forall in_block l.*1 →
  let m' := foldr (λ p, setAt t p.1 p.2) m l in
  (∀ v x, (v, x) ∈ l → getWord (getOffset t) v m' = Some x) ∧
  (∀ t' v, t' ≠ t → in_block v → getWord (getOffset t') v m' = getWord (getOffset t') v m).
Proof using Hsize.
  intros Hn Hb. cbn zeta. induction l as [|[v0 x0] l IH]; cbn [foldr fst snd].
  { split; [by intros v x ?%not_elem_of_nil|done]. }
  cbn [fmap list_fmap fst] in Hn, Hb. apply NoDup_cons in Hn as [Hv0 Hn]. apply Forall_cons in Hb as [Hb0 Hb].
  destruct (IH Hn Hb) as [IH1 IH2]. unfold setAt, getWord, getOffset in *. split.
  - intros v x [[= -> ->]|Hin]%elem_of_cons.
    + replace (t * blockSize + v0) with (v0 + t * blockSize) by lia. apply lookup_insert_eq.
    + rewrite lookup_insert_ne; [by apply IH1|]. intros E. apply Hv0.
      assert (v ∈ l.*1) as Hv by (apply list_elem_of_fmap; by exists (v, x)).
      rewrite Forall_forall in Hb. destruct (clm_inj t t v0 v Hb0 (Hb v Hv)) as [_ ->]; [lia|done].
  - intros t' v Hne Hv. rewrite lookup_insert_ne; [by apply IH2|]. intros E.
    destruct (clm_inj t t' v0 v Hb0 Hv) as [-> _]; [lia|done].
Qed.
End clm.
End KernelCLM.

(** ** Preparation of the hardware threads *)

Module Deploy.
Import Segments KernelCLM KernelSpace.

(** What the linker decides: the size of the core-local block and the addresses of
    its variables, of the stacks and of the arrays of objects. *)
Record Linker := mkLinker {
  blockSize : Z; CLM_ADDR : Z; v_offset : Z; v_hwThreadID : Z; v_localPlace : Z; v_localScheduler : Z;
  v_localInterruptController : Z; v_kernel_stack : Z; v_thread_state : Z;
  stackspace_phys : Z; nmistackspace : Z;
  place_at : Z → Z; scheduler_at : Z → Z; interruptController_at : Z → Z; tss_at : Z → Z }.

(** The size of [TSS64], cpu/segments-amd64/cpu/tss64.hh:47-56 *)
Definition sizeof_TSS64 : Z := 4 + 24 + 64 + 8 + 2 + 2 + 0xFFFF / 8 + 1.

(** [NMI_STACK_SIZE] and [MYTHOS_MAX_APICID],
    boot/kernelspace-amd64/boot/memory-layout-common.h:73-76 *)
Definition NMI_STACK_SIZE : Z := 512.
Definition MYTHOS_MAX_APICID : Z := 256.

(** The members of [DeployHWThread], boot/apboot-common/boot/DeployHWThread.hh:131-136 *)
Record DeployHWThread := mkDeploy {
  sp0 : Z; ist1 : Z; gdt : GdtAmd64; threadID : Z; apicID : Z; firstboot : bool }.

(** The state that is prepared: [ap_config], [ap_apic2config], [stacks], the
    core-local memory, the page tables of the kernel, the identifiers in the places
    and the places of the schedulers, boot/apboot-acpi/boot/apboot.cc:39-47 *)
Record HW := mkHW {
  ap_config : Z → DeployHWThread; ap_apic2config : gmap Z Z; stacks : gmap Z Z; clm : gmap Z Z;
  tables : Tables; places : gmap Z (Z * Z); homes : gmap Z Z }.

Section apboot.
Context (L : Layout) (K : Linker).

Definition upd_config (id : Z) (f : DeployHWThread → DeployHWThread) (h : HW) : HW :=
  mkHW (λ i, if i =? id then f (ap_config h i) else ap_config h i) (ap_apic2config h) (stacks h) (clm h)
    (tables h) (places h) (homes h).
Definition upd_clm (f : gmap Z Z → gmap Z Z) (h : HW) : HW :=
  mkHW (ap_config h) (ap_apic2config h) (stacks h) (f (clm h)) (tables h) (places h) (homes h).

(** [initKernelStack] on the page tables of the state. *)
Definition k_initKernelStack (idx paddr : Z) : kernel HW Z := λ h,
  match initKernelStack idx paddr (tables h) with
  | Done top t => Done top (mkHW (ap_config h) (ap_apic2config h) (stacks h) (clm h) t (places h) (homes h))
  | AssertFail => AssertFail
  | SpinsForever => SpinsForever
  end.

(** [Place::init] without the queues, async/monitor-common/async/Place.cc:35-40 *)
Definition place_init (id apic : Z) (h : HW) : HW :=
  let h := upd_clm (setAt (blockSize K) id (v_localPlace K) (place_at K id)) h in
  mkHW (ap_config h) (ap_apic2config h) (stacks h) (clm h) (tables h) (<[id := (id, apic)]> (places h)) (homes h).

(** [initSyscallStack], cpu/kernel-entry-amd64/cpu/kernel_entry.cc:37-40 *)
Definition initSyscallStack (id stack : Z) (h : HW) : HW :=
  upd_clm (setAt (blockSize K) id (v_thread_state K) 0)
    (upd_clm (setAt (blockSize K) id (v_kernel_stack K) stack) h).

(** [DeployHWThread::prepare], boot/apboot-common/boot/DeployHWThread.hh:83-108 *)
Definition prepare (id apic : Z) : kernel HW unit :=
  kassert (id <? MYTHOS_MAX_THREADS);;;
  kassert (apic <? MYTHOS_MAX_APICID);;;
  kmodify (upd_config id (λ c, mkDeploy (sp0 c) (ist1 c) (gdt_init (gdt c)) id apic (firstboot c)));;;
  let stackphys := stackspace_phys K + id * CORE_STACK_SIZE in
  top <-- k_initKernelStack id stackphys;;
  kmodify (λ h, mkHW (ap_config h) (ap_apic2config h) (<[apic := top]> (stacks h)) (clm h) (tables h) (places h) (homes h));;;
  kmodify (upd_config id (λ c,
    let g := gdt c in
    let g := mkGdt (kernel_code g) (kernel_data g) (user_code32 g) (user_data g) (user_code g) (kernel_fs g)
      (setBaseAddress (u32 (getOffset (blockSize K) id)) (kernel_gs g))
      (tss_set_object sizeof_TSS64 (tss_at K id) (tss_kernel g)) in
    mkDeploy top (nmistackspace K + id * NMI_STACK_SIZE + NMI_STACK_SIZE) g (threadID c) (apicID c) (firstboot c)));;;
  kmodify (upd_clm (setAt (blockSize K) id (v_offset K) (getOffset (blockSize K) id)));;;
  kmodify (upd_clm (setAt (blockSize K) id (v_hwThreadID K) id));;;
  kmodify (place_init id apic);;;
  kmodify (upd_clm (setAt (blockSize K) id (v_localScheduler K) (scheduler_at K id)));;;
  kmodify (upd_clm (setAt (blockSize K) id (v_localInterruptController K) (interruptController_at K id)));;;
  kmodify (λ h, mkHW (ap_config h) (ap_apic2config h) (stacks h) (clm h) (tables h) (places h)
    (<[id := place_at K id]> (homes h)));;;
  kmodify (initSyscallStack id top);;;
  kmodify (upd_config id (λ c, mkDeploy (sp0 c) (ist1 c) (gdt c) (threadID c) (apicID c) true)).

(** The loop of [apboot] from the thread [id] on,
    boot/apboot-acpi/boot/apboot.cc:60-64 *)
Fixpoint apboot_loop (id : Z) (ids : list Z) : kernel HW unit :=
  match ids with
  | [] => kret tt
  | apic :: ids =>
    kassert (apic <? MYTHOS_MAX_APICID);;;
    prepare id apic;;;
    kmodify (λ h, mkHW (ap_config h) (<[apic := id]> (ap_apic2config h)) (stacks h) (clm h) (tables h) (places h) (homes h));;;
    apboot_loop (id + 1) ids
  end.

(** [apboot]: the preparation of the hardware threads of a topology,
    boot/apboot-acpi/boot/apboot.cc:55-64 *)
Definition apboot (ids : list Z) : kernel HW unit :=
  kassert (Z.of_nat (length ids) <? MYTHOS_MAX_THREADS);;;
  apboot_loop 0 ids.

(** What a hardware thread has after its start. *)
Record Core := mkCore { gs_base : Z; core_cr3 : Z; kernel_sp : Z }.

(** [DeployHWThread::initThread], boot/apboot-common/boot/DeployHWThread.hh:110-129 *)
Definition initThread (id : Z) : kernel HW (bool * Core) := λ h,
  let c := ap_config h id in
  let core := mkCore (getBaseAddress (kernel_gs (gdt c))) (loadKernelSpace L) (sp0 c) in
  if firstboot c
  then Done (true, core) (upd_config id (λ c, mkDeploy (sp0 c) (ist1 c) (gdt c) (threadID c) (apicID c) false) h)
  else Done (false, core) h.

(** [apboot_thread], boot/apboot-acpi/boot/apboot.cc:49-51 *)
Definition apboot_thread (apic : Z) : kernel HW (bool * Core) := λ h,
  match ap_apic2config h !! apic with Some id => initThread id h | None => AssertFail end.

(** ** What the hardware threads find *)

Context (KERN_ROEND KERN_END : Z) (Himg : linked_image KERN_ROEND KERN_END).

(** The core-local variables. *)
Definition clm_variables : list Z :=
  [v_thread_state K; v_kernel_stack K; v_localInterruptController K; v_localScheduler K; v_localPlace K;
   v_hwThreadID K; v_offset K].

(** The linker gives the variables different places in the block, blocks for all
    hardware threads within 4 GiB, and stacks outside of the code. *)
Record linked : Prop := mkLinked {
  lk_size : 0 < blockSize K;
  lk_total : MYTHOS_MAX_THREADS * blockSize K ≤ 2 ^ 32;
  lk_distinct : NoDup clm_variables;
  lk_block : Forall (in_block (blockSize K) (CLM_ADDR K)) clm_variables;
  lk_stacks id : 0 ≤ id < MYTHOS_MAX_THREADS → outside_code KERN_ROEND (stackspace_phys K + id * CORE_STACK_SIZE)
}.
Context (HK : linked).

(** The top of a hardware thread's kernel stack. *)
Definition stack_top (id : Z) : Z := KERNELSTACKS_ADDR + 4096 * (3 * id + 3).

(** What [prepare] writes to the core-local memory. *)
Definition clm_values (id : Z) : list (Z * Z) :=
  [(v_thread_state K, 0); (v_kernel_stack K, stack_top id);
   (v_localInterruptController K, interruptController_at K id); (v_localScheduler K, scheduler_at K id);
   (v_localPlace K, place_at K id); (v_hwThreadID K, id); (v_offset K, getOffset (blockSize K) id)].

Record prepared (h : HW) (id apic : Z) : Prop := mkPrepared {
  pr_gs : getBaseAddress (kernel_gs (gdt (ap_config h id))) = getOffset (blockSize K) id;
  pr_sp0 : sp0 (ap_config h id) = stack_top id;
  pr_ids : threadID (ap_config h id) = id ∧ apicID (ap_config h id) = apic;
  pr_first : firstboot (ap_config h id) = true;
  pr_clm v x : (v, x) ∈ clm_values id → getWord (getOffset (blockSize K) id) v (clm h) = Some x;
  pr_stack : stacks h !! apic = Some (stack_top id);
  pr_place : places h !! id = Some (id, apic);
  pr_home : homes h !! id = Some (place_at K id)
}.

Lemma clm_values_vars id : (clm_values id).*1 = clm_variables.
Proof using. done. Qed.

(** The configuration that [prepare] leaves. *)
Definition final_config (id apic : Z) (c : DeployHWThread) : DeployHWThread :=
  let g := gdt_init (gdt c) in
  mkDeploy (stack_top id) (nmistackspace K + id * NMI_STACK_SIZE + NMI_STACK_SIZE)
    (mkGdt (kernel_code g) (kernel_data g) (user_code32 g) (user_data g) (user_code g) (kernel_fs g)
      (setBaseAddress (u32 (getOffset (blockSize K) id)) (kernel_gs g))
      (tss_set_object sizeof_TSS64 (tss_at K id) (tss_kernel g))) id apic true.

Lemma prepare_effect id apic h :
  0 ≤ id < MYTHOS_MAX_THREADS → 0 ≤ apic < MYTHOS_MAX_APICID → booted L KERN_ROEND KERN_END (tables h) →
  ∃ h', prepare id apic h = Done tt h' ∧ booted L KERN_ROEND KERN_END (tables h') ∧
    (∀ i, ap_config h' i = if i =? id then final_config id apic (ap_config h i) else ap_config h i) ∧
    ap_apic2config h' = ap_apic2config h ∧ stacks h' = <[apic := stack_top id]> (stacks h) ∧
    clm h' = foldr (λ p, setAt (blockSize K) id p.1 p.2) (clm h) (clm_values id) ∧
    places h' = <[id := (id, apic)]> (places h) ∧ homes h' = <[id := place_at K id]> (homes h).
Proof using Himg HK.
  intros Hid Hap Hb. pose proof (lk_stacks HK id Hid) as Hst.
  pose proof (initKernelStack_run L KERN_ROEND KERN_END Himg (tables h) id
    (stackspace_phys K + id * CORE_STACK_SIZE) Hb Hid) as Hrun.
  unfold prepare. rewrite !kassert_bind by (apply Z.ltb_lt; lia).
  unfold kbind at 1. unfold kmodify at 1. cbv zeta. unfold kbind at 1. unfold k_initKernelStack at 1.
  cbn [tables upd_config]. rewrite Hrun. unfold kbind, kmodify.
  eexists. split; [reflexivity|]. split_and!; try reflexivity.
  - by eapply booted_stack.
  - intros i. cbn. destruct (i =? id); reflexivity.
Qed.

Lemma prepare_run id apic h :
  0 ≤ id < MYTHOS_MAX_THREADS → 0 ≤ apic < MYTHOS_MAX_APICID → booted L KERN_ROEND KERN_END (tables h) →
  ∃ h', prepare id apic h = Done tt h' ∧ booted L KERN_ROEND KERN_END (tables h') ∧
    ap_apic2config h' = ap_apic2config h ∧ prepared h' id apic ∧
    (∀ id' apic', id' ≠ id → apic' ≠ apic → prepared h id' apic' → prepared h' id' apic').
Proof using Himg HK.
  intros Hid Hap Hb.
  destruct (prepare_effect id apic h Hid Hap Hb) as (h' & Hrun & Hb' & Hc & Ha & Hs & Hm & Hp & Hh).
  destruct (clm_writes (blockSize K) (CLM_ADDR K) (lk_size HK) id (clm_values id) (clm h)) as [Hown Hother];
    [apply (lk_distinct HK)|apply (lk_block HK)|]. rewrite <-Hm in Hown, Hother.
  exists h'. split_and!; [done..| |].
  - pose proof (Hc id) as E. rewrite Z.eqb_refl in E.
    split; rewrite ?E; cbn [final_config sp0 threadID apicID firstboot gdt kernel_gs]; try done.
    + rewrite base_roundtrip by (apply wrap_fits; lia). apply wrap_small.
      pose proof (lk_total HK). pose proof (lk_size HK). unfold fits, getOffset, MYTHOS_MAX_THREADS in *. nia.
    + rewrite Hs. apply lookup_insert_eq.
    + rewrite Hp. apply lookup_insert_eq.
    + rewrite Hh. apply lookup_insert_eq.
  - intros id' apic' Hne Hna [P1 P2 P3 P4 P5 P6 P7 P8]. pose proof (Hc id') as E.
    rewrite (proj2 (Z.eqb_neq _ _)) in E by done. split; rewrite ?E; try done.
    + intros v x Hin. rewrite Hother by (done || (pose proof (lk_block HK) as HB; rewrite Forall_forall in HB;
        apply HB; rewrite <-(clm_values_vars id'); apply list_elem_of_fmap; by exists (v, x))). by apply P5.
    + by rewrite Hs, lookup_insert_ne.
    + by rewrite Hp, lookup_insert_ne.
    + by rewrite Hh, lookup_insert_ne.
Qed.

Lemma apboot_loop_run id ids h :
  0 ≤ id → id + Z.of_nat (length ids) < MYTHOS_MAX_THREADS → NoDup ids →
  Forall (λ a, 0 ≤ a < MYTHOS_MAX_APICID) ids → booted L KERN_ROEND KERN_END (tables h) →
  ∃ h', apboot_loop id ids h = Done tt h' ∧
    (∀ i a, ids !! i = Some a → ap_apic2config h' !! a = Some (id + Z.of_nat i) ∧ prepared h' (id + Z.of_nat i) a) ∧
    (∀ id' a, id' < id → a ∉ ids → (prepared h id' a → prepared h' id' a) ∧ ap_apic2config h' !! a = ap_apic2config h !! a).
Proof using Himg HK.
  revert id h. induction ids as [|apic ids IH]; intros id h Hid Hlen Hn Ha Hb; cbn [apboot_loop].
  { exists h. split; [done|]. split; [by intros i a ?|done]. }
  apply NoDup_cons in Hn as [Hni Hn]. apply Forall_cons in Ha as [Hap Ha]. cbn [length] in Hlen.
  rewrite kassert_bind by (apply Z.ltb_lt; lia).
  destruct (prepare_run id apic h) as (h1 & E1 & Hb1 & Ec1 & P1 & Q1); [unfold MYTHOS_MAX_THREADS in *; lia|done|done|].
  rewrite (kbind_run _ _ _ _ _ E1). unfold kbind at 1. unfold kmodify at 1.
  set (h2 := mkHW _ (<[apic := id]> _) _ _ _ _ _).
  assert (∀ i a, prepared h1 i a → prepared h2 i a) as H12 by (intros i a []; by split).
  destruct (IH (id + 1) h2) as (h' & E' & Hown & Hother); [lia|lia|done..|].
  exists h'. split; [exact E'|]. split.
  - intros [|i] a Hi; cbn in Hi.
    + injection Hi as <-. rewrite Z.add_0_r. destruct (Hother id apic ltac:(lia) Hni) as [HP HM].
      split; [rewrite HM; apply lookup_insert_eq|by apply HP, H12].
    + replace (id + Z.of_nat (S i)) with (id + 1 + Z.of_nat i) by lia. by apply Hown.
  - intros id' a Hlt [Hne Hni']%not_elem_of_cons. destruct (Hother id' a ltac:(lia) Hni') as [HP HM]. split.
    + intros Hp. apply HP, H12, Q1; [lia|done|done].
    + rewrite HM. unfold h2. cbn. by rewrite lookup_insert_ne, Ec1 by done.
Qed.

End apboot.

(** ** An example *)

Definition wK : Linker :=
  mkLinker 0x1000 0x900000 0x900000 0x900008 0x900010 0x900018 0x900020 0x900028 0x900030
    0x600000 0xA00000 (λ i, 0xB00000 + 128 * i) (λ i, 0xC00000 + 64 * i) (λ i, 0xD00000 + 64 * i) (λ i, 0xE00000 + 8296 * i).

Lemma wK_linked : linked wK Example.wROEND.
Proof.
  split; try done.
  - by apply (bool_decide_unpack _).
  - repeat constructor; unfold in_block; cbn; lia.
  - intros id Hid. unfold outside_code, CORE_STACK_SIZE, Example.wROEND, MYTHOS_MAX_THREADS, fits in *. cbn [stackspace_phys wK].
    split; [|lia]. rewrite Z.add_mod, (Z.mul_mod id), Z.mul_0_r by lia. done.
Qed.

Definition no_segment : SegmentDescriptor := mkSegment 0 0 0 0 0 0 0 0 0 0 0 0.
Definition no_config : DeployHWThread :=
  mkDeploy 0 0 (mkGdt no_segment no_segment no_segment no_segment no_segment no_segment no_segment
    (mkTSSDesc no_segment 0)) 0 0 false.
Definition wHW : HW := mkHW (λ _, no_config) ∅ ∅ ∅ Example.wS ∅ ∅.

End Deploy.
