(* ===== verification/Loader.v ===== *)
(** * Loading the image of the initial program

    Models boot/init-loader-amd64/boot/load_init.cc: the loader reads the headers of the ELF
    image, allocates one frame for all segments, maps the pages of each segment to
    its part of the frame, clears the part and copies the bytes of the file
    into it.

    The mapper of MemMapper.v and the frames are used through their classes;
    [LoaderLaws] adds what the loader relies on for the frame and the bytes. *)

From stdpp Require Import functions base tactics numbers list gmap.
From Stdlib Require Import ZArith Lia ZifyBool.
From S2P Require Import Prelude Ranges Bitfield Cap CapEntry Frame MemMapper Elf.

Local Open Scope Z_scope.
Import Align PhysPtr.

(** [MemMapper::createFrame] at a capability pointer. *)
Class FrameOps (S : Type) := { op_createFrame : CapAlloc → Z → Z → Z → Z → kernel S (optional Z) }.

(** ** The image *)

(** The addresses that a segment takes in blocks of 2 MiB,
    boot/init-loader-amd64/boot/load_init.cc:240-241 *)
Definition block_begin (ph : PHeader) : Z := round_down (p_vaddr ph) align2M.
Definition block_end (ph : PHeader) : Z := round_up (u64 (p_vaddr ph + p_memsize ph)) align2M.

(** One header in the first loop of [InitLoader::loadImage]: the size of the frame and the
    address behind the image, boot/init-loader-amd64/boot/load_init.cc:238-246 *)
Definition count_header (ph : PHeader) (acc : Z * Z) : Z * Z :=
  let '(size, ipc_addr) := acc in
  if p_type ph =? PT_LOAD then
    (u64 (size + (block_end ph - block_begin ph)),
     if ipc_addr <=? block_end ph then round_up (u64 (block_end ph + 1)) align2M else ipc_addr)
  else acc.

(** The first loop of [InitLoader::loadImage]; the number of headers is a 16-bit word, so
    that [fuel] of 65536 is enough, boot/init-loader-amd64/boot/load_init.cc:237-247 *)
Fixpoint count_loop (fuel : nat) (img i : Z) (b : Z → Z) (acc : Z * Z) : Z * Z :=
  match fuel with
  | O => acc
  | Datatypes.S fuel =>
    if i <? phnum img b then count_loop fuel img (i + 1) b (count_header (phdr img i b) acc) else acc
  end.

Section image.
(** [fuel] bounds the pages of a segment. *)
Context {S : Type} `{MapOps S} `{!FrameOps S} `{!HasBytes S}.

Definition upd_bytes (f : (Z → Z) → Z → Z) : kernel S unit := kmodify (λ s, set_bytes (f (bytes s)) s).

(** The part of [InitLoader::loadProgramHeader] that clears the pages and copies the data,
    boot/init-loader-amd64/boot/load_init.cc:289-302 *)
Definition fill_segment (img : Z) (ph : PHeader) (entry : optional Z) (offset vbegin length : Z)
    : kernel S (optional unit) :=
  match entry with
  | THROW e => kret (THROW e)
  | OK entry =>
    info <-- op_frameInfo entry;;
    match info with
    | THROW e => kret (THROW e)
    | OK info =>
      let pstart := u64 (MemoryRegion.i_start info + offset) in
      kassert (kernelmem pstart);;;
      upd_bytes (memset (logint pstart) 0 length);;;
      let pstart := u64 (pstart + (p_vaddr ph - vbegin)) in
      kassert (kernelmem pstart);;;
      upd_bytes (memcpy (logint pstart) (getData img ph) (p_filesize ph));;;
      kret (OK tt)
    end
  end.

(** [InitLoader::loadProgramHeader]; an alignment of zero is a division by zero; the frame
    is apart from the image, so that the header does not change,
    boot/init-loader-amd64/boot/load_init.cc:270-303 *)
Definition loadProgramHeader (fuel : nat) (img : Z) (ph : PHeader) (frameCap offset : Z) (mm : MemMapper)
    : kernel S (optional unit * MemMapper) :=
  kassert (p_alignment ph <=? align2M);;;
  kassert (negb (p_alignment ph =? 0));;;
  let vbegin := round_down (p_vaddr ph) (p_alignment ph) in
  let vend := round_up (u64 (p_vaddr ph + p_memsize ph)) (p_alignment ph) in
  let length := u64 (vend - vbegin) in
  if length =? 0 then kret (OK tt, mm)
  else
    r <-- mmap fuel vbegin length (Z.testbit (p_flags ph) 1) (Z.testbit (p_flags ph) 0) frameCap offset mm;;
    match r with
    | (THROW e, mm) => kret (THROW e, mm)
    | (OK _, mm) =>
      r <-- fill_segment img ph (ca_get (caps mm) frameCap) offset vbegin length;;
      kret (r, mm)
    end.

(** The second loop of [InitLoader::loadImage], with fuel [n] as above,
    boot/init-loader-amd64/boot/load_init.cc:257-266 *)
Fixpoint load_loop (n fuel : nat) (img i frameCap offset : Z) (mm : MemMapper)
    : kernel S (optional unit * MemMapper) :=
  match n with
  | O => λ _, SpinsForever
  | Datatypes.S n =>
    s <-- kget;;
    if negb (i <? phnum img (bytes s)) then kret (OK tt, mm) else
    let ph := phdr img i (bytes s) in
    if p_type ph =? PT_LOAD then
      r <-- loadProgramHeader fuel img ph frameCap offset mm;;
      match r with
      | (THROW e, mm) => kret (THROW e, mm)
      | (OK _, mm) =>
        load_loop n fuel img (i + 1) frameCap (u64 (offset + (block_end ph - block_begin ph))) mm
      end
    else load_loop n fuel img (i + 1) frameCap offset mm
  end.

(** [InitLoader::loadImage]: the address behind the image,
    boot/init-loader-amd64/boot/load_init.cc:232-268 *)
Definition loadImage (fuel : nat) (img : Z) (mm : MemMapper) : kernel S (optional Z * MemMapper) :=
  s <-- kget;;
  let n := Z.to_nat 65536 in
  let '(size, ipc_addr) := count_loop n img 0 (bytes s) (0, round_up 1 align2M) in
  let '(frameCap, ca) := ca_alloc (caps mm) in
  let mm := with_caps ca mm in
  match frameCap with
  | THROW e => kret (THROW e, mm)
  | OK frameCap =>
    r <-- op_createFrame ca (kmemCap mm) frameCap size align2M;;
    match r with
    | THROW e => kret (THROW e, mm)
    | OK frameCap =>
      r <-- load_loop n fuel img 0 frameCap 0 mm;;
      match r with
      | (THROW e, mm) => kret (THROW e, mm)
      | (OK _, mm) => kret (OK ipc_addr, mm)
      end
    end
  end.

End image.

(** ** Segments *)

(** The pages of a segment. *)
Definition seg_begin (ph : PHeader) : Z := round_down (p_vaddr ph) (p_alignment ph).
Definition seg_end (ph : PHeader) : Z := round_up (u64 (p_vaddr ph + p_memsize ph)) (p_alignment ph).
Definition seg_flags (ph : PHeader) : Z :=
  bset 8 1 (bset 8 0 0 (Z.testbit (p_flags ph) 1)) (Z.testbit (p_flags ph) 0).

Record segment_ok (ph : PHeader) : Prop := {
  so_align : ∃ k, 12 ≤ k ≤ 21 ∧ p_alignment ph = 2 ^ k;
  so_vaddr : 0 ≤ p_vaddr ph;
  so_size : 0 ≤ p_filesize ph ≤ p_memsize ph;
  so_end : p_vaddr ph + p_memsize ph ≤ 2 ^ 46
}.

Lemma multiple_le a x y : 0 < a → x mod a = 0 → y mod a = 0 → x < y + a → x ≤ y.
Proof.
  intros Ha Hx Hy Hlt. apply Z.mod_divide in Hx as [j ->], Hy as [k ->]; [|lia..].
  assert (j < k + 1) by (apply (Z.mul_lt_mono_pos_r a); lia). apply Z.mul_le_mono_nonneg_r; lia.
Qed.

Lemma pow2_mod k l x : 0 ≤ k ≤ l → x mod 2 ^ l = 0 → x mod 2 ^ k = 0.
Proof.
  intros Hk Hx. apply Z.mod_divide in Hx as [j ->]; [|apply Z.pow_nonzero; lia].
  replace l with (l - k + k) by lia. rewrite Z.pow_add_r, Z.mul_assoc by lia. apply Z.mod_mul, Z.pow_nonzero; lia.
Qed.

(** Rounding to a finer power of two stays inside the blocks of 2 MiB. *)
Lemma segment_bounds ph :
  segment_ok ph →
  0 ≤ block_begin ph ≤ seg_begin ph ∧ seg_begin ph ≤ p_vaddr ph < seg_begin ph + 2 ^ 21 ∧
  p_vaddr ph + p_memsize ph ≤ seg_end ph ≤ block_end ph ∧ block_end ph ≤ 2 ^ 46 + 2 ^ 21 ∧
  seg_begin ph mod 4096 = 0 ∧ seg_end ph mod 4096 = 0 ∧ block_begin ph mod 2 ^ 21 = 0 ∧ block_end ph mod 2 ^ 21 = 0 ∧
  (seg_end ph ≤ p_vaddr ph → seg_end ph = seg_begin ph).
Proof.
  intros [(k & Hk & Ha) Hv Hs He]. unfold seg_begin, seg_end, block_begin, block_end, align2M.
  rewrite (wrap_small 64 (p_vaddr ph + p_memsize ph)) by (unfold fits; lia). rewrite Ha.
  set (v := p_vaddr ph) in *. set (e := v + p_memsize ph) in *.
  assert (2 ^ 12 ≤ 2 ^ k ≤ 2 ^ 21) as Hk' by (split; apply Z.pow_le_mono_r; lia).
  destruct (round_down_bounds v (2 ^ k)) as [D1 D2]; [lia|unfold fits; lia|].
  destruct (round_down_bounds v (2 ^ 21)) as [D3 D4]; [lia|unfold fits; lia|].
  destruct (round_up_bounds e (2 ^ k)) as [U1 U2]; [lia|unfold fits; lia|lia|].
  destruct (round_up_bounds e (2 ^ 21)) as [U3 U4]; [lia|unfold fits; lia|lia|].
  apply is_aligned_spec in D1, D3, U1, U3.
  set (vb := round_down v (2 ^ k)) in *. set (bb := round_down v (2 ^ 21)) in *.
  set (ve := round_up e (2 ^ k)) in *. set (be := round_up e (2 ^ 21)) in *.
  assert (0 ≤ bb). { unfold bb, round_down. apply wrap_fits. lia. }
  assert (bb ≤ vb). { apply (multiple_le (2 ^ k)); [lia|apply (pow2_mod k 21); [lia|done]|done|lia]. }
  assert (ve ≤ be). { apply (multiple_le (2 ^ k)); [lia|done|apply (pow2_mod k 21); [lia|done]|lia]. }
  split_and!; try (done || lia).
  - apply (pow2_mod 12 k); [lia|done].
  - apply (pow2_mod 12 k); [lia|done].
  - intros Hle. assert (e = v) by lia. apply Z.le_antisymm; apply (multiple_le (2 ^ k)); try done; lia.
Qed.

(** The bytes of a place after it was cleared and filled from the image. *)
Lemma place_bytes dst len d src n (b : Z → Z) a :
  0 ≤ d → 0 ≤ n → d + n ≤ len → (src + n ≤ dst ∨ dst + len ≤ src) →
  memcpy (dst + d) src n (memset dst 0 len b) a =
    if (dst <=? a) && (a <? dst + len) then
      (if (dst + d <=? a) && (a <? dst + d + n) then b (a - (dst + d) + src) else 0)
    else b a.
Proof.
  intros Hd Hn Hl Hap. rewrite memcpy_spec, !memset_spec by lia.
  destruct ((dst + d <=? a) && (a <? dst + d + n)) eqn:E1, ((dst <=? a) && (a <? dst + len)) eqn:E2; try done; try lia.
  by replace ((dst <=? a - (dst + d) + src) && (a - (dst + d) + src <? dst + len)) with false by lia.
Qed.

(** ** The headers of an image *)

Definition is_load (ph : PHeader) : bool := p_type ph =? PT_LOAD.

(** The headers from an index on. *)
Definition headers (img i : Z) (b : Z → Z) : list PHeader := (λ j, phdr img j b) <$> seqZ i (phnum img b - i).
Definition segments (img : Z) (b : Z → Z) : list PHeader := filter is_load (headers img 0 b).

Lemma headers_cons img i b : i < phnum img b → headers img i b = phdr img i b :: headers img (i + 1) b.
Proof.
  intros Hi. unfold headers. rewrite seqZ_cons by lia. cbn. f_equal. f_equal. f_equal; lia.
Qed.

Lemma headers_nil img i b : phnum img b ≤ i → headers img i b = [].
Proof. intros Hi. unfold headers. by rewrite seqZ_nil by lia. Qed.

(** The offsets of the segments in the frame. *)
Definition extent (ph : PHeader) : Z := block_end ph - block_begin ph.

Fixpoint plan (hs : list PHeader) (o : Z) : list (PHeader * Z) :=
  match hs with
  | [] => []
  | h :: hs => if is_load h then (h, o) :: plan hs (o + extent h) else plan hs o
  end.

Fixpoint total (hs : list PHeader) : Z :=
  match hs with
  | [] => 0
  | h :: hs => (if is_load h then extent h else 0) + total hs
  end.

Lemma plan_segments hs : ∀ o, (plan hs o).*1 = filter is_load hs.
Proof.
  induction hs as [|h hs IH]; intros o; [done|]. cbn [plan]. rewrite filter_cons.
  destruct (is_load h) eqn:E; cbn.
  - f_equal. apply IH.
  - apply IH.
Qed.

Lemma total_nonneg hs : (∀ h, h ∈ hs → is_load h = true → segment_ok h) → 0 ≤ total hs.
Proof.
  induction hs as [|h hs IH]; intros Hok; cbn [total]; [done|].
  assert (0 ≤ total hs) by (apply IH; intros x Hx; apply Hok; by right).
  destruct (is_load h) eqn:E; [|lia]. pose proof (Hok h ltac:(by left) E) as Hh.
  pose proof (segment_bounds h Hh) as (B1 & B2 & B3 & _). pose proof (so_size _ Hh). unfold extent. lia.
Qed.

Lemma plan_bounds hs : ∀ o p,
  (∀ h, h ∈ hs → is_load h = true → segment_ok h) → p ∈ plan hs o →
  o ≤ p.2 ∧ p.2 + extent p.1 ≤ o + total hs.
Proof.
  induction hs as [|h hs IH]; intros o p Hok Hp; [by apply elem_of_nil in Hp|].
  assert (∀ x, x ∈ hs → is_load x = true → segment_ok x) as Hok' by (intros x Hx; apply Hok; by right).
  pose proof (total_nonneg hs Hok'). cbn [plan total] in *. destruct (is_load h) eqn:E.
  - pose proof (Hok h ltac:(by left) E) as Hh. pose proof (so_size _ Hh).
    pose proof (segment_bounds h Hh) as (B1 & B2 & B3 & _). assert (0 ≤ extent h) by (unfold extent; lia).
    apply elem_of_cons in Hp as [->|Hp]; [cbn; lia|]. destruct (IH _ _ Hok' Hp). lia.
  - destruct (IH _ _ Hok' Hp). lia.
Qed.

(** The first loop. *)
Lemma count_loop_headers img b n : ∀ i acc,
  phnum img b - i ≤ Z.of_nat n → count_loop n img i b acc = foldl (λ acc h, count_header h acc) acc (headers img i b).
Proof.
  induction n as [|n IH]; intros i acc Hn; cbn [count_loop].
  - by rewrite headers_nil by lia.
  - destruct (Z.ltb_spec i (phnum img b)) as [Hi|Hi]; [|by rewrite headers_nil by lia].
    rewrite headers_cons by done. cbn. apply IH. lia.
Qed.

Lemma count_headers hs : ∀ sz ipc,
  (∀ h, h ∈ hs → is_load h = true → segment_ok h) → 0 ≤ sz → sz + total hs < 2 ^ 64 →
  ipc mod 2 ^ 21 = 0 →
  ∃ ipc', foldl (λ acc h, count_header h acc) (sz, ipc) hs = (sz + total hs, ipc') ∧
    ipc ≤ ipc' ∧ ipc' mod 2 ^ 21 = 0 ∧ ∀ h, h ∈ hs → is_load h = true → block_end h < ipc'.
Proof.
  induction hs as [|h hs IH]; intros sz ipc Hok Hsz Htot Hipc; cbn [foldl total] in *.
  { exists ipc. rewrite Z.add_0_r. split_and!; try done. intros h Hh. by apply elem_of_nil in Hh. }
  assert (∀ x, x ∈ hs → is_load x = true → segment_ok x) as Hok' by (intros x Hx; apply Hok; by right).
  pose proof (total_nonneg hs Hok'). unfold count_header at 2. fold (is_load h). destruct (is_load h) eqn:E.
  - pose proof (Hok h ltac:(by left) E) as Hh. pose proof (so_size _ Hh).
    pose proof (segment_bounds h Hh) as (B1 & B2 & B3 & B4 & _ & _ & _ & Bm & _).
    assert (0 ≤ extent h) as He by (unfold extent; lia). unfold extent in *.
    rewrite !wrap_small by (unfold fits; lia).
    set (ipc1 := if ipc <=? block_end h then _ else ipc).
    assert (ipc ≤ ipc1 ∧ ipc1 mod 2 ^ 21 = 0 ∧ block_end h < ipc1) as (I1 & I2 & I3).
    { unfold ipc1. destruct (Z.leb_spec ipc (block_end h)) as [Hle|]; [|done].
      destruct (round_up_bounds (block_end h + 1) align2M) as (U1 & U2 & _);
        [done|unfold fits; lia|unfold align2M; lia|]. apply is_aligned_spec in U1. split_and!; [lia|done|lia]. }
    destruct (IH (sz + (block_end h - block_begin h)) ipc1) as (ipc' & -> & J1 & J2 & J3); try done; [lia|lia|].
    exists ipc'. split_and!; [f_equal; lia|lia|done|].
    intros x [->|Hx]%elem_of_cons Hxl; [lia|by apply J3].
  - destruct (IH sz ipc) as (ipc' & -> & J1 & J2 & J3); try done.
    exists ipc'. split_and!; [f_equal; lia|lia|done|].
    intros x [->|Hx]%elem_of_cons Hxl; [congruence|by apply J3].
Qed.

(** ** What the loader relies on *)

Class LoaderLaws (S : Type) `{MapLaws S} `{!FrameOps S} `{!HasBytes S} := {
  createFrame_law s ca km c size al c' s' :
    let e := cs_get (ca_cspace ca) c in
    good s → fresh s e → op_createFrame ca km c size al s = Done (OK c') s' →
    c' = c ∧ good s' ∧ tables s' = tables s ∧ bytes s' = bytes s ∧ (∀ x, maps s' x = maps s x) ∧
    (∀ x, x ≠ e → fresh s x → fresh s' x) ∧ (∀ x, frames s x ≠ None → frames s' x = frames s x) ∧
    ∃ start, frames s' e = Some (MemoryRegion.mkInfo start size false true) ∧
      0 ≤ start ∧ start + size ≤ KERNELMEM_SIZE;
  typedMap_bytes e : keeps bytes (op_typedMap e);
  frameInfo_bytes e : keeps bytes (op_frameInfo e);
  createMap_bytes ca km c l : keeps bytes (op_createMap ca km c l);
  mapTable_bytes p e fl i : keeps bytes (op_mapTable p e fl i);
  mapFrame_bytes p i f fl o : keeps bytes (op_mapFrame p i f fl o);
  set_bytes_good b s : good s → good (set_bytes b s);
  set_bytes_tables b s : tables (set_bytes b s) = tables s;
  set_bytes_maps b s e : maps (set_bytes b s) e = maps s e;
  set_bytes_frames b s e : frames (set_bytes b s) e = frames s e;
  set_bytes_fresh b s e : fresh s e → fresh (set_bytes b s) e;
  set_bytes_memory b s n : memory s n → memory (set_bytes b s) n
}.

Section loading.
Context {S : Type} `{LoaderLaws S}.

Lemma set_bytes_obj b s cs m : obj (set_bytes b s) cs m = obj s cs m.
Proof. unfold obj. by rewrite set_bytes_maps. Qed.

Lemma set_bytes_inv K b s mm : mapper_inv K s mm → mapper_inv K (set_bytes b s) mm.
Proof.
  intros [Hg HR Hm Hfr Hc Hn Hk]. split; try done.
  - by apply set_bytes_good.
  - rewrite set_bytes_tables. eapply Reg_ext; [|exact HR]. intros m _. by rewrite set_bytes_obj.
  - intros m Hin. rewrite set_bytes_maps, set_bytes_obj. by apply Hm.
  - intros c Hin. by apply set_bytes_fresh, Hfr.
Qed.

Lemma set_bytes_translation b s cs r a : translation (set_bytes b s) cs r a = translation s cs r a.
Proof. unfold translation. by rewrite set_bytes_tables, set_bytes_obj. Qed.

Lemma set_bytes_nolarge b s mm a : nolarge s mm a → nolarge (set_bytes b s) mm a.
Proof. intros Hn q f o fl Hq Hl Hc. rewrite set_bytes_tables, set_bytes_obj. by apply Hn. Qed.

(** ** Loading the segments *)

Definition in_segment (ph : PHeader) (a : Z) : Prop := seg_begin ph ≤ a < seg_end ph.

(** The image at [img] between [lo] and [hi] with the bytes [b0], the root [r] and the
    frame of the entry [f]. *)
Context (K : gset (Z * Z)) (img lo hi : Z) (b0 : Z → Z) (cs : Z) (r : MapInfo) (f : Z)
  (info : MemoryRegion.Info).

(** The segments of the list are in place at their offsets, below [o]. *)
Record loaded (L : list (PHeader * Z)) (o : Z) (s : S) (mm : MemMapper) : Prop := {
  ld_inv : mapper_inv K s mm;
  ld_enough : enough K s mm;
  ld_cspace : ca_cspace (caps mm) = cs;
  ld_root : is_root mm r;
  ld_frame : frames s f = Some info;
  ld_image : same_bytes lo hi (bytes s) b0;
  ld_small x : x ∈ pagemaps mm → m_level x = 0 → ∃ p a, p ∈ L ∧ in_segment p.1 a ∧ covers x a;
  ld_large a : 0 ≤ a < 2 ^ 48 → (∀ p, p ∈ L → ¬ in_segment p.1 a) → nolarge s mm a;
  ld_seg p : p ∈ L → segment_ok p.1 ∧ 0 ≤ p.2 ∧ p.2 + (block_end p.1 - block_begin p.1) ≤ o;
  ld_maps p : p ∈ L → maps_to s cs r f (seg_flags p.1) (seg_begin p.1) (seg_end p.1) p.2;
  ld_bytes p x : p ∈ L → 0 ≤ x < p_memsize p.1 →
    bytes s (KERNELMEM_ADDR + MemoryRegion.i_start info + p.2 + (p_vaddr p.1 - seg_begin p.1) + x) =
    if x <? p_filesize p.1 then b0 (img + p_offset p.1 + x) else 0
}.

(** The frame is in the kernel's memory and apart from the image. *)
Context (Hinfo : 0 ≤ MemoryRegion.i_start info ∧
    MemoryRegion.i_start info + MemoryRegion.i_size info ≤ KERNELMEM_SIZE)
  (Hwr : MemoryRegion.i_writable info = true)
  (Hapart : KERNELMEM_ADDR + MemoryRegion.i_start info + MemoryRegion.i_size info ≤ lo ∨
    hi ≤ KERNELMEM_ADDR + MemoryRegion.i_start info)
  (Hhi : 0 ≤ lo ∧ hi < 2 ^ 64) (Himg : 0 ≤ img).

(** A segment that fits into the rest of the frame and is apart from the others. *)
Record loadable (L : list (PHeader * Z)) (o : Z) (fuel : nat) (ph : PHeader) : Prop := {
  lo_ok : segment_ok ph;
  lo_apart p a : p ∈ L → in_segment p.1 a → in_segment ph a → False;
  lo_off : 0 ≤ o ∧ o + (block_end ph - block_begin ph) ≤ MemoryRegion.i_size info;
  lo_data : lo ≤ img + p_offset ph ∧ img + p_offset ph + p_filesize ph ≤ hi;
  lo_regions : regions (seg_begin ph) (seg_end ph) ⊆ K;
  lo_fuel : seg_end ph - seg_begin ph ≤ 4096 * Z.of_nat fuel
}.

(** The mapper may map the segment. *)
Lemma loaded_room L o s mm fuel ph :
  loaded L o s mm → loadable L o fuel ph →
  (∀ a, in_segment ph a → nolarge s mm a) ∧ nosmall mm (seg_begin ph) (seg_end ph).
Proof.
  intros HL Hlo. pose proof (segment_bounds ph (lo_ok _ _ _ _ Hlo)) as (B1 & B2 & B3 & B4 & _). split.
  - intros a Ha. apply (ld_large _ _ _ _ HL); [unfold in_segment in Ha; lia|].
    intros p Hp Hpa. by apply (lo_apart _ _ _ _ Hlo p a).
  - intros x Hx Hx0 Hlo' Hhi'. destruct (ld_small _ _ _ _ HL x Hx Hx0) as (p & a & Hp & Hpa & Hc).
    apply (lo_apart _ _ _ _ Hlo p a Hp Hpa). unfold covers in Hc. rewrite Hx0 in Hc. unfold in_segment.
    change (psz (0 + 1)) with (psz 1) in Hc. lia.
Qed.

(** Clearing and filling the place of a segment keeps the others and the image. *)
Lemma loaded_bytes L o s mm fuel ph (b := bytes s) :
  let base := KERNELMEM_ADDR + MemoryRegion.i_start info in
  let len := seg_end ph - seg_begin ph in let d := p_vaddr ph - seg_begin ph in
  let b' := memcpy (base + o + d) (img + p_offset ph) (p_filesize ph) (memset (base + o) 0 len b) in
  loaded L o s mm → loadable L o fuel ph → seg_begin ph < seg_end ph →
  same_bytes lo hi b' b0 ∧
  ∀ p x, p ∈ L ++ [(ph, o)] → 0 ≤ x < p_memsize p.1 →
    b' (base + p.2 + (p_vaddr p.1 - seg_begin p.1) + x) =
    if x <? p_filesize p.1 then b0 (img + p_offset p.1 + x) else 0.
Proof using Hinfo Hapart Hwr.
  intros base len d b' HL Hlo Hne. pose proof (lo_ok _ _ _ _ Hlo) as Hok.
  pose proof (segment_bounds ph Hok) as (B1 & B2 & B3 & B4 & _). destruct (lo_off _ _ _ _ Hlo) as [Ho1 Ho2].
  destruct (lo_data _ _ _ _ Hlo) as [Hd1 Hd2]. pose proof (so_size _ Hok) as Hsz.
  assert (∀ a, b' a = if (base + o <=? a) && (a <? base + o + len) then
    (if (base + o + d <=? a) && (a <? base + o + d + p_filesize ph) then b (a - (base + o + d) + (img + p_offset ph)) else 0)
    else b a) as Hb by (intros a; unfold b'; apply place_bytes; unfold base, len, d; lia).
  split.
  - intros a Ha. rewrite Hb. replace ((base + o <=? a) && (a <? base + o + len)) with false
      by (unfold base, len; lia). by apply (ld_image _ _ _ _ HL).
  - intros p x [Hp| ->%list_elem_of_singleton]%elem_of_app Hx; rewrite Hb.
    + destruct (ld_seg _ _ _ _ HL p Hp) as (Hpok & Hp1 & Hp2).
      pose proof (segment_bounds p.1 Hpok) as (C1 & C2 & C3 & _).
      replace ((base + o <=? _) && _) with false by (unfold base, len; lia). by apply (ld_bytes _ _ _ _ HL).
    + cbn [fst snd] in *. fold d. replace ((base + o <=? base + o + d + x) && _) with true by (unfold base, len, d; lia).
      replace ((base + o + d <=? base + o + d + x) && _) with (x <? p_filesize ph) by lia.
      destruct (Z.ltb_spec x (p_filesize ph)) as [Hlt|]; [|done].
      replace (base + o + d + x - (base + o + d) + (img + p_offset ph)) with (img + p_offset ph + x) by lia.
      apply (ld_image _ _ _ _ HL). lia.
Qed.

(** The segment is in place after the mapper and the copy. *)
Lemma loaded_next L o s mm fuel ph s1 mm1 b1 b2 :
  loaded L o s mm → loadable L o fuel ph → mapper_inv K s1 mm1 → enough K s1 mm1 →
  changed (seg_begin ph) (seg_end ph) s mm s1 mm1 →
  maps_to s1 cs r f (seg_flags ph) (seg_begin ph) (seg_end ph) o →
  same_bytes lo hi b2 b0 →
  (∀ p x, p ∈ L ++ [(ph, o)] → 0 ≤ x < p_memsize p.1 →
    b2 (KERNELMEM_ADDR + MemoryRegion.i_start info + p.2 + (p_vaddr p.1 - seg_begin p.1) + x) =
    if x <? p_filesize p.1 then b0 (img + p_offset p.1 + x) else 0) →
  loaded (L ++ [(ph, o)]) (o + (block_end ph - block_begin ph)) (set_bytes b2 (set_bytes b1 s1)) mm1.
Proof.
  intros HL Hlo HI1 Hen1 Hch Hmt Hsame Hb. pose proof (lo_ok _ _ _ _ Hlo) as Hok. pose proof (so_size _ Hok) as Hsz.
  pose proof (segment_bounds ph Hok) as (B1 & B2 & B3 & B4 & _). destruct (lo_off _ _ _ _ Hlo) as [Ho1 Ho2].
  split.
  - by apply set_bytes_inv, set_bytes_inv.
  - by apply set_bytes_memory, set_bytes_memory.
  - by rewrite (ch_cspace _ _ _ _ _ _ Hch), (ld_cspace _ _ _ _ HL).
  - eapply is_root_changed; [exact Hch|by eapply ld_root].
  - rewrite !set_bytes_frames. rewrite (ch_frames _ _ _ _ _ _ Hch); rewrite (ld_frame _ _ _ _ HL); done.
  - by rewrite bytes_set.
  - intros x Hx Hx0. destruct (ch_new _ _ _ _ _ _ Hch x Hx) as [Hx'|(a & Ha & Hc)].
    + destruct (ld_small _ _ _ _ HL x Hx' Hx0) as (p & a & Hp & ?). exists p, a. split; [by apply elem_of_app; left|done].
    + exists (ph, o), a. split; [by apply elem_of_app; right; apply list_elem_of_singleton|done].
  - intros a Ha Hout. apply set_bytes_nolarge, set_bytes_nolarge, (ch_nolarge _ _ _ _ _ _ Hch); [done| |].
    + apply (Hout (ph, o)). by apply elem_of_app; right; apply list_elem_of_singleton.
    + apply (ld_large _ _ _ _ HL); [done|]. intros p Hp. apply Hout. by apply elem_of_app; left.
  - intros p [Hp| ->%list_elem_of_singleton]%elem_of_app; [|by split_and!].
    destruct (ld_seg _ _ _ _ HL p Hp) as (? & ? & ?). split_and!; [done|done|lia].
  - intros p [Hp| ->%list_elem_of_singleton]%elem_of_app a Ha; rewrite !set_bytes_translation; [|by apply Hmt].
    destruct (ld_seg _ _ _ _ HL p Hp) as (Hpok & _). pose proof (segment_bounds p.1 Hpok) as (C1 & C2 & C3 & C4 & _).
    pose proof (ch_walk _ _ _ _ _ _ Hch r a (ld_root _ _ _ _ HL)) as Hw. rewrite (ld_cspace _ _ _ _ HL) in Hw.
    rewrite Hw; [by apply (ld_maps _ _ _ _ HL)|lia|]. intros Hin. by apply (lo_apart _ _ _ _ Hlo p a).
  - by rewrite bytes_set.
Qed.

Lemma loaded_empty L o s mm fuel ph :
  loaded L o s mm → loadable L o fuel ph → seg_begin ph = seg_end ph →
  loaded (L ++ [(ph, o)]) (o + (block_end ph - block_begin ph)) s mm.
Proof.
  intros HL Hlo He. pose proof (lo_ok _ _ _ _ Hlo) as Hok. destruct (lo_off _ _ _ _ Hlo) as [Ho1 Ho2].
  pose proof (segment_bounds ph Hok) as (B1 & B2 & B3 & B4 & _). pose proof (so_size _ Hok) as Hsz.
  pose proof HL as [HI Hen Hcs Hr Hf Him Hsm Hlg Hsg Hmp Hby]. split; try done.
  - intros x Hx Hx0. destruct (Hsm x Hx Hx0) as (p & a & Hp & ?). exists p, a. split; [by apply elem_of_app; left|done].
  - intros a Ha Hout. apply Hlg; [done|]. intros p Hp. apply Hout. by apply elem_of_app; left.
  - intros p [Hp| ->%list_elem_of_singleton]%elem_of_app; [|by split_and!].
    destruct (Hsg p Hp) as (? & ? & ?). split_and!; [done|done|lia].
  - intros p [Hp| ->%list_elem_of_singleton]%elem_of_app a Ha; [by apply Hmp|]. cbn in Ha. lia.
  - intros p x [Hp| ->%list_elem_of_singleton]%elem_of_app Hx; [by apply Hby|]. cbn in Hx. lia.
Qed.

(** The pages of a segment are cleared and filled. *)
Lemma fill_segment_run L o s mm fuel ph s1 :
  loaded L o s mm → loadable L o fuel ph → seg_begin ph < seg_end ph → good s1 → frames s1 f = Some info →
  bytes s1 = bytes s →
  ∃ b1 b2, fill_segment img ph (OK f) o (seg_begin ph) (seg_end ph - seg_begin ph) s1 =
      Done (OK tt) (set_bytes b2 (set_bytes b1 s1)) ∧
    same_bytes lo hi b2 b0 ∧
    (∀ p x, p ∈ L ++ [(ph, o)] → 0 ≤ x < p_memsize p.1 →
      b2 (KERNELMEM_ADDR + MemoryRegion.i_start info + p.2 + (p_vaddr p.1 - seg_begin p.1) + x) =
      if x <? p_filesize p.1 then b0 (img + p_offset p.1 + x) else 0).
Proof using Hinfo Hapart Hwr Hhi Himg.
  intros HL Hlo Hne Hg Hf Hbs. pose proof (lo_ok _ _ _ _ Hlo) as Hok. destruct (lo_off _ _ _ _ Hlo) as [Ho1 Ho2].
  pose proof (segment_bounds ph Hok) as (B1 & B2 & B3 & B4 & _ & _ & _ & _ & Bz).
  pose proof (so_size _ Hok) as Hsz. destruct (lo_data _ _ _ _ Hlo) as [Hd1 Hd2].
  destruct (loaded_bytes L o s mm fuel ph HL Hlo Hne) as [Hs Hb].
  unfold fill_segment. rewrite (kbind_run _ _ _ _ _ (frameInfo_law s1 f info Hg Hf)).
  rewrite (wrap_small 64 (MemoryRegion.i_start info + o)) by (unfold fits, KERNELMEM_SIZE in *; lia).
  rewrite kassert_bind by (unfold kernelmem; lia).
  unfold upd_bytes at 1. unfold kbind at 1. unfold kmodify at 1.
  rewrite (wrap_small 64 (_ + _ + _)) by (unfold fits, KERNELMEM_SIZE in *; lia).
  rewrite kassert_bind by (unfold kernelmem; lia).
  unfold upd_bytes, kmodify. eexists _, _. split; [reflexivity|].
  rewrite bytes_set, Hbs. unfold logint, getData.
  rewrite !wrap_small by (unfold fits, KERNELMEM_SIZE, KERNELMEM_ADDR in *; lia).
  replace (MemoryRegion.i_start info + o + KERNELMEM_ADDR) with (KERNELMEM_ADDR + MemoryRegion.i_start info + o) by lia.
  replace (MemoryRegion.i_start info + o + (p_vaddr ph - seg_begin ph) + KERNELMEM_ADDR)
    with (KERNELMEM_ADDR + MemoryRegion.i_start info + o + (p_vaddr ph - seg_begin ph)) by lia. by split.
Qed.

Lemma mmap_bytes fuel v n w x c o mm s a s' : mmap fuel v n w x c o mm s = Done a s' → bytes s' = bytes s.
Proof.
  apply mmap_keeps.
  - apply typedMap_bytes.
  - apply frameInfo_bytes.
  - apply createMap_bytes.
  - apply mapTable_bytes.
  - apply mapFrame_bytes.
Qed.

(** One program header. *)
Lemma loadProgramHeader_run L o s mm fuel ph c :
  f = cs_get cs c → loaded L o s mm → loadable L o fuel ph →
  ∃ res mm' s', loadProgramHeader fuel img ph c o mm s = Done (res, mm') s' ∧
    match res with
    | OK _ => loaded (L ++ [(ph, o)]) (o + (block_end ph - block_begin ph)) s' mm'
    | THROW _ => mapper_inv K s' mm'
    end.
Proof using Hinfo Hapart Hwr Hhi Himg H1.
  intros Hfc HL Hlo. pose proof (lo_ok _ _ _ _ Hlo) as Hok. destruct (lo_off _ _ _ _ Hlo) as [Ho1 Ho2].
  pose proof (segment_bounds ph Hok) as (B1 & B2 & B3 & B4 & _). pose proof (so_size _ Hok) as Hsz.
  pose proof (lo_fuel _ _ _ _ Hlo) as Hfuel. destruct (so_align _ Hok) as (k & Hk & Hal).
  assert (0 < 2 ^ k ≤ 2 ^ 21) as Hk' by (split; [apply Z.pow_pos_nonneg|apply Z.pow_le_mono_r]; lia).
  unfold loadProgramHeader. rewrite !kassert_bind by (rewrite Hal; unfold align2M; lia).
  fold (seg_begin ph). fold (seg_end ph). rewrite (wrap_small 64 (seg_end ph - seg_begin ph)) by (unfold fits; lia).
  destruct (Z.eqb_spec (seg_end ph - seg_begin ph) 0) as [Hz|Hnz].
  { eexists _, mm, s. split; [done|]. apply (loaded_empty L o s mm fuel ph HL Hlo). lia. }
  destruct (loaded_room L o s mm fuel ph HL Hlo) as [Hlg Hsm]. pose proof (ld_cspace _ _ _ _ HL) as Hcs.
  assert (seg_begin ph + (seg_end ph - seg_begin ph) = seg_end ph) as Hse by lia.
  destruct (mmap_run K s mm (seg_begin ph) (seg_end ph - seg_begin ph) (Z.testbit (p_flags ph) 1)
    (Z.testbit (p_flags ph) 0) c o info fuel) as (res & mm1 & s1 & Hrun & HI1 & Hch & Hpost); rewrite ?Hse;
    [by eapply ld_inv|by rewrite Hcs, <- Hfc; eapply ld_frame|lia|lia|lia|lia|unfold KERNELMEM_SIZE in *; lia
    |by eapply lo_regions|exact Hlg|exact Hsm|by eapply ld_enough|].
  rewrite Hse in *. rewrite (kbind_run _ _ _ _ _ Hrun). destruct res as [u|e]; [|by eexists _, mm1, s1].
  destruct Hpost as (_ & _ & _ & Hen1 & Hmt). unfold ca_get.
  rewrite (ch_cspace _ _ _ _ _ _ Hch), Hcs, <- Hfc, Hwr, andb_true_r in *.
  destruct (fill_segment_run L o s mm fuel ph s1) as (b1 & b2 & Hfill & Hs & Hb); try done; [lia|apply HI1| |by eapply mmap_bytes|].
  { rewrite (ch_frames _ _ _ _ _ _ Hch); rewrite (ld_frame _ _ _ _ HL); done. }
  rewrite (kbind_run _ _ _ _ _ Hfill). eexists _, mm1, _. split; [reflexivity|].
  apply (loaded_next L o s mm fuel); try done. apply Hmt. by eapply ld_root.
Qed.

(** The headers are in the image. *)
Context (Hhdr : lo ≤ img ∧ img + 64 ≤ hi)
  (Hphdr : ∀ i, 0 ≤ i < phnum img b0 → lo ≤ img + phoffset (header img b0) + i * phentsize (header img b0) ∧
    img + phoffset (header img b0) + i * phentsize (header img b0) + 56 ≤ hi).

Lemma header_kept L o s mm : loaded L o s mm → header img (bytes s) = header img b0.
Proof using Hhdr Hwr. intros HL. apply (read_Header_same lo hi); [by eapply ld_image|lia..]. Qed.

Lemma phdr_kept L o s mm i :
  loaded L o s mm → 0 ≤ i < phnum img b0 → phdr img i (bytes s) = phdr img i b0.
Proof using Hhdr Hphdr Hhi Hwr.
  intros HL Hi. unfold phdr. rewrite (header_kept L o s mm HL). destruct (Hphdr i Hi).
  rewrite wrap_small by (unfold fits; lia). apply (read_PHeader_same lo hi); [by eapply ld_image|lia..].
Qed.

(** The second loop. *)
Lemma load_loop_run all fuel c n : ∀ i o L s mm,
  f = cs_get cs c → (∀ L1 h o' L2, plan all 0 = L1 ++ (h, o') :: L2 → loadable L1 o' fuel h) →
  0 ≤ i ≤ phnum img b0 → phnum img b0 - i < Z.of_nat n → loaded L o s mm → plan all 0 = L ++ plan (headers img i b0) o →
  ∃ res mm' s', load_loop n fuel img i c o mm s = Done (res, mm') s' ∧
    match res with
    | OK _ => ∃ o', loaded (plan all 0) o' s' mm'
    | THROW _ => mapper_inv K s' mm'
    end.
Proof using Hinfo Hapart Hwr Hhi Himg H1 Hhdr Hphdr.
  induction n as [|n IH]; intros i o L s mm Hfc Hall Hi Hn HL Hplan; cbn [load_loop].
  { lia. }
  unfold kget. unfold kbind at 1. unfold phnum. rewrite (header_kept L o s mm HL). fold (phnum img b0).
  destruct (Z.ltb_spec i (phnum img b0)) as [Hlt|Hge]; cbn [negb].
  2:{ eexists _, mm, s. split; [done|]. exists o. rewrite headers_nil, app_nil_r in Hplan by done. by rewrite Hplan. }
  rewrite (phdr_kept L o s mm i HL) by lia. rewrite headers_cons in Hplan by done. cbn [plan] in Hplan.
  set (h := phdr img i b0) in *. fold (is_load h). destruct (is_load h) eqn:E.
  - pose proof (Hall _ _ _ _ Hplan) as Hlo.
    destruct (loadProgramHeader_run L o s mm fuel h c Hfc HL Hlo) as (res & mm1 & s1 & Hrun & Hpost).
    rewrite (kbind_run _ _ _ _ _ Hrun). destruct res as [u|e]; [|by eexists _, mm1, s1].
    destruct (lo_off _ _ _ _ Hlo) as [Ho1 Ho2]. pose proof (so_size _ (lo_ok _ _ _ _ Hlo)).
    pose proof (segment_bounds h (lo_ok _ _ _ _ Hlo)) as (B1 & B2 & B3 & _).
    rewrite wrap_small by (unfold fits, KERNELMEM_SIZE in *; lia).
    apply (IH (i + 1) _ (L ++ [(h, o)])); [done|done|lia|lia|done|]. by rewrite Hplan, <- app_assoc.
  - apply (IH (i + 1) o L); [done|done|lia|lia|done|done].
Qed.

End loading.

(** ** The whole image *)

(** An image between [lo] and [hi]: its headers and the data lie inside, the segments are
    aligned to pages and apart, and [K] has the page maps for them. *)
Record image_ok (K : gset (Z * Z)) (img lo hi : Z) (fuel : nat) (b : Z → Z) : Prop := {
  io_range : 0 ≤ lo ≤ img ∧ img + 64 ≤ hi ∧ hi < 2 ^ 64;
  io_bytes a : lo ≤ a < hi → 0 ≤ b a < 256;
  io_phdr i : 0 ≤ i < phnum img b → lo ≤ img + phoffset (header img b) + i * phentsize (header img b) ∧
    img + phoffset (header img b) + i * phentsize (header img b) + 56 ≤ hi;
  io_seg h : h ∈ segments img b → segment_ok h ∧
    (lo ≤ img + p_offset h ∧ img + p_offset h + p_filesize h ≤ hi) ∧
    regions (seg_begin h) (seg_end h) ⊆ K ∧ seg_end h - seg_begin h ≤ 4096 * Z.of_nat fuel;
  io_apart i j h h' : segments img b !! i = Some h → segments img b !! j = Some h' → i ≠ j →
    ∀ a, in_segment h a → in_segment h' a → False
}.

Lemma segments_elem img b h : h ∈ segments img b ↔ h ∈ headers img 0 b ∧ is_load h = true.
Proof. unfold segments. rewrite list_elem_of_filter, Is_true_true. tauto. Qed.

Lemma total_bound hs :
  (∀ h, h ∈ hs → is_load h = true → segment_ok h) → total hs ≤ 2 ^ 47 * Z.of_nat (length hs).
Proof.
  induction hs as [|h hs IH]; intros Hok; cbn [total length]; [done|].
  assert (total hs ≤ 2 ^ 47 * Z.of_nat (length hs)) by (apply IH; intros x Hx; apply Hok; by right).
  destruct (is_load h) eqn:E; [|lia]. pose proof (Hok h ltac:(by left) E) as Hh.
  pose proof (segment_bounds h Hh) as (B1 & B2 & B3 & B4 & _). unfold extent. lia.
Qed.

Lemma phnum_bounds K img lo hi fuel b : image_ok K img lo hi fuel b → 0 ≤ phnum img b < 65536.
Proof.
  intros Hio. pose proof (io_range _ _ _ _ _ _ Hio). apply (le_fits 2). intros i Hi. apply (io_bytes _ _ _ _ _ _ Hio). lia.
Qed.

Lemma image_total K img lo hi fuel b :
  image_ok K img lo hi fuel b → 0 ≤ total (headers img 0 b) < 2 ^ 64.
Proof.
  intros Hio. pose proof (phnum_bounds _ _ _ _ _ _ Hio) as Hn.
  assert (∀ h, h ∈ headers img 0 b → is_load h = true → segment_ok h) as Hok.
  { intros h Hh Hl. apply (io_seg _ _ _ _ _ _ Hio). by apply segments_elem. }
  split; [by apply total_nonneg|]. pose proof (total_bound _ Hok) as Hb.
  unfold headers in Hb at 2. rewrite length_fmap, length_seqZ in Hb. lia.
Qed.

(** The segments can be loaded one after the other. *)
Lemma plan_loadable K img lo hi fuel b info L1 h o L2 :
  image_ok K img lo hi fuel b → MemoryRegion.i_size info = total (headers img 0 b) →
  plan (headers img 0 b) 0 = L1 ++ (h, o) :: L2 → loadable K img lo hi info L1 o fuel h.
Proof.
  intros Hio Hsize Hp.
  assert (∀ h, h ∈ headers img 0 b → is_load h = true → segment_ok h) as Hok.
  { intros x Hx Hl. apply (io_seg _ _ _ _ _ _ Hio). by apply segments_elem. }
  assert (segments img b = L1.*1 ++ h :: L2.*1) as Hsegs.
  { unfold segments. by rewrite <- (plan_segments _ 0), Hp, fmap_app. }
  destruct (io_seg _ _ _ _ _ _ Hio h) as (Hh & Hdata & Hreg & Hfuel).
  { rewrite Hsegs. apply elem_of_app. right. by left. }
  destruct (plan_bounds (headers img 0 b) 0 (h, o) Hok) as [Ho1 Ho2].
  { rewrite Hp. apply elem_of_app. right. by left. }
  split; try done; [|cbn in *; unfold extent in *; lia].
  intros p a Hin Hpa Ha. apply list_elem_of_lookup in Hin as [k Hk]. pose proof (lookup_lt_Some _ _ _ Hk) as Hlt.
  eapply (io_apart _ _ _ _ _ _ Hio k (length L1) p.1 h); [..|exact Hpa|exact Ha].
  - rewrite Hsegs, lookup_app_l by (by rewrite length_fmap). rewrite list_lookup_fmap, Hk. done.
  - rewrite Hsegs, lookup_app_r by (rewrite length_fmap; lia). by rewrite length_fmap, Nat.sub_diag.
  - lia.
Qed.

Section image_correct.
Context {S : Type} `{LoaderLaws S}.

(** The state before the first segment. *)
Lemma loaded_start K s mm r img lo hi size al s1 :
  let c := ca_next (caps mm) in let cs := ca_cspace (caps mm) in
  let ca := mkCapAlloc (c + 1) (ca_remaining (caps mm) - 1) cs in
  mapper_inv K s mm → ca_remaining (caps mm) ≠ 0 → is_root mm r →
  (∀ x, x ∈ pagemaps mm → m_level x ≠ 0) → (∀ a, 0 ≤ a < 2 ^ 48 → nolarge s mm a) →
  op_createFrame ca (kmemCap mm) c size al s = Done (OK c) s1 → enough K s1 mm →
  ∃ start, let info := MemoryRegion.mkInfo start size false true in
    frames s1 (cs_get cs c) = Some info ∧ 0 ≤ start ∧ start + size ≤ KERNELMEM_SIZE ∧
    loaded K img lo hi (bytes s) cs r (cs_get cs c) info [] 0 s1 (with_caps ca mm).
Proof.
  intros c cs ca HI Hrem Hr Hns Hnl Hrun Hen.
  assert (fresh s (cs_get cs c)) as Hfresh.
  { destruct (mi_caps _ _ _ HI) as (? & ? & ?). apply (mi_fresh _ _ _ HI). unfold c. lia. }
  destruct (createFrame_law s ca (kmemCap mm) c size al c s1 (mi_good _ _ _ HI) Hfresh Hrun)
    as (_ & Hg & HT & Hb & Hm & Hfr & Hfs & start & Hf & Hs1 & Hs2). change (ca_cspace ca) with cs in *.
  destruct (created_inv K s mm s1 HI Hrem Hg HT Hfs) as (HI1 & Hgr & _).
  { intros x Hx. split; [by rewrite Hm|by apply Hfr]. }
  exists start. split_and!; try done. split; try done.
  - by rewrite Hb.
  - intros x Hx Hx0. exfalso. by apply (Hns x).
  - intros a Ha _. eapply nolarge_grown; [exact Hgr|by apply Hnl].
  - intros p Hp. by apply elem_of_nil in Hp.
  - intros p Hp. by apply elem_of_nil in Hp.
  - intros p x Hp. by apply elem_of_nil in Hp.
Qed.


End image_correct.

(** ** An image with two segments *)

Import Plain.

#[local] Program Instance plain_bytes : HasBytes plain := {|
  bytes := p_bytes;
  set_bytes b s := mkPlain (p_tables s) (p_maps s) (p_frames s) (p_next s) (p_memory s) b (p_free s) |}.
Next Obligation. done. Qed.

#[local] Instance plain_frames : FrameOps plain := {|
  op_createFrame ca km c size al s :=
    if (0 <=? p_free s) && (p_free s + size <=? KERNELMEM_SIZE) && bool_decide (p_frames s !! cs_get (ca_cspace ca) c = None)
    then Done (OK c) (mkPlain (p_tables s) (p_maps s)
      (<[cs_get (ca_cspace ca) c := MemoryRegion.mkInfo (p_free s) size false true]> (p_frames s))
      (p_next s) (p_memory s) (p_bytes s) (p_free s + size))
    else AssertFail |}.

#[local] Instance plain_loader : LoaderLaws plain.
Proof.
  split; try done.
  - intros s ca km c size al c' s' e Hg Hfr. cbn. destruct (_ && _ && _) eqn:E; [|done]. intros [= <- <-].
    apply andb_prop in E as [[E1 E2]%andb_prop E3%bool_decide_eq_true]. cbn. split_and!; try done.
    + intros x Hx. rewrite lookup_insert_ne; [done|]. intros <-. by rewrite E3 in Hx.
    + exists (p_free s). rewrite lookup_insert_eq. split_and!; [done|lia|lia].
  - by intros e s a s' [= _ <-].
  - by intros e s a s' [= _ <-].
  - intros ca km c l s a s'. cbn. destruct (p_memory s); [done|]. by intros [= _ <-].
  - intros p e fl i s a s'. cbn. destruct (p_maps s !! e) as [[]|]; by intros [= _ <-].
  - by intros p i f fl o s a s' [= _ <-].
Qed.

Definition le_bytes (n : nat) (v : Z) : list Z := (λ i, Z.land (Z.shiftr v (8 * i)) 255) <$> seqZ 0 (Z.of_nat n).

Definition ex_ph (type flags offset vaddr filesize memsize align : Z) : list Z :=
  le_bytes 4 type ++ le_bytes 4 flags ++ le_bytes 8 offset ++ le_bytes 8 vaddr ++ le_bytes 8 vaddr ++
  le_bytes 8 filesize ++ le_bytes 8 memsize ++ le_bytes 8 align.

(** Code at 0x200000, thread-local data, and data at 0x201004 that is longer in memory. *)
Definition ex_image : list Z :=
  [0x7f; 0x45; 0x4c; 0x46; 2; 1; 1; 0; 0; 0; 0; 0; 0; 0; 0; 0] ++ le_bytes 2 2 ++ le_bytes 2 0x3e ++ le_bytes 4 1 ++
  le_bytes 8 0x200000 ++ le_bytes 8 64 ++ le_bytes 8 0 ++ le_bytes 4 0 ++ le_bytes 2 64 ++ le_bytes 2 56 ++
  le_bytes 2 3 ++ le_bytes 2 64 ++ le_bytes 2 0 ++ le_bytes 2 0 ++
  ex_ph 1 5 232 0x200000 4 4 0x1000 ++ ex_ph 7 4 0 0 0 0 8 ++ ex_ph 1 6 236 0x201004 2 8 0x1000 ++
  [0x90; 0x90; 0x90; 0xf4; 0x2a; 0x2b].

Definition ex_img : Z := 0xffffffff81200000.
Definition ex_bytes (a : Z) : Z := nth (Z.to_nat (a - ex_img)) ex_image 0.
Definition ex_K : gset (Z * Z) := {[(3, 0); (0, 0x200000); (1, 0); (2, 0)]}.
Definition ex_load : plain := mkPlain ∅ {[cs_get ex_cspace 3 := (7, 4)]} ∅ 8 6 ex_bytes 0x800000.
Definition ex_framed : plain := mkPlain ∅ {[cs_get ex_cspace 3 := (7, 4)]}
  {[cs_get ex_cspace 20 := MemoryRegion.mkInfo 0x800000 0x400000 false true]} 8 6 ex_bytes 0xc00000.

Lemma ex_segments : segments ex_img ex_bytes =
  [mkPH 1 5 232 0x200000 0x200000 4 4 0x1000; mkPH 1 6 236 0x201004 0x201004 2 8 0x1000].
Proof. vm_compute. reflexivity. Qed.

Lemma ex_image_ok : image_ok ex_K ex_img ex_img (ex_img + 238) 4 ex_bytes.
Proof.
  split.
  - unfold ex_img. lia.
  - intros a _. unfold ex_bytes. destruct (nth_in_or_default (Z.to_nat (a - ex_img)) ex_image 0) as [Hin| ->]; [|lia].
    assert (Forall (λ v, 0 ≤ v < 256) ex_image) as Hall.
    { apply (bool_decide_unpack _). vm_compute. exact I. }
    rewrite List.Forall_forall in Hall. by apply Hall.
  - intros i Hi. change (phnum ex_img ex_bytes) with 3 in Hi. change (phoffset (header ex_img ex_bytes)) with 64.
    change (phentsize (header ex_img ex_bytes)) with 56. unfold ex_img. lia.
  - intros h. rewrite ex_segments. intros [->|[->|[]%elem_of_nil]%elem_of_cons]%elem_of_cons.
    + split; [split; cbn; [exists 12|..]; lia|]. split; [cbn; unfold ex_img; lia|]. split; [|by vm_compute].
      apply (bool_decide_unpack _). vm_compute. exact I.
    + split; [split; cbn; [exists 12|..]; lia|]. split; [cbn; unfold ex_img; lia|]. split; [|by vm_compute].
      apply (bool_decide_unpack _). vm_compute. exact I.
  - intros i j h h'. rewrite ex_segments. intros Hi Hj Hne a.
    assert (seg_end (mkPH 1 5 232 0x200000 0x200000 4 4 0x1000) = 0x201000) as E1 by (vm_compute; reflexivity).
    assert (seg_begin (mkPH 1 6 236 0x201004 0x201004 2 8 0x1000) = 0x201000) as E2 by (vm_compute; reflexivity).
    unfold in_segment. destruct i as [|[|?]], j as [|[|?]]; cbn in Hi, Hj; try discriminate; try congruence;
      injection Hi as <-; injection Hj as <-; rewrite E1, E2; lia.
Qed.

