(* ===== verification/InitLoader.v ===== *)
(** * Starting the initial program

    Models the rest of boot/init-loader-amd64/boot/load_init.cc, the construction of the first
    address space, capability space, portal and thread, with boot/memory-root/boot/memory-root.cc,
    the roots of the resource tree: device memory and, as its child, the kernel memory.

    The objects of the kernel that exist from the start (factories, schedulers,
    interrupt controllers) and the plugins that hook into the loader are parameters. *)

From stdpp Require Import functions base tactics numbers list gmap.
From Stdlib Require Import ZArith Lia ZifyBool.
From S2P Require Import Prelude Ranges Bitfield Cap CapEntry CapRing CapSteps CapOps Heap KernelMemory CapMap Creation Frame PageTable PageMap LinkedList Threads Scheduling Portal SignalListener ThreadProps Processors System MemMapper Elf Loader.

Local Open Scope Z_scope.
Import Align PhysPtr FifoList.

(** [init::CSpaceLayout], mythos/init/mythos/init.hh:35-63 *)
Definition KM : Z := 1.
Definition CSPACE : Z := 2.
Definition PML4 : Z := 3.
Definition EC_PTR : Z := 4.
Definition PORTAL : Z := 5.
Definition EXAMPLE_FACTORY : Z := 6.
Definition SIGNAL_LISTENER_FACTORY : Z := 13.
Definition SCHEDULERS_START : Z := DEVICE_MEM + 1.
Definition INFO_FRAME : Z := SCHEDULERS_START + 256 + 3.
Definition INTERRUPT_CONTROL_START : Z := INFO_FRAME + 1.
Definition APP_CAP_START : Z := 1024.
Definition CSPACE_SIZE : Z := 4096.

(** [sizeof(InfoFrame)]: the invocation buffer and two words,
    mythos/infoFrame/mythos/InfoFrame.hh:46-48 *)
Definition sizeof_InfoFrame : Z := sizeof_InvocationBuf + 16.
Definition PS_PER_TSC_DEFAULT : Z := 0x180.

(** Storing the bytes of a word. *)
Fixpoint store_le (n : nat) (a v : Z) (b : Z → Z) : Z → Z :=
  match n with
  | O => b
  | Datatypes.S n => store_le n (a + 1) (v / 256) (upd_byte a (v mod 256) b)
  end.

(** The constructor of [InfoFrame]: an empty tag and null pointer in the invocation buffer, then
    the two words, mythos/infoFrame/mythos/InfoFrame.hh:36-39 *)
Definition new_InfoFrame (a : Z) (b : Z → Z) : Z → Z :=
  store_le 8 (a + 520) 1 (store_le 8 (a + 512) PS_PER_TSC_DEFAULT (store_le 4 (a + 4) 0 (store_le 4 a 0 b))).

(** The members of [InitLoader], boot/init-loader-amd64/boot/load_init.hh:73-86 *)
Record InitLoader := mkLoader {
  l_img : Z; l_memEntry : Z; l_mapper : MemMapper; l_portal : Z;
  l_processorAllocatorPresent : bool; l_initSC : Z }.

Definition with_mapper (mm : MemMapper) (l : InitLoader) : InitLoader :=
  mkLoader (l_img l) (l_memEntry l) mm (l_portal l) (l_processorAllocatorPresent l) (l_initSC l).
Definition with_portal (p : Z) (l : InitLoader) : InitLoader :=
  mkLoader (l_img l) (l_memEntry l) (l_mapper l) p (l_processorAllocatorPresent l) (l_initSC l).

(** The constructor of [InitLoader]; [memEntry] is [kmem_root_entry], the capability space
    is not set, boot/init-loader-amd64/boot/load_init.cc:59-71 *)
Definition newLoader (image memEntry : Z) : InitLoader :=
  mkLoader image memEntry
    (mkMapper (mkCapAlloc CAP_ALLOC_START (CAP_ALLOC_END - CAP_ALLOC_START) 0) KM []) 0 false SCHEDULERS_START.

Section loader.
Context {Q S : Type} `{Fifo Q} `{HasPageMaps S} `{KernelObjects S} `{HasCapMaps S}
  `{!HasRefs S} `{RefSubjects S} `{!HasThreads Q S} `{ThreadLayout} `{!HasPortals Q S} `{PortalLayout}
  `{HasMemory S} `{!MemoryCasts S} `{!HasBytes S}.

(** [CapAlloc::setCSpace]; the entries of a map follow its header,
    boot/init-loader-amd64/boot/CapAlloc.hh:43 *)
Definition setCSpace (cspace : Z) (l : InitLoader) : InitLoader :=
  let ca := caps (l_mapper l) in
  with_mapper (with_caps (mkCapAlloc (ca_next ca) (ca_remaining ca) (cspace + caps_offset (S := S))) (l_mapper l)) l.

(** ** Roots of the resource tree *)

(** [boot::initMemoryRegions]; the entries and objects are static,
    boot/memory-root/boot/memory-root.cc:47-53 *)
Definition initMemoryRegions (deviceRoot deviceEntry kmemRoot kmemEntry : Z) : kernel S (optional unit) :=
  kassert (isKernelAddress deviceRoot);;;
  initRoot deviceEntry (mkCap deviceRoot 0 NOFLAG);;;
  acquire kmemEntry;;;
  c <-- cap deviceEntry;;
  inherit deviceEntry c kmemEntry (mkCap kmemRoot 0 NOFLAG) (kret tt).

(** ** Capabilities *)

(** [InitLoader::create], boot/init-loader-amd64/boot/load_init.cc:105-113 *)
Definition create_object (factory : Z → Z → Z → kernel S (optional Z)) (l : InitLoader) (dstEntry : optional Z)
    : kernel S (optional Z) :=
  match dstEntry with
  | THROW e => kret (THROW e)
  | OK dst =>
    a <-- acquire dst;;
    if negb (isOK a) then kret (THROW LOST_RACE) else
    c <-- cap (l_memEntry l);;
    res <-- factory dst (l_memEntry l) c;;
    match res with
    | THROW e => reset dst;;; kret (THROW e)
    | OK o => kret (OK o)
    end
  end.

(** [InitLoader::csSet] of an entry, boot/init-loader-amd64/boot/load_init.cc:115-123 *)
Definition csSet_entry (l : InitLoader) (dst root : Z) : kernel S (optional unit) :=
  rc <-- cap root;;
  kassert (isUsable rc);;;
  match ca_get (caps (l_mapper l)) dst with
  | THROW e => kret (THROW e)
  | OK dstEntry =>
    res <-- acquire dstEntry;;
    if negb (isOK res) then kret res else
    inherit root rc dstEntry (asReference rc) (kret tt)
  end.

(** [InitLoader::csSet] of an object; [kobj] is [image2kernel(&obj)],
    boot/init-loader-amd64/boot/load_init.cc:125-132 *)
Definition csSet_object (l : InitLoader) (dst kobj : Z) : kernel S (optional unit) :=
  match ca_get (caps (l_mapper l)) dst with
  | THROW e => kret (THROW e)
  | OK dstEntry =>
    res <-- acquire dstEntry;;
    if negb (isOK res) then kret res else
    c <-- cap (l_memEntry l);;
    inherit (l_memEntry l) c dstEntry (mkCap kobj 0 NOFLAG) (kret tt)
  end.

(** A sequence of [csSet] up to the first error. *)
Fixpoint csSet_objects (l : InitLoader) (ds : list (Z * Z)) : kernel S (optional unit) :=
  match ds with
  | [] => kret (OK tt)
  | (dst, kobj) :: ds =>
    res <-- csSet_object l dst kobj;;
    if isOK res then csSet_objects l ds else kret res
  end.

(** ** The phases of loading *)

(** The sizes and constructors of the objects, the plugins, and the objects that exist from the
    start: [kfactories] at the pointers from [EXAMPLE_FACTORY] on, the entry of the device
    memory, the schedulers and the interrupt controllers of the [numThreads] hardware threads. *)
Context (sizeofPageMap sizeofRegion sizeofPortal sizeofEC : Z)
  (newPageMap : Z → Z → Z → Z → kernel S unit) (newRegion : Z → MemoryRegion.MemoryRegion → kernel S unit)
  (newMap : Z → CapMap → kernel S unit) (getRoot : Z → Z)
  (kfactories : list Z) (deviceEntry : Z) (kscheduler kinterrupt : Z → Z) (numThreads : Z)
  (earlyPlugins lastPlugins : InitLoader → kernel S InitLoader) (infoPlugins : Z → kernel S unit).

#[local] Existing Instance kernel_map_ops.

Definition map_ops : MapOps S := kernel_map_ops sizeofPageMap newPageMap.
#[local] Existing Instance map_ops | 0.
#[local] Instance frame_ops : FrameOps S := {| op_createFrame := createFrame sizeofRegion newRegion |}.

(** The capabilities for the hardware threads: at [start], one after the other. *)
Definition per_thread (start : Z) (kobj : Z → Z) : list (Z * Z) :=
  (λ id, (start + id, kobj id)) <$> seqZ 0 numThreads.

(** The assertions on the number of threads: the differences are 32-bit words,
    boot/init-loader-amd64/boot/load_init.cc:174 *)
Definition threads_fit (start : Z) : bool := numThreads <=? u32 (start - APP_CAP_START).

(** The part of [InitLoader::initCSpace] behind the capability space: the errors end it,
    boot/init-loader-amd64/boot/load_init.cc:155-193 *)
Definition fillCSpace (l : InitLoader) : kernel S (optional unit * InitLoader) :=
  res <-- csSet_objects l (zip (seqZ EXAMPLE_FACTORY 8) kfactories);;
  if negb (isOK res) then kret (res, l) else
  res <-- csSet_entry l DEVICE_MEM deviceEntry;;
  if negb (isOK res) then kret (res, l) else
  res <-- (if l_processorAllocatorPresent l then kret (OK tt)
           else kassert (threads_fit SCHEDULERS_START);;;
                csSet_objects l (per_thread SCHEDULERS_START kscheduler));;
  if negb (isOK res) then kret (res, l) else
  kassert (threads_fit INTERRUPT_CONTROL_START);;;
  res <-- csSet_objects l (per_thread INTERRUPT_CONTROL_START kinterrupt);;
  if negb (isOK res) then kret (res, l) else
  l <-- lastPlugins l;;
  kret (OK tt, l).

(** [InitLoader::initCSpace], boot/init-loader-amd64/boot/load_init.cc:134-194 *)
Definition initCSpace (l : InitLoader) : kernel S (optional unit * InitLoader) :=
  kassert (cap_count 12 =? CSPACE_SIZE);;;
  c <-- cap (l_memEntry l);;
  ocspace <-- CapMap_initial newMap getRoot (l_memEntry l) c 12 20 0;;
  match ocspace with
  | THROW e => kret (THROW e, l)
  | OK cspace =>
    let l := setCSpace cspace l in
    res <-- csSet_entry l CSPACE (getRoot cspace);;
    if negb (isOK res) then kret (res, l) else
    res <-- csSet_entry l KM (l_memEntry l);;
    if negb (isOK res) then kret (res, l) else
    r <-- installPML4 sizeofPageMap newPageMap PML4 (l_mapper l);;
    let l := with_mapper r.2 l in
    if negb (isOK r.1) then kret (r.1, l) else fillCSpace l
  end.

(** [InitLoader::createInfoFrame]; the result of [mmap] is not used,
    boot/init-loader-amd64/boot/load_init.cc:196-216 *)
Definition createInfoFrame (fuel : nat) (ipc_vaddr : Z) (l : InitLoader) : kernel S (optional Z * InitLoader) :=
  let size := round_up sizeof_InfoFrame align2M in
  let ca := caps (l_mapper l) in
  frameCap <-- op_createFrame ca (kmemCap (l_mapper l)) INFO_FRAME size align2M;;
  match frameCap with
  | THROW e => kret (THROW e, l)
  | OK frameCap =>
    r <-- mmap fuel ipc_vaddr size true false frameCap 0 (l_mapper l);;
    let l := with_mapper r.2 l in
    match ca_get (caps (l_mapper l)) frameCap with
    | THROW e => kret (THROW e, l)
    | OK entry =>
      info <-- op_frameInfo entry;;
      match info with
      | THROW e => kret (THROW e, l)
      | OK info =>
        kassert (kernelmem (MemoryRegion.i_start info));;;
        let a := logint (MemoryRegion.i_start info) in
        upd_bytes (new_InfoFrame a);;;
        upd_bytes (store_le 8 (a + 520) numThreads);;;
        infoPlugins a;;;
        kret (OK frameCap, l)
      end
    end
  end.

(** [InitLoader::createPortal], boot/init-loader-amd64/boot/load_init.cc:218-230 *)
Definition createPortal (infoFrame dstPortal : Z) (l : InitLoader) : kernel S (optional unit * InitLoader) :=
  let ca := caps (l_mapper l) in
  portal <-- create_object (portal_factory sizeofPortal) l (ca_get ca dstPortal);;
  match portal with
  | THROW e => kret (THROW e, l)
  | OK p =>
    res <-- setInvocationBuf p (ca_get ca infoFrame) 0;;
    match res with
    | THROW e => kret (THROW e, l)
    | OK _ => kret (OK tt, with_portal p l)
    end
  end.

(** The thread starts at the entry point with the address of the info frame in [rdi],
    boot/init-loader-amd64/boot/load_init.cc:317-319 *)
Definition start_thread (ec ipc_vaddr entry : Z) : kernel S unit :=
  upd_ec ec (λ c, with_threadState (with_rdi ipc_vaddr (threadState c)) c);;;
  setEntryPoint ec entry;;;
  setTrapped ec false.

(** [InitLoader::createEC]; the result of [setOwner] is not used,
    boot/init-loader-amd64/boot/load_init.cc:306-321 *)
Definition createEC `{Invocations S} (ipc_vaddr : Z) (l : InitLoader) : kernel S (optional unit) :=
  let ca := caps (l_mapper l) in
  ec <-- create_object (λ d m c, EC_factory sizeofEC d m c 0 None) l (ca_get ca EC_PTR);;
  match ec with
  | THROW e => kret (THROW e)
  | OK ec =>
    setOwner (l_portal l) (ca_get ca EC_PTR);;;
    res <-- setCapSpace ec (ca_get ca CSPACE);;
    if negb (isOK res) then kret res else
    res <-- setAddressSpace ec (ca_get ca PML4);;
    if negb (isOK res) then kret res else
    res <-- setSchedulingContext_init ec (ca_get ca (l_initSC l));;
    if negb (isOK res) then kret res else
    s <-- kget;;
    start_thread ec ipc_vaddr (entry (header (l_img l) (bytes s)));;;
    kret (OK tt)
  end.

(** [InitLoader::load]; [*] of an [optional] without a value is whatever lies in the
    memory of the value, [garbage], boot/init-loader-amd64/boot/load_init.cc:75-92 *)
Definition load `{Invocations S} (fuel : nat) (garbage : Z) (l : InitLoader) : kernel S (optional unit) :=
  s <-- kget;;
  match isValid (l_img l) (bytes s) with
  | None => λ _, AssertFail
  | Some false => kret (THROW GENERIC_ERROR)
  | Some true =>
    l <-- earlyPlugins l;;
    r <-- initCSpace l;;
    let l := r.2 in
    r <-- loadImage fuel (l_img l) (l_mapper l);;
    let l := with_mapper r.2 l in
    let ipc_vaddr := match r.1 with OK a => a | THROW _ => garbage end in
    r <-- createInfoFrame fuel ipc_vaddr l;;
    let '(infoFramePtr, l) := r in
    match infoFramePtr with
    | THROW e => kret (THROW e)
    | OK infoFrame =>
      r <-- createPortal infoFrame PORTAL l;;
      let '(res, l) := r in
      match res with
      | THROW e => kret (THROW e)
      | OK _ => createEC ipc_vaddr l
      end
    end
  end.

End loader.

(** ** The first thread *)

Section first_thread.
Context {Q S : Type} `{Fifo Q} `{HasPageMaps S} `{KernelObjects S} `{HasCapMaps S}
  `{!HasRefs S} `{RefSubjects S} `{!HasThreads Q S} `{ThreadLayout}.

(** The last step of the loader makes the first thread ready.  A thread that only waits
    for its start, with a scheduler, gets the entry point of the image as its instruction
    pointer and the address of the info frame as its argument in [rdi], is no longer
    trapped, and is put at the end of the ready queue of its scheduler, whose
    hardware thread is woken up unless it runs another thread. *)
Theorem start_thread_ready e c (s : S) ipc_vaddr entry a :
  let t := threads s in
  ecs t !! e = Some c → queues_ok t → scheduler_of s t e = Some a →
  isBlocked (flags c) = true → isBlocked (Z.land (flags c) (inv_flags IS_TRAPPED)) = false →
  ∃ t' c', start_thread e ipc_vaddr entry s = Done tt (set_threads t' s) ∧
    ecs t' = <[e := c']> (ecs t) ∧ rip (threadState c') = entry ∧ rdi (threadState c') = ipc_vaddr ∧
    flags c' = Z.land (flags c) (inv_flags IS_TRAPPED) ∧ queued_last t t' a (ec_handle e).
Proof.
  intros t He Hqs Ha Hb Hub. unfold start_thread, setEntryPoint, setTrapped.
  set (c1 := with_threadState (with_rdi ipc_vaddr (threadState c)) c).
  set (c2 := with_threadState (with_rip entry (threadState c1)) c1).
  set (t2 := set_ecs (<[e := c2]> (ecs t)) t).
  assert (upd_ec e (λ c, with_threadState (with_rdi ipc_vaddr (threadState c)) c) s =
    Done tt (set_threads (set_ecs (<[e := c1]> (ecs t)) t) s)) as Hrdi.
  { rewrite <- (set_threads_id s) at 1. exact (upd_ec_run s e (λ c, with_threadState (with_rdi ipc_vaddr (threadState c)) c) c t He). }
  rewrite (kbind_run _ _ _ _ _ Hrdi), (kbind_run _ _ _ _ _ (upd_ec_run s e _ c1 _ (lookup_insert_eq _ _ _))).
  cbn [ecs set_ecs]. rewrite insert_insert_eq. fold c2.
  destruct (clearFlagsResume_run e IS_TRAPPED c2 s t2) as (t' & Hr & Hecs & _ & _ & _ & Hq); [apply lookup_insert_eq|done|].
  change (set_ecs _ (set_ecs _ t)) with t2.
  exists t', (with_flags (Z.land (flags c2) (inv_flags IS_TRAPPED)) c2). split; [exact Hr|].
  split; [by rewrite Hecs; cbn; rewrite insert_insert_eq|]. do 3 (split; [done|]).
  change (flags c2) with (flags c) in Hq. rewrite Hb, Hub in Hq. cbn in Hq.
  change (scheduler_of s t2 e) with (scheduler_of s t e) in Hq. rewrite Ha in Hq. exact Hq.
Qed.

End first_thread.

(** ** The resource tree *)

Section tree.
Context {S : Type} `{HasEntries S} `{KernelObjects S}.
Implicit Types (m : gmap Z CapEntry) (s : S).

(** The entry of the capability space and the capability for an object. *)
Definition set_node (cs : Z) (d : Z * Z) : node := CapRing.fresh (cs_get cs d.1) (mkCap d.2 0 NOFLAG).

(** The entry is empty and the object lies in the memory of the parent [p]. *)
Definition settable m s (cs : Z) (pr : Intervals.Range) (p : Z) (d : Z * Z) : Prop :=
  let e := cs_get cs d.1 in
  capPointer e = true ∧ (∃ t, m !! e = Some t ∧ _cap t = asEmpty) ∧
  ∃ tr, hasRange s e (mkCap d.2 0 NOFLAG) tr ∧ linkable pr p tr (mkCap d.2 0 NOFLAG) = true.

Lemma csSet_object_run ld m s l1 n l2 pr d :
  let cs := ca_cspace (caps (l_mapper ld)) in
  n_addr n = l_memEntry ld → Ring m (l1 ++ n :: l2) → isUsable (n_cap n) = true → n_locked n = false →
  hasRange s (n_addr n) (n_cap n) pr → cs_get cs d.1 ∉ addrs (l1 ++ n :: l2) → settable m s cs pr (n_cap n) d →
  ∃ m', csSet_object ld d.1 d.2 (set_entries m s) = Done (OK tt) (set_entries m' s) ∧
    Ring m' (l1 ++ n :: set_node cs d :: l2) ∧
    ∀ a, a ≠ cs_get cs d.1 → a ∉ addrs (l1 ++ n :: l2) → m' !! a = m !! a.
Proof.
  intros cs Hn HR Hu Hl Hpr Hout (Hcp & (t & Ht & Hc) & tr & Htr & Hlink).
  unfold csSet_object, ca_get. fold cs. set (e := cs_get cs d.1) in *.
  rewrite (kbind_run _ _ _ _ _ (acquire_run m s e t Ht Hc)). cbn [isOK negb].
  destruct (Ring_node _ _ _ _ HR) as (p & q & _ & _ & _ & Hm).
  assert ((<[e := with_cap asAllocated t]> m) !! l_memEntry ld = Some (CapRing.entry_of n p q)) as Hm'.
  { rewrite lookup_insert_ne, <- Hn; [done|]. intros E. apply Hout. rewrite E, <- Hn.
    apply list_elem_of_fmap. exists n. split; [done|]. apply elem_of_app. right. by left. }
  rewrite (kbind_run _ _ _ _ _ (cap_run _ s _ _ Hm')). change (_cap (CapRing.entry_of n p q)) with (n_cap n). rewrite <- Hn.
  by apply (inherit_acquired m s l1 n l2 e t (mkCap d.2 0 NOFLAG) pr tr).
Qed.

(** The objects become children of the kernel memory, one after the other. *)
Lemma csSet_objects_run ld s l1 n pr ds : ∀ m l2,
  let cs := ca_cspace (caps (l_mapper ld)) in
  n_addr n = l_memEntry ld → Ring m (l1 ++ n :: l2) → isUsable (n_cap n) = true → n_locked n = false →
  hasRange s (n_addr n) (n_cap n) pr → NoDup (addrs (set_node cs <$> ds)) →
  (∀ d, d ∈ ds → cs_get cs d.1 ∉ addrs (l1 ++ n :: l2) ∧ settable m s cs pr (n_cap n) d) →
  ∃ m', csSet_objects ld ds (set_entries m s) = Done (OK tt) (set_entries m' s) ∧
    Ring m' (l1 ++ n :: reverse (set_node cs <$> ds) ++ l2) ∧
    ∀ a, a ∉ addrs (set_node cs <$> ds) → a ∉ addrs (l1 ++ n :: l2) → m' !! a = m !! a.
Proof.
  induction ds as [|d ds IH]; intros m l2 cs Hn HR Hu Hl Hpr Hnd Hds; cbn [csSet_objects].
  { exists m. split_and!; try done. }
  destruct (Hds d ltac:(by left)) as [Hout Hset]. rewrite fmap_cons in Hnd. apply NoDup_cons in Hnd as [Hd Hnd].
  destruct (csSet_object_run ld m s l1 n l2 pr d Hn HR Hu Hl Hpr Hout Hset) as (m1 & Hrun & HR1 & Hf1). fold cs in HR1, Hf1.
  destruct d as [dst kobj]. cbn [fst snd] in *. rewrite (kbind_run _ _ _ _ _ Hrun). cbn [isOK].
  destruct (IH m1 (set_node cs (dst, kobj) :: l2)) as (m' & Hrun' & HR' & Hf'); try done.
  { intros x Hx. destruct (Hds x ltac:(by right)) as (Hxo & Hxc & (t & Ht & Hte) & Hxr). fold cs.
    assert (cs_get cs x.1 ≠ cs_get cs dst) as Hne.
    { intros E. apply Hd. cbn. rewrite <- E. apply list_elem_of_fmap. exists (set_node cs x). split; [done|].
      apply list_elem_of_fmap. by exists x. }
    split.
    - unfold addrs in *. rewrite !fmap_app, !fmap_cons in *. cbn. set_solver.
    - split; [done|]. split; [|done]. exists t. by rewrite Hf1. }
  fold cs in HR', Hf'. exists m'. split; [done|]. split.
  - rewrite fmap_cons, reverse_cons, <- app_assoc. exact HR'.
  - intros a Ha Ha'. rewrite fmap_cons in Ha. unfold addrs in *. rewrite fmap_cons in Ha. apply not_elem_of_cons in Ha as [Ha1 Ha2].
    rewrite Hf', Hf1; [done|done|done|done|]. rewrite !fmap_app, !fmap_cons in *. cbn. set_solver.
Qed.

Lemma initRoot_run m s e t c :
  m !! e = Some t → _cap t = asEmpty → capPointer e = true → isUsable c = true →
  initRoot e c (set_entries m s) =
    Done tt (set_entries (<[e := CapRing.entry_of (CapRing.fresh e c) e e]> m) s).
Proof.
  intros He Ht Hc Hu. pose proof Hc as Hk. unfold capPointer in Hk. bool_hyps.
  unfold initRoot. rewrite !kassert_bind by done. rewrite (kbind_run _ _ _ _ _ (cap_run m s e t He)), Ht.
  rewrite kassert_bind by done. rewrite (kbind_run _ _ _ _ _ (mkLink_run e 0 _ Hc ltac:(lia))).
  unfold kbind. erewrite wr_run by done. erewrite wr_run by apply lookup_insert_eq.
  erewrite wr_run by apply lookup_insert_eq. by rewrite !insert_insert_eq.
Qed.

Lemma Ring_single m e c :
  capPointer e = true → Ring (<[e := CapRing.entry_of (CapRing.fresh e c) e e]> m) [CapRing.fresh e c].
Proof.
  intros Hc. split; [apply NoDup_singleton|]. split; [by apply Forall_singleton|].
  split; [apply lookup_insert_eq|done].
Qed.

(** The resource tree at the start.  [initMemoryRegions] makes the device memory the root and
    the kernel memory its child; each object that the loader then enters into the
    capability space becomes a child of the kernel memory.  All entries form one ring in
    which the objects follow the kernel memory, the last one first. *)
Theorem boot_tree ld m s deviceRoot deviceEntry kmemRoot ds pr kr td tk :
  let cs := ca_cspace (caps (l_mapper ld)) in
  let dc := mkCap deviceRoot 0 NOFLAG in let kc := mkCap kmemRoot 0 NOFLAG in
  let kmemEntry := l_memEntry ld in
  isKernelAddress deviceRoot = true → capPointer deviceEntry = true → capPointer kmemEntry = true →
  deviceEntry ≠ kmemEntry → isUsable dc = true → isUsable kc = true →
  m !! deviceEntry = Some td → _cap td = asEmpty → m !! kmemEntry = Some tk → _cap tk = asEmpty →
  hasRange s deviceEntry dc pr → hasRange s kmemEntry kc kr → linkable pr dc kr kc = true →
  NoDup (addrs (set_node cs <$> ds)) →
  (∀ d, d ∈ ds → cs_get cs d.1 ≠ deviceEntry ∧ cs_get cs d.1 ≠ kmemEntry ∧ settable m s cs kr kc d) →
  ∃ m1 m2, initMemoryRegions deviceRoot deviceEntry kmemRoot kmemEntry (set_entries m s) =
      Done (OK tt) (set_entries m1 s) ∧
    csSet_objects ld ds (set_entries m1 s) = Done (OK tt) (set_entries m2 s) ∧
    Ring m2 (CapRing.fresh deviceEntry dc :: CapRing.fresh kmemEntry kc :: reverse (set_node cs <$> ds)).
Proof.
  intros cs dc kc kmemEntry Hk Hdp Hkp Hne Hdu Hku Hd Htd Hkm Htk Hdr Hkr Hlink Hnd Hds.
  unfold initMemoryRegions. rewrite kassert_bind by done.
  rewrite (kbind_run _ _ _ _ _ (initRoot_run m s deviceEntry td dc Hd Htd Hdp Hdu)).
  set (m0 := <[deviceEntry := _]> m). pose proof (Ring_single m deviceEntry dc Hdp) as HR0. fold m0 in HR0.
  assert (m0 !! kmemEntry = Some tk) as Hk0 by (unfold m0; by rewrite lookup_insert_ne).
  rewrite (kbind_run _ _ _ _ _ (acquire_run m0 s kmemEntry tk Hk0 Htk)).
  assert (kmemEntry ∉ addrs [CapRing.fresh deviceEntry dc]) as Hout
    by (unfold addrs; cbn; rewrite list_elem_of_singleton; congruence).
  erewrite kbind_run by (apply cap_run; rewrite lookup_insert_ne by done; apply lookup_insert_eq).
  destruct (inherit_acquired m0 s [] (CapRing.fresh deviceEntry dc) [] kmemEntry tk kc pr kr)
    as (m1 & Hrun & HR1 & Hf1); try done.
  destruct (csSet_objects_run ld s [CapRing.fresh deviceEntry dc] (CapRing.fresh kmemEntry kc) kr ds m1 [])
    as (m2 & Hrun2 & HR2 & _); try done.
  { intros d Hin. destruct (Hds d Hin) as (N1 & N2 & Hc & (t & Ht & Hte) & Hr). fold cs. split.
    - unfold addrs; cbn. rewrite elem_of_cons, list_elem_of_singleton. tauto.
    - split; [done|]. split; [|done]. exists t. split; [|done].
      rewrite Hf1; [unfold m0; by rewrite lookup_insert_ne by done|done|].
      unfold addrs; cbn. by rewrite list_elem_of_singleton. }
  fold cs in HR2. rewrite app_nil_r in HR2. exists m1, m2. split; [exact Hrun|]. split; [exact Hrun2|exact HR2].
Qed.

End tree.

(** ** Checks and errors *)

(** The checks of the number of hardware threads never fail: the difference of the pointers
    is negative and wraps around, although there are 256 pointers for each kind. *)
Lemma threads_fit_vacuous n :
  n < 2 ^ 31 → threads_fit n SCHEDULERS_START = true ∧ threads_fit n INTERRUPT_CONTROL_START = true.
Proof.
  intros Hn. unfold threads_fit. change (u32 (SCHEDULERS_START - APP_CAP_START)) with (2 ^ 32 - 807).
  change (u32 (INTERRUPT_CONTROL_START - APP_CAP_START)) with (2 ^ 32 - 547). lia.
Qed.

Section errors.
Context {S : Type} `{HasEntries S} `{KernelObjects S} `{HasMemory S} `{!MemoryApart S}.

(** [InitLoader::create] stops the kernel when a factory has no memory: the factory has
    already reset the entry. *)
Lemma create_object_reset ld factory m (s : S) dst ce kc e m2 :
  m !! dst = Some (mkEntry asEmpty 0 0) → dst ≠ l_memEntry ld → m !! l_memEntry ld = Some ce → _cap ce = kc →
  factory dst (l_memEntry ld) kc (set_entries (<[dst := mkEntry asAllocated 0 0]> m) s) =
    Done (THROW e) (set_entries m2 s) →
  m2 !! dst = Some (mkEntry asEmpty 0 0) →
  create_object factory ld (OK dst) (set_entries m s) = AssertFail.
Proof.
  intros Hd Hne Hc Hkc Hf Hm2. unfold create_object.
  rewrite (kbind_run _ _ _ _ _ (acquire_run m s dst _ Hd eq_refl)). cbn [isOK negb].
  erewrite kbind_run by (apply cap_run; by rewrite lookup_insert_ne by done). rewrite Hkc.
  rewrite (kbind_run _ _ _ _ _ Hf). unfold kbind. by rewrite reset_empty.
Qed.

End errors.

(** ** Examples *)

Lemma start_thread_ready_witness :
  ∃ t' c', start_thread w_ec1 0x600000 0x200000 w_state = Done tt (set_threads t' w_state) ∧
    ecs t' = <[w_ec1 := c']> (ecs (threads w_state)) ∧ rip (threadState c') = 0x200000 ∧
    rdi (threadState c') = 0x600000 ∧ queued_last (threads w_state) t' w_sc (ec_handle w_ec1).
Proof.
  destruct (start_thread_ready w_ec1 w_thread1 w_state 0x600000 0x200000 w_sc)
    as (t' & c' & Hr & He & Hrip & Hrdi & _ & Hq); [reflexivity|exact w_queues_ok|reflexivity..|].
  exists t', c'. split_and!; [exact Hr|exact He|exact Hrip|exact Hrdi|exact Hq].
Defined.

(** The device memory covers all addresses, the kernel memory the lower 4 GiB, and the
    objects one byte. *)
Definition x_device : Z := KERNELMEM_ADDR + 0x2000.
Definition x_kmem : Z := KERNELMEM_ADDR + 0x3000.
Definition x_objs : list (Z * Z) := [(6, KERNELMEM_ADDR + 0x4000); (7, KERNELMEM_ADDR + 0x5000); (8, KERNELMEM_ADDR + 0x6000)].

#[local] Instance x_objects : KernelObjects (gmap Z CapEntry) := {|
  CapOps.addressRange o e c := kret
    (if o =? x_device then DeviceMemory.rootRange
     else if o =? x_kmem then Intervals.mkRange 0 KERNELMEM_SIZE else Intervals.bySize (fromKernel o) 1);
  CapOps.mint := default_mint; CapOps.deleteCap := λ _ _ _, kret (OK tt) |}.

Definition x_loader : InitLoader := setCSpace (S := system) (wa 10) (newLoader 0 (wa 1)).
Definition x_entries : gmap Z CapEntry :=
  <[wa 0 := mkEntry asEmpty 0 0]> (<[wa 1 := mkEntry asEmpty 0 0]>
    (list_to_map ((λ d, (cs_get (ca_cspace (caps (l_mapper x_loader))) d.1, mkEntry asEmpty 0 0)) <$> x_objs))).

Lemma boot_tree_witness :
  ∃ m1 m2, initMemoryRegions x_device (wa 0) x_kmem (wa 1) (set_entries x_entries ∅) =
      Done (OK tt) (set_entries m1 ∅) ∧
    csSet_objects x_loader x_objs (set_entries m1 ∅) = Done (OK tt) (set_entries m2 ∅) ∧
    Ring m2 (CapRing.fresh (wa 0) (mkCap x_device 0 NOFLAG) :: CapRing.fresh (wa 1) (mkCap x_kmem 0 NOFLAG) ::
      reverse (set_node (ca_cspace (caps (l_mapper x_loader))) <$> x_objs)).
Proof.
  apply (boot_tree x_loader x_entries ∅ x_device (wa 0) x_kmem x_objs DeviceMemory.rootRange
    (Intervals.mkRange 0 KERNELMEM_SIZE) (mkEntry asEmpty 0 0) (mkEntry asEmpty 0 0));
    first [reflexivity | computes | idtac].
  - split; [computes|reflexivity].
  - split; [computes|reflexivity].
  - intros d Hd. repeat (apply elem_of_cons in Hd as [->|Hd]); [..|by apply elem_of_nil in Hd].
    all: split; [computes|]; split; [computes|]; split; [reflexivity|].
    all: split; [eexists; split; reflexivity|].
    all: eexists; split; [split; [computes|reflexivity]|reflexivity].
Defined.
