(* ===== verification/PciRing.v ===== *)
(** * The message ring between host and coprocessor

    Models mythos/pci-mpsc-queue/mythos/PciMsgQueueMPSC.hh: a ring of slots in
    shared memory through which many producers send messages to one consumer,
    over a bus without atomic operations.  The producers share a counter on their
    side of the bus, the consumer has one on its side; everything else is in the
    16-bit sequence number of each slot.

    Every access to a counter, a sequence number or the data of a slot is one
    step, so that all interleavings of producers and consumer are executions of
    the model.  The ring is shown to be a queue: messages arrive once, unchanged
    and in the order in which the producers took their tickets, as long as no more
    than [2^15] tickets are open at a time; the wrap-around of counters and sequence
    numbers is part of the model. *)

From stdpp Require Import base tactics numbers list gmap.
From Stdlib Require Import ZArith Lia.
From S2P Require Import Prelude Traces.

Local Open Scope Z_scope.

Module PCIeRing.

Section ring.
(** The type of the messages and the number of slots. *)
Context {T : Type} (SLOTS : Z).

(** ** The channel *)

(** [PCIeRingChannel::Slot], mythos/pci-mpsc-queue/mythos/PciMsgQueueMPSC.hh:53-56 *)
Record Slot := mkSlot { seq : Z; data : T }.

(** [PCIeRingChannel::init], mythos/pci-mpsc-queue/mythos/PciMsgQueueMPSC.hh:58-59 *)
Definition init (slotz : list Slot) : list Slot :=
  imap (λ i s, mkSlot (u16 (Z.shiftl (Z.of_nat i) 1)) (data s)) slotz.

(** [PCIeRingChannel::getSlot]: its index, mythos/pci-mpsc-queue/mythos/PciMsgQueueMPSC.hh:60 *)
Definition getSlot (handle : Z) : nat := Z.to_nat (handle mod SLOTS).

(** [PCIeRingChannel::getData], mythos/pci-mpsc-queue/mythos/PciMsgQueueMPSC.hh:61-62 *)
Definition getData (handle : Z) (slotz : list Slot) : option T := data <$> slotz !! getSlot handle.

(** The sequence numbers of a slot that waits for a message and of one that holds it. *)
Definition writeable_seq (handle : Z) : Z := u16 (Z.shiftl handle 1).
Definition readable_seq (handle : Z) : Z := u16 (Z.lor (Z.shiftl handle 1) 1).

(** [PCIeRingChannel::isWriteable], mythos/pci-mpsc-queue/mythos/PciMsgQueueMPSC.hh:63 *)
Definition isWriteable (handle : Z) (slotz : list Slot) : bool :=
  bool_decide (seq <$> slotz !! getSlot handle = Some (writeable_seq handle)).

(** [PCIeRingChannel::isReadable], mythos/pci-mpsc-queue/mythos/PciMsgQueueMPSC.hh:64 *)
Definition isReadable (handle : Z) (slotz : list Slot) : bool :=
  bool_decide (seq <$> slotz !! getSlot handle = Some (readable_seq handle)).

(** [PCIeRingChannel::setReadable], mythos/pci-mpsc-queue/mythos/PciMsgQueueMPSC.hh:65 *)
Definition setReadable (handle : Z) (slotz : list Slot) : list Slot :=
  alter (λ s, mkSlot (readable_seq handle) (data s)) (getSlot handle) slotz.

(** [PCIeRingChannel::setWriteable], mythos/pci-mpsc-queue/mythos/PciMsgQueueMPSC.hh:66 *)
Definition setWriteable (handle : Z) (slotz : list Slot) : list Slot :=
  alter (λ s, mkSlot (u16 (Z.shiftl (handle + SLOTS) 1)) (data s)) (getSlot handle) slotz.

(** The copy of a message into a slot. *)
Definition setData (handle : Z) (msg : T) (slotz : list Slot) : list Slot :=
  alter (λ s, mkSlot (seq s) msg) (getSlot handle) slotz.

(** ** Producers and consumer *)

(** Where a producer is in [send]. *)
Inductive producer :=
  | AtTest (wp : Z) (msg : T)
  | AtCopy (wp : Z) (msg : T)
  | AtFinish (wp : Z).

(** Where the consumer is in [recv] or [tryRecv]. *)
Inductive consumer :=
  | Idle
  | TestRecv (rp : Z)
  | CopyRecv (rp : Z)
  | FinishRecv (rp : Z) (msg : T)
  | TryTest (temp : Z)
  | TryExchange (temp : Z).

(** The channel with the counters of both sides,
    mythos/pci-mpsc-queue/mythos/PciMsgQueueMPSC.hh:132-134 *)
Record ring := mkRing {
  slotz : list Slot;
  writePos : Z;
  readPos : Z;
  producers : gmap Z producer;
  reader : consumer
}.

Definition set_slotz (f : list Slot → list Slot) (r : ring) : ring :=
  mkRing (f (slotz r)) (writePos r) (readPos r) (producers r) (reader r).
Definition set_producer (p : Z) (s : option producer) (r : ring) : ring :=
  mkRing (slotz r) (writePos r) (readPos r) (partial_alter (λ _, s) p (producers r)) (reader r).
Definition set_reader (c : consumer) (r : ring) : ring :=
  mkRing (slotz r) (writePos r) (readPos r) (producers r) c.

(** [PCIeRingProducer::acquireSend]: the ticket, mythos/pci-mpsc-queue/mythos/PciMsgQueueMPSC.hh:157-158 *)
Definition acquireSend_ticket (p : Z) (msg : T) (r : ring) : ring :=
  set_producer p (Some (AtTest (writePos r) msg))
    (mkRing (slotz r) (u16 (writePos r + 1)) (readPos r) (producers r) (reader r)).

(** [PCIeRingProducer::acquireSend]: one round of the loop, mythos/pci-mpsc-queue/mythos/PciMsgQueueMPSC.hh:159-164 *)
Definition acquireSend_test (p wp : Z) (msg : T) (r : ring) : ring :=
  if isWriteable wp (slotz r) then set_producer p (Some (AtCopy wp msg)) r else r.

(** [PCIeRingProducer::send]: the copy, mythos/pci-mpsc-queue/mythos/PciMsgQueueMPSC.hh:185-188 *)
Definition send_copy (p wp : Z) (msg : T) (r : ring) : ring :=
  set_producer p (Some (AtFinish wp)) (set_slotz (setData wp msg) r).

(** [PCIeRingProducer::finishSend], mythos/pci-mpsc-queue/mythos/PciMsgQueueMPSC.hh:170-174 *)
Definition finishSend (p wp : Z) (r : ring) : ring :=
  set_producer p None (set_slotz (setReadable wp) r).

(** [PCIeRingConsumer::acquireRecv]: the ticket, mythos/pci-mpsc-queue/mythos/PciMsgQueueMPSC.hh:97-98 *)
Definition acquireRecv_ticket (r : ring) : ring :=
  mkRing (slotz r) (writePos r) (u16 (readPos r + 1)) (producers r) (TestRecv (readPos r)).

(** [PCIeRingConsumer::acquireRecv]: one round of the loop, mythos/pci-mpsc-queue/mythos/PciMsgQueueMPSC.hh:99-104 *)
Definition acquireRecv_test (rp : Z) (r : ring) : ring :=
  if isReadable rp (slotz r) then set_reader (CopyRecv rp) r else r.

(** [PCIeRingConsumer::tryAcquireRecv]: the load, mythos/pci-mpsc-queue/mythos/PciMsgQueueMPSC.hh:87-88 *)
Definition tryAcquireRecv_load (r : ring) : ring := set_reader (TryTest (readPos r)) r.

(** [PCIeRingConsumer::tryAcquireRecv]: the test, mythos/pci-mpsc-queue/mythos/PciMsgQueueMPSC.hh:89-94 *)
Definition tryAcquireRecv_test (temp : Z) (r : ring) : ring :=
  set_reader (if isReadable temp (slotz r) then TryExchange temp else Idle) r.

(** [PCIeRingConsumer::tryAcquireRecv]: the exchange, mythos/pci-mpsc-queue/mythos/PciMsgQueueMPSC.hh:90-94 *)
Definition tryAcquireRecv_exchange (temp : Z) (r : ring) : ring :=
  if readPos r =? temp
  then mkRing (slotz r) (writePos r) (u16 (readPos r + 1)) (producers r) (CopyRecv temp)
  else set_reader Idle r.

(** [PCIeRingConsumer::recv]: the copy, mythos/pci-mpsc-queue/mythos/PciMsgQueueMPSC.hh:124-127 *)
Definition recv_copy (rp : Z) (r : ring) : option ring :=
  msg ← getData rp (slotz r); Some (set_reader (FinishRecv rp msg) r).

(** [PCIeRingConsumer::finishRecv], mythos/pci-mpsc-queue/mythos/PciMsgQueueMPSC.hh:110-113 *)
Definition finishRecv (rp : Z) (r : ring) : ring := set_reader Idle (set_slotz (setWriteable rp) r).

(** [PCIeRingConsumer::hasMessages], mythos/pci-mpsc-queue/mythos/PciMsgQueueMPSC.hh:85 *)
Definition hasMessages (r : ring) : bool := isReadable (readPos r) (slotz r).

(** ** Executions *)

Inductive event := Send (msg : T) | Recv (msg : T).

(** One access of one of the [threads] that send or of the consumer. *)
Inductive step (threads : gset Z) : ring → option event → ring → Prop :=
  | s_ticket p msg r : p ∈ threads → producers r !! p = None →
      step threads r (Some (Send msg)) (acquireSend_ticket p msg r)
  | s_test p wp msg r : producers r !! p = Some (AtTest wp msg) →
      step threads r None (acquireSend_test p wp msg r)
  | s_copy p wp msg r : producers r !! p = Some (AtCopy wp msg) →
      step threads r None (send_copy p wp msg r)
  | s_finish p wp r : producers r !! p = Some (AtFinish wp) →
      step threads r None (finishSend p wp r)
  | s_rticket r : reader r = Idle → step threads r None (acquireRecv_ticket r)
  | s_rtest rp r : reader r = TestRecv rp → step threads r None (acquireRecv_test rp r)
  | s_rcopy rp r r' : reader r = CopyRecv rp → recv_copy rp r = Some r' → step threads r None r'
  | s_rfinish rp msg r : reader r = FinishRecv rp msg →
      step threads r (Some (Recv msg)) (finishRecv rp r)
  | s_rload r : reader r = Idle → step threads r None (tryAcquireRecv_load r)
  | s_rtry temp r : reader r = TryTest temp → step threads r None (tryAcquireRecv_test temp r)
  | s_rexchange temp r : reader r = TryExchange temp →
      step threads r None (tryAcquireRecv_exchange temp r).

(** The contract: a queue of messages. *)
Definition queue_effect `{EqDecision T} (e : event) (q : list T) : option (list T) :=
  match e with
  | Send msg => Some (q ++ [msg])
  | Recv msg => match q with m :: q => if decide (m = msg) then Some q else None | [] => None end
  end.

(** A channel after [init] with its counters. *)
Definition start (mem : list Slot) : ring := mkRing (init mem) 0 0 ∅ Idle.
End ring.

(** ** Arithmetic of tickets

    A ticket is the unbounded number of a message; a handle is its value modulo
    [2^16] and a sequence number is determined modulo [2^15]. *)

Lemma writeable_seq_ticket t : writeable_seq (u16 t) = u16 (2 * t).
Proof.
  unfold writeable_seq, wrap. rewrite Z.shiftl_mul_pow2 by lia. change (2 ^ 1) with 2.
  rewrite Z.mul_mod_idemp_l by lia. f_equal. lia.
Qed.

Lemma readable_seq_ticket t : readable_seq (u16 t) = u16 (2 * t + 1).
Proof.
  unfold readable_seq. rewrite Z.shiftl_mul_pow2 by lia. change (2 ^ 1) with 2.
  pose proof (Z.add_lor_land (u16 t * 2) 1) as E.
  assert (Z.land (u16 t * 2) 1 = 0) as E0 by (change 1 with (Z.ones 1); rewrite Z.land_ones by lia; apply Z_mod_mult).
  replace (Z.lor (u16 t * 2) 1) with (u16 t * 2 + 1) by lia.
  unfold wrap. rewrite <-Z.add_mod_idemp_l, Z.mul_mod_idemp_l, Z.add_mod_idemp_l by lia. f_equal. lia.
Qed.

Lemma next_seq_ticket n t : u16 (Z.shiftl (u16 t + n) 1) = u16 (2 * (t + n)).
Proof.
  rewrite Z.shiftl_mul_pow2 by lia. change (2 ^ 1) with 2. unfold wrap.
  rewrite <-Z.mul_mod_idemp_l, Z.add_mod_idemp_l, Z.mul_mod_idemp_l by lia. f_equal. lia.
Qed.

Lemma u16_succ t : u16 (u16 t + 1) = u16 (t + 1).
Proof. unfold wrap. by rewrite Z.add_mod_idemp_l by lia. Qed.

(** Sequence numbers distinguish tickets that are less than [2^15] apart, and the
    two states of a slot. *)
Lemma seq_inj h t : h ≤ t < h + 2 ^ 15 → u16 (2 * h) = u16 (2 * t) → h = t.
Proof.
  unfold wrap. intros Ht E. assert ((2 * t - 2 * h) mod 2 ^ 16 = 0) as Hm.
  { by rewrite Zminus_mod, <-E, Z.sub_diag. }
  rewrite Z.mod_small in Hm by lia. lia.
Qed.

Lemma seq_parity h t : u16 (2 * h + 1) ≠ u16 (2 * t).
Proof.
  unfold wrap. intros E. apply (f_equal (λ x, x mod 2)) in E.
  rewrite !Z.mod_mod_divide in E by (by exists (2 ^ 15)).
  rewrite Z.mul_comm, Z.add_comm, Z_mod_plus_full, Z.mul_comm, Z_mod_mult in E. done.
Qed.

Section correct.
Context {T : Type} `{EqDecision T} (SLOTS : Z).
Context (Hpos : 0 < SLOTS) (Hdiv : (SLOTS | 2 ^ 16)).

Notation ring := (ring (T := T)).

(** The slot of a ticket. *)
Definition index (t : Z) : nat := Z.to_nat (t mod SLOTS).

Lemma getSlot_ticket t : getSlot SLOTS (u16 t) = index t.
Proof using Hdiv. unfold getSlot, index, wrap. by rewrite Z.mod_mod_divide. Qed.

Lemma index_inj t t' : t ≤ t' < t + SLOTS → index t = index t' → t = t'.
Proof using Hpos.
  intros Ht E. unfold index in E. pose proof (Z.mod_pos_bound t SLOTS). pose proof (Z.mod_pos_bound t' SLOTS).
  assert ((t' - t) mod SLOTS = 0) as Hm.
  { rewrite Zminus_mod. replace (t' mod SLOTS) with (t mod SLOTS) by lia. by rewrite Z.sub_diag. }
  rewrite Z.mod_small in Hm by lia. lia.
Qed.

Lemma index_next t : index (t + SLOTS) = index t.
Proof using. unfold index. by replace (t + SLOTS) with (t + 1 * SLOTS) by lia; rewrite Z_mod_plus_full. Qed.

(** Changing the slot of a ticket of the window leaves the other slots. *)
Lemma window_alter (f : Slot → Slot) (l : list (Slot (T := T))) D t t' :
  D ≤ t < D + SLOTS → D ≤ t' < D + SLOTS →
  alter f (index t) l !! index t' = (if decide (t = t') then f else id) <$> l !! index t'.
Proof using Hpos.
  intros Ht Ht'. destruct (decide (t = t')) as [<-|Hne].
  - apply list_lookup_alter_eq.
  - rewrite list_lookup_alter_ne; [by destruct (_ !! _)|]. intros E. destruct Hne.
    destruct (Z.le_ge_cases t t'); [apply index_inj; lia|symmetry; apply index_inj; [lia|done]].
Qed.

Context (threads : gset Z) (Hfew : SLOTS + Z.of_nat (size threads) ≤ 2 ^ 15).

Notation step := (step (T := T) SLOTS threads).

(** ** The invariant

    [D] is the number of messages that have been received, [q] holds the messages
    with the tickets from [D], and [own] gives the producer that has not finished
    with a ticket. *)

(** A slot that waits for the message of ticket [t] or holds it. *)
Definition slot_ok (q : list T) (D : Z) (own : gmap Z Z) (t : Z) (s : Slot) : Prop :=
  if bool_decide (t < D + Z.of_nat (length q) ∧ own !! t = None)
  then seq s = u16 (2 * t + 1) ∧ q !! Z.to_nat (t - D) = Some (data s)
  else seq s = u16 (2 * t).

Definition producer_ok (slotz : list Slot) (q : list T) (D t : Z) (s : producer) : Prop :=
  match s with
  | AtTest wp msg => wp = u16 t ∧ q !! Z.to_nat (t - D) = Some msg
  | AtCopy wp msg => wp = u16 t ∧ t < D + SLOTS ∧ q !! Z.to_nat (t - D) = Some msg
  | AtFinish wp => wp = u16 t ∧ t < D + SLOTS ∧ q !! Z.to_nat (t - D) = data <$> slotz !! index t
  end.

(** The first message is complete. *)
Definition arrived (q : list T) (D : Z) (own : gmap Z Z) : Prop :=
  (0 < length q)%nat ∧ own !! D = None.

Definition reader_ok (q : list T) (D : Z) (own : gmap Z Z) (rp : Z) (c : consumer) : Prop :=
  match c with
  | Idle => rp = u16 D
  | TestRecv h => h = u16 D ∧ rp = u16 (D + 1)
  | CopyRecv h => h = u16 D ∧ rp = u16 (D + 1) ∧ arrived q D own
  | FinishRecv h msg => h = u16 D ∧ rp = u16 (D + 1) ∧ arrived q D own ∧ head q = Some msg
  | TryTest h => h = u16 D ∧ rp = u16 D
  | TryExchange h => h = u16 D ∧ rp = u16 D ∧ arrived q D own
  end.

Record inv (r : ring) (q : list T) (D : Z) (own : gmap Z Z) : Prop := mkInv {
  i_pos : 0 ≤ D;
  i_length : Z.of_nat (length (slotz r)) = SLOTS;
  i_write : writePos r = u16 (D + Z.of_nat (length q));
  i_read : reader_ok q D own (readPos r) (reader r);
  i_slots t : D ≤ t < D + SLOTS → ∃ s, slotz r !! index t = Some s ∧ slot_ok q D own t s;
  i_own t p : own !! t = Some p → D ≤ t < D + Z.of_nat (length q) ∧ p ∈ threads ∧
    ∃ s, producers r !! p = Some s ∧ producer_ok (slotz r) q D t s;
  i_inj t t' p : own !! t = Some p → own !! t' = Some p → t = t';
  i_owned p s : producers r !! p = Some s → ∃ t, own !! t = Some p;
  i_wait t : D + SLOTS ≤ t < D + Z.of_nat (length q) → is_Some (own !! t)
}.

(** Open tickets behind the ring belong to different producers, so there are not
    more than [2^15] tickets that are not received. *)
Lemma inv_few r q D own : inv r q D own → Z.of_nat (length q) ≤ SLOTS + Z.of_nat (size threads).
Proof using Hpos.
  intros I. destruct (decide (Z.of_nat (length q) ≤ SLOTS)) as [?|Hgt]; [lia|].
  set (n := (length q - Z.to_nat SLOTS)%nat).
  set (ts := (λ i : nat, D + SLOTS + Z.of_nat i) <$> List.seq 0 n).
  assert (∀ t, t ∈ ts → is_Some (own !! t)) as Hown.
  { intros t (i & -> & Hi%elem_of_seq)%list_elem_of_fmap. eapply i_wait; [exact I|]. lia. }
  set (ps := (λ t, default 0 (own !! t)) <$> ts).
  assert (NoDup ps) as Hnd.
  { apply NoDup_fmap_2_strong.
    - intros t t' Ht Ht' E. destruct (Hown t Ht) as [p Hp], (Hown t' Ht') as [p' Hp'].
      rewrite Hp, Hp' in E. cbn in E. subst. by eapply i_inj.
    - apply NoDup_fmap_2; [intros i j; lia|apply NoDup_seq]. }
  assert (list_to_set ps ⊆ threads) as Hsub.
  { intros p (t & -> & Ht)%elem_of_list_to_set%list_elem_of_fmap. destruct (Hown t Ht) as [p Hp].
    rewrite Hp. cbn. by eapply (i_own r q D own I). }
  apply subseteq_size in Hsub. rewrite size_list_to_set in Hsub by done.
  unfold ps, ts in Hsub. rewrite !length_fmap, length_seq in Hsub. unfold n in Hsub. lia.
Qed.

(** A sequence number tells the state of the slot of an open ticket. *)
Lemma inv_test r q D own t :
  inv r q D own → D ≤ t < D + Z.of_nat (length q) → isWriteable SLOTS (u16 t) (slotz r) = true →
  t < D + SLOTS.
Proof using Hpos Hdiv Hfew.
  intros I Ht Hw. unfold isWriteable in Hw. apply bool_decide_eq_true in Hw.
  rewrite getSlot_ticket, writeable_seq_ticket in Hw.
  set (h := D + (t - D) mod SLOTS). pose proof (Z.mod_pos_bound (t - D) SLOTS Hpos) as Hb.
  assert (index t = index h) as Ei.
  { unfold index, h. rewrite Z.add_mod_idemp_r by lia. do 2 f_equal. lia. }
  destruct (i_slots r q D own I h) as (s & Hs & Hok); [lia|].
  rewrite Ei, Hs in Hw. injection Hw as Hseq. unfold slot_ok in Hok.
  destruct (bool_decide _).
  - destruct Hok as [Hok _]. rewrite Hok in Hseq. by apply seq_parity in Hseq.
  - rewrite Hok in Hseq. pose proof (inv_few _ _ _ _ I). pose proof (Z.mod_le (t - D) SLOTS).
    apply seq_inj in Hseq; lia.
Qed.

Lemma inv_readable r q D own :
  inv r q D own → isReadable SLOTS (u16 D) (slotz r) = true ↔ arrived q D own.
Proof using Hpos Hdiv.
  intros I. unfold isReadable. rewrite bool_decide_eq_true, getSlot_ticket, readable_seq_ticket.
  destruct (i_slots r q D own I D) as (s & Hs & Hok); [lia|]. rewrite Hs. unfold slot_ok, arrived in *.
  case_bool_decide as Hb.
  - destruct Hok as [Hok _]. split; [intros _; split; [lia|apply Hb]|intros _; cbn; by rewrite Hok].
  - split; [intros [= E]; rewrite Hok in E; symmetry in E; by apply seq_parity in E|].
    intros [Hl Ho]. destruct Hb. split; [lia|done].
Qed.

(** ** Steps *)

Lemma reader_ok_app q D own msg p rp c :
  reader_ok q D own rp c → reader_ok (q ++ [msg]) D (<[D + Z.of_nat (length q) := p]> own) rp c.
Proof using threads.
  assert (arrived q D own → arrived (q ++ [msg]) D (<[D + Z.of_nat (length q) := p]> own)) as Ha.
  { intros [Hl Ho]. split; [rewrite length_app; lia|]. by rewrite lookup_insert_ne by lia. }
  destruct c; cbn; try (naive_solver); destruct q; naive_solver.
Qed.

Lemma step_ticket r q D own p msg :
  inv r q D own → p ∈ threads → producers r !! p = None →
  inv (acquireSend_ticket p msg r) (q ++ [msg]) D (<[D + Z.of_nat (length q) := p]> own).
Proof using.
  intros I Hp Hnone. pose proof I as [Hpos0 Hlen Hw Hr Hsl Hown Hinj Howned Hwait].
  set (W := D + Z.of_nat (length q)) in *.
  assert (∀ t, own !! t = Some p → False) as Hfree.
  { intros t Ht. destruct (Hown t p Ht) as (_ & _ & s & Hs & _). congruence. }
  assert (∀ t, D ≤ t < W → (q ++ [msg]) !! Z.to_nat (t - D) = q !! Z.to_nat (t - D)) as Hq
    by (intros t Ht; apply lookup_app_l; lia).
  assert (own !! W = None) as HW.
  { destruct (own !! W) as [p'|] eqn:E; [|done]. destruct (Hown _ _ E). lia. }
  split; cbn [acquireSend_ticket set_producer slotz writePos readPos producers reader];
    rewrite ?length_app; cbn [length]; try done.
  - rewrite Hw, u16_succ. f_equal. lia.
  - by apply reader_ok_app.
  - intros t Ht. destruct (Hsl t Ht) as (s & Hs & Hok). exists s. split; [done|].
    unfold slot_ok in *. rewrite length_app. cbn [length].
    destruct (decide (t = W)) as [->|Hne].
    + rewrite bool_decide_eq_false_2 in Hok by (unfold W; lia).
      rewrite bool_decide_eq_false_2; [done|]. rewrite lookup_insert_eq. by intros [].
    + rewrite lookup_insert_ne by done. case_bool_decide as H1; case_bool_decide as H2; try done.
      * rewrite Hq by lia. done.
      * destruct H2. split; [lia|apply H1].
      * destruct H1. destruct H2. split; [lia|done].
  - intros t p' Ht. destruct (decide (t = W)) as [->|Hne].
    + rewrite lookup_insert_eq in Ht. injection Ht as <-. split; [lia|]. split; [done|].
      exists (AtTest (writePos r) msg). rewrite lookup_partial_alter_eq. split; [done|]. split; [by rewrite Hw|].
      rewrite lookup_app_r by lia. by replace (Z.to_nat (W - D) - length q)%nat with 0%nat by lia.
    + rewrite lookup_insert_ne in Ht by done. destruct (Hown t p' Ht) as (Hb & Hth & s & Hs & Hok).
      split; [lia|]. split; [done|]. exists s. rewrite lookup_partial_alter_ne by congruence. split; [done|].
      destruct s; cbn in *; rewrite Hq by lia; done.
  - intros t t' p'. destruct (decide (t = W)) as [->|Hne], (decide (t' = W)) as [->|Hne'];
      rewrite ?lookup_insert_eq, ?lookup_insert_ne by done; try done.
    + intros [= <-] Ht'. by apply Hfree in Ht'.
    + intros Ht [= <-]. by apply Hfree in Ht.
    + apply Hinj.
  - intros p' s. destruct (decide (p' = p)) as [->|Hne].
    + intros _. exists W. apply lookup_insert_eq.
    + rewrite lookup_partial_alter_ne by done. intros Hs. destruct (Howned _ _ Hs) as [t Ht]. exists t.
      rewrite lookup_insert_ne; [done|]. intros <-. congruence.
  - intros t Ht. destruct (decide (t = W)) as [->|Hne]; [rewrite lookup_insert_eq; by eexists|].
    rewrite lookup_insert_ne by done. apply Hwait. lia.
Qed.

(** The owner of a ticket changes its own state and its slot. *)
Lemma step_owner r q D own t p sl s' :
  inv r q D own → own !! t = Some p → length sl = length (slotz r) →
  (∀ u, D ≤ u < D + SLOTS → ∃ s, sl !! index u = Some s ∧ slot_ok q D own u s) →
  (∀ u p' s, own !! u = Some p' → u ≠ t → producer_ok (slotz r) q D u s → producer_ok sl q D u s) →
  producer_ok sl q D t s' →
  inv (mkRing sl (writePos r) (readPos r) (partial_alter (λ _, Some s') p (producers r)) (reader r)) q D own.
Proof using.
  intros I Ht Hl Hsl' Hoth Hs'. pose proof I as [Hpos0 Hlen Hw Hr Hsl Hown Hinj Howned Hwait].
  split; cbn [slotz writePos readPos producers reader]; try done.
  - by rewrite Hl.
  - intros u p' Hu. destruct (Hown u p' Hu) as (Hb & Hth & s & Hs & Hok). split; [done|]. split; [done|].
    destruct (decide (u = t)) as [->|Hne].
    + assert (p' = p) as -> by congruence. exists s'. by rewrite lookup_partial_alter_eq.
    + exists s. rewrite lookup_partial_alter_ne by (intros <-; by eapply Hne, Hinj). split; [done|]. by eapply Hoth.
  - intros p' s Hs. destruct (decide (p' = p)) as [->|Hne]; [by exists t|].
    rewrite lookup_partial_alter_ne in Hs by done. by eapply Howned.
Qed.

Lemma step_test r q D own p wp msg :
  inv r q D own → producers r !! p = Some (AtTest wp msg) →
  inv (acquireSend_test SLOTS p wp msg r) q D own.
Proof using Hpos Hdiv Hfew.
  intros I Hp. unfold acquireSend_test. destruct (isWriteable SLOTS wp (slotz r)) eqn:Hw; [|done].
  destruct (i_owned _ _ _ _ I _ _ Hp) as [t Ht].
  destruct (i_own _ _ _ _ I _ _ Ht) as (Hb & _ & s & Hs & Hok). rewrite Hp in Hs. injection Hs as <-.
  destruct Hok as [-> Hq]. pose proof (inv_test _ _ _ _ _ I Hb Hw).
  apply (step_owner r q D own t p (slotz r)); try done. by apply I.
Qed.

(** The ticket of a producer that has left its loop. *)
Lemma own_window r q D own p s :
  inv r q D own → producers r !! p = Some s →
  ∃ t, own !! t = Some p ∧ D ≤ t < D + Z.of_nat (length q) ∧ producer_ok (slotz r) q D t s.
Proof using.
  intros I Hp. destruct (i_owned _ _ _ _ I _ _ Hp) as [t Ht]. exists t. split; [done|].
  destruct (i_own _ _ _ _ I _ _ Ht) as (Hb & _ & s' & Hs & Hok). by replace s with s' by congruence.
Qed.

Lemma other_producer f sl q D t u s :
  D ≤ t < D + SLOTS → u ≠ t → D ≤ u → producer_ok sl q D u s →
  producer_ok (alter f (index t) sl) q D u s.
Proof using Hpos threads.
  intros Ht Hne Hu Hok. destruct s; cbn in *; [done..|]. destruct Hok as (-> & Hlt & Hq). split_and!; [done..|].
  rewrite (window_alter _ _ _ _ _ Ht) by lia. rewrite decide_False, Hq by done. by destruct (sl !! index u).
Qed.

Lemma step_copy r q D own p wp msg :
  inv r q D own → producers r !! p = Some (AtCopy wp msg) →
  inv (send_copy SLOTS p wp msg r) q D own.
Proof using Hpos Hdiv.
  intros I Hp. destruct (own_window _ _ _ _ _ _ I Hp) as (t & Ht & Hb & -> & Hlt & Hq).
  unfold send_copy, set_slotz, set_producer. cbn [slotz writePos readPos producers reader].
  unfold setData. rewrite getSlot_ticket. assert (D ≤ t < D + SLOTS) as Ht' by lia.
  apply (step_owner r q D own t p); try done.
  - apply length_alter.
  - intros u Hu. destruct (i_slots _ _ _ _ I u Hu) as (s & Hs & Hok).
    rewrite (window_alter _ _ _ _ _ Ht' Hu), Hs. destruct (decide (t = u)) as [<-|Hne]; [|by exists s].
    eexists. split; [done|]. unfold slot_ok in *. rewrite bool_decide_eq_false_2 in Hok |- *; [done|..];
      rewrite Ht; by intros [].
  - intros u p' s Hu Hne Hok. destruct (i_own _ _ _ _ I _ _ Hu) as [Hb' _].
    by apply other_producer; [| |lia|].
  - cbn. split_and!; [done..|]. rewrite (window_alter _ _ _ _ _ Ht' Ht'), decide_True by done.
    destruct (i_slots _ _ _ _ I t Ht') as (s & Hs & _). by rewrite Hs.
Qed.

Lemma step_finish r q D own p wp t :
  inv r q D own → producers r !! p = Some (AtFinish wp) → own !! t = Some p →
  inv (finishSend SLOTS p wp r) q D (delete t own).
Proof using Hpos Hdiv.
  intros I Hp Ht. destruct (own_window _ _ _ _ _ _ I Hp) as (t' & Ht' & Hb & -> & Hlt & Hq).
  assert (t' = t) as -> by (by eapply I). clear Ht'. pose proof I as [Hpos0 Hlen Hw Hr Hsl Hown Hinj Howned Hwait].
  assert (D ≤ t < D + SLOTS) as Ht' by lia.
  assert (∀ u v, delete t own !! u = Some v ↔ u ≠ t ∧ own !! u = Some v) as Hdel.
  { intros u v. rewrite lookup_delete_Some. naive_solver. }
  split; unfold finishSend, set_slotz, set_producer, setReadable;
    cbn [slotz writePos readPos producers reader]; try done; rewrite ?getSlot_ticket.
  - by rewrite length_alter.
  - assert (arrived q D own → arrived q D (delete t own)) as Ha.
    { intros [Hl Ho]. split; [done|]. by apply lookup_delete_None; right. }
    destruct (reader r); cbn in *; naive_solver.
  - intros u Hu. destruct (Hsl u Hu) as (s & Hs & Hok).
    rewrite (window_alter _ _ _ _ _ Ht' Hu), Hs. destruct (decide (t = u)) as [<-|Hne].
    + eexists. split; [done|]. unfold slot_ok. rewrite lookup_delete_eq, bool_decide_eq_true_2 by (split; [lia|done]).
      cbn. rewrite readable_seq_ticket. by rewrite Hs in Hq.
    + exists s. split; [done|]. unfold slot_ok in *. by rewrite lookup_delete_ne.
  - intros u p' [Hne Hu]%Hdel. destruct (Hown u p' Hu) as (Hb' & Hth & s & Hs & Hok).
    split; [done|]. split; [done|]. exists s.
    rewrite lookup_partial_alter_ne by (intros <-; by eapply Hne, Hinj). split; [done|].
    by apply other_producer; [| |lia|].
  - intros u u' p' [_ Hu]%Hdel [_ Hu']%Hdel. by eapply Hinj.
  - intros p' s Hs. destruct (decide (p' = p)) as [->|Hne]; [by rewrite lookup_partial_alter_eq in Hs|].
    rewrite lookup_partial_alter_ne in Hs by done. destruct (Howned _ _ Hs) as [u Hu]. exists u.
    apply Hdel. split; [|done]. intros ->. congruence.
  - intros u Hu. rewrite lookup_delete_ne by lia. by apply Hwait.
Qed.

(** The consumer changes its own state. *)
Lemma step_reader r q D own rp c :
  inv r q D own → reader_ok q D own rp c →
  inv (mkRing (slotz r) (writePos r) rp (producers r) c) q D own.
Proof using. intros [] Hc. by split. Qed.

Lemma step_consumer r q D own r' :
  inv r q D own →
  (reader r = Idle ∧ (r' = acquireRecv_ticket r ∨ r' = tryAcquireRecv_load r)) ∨
  (∃ h, reader r = TestRecv h ∧ r' = acquireRecv_test SLOTS h r) ∨
  (∃ h, reader r = TryTest h ∧ r' = tryAcquireRecv_test SLOTS h r) ∨
  (∃ h, reader r = TryExchange h ∧ r' = tryAcquireRecv_exchange h r) ∨
  (∃ h, reader r = CopyRecv h ∧ recv_copy SLOTS h r = Some r') →
  inv r' q D own.
Proof using Hpos Hdiv.
  intros I Hcases. pose proof (i_read _ _ _ _ I) as Hr.
  destruct Hcases as [(E & [-> | ->])|[(h & E & ->)|[(h & E & ->)|[(h & E & ->)|(h & E & Hc)]]]];
    rewrite E in Hr; cbn in Hr.
  - unfold acquireRecv_ticket. apply step_reader; [done|]. cbn. by rewrite Hr, u16_succ.
  - by apply step_reader.
  - destruct Hr as [-> Hr]. unfold acquireRecv_test. destruct (isReadable SLOTS (u16 D) (slotz r)) eqn:Hread; [|done].
    apply step_reader; [done|]. apply (inv_readable _ _ _ _ I) in Hread. done.
  - destruct Hr as [-> Hr]. unfold tryAcquireRecv_test. apply step_reader; [done|].
    destruct (isReadable SLOTS (u16 D) (slotz r)) eqn:Hread; [|done].
    apply (inv_readable _ _ _ _ I) in Hread. done.
  - destruct Hr as (-> & Hr & Ha). unfold tryAcquireRecv_exchange. rewrite Hr, Z.eqb_refl.
    apply step_reader; [done|]. cbn. by rewrite u16_succ.
  - destruct Hr as (-> & Hr & Ha). unfold recv_copy, getData in Hc. rewrite getSlot_ticket in Hc.
    destruct (i_slots _ _ _ _ I D) as (s & Hs & Hok); [lia|]. rewrite Hs in Hc. injection Hc as <-.
    apply step_reader; [done|]. split_and!; [done..|]. destruct Ha as [Hl Ho].
    unfold slot_ok in Hok. rewrite bool_decide_eq_true_2 in Hok by (split; [lia|done]).
    destruct Hok as [_ Hok]. rewrite Z.sub_diag in Hok. by destruct q; cbn in *.
Qed.

Lemma step_rfinish r q D own h msg :
  inv r q D own → reader r = FinishRecv h msg →
  ∃ q', q = msg :: q' ∧ inv (finishRecv SLOTS h r) q' (D + 1) own.
Proof using Hpos Hdiv.
  intros I E. pose proof I as [Hpos0 Hlen Hw Hr Hsl Hown Hinj Howned Hwait].
  rewrite E in Hr. destruct Hr as (-> & Hr & [Hl Ho] & Hhd). destruct q as [|m q]; [done|].
  injection Hhd as ->. exists q. split; [done|]. cbn [length] in *.
  assert (∀ t, D + 1 ≤ t → (msg :: q) !! Z.to_nat (t - D) = q !! Z.to_nat (t - (D + 1))) as Hq.
  { intros t Ht. by replace (Z.to_nat (t - D)) with (S (Z.to_nat (t - (D + 1)))) by lia. }
  assert (∀ t p, own !! t = Some p → D + 1 ≤ t) as Hge.
  { intros t p Ht. destruct (Hown t p Ht) as [? _]. destruct (decide (t = D)) as [->|]; [congruence|lia]. }
  assert (D ≤ D < D + SLOTS) as HD by lia.
  split; unfold finishRecv, set_reader, set_slotz, setWriteable; cbn [slotz writePos readPos producers reader];
    rewrite ?getSlot_ticket; try done.
  - lia.
  - by rewrite length_alter.
  - rewrite Hw. f_equal. lia.
  - intros t Ht. destruct (decide (t = D + SLOTS)) as [->|Hne].
    + destruct (Hsl D HD) as (s & Hs & _). rewrite index_next, list_lookup_alter_eq, Hs.
      eexists. split; [done|]. unfold slot_ok. rewrite bool_decide_eq_false_2; [apply next_seq_ticket|].
      intros [Hlt Hnone]. destruct (Hwait (D + SLOTS)) as [p Hp]; [lia|]. congruence.
    + assert (D ≤ t < D + SLOTS) as Ht' by lia. destruct (Hsl t Ht') as (s & Hs & Hok). exists s.
      rewrite (window_alter _ _ _ _ _ HD Ht'), decide_False, Hs by lia. split; [done|].
      unfold slot_ok in *. cbn [length] in Hok. rewrite Hq in Hok by lia.
      rewrite (bool_decide_ext _ (t < D + Z.of_nat (S (length q)) ∧ own !! t = None)); [done|].
      split; (intros [??]; split; [lia|done]).
  - intros t p Ht. pose proof (Hge t p Ht). destruct (Hown t p Ht) as (Hb & Hth & s & Hs & Hok).
    split; [lia|]. split; [done|]. exists s. split; [done|].
    assert (producer_ok (alter (λ s, mkSlot (u16 (Z.shiftl (u16 D + SLOTS) 1)) (data s)) (index D) (slotz r))
      (msg :: q) D t s) as Hok' by (apply other_producer; [done|lia|lia|done]).
    destruct s; cbn in *; rewrite Hq in Hok' by lia; destruct_and?; split_and!; (done || lia).
  - intros t Ht. apply Hwait. lia.
Qed.

(** ** The ring is a queue *)

Definition related (r : ring) (q : list T) : Prop := ∃ D own, inv r q D own.

Lemma start_inv mem : Z.of_nat (length mem) = SLOTS → related (start mem) [].
Proof using Hpos.
  intros Hl. exists 0, ∅. split; cbn; try done.
  - unfold init. by rewrite length_imap.
  - intros t Ht. assert (Z.to_nat t < length mem)%nat as [s Hs]%lookup_lt_is_Some_2 by lia.
    exists (mkSlot (u16 (2 * t)) (data s)). unfold init, index. rewrite Z.mod_small by lia.
    rewrite list_lookup_imap, Hs. cbn. rewrite Z2Nat.id, Z.shiftl_mul_pow2, Z.mul_comm by lia.
    split; [done|]. unfold slot_ok. rewrite bool_decide_eq_false_2; [done|]. cbn. lia.
  - lia.
Qed.

Lemma step_related r e r' q :
  related r q → step r e r' → ∃ q', related r' q' ∧ replay queue_effect (option_list e) q = Some q'.
Proof using Hpos Hdiv Hfew.
  intros (D & own & I) Hs. inversion Hs; subst; clear Hs.
  - exists (q ++ [msg]). split; [|done]. eexists _, _. by apply step_ticket.
  - exists q. split; [|done]. eexists _, _. by apply step_test.
  - exists q. split; [|done]. eexists _, _. by apply step_copy.
  - exists q. split; [|done]. destruct (i_owned _ _ _ _ I _ _ H) as [t Ht].
    eexists _, _. by eapply step_finish.
  - exists q. split; [|done]. eexists _, _. eapply step_consumer; [done|]. left. auto.
  - exists q. split; [|done]. eexists _, _. eapply step_consumer; [done|]. right. left. eauto.
  - exists q. split; [|done]. eexists _, _. eapply step_consumer; [done|]. do 4 right. eauto.
  - destruct (step_rfinish _ _ _ _ _ _ I H) as (q' & -> & I'). exists q'. split; [by eexists _, _|].
    cbn. by rewrite decide_True.
  - exists q. split; [|done]. eexists _, _. eapply step_consumer; [done|]. left. auto.
  - exists q. split; [|done]. eexists _, _. eapply step_consumer; [done|]. do 2 right. left. eauto.
  - exists q. split; [|done]. eexists _, _. eapply step_consumer; [done|]. do 3 right. left. eauto.
Qed.

(** C22: however the accesses of the producers and of the consumer interleave, the
    ring is a queue: the messages that have been received are a run of a queue to
    which each message is appended when its producer takes a ticket.  No message
    is lost, received twice, changed or reordered, also when the 16-bit counters
    and sequence numbers wrap around, if the number of slots divides [2^16] and
    slots and producers together are not more than [2^15]. *)
Theorem ring_is_queue mem evs r :
  Z.of_nat (length mem) = SLOTS → execution step (start mem) evs r →
  ∃ q, replay queue_effect evs [] = Some q ∧ Z.of_nat (length q) ≤ SLOTS + Z.of_nat (size threads).
Proof using Hpos Hdiv Hfew.
  intros Hl Hx. destruct (execution_simulates step queue_effect related (start mem) [] evs r)
    as (q & (D & own & I) & Hq); [intros; by eapply step_related|by apply start_inv|done|].
  exists q. split; [done|]. by eapply inv_few.
Qed.

(** ** Progress *)

Definition receives (m : T) (r : ring) : Prop := ∃ r', execution step r [Recv m] r'.

Lemma receives_before r r' m : step r None r' → receives m r' → receives m r.
Proof using. intros Hs [r'' Hx]. exists r''. by eapply (execution_prepend step r None). Qed.

Lemma receives_copied r m q D own h :
  inv r (m :: q) D own → reader r = CopyRecv h → receives m r.
Proof using Hpos Hdiv.
  intros I E. destruct (i_slots _ _ _ _ I D) as (s & Hs & _); [lia|].
  pose proof (i_read _ _ _ _ I) as Hr. rewrite E in Hr. destruct Hr as (-> & _).
  assert (recv_copy SLOTS (u16 D) r = Some (set_reader (FinishRecv (u16 D) (data s)) r)) as Hc.
  { unfold recv_copy, getData. by rewrite getSlot_ticket, Hs. }
  apply (receives_before _ (set_reader (FinishRecv (u16 D) (data s)) r)); [by eapply s_rcopy|].
  assert (inv (set_reader (FinishRecv (u16 D) (data s)) r) (m :: q) D own) as I'.
  { eapply step_consumer; [done|]. do 4 right. eauto. }
  destruct (step_rfinish _ _ _ _ (u16 D) (data s) I' eq_refl) as (q' & [= <- <-] & _).
  eexists. eapply execution_step; [apply x_refl|by eapply s_rfinish|done].
Qed.

Lemma receives_arrived r m q D own h :
  inv r (m :: q) D own → reader r = TestRecv h → own !! D = None → receives m r.
Proof using Hpos Hdiv.
  intros I E Ho. pose proof (i_read _ _ _ _ I) as Hr. rewrite E in Hr. destruct Hr as (-> & _).
  assert (isReadable SLOTS (u16 D) (slotz r) = true) as Hread.
  { apply (inv_readable _ _ _ _ I). split; [cbn; lia|done]. }
  assert (inv (acquireRecv_test SLOTS (u16 D) r) (m :: q) D own) as I'.
  { eapply step_consumer; [done|]. right. left. eauto. }
  apply (receives_before _ (acquireRecv_test SLOTS (u16 D) r)); [by apply s_rtest|].
  eapply receives_copied; [done|]. unfold acquireRecv_test. by rewrite Hread.
Qed.

Lemma set_producer_eq p s (r : ring) : producers (set_producer p s r) !! p = s.
Proof using. unfold set_producer. cbn [producers]. by rewrite lookup_partial_alter_eq. Qed.

(** The owner of the first ticket completes its message. *)
Lemma receives_owned m q D own h p : own !! D = Some p →
  ∀ n r s, inv r (m :: q) D own → reader r = TestRecv h → producers r !! p = Some s →
  n = (match s with AtFinish _ => 0 | AtCopy _ _ => 1 | AtTest _ _ => 2 end)%nat → receives m r.
Proof using Hpos Hdiv Hfew.
  intros Ho n. induction n as [n IH] using lt_wf_ind. intros r s I E Hp ->.
  destruct (own_window _ _ _ _ _ _ I Hp) as (t & Ht & Hb & Hok).
  assert (t = D) as -> by (by eapply I). destruct s as [wp msg|wp msg|wp].
  - destruct Hok as [-> Hq]. apply (receives_before _ (acquireSend_test SLOTS p (u16 D) msg r)); [by apply s_test|].
    pose proof (step_test _ _ _ _ _ _ _ I Hp) as I'. unfold acquireSend_test in *.
    assert (isWriteable SLOTS (u16 D) (slotz r) = true) as Hw.
    { unfold isWriteable. rewrite bool_decide_eq_true, getSlot_ticket, writeable_seq_ticket.
      destruct (i_slots _ _ _ _ I D) as (s & Hs & Hsl); [lia|]. rewrite Hs. cbn. unfold slot_ok in Hsl.
      rewrite bool_decide_eq_false_2 in Hsl by (rewrite Ho; by intros []). by rewrite Hsl. }
    rewrite Hw in *. apply (IH 1%nat ltac:(lia) _ (AtCopy (u16 D) msg)); [exact I'|exact E|by rewrite set_producer_eq|done].
  - apply (receives_before _ (send_copy SLOTS p wp msg r)); [by apply s_copy|].
    apply (IH 0%nat ltac:(lia) _ (AtFinish wp));
      [by apply step_copy|exact E|unfold send_copy; by rewrite set_producer_eq|done].
  - apply (receives_before _ (finishSend SLOTS p wp r)); [by apply s_finish|].
    eapply receives_arrived; [by eapply step_finish|exact E|apply lookup_delete_eq].
Qed.

(** No message gets stuck: while the consumer waits in [recv] and a message is
    in the ring, steps of the producer that owns the first ticket and of the
    consumer alone deliver the first message. *)
Theorem ring_delivers mem evs r q h m :
  Z.of_nat (length mem) = SLOTS → execution step (start mem) evs r →
  replay queue_effect evs [] = Some (m :: q) → reader r = TestRecv h →
  ∃ r', execution step r [Recv m] r'.
Proof using Hpos Hdiv Hfew.
  intros Hl Hx Hq E. destruct (execution_simulates step queue_effect related (start mem) [] evs r)
    as (q' & (D & own & I) & Hq'); [intros; by eapply step_related|by apply start_inv|done|].
  rewrite Hq in Hq'. injection Hq' as <-. destruct (own !! D) as [p|] eqn:Ho.
  - destruct (i_own _ _ _ _ I _ _ Ho) as (_ & _ & s & Hs & _). by eapply receives_owned.
  - by eapply receives_arrived.
Qed.
End correct.

(** ** Examples *)

Definition two_slots : list (Slot (T := Z)) := [mkSlot 77 0; mkSlot 78 0].

(** Two producers send, and the second message is complete before the first. *)
Definition ex_sent : ring (T := Z) :=
  acquireRecv_ticket
    (finishSend 2 8 1 (send_copy 2 8 1 22 (acquireSend_test 2 8 1 22
      (acquireSend_ticket 8 22 (acquireSend_ticket 7 11 (start two_slots)))))).

Lemma ex_sent_reached : execution (step 2 {[7; 8]}) (start two_slots) [Send 11; Send 22] ex_sent.
Proof.
  last_step [Send 11; Send 22] ltac:(apply s_rticket).
  last_step [Send 11; Send 22] ltac:(eapply s_finish).
  last_step [Send 11; Send 22] ltac:(eapply s_copy).
  last_step [Send 11; Send 22] ltac:(eapply s_test).
  last_step [Send 11] ltac:(eapply s_ticket; [set_solver|]).
  last_step (@nil (event (T := Z))) ltac:(eapply s_ticket; [set_solver|]). apply x_refl.
Qed.

Lemma slots_divide : (2 | 2 ^ 16).
Proof. by exists (2 ^ 15). Qed.

Lemma threads_few : 2 + Z.of_nat (size (C := gset Z) {[7; 8]}) ≤ 2 ^ 15.
Proof. by vm_compute. Qed.

Lemma ring_is_queue_witness :
  ∃ q, replay queue_effect [Send 11; Send 22] [] = Some q ∧ Z.of_nat (length q) ≤ 2 + Z.of_nat (size (C := gset Z) {[7; 8]}).
Proof.
  apply (ring_is_queue (T := Z) 2 eq_refl slots_divide {[7; 8]} threads_few two_slots _ ex_sent);
    [reflexivity|exact ex_sent_reached].
Defined.

Lemma ring_delivers_witness : ∃ r', execution (step 2 {[7; 8]}) ex_sent [Recv 11] r'.
Proof.
  apply (ring_delivers (T := Z) 2 eq_refl slots_divide {[7; 8]} threads_few two_slots
    [Send 11; Send 22] ex_sent [22] 0 11); [reflexivity|exact ex_sent_reached|reflexivity|reflexivity].
Defined.

(** With a number of slots that does not divide [2^16] the wrap-around of the
    counters skips slots: tickets [65535] and [65536] of three slots share one. *)
Lemma three_slots_wrap : getSlot 3 (u16 65535) = getSlot 3 (u16 65536).
Proof. reflexivity. Qed.

(** ** The data that is written back

    [PCIeRingChannel::flush] writes the lines of a slot back to memory that start
    below [bytes]; mythos/pci-mpsc-queue/mythos/PciMsgQueueMPSC.hh:67-70 *)
Definition flush (bytes : Z) : list Z := (λ i, 64 * Z.of_nat i) <$> List.seq 0 (Z.to_nat ((bytes + 63) / 64)).

(** The lines of a slot that hold the sequence number and a message of [bytes]. *)
Definition written_lines (bytes : Z) : list Z :=
  (λ i, 64 * Z.of_nat i) <$> List.seq 0 (Z.to_nat ((2 + bytes + 63) / 64)).

(** [send] passes the size of the message to [finishSend], without the two bytes
    of the sequence number before it: the end of a message of 64 bytes is not
    written back. *)
Lemma flush_short : flush 64 = [0] ∧ written_lines 64 = [0; 64].
Proof. done. Qed.

End PCIeRing.

(** * Log messages over the ring

    The sink of boot/kernel-amd64-knc/boot/mlog.cc cuts log messages into packages,
    and host/xmicterm/host/xmicterm.cc puts them together again for each sending
    hardware thread. *)

Module DebugLog.

(** [DebugMsg::PAYLOAD], mythos/host-info-table-knc/mythos/HostInfoTable.hh:48-49 *)
Definition PAYLOAD : Z := (128 - 2) - 2 * 8 - 2.

(** [DebugMsg], mythos/host-info-table-knc/mythos/HostInfoTable.hh:43-51 *)
Record DebugMsg := mkMsg { vchannel : Z; msgbytes : Z; payload : list Z }.

(** [MLogSinkPci::sendPkg]: the message that it sends, boot/kernel-amd64-knc/boot/mlog.cc:51-64 *)
Definition sendPkg (msg : list Z) (v n : Z) : DebugMsg :=
  if PAYLOAD <? n then mkMsg v (u16 n) (take (Z.to_nat PAYLOAD) msg)
  else mkMsg v (u16 n) (take (Z.to_nat n) msg).

(** [MLogSinkPci::write]: the messages that it sends, boot/kernel-amd64-knc/boot/mlog.cc:66-75 *)
Fixpoint write_loop (fuel : nat) (v : Z) (msg : list Z) (n : Z) : list DebugMsg :=
  match fuel with
  | O => []
  | S fuel =>
    if PAYLOAD <? n
    then sendPkg msg v n :: write_loop fuel v (drop (Z.to_nat PAYLOAD) msg) (n - PAYLOAD)
    else [sendPkg msg v n]
  end.

Definition write (v : Z) (msg : list Z) : list DebugMsg :=
  write_loop (S (length msg)) v msg (Z.of_nat (length msg)).

(** The streams of [main] and the messages that went to the logger. *)
Record terminal := mkTerm { messages : gmap Z (list Z); logged : list (Z * list Z) }.

(** [main]: one round of the loop, host/xmicterm/host/xmicterm.cc:290-309 *)
Definition receive (t : terminal) (m : DebugMsg) : terminal :=
  let stream := default [] (messages t !! vchannel m) in
  if msgbytes m <=? PAYLOAD
  then mkTerm (<[vchannel m := []]> (messages t))
         (logged t ++ [(vchannel m, stream ++ take (Z.to_nat (msgbytes m)) (payload m))])
  else mkTerm (<[vchannel m := stream ++ take (Z.to_nat PAYLOAD) (payload m)]> (messages t)) (logged t).

(** What the terminal has logged for a channel, and the unfinished message. *)
Definition log_of (v : Z) (t : terminal) : list (list Z) :=
  snd <$> filter (λ x, x.1 = v) (logged t).
Definition stream_of (v : Z) (t : terminal) : list Z := default [] (messages t !! v).

Definition sent_by (v : Z) (pkgs : list DebugMsg) : list DebugMsg := filter (λ m, vchannel m = v) pkgs.

Lemma receive_other v t m :
  vchannel m ≠ v → log_of v (receive t m) = log_of v t ∧ stream_of v (receive t m) = stream_of v t.
Proof.
  intros Hv. unfold receive, log_of, stream_of. destruct (_ <=? _); cbn [logged messages].
  - rewrite filter_app, lookup_insert_ne by done.
    assert (filter (λ x : Z * list Z, x.1 = v)
      [(vchannel m, default [] (messages t !! vchannel m) ++ take (Z.to_nat (msgbytes m)) (payload m))] = [])
      as -> by (by rewrite filter_cons_False).
    by rewrite app_nil_r.
  - by rewrite lookup_insert_ne.
Qed.

(** The terminal looks at one channel as if it were alone. *)
Lemma receive_channel v t t' m :
  vchannel m = v → log_of v t = log_of v t' → stream_of v t = stream_of v t' →
  log_of v (receive t m) = log_of v (receive t' m) ∧ stream_of v (receive t m) = stream_of v (receive t' m).
Proof.
  intros <- Hl Hs. unfold stream_of in Hs. unfold receive. rewrite Hs.
  unfold log_of, stream_of in *. destruct (_ <=? _); cbn [logged messages]; rewrite !lookup_insert_eq.
  - rewrite !filter_app, !fmap_app, Hl. done.
  - done.
Qed.

Lemma receive_filter v pkgs : ∀ t t',
  log_of v t = log_of v t' → stream_of v t = stream_of v t' →
  log_of v (foldl receive t pkgs) = log_of v (foldl receive t' (sent_by v pkgs)) ∧
  stream_of v (foldl receive t pkgs) = stream_of v (foldl receive t' (sent_by v pkgs)).
Proof.
  induction pkgs as [|m pkgs IH]; intros t t' Hl Hs; [done|]. cbn [foldl]. unfold sent_by in *.
  destruct (decide (vchannel m = v)) as [Hv|Hv].
  - rewrite filter_cons_True by done. cbn [foldl]. apply IH; by apply receive_channel.
  - rewrite filter_cons_False by done. destruct (receive_other v t m Hv) as [E1 E2].
    apply IH; congruence.
Qed.

(** The packages of one message complete it. *)
Lemma receive_write v fuel : ∀ msg t,
  (length msg < fuel)%nat → Z.of_nat (length msg) < 2 ^ 16 →
  log_of v (foldl receive t (write_loop fuel v msg (Z.of_nat (length msg)))) =
    log_of v t ++ [stream_of v t ++ msg] ∧
  stream_of v (foldl receive t (write_loop fuel v msg (Z.of_nat (length msg)))) = [].
Proof.
  induction fuel as [|fuel IH]; intros msg t Hf Hlen; [lia|]. cbn [write_loop]. unfold sendPkg.
  assert (u16 (Z.of_nat (length msg)) = Z.of_nat (length msg)) as Ew by (apply wrap_small; unfold fits; lia).
  change PAYLOAD with 108 in *. destruct (Z.ltb_spec 108 (Z.of_nat (length msg))) as [Hlt|Hge].
  - cbn [foldl]. set (t1 := receive t _).
    assert (log_of v t1 = log_of v t ∧ stream_of v t1 = stream_of v t ++ take 108 msg) as [El Es].
    { unfold t1, receive. cbn [vchannel msgbytes payload]. rewrite Ew.
      change PAYLOAD with 108. rewrite (proj2 (Z.leb_gt _ _)) by lia. split; [done|].
      unfold stream_of at 1. cbn [messages]. rewrite lookup_insert_eq. cbn [default].
      by rewrite take_take. }
    change (Z.to_nat 108) with 108%nat.
    replace (Z.of_nat (length msg) - 108) with (Z.of_nat (length (drop 108 msg))) by (rewrite length_drop; lia).
    destruct (IH (drop 108 msg) t1) as [E1 E2]; [rewrite length_drop; lia..|].
    rewrite E1, E2, El, Es, <-app_assoc, take_drop. done.
  - cbn [foldl]. unfold receive. cbn [vchannel msgbytes payload]. rewrite Ew. change PAYLOAD with 108.
    rewrite (proj2 (Z.leb_le _ _)) by lia. unfold log_of, stream_of. cbn [logged messages].
    rewrite Nat2Z.id, !firstn_all, lookup_insert_eq, filter_app, filter_cons_True, fmap_app by done. done.
Qed.

Lemma receive_writes v msgs : ∀ t,
  stream_of v t = [] → Forall (λ msg, Z.of_nat (length msg) < 2 ^ 16) msgs →
  log_of v (foldl receive t (concat (write v <$> msgs))) = log_of v t ++ msgs.
Proof.
  induction msgs as [|msg msgs IH]; intros t Hs Hall; [by rewrite app_nil_r|].
  apply Forall_cons in Hall as [Hlen Hall]. cbn [fmap list_fmap concat]. rewrite foldl_app.
  destruct (receive_write v (S (length msg)) msg t) as [E1 E2]; [lia|done|].
  fold (write v msg) in E1, E2. rewrite IH by done. rewrite E1, Hs, <-app_assoc. done.
Qed.

(** The terminal on the host puts the log messages together again: whatever
    the packages of the hardware threads' messages are mixed with, if those of one
    thread arrive in order and its messages are shorter than 64 KiB, then exactly
    these messages are logged for it, in order. *)
Theorem debug_log_roundtrip v msgs pkgs :
  sent_by v pkgs = concat (write v <$> msgs) → Forall (λ msg, Z.of_nat (length msg) < 2 ^ 16) msgs →
  log_of v (foldl receive (mkTerm ∅ []) pkgs) = msgs.
Proof.
  intros Hsent Hall. destruct (receive_filter v pkgs (mkTerm ∅ []) (mkTerm ∅ [])) as [-> _]; [done..|].
  rewrite Hsent. by apply receive_writes.
Qed.

(** A message of 64 KiB or more looks complete too early: its length is cut to 16
    bits in the header of the first package. *)
Lemma debug_log_long : msgbytes (sendPkg (replicate (Z.to_nat 65586) 0) 3 65586) = 50.
Proof. reflexivity. Qed.

(** Two threads whose packages are mixed. *)
Definition ex_long : list Z := Z.of_nat <$> List.seq 0 300.
Definition ex_mixed : list DebugMsg :=
  match write 5 ex_long with
  | a :: rest => a :: write 6 [1; 2] ++ rest
  | [] => []
  end.

Lemma debug_log_roundtrip_witness : log_of 5 (foldl receive (mkTerm ∅ []) ex_mixed) = [ex_long].
Proof.
  apply (debug_log_roundtrip 5 [ex_long] ex_mixed); [vm_compute; reflexivity|].
  constructor; [done|constructor].
Defined.

End DebugLog.
